(* ===== verification/_CoqProject ===== *)
-Q . S2P
Prelude.v
GoText.v
GoHeap.v
Timers.v
Structs.v
EvalBroker.v
EvalBrokerCore.v
EvalBrokerInv.v
EvalBrokerProps.v
BlockedEvals.v
BlockedEvalsProps.v
Bitmap.v
Resources.v
Jobs.v
Allocs.v
Network.v
NetworkAssign.v
NetworkAssignProps.v
Fit.v
Plans.v
FitProps.v
PlanApply.v
PlanApplyProps.v
AllocSets.v
NameIndex.v
Reconcile.v
ReconcileSpec.v
ReconcileGroup.v
ReconcileProps.v
ReconcileJob.v
SchedContext.v
Feasible.v
Stack.v
StackSpec.v
StackPack.v
StackSelect.v
StackProps.v
SchedUtil.v
SchedUtilSpec.v
SystemSched.v
SystemSpec.v
SystemAttempt.v
SystemProps.v
GenericSched.v
GenericAttempt.v
GenericLog.v
GenericProps.v
PlanQueue.v
MemDB.v
MemDBSpec.v
StateStore.v
StoreSpec.v
StoreInv.v
StoreQuery.v
StoreStatus.v
StoreAllocs.v
StoreVersions.v
StoreProps.v
StorePlan.v
TimeTable.v
Periodic.v
PeriodicProps.v
JobCanon.v
Harness.v
HarnessSpec.v
Fsm.v
FsmRestore.v
FsmSpec.v
FsmAgree.v
FsmProps.v
FsmDemo.v
CoreSched.v
CoreProps.v
Server.v
ServerJobs.v
ServerProps.v
Leader.v
ServerDemo.v
