(* ===== verification/Prelude.v ===== *)
(** * Nomad: a verification library of the server

    Nomad places the task groups of jobs on nodes.  A change of a job or a node becomes
    an evaluation; the broker of the leader hands evaluations to schedulers; a scheduler
    reconciles what a job wants with what runs, selects nodes for what is missing and
    submits a plan; the plan queue and the plan applier of the leader verify the plan
    against the newest state and commit what fits.  Evaluations whose job does not fit
    anywhere are blocked until capacity appears.  All state is in the state store, which
    every server builds by applying the same Raft log; the endpoints of the leader write
    to that log, and a server that becomes the leader rebuilds its queues from the store.
    This library models these components as they are written in Go and proves what makes
    each of them, and some of their compositions, correct.

    ** The parts and their files

    - [Prelude]: record updates, 64-bit integers, collections of map entries, lists, the
      hint databases [nomad].
    - [GoText]: the functions of Go's [strings] and [strconv] that the schedulers use,
      and [float64] as IEEE 754 binary64.  [GoHeap]: [container/heap] with
      the heap property.  [Timers]: [time.AfterFunc] as a store of timers.
    - [Structs], [Resources], [Jobs], [Allocs], [Plans]: the records of
      nomad/structs/structs.go and the methods that the components call.
    - [EvalBroker] (nomad/eval_broker.go): the state and every method; [EvalBrokerCore]
      the places an evaluation can be in, [EvalBrokerInv] the invariant of all
      interleavings, [EvalBrokerProps] the properties.
    - [BlockedEvals], [BlockedEvalsProps] (nomad/blocked_evals.go): the tracker of blocked
      evaluations over the interface [EvalSink], which the broker implements.
    - [Bitmap] (nomad/structs/bitmap.go), [Network], [NetworkAssign],
      [NetworkAssignProps] (nomad/structs/network.go): the ports and the bandwidth in use
      on a node and the search for an offer.
    - [Fit], [FitProps] (nomad/structs/funcs.go): [AllocsFit] against a specification of
      what fits on a node, and the filters of allocations.
    - [PlanQueue] (nomad/plan_queue.go): the queue of plans with the futures of their
      submitters.  [PlanApply], [PlanApplyProps] (nomad/plan_apply.go): the verification
      of a plan with the answers of the worker pool in any order.
    - [AllocSets], [NameIndex] (scheduler/reconcile_util.go), [Reconcile],
      [ReconcileSpec], [ReconcileGroup], [ReconcileProps], [ReconcileJob]
      (scheduler/reconcile.go): the reconciler with deployments, canaries and rolling
      updates, of a group and of a whole job.
    - [SchedContext] (scheduler/context.go, nomad/structs/node_class.go): proposed
      allocations, metrics, computed classes and their eligibility.  [Feasible]
      (the checkers of scheduler/feasible.go, and scheduler/propertyset.go), [Stack] (the iterators of feasible.go, rank.go and
      select.go, and the stacks of stack.go), [StackSpec], [StackPack], [StackSelect],
      [StackProps]: the selection of a node.
    - [SchedUtil], [SchedUtilSpec] (scheduler/util.go): the diff of a system job, in-place
      updates, evictions and the retry loop, over the interfaces [Planner] and
      [StackOps].  [SystemSched], [SystemSpec], [SystemAttempt], [SystemProps]
      (scheduler/system_sched.go): the system scheduler, from an evaluation to its plan.
    - [GenericSched] (scheduler/generic_sched.go): the scheduler of service and batch jobs,
      a selection and the callback of the reconciler; [GenericAttempt] an attempt, [GenericLog] the calls of the planner, [GenericProps] the properties.
    - [MemDB], [MemDBSpec] (the vendored go-memdb: index.go, txn.go): the keys that the
      indexers build, and the tables with their indexes; a radix tree is an ordered map.
    - [StateStore] (nomad/state/state_store.go, schema.go): the tables, every transaction
      that writes them, the queries and the restore functions.  [StoreSpec] the
      well-formed stores and the rules of the transactions, [StoreInv] that every
      transaction keeps them well-formed, [StoreQuery] the answers of the queries,
      [StoreStatus], [StoreAllocs], [StoreVersions] what is written for
      jobs, allocations and versions, [StoreProps] the properties, [StorePlan] the
      commit of a plan that the applier has checked.
    - [TimeTable] (nomad/timetable.go): when the entries of the log were applied.
      [Periodic], [PeriodicProps] (nomad/periodic.go): the dispatcher of periodic jobs,
      over the interface [JobEvalDispatcher].  [JobCanon]: canonical jobs.
    - [Harness] (scheduler/testing.go, scheduler.go), [HarnessSpec]: schedulers that run
      on a store, and tables that no query tells apart.
    - [Fsm] (nomad/fsm.go): the Raft state machine with all its messages, snapshots and
      their restoration.  [FsmRestore] the round trip of a snapshot, [FsmSpec] the
      invariant, [FsmAgree] two replicas, [FsmProps] the properties, [FsmDemo] two small
      servers on which they are used.
    - [CoreSched], [CoreProps] (nomad/core_sched.go): garbage collection, over the
      interface [CoreServer], which the server of [ServerJobs] implements.
    - [Server] (nomad/rpc.go, eval_endpoint.go, node_endpoint.go, heartbeat.go): the
      server with its state machine, its log and its heartbeat timers, and the requests
      that change evaluations and nodes.  [ServerJobs] (nomad/job_endpoint.go): the
      requests for jobs.  [ServerProps] their properties.
    - [Leader] (nomad/leader.go): becoming the leader and stepping down, and the turns of
      the leader's goroutines, with their properties.  [ServerDemo]: small servers on
      which the properties of the endpoints and the leader are used.

    ** How the code is modelled

    A struct is a record and a field assignment an update of it; the state of a component
    is passed along.  A nil-checked pointer is an [option]; where Go would panic (a nil
    dereference, an index out of range, a division by zero) the definition is [None], an
    error value is the left side of a sum.  A Go map is a [gmap]; the order in which
    [range] visits it is an argument that lists the entries, and the theorems hold for
    every such order.  Clocks, random draws, UUIDs, regular expressions, version
    constraints, CIDR parsing, hashing, [math.Pow], the Unicode tables of
    [strings.ToLower] and the reads of a snapshot are arguments (the classes [TextLibs],
    [StackLibs], [CaseLib] and [RangeOrder], the records of snapshots); so are the cron
    library, the encoding of messages, the outcome of Raft, the Vault client and the
    checks of job fields ([CronLib], [Codec], [ServerEnv], [JobEnv]); what the code
    relies on is a named hypothesis, such as [libs_ok], [classed] and [CaseLaws], which
    says that lower case introduces no zero byte.  A transaction of the store is a state
    monad with errors, which [commit] undoes; objects of a request that the code changes
    in place are values.  Integers
    are kept at 64 bits where sums can overflow ([wrap64]), and theorems about sums say
    which sums must stay in range ([in_range]).  Critical sections are steps: a component
    with goroutines is a step relation, and its properties hold in every reachable state.

    ** Fuel

    The loops of the iterators run on [loopFuel], one more than the number of nodes: an
    iterator takes each node at most once from its source ([consumes_filter]).  The walk
    over the addresses of a network is bounded by 2^129, above the number of addresses
    of 16 bytes ([walk_ends]).  Deletion by swapping, shuffles and heap operations run on
    the length of the slice.  The in-place updates of a scheduler run on the number of
    updates, and the attempts of an evaluation are bounded by how often the planner
    commits progress ([system_process_ends], [generic_process_ends]).  The schedulers
    that the state machine runs have fuel for ten attempts, of which they use one, since
    the harness commits every plan; the loop that restores a snapshot runs on the length
    of its bytes ([restore_atomic]); the loops that split a request for removal run on
    the number of identifiers ([evalReapLoop_spec]).  None of the theorems is conditional
    on the fuel.

    ** What is shown

    - Broker: at most one evaluation of a job is ready or delivered; an accepted
      evaluation stays in exactly one place until it is acknowledged; delivery by
      priority, bounded redelivery, the hand-over between evaluations of a job, accurate
      statistics, and no crash in any interleaving.
    - Blocked evaluations: no wakeup is lost, one evaluation per job, all outcomes.
    - Plans: the applier never overcommits a node and commits whole nodes; every
      submitter of a plan is answered.
    - Fit: [AllocsFit] decides the specification; bitmaps are sets of indexes; an
      assigned network collides with nothing.
    - Reconciler: a run converges to the count of the group with distinct names; updates
      are bounded; paused deployments place nothing; stopped jobs stop everything.
    - Selection: the shortcuts by computed class change no verdict; the selected node
      satisfies every constraint and has the best score of the candidates; the applier's
      check accepts the placement.
    - System jobs: an attempt leaves each required group on each ready node placed,
      running or failed for a reason; an evaluation ends.
    - Service and batch jobs: an attempt for a service job accounts for every live
      allocation and brings each group to its count of kept, placed and failed ones; an
      evaluation ends; whatever could not be placed is left to a blocked evaluation.
    - State store: in every store that the transactions reach, tables and indexes agree,
      and the queries return exactly what is asked for; allocations and evaluations leave
      their jobs with the right status; registering a job keeps the newest and the newest
      stable version.  A plan that is checked against the store and written to it leaves
      no node overcommitted.
    - State machine: whatever log of checked messages is applied, store, broker, tracker,
      dispatcher and time table are in order; two replicas that apply the same log have
      the same store; the leader hands every evaluation on; a snapshot restores to the
      same store, and a restoration that fails changes nothing.
    - Periodic jobs and the time table: the dispatcher launches what it tracks at the
      earliest time; the table dates the log up to its granularity.
    - Garbage collection: a run asks for the removal of exactly what is garbage.
    - Endpoints: a scheduler that lost its evaluation is fenced off; a change of a node is
      followed by one evaluation for each job that it concerns; registering a job again
      changes nothing; a dispatched job keeps the contract of its parent.
    - Leadership: a new leader takes over every unfinished evaluation.
    - Where the code does something else than it means to, a theorem shows it: the scan
      of the broker, waiting evaluations of a disabled broker, a negative limit and a
      bitmap that is too short in the reconciler, missing canary names, reserved
      resources that count twice in the score, a system job that has moved, versions of a
      job beyond 255, of a removed job, and of a deployment that succeeds late, the launch
      of a new periodic job, an enforced index that is checked too early, and workers that
      stay paused.

    ** Not modelled

    The loop of the workers, the deployment watcher, the queries and the remaining RPC
    endpoints are not modelled; the checks of the fields of a job and the list of servers
    in the replies to nodes are arguments or left out.  Raft, Serf, Vault,
    Consul and TLS are libraries or services outside the repository.  The client, its
    drivers, the command line, the HTTP agent and the job file parser act on processes,
    files, containers and formats of libraries. *)

From stdpp Require Import base gmap strings list fin_maps sorting.
From Stdlib Require Import ZArith Lia.

(** ** Record update

    Go structs are records; a field assignment [s.f = v] is [s <| f := v |>].
    A record type provides its eta expansion once, and the setter of each
    projection is derived from it by [derive_upd]. *)

Class Eta (R : Type) := eta_of : R → R.

Class Updates {R T : Type} (p : R → T) := upd_field : (T → T) → R → R.

Arguments upd_field {R T} p {_} _ _ : simpl nomatch.

Ltac derive_upd :=
  match goal with
  | |- @Updates ?R ?T ?p =>
      let e := constr:(_ : Eta R) in
      let b := eval hnf in e in
      let g := constr:(fun (f : T → T) (r : R) =>
        ltac:(let body := eval cbv beta in (b r) in
              match body with
              | context C [p r] => let b' := context C [f (p r)] in exact b'
              end)) in
      exact g
  end.

#[export] Hint Extern 1 (Updates _) => derive_upd : typeclass_instances.

Declare Scope nomad_scope.
Delimit Scope nomad_scope with nomad.
Notation "r <| p := v |>" := (upd_field p (fun _ => v) r)
  (at level 1, left associativity, format "r  <| p  :=  v |>") : nomad_scope.
Notation "r <| p ::= f |>" := (upd_field p f r)
  (at level 1, left associativity, format "r  <| p  ::=  f |>") : nomad_scope.
#[global] Open Scope nomad_scope.

(** ** Machine integers: Go's [int] and [time.Duration] are 64-bit. *)

Definition wrap64 (z : Z) : Z := ((z + 2 ^ 63) mod 2 ^ 64 - 2 ^ 63)%Z.

Lemma wrap64_id z : (- 2 ^ 63 ≤ z < 2 ^ 63)%Z → wrap64 z = z.
Proof. intros H. unfold wrap64. rewrite Z.mod_small by lia. lia. Qed.

Lemma wrap64_range z : (- 2 ^ 63 ≤ wrap64 z < 2 ^ 63)%Z.
Proof. unfold wrap64. pose proof (Z.mod_pos_bound (z + 2 ^ 63) (2 ^ 64) ltac:(lia)). lia. Qed.

(** ** Maps as collections

    The entries of a Go map, and of a Go map of slices, as one list up to
    permutation: how the components count and partition what they hold. *)

Definition vals `{Countable K} {A} (m : gmap K A) : list A := (map_to_list m).*2.
Definition flat `{Countable K} {A} (s : gmap K (list A)) : list A := concat (vals s).

Section collections.
Context {K : Type} `{Countable K} {A : Type}.
Implicit Types (m : gmap K A) (s : gmap K (list A)).

Lemma elem_of_vals m x : x ∈ vals m ↔ ∃ k, m !! k = Some x.
Proof.
  unfold vals. rewrite list_elem_of_fmap. split.
  - intros ([k y] & -> & Hin%elem_of_map_to_list). eauto.
  - intros [k Hk]. exists (k, x). split; [done|]. by apply elem_of_map_to_list.
Qed.

Lemma length_vals m : length (vals m) = size m.
Proof. unfold vals. by rewrite length_fmap, length_map_to_list. Qed.

Lemma vals_empty : vals (∅ : gmap K A) = [].
Proof. unfold vals. by rewrite map_to_list_empty. Qed.

Lemma vals_insert m k x : m !! k = None → vals (<[k:=x]> m) ≡ₚ x :: vals m.
Proof. intros Hk. unfold vals. by rewrite map_to_list_insert. Qed.

Lemma vals_delete m k x : m !! k = Some x → vals m ≡ₚ x :: vals (delete k m).
Proof. intros Hk. unfold vals. by rewrite <- (map_to_list_delete m k x Hk). Qed.

End collections.

Section flattening.
Context {K : Type} `{Countable K} {A : Type}.
Implicit Types (s : gmap K (list A)).

#[global] Instance concat_perm : Proper ((≡ₚ) ==> (≡ₚ)) (@concat A).
Proof.
  induction 1 as [| |x y l|]; simpl; [done|by f_equiv| |by etrans].
  rewrite !app_assoc. f_equiv. apply Permutation_app_comm.
Qed.

Lemma elem_of_flat s x : x ∈ flat s ↔ ∃ k l, s !! k = Some l ∧ x ∈ l.
Proof.
  unfold flat. rewrite list_elem_of_In, in_concat. split.
  - intros (l & Hl & Hx). apply list_elem_of_In, elem_of_vals in Hl as [k Hk].
    exists k, l. by rewrite list_elem_of_In.
  - intros (k & l & Hk & Hx). exists l. rewrite <- !list_elem_of_In, elem_of_vals. eauto.
Qed.
Lemma flat_empty : flat (∅ : gmap K (list A)) = [].
Proof. unfold flat. by rewrite vals_empty. Qed.

Lemma flat_delete s k : flat s ≡ₚ default [] (s !! k) ++ flat (delete k s).
Proof.
  destruct (s !! k) as [l|] eqn:E; simpl.
  - unfold flat. by rewrite (vals_delete s k l E).
  - by rewrite delete_id.
Qed.

Lemma flat_insert s k l : flat (<[k:=l]> s) ≡ₚ l ++ flat (delete k s).
Proof. rewrite (flat_delete (<[k:=l]> s) k). by rewrite lookup_insert_eq, delete_insert_eq. Qed.
End flattening.

(** Membership in concatenations, without the rest of the context. *)
Ltac solve_in :=
  repeat match goal with
  | H : ?x ∈ _ ++ _ |- _ => apply elem_of_app in H as [H|H]
  | H : ?x ∈ _ :: _ |- _ => apply elem_of_cons in H as [H|H]
  | H : ?x ∈ [] |- _ => by apply not_elem_of_nil in H
  end;
  rewrite ?elem_of_app, ?elem_of_cons;
  first [solve [auto 12] | exfalso; congruence].

(** The lemmas that [auto with nomad] and [autorewrite with nomad] apply: membership
    and freshness in lists and maps, and the laws of the components' invariants, which
    the files of the components add. *)
Create HintDb nomad.
Create Rewrite HintDb nomad.
#[export] Hint Resolve list_elem_of_fmap_2 list_elem_of_here list_elem_of_further wrap64_range : nomad.
#[export] Hint Rewrite @vals_empty @flat_empty @length_vals @lookup_insert_eq : nomad.

(** ** Lists *)

Lemma filter_all {A} (P : A → Prop) `{∀ x, Decision (P x)} l : Forall P l → filter P l = l.
Proof.
  induction 1 as [|x l Hx Hl IH]; [done|]. by rewrite filter_cons_True, IH.
Qed.

Lemma filter_nothing {A} (P : A → Prop) `{∀ x, Decision (P x)} l :
  (∀ x, x ∈ l → ¬ P x) → filter P l = [].
Proof.
  induction l as [|x l IH]; intros Hl; [done|]. rewrite filter_cons_False by (apply Hl; left).
  apply IH. intros y Hy. apply Hl. by right.
Qed.

Lemma filter_length_eq {A} (P : A → Prop) `{∀ x, Decision (P x)} (l : list A) :
  length (filter P l) = length l → filter P l = l.
Proof.
  induction l as [|x l IH]; [done|]. rewrite filter_cons. case_decide; simpl; intros E.
  - f_equal. apply IH. lia.
  - pose proof (length_filter P l). lia.
Qed.

Lemma and_iff_under (P Q R : Prop) : (P → (Q ↔ R)) → (P ∧ Q ↔ P ∧ R).
Proof. tauto. Qed.

Lemma filter_split_length {A} (P : A → bool) (l : list A) :
  length l = (length (filter (fun x => P x = true) l) + length (filter (fun x => P x = false) l))%nat.
Proof.
  induction l as [|x l IH]; [done|]. rewrite !filter_cons. simpl. rewrite IH.
  repeat case_decide; simpl; lia || (destruct (P x); congruence).
Qed.

Lemma filter_ext_in {A} (P Q : A → Prop) `{∀ x, Decision (P x)} `{∀ x, Decision (Q x)} (l : list A) :
  (∀ x, x ∈ l → P x ↔ Q x) → filter P l = filter Q l.
Proof.
  induction l as [|x l IH]; intros Hl; [done|]. rewrite !filter_cons.
  rewrite IH by (intros y Hy; apply Hl; by right).
  assert (P x ↔ Q x) by (apply Hl; left). repeat case_decide; tauto.
Qed.

Lemma StronglySorted_filter {A} (R : relation A) (P : A → Prop) `{∀ x, Decision (P x)} l :
  StronglySorted R l → StronglySorted R (filter P l).
Proof.
  induction 1 as [|x l Hl IH Hx]; [constructor|]. rewrite filter_cons. case_decide; [|done].
  constructor; [done|]. rewrite Forall_forall in Hx |- *. intros y [_ Hy]%list_elem_of_filter. by apply Hx.
Qed.

Lemma StronglySorted_seqZ m n : StronglySorted Z.lt (seqZ m n).
Proof.
  destruct (decide (0 ≤ n)%Z) as [Hn|]; [|rewrite seqZ_nil by lia; constructor].
  revert m. pattern n. apply natlike_ind; [intros m; constructor| |done].
  clear n Hn. intros n Hn IH m. rewrite seqZ_cons, Z.pred_succ by lia. constructor; [apply IH|].
  apply Forall_forall. intros x Hx%elem_of_seqZ. lia.
Qed.

(** An entry of a list without repeated keys is its only entry with that key. *)
Lemma NoDup_key_split {A B} `{EqDecision B} (f : A → B) l x :
  NoDup (f <$> l) → x ∈ l → l ≡ₚ x :: filter (fun y => f y ≠ f x) l.
Proof.
  induction l as [|y l IH]; intros Hnd Hx; [by apply not_elem_of_nil in Hx|].
  simpl in Hnd. apply NoDup_cons in Hnd as [Hy Hnd]. apply elem_of_cons in Hx as [<-|Hx].
  - rewrite filter_cons_False by (intros Hn; by apply Hn). rewrite filter_all; [done|].
    rewrite Forall_forall. intros z Hz E. apply Hy. rewrite <- E. by apply list_elem_of_fmap_2.
  - rewrite filter_cons_True.
    + rewrite IH at 1 by done. apply Permutation_swap.
    + intros E. apply Hy. rewrite E. by apply list_elem_of_fmap_2.
Qed.
