(* ===== verification/GoText.v ===== *)
(** * Strings and floating point as Go's standard library has them

    The functions of [strings] and [strconv] that the scheduler uses, on byte
    strings, and [float64] as IEEE 754 binary64 with round to nearest even. *)

From stdpp Require Import base strings list.
From Stdlib Require Import ZArith Lia Ascii Floats.SpecFloat.
From S2P Require Import Prelude.
Open Scope string_scope.
Open Scope list_scope.
Open Scope Z_scope.

(** ** [strings] *)

Definition HasPrefix (s prefix : string) : bool := String.prefix prefix s.

Definition TrimPrefix (s prefix : string) : string :=
  if HasPrefix s prefix
  then String.substring (String.length prefix) (String.length s - String.length prefix) s else s.

Definition HasSuffix (s suffix : string) : bool :=
  (String.length suffix <=? String.length s)%nat &&
  bool_decide (String.substring (String.length s - String.length suffix) (String.length suffix) s = suffix).

Definition TrimSuffix (s suffix : string) : string :=
  if HasSuffix s suffix then String.substring 0 (String.length s - String.length suffix) s else s.

(** [strings.Split(s, sep)] with a separator of one byte. *)
Fixpoint Split (s : string) (sep : ascii) : list string :=
  match s with
  | EmptyString => [""]
  | String c s =>
      let parts := Split s sep in
      if bool_decide (c = sep) then "" :: parts
      else match parts with
           | [] => [String c ""]
           | p :: parts => String c p :: parts
           end
  end.

(** The encodings of the white space of Unicode. *)
Definition spaceRunes : list (list nat) :=
  [[9]; [10]; [11]; [12]; [13]; [32]; [194; 133]; [194; 160]; [225; 154; 128];
   [226; 128; 128]; [226; 128; 129]; [226; 128; 130]; [226; 128; 131]; [226; 128; 132]; [226; 128; 133];
   [226; 128; 134]; [226; 128; 135]; [226; 128; 136]; [226; 128; 137]; [226; 128; 138];
   [226; 128; 168]; [226; 128; 169]; [226; 128; 175]; [226; 129; 159]; [227; 128; 128]]%nat.

Definition startsWith (s p : list nat) : bool := bool_decide (take (length p) s = p).

(** The bytes after the leading runes of [runes]; [n] bounds their number. *)
Fixpoint trimLeft (n : nat) (runes : list (list nat)) (s : list nat) : list nat :=
  match n with
  | O => s
  | S n =>
      match list_find (fun r => startsWith s r = true) runes with
      | Some (_, r) => trimLeft n runes (drop (length r) s)
      | None => s
      end
  end.

Definition TrimSpace (s : string) : string :=
  let bytes := nat_of_ascii <$> String.list_ascii_of_string s in
  let left := trimLeft (length bytes) spaceRunes bytes in
  let right := trimLeft (length left) (reverse <$> spaceRunes) (reverse left) in
  String.string_of_list_ascii (ascii_of_nat <$> reverse right).

(** [s < t] and [s <= t] on strings: bytewise and lexicographic. *)
Definition str_lt (s t : string) : bool := String.ltb s t.
Definition str_le (s t : string) : bool := String.leb s t.

(** [strconv.ParseBool]; [None] is the error. *)
Definition ParseBool (s : string) : option bool :=
  if bool_decide (s ∈ ["1"; "t"; "T"; "true"; "TRUE"; "True"]) then Some true
  else if bool_decide (s ∈ ["0"; "f"; "F"; "false"; "FALSE"; "False"]) then Some false
  else None.

(** ** [float64] *)

Definition float64 : Type := spec_float.
Definition f64 (z : Z) : float64 := binary_normalize 53 1024 z 0 false.
Definition f_add (x y : float64) : float64 := SFadd 53 1024 x y.
Definition f_sub (x y : float64) : float64 := SFsub 53 1024 x y.
Definition f_mul (x y : float64) : float64 := SFmul 53 1024 x y.
Definition f_div (x y : float64) : float64 := SFdiv 53 1024 x y.
Definition f_lt (x y : float64) : bool := SFltb x y.
Definition f_le (x y : float64) : bool := SFleb x y.
Definition f_nan (x : float64) : Prop := x = S754_nan.

#[export] Instance float64_eq : EqDecision float64.
Proof. unfold float64. solve_decision. Defined.

(** What is not less is at most, unless one of the two is not a number. *)
Lemma f_nlt x y : ¬ f_nan x → ¬ f_nan y → f_lt x y = false → f_le y x = true.
Proof.
  unfold f_nan, f_lt, f_le, SFltb, SFleb. intros Hx Hy.
  destruct x as [?|[]| |[] mx ex], y as [?|[]| |[] my ey]; simpl; try done; try congruence;
    rewrite (Z.compare_antisym ex ey); destruct (Z.compare ex ey); simpl; try done;
    change (Pos.compare_cont Eq) with Pos.compare; rewrite (Pos.compare_antisym mx my); by destruct (Pos.compare mx my).
Qed.

Lemma f_lt_trans x y z : f_lt x y = true → f_lt y z = true → f_lt x z = true.
Proof.
  unfold f_lt, SFltb.
  destruct x as [[]|[]| |[] mx ex], y as [[]|[]| |[] my ey], z as [[]|[]| |[] mz ez]; simpl; try done;
    change (Pos.compare_cont Eq) with Pos.compare;
    destruct (Z.compare_spec ex ey), (Z.compare_spec ey ez), (Z.compare_spec ex ez); try done; try lia;
    destruct (Pos.compare_spec mx my), (Pos.compare_spec my mz), (Pos.compare_spec mx mz); simpl; done || lia.
Qed.

Lemma f_lt_irrefl x : f_lt x x = false.
Proof.
  unfold f_lt, SFltb. destruct x as [[]|[]| |[] m e]; simpl; try done;
    change (Pos.compare_cont Eq) with Pos.compare; by rewrite Z.compare_refl, Pos.compare_refl.
Qed.

Lemma f_lt_asym x y : f_lt x y = true → f_lt y x = false.
Proof.
  intros Hxy. destruct (f_lt y x) eqn:Hyx; [|done]. rewrite <- (f_lt_irrefl x). symmetry. by eapply f_lt_trans.
Qed.
