(* ===== verification/GoHeap.v ===== *)
(** * Go's [container/heap]

    The heap routines of Go's standard library that the broker, the plan queue
    and the other priority queues call, on the slice they work on: [up] and
    [down] are the loops of package [container/heap] (fuel is the index or the
    slice length, which bounds the number of iterations), [push], [pop], [fix]
    and [remove] the exported routines.  The order is the [Less] method of the
    client, an arbitrary boolean function; the theorems ask that it be a strict
    weak order {e on the elements of the slice} only, because the clients'
    [Less] are not orders on all values. *)

From stdpp Require Import base list sorting.
From Stdlib Require Import Lia.
From S2P Require Import Prelude.

Section heap.
Context {A : Type} (less : A → A → bool).
Implicit Types (l : list A) (x y z : A) (i j k n : nat).

(** [h.Less(i, j)] on the slice. *)
Definition less_at l i j : bool :=
  match l !! i, l !! j with
  | Some x, Some y => less x y
  | _, _ => false
  end.

(** [h.Swap(i, j)]. *)
Definition swap l i j : list A :=
  match l !! i, l !! j with
  | Some x, Some y => <[i := y]> (<[j := x]> l)
  | _, _ => l
  end.

Definition parent (j : nat) : nat := (j - 1) / 2.

Fixpoint up_loop (fuel : nat) l j : list A :=
  match fuel with
  | O => l
  | S fuel =>
      let i := parent j in
      if (i =? j) || negb (less_at l j i) then l
      else up_loop fuel (swap l i j) i
  end.

Definition up l j : list A := up_loop (S j) l j.

Fixpoint down_loop (fuel : nat) l i n : list A :=
  match fuel with
  | O => l
  | S fuel =>
      let j1 := 2 * i + 1 in
      if n <=? j1 then l
      else
        let j2 := j1 + 1 in
        let j := if (j2 <? n) && less_at l j2 j1 then j2 else j1 in
        if negb (less_at l j i) then l
        else down_loop fuel (swap l i j) j n
  end.

Definition down l i n : list A := down_loop (S n) l i n.

(** [heap.Push]: the client's [Push] appends, then the element sifts up. *)
Definition push x l : list A := up (l ++ [x]) (length l).

(** [heap.Pop]: the client's [Pop] removes the last element of the slice;
    [None] is the panic on an empty slice. *)
Definition pop l : option (A * list A) :=
  let n := length l - 1 in
  let l' := down (swap l 0 n) 0 n in
  x ← l' !! n; Some (x, take n l').

(** [heap.Fix] and [heap.Remove], which sift in both directions. *)
Definition fix_at l i : list A := up (down l i (length l)) i.

Definition remove l i : option (A * list A) :=
  let n := length l - 1 in
  let l' := if n =? i then l else up (down (swap l i n) i n) i in
  x ← l' !! n; Some (x, take n l').

(** *** The specification *)

(** [x] may stand above [y]. *)
Definition le x y : Prop := less y x = false.

(** [less] is a strict weak order on the elements of [l]. *)
Definition ordered_on l : Prop :=
  (∀ x y, x ∈ l → y ∈ l → less x y = true → less y x = false) ∧
  (∀ x y z, x ∈ l → y ∈ l → z ∈ l → le x y → le y z → le x z).

(** The entry at [b] may stand above the one at [a]. *)
Definition okp l a b : Prop :=
  ∀ x y, l !! a = Some x → l !! b = Some y → le y x.

Definition heap_upto l n : Prop := ∀ k, 0 < k < n → okp l k (parent k).
Definition is_heap l : Prop := heap_upto l (length l).

(** The heap property holds except between [j] and its parent. *)
Definition upinv l j n : Prop :=
  (∀ k, 0 < k < n → k ≠ j → okp l k (parent k)) ∧
  (∀ k, 0 < k < n → parent k = j → 0 < j → okp l k (parent j)).

(** It holds except between [i] and its neighbours. *)
Definition dninv l i n : Prop :=
  (∀ k, 0 < k < n → parent k ≠ i → k ≠ i → okp l k (parent k)) ∧
  (∀ k, 0 < k < n → parent k = i → 0 < i → okp l k (parent i)).

Lemma parent_lt j : 0 < j → parent j < j.
Proof. unfold parent. intros. apply Nat.Div0.div_lt_upper_bound. lia. Qed.

Lemma parent_child k i : 0 < k → parent k = i ↔ k = 2 * i + 1 ∨ k = 2 * i + 2.
Proof.
  unfold parent. intros Hk.
  pose proof (Nat.div_mod_eq (k - 1) 2) as E.
  pose proof (Nat.mod_upper_bound (k - 1) 2 ltac:(lia)). lia.
Qed.

(** The transposition of two indices. *)
Definition transp i j k : nat :=
  if decide (k = i) then j else if decide (k = j) then i else k.

Lemma length_swap l i j : length (swap l i j) = length l.
Proof using Type. unfold swap. repeat case_match; by rewrite ?length_insert. Qed.

Lemma swap_lookup l i j k :
  i < length l → j < length l → swap l i j !! k = l !! transp i j k.
Proof using Type.
  intros Hi Hj. unfold swap, transp.
  destruct (lookup_lt_is_Some_2 _ _ Hi) as [x Ei], (lookup_lt_is_Some_2 _ _ Hj) as [y Ej].
  rewrite Ei, Ej. repeat case_decide; subst.
  - by rewrite list_lookup_insert_eq by (by rewrite length_insert).
  - rewrite list_lookup_insert_ne by done. by rewrite list_lookup_insert_eq.
  - by rewrite !list_lookup_insert_ne by done.
Qed.

Lemma swap_perm l i j : swap l i j ≡ₚ l.
Proof using Type.
  destruct (decide (i < length l ∧ j < length l)) as [[Hi Hj]|Hn].
  - apply Permutation_inj. split; [apply length_swap|].
    exists (transp i j). split; [|intros k; by apply swap_lookup].
    intros a b. clear less. unfold transp. repeat case_decide; congruence.
  - unfold swap. destruct (l !! i) eqn:Ei; [|done]. destruct (l !! j) eqn:Ej; [|done].
    apply lookup_lt_Some in Ei, Ej. by destruct Hn.
Qed.

Lemma up_loop_perm fuel l j : up_loop fuel l j ≡ₚ l.
Proof.
  revert l j. induction fuel as [|f IH]; intros l j; simpl; [done|].
  case_match; [done|]. by rewrite IH, swap_perm.
Qed.

Lemma down_loop_perm fuel l i n : down_loop fuel l i n ≡ₚ l.
Proof.
  revert l i. induction fuel as [|f IH]; intros l i; [done|]. cbn -[Nat.mul].
  case_match; [done|]. case_match; [done|]. by rewrite IH, swap_perm.
Qed.

Lemma up_perm l j : up l j ≡ₚ l.
Proof. apply up_loop_perm. Qed.
Lemma down_perm l i n : down l i n ≡ₚ l.
Proof. apply down_loop_perm. Qed.

Lemma length_up l j : length (up l j) = length l.
Proof. by rewrite up_perm. Qed.
Lemma length_down l i n : length (down l i n) = length l.
Proof. by rewrite down_perm. Qed.

#[local] Instance ordered_on_perm : Proper ((≡ₚ) ==> iff) ordered_on.
Proof.
  intros l1 l2 HP. unfold ordered_on.
  by setoid_rewrite HP.
Qed.

Lemma ordered_on_sub l1 l2 : (∀ x, x ∈ l1 → x ∈ l2) → ordered_on l2 → ordered_on l1.
Proof. intros Hs [H1 H2]. split; eauto. Qed.

(** Index-level forms of the order hypotheses. *)
Lemma okp_asym l a b : ordered_on l → less_at l a b = true → okp l b a.
Proof.
  unfold less_at. intros [Has _] Hl x y Hb Ha.
  rewrite Ha, Hb in Hl. unfold le. apply Has; eauto using list_elem_of_lookup_2.
Qed.

Lemma okp_of_less_at l a b : less_at l a b = false → okp l a b.
Proof. unfold less_at. intros Hl x y Ha Hb. by rewrite Ha, Hb in Hl. Qed.

Lemma okp_trans l a b c :
  ordered_on l → b < length l → okp l a b → okp l b c → okp l a c.
Proof.
  intros [_ Htr] Hb H1 H2 x z Ha Hc.
  destruct (lookup_lt_is_Some_2 _ _ Hb) as [y Hy].
  eapply (Htr z y x); eauto using list_elem_of_lookup_2.
Qed.

Lemma okp_swap l i j a b :
  i < length l → j < length l →
  okp (swap l i j) a b ↔ okp l (transp i j a) (transp i j b).
Proof. intros Hi Hj. unfold okp. by rewrite !swap_lookup. Qed.

Lemma transp_l i j : transp i j i = j.
Proof. unfold transp. by case_decide. Qed.
Lemma transp_r i j : transp i j j = i.
Proof. unfold transp. repeat case_decide; congruence. Qed.
Lemma transp_ne i j k : k ≠ i → k ≠ j → transp i j k = k.
Proof. unfold transp. by repeat case_decide. Qed.

(** Sifting up restores the heap property below index [n]. *)
Lemma upinv_swap l j n :
  ordered_on l → n ≤ length l → 0 < j < n → less_at l j (parent j) = true →
  upinv l j n → upinv (swap l (parent j) j) (parent j) n.
Proof.
  intros Ho Hn Hj Hless [H1 H2]. pose proof (parent_lt j ltac:(lia)) as Hp.
  set (i := parent j) in *.
  pose proof (okp_asym l j i Ho Hless) as Hij.
  split; intros k Hk.
  - intros Hki. apply okp_swap; [lia..|].
    destruct (decide (k = j)) as [->|Hkj].
    { fold i. by rewrite transp_l, transp_r. }
    rewrite (transp_ne i j k) by done.
    destruct (decide (parent k = j)) as [Ekj|].
    { rewrite Ekj, transp_r. apply (H2 k); lia || done. }
    destruct (decide (parent k = i)) as [Eki|].
    { rewrite Eki, transp_l. apply (okp_trans l k i j); [done|lia| |done].
      rewrite <- Eki. by apply H1. }
    rewrite transp_ne by done. by apply H1.
  - intros Eki Hi. apply okp_swap; [lia..|]. pose proof (parent_lt i Hi).
    rewrite (transp_ne i j (parent i)) by lia.
    destruct (decide (k = j)) as [->|Hkj].
    { rewrite transp_r. apply H1; lia. }
    assert (k ≠ i) by (pose proof (parent_lt k ltac:(lia)); lia).
    rewrite transp_ne by done. apply (okp_trans l k i (parent i)); [done|lia| |apply H1; lia].
    rewrite <- Eki. by apply H1.
Qed.

Lemma upinv_exit l j n :
  (0 < j → okp l j (parent j)) → upinv l j n → heap_upto l n.
Proof. intros Hj [H1 _] k Hk. destruct (decide (k = j)) as [->|]; [apply Hj; lia|by apply H1]. Qed.

Lemma up_loop_heap fuel l j n :
  ordered_on l → n ≤ length l → j < n → j < fuel → upinv l j n →
  heap_upto (up_loop fuel l j) n.
Proof.
  revert l j. induction fuel as [|f IH]; intros l j Ho Hn Hj Hf Hinv; [lia|]. simpl.
  destruct (Nat.eqb_spec (parent j) j) as [E|E]; simpl.
  { eapply upinv_exit; [|done]. intros H0. pose proof (parent_lt j H0). lia. }
  destruct (less_at l j (parent j)) eqn:Hless; simpl.
  - assert (0 < j) by (destruct j; [done|lia]). pose proof (parent_lt j ltac:(lia)).
    apply IH; [by rewrite swap_perm|by rewrite length_swap|lia..|].
    by apply upinv_swap.
  - eapply upinv_exit; [|done]. intros _. by apply okp_of_less_at.
Qed.

(** The child [down] compares with is the smaller one. *)
Definition min_child l i n : nat :=
  let j1 := 2 * i + 1 in
  if (j1 + 1 <? n) && less_at l (j1 + 1) j1 then j1 + 1 else j1.

Lemma min_child_range l i n :
  2 * i + 1 < n → i < min_child l i n < n ∧ parent (min_child l i n) = i.
Proof.
  intros Hn. unfold min_child.
  assert (∀ k, k = 2 * i + 1 ∨ k = 2 * i + 1 + 1 → parent k = i) as Hp.
  { intros k Hk. apply parent_child; lia. }
  destruct (Nat.ltb_spec (2 * i + 1 + 1) n); simpl; [case_match|];
    (split; [lia|apply Hp; auto]).
Qed.

Lemma min_child_le l i n k :
  ordered_on l → 2 * i + 1 < n → n ≤ length l → 0 < k < n → parent k = i →
  okp l k (min_child l i n).
Proof.
  intros Ho Hn Hl Hk Hp. apply parent_child in Hp; [|lia].
  assert (∀ a, okp l a a) as Hrefl.
  { intros a x y H1 H2. simplify_eq. unfold le. destruct (less x x) eqn:E; [|done].
    rewrite <- E. apply (proj1 Ho x x); eauto using list_elem_of_lookup_2. }
  unfold min_child. destruct (Nat.ltb_spec (2 * i + 1 + 1) n); cbn -[Nat.mul].
  - destruct (less_at l (2 * i + 1 + 1) (2 * i + 1)) eqn:E.
    + destruct Hp as [->| ->]; [by apply okp_asym|].
      replace (2 * i + 1 + 1) with (2 * i + 2) by lia. apply Hrefl.
    + destruct Hp as [->| ->]; [apply Hrefl|].
      replace (2 * i + 1 + 1) with (2 * i + 2) in E by lia. by apply okp_of_less_at.
  - destruct Hp as [->| ->]; [apply Hrefl|lia].
Qed.

Lemma dninv_swap l i n :
  ordered_on l → n ≤ length l → 2 * i + 1 < n →
  less_at l (min_child l i n) i = true → dninv l i n →
  let j := min_child l i n in
  dninv (swap l i j) j n ∧ okp (swap l i j) j (parent j).
Proof.
  intros Ho Hn Hi Hless [H1 H2] j.
  destruct (min_child_range l i n Hi) as [Hj Hpj]. fold j in Hless, Hj, Hpj.
  pose proof (okp_asym l j i Ho Hless) as Hij.
  assert (∀ k, 0 < k < n → parent k = i → okp l k j) as Hmin
    by (intros; by apply min_child_le).
  split; [split|]; intros.
  - apply okp_swap; [lia..|]. destruct (decide (parent k = i)) as [E|E].
    { pose proof (parent_lt k). rewrite E, transp_l, transp_ne by lia. by apply Hmin. }
    destruct (decide (k = i)) as [->|].
    { pose proof (parent_lt i). rewrite transp_l, (transp_ne i j (parent i)) by lia.
      apply H2; [lia|done|lia]. }
    rewrite !transp_ne by done. by apply H1.
  - apply okp_swap; [lia..|]. pose proof (parent_lt k).
    rewrite Hpj, transp_l, transp_ne by lia.
    match goal with E : parent k = _ |- _ => rewrite <- E end. apply H1; lia.
  - rewrite Hpj. apply okp_swap; [lia..|]. by rewrite transp_l, transp_r.
Qed.

Lemma dninv_exit l i n :
  (∀ k, 0 < k < n → parent k = i → okp l k i) → dninv l i n → upinv l i n.
Proof.
  intros Hc [H1 H2]. split; [|done]. intros k Hk Hki.
  destruct (decide (parent k = i)) as [E|]; [|by apply H1]. rewrite E. by apply Hc.
Qed.

Lemma down_exit_children l i n :
  ordered_on l → n ≤ length l → less_at l (min_child l i n) i = false →
  ∀ k, 0 < k < n → parent k = i → okp l k i.
Proof.
  intros Ho Hl Hless k Hk Hp.
  assert (2 * i + 1 < n) as Hi by (apply parent_child in Hp; lia).
  destruct (min_child_range l i n Hi).
  apply (okp_trans l k (min_child l i n) i); [done|lia|by apply min_child_le|].
  by apply okp_of_less_at.
Qed.

Lemma down_loop_step fuel l i n :
  down_loop (S fuel) l i n =
  if n <=? 2 * i + 1 then l
  else if negb (less_at l (min_child l i n) i) then l
  else down_loop fuel (swap l i (min_child l i n)) (min_child l i n) n.
Proof. reflexivity. Qed.

Lemma down_loop_heap fuel l i n :
  ordered_on l → n ≤ length l → n < fuel + i → dninv l i n →
  (0 < i → okp l i (parent i)) → heap_upto (down_loop fuel l i n) n.
Proof.
  revert l i. induction fuel as [|f IH]; intros l i Ho Hn Hf Hd Hi.
  { simpl. apply (upinv_exit l i n Hi). apply dninv_exit; [|done].
    intros k Hk Hp. apply parent_child in Hp; lia. }
  rewrite down_loop_step. destruct (Nat.leb_spec n (2 * i + 1)).
  { apply (upinv_exit l i n Hi). apply dninv_exit; [|done].
    intros k Hk Hp. apply parent_child in Hp; lia. }
  destruct (less_at l (min_child l i n) i) eqn:Hless; simpl.
  - destruct (min_child_range l i n) as [? _]; [lia|].
    destruct (dninv_swap l i n) as [? ?]; [done..|lia|done|done|].
    apply IH; [by rewrite swap_perm|by rewrite length_swap|lia|done|done].
  - apply (upinv_exit l i n Hi), dninv_exit; [|done]. by apply down_exit_children.
Qed.

Lemma heap_upinv l i n :
  ordered_on l → n ≤ length l → i < n → heap_upto l n → upinv l i n.
Proof.
  intros Ho Hl Hi Hh. split; intros k Hk; intros; [by apply Hh|].
  apply (okp_trans l k i (parent i)); [done|lia| |apply Hh; lia].
  replace i with (parent k). by apply Hh.
Qed.

(** Sifting down leaves at most the entry [i] out of order with its parent. *)
Lemma down_upinv l i n :
  ordered_on l → n ≤ length l → i < n → dninv l i n → upinv (down l i n) i n.
Proof.
  intros Ho Hn Hi Hd. unfold down. rewrite down_loop_step.
  destruct (Nat.leb_spec n (2 * i + 1)).
  { apply dninv_exit; [|done]. intros k Hk Hp. apply parent_child in Hp; lia. }
  destruct (less_at l (min_child l i n) i) eqn:Hless; simpl.
  - destruct (min_child_range l i n) as [? _]; [lia|].
    destruct (dninv_swap l i n) as [? ?]; [done..|lia|done|done|].
    apply heap_upinv.
    + by rewrite down_loop_perm, swap_perm.
    + by rewrite down_loop_perm, length_swap.
    + done.
    + apply down_loop_heap; [by rewrite swap_perm|by rewrite length_swap|lia|done|done].
  - apply dninv_exit; [|done]. by apply down_exit_children.
Qed.

Lemma down_loop_lookup_ge fuel l i n k :
  n ≤ length l → n ≤ k → down_loop fuel l i n !! k = l !! k.
Proof.
  revert l i. induction fuel as [|f IH]; intros l i Hn Hk; [done|].
  rewrite down_loop_step. destruct (Nat.leb_spec n (2 * i + 1)); [done|].
  case_match; [done|]. destruct (min_child_range l i n) as [? _]; [lia|].
  rewrite IH by (rewrite ?length_swap; lia). rewrite swap_lookup by lia.
  by rewrite transp_ne by lia.
Qed.

Lemma up_loop_lookup_ge fuel l j n k :
  n ≤ length l → j < n → n ≤ k → up_loop fuel l j !! k = l !! k.
Proof.
  revert l j. induction fuel as [|f IH]; intros l j Hn Hj Hk; [done|]. simpl.
  destruct (Nat.eqb_spec (parent j) j); [done|]. case_match; [done|].
  assert (0 < j) by (destruct j; [done|lia]). pose proof (parent_lt j ltac:(lia)).
  rewrite IH by (rewrite ?length_swap; lia). rewrite swap_lookup by lia.
  by rewrite transp_ne by lia.
Qed.

Lemma is_heap_nil : is_heap [].
Proof. intros k Hk. simpl in Hk. lia. Qed.

Lemma push_perm x l : push x l ≡ₚ x :: l.
Proof. unfold push. rewrite up_perm. by rewrite Permutation_app_comm. Qed.

Lemma push_heap x l : ordered_on (x :: l) → is_heap l → is_heap (push x l).
Proof.
  intros Ho Hh. unfold is_heap.
  assert (length (push x l) = S (length l)) as -> by (by rewrite push_perm).
  unfold push.
  assert (ordered_on (l ++ [x])) by (by rewrite Permutation_app_comm).
  apply up_loop_heap; [done|rewrite ?length_app; simpl; lia..|].
  split; intros k Hk; simpl in Hk; intros.
  - assert (k < length l) by lia. pose proof (parent_lt k ltac:(lia)).
    intros y z Hy Hz. rewrite lookup_app_l in Hy, Hz by lia. apply (Hh k); done || lia.
  - pose proof (parent_lt k). lia.
Qed.

(** The root of a heap may stand above every entry. *)
Lemma heap_root l n k :
  ordered_on l → n ≤ length l → heap_upto l n → k < n → okp l k 0.
Proof.
  intros Ho Hn Hh. induction k as [k IH] using lt_wf_ind. intros Hk.
  destruct (decide (k = 0)) as [->|Hk0].
  { intros x y Hx Hy. simplify_eq. unfold le. destruct (less x x) eqn:E; [|done].
    rewrite <- E. apply (proj1 Ho x x); eauto using list_elem_of_lookup_2. }
  pose proof (parent_lt k ltac:(lia)).
  apply (okp_trans l k (parent k) 0); [done|lia|apply Hh; lia|apply IH; lia].
Qed.

Lemma take_lookup_perm l n x : S n = length l → l !! n = Some x → l ≡ₚ x :: take n l.
Proof.
  intros Hn Hx. rewrite <- (take_drop n l) at 1.
  rewrite (drop_S l x n Hx), drop_ge by lia. by rewrite Permutation_app_comm.
Qed.

Lemma pop_perm l x l' : pop l = Some (x, l') → l ≡ₚ x :: l'.
Proof.
  unfold pop. intros H. set (m := down _ _ _) in *.
  assert (m ≡ₚ l) as Hm by (unfold m; by rewrite down_perm, swap_perm).
  destruct (m !! (length l - 1)) as [y|] eqn:E; simplify_eq/=.
  rewrite <- Hm at 1. apply take_lookup_perm; [|done].
  apply lookup_lt_Some in E. rewrite Hm in E |- *. lia.
Qed.

Lemma pop_Some x l : ∃ y l', pop (x :: l) = Some (y, l').
Proof.
  unfold pop. set (m := down _ _ _).
  assert (is_Some (m !! (length (x :: l) - 1))) as [y Hy].
  { apply lookup_lt_is_Some_2. unfold m. rewrite length_down, length_swap. simpl. lia. }
  rewrite Hy. simpl. eauto.
Qed.

Lemma pop_None l : pop l = None ↔ l = [].
Proof.
  split; [|by intros ->]. destruct l as [|x l]; [done|].
  destruct (pop_Some x l) as (? & ? & ->). done.
Qed.

Lemma heap_upto_take l n : heap_upto l n → is_heap (take n l).
Proof.
  intros Hh k Hk x y Hx Hy. rewrite length_take in Hk.
  pose proof (parent_lt k ltac:(lia)).
  rewrite lookup_take_lt in Hx, Hy by lia. apply (Hh k); done || lia.
Qed.

(** [pop] returns the first entry of the slice... *)
Lemma pop_head l x l' : pop l = Some (x, l') → l !! 0 = Some x.
Proof.
  unfold pop, down. intros H. destruct (decide (l = [])) as [->|Hl]; [done|].
  assert (0 < length l) by (destruct l; simpl; [done|lia]).
  rewrite down_loop_lookup_ge in H by (rewrite ?length_swap; lia).
  rewrite swap_lookup, transp_r in H by lia.
  destruct (l !! 0); by simplify_eq/=.
Qed.

(** ... and leaves a heap. *)
Lemma pop_heap l x l' : ordered_on l → is_heap l → pop l = Some (x, l') → is_heap l'.
Proof.
  unfold pop. intros Ho Hh H. set (n := length l - 1) in *. set (m := swap l 0 n) in *.
  destruct (down m 0 n !! n) as [y|] eqn:E; simplify_eq/=.
  assert (0 < length l) as Hl.
  { apply lookup_lt_Some in E. rewrite length_down in E. unfold m in E.
    rewrite length_swap in E. lia. }
  apply heap_upto_take, down_loop_heap; unfold m.
  - by rewrite swap_perm.
  - rewrite length_swap. lia.
  - lia.
  - split; [|lia]. intros k Hk Hp Hk0. apply okp_swap; [lia..|].
    pose proof (parent_lt k ltac:(lia)).
    rewrite !transp_ne by lia. apply Hh. lia.
  - lia.
Qed.

(** The popped element is a minimum of the slice. *)
Theorem pop_min l x l' :
  ordered_on l → is_heap l → pop l = Some (x, l') → ∀ y, y ∈ l → less y x = false.
Proof.
  intros Ho Hh Hp y [k Hk]%list_elem_of_lookup.
  apply (heap_root l (length l) k Ho); [lia|done| |done|by eapply pop_head].
  by eapply lookup_lt_Some.
Qed.

Lemma remove_perm l i x l' : i < length l → remove l i = Some (x, l') →
  l !! i = Some x ∧ l ≡ₚ x :: l'.
Proof.
  unfold remove. intros Hi H. set (n := length l - 1) in *.
  destruct (Nat.eqb_spec n i) as [<-|Hn].
  - destruct (l !! n) as [y|] eqn:E; simplify_eq/=. split; [done|].
    apply take_lookup_perm; [lia|done].
  - set (m := up _ _) in *.
    assert (m ≡ₚ l) as Hm by (unfold m; by rewrite up_perm, down_perm, swap_perm).
    destruct (m !! n) as [y|] eqn:E; simplify_eq/=.
    split; [|rewrite <- Hm at 1; apply take_lookup_perm; [rewrite Hm; lia|done]].
    unfold m, up, down in E.
    rewrite (up_loop_lookup_ge _ _ _ n) in E by (rewrite ?length_down, ?down_loop_perm, ?length_swap; lia).
    rewrite down_loop_lookup_ge in E by (rewrite ?length_swap; lia).
    by rewrite swap_lookup, transp_r in E by lia.
Qed.

Lemma remove_heap l i x l' :
  ordered_on l → is_heap l → i < length l → remove l i = Some (x, l') → is_heap l'.
Proof.
  unfold remove. intros Ho Hh Hi H. set (n := length l - 1) in *.
  destruct (Nat.eqb_spec n i) as [<-|Hn].
  { destruct (l !! n); simplify_eq/=. apply heap_upto_take.
    intros k Hk. apply Hh. lia. }
  set (m := up _ _) in *. destruct (m !! n); simplify_eq/=.
  apply heap_upto_take. unfold m.
  assert (ordered_on (swap l i n)) by (by rewrite swap_perm).
  assert (n ≤ length (swap l i n)) by (rewrite length_swap; lia).
  apply up_loop_heap; [by rewrite down_perm|by rewrite length_down|lia..|].
  apply down_upinv; [done..|lia|].
  split; intros k Hk Hp Hki; apply okp_swap; try lia; pose proof (parent_lt k ltac:(lia)).
  - rewrite !transp_ne by lia. apply Hh. lia.
  - pose proof (parent_lt i). rewrite !transp_ne by lia.
    apply (okp_trans l k i (parent i)); [done|lia| |apply Hh; lia].
    rewrite <- Hp. apply Hh. lia.
Qed.

Lemma remove_Some l i : i < length l → ∃ x l', remove l i = Some (x, l').
Proof.
  intros Hi. unfold remove. set (m := if _ =? i then l else _).
  destruct (lookup_lt_is_Some_2 m (length l - 1)) as [x ->]; [|by eexists _, _].
  unfold m. destruct (_ =? i); rewrite ?length_up, ?length_down, ?length_swap; lia.
Qed.

Lemma fix_perm l i : fix_at l i ≡ₚ l.
Proof. unfold fix_at. by rewrite up_perm, down_perm. Qed.

(** [heap.Fix] after the entry [i] was changed. *)
Lemma fix_heap l i x :
  ordered_on l → ordered_on (<[i := x]> l) → is_heap l → i < length l → is_heap (fix_at (<[i := x]> l) i).
Proof.
  intros Ho Ho' Hh Hi. unfold is_heap, fix_at. rewrite length_up, length_down.
  assert (∀ a b, a ≠ i → b ≠ i → okp l a b → okp (<[i := x]> l) a b) as Hok.
  { intros a b Ha Hb Hab y z. rewrite !list_lookup_insert_ne by done. apply Hab. }
  rewrite length_insert. apply up_loop_heap; [by rewrite down_perm|rewrite length_down, length_insert; lia|lia..|].
  apply down_upinv; [done|rewrite length_insert; lia|lia|].
  split; intros k Hk Hp Hki; pose proof (parent_lt k ltac:(lia)); apply Hok; try lia.
  - by apply Hh.
  - pose proof (parent_lt i). lia.
  - apply (okp_trans l k i (parent i)); [done|lia| |apply Hh; lia]. rewrite <- Hp. by apply Hh.
Qed.
End heap.
