(* ===== verification/Timers.v ===== *)
(** * Go's runtime timers

    [time.AfterFunc], [Timer.Stop] and [Timer.Reset], for the components that
    arm timers under their lock.  A timer is an entry of a store; firing is a
    step of the environment and only marks the timer, since its function runs
    in a goroutine of its own, which takes the component's lock later. *)

From stdpp Require Import base gmap.
From S2P Require Import Prelude.

Inductive timer_status := TActive | TFired | TStopped.

#[export] Instance timer_status_eq_dec : EqDecision timer_status.
Proof. solve_decision. Defined.

(** [F] is the type of the closures the component arms timers with. *)
Record timer (F : Type) := mkTimer { tm_status : timer_status; tm_func : F }.
Arguments mkTimer {F}.
Arguments tm_status {F}.
Arguments tm_func {F}.

Record timer_store (F : Type) := mkStore { ts_next : nat; ts_timers : gmap nat (timer F) }.
Arguments mkStore {F}.
Arguments ts_next {F}.
Arguments ts_timers {F}.

Section timers.
Context {F : Type}.
Implicit Types (s : timer_store F) (t : nat).

Definition no_timers : timer_store F := mkStore 0 ∅.

Definition AfterFunc s (f : F) : timer_store F * nat :=
  (mkStore (S (ts_next s)) (<[ts_next s := mkTimer TActive f]> (ts_timers s)), ts_next s).

Definition set_status (st : timer_status) s t : timer_store F :=
  mkStore (ts_next s) (alter (fun tm => mkTimer st (tm_func tm)) t (ts_timers s)).

Definition is_active s t : bool :=
  match ts_timers s !! t with
  | Some tm => bool_decide (tm_status tm = TActive)
  | None => false
  end.

(** [Stop] reports whether the call stopped the timer: false if it has fired or
    has been stopped already. *)
Definition Stop s t : timer_store F * bool :=
  if is_active s t then (set_status TStopped s t, true) else (s, false).

(** [Reset] re-arms the timer and reports whether it had been active. *)
Definition Reset s t : timer_store F * bool := (set_status TActive s t, is_active s t).

(** The environment: an active timer fires. *)
Definition Fire s t : timer_store F := if is_active s t then set_status TFired s t else s.

(** The goroutine of a fired timer is about to run its function. *)
Definition Take s t : option (timer_store F * F) :=
  tm ← ts_timers s !! t;
  if bool_decide (tm_status tm = TFired) then Some (set_status TStopped s t, tm_func tm)
  else None.

(** A timer whose function will still run if nobody stops it. *)
Definition live s t (f : F) : Prop :=
  ∃ st, ts_timers s !! t = Some (mkTimer st f) ∧ st ≠ TStopped.

Definition wf s : Prop := ∀ t tm, ts_timers s !! t = Some tm → t < ts_next s.

Lemma live_det s t f g : live s t f → live s t g → f = g.
Proof. intros (? & ? & _) (? & ? & _). by simplify_eq. Qed.

Lemma wf_set_status st s t : wf s → wf (set_status st s t).
Proof.
  intros Hw u tm Hu. simpl in Hu. rewrite lookup_alter in Hu. case_decide; [|by eapply Hw].
  subst. destruct (ts_timers s !! u) eqn:E; [by eapply Hw|done].
Qed.

Lemma live_set_status_ne st s t u f : t ≠ u → live (set_status st s t) u f ↔ live s u f.
Proof. intros Hne. unfold live. simpl. by rewrite lookup_alter_ne. Qed.

Lemma live_set_stopped s t u f : live (set_status TStopped s t) u f ↔ live s u f ∧ t ≠ u.
Proof.
  destruct (decide (t = u)) as [->|Hne].
  - split; [|tauto]. intros (st & Hl & Hst). exfalso. simpl in Hl.
    rewrite lookup_alter_eq in Hl. destruct (ts_timers s !! u); simplify_eq/=.
  - rewrite live_set_status_ne by done. tauto.
Qed.

Lemma live_AfterFunc s f u g :
  wf s → live (AfterFunc s f).1 u g ↔ (u = ts_next s ∧ g = f) ∨ live s u g.
Proof.
  intros Hw. unfold live. simpl. rewrite lookup_insert. case_decide as E.
  - subst u. split.
    + intros (st & ? & ?). simplify_eq. auto.
    + intros [[_ ->]|(st & Hl & _)]; [by eexists|]. apply Hw in Hl. lia.
  - split; [auto|]. intros [[-> _]|?]; [done|auto].
Qed.

Lemma wf_AfterFunc s f : wf s → wf (AfterFunc s f).1.
Proof.
  intros Hw u tm. simpl. rewrite lookup_insert. case_decide; [lia|].
  intros Hu%Hw. lia.
Qed.

Lemma live_Fire s t u f : live (Fire s t) u f ↔ live s u f.
Proof.
  unfold Fire, is_active. destruct (ts_timers s !! t) as [tm|] eqn:E; [|done].
  case_bool_decide as Ha; [|done].
  destruct (decide (t = u)) as [->|Hne]; [|by apply live_set_status_ne].
  unfold live. simpl. rewrite lookup_alter_eq, E. destruct tm as [st g]; simpl in *. subst.
  split; intros (st' & ? & ?); simplify_eq; by eexists.
Qed.

Lemma wf_Fire s t : wf s → wf (Fire s t).
Proof. unfold Fire. case_match; auto using wf_set_status. Qed.
End timers.
