(* ===== verification/Structs.v ===== *)
(** * The data model shared by the components (src/nomad/structs/structs.go)

    Go structs are records with the Go field names under a short prefix, Go
    string constants are strings, a [time.Duration] or an [int] is a [Z].  A
    record carries the fields that modelled code reads or writes. *)

From stdpp Require Import base gmap strings list.
From Stdlib Require Import ZArith Lia.
From S2P Require Import Prelude GoText.
Open Scope string_scope.
Open Scope list_scope.
Open Scope Z_scope.

(** ** Metrics of placements *)

Record AllocMetric := mkAllocMetric {
  am_NodesEvaluated : Z;
  am_NodesFiltered : Z;
  am_NodesAvailable : gmap string Z;
  am_ClassFiltered : gmap string Z;
  am_ConstraintFiltered : gmap string Z;
  am_NodesExhausted : Z;
  am_ClassExhausted : gmap string Z;
  am_DimensionExhausted : gmap string Z;
  am_Scores : gmap string float64;
  am_AllocationTime : Z;
  am_CoalescedFailures : Z
}.
#[export] Instance eta_AllocMetric : Eta AllocMetric := fun r =>
  mkAllocMetric (am_NodesEvaluated r) (am_NodesFiltered r) (am_NodesAvailable r) (am_ClassFiltered r)
    (am_ConstraintFiltered r) (am_NodesExhausted r) (am_ClassExhausted r) (am_DimensionExhausted r)
    (am_Scores r) (am_AllocationTime r) (am_CoalescedFailures r).

Definition newAllocMetric : AllocMetric := mkAllocMetric 0 0 ∅ ∅ ∅ 0 ∅ ∅ ∅ 0 0.

#[export] Instance AllocMetric_eq : EqDecision AllocMetric.
Proof. solve_decision. Defined.

(** ** Evaluations *)

Definition EvalStatusBlocked := "blocked".
Definition EvalStatusPending := "pending".
Definition EvalStatusComplete := "complete".
Definition EvalStatusFailed := "failed".
Definition EvalStatusCancelled := "canceled".

Definition EvalTriggerJobRegister := "job-register".
Definition EvalTriggerJobDeregister := "job-deregister".
Definition EvalTriggerPeriodicJob := "periodic-job".
Definition EvalTriggerNodeUpdate := "node-update".
Definition EvalTriggerDeploymentWatcher := "deployment-watcher".
Definition EvalTriggerRollingUpdate := "rolling-update".
Definition EvalTriggerFailedFollowUp := "failed-follow-up".
Definition EvalTriggerMaxPlans := "max-plan-attempts".

Record Evaluation := mkEvaluation {
  ev_ID : string;
  ev_Priority : Z;
  ev_Type : string;
  ev_TriggeredBy : string;
  ev_JobID : string;
  ev_JobModifyIndex : Z;
  ev_NodeID : string;
  ev_NodeModifyIndex : Z;
  ev_DeploymentID : string;
  ev_Status : string;
  ev_StatusDescription : string;
  ev_Wait : Z;
  ev_NextEval : string;
  ev_PreviousEval : string;
  ev_BlockedEval : string;
  ev_FailedTGAllocs : gmap string AllocMetric;
  ev_ClassEligibility : gmap string bool;
  ev_EscapedComputedClass : bool;
  ev_AnnotatePlan : bool;
  ev_QueuedAllocations : gmap string Z;
  ev_SnapshotIndex : Z;
  ev_CreateIndex : Z;
  ev_ModifyIndex : Z
}.

#[export] Instance eta_Evaluation : Eta Evaluation := fun r =>
  mkEvaluation (ev_ID r) (ev_Priority r) (ev_Type r) (ev_TriggeredBy r) (ev_JobID r)
    (ev_JobModifyIndex r) (ev_NodeID r) (ev_NodeModifyIndex r) (ev_DeploymentID r)
    (ev_Status r) (ev_StatusDescription r) (ev_Wait r) (ev_NextEval r)
    (ev_PreviousEval r) (ev_BlockedEval r) (ev_FailedTGAllocs r) (ev_ClassEligibility r)
    (ev_EscapedComputedClass r) (ev_AnnotatePlan r) (ev_QueuedAllocations r)
    (ev_SnapshotIndex r) (ev_CreateIndex r) (ev_ModifyIndex r).

#[export] Instance Evaluation_eq_dec : EqDecision Evaluation.
Proof. solve_decision. Defined.

(** The zero value of the struct, from which composite literals are built. *)
Definition zeroEvaluation : Evaluation :=
  mkEvaluation "" 0 "" "" "" 0 "" 0 "" "" "" 0 "" "" "" ∅ ∅ false false ∅ 0 0 0.

Definition TerminalStatus (e : Evaluation) : bool :=
  bool_decide (ev_Status e = EvalStatusComplete) ||
  bool_decide (ev_Status e = EvalStatusFailed) ||
  bool_decide (ev_Status e = EvalStatusCancelled).

(** [None] is the panic on a status that is not one of the five. *)
Definition ShouldEnqueue (e : Evaluation) : option bool :=
  if bool_decide (ev_Status e = EvalStatusPending) then Some true
  else if bool_decide (ev_Status e = EvalStatusComplete) ||
          bool_decide (ev_Status e = EvalStatusFailed) ||
          bool_decide (ev_Status e = EvalStatusBlocked) ||
          bool_decide (ev_Status e = EvalStatusCancelled) then Some false
  else None.

Definition ShouldBlock (e : Evaluation) : option bool :=
  if bool_decide (ev_Status e = EvalStatusBlocked) then Some true
  else if bool_decide (ev_Status e = EvalStatusComplete) ||
          bool_decide (ev_Status e = EvalStatusFailed) ||
          bool_decide (ev_Status e = EvalStatusPending) ||
          bool_decide (ev_Status e = EvalStatusCancelled) then Some false
  else None.

(** The constructors of follow-up evaluations; [uuid] is [GenerateUUID()]. *)
Definition NextRollingEval (uuid : string) (e : Evaluation) (wait : Z) : Evaluation :=
  zeroEvaluation <| ev_ID := uuid |> <| ev_Priority := ev_Priority e |>
    <| ev_Type := ev_Type e |> <| ev_TriggeredBy := EvalTriggerRollingUpdate |>
    <| ev_JobID := ev_JobID e |> <| ev_JobModifyIndex := ev_JobModifyIndex e |>
    <| ev_Status := EvalStatusPending |> <| ev_Wait := wait |>
    <| ev_PreviousEval := ev_ID e |>.

Definition CreateBlockedEval (uuid : string) (e : Evaluation)
    (classEligibility : gmap string bool) (escaped : bool) : Evaluation :=
  zeroEvaluation <| ev_ID := uuid |> <| ev_Priority := ev_Priority e |>
    <| ev_Type := ev_Type e |> <| ev_TriggeredBy := ev_TriggeredBy e |>
    <| ev_JobID := ev_JobID e |> <| ev_JobModifyIndex := ev_JobModifyIndex e |>
    <| ev_Status := EvalStatusBlocked |> <| ev_PreviousEval := ev_ID e |>
    <| ev_ClassEligibility := classEligibility |>
    <| ev_EscapedComputedClass := escaped |>.

Definition CreateFailedFollowUpEval (uuid : string) (e : Evaluation) (wait : Z) : Evaluation :=
  zeroEvaluation <| ev_ID := uuid |> <| ev_Priority := ev_Priority e |>
    <| ev_Type := ev_Type e |> <| ev_TriggeredBy := EvalTriggerFailedFollowUp |>
    <| ev_JobID := ev_JobID e |> <| ev_JobModifyIndex := ev_JobModifyIndex e |>
    <| ev_Status := EvalStatusPending |> <| ev_Wait := wait |>
    <| ev_PreviousEval := ev_ID e |>.
