(* ===== verification/EvalBroker.v ===== *)
(** * The evaluation broker (src/nomad/eval_broker.go)

    The leader's in-memory queue of evaluations: priority queues by scheduler
    type, one evaluation in flight per job, explicit Ack/Nack with redelivery
    timers, a delivery limit, and statistics.

    Each exported method takes the broker's lock for its whole body, so a method
    is a function on the broker's state.  What the method takes from elsewhere
    is an argument: the UUID of a dequeue, the offset [rand.Intn] draws, the
    order in which Go ranges over a map.  A method that can crash on a nil map
    entry returns an [option], [None] being the crash. *)

From stdpp Require Import base gmap strings list.
From Stdlib Require Import ZArith Lia.
From S2P Require Import Prelude GoHeap Timers Structs.
Open Scope string_scope.
Open Scope list_scope.
Open Scope Z_scope.

Definition failedQueue : string := "_failed".

Inductive BrokerError :=
  | ErrNotOutstanding
  | ErrTokenMismatch
  | ErrNackTimeoutReached
  | ErrIDNotFound
  | ErrTokenNotForID
  | ErrAckAfterExpiration
  | ErrBrokerDisabled.

(** The closures the broker arms timers with. *)
Inductive broker_func :=
  | FNack (evalID token : string)
  | FEnqueueWaiting (e : Evaluation).

Record SchedulerStats := mkSchedulerStats { ss_Ready : Z; ss_Unacked : Z }.
#[export] Instance eta_SchedulerStats : Eta SchedulerStats := fun r =>
  mkSchedulerStats (ss_Ready r) (ss_Unacked r).

Record BrokerStats := mkBrokerStats {
  TotalReady : Z;
  TotalUnacked : Z;
  TotalBlocked : Z;
  TotalWaiting : Z;
  ByScheduler : gmap string SchedulerStats
}.
#[export] Instance eta_BrokerStats : Eta BrokerStats := fun r =>
  mkBrokerStats (TotalReady r) (TotalUnacked r) (TotalBlocked r) (TotalWaiting r)
    (ByScheduler r).

Record unackEval := mkUnackEval {
  ua_Eval : Evaluation;
  ua_Token : string;
  ua_NackTimer : nat
}.

(** [waiting] holds, for each scheduler's channel of capacity one, whether its
    buffer is full; [timers] is the part of Go's runtime the broker uses. *)
Record EvalBroker := mkEvalBroker {
  nackTimeout : Z;
  deliveryLimit : Z;
  enabled : bool;
  stats : BrokerStats;
  evals : gmap string Z;
  jobEvals : gmap string string;
  blocked : gmap string (list Evaluation);
  ready : gmap string (list Evaluation);
  unack : gmap string unackEval;
  waiting : gmap string bool;
  requeue : gmap string Evaluation;
  timeWait : gmap string nat;
  initialNackDelay : Z;
  subsequentNackDelay : Z;
  timers : timer_store broker_func
}.
#[export] Instance eta_EvalBroker : Eta EvalBroker := fun r =>
  mkEvalBroker (nackTimeout r) (deliveryLimit r) (enabled r) (stats r) (evals r)
    (jobEvals r) (blocked r) (ready r) (unack r) (waiting r) (requeue r) (timeWait r)
    (initialNackDelay r) (subsequentNackDelay r) (timers r).

(** ** The priority queues *)

(** [PendingEvaluations.Less] on two entries of a slice. *)
Definition evalLess (x y : Evaluation) : bool :=
  if negb (bool_decide (ev_JobID x = ev_JobID y)) && negb (ev_Priority x =? ev_Priority y)
  then negb (ev_Priority x <? ev_Priority y)
  else ev_CreateIndex x <? ev_CreateIndex y.

(** [PendingEvaluations.Peek]: the last entry of the slice. *)
Definition Peek (p : list Evaluation) : option Evaluation :=
  let n := length p in
  if (n =? 0)%nat then None else p !! (n - 1)%nat.

(** ** Construction *)

Definition zeroStats : BrokerStats := mkBrokerStats 0 0 0 0 ∅.

Definition NewEvalBroker (timeout initialNackDelay subsequentNackDelay deliveryLimit : Z)
    : option EvalBroker :=
  if timeout <? 0 then None
  else Some (mkEvalBroker timeout deliveryLimit false zeroStats ∅ ∅ ∅ ∅ ∅ ∅ ∅ ∅
               initialNackDelay subsequentNackDelay no_timers).

(** ** Enqueueing *)

Definition enqueueReady (b : EvalBroker) (eval : Evaluation) (queue : string) : EvalBroker :=
  let waiting' :=
    match ready b !! queue, waiting b !! queue with
    | None, None => <[queue := false]> (waiting b)
    | _, _ => waiting b
    end in
  let pending := default [] (ready b !! queue) in
  let bySched := default (mkSchedulerStats 0 0) (ByScheduler (stats b) !! queue) in
  b <| ready := <[queue := push evalLess eval pending]> (ready b) |>
    <| stats ::= fun s =>
         s <| TotalReady ::= Z.add 1 |>
           <| ByScheduler := <[queue := bySched <| ss_Ready ::= Z.add 1 |>]> (ByScheduler s) |> |>
    <| waiting := alter (fun _ => true) queue waiting' |>.

Definition enqueueLocked (b : EvalBroker) (eval : Evaluation) (queue : string) : EvalBroker :=
  if negb (enabled b) then b
  else
    let pendingEval := default "" (jobEvals b !! ev_JobID eval) in
    if bool_decide (pendingEval = "") then
      enqueueReady (b <| jobEvals := <[ev_JobID eval := ev_ID eval]> (jobEvals b) |>) eval queue
    else if negb (bool_decide (pendingEval = ev_ID eval)) then
      b <| blocked :=
             <[ev_JobID eval := push evalLess eval (default [] (blocked b !! ev_JobID eval))]>
               (blocked b) |>
        <| stats ::= fun s => s <| TotalBlocked ::= Z.add 1 |> |>
    else enqueueReady b eval queue.

Definition processWaitingEnqueue (b : EvalBroker) (eval : Evaluation) : EvalBroker :=
  let '(ts, timer) := AfterFunc (timers b) (FEnqueueWaiting eval) in
  b <| timers := ts |>
    <| timeWait := <[ev_ID eval := timer]> (timeWait b) |>
    <| stats ::= fun s => s <| TotalWaiting ::= Z.add 1 |> |>.

Definition enqueueWaiting (b : EvalBroker) (eval : Evaluation) : EvalBroker :=
  enqueueLocked
    (b <| timeWait := delete (ev_ID eval) (timeWait b) |>
       <| stats ::= fun s => s <| TotalWaiting ::= fun n => n - 1 |> |>)
    eval (ev_Type eval).

Definition processEnqueue (b : EvalBroker) (eval : Evaluation) (token : string) : EvalBroker :=
  match evals b !! ev_ID eval with
  | Some _ =>
      if bool_decide (token = "") then b
      else
        match unack b !! ev_ID eval with
        | Some ua =>
            if bool_decide (ua_Token ua = token)
            then b <| requeue := <[token := eval]> (requeue b) |> else b
        | None => b
        end
  | None =>
      let b := if enabled b then b <| evals := <[ev_ID eval := 0]> (evals b) |> else b in
      if 0 <? ev_Wait eval then processWaitingEnqueue b eval
      else enqueueLocked b eval (ev_Type eval)
  end.

Definition Enqueue (b : EvalBroker) (eval : Evaluation) : EvalBroker :=
  processEnqueue b eval "".

(** The argument lists the entries of the Go map in the order of the range. *)
Definition EnqueueAll (b : EvalBroker) (evals : list (Evaluation * string)) : EvalBroker :=
  foldl (fun b '(eval, token) => processEnqueue b eval token) b evals.

(** ** Dequeueing *)

(** One round of the loop over [schedulers]: the accumulator is [eligibleSched]
    and [eligiblePriority]. *)
Definition scanStep (b : EvalBroker) (acc : list string * Z) (sched : string)
    : list string * Z :=
  let '(eligibleSched, eligiblePriority) := acc in
  match ready b !! sched with
  | None => acc
  | Some pending =>
      match Peek pending with
      | None => acc
      | Some r =>
          if (length eligibleSched =? 0)%nat || (eligiblePriority <? ev_Priority r)
          then ([sched], ev_Priority r)
          else if ev_Priority r <? eligiblePriority then acc
          else if eligiblePriority =? ev_Priority r
          then (eligibleSched ++ [sched], eligiblePriority)
          else acc
      end
  end.

Definition eligible (b : EvalBroker) (schedulers : list string) : list string :=
  (foldl (scanStep b) ([], 0) schedulers).1.

Definition dequeueForSched (b : EvalBroker) (sched token : string)
    : option (EvalBroker * (Evaluation * string)) :=
  '(eval, pending) ← pop evalLess (default [] (ready b !! sched));
  let '(ts, nackTimer) := AfterFunc (timers b) (FNack (ev_ID eval) token) in
  bySched ← ByScheduler (stats b) !! sched;
  Some
    (b <| ready := <[sched := pending]> (ready b) |>
       <| timers := ts |>
       <| unack := <[ev_ID eval := mkUnackEval eval token nackTimer]> (unack b) |>
       <| evals := <[ev_ID eval := default 0 (evals b !! ev_ID eval) + 1]> (evals b) |>
       <| stats ::= fun s =>
            s <| TotalReady ::= fun n => n - 1 |>
              <| TotalUnacked ::= Z.add 1 |>
              <| ByScheduler :=
                   <[sched := bySched <| ss_Ready ::= fun n => n - 1 |>
                                      <| ss_Unacked ::= Z.add 1 |>]> (ByScheduler s) |> |>,
     (eval, token)).

(** [offset] is the value of [rand.Intn(n)], drawn only when [n > 1]. *)
Definition scanForSchedulers (b : EvalBroker) (schedulers : list string)
    (offset : nat) (token : string)
    : option (EvalBroker * (BrokerError + option (Evaluation * string))) :=
  if negb (enabled b) then Some (b, inl ErrBrokerDisabled)
  else
    match eligible b schedulers with
    | [] => Some (b, inr None)
    | [s] => '(b', r) ← dequeueForSched b s token; Some (b', inr (Some r))
    | l =>
        s ← l !! offset;
        '(b', r) ← dequeueForSched b s token; Some (b', inr (Some r))
    end.

(** The channels [waitForSchedulers] registers under the lock before it blocks. *)
Definition registerWaiters (b : EvalBroker) (schedulers : list string) : EvalBroker :=
  foldl (fun b sched =>
           match waiting b !! sched with
           | Some _ => b
           | None => b <| waiting := <[sched := false]> (waiting b) |>
           end) b schedulers.

(** ** Acknowledgement *)

Definition Outstanding (b : EvalBroker) (evalID : string) : string * bool :=
  match unack b !! evalID with
  | None => ("", false)
  | Some ua => (ua_Token ua, true)
  end.

Definition OutstandingReset (b : EvalBroker) (evalID token : string)
    : EvalBroker * option BrokerError :=
  match unack b !! evalID with
  | None => (b, Some ErrNotOutstanding)
  | Some ua =>
      if negb (bool_decide (ua_Token ua = token)) then (b, Some ErrTokenMismatch)
      else
        let '(ts, active) := Reset (timers b) (ua_NackTimer ua) in
        (b <| timers := ts |>, if active then None else Some ErrNackTimeoutReached)
  end.

(** [bySched.Unacked -= 1] on the entry of [queue]; a nil entry crashes. *)
Definition decUnacked (s : BrokerStats) (queue : string) : option BrokerStats :=
  bySched ← ByScheduler s !! queue;
  Some (s <| TotalUnacked ::= fun n => n - 1 |>
          <| ByScheduler ::= <[queue := bySched <| ss_Unacked ::= fun n => n - 1 |>]> |>).

(** The blocked evaluation of [jobID] that Ack makes ready. *)
Definition unblockJob (b : EvalBroker) (jobID : string) : EvalBroker :=
  match pop evalLess (default [] (blocked b !! jobID)) with
  | None => b
  | Some (eval, rest) =>
      enqueueLocked
        (b <| blocked := if (0 <? length rest)%nat then <[jobID := rest]> (blocked b)
                         else delete jobID (blocked b) |>
           <| stats ::= fun s => s <| TotalBlocked ::= fun n => n - 1 |> |>)
        eval (ev_Type eval)
  end.

Definition Ack (b : EvalBroker) (evalID token : string)
    : option (EvalBroker * option BrokerError) :=
  (* defer delete(b.requeue, token) *)
  let done_ (b : EvalBroker) (e : option BrokerError) :=
    Some (b <| requeue := delete token (requeue b) |>, e) in
  match unack b !! evalID with
  | None => done_ b (Some ErrIDNotFound)
  | Some ua =>
      if negb (bool_decide (ua_Token ua = token)) then done_ b (Some ErrTokenNotForID)
      else
        let jobID := ev_JobID (ua_Eval ua) in
        let '(ts, stopped) := Stop (timers b) (ua_NackTimer ua) in
        if negb stopped then done_ b (Some ErrAckAfterExpiration)
        else
          let queue := if deliveryLimit b <? default 0 (evals b !! evalID)
                       then failedQueue else ev_Type (ua_Eval ua) in
          st ← decUnacked (stats b) queue;
          let b := b <| timers := ts |> <| stats := st |>
                     <| unack := delete evalID (unack b) |>
                     <| evals := delete evalID (evals b) |>
                     <| jobEvals := delete jobID (jobEvals b) |> in
          let b := unblockJob b jobID in
          let b := match requeue b !! token with
                   | Some eval => processEnqueue b eval ""
                   | None => b
                   end in
          done_ b None
  end.

Definition nackReenqueueDelay (b : EvalBroker) (prevDequeues : Z) : Z :=
  if prevDequeues <=? 0 then 0
  else if prevDequeues =? 1 then initialNackDelay b
  else wrap64 ((prevDequeues - 1) * subsequentNackDelay b).

Definition Nack (b : EvalBroker) (evalID token : string)
    : option (EvalBroker * option BrokerError) :=
  let b := b <| requeue := delete token (requeue b) |> in
  match unack b !! evalID with
  | None => Some (b, Some ErrIDNotFound)
  | Some ua =>
      if negb (bool_decide (ua_Token ua = token)) then Some (b, Some ErrTokenNotForID)
      else
        let '(ts, _) := Stop (timers b) (ua_NackTimer ua) in
        st ← decUnacked (stats b) (ev_Type (ua_Eval ua));
        let b := b <| timers := ts |> <| unack := delete evalID (unack b) |>
                   <| stats := st |> in
        let dequeues := default 0 (evals b !! evalID) in
        let b :=
          if deliveryLimit b <=? dequeues then enqueueLocked b (ua_Eval ua) failedQueue
          else
            let e := (ua_Eval ua) <| ev_Wait := nackReenqueueDelay b dequeues |> in
            if 0 <? ev_Wait e then processWaitingEnqueue b e
            else enqueueLocked b e (ev_Type e) in
        Some (b, None)
  end.

Definition PauseNackTimeout (b : EvalBroker) (evalID token : string)
    : EvalBroker * option BrokerError :=
  match unack b !! evalID with
  | None => (b, Some ErrNotOutstanding)
  | Some ua =>
      if negb (bool_decide (ua_Token ua = token)) then (b, Some ErrTokenMismatch)
      else
        let '(ts, stopped) := Stop (timers b) (ua_NackTimer ua) in
        (b <| timers := ts |>, if stopped then None else Some ErrNackTimeoutReached)
  end.

Definition ResumeNackTimeout (b : EvalBroker) (evalID token : string)
    : EvalBroker * option BrokerError :=
  match unack b !! evalID with
  | None => (b, Some ErrNotOutstanding)
  | Some ua =>
      if negb (bool_decide (ua_Token ua = token)) then (b, Some ErrTokenMismatch)
      else (b <| timers := (Reset (timers b) (ua_NackTimer ua)).1 |>, None)
  end.

(** ** Enabling and flushing *)

Definition stopAll (ts : timer_store broker_func) (l : list nat) : timer_store broker_func :=
  foldl (fun ts t => (Stop ts t).1) ts l.

(** [Flush] keeps [requeue]. *)
Definition Flush (b : EvalBroker) : EvalBroker :=
  b <| waiting := ∅ |>
    <| timers := stopAll (stopAll (timers b) (ua_NackTimer <$> vals (unack b)))
                   (vals (timeWait b)) |>
    <| stats := zeroStats |>
    <| evals := ∅ |> <| jobEvals := ∅ |> <| blocked := ∅ |> <| ready := ∅ |>
    <| unack := ∅ |> <| timeWait := ∅ |>.

Definition SetEnabled (b : EvalBroker) (on : bool) : EvalBroker :=
  let b := b <| enabled := on |> in
  if negb on then Flush b else b.

Definition Stats (b : EvalBroker) : BrokerStats := stats b.

(** ** Timers *)

(** The goroutine of a fired timer runs its closure. *)
Definition runTimer (b : EvalBroker) (t : nat) : option EvalBroker :=
  match Take (timers b) t with
  | None => Some b
  | Some (ts, FEnqueueWaiting eval) => Some (enqueueWaiting (b <| timers := ts |>) eval)
  | Some (ts, FNack evalID token) => fst <$> Nack (b <| timers := ts |>) evalID token
  end.
