(* ===== verification/EvalBrokerCore.v ===== *)
(** * The broker's bookkeeping, as lists

    The broker spreads evaluations over four places: the ready queues [R], the
    blocked queues [B], the unacknowledged deliveries [U] and the timed waits
    [W]; [h] holds those a method has taken out of one place and not yet put
    into another.  [core] relates the five lists to the broker's two indexes,
    [evals] (here [ev]) and [jobEvals] (here [je]); the lemmas move one
    evaluation between places. *)

From stdpp Require Import base gmap strings list.
From Stdlib Require Import ZArith Lia.
From S2P Require Import Prelude Structs.
Open Scope string_scope.
Open Scope list_scope.

Section core.
Implicit Types (h R B U W l : list Evaluation) (e : Evaluation).
Implicit Types (ev : gmap string Z) (je : gmap string string) (x : option string).

(** [x] is a job whose slot is being handed over. *)
Record core x h R B U W ev je : Prop := mkCore {
  core_ids : NoDup (ev_ID <$> (h ++ R ++ B ++ U ++ W));
  core_evals : ∀ id, is_Some (ev !! id) ↔ id ∈ ev_ID <$> (h ++ R ++ B ++ U ++ W);
  core_nonempty : ∀ e, e ∈ h ++ R ++ B ++ U ++ W → ev_ID e ≠ "";
  core_slot : ∀ e, e ∈ R ++ U → je !! ev_JobID e = Some (ev_ID e);
  core_holder : ∀ j id, je !! j = Some id →
    ∃ e, e ∈ h ++ R ++ U ++ W ∧ ev_ID e = id ∧ ev_JobID e = j;
  core_blocked : ∀ e, e ∈ B → is_Some (je !! ev_JobID e) ∨ x = Some (ev_JobID e)
}.

#[export] Instance core_proper x :
  Proper ((≡ₚ) ==> (≡ₚ) ==> (≡ₚ) ==> (≡ₚ) ==> (≡ₚ) ==> (=) ==> (=) ==> iff) (core x).
Proof.
  assert (∀ h h' R R' B B' U U' W W' ev je,
    h ≡ₚ h' → R ≡ₚ R' → B ≡ₚ B' → U ≡ₚ U' → W ≡ₚ W' →
    core x h R B U W ev je → core x h' R' B' U' W' ev je) as Hc.
  { intros * Eh ER EB EU EW [H1 H2 H3 H4 H5 H6].
    assert (h ++ R ++ B ++ U ++ W ≡ₚ h' ++ R' ++ B' ++ U' ++ W') as Eall
      by (by rewrite Eh, ER, EB, EU, EW).
    split.
    - by rewrite <- Eall.
    - intros id. rewrite H2. by rewrite Eall.
    - intros e. rewrite <- Eall. apply H3.
    - intros e. rewrite <- ER, <- EU. apply H4.
    - intros j id Hj. destruct (H5 j id Hj) as (e & He & ?). exists e.
      by rewrite <- Eh, <- ER, <- EU, <- EW.
    - intros e. rewrite <- EB. apply H6. }
  intros h h' Eh R R' ER B B' EB U U' EU W W' EW ? ev -> ? je ->.
  split; apply Hc; done || (by symmetry).
Qed.

(** Two permutations of the five lists hold the same evaluations. *)
Lemma core_perm x h R B U W h' R' B' U' W' ev je :
  h ++ R ++ B ++ U ++ W ≡ₚ h' ++ R' ++ B' ++ U' ++ W' →
  (∀ e, e ∈ R' ++ U' → je !! ev_JobID e = Some (ev_ID e)) →
  (∀ e j id, je !! j = Some id → e ∈ h ++ R ++ U ++ W → ev_ID e = id → ev_JobID e = j →
     e ∈ h' ++ R' ++ U' ++ W') →
  (∀ e, e ∈ B' → is_Some (je !! ev_JobID e) ∨ x = Some (ev_JobID e)) →
  core x h R B U W ev je → core x h' R' B' U' W' ev je.
Proof.
  intros Eall Hs Hh Hb [H1 H2 H3 H4 H5 H6]. split; [| | |done| |done].
  - by rewrite <- Eall.
  - intros id. rewrite H2. by rewrite Eall.
  - intros e. rewrite <- Eall. apply H3.
  - intros j id Hj. destruct (H5 j id Hj) as (e & He & E1 & E2). exists e. eauto.
Qed.

(** Pulls every singled-out head of the five lists to the front. *)
Ltac perm_heads :=
  simpl; rewrite ?app_assoc; repeat (rewrite <- Permutation_middle; simpl);
  rewrite ?app_assoc; try reflexivity.

Lemma core_from_ready x e h R B U W ev je :
  core x h (e :: R) B U W ev je → core x (e :: h) R B U W ev je.
Proof.
  intros Hc. eapply core_perm; [..|done].
  - perm_heads.
  - intros e' He'. apply (core_slot _ _ _ _ _ _ _ _ Hc). set_solver.
  - set_solver.
  - apply (core_blocked _ _ _ _ _ _ _ _ Hc).
Qed.

Lemma core_from_unack x e h R B U W ev je :
  core x h R B (e :: U) W ev je → core x (e :: h) R B U W ev je.
Proof.
  intros Hc. eapply core_perm; [..|done].
  - perm_heads.
  - intros e' He'. apply (core_slot _ _ _ _ _ _ _ _ Hc). set_solver.
  - set_solver.
  - apply (core_blocked _ _ _ _ _ _ _ _ Hc).
Qed.

Lemma core_from_wait x e h R B U W ev je :
  core x h R B U (e :: W) ev je → core x (e :: h) R B U W ev je.
Proof.
  intros Hc. eapply core_perm; [..|done].
  - perm_heads.
  - apply (core_slot _ _ _ _ _ _ _ _ Hc).
  - set_solver.
  - apply (core_blocked _ _ _ _ _ _ _ _ Hc).
Qed.

Lemma core_from_blocked x e h R B U W ev je :
  core x h R (e :: B) U W ev je → core x (e :: h) R B U W ev je.
Proof.
  intros Hc. eapply core_perm; [..|done].
  - perm_heads.
  - apply (core_slot _ _ _ _ _ _ _ _ Hc).
  - set_solver.
  - intros e' He'. apply (core_blocked _ _ _ _ _ _ _ _ Hc). set_solver.
Qed.

Lemma core_to_unack x e h R B U W ev je :
  je !! ev_JobID e = Some (ev_ID e) →
  core x (e :: h) R B U W ev je → core x h R B (e :: U) W ev je.
Proof.
  intros Hje Hc. eapply core_perm; [..|done].
  - perm_heads.
  - intros e' He'. destruct (decide (e' = e)) as [->|]; [done|].
    apply (core_slot _ _ _ _ _ _ _ _ Hc). set_solver.
  - set_solver.
  - apply (core_blocked _ _ _ _ _ _ _ _ Hc).
Qed.

Lemma core_to_wait x e h R B U W ev je :
  core x (e :: h) R B U W ev je → core x h R B U (e :: W) ev je.
Proof.
  intros Hc. eapply core_perm; [..|done].
  - perm_heads.
  - apply (core_slot _ _ _ _ _ _ _ _ Hc).
  - set_solver.
  - apply (core_blocked _ _ _ _ _ _ _ _ Hc).
Qed.

(** The job's slot is the evaluation's own: it becomes ready. *)
Lemma core_to_ready_own x e h R B U W ev je :
  je !! ev_JobID e = Some (ev_ID e) →
  core x (e :: h) R B U W ev je → core x h (e :: R) B U W ev je.
Proof.
  intros Hje Hc. eapply core_perm; [..|done].
  - perm_heads.
  - intros e' He'. destruct (decide (e' = e)) as [->|]; [done|].
    apply (core_slot _ _ _ _ _ _ _ _ Hc). set_solver.
  - set_solver.
  - apply (core_blocked _ _ _ _ _ _ _ _ Hc).
Qed.

(** The slot is another evaluation's: it is blocked behind it. *)
Lemma core_to_blocked x e h R B U W ev je id :
  je !! ev_JobID e = Some id → id ≠ ev_ID e →
  core x (e :: h) R B U W ev je → core x h R (e :: B) U W ev je.
Proof.
  intros Hje Hne Hc. eapply core_perm; [..|done].
  - perm_heads.
  - apply (core_slot _ _ _ _ _ _ _ _ Hc).
  - intros e' j id' Hj He' E1 E2. destruct (decide (e' = e)) as [->|]; [|set_solver].
    congruence.
  - intros e' He'. destruct (decide (e' = e)) as [->|]; [left; eauto|].
    apply (core_blocked _ _ _ _ _ _ _ _ Hc). set_solver.
Qed.

(** The slot is free: the evaluation takes it. *)
Lemma core_to_ready_new x e h R B U W ev je :
  je !! ev_JobID e = None → (∀ j, x = Some j → j = ev_JobID e) →
  core x (e :: h) R B U W ev je →
  core None h (e :: R) B U W ev (<[ev_JobID e := ev_ID e]> je).
Proof.
  intros Hje Hx Hc.
  assert (core None (e :: h) R B U W ev (<[ev_JobID e := ev_ID e]> je)) as Hc'.
  { destruct Hc as [H1 H2 H3 H4 H5 H6]. split; [done..| | |].
    - intros e' He'. specialize (H4 e' He'). by rewrite lookup_insert_ne by congruence.
    - intros j id. rewrite lookup_insert_Some. intros [[<- <-]|[? Hj]]; [|by apply H5].
      exists e. set_solver.
    - intros e' He'. left. rewrite lookup_insert. case_decide; [done|].
      destruct (H6 e' He') as [?|E]; [done|]. apply Hx in E. congruence. }
  apply core_to_ready_own; [by rewrite lookup_insert_eq|done].
Qed.

(** A new evaluation is tracked. *)
Lemma core_new x e h R B U W ev je n :
  ev !! ev_ID e = None → ev_ID e ≠ "" →
  core x h R B U W ev je → core x (e :: h) R B U W (<[ev_ID e := n]> ev) je.
Proof.
  intros Hev Hne [H1 H2 H3 H4 H5 H6]. split; simpl; [| | |done| |done].
  - constructor; [|done]. rewrite <- H2, Hev. by intros [? ?].
  - intros id. rewrite elem_of_cons, <- H2, lookup_insert_is_Some.
    destruct (decide (ev_ID e = id)); naive_solver.
  - set_solver.
  - intros j id Hj. destruct (H5 j id Hj) as (e' & ? & ?). exists e'. set_solver.
Qed.

(** An evaluation in hand is forgotten, and its slot freed. *)
Lemma core_drop x e h R B U W ev je :
  je !! ev_JobID e = Some (ev_ID e) →
  core x (e :: h) R B U W ev je → x = None →
  core (Some (ev_JobID e)) h R B U W (delete (ev_ID e) ev) (delete (ev_JobID e) je).
Proof.
  intros Hje [H1 H2 H3 H4 H5 H6] ->. apply NoDup_cons in H1 as [Hnin H1].
  assert (∀ e', e' ∈ h ++ R ++ B ++ U ++ W → ev_ID e' ≠ ev_ID e) as Hid.
  { intros e' He' E. apply Hnin. rewrite <- E. by apply list_elem_of_fmap_2. }
  split; [done|..].
  - intros id. rewrite lookup_delete_is_Some, H2. simpl. rewrite elem_of_cons.
    split; [naive_solver|]. intros Hin. split; [|by right].
    by intros <-.
  - intros e' He'. apply H3. simpl. by right.
  - intros e' He'. rewrite lookup_delete_ne; [by apply H4|].
    intros E. pose proof (H4 e' He') as Hs. rewrite <- E, Hje in Hs.
    apply (Hid e'); [set_solver|congruence].
  - intros j id. rewrite lookup_delete_Some. intros [Hne Hj].
    destruct (H5 j id Hj) as (e' & He' & E1 & E2). exists e'. split; [|done].
    simpl in He'. apply elem_of_cons in He' as [->|]; [congruence|done].
  - intros e' He'. rewrite lookup_delete. case_decide as E; [right; by rewrite E|].
    left. by destruct (H6 e' He').
Qed.

(** Changing fields of an evaluation in hand other than its identity. *)
Lemma core_hand x e e' h R B U W ev je :
  ev_ID e' = ev_ID e → ev_JobID e' = ev_JobID e →
  core x (e :: h) R B U W ev je → core x (e' :: h) R B U W ev je.
Proof.
  intros E1 E2 [H1 H2 H3 H4 H5 H6]. split; simpl in *; [..|done].
  - by rewrite E1.
  - intros id. by rewrite H2, E1.
  - intros e'' [->|He'']%elem_of_cons; [rewrite E1; apply H3; left|by apply H3; right].
  - done.
  - intros j id Hj. destruct (H5 j id Hj) as (e'' & He'' & ? & ?).
    apply elem_of_cons in He'' as [->|]; [exists e'|exists e'']; rewrite ?E1, ?E2; set_solver.
Qed.

Lemma core_count x h R B U W ev je n id :
  is_Some (ev !! id) → core x h R B U W ev je → core x h R B U W (<[id := n]> ev) je.
Proof.
  intros Hid [H1 H2 H3 H4 H5 H6]. split; [done| |done..].
  intros id'. rewrite <- H2, lookup_insert_is_Some. destruct (decide (id = id')); naive_solver.
Qed.

Lemma core_init : core None [] [] [] [] [] ∅ ∅.
Proof.
  split; simpl; try (intros; by rewrite ?lookup_empty in *); try set_solver.
  - constructor.
  - intros id. rewrite lookup_empty. split; [by intros [? ?]|set_solver].
Qed.

(** At most one evaluation of a job is ready or delivered. *)
Lemma core_serial x h R B U W ev je e e' :
  core x h R B U W ev je → e ∈ R ++ U → e' ∈ R ++ U → ev_JobID e = ev_JobID e' →
  ev_ID e = ev_ID e'.
Proof.
  intros Hc H1 H2 E. pose proof (core_slot _ _ _ _ _ _ _ _ Hc e H1).
  pose proof (core_slot _ _ _ _ _ _ _ _ Hc e' H2). congruence.
Qed.

(** The jobs of the ready and delivered evaluations are distinct. *)
Lemma core_jobs x h R B U W ev je :
  core x h R B U W ev je → NoDup (ev_JobID <$> (R ++ U)).
Proof.
  intros Hc. assert (NoDup (ev_ID <$> (R ++ U))) as Hnd.
  { pose proof (core_ids _ _ _ _ _ _ _ _ Hc) as Hn. rewrite !fmap_app in *.
    eapply sublist_NoDup; [exact Hn|]. apply sublist_inserts_l.
    apply sublist_app; [done|]. by apply sublist_inserts_l, sublist_inserts_r. }
  assert (∀ l, (∀ e, e ∈ l → e ∈ R ++ U) → NoDup (ev_ID <$> l) → NoDup (ev_JobID <$> l)) as Hl.
  { induction l as [|e l IH]; intros Hs Hi; simpl in *; [constructor|].
    apply NoDup_cons in Hi as [Hni Hi]. constructor; [|apply IH; set_solver].
    intros (e' & E & He')%list_elem_of_fmap. apply Hni.
    rewrite (core_serial _ _ _ _ _ _ _ _ e e' Hc); [by apply list_elem_of_fmap_2|set_solver..|done]. }
  by apply Hl.
Qed.
End core.
