(* ===== verification/EvalBrokerInv.v ===== *)
(** * The broker's invariant

    [Inv b] says that the broker's places, indexes, queues, timers and
    statistics agree with one another.  Every method preserves it; the
    properties of src/nomad/eval_broker.go proved from it are in
    [EvalBrokerProps]. *)

From stdpp Require Import base gmap strings list.
From Stdlib Require Import ZArith Lia.
From S2P Require Import Prelude GoHeap Timers Structs EvalBroker EvalBrokerCore.
Open Scope string_scope.
Open Scope list_scope.
Open Scope Z_scope.

(** ** The order of the queues *)

(** [Less] is not an order on all evaluations, but it is one on evaluations of
    pairwise distinct jobs, and on evaluations of one job. *)
Lemma ordered_distinct_jobs l : NoDup (ev_JobID <$> l) → ordered_on evalLess l.
Proof.
  intros Hnd.
  assert (∀ x y, x ∈ l → y ∈ l → x = y ∨ ev_JobID x ≠ ev_JobID y) as Hj.
  { intros x y [i Hi]%list_elem_of_lookup [j Hy]%list_elem_of_lookup.
    destruct (decide (i = j)) as [->|Hne]; [left; congruence|right]. intros E.
    apply Hne. eapply NoDup_lookup; [exact Hnd|rewrite list_lookup_fmap, Hi; done|].
    rewrite list_lookup_fmap, Hy. simpl. by rewrite E. }
  assert (∀ x y, x = y ∨ ev_JobID x ≠ ev_JobID y → evalLess y x = false ↔
    x = y ∨ ev_Priority y < ev_Priority x ∨
    (ev_Priority x = ev_Priority y ∧ ev_CreateIndex x ≤ ev_CreateIndex y)) as Hle.
  { intros x y Hxy. unfold evalLess. destruct Hxy as [->|Hxy].
    - rewrite bool_decide_true by done. simpl. split; [auto|lia].
    - rewrite bool_decide_false by congruence.
      destruct (Z.eqb_spec (ev_Priority y) (ev_Priority x)) as [E|E]; simpl.
      + rewrite Z.ltb_ge. split; [intros; right; right; lia|intros [->|?]; lia].
      + destruct (Z.ltb_spec (ev_Priority y) (ev_Priority x)); simpl.
        * split; [right; left; lia|done].
        * split; [done|]. intros [->|?]; lia. }
  split.
  - intros x y Hx Hy Hl. destruct (evalLess y x) eqn:E; [|done]. exfalso.
    assert (evalLess x y ≠ false) as H1 by congruence.
    assert (evalLess y x ≠ false) as H2 by congruence.
    rewrite Hle in H1 by (apply Hj; done). rewrite Hle in H2 by (apply Hj; done). lia.
  - intros x y z Hx Hy Hz. unfold le. rewrite !Hle by (apply Hj; done).
    intros [->|H1] [->|H2]; auto. right. lia.
Qed.

Lemma ordered_same_job j l : Forall (fun e => ev_JobID e = j) l → ordered_on evalLess l.
Proof.
  intros Hj. rewrite Forall_forall in Hj.
  assert (∀ x y, x ∈ l → y ∈ l → evalLess x y = (ev_CreateIndex x <? ev_CreateIndex y)) as Hl.
  { intros x y Hx Hy. unfold evalLess. rewrite bool_decide_true; [done|].
    by rewrite (Hj x), (Hj y). }
  split.
  - intros x y Hx Hy. rewrite !Hl by done. lia.
  - intros x y z Hx Hy Hz. unfold le. rewrite !Hl by done. lia.
Qed.

(** ** The places *)

Definition readyL (b : EvalBroker) : list Evaluation := flat (ready b).
Definition blockedL (b : EvalBroker) : list Evaluation := flat (blocked b).
Definition unackL (b : EvalBroker) : list Evaluation := ua_Eval <$> vals (unack b).

(** The evaluation a timer will enqueue. *)
Definition waitOf (tm : timer broker_func) : option Evaluation :=
  match tm_status tm, tm_func tm with
  | TStopped, _ => None
  | _, FEnqueueWaiting e => Some e
  | _, _ => None
  end.
Definition waitL (ts : timer_store broker_func) : list Evaluation :=
  omap waitOf (vals (ts_timers ts)).

Lemma elem_of_waitL ts e : e ∈ waitL ts ↔ ∃ t, live ts t (FEnqueueWaiting e).
Proof.
  unfold waitL, live. rewrite list_elem_of_omap. split.
  - intros ([st f] & [t Ht]%elem_of_vals & Hw). exists t.
    unfold waitOf in Hw. simpl in Hw. destruct st, f; simplify_eq; by eexists.
  - intros (t & st & Ht & Hst). eexists. split; [apply elem_of_vals; eauto|].
    by destruct st.
Qed.

Lemma omap_cons_perm {A B} (f : A → option B) x l :
  omap f (x :: l) = option_list (f x) ++ omap f l.
Proof. simpl. by destruct (f x). Qed.

Lemma waitL_insert ts t tm n :
  waitL (mkStore n (<[t:=tm]> (ts_timers ts))) ≡ₚ
  option_list (waitOf tm) ++ omap waitOf (vals (delete t (ts_timers ts))).
Proof.
  unfold waitL. simpl. rewrite <- insert_delete_eq.
  rewrite vals_insert by apply lookup_delete_eq. by rewrite omap_cons_perm.
Qed.

Lemma waitL_lookup ts t tm : ts_timers ts !! t = Some tm →
  waitL ts ≡ₚ option_list (waitOf tm) ++ omap waitOf (vals (delete t (ts_timers ts))).
Proof. intros Ht. unfold waitL. by rewrite (vals_delete _ _ _ Ht), omap_cons_perm. Qed.

Lemma waitL_AfterFunc ts f : wf ts →
  waitL (AfterFunc ts f).1 ≡ₚ option_list (waitOf (mkTimer TActive f)) ++ waitL ts.
Proof.
  intros Hw. simpl. rewrite waitL_insert. rewrite delete_id; [done|].
  destruct (ts_timers ts !! ts_next ts) eqn:E; [apply Hw in E; lia|done].
Qed.

Lemma waitL_set_status ts t tm st : ts_timers ts !! t = Some tm →
  waitOf (mkTimer st (tm_func tm)) = waitOf tm → waitL (set_status st ts t) ≡ₚ waitL ts.
Proof.
  intros Ht E. unfold set_status.
  rewrite (alter_alt_Some _ _ _ _ Ht).
  rewrite waitL_insert, (waitL_lookup _ _ _ Ht). by rewrite E.
Qed.

Lemma waitL_Take ts t ts' e :
  Take ts t = Some (ts', FEnqueueWaiting e) → waitL ts ≡ₚ e :: waitL ts'.
Proof.
  unfold Take. destruct (ts_timers ts !! t) as [[st f]|] eqn:Ht; simpl; [|done].
  case_bool_decide as Hf; [|done]. intros [= <- ->]. simpl in Hf. subst st.
  rewrite (waitL_lookup _ _ _ Ht). unfold set_status.
  rewrite (alter_alt_Some _ _ _ _ Ht), waitL_insert. done.
Qed.

Lemma waitL_Fire ts t : waitL (Fire ts t) ≡ₚ waitL ts.
Proof.
  unfold Fire, is_active. destruct (ts_timers ts !! t) as [[st f]|] eqn:Ht; [|done].
  case_bool_decide as Ha; [|done]. simpl in Ha. subst.
  eapply waitL_set_status; [exact Ht|]. done.
Qed.

(** The timer is one of a delivery. *)
Definition nack_timer (ts : timer_store broker_func) (t : nat) : Prop :=
  ∃ st i k, ts_timers ts !! t = Some (mkTimer st (FNack i k)).

Lemma waitL_nack_status ts t st : nack_timer ts t → waitL (set_status st ts t) ≡ₚ waitL ts.
Proof.
  intros (st' & i & k & Ht). eapply waitL_set_status; [exact Ht|]. by destruct st, st'.
Qed.

Lemma nack_timer_set_status ts t u st : nack_timer ts u → nack_timer (set_status st ts t) u.
Proof.
  intros (st' & i & k & Ht). destruct (decide (t = u)) as [->|Hne].
  - exists st, i, k. simpl. by rewrite lookup_alter_eq, Ht.
  - exists st', i, k. simpl. by rewrite lookup_alter_ne.
Qed.

Lemma nack_timer_AfterFunc ts u f : wf ts → nack_timer ts u → nack_timer (AfterFunc ts f).1 u.
Proof.
  intros Hw (st & i & k & Ht). exists st, i, k. simpl. rewrite lookup_insert_ne; [done|].
  apply Hw in Ht. lia.
Qed.

(** ** The invariant *)

Definition cnt (b : EvalBroker) (e : Evaluation) : Z := default 0 (evals b !! ev_ID e).

(** Evaluation [e] belongs in the ready queue [q]: its type's queue before the
    delivery limit is reached, the failed queue afterwards. *)
Definition placed (b : EvalBroker) (q : string) (e : Evaluation) : Prop :=
  (q = ev_Type e ∧ cnt b e < deliveryLimit b) ∨
  (q = failedQueue ∧ deliveryLimit b ≤ cnt b e ∧
   is_Some (ByScheduler (stats b) !! ev_Type e)).

Record Rest (b : EvalBroker) : Prop := mkRest {
  r_timers : wf (timers b);
  r_unack : ∀ id ua, unack b !! id = Some ua →
    ev_ID (ua_Eval ua) = id ∧ nack_timer (timers b) (ua_NackTimer ua);
  r_timeWait : ∀ id t, timeWait b !! id = Some t ↔
    ∃ e, ev_ID e = id ∧ live (timers b) t (FEnqueueWaiting e);
  r_blocked : ∀ j l, blocked b !! j = Some l →
    l ≠ [] ∧ Forall (fun e => ev_JobID e = j) l ∧ is_heap evalLess l;
  r_ready : ∀ q l, ready b !! q = Some l →
    is_heap evalLess l ∧ is_Some (ByScheduler (stats b) !! q) ∧ Forall (placed b q) l;
  r_unacked : ∀ e, e ∈ unackL b →
    is_Some (ByScheduler (stats b) !! ev_Type e) ∧
    (deliveryLimit b < cnt b e → is_Some (ByScheduler (stats b) !! failedQueue));
  r_pending : ∀ e, e ∈ blockedL b ++ waitL (timers b) → cnt b e < deliveryLimit b;
  r_requeue : ∀ t e, requeue b !! t = Some e → ev_ID e ≠ "";
  r_limit : 0 < deliveryLimit b;
  r_TotalReady : TotalReady (stats b) = Z.of_nat (length (readyL b));
  r_TotalUnacked : TotalUnacked (stats b) = Z.of_nat (length (unackL b));
  r_TotalBlocked : TotalBlocked (stats b) = Z.of_nat (length (blockedL b));
  r_TotalWaiting : TotalWaiting (stats b) = Z.of_nat (length (waitL (timers b)));
  r_disabled : enabled b = false → evals b = ∅
}.

Definition Core (x : option string) (h : list Evaluation) (b : EvalBroker) : Prop :=
  core x h (readyL b) (blockedL b) (unackL b) (waitL (timers b)) (evals b) (jobEvals b).

Definition Inv (b : EvalBroker) : Prop := Core None [] b ∧ Rest b.

(** ** Queue updates *)

Lemma readyL_push b e q :
  flat (<[q := push evalLess e (default [] (ready b !! q))]> (ready b)) ≡ₚ e :: readyL b.
Proof. rewrite flat_insert, push_perm. unfold readyL. by rewrite (flat_delete (ready b) q). Qed.

Lemma elem_of_queue s (q : string) (l : list Evaluation) e :
  s !! q = Some l → e ∈ l → e ∈ flat s.
Proof. intros. apply elem_of_flat. eauto. Qed.

Lemma default_queue s (q : string) : ∀ e : Evaluation, e ∈ default [] (s !! q) → e ∈ flat s.
Proof.
  intros e. destruct (s !! q) as [l|] eqn:E; simpl; [by eapply elem_of_queue|].
  by intros ?%not_elem_of_nil.
Qed.

(** The jobs of one queue are distinct when the jobs of all queues are. *)
Lemma queue_jobs s (q : string) e :
  NoDup (ev_JobID <$> e :: flat s) → NoDup (ev_JobID <$> e :: default [] (s !! q)).
Proof.
  intros Hnd. eapply sublist_NoDup; [|apply fmap_sublist, sublist_skip, (sublist_inserts_r (flat (delete q s))); reflexivity].
  by rewrite <- flat_delete.
Qed.

Definition sched_le (b b' : EvalBroker) : Prop :=
  ∀ q, is_Some (ByScheduler (stats b) !! q) → is_Some (ByScheduler (stats b') !! q).

Lemma sched_le_insert (m : gmap string SchedulerStats) q v k :
  is_Some (m !! k) → is_Some (<[q:=v]> m !! k).
Proof. intros. rewrite lookup_insert_is_Some. destruct (decide (q = k)); auto. Qed.
#[local] Hint Resolve sched_le_insert : core.

Lemma placed_le b b' q e :
  deliveryLimit b' = deliveryLimit b → cnt b' e = cnt b e → sched_le b b' →
  placed b q e → placed b' q e.
Proof. unfold placed. intros -> -> Hs [?|(? & ? & ?)]; [left|right]; auto. Qed.

Lemma enqueueReady_inv h b e q :
  core None h (e :: readyL b) (blockedL b) (unackL b) (waitL (timers b)) (evals b) (jobEvals b) →
  Rest b → placed b q e →
  Core None h (enqueueReady b e q) ∧ Rest (enqueueReady b e q).
Proof.
  intros Hc Hr Hp. pose proof (readyL_push b e q) as HR.
  pose proof (core_jobs _ _ _ _ _ _ _ _ Hc) as Hj.
  rewrite fmap_app in Hj. apply NoDup_app in Hj as [Hj _].
  split.
  - unfold Core, enqueueReady, readyL, blockedL, unackL. simpl. by rewrite HR.
  - destruct Hr. split; unfold readyL, unackL, blockedL in *; simpl; auto.
    + intros q' l. rewrite lookup_insert_Some. intros [[<- <-]|[Hne Hl]].
      * split; [|split].
        -- apply push_heap; [by apply ordered_distinct_jobs, queue_jobs|].
           destruct (ready b !! q) as [l|] eqn:E; simpl; [by eapply r_ready0|apply is_heap_nil].
        -- by rewrite lookup_insert_eq.
        -- rewrite push_perm. constructor.
           { eapply (placed_le b); [..|exact Hp]; done || (intros k; simpl; auto). }
           destruct (ready b !! q) as [l|] eqn:E; simpl; [|constructor].
           destruct (r_ready0 q l E) as (_ & _ & Hf). eapply Forall_impl; [exact Hf|].
           intros e'. apply placed_le; done || (intros k; simpl; auto).
      * destruct (r_ready0 q' l Hl) as (? & ? & Hf). split; [done|split; [by auto|]].
        eapply Forall_impl; [exact Hf|]. intros e'.
        apply placed_le; done || (intros k; simpl; auto).
    + intros e' He'. destruct (r_unacked0 e' He') as [? ?]. split; [by auto|].
      intros Hlt. apply sched_le_insert. by auto.
    + rewrite HR. simpl. rewrite r_TotalReady0. lia.
Qed.

Lemma Rest_jobEvals b m : Rest b → Rest (b <| jobEvals := m |>).
Proof. intros []. by split. Qed.

Lemma Rest_block b e :
  Rest b → cnt b e < deliveryLimit b →
  let b' := b <| blocked := <[ev_JobID e := push evalLess e (default [] (blocked b !! ev_JobID e))]>
                              (blocked b) |>
              <| stats ::= fun s => s <| TotalBlocked ::= Z.add 1 |> |> in
  Rest b' ∧ blockedL b' ≡ₚ e :: blockedL b.
Proof.
  intros Hr Hc b'.
  assert (blockedL b' ≡ₚ e :: blockedL b) as HB.
  { unfold blockedL, b'. simpl. rewrite flat_insert, push_perm. simpl.
    by rewrite (flat_delete (blocked b) (ev_JobID e)). }
  split; [|done]. unfold b' in *. destruct Hr.
  split; unfold blockedL, readyL, unackL in *; simpl in *; auto.
  - intros j l. rewrite lookup_insert_Some. intros [[<- <-]|[Hne Hl]]; [|by auto].
    assert (Forall (fun e' => ev_JobID e' = ev_JobID e) (e :: default [] (blocked b !! ev_JobID e)) ∧
            is_heap evalLess (default [] (blocked b !! ev_JobID e))) as [Hf Hh].
    { destruct (blocked b !! ev_JobID e) as [l|] eqn:E; simpl.
      - destruct (r_blocked0 _ _ E) as (_ & ? & ?). auto.
      - split; [auto|apply is_heap_nil]. }
    split; [|split].
    + intros E. pose proof (push_perm evalLess e (default [] (blocked b !! ev_JobID e))) as HP.
      rewrite E in HP. by apply Permutation_nil_cons in HP.
    + by rewrite push_perm.
    + apply push_heap; [|done]. by eapply ordered_same_job.
  - intros e'. rewrite HB. simpl. intros [->|He']%elem_of_cons; [done|]. by apply r_pending0.
  - rewrite HB. simpl. rewrite r_TotalBlocked0. lia.
Qed.

Lemma enqueueLocked_inv x h b e q :
  Core x (e :: h) b → Rest b → enabled b = true → placed b q e →
  (cnt b e < deliveryLimit b ∨ jobEvals b !! ev_JobID e = Some (ev_ID e)) →
  (∀ j, x = Some j → jobEvals b !! j = None ∧ j = ev_JobID e) →
  Core None h (enqueueLocked b e q) ∧ Rest (enqueueLocked b e q).
Proof.
  intros Hc Hr Hen Hp Hq Hx. unfold enqueueLocked. rewrite Hen. simpl.
  destruct (jobEvals b !! ev_JobID e) as [id|] eqn:Ej; simpl.
  - assert (x = None) as -> by (destruct x as [j|]; [destruct (Hx j) as [? ->]; congruence|done]).
    assert (id ≠ "") as Hid.
    { destruct (core_holder _ _ _ _ _ _ _ _ Hc _ _ Ej) as (e' & He' & <- & _).
      apply (core_nonempty _ _ _ _ _ _ _ _ Hc). solve_in. }
    rewrite (bool_decide_false (id = "")) by done. case_bool_decide as Eid; simpl.
    + subst id. apply enqueueReady_inv; [by apply core_to_ready_own|done|done].
    + destruct Hq as [Hq|[= ?]]; [|congruence].
      destruct (Rest_block b e Hr Hq) as [HR HB]. split; [|exact HR].
      unfold Core, readyL, unackL in *. cbn -[blockedL] in *. rewrite HB.
      by eapply core_to_blocked.
  - apply enqueueReady_inv; [|by apply Rest_jobEvals|exact Hp].
    unfold Core, readyL, blockedL, unackL in *. simpl. eapply core_to_ready_new; [done| |exact Hc].
    intros j Hj. by apply Hx.
Qed.

Lemma timeWait_None b e :
  Rest b → ev_ID e ∉ ev_ID <$> waitL (timers b) → timeWait b !! ev_ID e = None.
Proof.
  intros Hr Hn. destruct (timeWait b !! ev_ID e) as [t|] eqn:E; [|done].
  apply (r_timeWait b Hr) in E as (e' & Eid & Hl). exfalso. apply Hn.
  rewrite <- Eid. apply list_elem_of_fmap_2, elem_of_waitL. eauto.
Qed.

Lemma processWaitingEnqueue_inv x h b e :
  Core x (e :: h) b → Rest b → cnt b e < deliveryLimit b →
  Core x h (processWaitingEnqueue b e) ∧ Rest (processWaitingEnqueue b e).
Proof.
  intros Hc Hr Hlt.
  assert (HW : waitL (timers (processWaitingEnqueue b e)) ≡ₚ e :: waitL (timers b))
    by (apply (waitL_AfterFunc (timers b) (FEnqueueWaiting e)), (r_timers b Hr)).
  assert (Hlive : ∀ t f, live (timers (processWaitingEnqueue b e)) t f ↔
    (t = ts_next (timers b) ∧ f = FEnqueueWaiting e) ∨ live (timers b) t f)
    by (intros; apply live_AfterFunc, (r_timers b Hr)).
  assert (Hwf : wf (timers (processWaitingEnqueue b e)))
    by apply (wf_AfterFunc (timers b) (FEnqueueWaiting e)), (r_timers b Hr).
  assert (Hid : ∀ e', e' ∈ waitL (timers b) → ev_ID e' ≠ ev_ID e).
  { intros e' He' E. pose proof (core_ids _ _ _ _ _ _ _ _ Hc) as Hn.
    apply NoDup_cons in Hn as [Hn _]. apply Hn. rewrite <- E. apply list_elem_of_fmap_2. solve_in. }
  split.
  - unfold Core in *. rewrite HW. by apply core_to_wait.
  - pose proof (r_timers b Hr) as Hw.
    assert (∀ u, nack_timer (timers b) u → nack_timer (timers (processWaitingEnqueue b e)) u) as Hnt
      by (intros u Hu; by apply (nack_timer_AfterFunc (timers b))).
    destruct Hr. split; try done.
    + intros id ua Hua. destruct (r_unack0 id ua Hua) as [? ?]. auto.
    + intros id t. setoid_rewrite Hlive.
      change (timeWait (processWaitingEnqueue b e)) with
        (<[ev_ID e := ts_next (timers b)]> (timeWait b)).
      rewrite lookup_insert_Some, r_timeWait0. split.
      * intros [[<- <-]|[Hne (e' & ? & ?)]]; [exists e|exists e']; auto.
      * intros (e' & <- & [[-> [= ->]]|Hl]); [auto|right]. split; [|eauto].
        intros E. apply (Hid e'); [|done]. apply elem_of_waitL. eauto.
    + intros e'. rewrite HW. change (blockedL (processWaitingEnqueue b e)) with (blockedL b).
      change (cnt (processWaitingEnqueue b e) e') with (cnt b e').
      change (deliveryLimit (processWaitingEnqueue b e)) with (deliveryLimit b).
      destruct (decide (e' = e)) as [->|]; [done|]. intros. apply r_pending0. solve_in.
    + rewrite HW. simpl. rewrite r_TotalWaiting0. lia.
Qed.

(** ** Enqueue *)

Definition tracked (b : EvalBroker) : list Evaluation :=
  readyL b ++ blockedL b ++ unackL b ++ waitL (timers b).

Lemma Rest_evals b m :
  Rest b →
  (∀ e, e ∈ tracked b → default 0 (m !! ev_ID e) = cnt b e) →
  (enabled b = false → m = ∅) →
  Rest (b <| evals := m |>).
Proof.
  intros [] Hm Hd. split; try done; unfold tracked in *.
  - intros q l Hl. destruct (r_ready0 q l Hl) as (? & ? & Hf). split_and!; [done..|].
    rewrite Forall_forall in Hf |- *. intros e He. eapply (placed_le b); [done| |by intros ?|by apply Hf].
    apply Hm. assert (e ∈ readyL b) by (by eapply elem_of_queue). solve_in.
  - intros e He. change (cnt _ e) with (default 0 (m !! ev_ID e)). rewrite Hm by solve_in.
    by apply r_unacked0.
  - intros e He. change (cnt _ e) with (default 0 (m !! ev_ID e)).
    rewrite Hm by solve_in. by apply r_pending0.
Qed.

Lemma core_tracked_evals x h b e : Core x h b → e ∈ tracked b → is_Some (evals b !! ev_ID e).
Proof.
  intros Hc He. apply (core_evals _ _ _ _ _ _ _ _ Hc). apply list_elem_of_fmap_2.
  unfold tracked in He. solve_in.
Qed.

Lemma hand_not_tracked x e h b e' :
  Core x (e :: h) b → e' ∈ tracked b → ev_ID e' ≠ ev_ID e.
Proof.
  intros Hc He' E. pose proof (core_ids _ _ _ _ _ _ _ _ Hc) as Hn.
  apply NoDup_cons in Hn as [Hn _]. apply Hn. rewrite <- E. apply list_elem_of_fmap_2.
  unfold tracked in He'. solve_in.
Qed.

Lemma Rest_requeue b m :
  Rest b → (∀ t e, m !! t = Some e → ev_ID e ≠ "") → Rest (b <| requeue := m |>).
Proof. intros [] Hm. by split. Qed.

Lemma processEnqueue_inv b e tok :
  Inv b → ev_ID e ≠ "" → enabled b = true ∨ ev_Wait e ≤ 0 → Inv (processEnqueue b e tok).
Proof.
  intros [Hc Hr] Hne Hok. unfold processEnqueue.
  destruct (evals b !! ev_ID e) as [n|] eqn:Ee.
  { case_bool_decide; [done|]. destruct (unack b !! ev_ID e); [|done].
    case_bool_decide; [|done]. split; [exact Hc|]. apply Rest_requeue; [done|].
    intros t e'. rewrite lookup_insert_Some. intros [[_ <-]|[_ ?]]; [done|].
    by eapply (r_requeue b Hr). }
  destruct (enabled b) eqn:Hen.
  - assert (Core None [e] (b <| evals := <[ev_ID e := 0]> (evals b) |>)) as Hc'
      by (by apply core_new).
    assert (Rest (b <| evals := <[ev_ID e := 0]> (evals b) |>)) as Hr'.
    { apply Rest_evals; [done| |congruence]. intros e' He'.
      apply (core_tracked_evals _ _ _ _ Hc) in He'. unfold cnt.
      rewrite lookup_insert_ne; [done|]. intros E. rewrite <- E, Ee in He'. by destruct He'. }
    assert (cnt (b <| evals := <[ev_ID e := 0]> (evals b) |>) e < deliveryLimit b) as Hlt.
    { unfold cnt. simpl. rewrite lookup_insert_eq. simpl. apply (r_limit b Hr). }
    destruct (0 <? ev_Wait e); [by apply processWaitingEnqueue_inv|].
    apply (enqueueLocked_inv None); [done..|by left|by left|done].
  - destruct Hok as [?|Hw]; [done|]. destruct (Z.ltb_spec 0 (ev_Wait e)); [lia|].
    unfold enqueueLocked. rewrite Hen. by split.
Qed.

(** ** Dequeue *)

Lemma unackL_insert b id ua : unack b !! id = None →
  ua_Eval <$> vals (<[id := ua]> (unack b)) ≡ₚ ua_Eval ua :: unackL b.
Proof. intros Hn. unfold unackL. by rewrite vals_insert. Qed.

Lemma unackL_lookup b id ua : unack b !! id = Some ua →
  unackL b ≡ₚ ua_Eval ua :: (ua_Eval <$> vals (delete id (unack b))).
Proof. intros Hn. unfold unackL. by rewrite (vals_delete _ _ _ Hn). Qed.

Lemma unack_None b e : Rest b → ev_ID e ∉ ev_ID <$> unackL b → unack b !! ev_ID e = None.
Proof.
  intros Hr Hn. destruct (unack b !! ev_ID e) as [ua|] eqn:E; [|done].
  destruct (r_unack b Hr _ _ E) as [Eid _]. exfalso. apply Hn. rewrite <- Eid.
  apply list_elem_of_fmap_2. unfold unackL. apply list_elem_of_fmap_2, elem_of_vals. eauto.
Qed.

Lemma dequeueForSched_inv b s tok b' e tok' :
  Inv b → dequeueForSched b s tok = Some (b', (e, tok')) → Inv b'.
Proof.
  intros [Hc Hr] H. unfold dequeueForSched in H.
  destruct (ready b !! s) as [l|] eqn:Es; simpl in H; [|done].
  destruct (pop evalLess l) as [[e0 l']|] eqn:Ep; simpl in H; [|done].
  destruct (ByScheduler (stats b) !! s) as [ss|] eqn:Ess; simpl in H; [|done].
  injection H as Hb He Htok. subst e0 tok'.
  pose proof (pop_perm _ _ _ _ Ep) as HP.
  destruct (r_ready b Hr s l Es) as (Hheap & _ & Hpl).
  assert (HR : readyL b ≡ₚ e :: flat (<[s:=l']> (ready b))).
  { unfold readyL. rewrite flat_insert, (flat_delete (ready b) s), Es. simpl. by rewrite HP. }
  assert (Hslot : jobEvals b !! ev_JobID e = Some (ev_ID e)).
  { apply (core_slot _ _ _ _ _ _ _ _ Hc). rewrite HR. solve_in. }
  assert (Hc1 : core None [e] (flat (<[s:=l']> (ready b))) (blockedL b) (unackL b)
                  (waitL (timers b)) (evals b) (jobEvals b)).
  { unfold Core in Hc. rewrite HR in Hc. by apply core_from_ready. }
  assert (Hnid : ∀ e', e' ∈ flat (<[s:=l']> (ready b)) ++ blockedL b ++ unackL b ++ waitL (timers b) →
            ev_ID e' ≠ ev_ID e).
  { intros e' He' E. pose proof (core_ids _ _ _ _ _ _ _ _ Hc1) as Hn.
    apply NoDup_cons in Hn as [Hn _]. apply Hn. rewrite <- E. by apply list_elem_of_fmap_2. }
  assert (Hun : unack b !! ev_ID e = None).
  { apply unack_None; [done|]. intros (e' & E & He')%list_elem_of_fmap.
    apply (Hnid e'); [solve_in|done]. }
  pose proof (r_timers b Hr) as Hw.
  assert (HW : waitL (timers b') ≡ₚ waitL (timers b)) by (subst b'; apply (waitL_AfterFunc (timers b)), Hw).
  assert (HU : unackL b' ≡ₚ e :: unackL b) by (subst b'; by apply unackL_insert).
  assert (Hcnt : ∀ e', ev_ID e' ≠ ev_ID e → cnt b' e' = cnt b e').
  { intros e' Hne. subst b'. unfold cnt. simpl. by rewrite lookup_insert_ne. }
  assert (Hcnte : cnt b' e = cnt b e + 1).
  { subst b'. unfold cnt. simpl. by rewrite lookup_insert_eq. }
  assert (Hsl : sched_le b b') by (subst b'; intros k; simpl; auto).
  assert (placed b s e) as Hpe by (rewrite Forall_forall in Hpl; apply Hpl; rewrite HP; left).
  split.
  - unfold Core. rewrite HU, HW. subst b'. unfold readyL, blockedL. simpl.
    apply core_to_unack; [done|]. apply core_count; [|done].
    apply (core_evals _ _ _ _ _ _ _ _ Hc1). simpl. left.
  - destruct Hr. split.
    + subst b'. by apply wf_AfterFunc.
    + intros id ua Hua. subst b'. simpl in Hua.
      apply lookup_insert_Some in Hua as [[<- <-]|[? Hua]]; simpl.
      * split; [done|]. exists TActive, (ev_ID e), tok. simpl. by rewrite lookup_insert_eq.
      * destruct (r_unack0 id ua Hua). split; [done|].
        by apply (nack_timer_AfterFunc (timers b)).
    + intros id t. subst b'. simpl. rewrite r_timeWait0.
      setoid_rewrite (live_AfterFunc (timers b) (FNack (ev_ID e) tok)); [|done]. naive_solver.
    + subst b'. exact r_blocked0.
    + intros q lq. subst b'. simpl. rewrite lookup_insert_Some. intros [[<- <-]|[Hne Hlq]].
      * split_and!.
        -- eapply pop_heap; [|done|done].
           pose proof (core_jobs _ _ _ _ _ _ _ _ Hc) as Hj. rewrite fmap_app in Hj.
           apply NoDup_app in Hj as [Hj _]. apply ordered_distinct_jobs.
           unfold readyL in Hj. rewrite (flat_delete (ready b) s), Es in Hj. simpl in Hj.
           rewrite fmap_app in Hj. by apply NoDup_app in Hj as [Hj _].
        -- by rewrite lookup_insert_eq.
        -- rewrite Forall_forall in Hpl |- *. intros e' He'.
           eapply (placed_le b); [done| |done|apply Hpl; rewrite HP; by right].
           apply Hcnt, Hnid, elem_of_app. left. eapply elem_of_queue; [apply lookup_insert_eq|done].
      * destruct (r_ready0 q lq Hlq) as (? & ? & Hf). split_and!; [done|by apply Hsl|].
        rewrite Forall_forall in Hf |- *. intros e' He'.
        eapply (placed_le b); [done| |done|by apply Hf].
        apply Hcnt, Hnid, elem_of_app. left. eapply elem_of_queue; [|done].
        by rewrite lookup_insert_ne.
    + intros e'. rewrite HU. intros [->|He']%elem_of_cons.
      * rewrite Hcnte. destruct Hpe as [[-> Hlt]|(-> & Hge & Hs)].
        -- split; [apply Hsl; eauto|]. subst b'. simpl. lia.
        -- split; [by apply Hsl|]. intros _. apply Hsl. eauto.
      * destruct (r_unacked0 e' He') as [? Hl]. split; [by apply Hsl|].
        rewrite Hcnt by (apply Hnid; solve_in). intros Hlt. apply Hsl, Hl. by subst b'.
    + intros e' He'. rewrite HW in He'. assert (e' ∈ blockedL b ++ waitL (timers b)) as He''
        by (by subst b'). rewrite Hcnt by (apply Hnid; solve_in). subst b'. by apply r_pending0.
    + by subst b'.
    + by subst b'.
    + subst b'. unfold readyL in *. simpl. rewrite r_TotalReady0, HR. simpl. lia.
    + rewrite HU. subst b'. simpl. rewrite r_TotalUnacked0. lia.
    + by subst b'.
    + rewrite HW. by subst b'.
    + subst b'. simpl. intros Hd. specialize (r_disabled0 Hd).
      assert (is_Some (evals b !! ev_ID e)) as [? E]
        by (apply (core_evals _ _ _ _ _ _ _ _ Hc1); simpl; left).
      by rewrite r_disabled0, lookup_empty in E.
Qed.

(** ** Ack and Nack *)

Lemma Rest_nack_status b t st :
  Rest b → nack_timer (timers b) t → Rest (b <| timers := set_status st (timers b) t |>).
Proof.
  intros Hr Ht. pose proof (waitL_nack_status _ _ st Ht) as HW.
  assert (∀ u e, live (set_status st (timers b) t) u (FEnqueueWaiting e) ↔
                 live (timers b) u (FEnqueueWaiting e)) as Hl.
  { intros u e. destruct (decide (t = u)) as [<-|]; [|by apply live_set_status_ne].
    destruct Ht as (st' & i & k & Ht). unfold live. simpl. rewrite lookup_alter_eq, Ht.
    simpl. split; intros (? & [=] & _). }
  destruct Hr. split; try done; simpl.
  - by apply wf_set_status.
  - intros id ua Hua. destruct (r_unack0 id ua Hua). auto using nack_timer_set_status.
  - intros id u. rewrite r_timeWait0. by setoid_rewrite Hl.
  - intros e. unfold blockedL. simpl. rewrite HW. apply r_pending0.
  - by rewrite HW.
Qed.

Lemma Core_nack_status x h b t st :
  nack_timer (timers b) t → Core x h b → Core x h (b <| timers := set_status st (timers b) t |>).
Proof. intros Ht. unfold Core. simpl. by rewrite waitL_nack_status. Qed.

Lemma Stop_cases {F} (ts : timer_store F) t :
  Stop ts t = (set_status TStopped ts t, true) ∨ Stop ts t = (ts, false).
Proof. unfold Stop. case_match; auto. Qed.

(** Taking the delivery of [id] out of [unack], with the statistics. *)
Lemma Rest_take_unack b id ua q st :
  Rest b → unack b !! id = Some ua → decUnacked (stats b) q = Some st →
  Rest (b <| unack := delete id (unack b) |> <| stats := st |>).
Proof.
  intros Hr Hua Hst. pose proof (unackL_lookup b id ua Hua) as HU.
  unfold decUnacked in Hst. destruct (ByScheduler (stats b) !! q) as [ss|] eqn:Eq; [|done].
  injection Hst as <-.
  assert (Hsl : ∀ k, is_Some (ByScheduler (stats b) !! k) →
    is_Some (<[q:=ss <| ss_Unacked ::= fun n => n - 1 |>]> (ByScheduler (stats b)) !! k)) by auto.
  destruct Hr. split; try done; simpl.
  - intros id' ua' [_ Hua']%lookup_delete_Some. by apply r_unack0.
  - intros q' l Hl. destruct (r_ready0 q' l Hl) as (? & ? & Hf). split_and!; [done|by auto|].
    eapply Forall_impl; [exact Hf|]. intros e'. apply placed_le; done || (intros k; simpl; auto).
  - intros e He. assert (e ∈ unackL b) as He' by (rewrite HU; by right).
    destruct (r_unacked0 e He') as [? ?]. split; [by auto|]. intros ?. by auto.
  - rewrite r_TotalUnacked0, HU. simpl. unfold unackL. simpl. lia.
Qed.

Lemma Core_take_unack x h b id ua st :
  unack b !! id = Some ua → Core x h b →
  Core x (ua_Eval ua :: h) (b <| unack := delete id (unack b) |> <| stats := st |>).
Proof.
  intros Hua Hc. unfold Core in *. rewrite (unackL_lookup b id ua Hua) in Hc.
  by apply core_from_unack.
Qed.

Lemma unblockJob_inv b j :
  Core (Some j) [] b → Rest b → jobEvals b !! j = None → enabled b = true →
  Core None [] (unblockJob b j) ∧ Rest (unblockJob b j).
Proof.
  intros Hc Hr Hj Hen. unfold unblockJob.
  destruct (pop evalLess (default [] (blocked b !! j))) as [[e l']|] eqn:Ep.
  - destruct (blocked b !! j) as [l|] eqn:El; simpl in Ep; [|done].
    pose proof (pop_perm _ _ _ _ Ep) as HP.
    destruct (r_blocked b Hr j l El) as (Hne & Hf & Hh).
    assert (ev_JobID e = j) as Hej by (rewrite HP in Hf; by inversion Hf).
    set (bm := if (0 <? length l')%nat then <[j:=l']> (blocked b) else delete j (blocked b)).
    assert (HB : blockedL b ≡ₚ e :: flat bm).
    { unfold blockedL. rewrite (flat_delete (blocked b) j), El. simpl. rewrite HP. simpl.
      unfold bm. destruct l' as [|e' l']; simpl; [done|]. by rewrite flat_insert. }
    assert (cnt b e < deliveryLimit b) as Hlt by (apply (r_pending b Hr); rewrite HB; solve_in).
    set (b1 := b <| blocked := bm |> <| stats ::= fun s => s <| TotalBlocked ::= fun n => n - 1 |> |>).
    assert (Core (Some j) [e] b1) as Hc1.
    { unfold Core in *. rewrite HB in Hc. by apply core_from_blocked in Hc. }
    assert (Rest b1) as Hr1.
    { destruct Hr. split; try done; simpl.
      - intros j' l0 Hl0. unfold bm in Hl0.
        assert (blocked b !! j' = Some l0 ∨ (j' = j ∧ l0 = l' ∧ l' ≠ [])) as [?|(-> & -> & ?)].
        { destruct l' as [|e' l']; simpl in Hl0.
          - apply lookup_delete_Some in Hl0 as [_ ?]. by left.
          - apply lookup_insert_Some in Hl0 as [[<- <-]|[_ ?]]; auto. }
        + by apply r_blocked0.
        + split_and!; [done| |].
          * rewrite HP in Hf. by inversion Hf.
          * eapply pop_heap; [|exact Hh|exact Ep]. by eapply ordered_same_job.
      - intros e' He'. apply r_pending0. rewrite HB.
        change (blockedL b1) with (flat bm) in He'. solve_in.
      - rewrite r_TotalBlocked0, HB. unfold blockedL. simpl. lia. }
    apply (enqueueLocked_inv (Some j)); [done..|by left|by left|].
    intros j' [= <-]. by rewrite Hej.
  - split; [|done]. apply pop_None in Ep.
    assert (blocked b !! j = None) as Hn.
    { destruct (blocked b !! j) as [l|] eqn:E; [|done]. simpl in Ep.
      by destruct (r_blocked b Hr j l E). }
    unfold Core in *. destruct Hc as [H1 H2 H3 H4 H5 H6]. split; [done..|].
    intros e He. left. destruct (H6 e He) as [?|[= E]]; [done|]. exfalso.
    unfold blockedL in He. apply elem_of_flat in He as (j' & l & Hl & Hin).
    destruct (r_blocked b Hr j' l Hl) as (_ & Hf & _). rewrite Forall_forall in Hf.
    apply Hf in Hin. congruence.
Qed.

Lemma enqueueLocked_enabled b e q : enabled (enqueueLocked b e q) = enabled b.
Proof. unfold enqueueLocked. by repeat case_match. Qed.

Lemma unblockJob_enabled b j : enabled (unblockJob b j) = enabled b.
Proof. unfold unblockJob. case_match; [|done]. case_match. by rewrite enqueueLocked_enabled. Qed.

Lemma unacked_enabled b id ua : Inv b → unack b !! id = Some ua → enabled b = true.
Proof.
  intros [Hc Hr] Hua. destruct (enabled b) eqn:E; [done|]. apply (r_disabled b Hr) in E.
  assert (is_Some (evals b !! ev_ID (ua_Eval ua))) as [? Hx].
  { apply (core_tracked_evals _ _ _ _ Hc). unfold tracked. rewrite (unackL_lookup _ _ _ Hua).
    solve_in. }
  by rewrite E, lookup_empty in Hx.
Qed.

Lemma unacked_slot b id ua : Inv b → unack b !! id = Some ua →
  ev_ID (ua_Eval ua) = id ∧ jobEvals b !! ev_JobID (ua_Eval ua) = Some id.
Proof.
  intros [Hc Hr] Hua. destruct (r_unack b Hr id ua Hua) as [<- _]. split; [done|].
  apply (core_slot _ _ _ _ _ _ _ _ Hc). rewrite (unackL_lookup _ _ _ Hua). solve_in.
Qed.

Lemma requeue_del_inv b tok : Inv b → Inv (b <| requeue := delete tok (requeue b) |>).
Proof.
  intros [Hc Hr]. split; [exact Hc|]. apply Rest_requeue; [done|].
  intros t e [_ He]%lookup_delete_Some. by eapply (r_requeue b Hr).
Qed.

(** The broker in the middle of an Ack: the delivery is forgotten, and its job's
    slot is free. *)
Definition acked (b : EvalBroker) (id : string) (ua : unackEval) (st : BrokerStats) : EvalBroker :=
  b <| timers := set_status TStopped (timers b) (ua_NackTimer ua) |> <| stats := st |>
    <| unack := delete id (unack b) |> <| evals := delete id (evals b) |>
    <| jobEvals := delete (ev_JobID (ua_Eval ua)) (jobEvals b) |>.

Lemma acked_inv b id ua st q :
  Inv b → unack b !! id = Some ua → decUnacked (stats b) q = Some st →
  Core (Some (ev_JobID (ua_Eval ua))) [] (acked b id ua st) ∧ Rest (acked b id ua st).
Proof.
  intros HI Hua Est. destruct (unacked_slot b id ua HI Hua) as [Eid Hslot].
  pose proof (unacked_enabled b id ua HI Hua) as Hen. destruct HI as [Hc Hr].
  destruct (r_unack b Hr id ua Hua) as [_ Hnt].
  set (bt := b <| timers := set_status TStopped (timers b) (ua_NackTimer ua) |>).
  set (b1 := bt <| unack := delete id (unack bt) |> <| stats := st |>).
  assert (Core None [ua_Eval ua] b1) as Hc1
    by (by apply (Core_take_unack None [] bt), Core_nack_status).
  assert (Rest b1) as Hr1
    by (eapply (Rest_take_unack bt); [by apply Rest_nack_status|exact Hua|exact Est]).
  change (acked b id ua st) with
    (b1 <| evals := delete id (evals b1) |>
        <| jobEvals := delete (ev_JobID (ua_Eval ua)) (jobEvals b1) |>).
  split.
  - unfold Core. rewrite <- Eid. eapply core_drop; [by rewrite Eid|exact Hc1|done].
  - apply Rest_jobEvals, Rest_evals; [done| |simpl; congruence]. intros e' He'.
    unfold cnt. rewrite lookup_delete_ne; [done|]. rewrite <- Eid. intros E.
    by apply (hand_not_tracked _ _ _ _ e' Hc1 He').
Qed.

(** The branches of [Ack]. *)
Lemma Ack_cases b id tok b' err :
  Ack b id tok = Some (b', err) →
  (err ≠ None ∧ b' = b <| requeue := delete tok (requeue b) |>) ∨
  (∃ ua q st, unack b !! id = Some ua ∧ ua_Token ua = tok ∧ decUnacked (stats b) q = Some st ∧
     err = None ∧
     let b1 := unblockJob (acked b id ua st) (ev_JobID (ua_Eval ua)) in
     let b2 := match requeue b1 !! tok with
               | Some eval => processEnqueue b1 eval ""
               | None => b1
               end in
     b' = b2 <| requeue := delete tok (requeue b2) |>).
Proof.
  unfold Ack. destruct (unack b !! id) as [ua|] eqn:Hua; [|intros [= <- <-]; by left].
  case_bool_decide as Htok; simpl; [|intros [= <- <-]; by left].
  destruct (Stop_cases (timers b) (ua_NackTimer ua)) as [-> | ->]; simpl;
    [|intros [= <- <-]; by left].
  destruct (decUnacked (stats b) _) as [st|] eqn:Est; simpl; [|done].
  intros [= <- <-]. right. eexists ua, _, st. split_and!; [done|done|exact Est|done..].
Qed.

Lemma Ack_inv b id tok b' err : Inv b → Ack b id tok = Some (b', err) → Inv b'.
Proof.
  intros HI [[_ ->]|(ua & q & st & Hua & Htok & Est & -> & ->)]%Ack_cases;
    [by apply requeue_del_inv|].
  apply requeue_del_inv.
  destruct (acked_inv b id ua st q HI Hua Est) as [Hc2 Hr2].
  pose proof (unacked_enabled b id ua HI Hua) as Hen. set (j := ev_JobID (ua_Eval ua)) in *.
  destruct (unblockJob_inv (acked b id ua st) j) as [Hc3 Hr3];
    [done|done|by simpl; rewrite lookup_delete_eq|done|].
  destruct (requeue (unblockJob _ j) !! tok) as [e'|] eqn:Erq; [|by split].
  apply processEnqueue_inv; [by split|by eapply (r_requeue _ Hr3)|left].
  by rewrite unblockJob_enabled.
Qed.

Lemma Nack_inv b id tok b' err : Inv b → Nack b id tok = Some (b', err) → Inv b'.
Proof.
  intros HI0 H. unfold Nack in H.
  set (b0 := b <| requeue := delete tok (requeue b) |>) in *.
  assert (Inv b0) as HI by (by apply requeue_del_inv). clearbody b0. clear b HI0.
  destruct (unack b0 !! id) as [ua|] eqn:Hua; [|by injection H as <- _].
  case_bool_decide as Htok; simpl in H; [|by injection H as <- _].
  destruct (unacked_slot b0 id ua HI Hua) as [Eid Hslot].
  pose proof (unacked_enabled b0 id ua HI Hua) as Hen. destruct HI as [Hc Hr].
  destruct (r_unack b0 Hr id ua Hua) as [_ Hnt]. set (e := ua_Eval ua) in *.
  set (bt := b0 <| timers := (Stop (timers b0) (ua_NackTimer ua)).1 |>).
  assert (Core None [] bt ∧ Rest bt) as [Hct Hrt].
  { unfold bt. destruct (Stop_cases (timers b0) (ua_NackTimer ua)) as [-> | ->]; simpl.
    - split; [by apply Core_nack_status|by apply Rest_nack_status].
    - split; [exact Hc|]. destruct Hr; by split. }
  destruct (Stop (timers b0) (ua_NackTimer ua)) as [ts stopped]. simpl in bt.
  destruct (decUnacked (stats b0) (ev_Type e)) as [st|] eqn:Est; simpl in H; [|done].
  injection H as <- _.
  set (b1 := bt <| unack := delete id (unack bt) |> <| stats := st |>).
  assert (Core None [e] b1) as Hc1 by (by apply (Core_take_unack None [] bt)).
  assert (Rest b1) as Hr1 by (by eapply (Rest_take_unack bt)).
  assert (cnt b1 e = default 0 (evals b0 !! id)) as Ecnt by (unfold cnt; by rewrite Eid).
  assert (is_Some (ByScheduler (stats b1) !! ev_Type e)) as Hty.
  { unfold decUnacked in Est. destruct (ByScheduler (stats b0) !! ev_Type e); [|done].
    injection Est as <-. simpl. by rewrite lookup_insert_eq. }
  rewrite <- Eid in Hslot.
  destruct (Z.leb_spec (deliveryLimit b0) (default 0 (evals b0 !! id))) as [Hlim|Hlim].
  - apply (enqueueLocked_inv None [] b1); [done..| |by right|done].
    right. by rewrite Ecnt.
  - set (e' := e <| ev_Wait := nackReenqueueDelay b1 (default 0 (evals b0 !! id)) |>).
    assert (Core None [e'] b1) as Hc1' by (by apply (core_hand None e)).
    assert (cnt b1 e' < deliveryLimit b1) as Hlt by (by rewrite <- Ecnt in Hlim).
    change (Inv (if 0 <? ev_Wait e' then processWaitingEnqueue b1 e'
                 else enqueueLocked b1 e' (ev_Type e'))).
    case_match; [by apply processWaitingEnqueue_inv|].
    apply (enqueueLocked_inv None []); [done..|by left|by left|done].
Qed.

(** ** Timers and flushing *)

Lemma Fire_inv b t : Inv b → Inv (b <| timers := Fire (timers b) t |>).
Proof.
  intros [Hc Hr]. pose proof (waitL_Fire (timers b) t) as HW. split.
  - unfold Core. simpl. by rewrite HW.
  - assert (∀ u, nack_timer (timers b) u → nack_timer (Fire (timers b) t) u) as Hnt.
    { intros u Hu. unfold Fire. case_match; [by apply nack_timer_set_status|done]. }
    destruct Hr. split; try done; simpl.
    + by apply wf_Fire.
    + intros id ua Hua. destruct (r_unack0 id ua Hua). auto.
    + intros id u. rewrite r_timeWait0. by setoid_rewrite live_Fire.
    + intros e. unfold blockedL. simpl. rewrite HW. apply r_pending0.
    + by rewrite HW.
Qed.

Lemma enqueueWaiting_inv b t ts e :
  Inv b → Take (timers b) t = Some (ts, FEnqueueWaiting e) →
  Inv (enqueueWaiting (b <| timers := ts |>) e).
Proof.
  intros [Hc Hr] HT. pose proof (waitL_Take _ _ _ _ HT) as HW.
  assert (is_Some (evals b !! ev_ID e)) as Hev.
  { apply (core_tracked_evals _ _ _ _ Hc). unfold tracked. rewrite HW. solve_in. }
  assert (enabled b = true) as Hen.
  { destruct (enabled b) eqn:E; [done|]. apply (r_disabled b Hr) in E.
    rewrite E, lookup_empty in Hev. by destruct Hev. }
  assert (cnt b e < deliveryLimit b) as Hlt by (apply (r_pending b Hr); rewrite HW; solve_in).
  assert (ts = set_status TStopped (timers b) t ∧ live (timers b) t (FEnqueueWaiting e)) as [Ets Hl].
  { unfold Take in HT. destruct (ts_timers (timers b) !! t) as [[st f]|] eqn:E; simpl in HT; [|done].
    case_bool_decide as Hf; [|done]. injection HT as <- ->. split; [done|].
    simpl in Hf. exists st. split; [done|congruence]. }
  set (b1 := (b <| timers := ts |>) <| timeWait := delete (ev_ID e) (timeWait b) |>
               <| stats ::= fun s => s <| TotalWaiting ::= fun n => n - 1 |> |>).
  assert (Core None [e] b1) as Hc1.
  { unfold Core in *. rewrite HW in Hc. by apply core_from_wait in Hc. }
  assert (Rest b1) as Hr1.
  { destruct Hr. split; try done; simpl; subst ts.
    - by apply wf_set_status.
    - intros id ua Hua. destruct (r_unack0 id ua Hua). auto using nack_timer_set_status.
    - intros id u. rewrite lookup_delete_Some, r_timeWait0. setoid_rewrite live_set_stopped. split.
      + intros [Hne (e' & <- & Hl')]. exists e'. split_and!; [done..|]. intros ->.
        pose proof (live_det _ _ _ _ Hl Hl') as [= ->]. done.
      + intros (e' & <- & Hl' & Hne). split; [|eauto]. intros E.
        assert (timeWait b !! ev_ID e = Some t) as E1 by (apply r_timeWait0; eauto).
        assert (timeWait b !! ev_ID e' = Some u) as E2 by (apply r_timeWait0; eauto).
        rewrite E in E1. congruence.
    - intros e' He'. apply r_pending0. rewrite HW. solve_in.
    - rewrite r_TotalWaiting0, HW. simpl. lia. }
  apply (enqueueLocked_inv None []); [done..|by left|by left|done].
Qed.

Lemma runTimer_inv b t b' : Inv b → runTimer b t = Some b' → Inv b'.
Proof.
  intros HI. unfold runTimer. destruct (Take (timers b) t) as [[ts f]|] eqn:HT;
    [|by intros [= <-]]. destruct f as [id tok|e].
  - destruct (Nack _ id tok) as [[b1 err]|] eqn:En; simpl; [|done]. intros [= <-].
    eapply Nack_inv; [|exact En].
    assert (nack_timer (timers b) t ∧ ts = set_status TStopped (timers b) t) as [Hnt ->].
    { unfold Take in HT. destruct (ts_timers (timers b) !! t) as [[st f]|] eqn:E; simpl in HT; [|done].
      case_bool_decide; [|done]. injection HT as <- ->. unfold nack_timer. eauto. }
    destruct HI as [Hc Hr]. split; [by apply Core_nack_status|by apply Rest_nack_status].
  - intros [= <-]. by eapply enqueueWaiting_inv.
Qed.

(** No timed wait has fired without its goroutine having run. *)
Definition quiescent (b : EvalBroker) : Prop :=
  ∀ t e, ts_timers (timers b) !! t ≠ Some (mkTimer TFired (FEnqueueWaiting e)).

Lemma stopAll_wf l ts : wf ts → wf (stopAll ts l).
Proof.
  revert ts. induction l as [|t l IH]; intros ts Hw; [done|]. simpl. apply IH.
  destruct (Stop_cases ts t) as [-> | ->]; simpl; auto using wf_set_status.
Qed.

(** Stopping keeps fired timers fired, and leaves no timer of [l] active. *)
Lemma stopAll_lookup l ts t tm :
  ts_timers (stopAll ts l) !! t = Some tm → tm_status tm ≠ TStopped →
  ts_timers ts !! t = Some tm ∧ (t ∈ l → tm_status tm = TFired).
Proof.
  revert ts. induction l as [|u l IH]; intros ts Ht Hs; simpl in Ht.
  { split; [done|by intros ?%not_elem_of_nil]. }
  apply IH in Ht as [Ht Hl]; [|done].
  unfold Stop, is_active in Ht. destruct (ts_timers ts !! u) as [tm'|] eqn:Eu.
  - case_bool_decide as Ha; simpl in Ht.
    + destruct (decide (u = t)) as [->|Hne].
      { rewrite lookup_alter_eq, Eu in Ht. by injection Ht as <-. }
      rewrite lookup_alter_ne in Ht by done. split; [done|]. intros [?|?]%elem_of_cons; [congruence|by auto].
    + split; [done|]. intros [->|Hin]%elem_of_cons; [|by auto].
      assert (tm' = tm) as -> by congruence. destruct tm as [[] ?]; done.
  - simpl in Ht. split; [done|]. intros [->|Hin]%elem_of_cons; [congruence|by auto].
Qed.

Lemma Flush_inv b : Rest b → quiescent b → Inv (Flush b).
Proof.
  intros Hr Hq.
  set (ts := stopAll (stopAll (timers b) (ua_NackTimer <$> vals (unack b))) (vals (timeWait b))).
  assert (Hnl : ∀ t e, live ts t (FEnqueueWaiting e) → False).
  { intros t e (st & Ht & Hst). apply stopAll_lookup in Ht as [Ht H1]; [|done].
    apply stopAll_lookup in Ht as [Ht _]; [|done].
    assert (st = TFired) as ->; [|by eapply Hq].
    apply H1, elem_of_vals. exists (ev_ID e). apply (r_timeWait b Hr). exists e. by repeat eexists. }
  assert (waitL ts = []) as HW.
  { destruct (waitL ts) as [|e l] eqn:E; [done|].
    destruct (proj1 (elem_of_waitL ts e)) as [t Ht]; [rewrite E; left|]. by apply Hnl in Ht. }
  assert (Hwf : wf ts) by apply stopAll_wf, stopAll_wf, (r_timers b Hr).
  assert (timers (Flush b) = ts) as Ets by reflexivity.
  assert (readyL (Flush b) = [] ∧ blockedL (Flush b) = [] ∧ unackL (Flush b) = []) as (ER & EB & EU).
  { unfold readyL, blockedL, unackL. simpl. by rewrite !flat_empty, vals_empty. }
  clearbody ts. split.
  - unfold Core. rewrite Ets, HW, ER, EB, EU. apply core_init.
  - destruct Hr. split; rewrite ?Ets, ?HW, ?ER, ?EB, ?EU; try done.
    + intros id t. simpl. rewrite lookup_empty. split; [done|].
      intros (e & _ & Hl). by apply Hnl in Hl.
    + by intros e ?%not_elem_of_nil.
Qed.

Lemma enabled_inv b on : Inv b → (on = false → evals b = ∅) → Inv (b <| enabled := on |>).
Proof. intros [Hc Hr] He. split; [exact Hc|]. destruct Hr. by split. Qed.

Lemma SetEnabled_inv b on : Inv b → (on = false → quiescent b) → Inv (SetEnabled b on).
Proof.
  intros HI Hq. unfold SetEnabled. destruct on; simpl negb; cbv iota.
  - by apply enabled_inv.
  - pose proof (Flush_inv b (proj2 HI) (Hq eq_refl)) as HF.
    exact (enabled_inv (Flush b) false HF (fun _ => eq_refl)).
Qed.

Lemma nack_status_inv b t st :
  Inv b → nack_timer (timers b) t → Inv (b <| timers := set_status st (timers b) t |>).
Proof. intros [Hc Hr] Ht. split; [by apply Core_nack_status|by apply Rest_nack_status]. Qed.

(** ** Reachable brokers

    A step is one method call, one firing of a timer, or the goroutine of a
    fired timer.  [Enqueue] steps carry what the callers guarantee: an
    evaluation has an ID, and a broker that is disabled is only handed
    evaluations without a wait (see [disabled_wait_duplicates] for what happens
    otherwise).  Flushing is a step only when no timed wait has fired without
    having run. *)

Definition enqueue_ok (b : EvalBroker) (e : Evaluation) : Prop :=
  ev_ID e ≠ "" ∧ (enabled b = true ∨ ev_Wait e ≤ 0).

Inductive step (b : EvalBroker) : EvalBroker → Prop :=
  | step_Enqueue e : enqueue_ok b e → step b (Enqueue b e)
  | step_EnqueueAll l :
      Forall (fun et => enqueue_ok b et.1) l → step b (EnqueueAll b l)
  | step_scan schedulers offset token b' r :
      scanForSchedulers b schedulers offset token = Some (b', r) → step b b'
  | step_register schedulers : step b (registerWaiters b schedulers)
  | step_Reset id token : step b (OutstandingReset b id token).1
  | step_Pause id token : step b (PauseNackTimeout b id token).1
  | step_Resume id token : step b (ResumeNackTimeout b id token).1
  | step_Ack id token b' err : Ack b id token = Some (b', err) → step b b'
  | step_Nack id token b' err : Nack b id token = Some (b', err) → step b b'
  | step_Fire t : step b (b <| timers := Fire (timers b) t |>)
  | step_run t b' : runTimer b t = Some b' → step b b'
  | step_SetEnabled on : (on = false → quiescent b) → step b (SetEnabled b on)
  | step_Flush : quiescent b → step b (Flush b).

Inductive reachable : EvalBroker → Prop :=
  | reach_new timeout d1 d2 limit b :
      0 < limit → NewEvalBroker timeout d1 d2 limit = Some b → reachable b
  | reach_step b b' : reachable b → step b b' → reachable b'.

Lemma NewEvalBroker_inv timeout d1 d2 limit b :
  0 < limit → NewEvalBroker timeout d1 d2 limit = Some b → Inv b.
Proof.
  unfold NewEvalBroker. intros Hl. case_match; [done|]. intros [= <-].
  split; [unfold Core, readyL, blockedL, unackL, waitL; simpl;
          rewrite !flat_empty, !vals_empty; apply core_init|].
  split; unfold readyL, blockedL, unackL, waitL in *; simpl;
    rewrite ?flat_empty, ?vals_empty; try done; try by intros e ?%not_elem_of_nil.
  intros id t. rewrite lookup_empty. split; [done|]. by intros (e & _ & (st & ? & _)).
Qed.

Lemma EnqueueAll_enabled_ok b l : Inv b →
  Forall (fun et => enqueue_ok b et.1) l → Inv (EnqueueAll b l) ∧ enabled (EnqueueAll b l) = enabled b.
Proof.
  unfold EnqueueAll. revert b. induction l as [|[e tok] l IH]; intros b HI Hl; [done|].
  apply Forall_cons in Hl as [[Hid Hok] Hl]. simpl.
  assert (enabled (processEnqueue b e tok) = enabled b) as Een.
  { unfold processEnqueue. repeat case_match; simpl; try done;
      rewrite ?enqueueLocked_enabled; done. }
  destruct (IH (processEnqueue b e tok)) as [? E]; [by apply processEnqueue_inv| |].
  - eapply Forall_impl; [exact Hl|]. intros [e' t']. unfold enqueue_ok. by rewrite Een.
  - split; [done|]. by rewrite E.
Qed.

Lemma scan_inv b sl off tok b' r :
  Inv b → scanForSchedulers b sl off tok = Some (b', r) → Inv b'.
Proof.
  intros HI. unfold scanForSchedulers. case_match; [by intros [= <- _]|].
  assert (∀ s b1 r1, dequeueForSched b s tok = Some (b1, r1) → Inv b1) as Hd
    by (intros s b1 [e t'] Hd; by eapply dequeueForSched_inv).
  assert (∀ s, (s ≫= fun s => '(b1, r1) ← dequeueForSched b s tok; Some (b1, inr (Some r1)))
               = Some (b', r) → Inv b') as Hk.
  { intros [s|]; simpl; [|done].
    destruct (dequeueForSched b s tok) as [[b1 r1]|] eqn:E; simpl; [|done].
    intros [= <- _]. by eapply Hd. }
  destruct (eligible b sl) as [|s1 [|s2 l]]; [by intros [= <- _]|apply (Hk (Some s1))|apply Hk].
Qed.

Lemma step_inv b b' : Inv b → step b b' → Inv b'.
Proof.
  intros HI Hs. pose proof HI as [Hc Hr].
  assert (∀ id ua, unack b !! id = Some ua → nack_timer (timers b) (ua_NackTimer ua)) as Hnt
    by (intros id ua Hua; by apply (r_unack b Hr id ua Hua)).
  destruct Hs.
  - by destruct H; apply processEnqueue_inv.
  - by apply EnqueueAll_enabled_ok.
  - by eapply scan_inv.
  - unfold registerWaiters. clear Hnt Hc Hr. revert b HI.
    induction schedulers as [|s sl IH]; intros b HI; [done|]. simpl. apply IH.
    destruct (waiting b !! s); [done|]. destruct HI as [Hc Hr]. split; [exact Hc|].
    destruct Hr. by split.
  - unfold OutstandingReset. destruct (unack b !! id) eqn:E; [|done].
    case_match; [done|]. simpl. eauto using nack_status_inv.
  - unfold PauseNackTimeout. destruct (unack b !! id) as [ua|] eqn:E; [|done].
    case_match; [done|]. destruct (Stop_cases (timers b) (ua_NackTimer ua)) as [-> | ->]; simpl.
    + eauto using nack_status_inv.
    + split; [exact Hc|]. destruct Hr. by split.
  - unfold ResumeNackTimeout. destruct (unack b !! id) eqn:E; [|done].
    case_match; [done|]. simpl. eauto using nack_status_inv.
  - by eapply Ack_inv.
  - by eapply Nack_inv.
  - by apply Fire_inv.
  - by eapply runTimer_inv.
  - by apply SetEnabled_inv.
  - by apply Flush_inv.
Qed.
