(* ===== verification/EvalBrokerProps.v ===== *)
(** * What the evaluation broker guarantees

    Properties of every broker that can be reached from [NewEvalBroker] by the
    steps of [EvalBrokerInv.step], and of single methods on such brokers. *)

From stdpp Require Import base gmap strings list.
From Stdlib Require Import ZArith Lia.
From S2P Require Import Prelude GoHeap Timers Structs EvalBroker EvalBrokerCore EvalBrokerInv.
Open Scope string_scope.
Open Scope list_scope.
Open Scope Z_scope.

Lemma reachable_inv b : reachable b → Inv b.
Proof. induction 1; eauto using NewEvalBroker_inv, step_inv. Qed.

(** ** Concrete brokers for the witnesses *)

Definition demoEval (id job : string) (prio ci : Z) : Evaluation :=
  zeroEvaluation <| ev_ID := id |> <| ev_JobID := job |> <| ev_Type := "service" |>
    <| ev_Priority := prio |> <| ev_CreateIndex := ci |> <| ev_Status := EvalStatusPending |>.

Definition demoNew : EvalBroker :=
  mkEvalBroker 60 3 false zeroStats ∅ ∅ ∅ ∅ ∅ ∅ ∅ ∅ 1 20 no_timers.

Definition demo0 : EvalBroker := SetEnabled demoNew true.

(** Two evaluations of job [j1] and one of job [j2]. *)
Definition demo1 : EvalBroker :=
  Enqueue (Enqueue (Enqueue demo0 (demoEval "e1" "j1" 50 10)) (demoEval "e2" "j2" 70 11))
    (demoEval "e3" "j1" 50 12).

Lemma demo0_reachable : reachable demo0.
Proof.
  eapply reach_step; [apply (reach_new 60 1 20 3 demoNew); [lia|reflexivity]|].
  by apply step_SetEnabled.
Qed.

Lemma demo1_reachable : reachable demo1.
Proof.
  unfold demo1. repeat (eapply reach_step; [|apply step_Enqueue; split; [done|left; reflexivity]]).
  apply demo0_reachable.
Qed.

(** ** Safety *)

Lemma ready_jobs b : Inv b → NoDup (ev_JobID <$> (readyL b ++ unackL b)).
Proof. intros [Hc _]. by eapply core_jobs. Qed.



Lemma unack_in b id ua : unack b !! id = Some ua → ua_Eval ua ∈ unackL b.
Proof. intros H. rewrite (unackL_lookup b id ua H). left. Qed.

Lemma Ack_no_crash b id tok : Inv b → is_Some (Ack b id tok).
Proof.
  intros HI. pose proof HI as [Hc Hr]. unfold Ack.
  destruct (unack b !! id) as [ua|] eqn:Hua; [|by eexists].
  case_bool_decide; simpl; [|by eexists].
  destruct (Stop_cases (timers b) (ua_NackTimer ua)) as [-> | ->]; simpl; [|by eexists].
  destruct (r_unacked b Hr _ (unack_in b id ua Hua)) as [[ss Hty] Hf].
  destruct (r_unack b Hr id ua Hua) as [Eid _]. unfold decUnacked.
  destruct (Z.ltb_spec (deliveryLimit b) (default 0 (evals b !! id))) as [Hlt|].
  - destruct Hf as [sf ->]; [by unfold cnt; rewrite Eid|]. by eexists.
  - rewrite Hty. by eexists.
Qed.

Lemma Nack_no_crash b id tok : Inv b → is_Some (Nack b id tok).
Proof.
  intros [Hc Hr]. unfold Nack. simpl.
  destruct (unack b !! id) as [ua|] eqn:Hua; [|by eexists].
  case_bool_decide; simpl; [|by eexists].
  destruct (r_unacked b Hr _ (unack_in b id ua Hua)) as [[ss Hty] _].
  destruct (Stop _ _). unfold decUnacked. simpl. rewrite Hty. by eexists.
Qed.

Lemma Peek_Some l : l ≠ [] → is_Some (Peek l).
Proof.
  intros Hl. unfold Peek. destruct l as [|e l]; [done|]. simpl length.
  case_match; [done|]. apply lookup_lt_is_Some_2. simpl. lia.
Qed.

Lemma scanStep_ready b sl acc :
  Forall (fun s => ∃ e l, ready b !! s = Some (e :: l)) acc.1 →
  Forall (fun s => ∃ e l, ready b !! s = Some (e :: l)) (foldl (scanStep b) acc sl).1.
Proof.
  revert acc. induction sl as [|s sl IH]; intros [el ep] Hacc; simpl in *; [done|].
  apply IH. destruct (ready b !! s) as [[|e l]|] eqn:E; [done| |done].
  assert (∃ e' l', ready b !! s = Some (e' :: l')) by eauto.
  destruct (Peek (e :: l)) as [r|]; [|done].
  repeat case_match; simpl; rewrite ?Forall_app; auto.
Qed.

Lemma dequeueForSched_no_crash b s e l tok :
  Inv b → ready b !! s = Some (e :: l) → is_Some (dequeueForSched b s tok).
Proof.
  intros [_ Hr] Hs. unfold dequeueForSched. rewrite Hs. simpl.
  destruct (pop_Some evalLess e l) as (y & l' & ->). simpl.
  destruct (r_ready b Hr s _ Hs) as (_ & [ss ->] & _). by eexists.
Qed.

Lemma scan_no_crash b sl off tok :
  Inv b → (off < length (eligible b sl) ∨ length (eligible b sl) ≤ 1)%nat →
  is_Some (scanForSchedulers b sl off tok).
Proof.
  intros HI Hoff. unfold scanForSchedulers. case_match; [by eexists|].
  pose proof (scanStep_ready b sl ([], 0) ltac:(constructor)) as Hf. fold (eligible b sl) in Hf.
  assert (∀ s, s ∈ eligible b sl →
    is_Some ('(b', r) ← dequeueForSched b s tok; Some (b', inr (Some r) : BrokerError + _))) as Hd.
  { intros s Hs. rewrite Forall_forall in Hf. destruct (Hf s Hs) as (e & l & E).
    destruct (dequeueForSched_no_crash b s e l tok HI E) as [[b' r] ->]. by eexists. }
  destruct (eligible b sl) as [|s1 [|s2 l]]; [by eexists|apply Hd; by left|].
  simpl in Hoff. destruct (lookup_lt_is_Some_2 (s1 :: s2 :: l) off) as [s Es]; [simpl; lia|].
  rewrite Es. simpl. apply Hd. by eapply list_elem_of_lookup_2.
Qed.

(** No method of a reachable broker dereferences a missing map entry or pops
    an empty heap: acknowledging, rejecting, scanning for work and the timer
    goroutines always return. *)
Theorem broker_never_crashes b :
  reachable b →
  (∀ id tok, is_Some (Ack b id tok)) ∧ (∀ id tok, is_Some (Nack b id tok)) ∧
  (∀ sl off tok, (off < length (eligible b sl) ∨ length (eligible b sl) ≤ 1)%nat →
     is_Some (scanForSchedulers b sl off tok)) ∧
  (∀ t, is_Some (runTimer b t)).
Proof.
  intros Hr%reachable_inv. split_and!; intros.
  - by apply Ack_no_crash.
  - by apply Nack_no_crash.
  - by apply scan_no_crash.
  - unfold runTimer. destruct (Take (timers b) t) as [[ts [id tok|e]]|] eqn:HT; [|by eexists..].
    rewrite fmap_is_Some. apply Nack_no_crash.
    assert (nack_timer (timers b) t ∧ ts = set_status TStopped (timers b) t) as [Hnt ->].
    { unfold Take in HT. destruct (ts_timers (timers b) !! t) as [[st f]|] eqn:E; simpl in HT; [|done].
      case_bool_decide; [|done]. injection HT as <- ->. unfold nack_timer. eauto. }
    by apply nack_status_inv.
Qed.

Lemma broker_never_crashes_witness : is_Some (Nack demo1 "e1" "no-such-token").
Proof. apply (broker_never_crashes demo1 demo1_reachable). Defined.

(** ** Dequeue *)

Lemma evalLess_false x y :
  x = y ∨ ev_JobID x ≠ ev_JobID y → evalLess y x = false →
  ev_Priority y < ev_Priority x ∨
  (ev_Priority y = ev_Priority x ∧ ev_CreateIndex x ≤ ev_CreateIndex y).
Proof.
  unfold evalLess. intros [->|Hne].
  - intros _. right. lia.
  - rewrite bool_decide_false by congruence.
    destruct (Z.eqb_spec (ev_Priority y) (ev_Priority x)); simpl; lia.
Qed.

Lemma NoDup_fmap_elem {A B} (f : A → B) l x y :
  NoDup (f <$> l) → x ∈ l → y ∈ l → x = y ∨ f x ≠ f y.
Proof.
  intros Hnd [i Hi]%list_elem_of_lookup [j Hj]%list_elem_of_lookup.
  destruct (decide (i = j)) as [->|Hne]; [left; congruence|right]. intros E. apply Hne.
  eapply NoDup_lookup; [exact Hnd|by rewrite list_lookup_fmap, Hi|].
  rewrite list_lookup_fmap, Hj. simpl. by rewrite E.
Qed.

Lemma queue_distinct b s l : Inv b → ready b !! s = Some l → NoDup (ev_JobID <$> l).
Proof.
  intros HI Hs. pose proof (ready_jobs b HI) as Hj. rewrite fmap_app in Hj.
  apply NoDup_app in Hj as [Hj _]. unfold readyL in Hj.
  rewrite (flat_delete (ready b) s), Hs, fmap_app in Hj. by apply NoDup_app in Hj as [Hj _].
Qed.

(** Within a scheduler's queue the delivered evaluation has the highest
    priority, and among those of the same priority the lowest create index. *)
Theorem dequeue_highest_priority b s tok b' e tok' :
  reachable b → dequeueForSched b s tok = Some (b', (e, tok')) →
  ∀ e', e' ∈ default [] (ready b !! s) →
    ev_Priority e' < ev_Priority e ∨
    (ev_Priority e' = ev_Priority e ∧ ev_CreateIndex e ≤ ev_CreateIndex e').
Proof.
  intros HI%reachable_inv Hd e' He'. unfold dequeueForSched in Hd.
  destruct (ready b !! s) as [l|] eqn:Es; simpl in *; [|done].
  destruct (pop evalLess l) as [[e0 l']|] eqn:Ep; simpl in Hd; [|done].
  destruct (ByScheduler (stats b) !! s); simpl in Hd; [|done]. injection Hd as _ -> _.
  pose proof (queue_distinct b s l HI Es) as Hnd.
  apply evalLess_false.
  - apply (NoDup_fmap_elem ev_JobID l); [done| |done]. rewrite (pop_perm _ _ _ _ Ep). left.
  - eapply pop_min; [by apply ordered_distinct_jobs| |exact Ep|done].
    by apply (r_ready b (proj2 HI) s l).
Qed.

Lemma dequeue_highest_priority_witness :
  match dequeueForSched demo1 "service" "t1" with
  | Some (_, (e, _)) =>
      ev_ID e = "e2" ∧
      (ev_Priority (demoEval "e1" "j1" 50 10) < ev_Priority e ∨
       (ev_Priority (demoEval "e1" "j1" 50 10) = ev_Priority e ∧
        ev_CreateIndex e ≤ ev_CreateIndex (demoEval "e1" "j1" 50 10)))
  | None => False
  end.
Proof.
  pose proof (dequeue_highest_priority demo1 "service" "t1") as H.
  destruct (dequeueForSched demo1 "service" "t1") as [[b' [e tok]]|] eqn:E; [|vm_compute in E; discriminate E].
  assert (ev_ID e = "e2") as Eid by (vm_compute in E; injection E as _ <- _; reflexivity).
  split; [exact Eid|]. apply (H b' e tok demo1_reachable eq_refl).
  vm_compute. right. left.
Defined.

(** The delivery limit: an evaluation is delivered from its own queue at most
    [deliveryLimit] times, and from the failed queue only after that. *)
Theorem delivery_limit b s tok b' e tok' :
  reachable b → dequeueForSched b s tok = Some (b', (e, tok')) →
  ∃ n, evals b' !! ev_ID e = Some n ∧
    (s ≠ failedQueue → s = ev_Type e ∧ n ≤ deliveryLimit b) ∧
    (s ≠ ev_Type e → s = failedQueue ∧ deliveryLimit b < n).
Proof.
  intros HI%reachable_inv Hd. unfold dequeueForSched in Hd.
  destruct (ready b !! s) as [l|] eqn:Es; simpl in *; [|done].
  destruct (pop evalLess l) as [[e0 l']|] eqn:Ep; simpl in Hd; [|done].
  destruct (ByScheduler (stats b) !! s); simpl in Hd; [|done]. injection Hd as <- -> _.
  destruct (r_ready b (proj2 HI) s l Es) as (_ & _ & Hf). rewrite Forall_forall in Hf.
  exists (cnt b e + 1). simpl. rewrite lookup_insert_eq. split; [done|].
  destruct (Hf e) as [[-> Hlt]|(-> & Hle & _)].
  - rewrite (pop_perm _ _ _ _ Ep). left.
  - split; [intros _; split; [done|lia]|done].
  - split; [done|intros _; split; [done|lia]].
Qed.

Lemma delivery_limit_witness :
  match dequeueForSched demo1 "service" "t1" with
  | Some (b', (e, _)) => ∃ n, evals b' !! ev_ID e = Some n ∧ n ≤ 3
  | None => False
  end.
Proof.
  pose proof (delivery_limit demo1 "service" "t1") as H.
  destruct (dequeueForSched demo1 "service" "t1") as [[b' [e tok]]|] eqn:E; [|vm_compute in E; discriminate E].
  destruct (H b' e tok demo1_reachable eq_refl) as (n & Hn & H1 & _).
  exists n. split; [exact Hn|]. apply H1. done.
Defined.

(** ** Nack *)

Lemma enqueueLocked_own b e q :
  enabled b = true → ev_ID e ≠ "" → jobEvals b !! ev_JobID e = Some (ev_ID e) →
  enqueueLocked b e q = enqueueReady b e q.
Proof.
  intros Hen Hne Hj. unfold enqueueLocked. rewrite Hen, Hj. simpl.
  rewrite bool_decide_false by done. by rewrite bool_decide_true.
Qed.

Lemma tracked_nonempty b e : Inv b → e ∈ tracked b → ev_ID e ≠ "".
Proof. intros [Hc _] He. by apply (core_nonempty _ _ _ _ _ _ _ _ Hc). Qed.

(** Rejecting a delivery gives the evaluation back: below the delivery limit
    it is ready again in its own queue, at once or after the compounding delay,
    and at the limit it goes to the failed queue; nothing else moves, and the
    job's slot stays with the evaluation. *)
Theorem nack_redelivers b id ua :
  reachable b → unack b !! id = Some ua →
  let e := ua_Eval ua in
  let n := default 0 (evals b !! id) in
  let e' := e <| ev_Wait := nackReenqueueDelay b n |> in
  ∃ b', Nack b id (ua_Token ua) = Some (b', None) ∧
    unack b' = delete id (unack b) ∧ evals b' = evals b ∧
    blocked b' = blocked b ∧ jobEvals b' = jobEvals b ∧
    (if deliveryLimit b <=? n then
       ready b' = <[failedQueue := push evalLess e (default [] (ready b !! failedQueue))]> (ready b) ∧
       timeWait b' = timeWait b
     else if 0 <? ev_Wait e' then
       ready b' = ready b ∧
       ∃ t, timeWait b' = <[id := t]> (timeWait b) ∧
            ts_timers (timers b') !! t = Some (mkTimer TActive (FEnqueueWaiting e'))
     else
       ready b' = <[ev_Type e := push evalLess e' (default [] (ready b !! ev_Type e))]> (ready b) ∧
       timeWait b' = timeWait b).
Proof.
  intros HI%reachable_inv Hua e n e'.
  destruct (unacked_slot b id ua HI Hua) as [Eid Hslot].
  pose proof (unacked_enabled b id ua HI Hua) as Hen.
  assert (ev_ID e ≠ "") as Hne.
  { apply (tracked_nonempty b); [done|]. unfold tracked. pose proof (unack_in b id ua Hua). solve_in. }
  destruct (r_unacked b (proj2 HI) e (unack_in b id ua Hua)) as [[ss Hty] _].
  unfold Nack. simpl. rewrite Hua, bool_decide_true by done. simpl.
  destruct (Stop _ _) as [ts st]. unfold decUnacked. fold e. rewrite Hty. simpl.
  eexists. split; [reflexivity|]. fold n. rewrite <- Eid in Hslot. fold e in Hslot, Eid.
  destruct (deliveryLimit b <=? n); [rewrite enqueueLocked_own by done; done|].
  change (nackReenqueueDelay _ n) with (nackReenqueueDelay b n).
  destruct (0 <? nackReenqueueDelay b n).
  - simpl. split_and!; [done..|]. eexists. rewrite Eid. split; [done|]. by rewrite lookup_insert_eq.
  - rewrite enqueueLocked_own by done. done.
Qed.

(** [demo1] after the delivery of [e2] under token [t1]. *)
Definition demo2 : EvalBroker :=
  match dequeueForSched demo1 "service" "t1" with Some (b, _) => b | None => demo1 end.

Lemma demo2_reachable : reachable demo2.
Proof.
  eapply reach_step; [exact demo1_reachable|].
  apply (step_scan _ ["service"] 0%nat "t1" _ (inr (Some (demoEval "e2" "j2" 70 11, "t1")))).
  vm_compute. reflexivity.
Qed.

Lemma nack_redelivers_witness :
  ∃ b', Nack demo2 "e2" "t1" = Some (b', None) ∧ unack b' = delete "e2" (unack demo2).
Proof.
  destruct (nack_redelivers demo2 "e2" (mkUnackEval (demoEval "e2" "j2" 70 11) "t1" 0)
              demo2_reachable) as (b' & H1 & H2 & _); [vm_compute; reflexivity|].
  exists b'. split; [exact H1|exact H2].
Defined.

(** ** Ack *)

Lemma pop_blocked_min j l e l' :
  Forall (fun e => ev_JobID e = j) l → is_heap evalLess l → pop evalLess l = Some (e, l') →
  ∀ e', e' ∈ l → ev_CreateIndex e ≤ ev_CreateIndex e'.
Proof.
  intros Hf Hh Hp e' He'. pose proof (pop_min _ _ _ _ (ordered_same_job j l Hf) Hh Hp e' He') as Hl.
  rewrite Forall_forall in Hf. unfold evalLess in Hl.
  rewrite bool_decide_true in Hl; [simpl in Hl; lia|].
  rewrite (Hf e'), (Hf e); [done|rewrite (pop_perm _ _ _ _ Hp); left|done].
Qed.

Lemma unblockJob_spec b j :
  Rest b → jobEvals b !! j = None → enabled b = true →
  let b' := unblockJob b j in
  unack b' = unack b ∧ evals b' = evals b ∧ requeue b' = requeue b ∧
  match blocked b !! j with
  | None => ready b' = ready b ∧ jobEvals b' = jobEvals b ∧ blocked b' = blocked b
  | Some l =>
      ∃ e l', l ≡ₚ e :: l' ∧ (∀ e', e' ∈ l' → ev_CreateIndex e ≤ ev_CreateIndex e') ∧
        jobEvals b' = <[j := ev_ID e]> (jobEvals b) ∧
        ready b' = <[ev_Type e := push evalLess e (default [] (ready b !! ev_Type e))]> (ready b) ∧
        default [] (blocked b' !! j) = l'
  end.
Proof.
  intros Hr Hj Hen b'. unfold b', unblockJob.
  destruct (blocked b !! j) as [l|] eqn:El; simpl; [|done].
  destruct (r_blocked b Hr j l El) as (Hne & Hf & Hh).
  destruct l as [|e0 l0]; [done|]. destruct (pop_Some evalLess e0 l0) as (e & l' & Ep). rewrite Ep.
  pose proof (pop_perm _ _ _ _ Ep) as HP.
  assert (ev_JobID e = j) as Hej by (rewrite HP in Hf; by inversion Hf).
  unfold enqueueLocked. simpl. rewrite Hen, Hej, Hj. simpl. split_and!; [done..|].
  exists e, l'. split_and!; [done| |done|done|].
  - intros e' He'. eapply (pop_blocked_min j); [exact Hf|done|exact Ep|]. rewrite HP. by right.
  - destruct l' as [|e' l']; simpl; [by rewrite lookup_delete_eq|by rewrite lookup_insert_eq].
Qed.

(** Acknowledging a delivery in time forgets the evaluation and hands the
    job's slot over: the blocked evaluation of the job with the lowest create
    index becomes ready, the others stay blocked; without a blocked evaluation
    the slot is free. *)
Theorem ack_hands_over b id ua :
  reachable b → unack b !! id = Some ua →
  is_active (timers b) (ua_NackTimer ua) = true → requeue b !! ua_Token ua = None →
  let j := ev_JobID (ua_Eval ua) in
  ∃ b', Ack b id (ua_Token ua) = Some (b', None) ∧
    unack b' = delete id (unack b) ∧ evals b' = delete id (evals b) ∧
    match blocked b !! j with
    | None => ready b' = ready b ∧ jobEvals b' = delete j (jobEvals b) ∧ blocked b' = blocked b
    | Some l =>
        ∃ e l', l ≡ₚ e :: l' ∧ (∀ e', e' ∈ l' → ev_CreateIndex e ≤ ev_CreateIndex e') ∧
          jobEvals b' = <[j := ev_ID e]> (jobEvals b) ∧
          ready b' = <[ev_Type e := push evalLess e (default [] (ready b !! ev_Type e))]> (ready b) ∧
          default [] (blocked b' !! j) = l'
    end.
Proof.
  intros HI%reachable_inv Hua Hact Hrq j.
  pose proof (unacked_enabled b id ua HI Hua) as Hen.
  destruct (Ack_no_crash b id (ua_Token ua) HI) as [[b' err] HA].
  exists b'. apply Ack_cases in HA as HA'.
  destruct HA' as [[Herr _]|(ua' & q & st & Hua' & _ & Est & -> & Eb')].
  { exfalso. unfold Ack in HA. rewrite Hua, bool_decide_true in HA by done. simpl in HA.
    unfold Stop in HA. rewrite Hact in HA. simpl in HA.
    destruct (decUnacked _ _); simplify_eq/=. }
  rewrite Hua in Hua'. injection Hua' as <-. set (b2 := acked b id ua st) in *.
  destruct (acked_inv b id ua st q HI Hua Est) as [_ Hr2].
  destruct (unblockJob_spec b2 j Hr2) as (U1 & U2 & U3 & U4); [simpl; by rewrite lookup_delete_eq|done|].
  fold j in Eb'. simpl in Eb'. rewrite U3 in Eb'. simpl in Eb'. rewrite Hrq in Eb'.
  split; [done|]. subst b'. split; [exact U1|]. split; [exact U2|].
  change (blocked b2) with (blocked b) in U4. destruct (blocked b !! j) as [l|].
  - destruct U4 as (e & l' & V1 & V2 & V3 & V4 & V5). exists e, l'.
    split_and!; [done..| |exact V4|exact V5].
    change (jobEvals (unblockJob b2 j) = <[j:=ev_ID e]> (jobEvals b)).
    rewrite V3. simpl. by rewrite insert_delete_eq.
  - exact U4.
Qed.

(** [demo1] with [e1] delivered under token [t1], while [e3] of the same job waits. *)
Definition demo3 : EvalBroker :=
  match dequeueForSched demo2 "service" "t2" with Some (b, _) => b | None => demo2 end.

Lemma demo3_reachable : reachable demo3.
Proof.
  eapply reach_step; [exact demo2_reachable|].
  apply (step_scan _ ["service"] 0%nat "t2" _ (inr (Some (demoEval "e1" "j1" 50 10, "t2")))).
  vm_compute. reflexivity.
Qed.

Lemma ack_hands_over_witness :
  ∃ b', Ack demo3 "e1" "t2" = Some (b', None) ∧ unack b' = delete "e1" (unack demo3).
Proof.
  destruct (ack_hands_over demo3 "e1" (mkUnackEval (demoEval "e1" "j1" 50 10) "t2" 1)
              demo3_reachable) as (b' & H1 & H2 & _); [vm_compute; reflexivity..|].
  exists b'. split; [exact H1|exact H2].
Defined.

(** A scheduler that holds no valid token for the evaluation (another leader's
    token, an expired delivery, an unknown ID) cannot acknowledge or reject it:
    both calls report an error and the broker keeps everything but the requeue
    entry of that token. *)
Theorem stale_token_rejected b id tok :
  (∀ ua, unack b !! id = Some ua → ua_Token ua ≠ tok) →
  let b' := b <| requeue := delete tok (requeue b) |> in
  let err := match unack b !! id with Some _ => ErrTokenNotForID | None => ErrIDNotFound end in
  Ack b id tok = Some (b', Some err) ∧ Nack b id tok = Some (b', Some err).
Proof.
  intros Htok b' err. unfold Ack, Nack, err. simpl.
  destruct (unack b !! id) as [ua|] eqn:Hua; [|done].
  by rewrite bool_decide_false by (by apply Htok).
Qed.

Lemma stale_token_rejected_witness :
  ∃ err, Ack demo3 "e1" "t1" = Some (demo3 <| requeue := delete "t1" (requeue demo3) |>, Some err).
Proof.
  destruct (stale_token_rejected demo3 "e1" "t1") as [H _].
  - intros ua H. vm_compute in H. injection H as <-. vm_compute. discriminate.
  - eexists. exact H.
Defined.

(** ** Nothing is lost *)

Lemma enqueueLocked_evals b e q : evals (enqueueLocked b e q) = evals b.
Proof. unfold enqueueLocked. by repeat case_match. Qed.

Lemma unblockJob_evals b j : evals (unblockJob b j) = evals b.
Proof. unfold unblockJob. case_match; [|done]. case_match. by rewrite enqueueLocked_evals. Qed.

Lemma processEnqueue_evals b e tok id :
  is_Some (evals b !! id) → is_Some (evals (processEnqueue b e tok) !! id).
Proof.
  intros Hid. unfold processEnqueue. destruct (evals b !! ev_ID e) eqn:E.
  { repeat case_match; done. }
  set (b1 := if enabled b then _ else _).
  assert (is_Some (evals b1 !! id)) as H1.
  { unfold b1. case_match; [|done]. simpl. rewrite lookup_insert_is_Some.
    destruct (decide (ev_ID e = id)); auto. }
  case_match; [done|]. by rewrite enqueueLocked_evals.
Qed.

Lemma EnqueueAll_evals b l id :
  is_Some (evals b !! id) → is_Some (evals (EnqueueAll b l) !! id).
Proof.
  unfold EnqueueAll. revert b. induction l as [|[e tok] l IH]; intros b Hid; [done|].
  simpl. apply IH. by apply processEnqueue_evals.
Qed.

Lemma Nack_evals b id tok b' err : Nack b id tok = Some (b', err) → evals b' = evals b.
Proof.
  unfold Nack. simpl. destruct (unack b !! id) as [ua|]; [|by intros [= <- _]].
  case_match; [by intros [= <- _]|]. destruct (Stop _ _).
  destruct (decUnacked _ _); simpl; [|done]. intros [= <- _].
  case_match; [by rewrite enqueueLocked_evals|].
  case_match; [done|]. by rewrite enqueueLocked_evals.
Qed.

Lemma scan_evals b sl off tok b' r id :
  scanForSchedulers b sl off tok = Some (b', r) →
  is_Some (evals b !! id) → is_Some (evals b' !! id).
Proof.
  assert (∀ s, (s ≫= fun s => '(b1, r1) ← dequeueForSched b s tok; Some (b1, inr (Some r1)))
               = Some (b', r) → is_Some (evals b !! id) → is_Some (evals b' !! id)) as Hk.
  { intros [s|]; simpl; [|done]. unfold dequeueForSched.
    destruct (pop _ _) as [[e l]|]; simpl; [|done].
    destruct (ByScheduler _ !! s); simpl; [|done]. intros [= <- _] Hid. simpl.
    rewrite lookup_insert_is_Some. destruct (decide (ev_ID e = id)); auto. }
  unfold scanForSchedulers. case_match; [by intros [= <- _]|].
  destruct (eligible b sl) as [|s1 [|s2 l]]; [by intros [= <- _]|apply (Hk (Some s1))|apply Hk].
Qed.

Lemma runTimer_evals b t b' : runTimer b t = Some b' → evals b' = evals b.
Proof.
  unfold runTimer. destruct (Take (timers b) t) as [[ts [id tok|e]]|]; [| |by intros [= <-]].
  - destruct (Nack _ id tok) as [[b1 err]|] eqn:E; simpl; [|done]. intros [= <-].
    by apply Nack_evals in E.
  - intros [= <-]. unfold enqueueWaiting. by rewrite enqueueLocked_evals.
Qed.

Lemma registerWaiters_evals b sl : evals (registerWaiters b sl) = evals b.
Proof.
  unfold registerWaiters. revert b. induction sl as [|s sl IH]; intros b; [done|].
  simpl. rewrite IH. by case_match.
Qed.

Lemma Ack_evals b i tok b' err id :
  Ack b i tok = Some (b', err) → is_Some (evals b !! id) →
  is_Some (evals b' !! id) ∨
  (∃ ua, unack b !! id = Some ua ∧ Ack b id (ua_Token ua) = Some (b', None)).
Proof.
  intros HA Hid. pose proof HA as [[_ ->]|(ua & q & st & Hua & <- & Est & -> & ->)]%Ack_cases;
    [by left|].
  destruct (decide (i = id)) as [->|Hne]; [by right; exists ua|left].
  assert (is_Some (evals (unblockJob (acked b i ua st) (ev_JobID (ua_Eval ua))) !! id)) as H1.
  { rewrite unblockJob_evals. simpl. by rewrite lookup_delete_ne. }
  simpl. destruct (requeue _ !! _); [by apply processEnqueue_evals|done].
Qed.

(** What a step can do to an accepted evaluation. *)
Lemma step_evals b b' id :
  step b b' → is_Some (evals b !! id) →
  is_Some (evals b' !! id) ∨
  (∃ ua, unack b !! id = Some ua ∧ Ack b id (ua_Token ua) = Some (b', None)) ∨
  b' = Flush b ∨ b' = SetEnabled b false.
Proof.
  intros Hs Hid. destruct Hs as [e _|l _|sl off tok b' r Hsc|sl|i tok|i tok|i tok|i tok b' err HA|
                              i tok b' err HN|t|t b' Hrun|on Hon|_].
  - left. by apply processEnqueue_evals.
  - left. by apply EnqueueAll_evals.
  - left. by eapply scan_evals.
  - left. by rewrite registerWaiters_evals.
  - left. unfold OutstandingReset. by repeat case_match.
  - left. unfold PauseNackTimeout. by repeat case_match.
  - left. unfold ResumeNackTimeout. by repeat case_match.
  - destruct (Ack_evals _ _ _ _ _ _ HA Hid); auto.
  - left. by rewrite (Nack_evals _ _ _ _ _ HN).
  - by left.
  - left. by rewrite (runTimer_evals _ _ _ Hrun).
  - destruct on; auto.
  - auto.
Qed.



(** A job with blocked evaluations always has an evaluation in flight (ready,
    delivered or in a timed wait) that holds the job's slot, so acknowledging it
    unblocks the job: no job is stuck behind nothing. *)
Theorem blocked_job_has_holder b e :
  reachable b → e ∈ blockedL b →
  ∃ e', e' ∈ readyL b ++ unackL b ++ waitL (timers b) ∧
        ev_JobID e' = ev_JobID e ∧ jobEvals b !! ev_JobID e = Some (ev_ID e').
Proof.
  intros [Hc _]%reachable_inv He.
  destruct (core_blocked _ _ _ _ _ _ _ _ Hc e He) as [[id Hj]|]; [|done].
  destruct (core_holder _ _ _ _ _ _ _ _ Hc _ _ Hj) as (e' & He' & <- & E).
  exists e'. split_and!; [exact He'|done..].
Qed.

Lemma blocked_job_has_holder_witness :
  ∃ e', e' ∈ readyL demo3 ++ unackL demo3 ++ waitL (timers demo3) ∧ ev_JobID e' = "j1" ∧
        jobEvals demo3 !! "j1" = Some (ev_ID e').
Proof.
  apply (blocked_job_has_holder demo3 (demoEval "e3" "j1" 50 12) demo3_reachable).
  vm_compute. left.
Defined.

(** The totals [Stats] reports are the numbers of evaluations in the four
    places. *)
Theorem stats_accurate b :
  reachable b →
  TotalReady (Stats b) = Z.of_nat (length (readyL b)) ∧
  TotalUnacked (Stats b) = Z.of_nat (size (unack b)) ∧
  TotalBlocked (Stats b) = Z.of_nat (length (blockedL b)) ∧
  TotalWaiting (Stats b) = Z.of_nat (length (waitL (timers b))).
Proof.
  intros [_ []]%reachable_inv. split_and!; [done| |done|done].
  unfold Stats. rewrite r_TotalUnacked. unfold unackL. by rewrite length_fmap, length_vals.
Qed.

Lemma stats_accurate_witness :
  TotalUnacked (Stats demo3) = Z.of_nat (size (unack demo3)) ∧ TotalUnacked (Stats demo3) = 2.
Proof.
  split; [apply (stats_accurate demo3 demo3_reachable)|vm_compute; reflexivity].
Defined.

(** ** What the code does not guarantee *)

(** Evaluations of two scheduler types: the service queue holds priorities 80 and
    10, the batch queue priority 50. *)
Definition peekDemo : EvalBroker :=
  EnqueueAll demo0
    [(demoEval "s1" "j1" 80 1, ""); (demoEval "s2" "j2" 10 2, "");
     ((demoEval "b1" "j3" 50 3) <| ev_Type := "batch" |>, "")].

Lemma peekDemo_reachable : reachable peekDemo.
Proof.
  eapply reach_step; [exact demo0_reachable|]. apply step_EnqueueAll.
  repeat constructor; simpl; done || (by left).
Qed.

(** [Peek] returns the last entry of the heap's slice and not the entry
    [heap.Pop] returns, so a scan over several schedulers can deliver an
    evaluation while a requested queue holds one of higher priority. *)
Theorem scan_misses_highest_priority :
  ∃ b b' e tok e' l,
    reachable b ∧ scanForSchedulers b ["service"; "batch"] 0 tok = Some (b', inr (Some (e, tok))) ∧
    ready b !! "service" = Some l ∧ e' ∈ l ∧ ev_Priority e < ev_Priority e'.
Proof.
  exists peekDemo. eexists _, ((demoEval "b1" "j3" 50 3) <| ev_Type := "batch" |>), "t1",
    (demoEval "s1" "j1" 80 1), [demoEval "s1" "j1" 80 1; demoEval "s2" "j2" 10 2].
  split_and!; [exact peekDemo_reachable|vm_compute; reflexivity..|left|vm_compute; reflexivity].
Qed.

(** A server that is not the leader applies an evaluation with a wait: the disabled
    broker arms a timer without recording the evaluation.  It becomes leader,
    restores the pending evaluation from the state store, and both timers run. *)
Definition waitEval : Evaluation := (demoEval "e1" "j1" 50 10) <| ev_Wait := 30 |>.

Definition follower : EvalBroker := Enqueue demoNew waitEval.
Definition newLeader : EvalBroker := Enqueue (SetEnabled follower true) waitEval.

Definition fireAndRun (b : EvalBroker) (t : nat) : EvalBroker :=
  default b (runTimer (b <| timers := Fire (timers b) t |>) t).

(** Because [processEnqueue] arms the wait timer also on a disabled broker, an
    evaluation with a wait can be queued twice after a leadership change, and the
    same evaluation is delivered to two schedulers under different tokens. *)
Theorem disabled_wait_duplicates :
  match scanForSchedulers (fireAndRun (fireAndRun newLeader 0) 1) ["service"] 0 "t1" with
  | Some (b1, inr (Some (e1, tok1))) =>
      match scanForSchedulers b1 ["service"] 0 "t2" with
      | Some (b2, inr (Some (e2, tok2))) =>
          e1 = waitEval ∧ e2 = waitEval ∧ tok1 ≠ tok2 ∧
          TotalUnacked (Stats b2) = 2 ∧ size (unack b2) = 1%nat
      | _ => False
      end
  | _ => False
  end.
Proof. vm_compute. split_and!; done. Qed.
