(* ===== verification/BlockedEvals.v ===== *)
(** * The blocked evaluations tracker (src/nomad/blocked_evals.go)

    Evaluations that could not place all their allocations wait here until
    capacity appears on a node class they have not ruled out.  The tracker hands
    unblocked evaluations to the evaluation broker, which it uses through the
    interface [EvalSink]; the theorems about the tracker are proved against the
    interface, and the broker of [EvalBroker] is an instance of it.

    The order in which Go ranges over the tracker's maps is an argument [ord] of
    the methods that build the list handed to the broker. *)

From stdpp Require Import base gmap strings list.
From Stdlib Require Import ZArith Lia.
From S2P Require Import Prelude Structs EvalBroker EvalBrokerInv.
Open Scope string_scope.
Open Scope list_scope.
Open Scope Z_scope.

(** ** What the tracker needs from the broker *)

Class EvalSink (B : Type) := {
  sink_EnqueueAll : B → list (Evaluation * string) → B;
  sink_enabled : B → bool;
  (** the broker has the evaluation of this ID in its care *)
  sink_accepts : B → string → Prop
}.

Class EvalSinkLaws (B : Type) `{EvalSink B} := {
  sink_EnqueueAll_accepts b l e t :
    sink_enabled b = true → (e, t) ∈ l → sink_accepts (sink_EnqueueAll b l) (ev_ID e);
  sink_EnqueueAll_keeps b l id :
    sink_accepts b id → sink_accepts (sink_EnqueueAll b l) id;
  sink_EnqueueAll_enabled b l : sink_enabled (sink_EnqueueAll b l) = sink_enabled b
}.

(** ** State *)

Record capacityUpdate := mkCapacityUpdate { cu_computedClass : string; cu_index : Z }.
Record wrappedEval := mkWrappedEval { we_eval : Evaluation; we_token : string }.
Record BlockedStats := mkBlockedStats { TotalEscaped : Z; bs_TotalBlocked : Z }.
#[export] Instance eta_BlockedStats : Eta BlockedStats := fun r =>
  mkBlockedStats (TotalEscaped r) (bs_TotalBlocked r).

(** [capacityChangeCh] is the content of the channel, oldest first; [duplicateCh]
    whether the channel of capacity one holds a signal. *)
Record BlockedEvals (B : Type) := mkBlockedEvals {
  evalBroker : B;
  be_enabled : bool;
  be_stats : BlockedStats;
  captured : gmap string wrappedEval;
  escaped : gmap string wrappedEval;
  capacityChangeCh : list capacityUpdate;
  jobs : gmap string string;
  unblockIndexes : gmap string Z;
  duplicates : list Evaluation;
  duplicateCh : bool
}.
Arguments mkBlockedEvals {B}.
Arguments evalBroker {B}.
Arguments be_enabled {B}.
Arguments be_stats {B}.
Arguments captured {B}.
Arguments escaped {B}.
Arguments capacityChangeCh {B}.
Arguments jobs {B}.
Arguments unblockIndexes {B}.
Arguments duplicates {B}.
Arguments duplicateCh {B}.

#[export] Instance eta_BlockedEvals B : Eta (BlockedEvals B) := fun r =>
  mkBlockedEvals (evalBroker r) (be_enabled r) (be_stats r) (captured r) (escaped r)
    (capacityChangeCh r) (jobs r) (unblockIndexes r) (duplicates r) (duplicateCh r).

Section tracker.
Context {B : Type} `{EvalSink B}.
Implicit Types (b : BlockedEvals B) (w : wrappedEval).

Definition zeroBlockedStats : BlockedStats := mkBlockedStats 0 0.

Definition NewBlockedEvals (broker : B) : BlockedEvals B :=
  mkBlockedEvals broker false zeroBlockedStats ∅ ∅ [] ∅ ∅ [] false.

(** [unblockIndexes] survives a flush. *)
Definition BlockedFlush b : BlockedEvals B :=
  b <| be_stats := zeroBlockedStats |> <| captured := ∅ |> <| escaped := ∅ |>
    <| jobs := ∅ |> <| duplicates := [] |> <| capacityChangeCh := [] |>
    <| duplicateCh := false |>.

Definition BlockedSetEnabled b (on : bool) : BlockedEvals B :=
  if bool_decide (be_enabled b = on) then b
  else
    let b := b <| be_enabled := on |> in
    if negb on then BlockedFlush b else b.

(** The loop of [missedUnblock] over the entries of [unblockIndexes], with its
    early return; the second component is [max]. *)
Fixpoint missedLoop (eval : Evaluation) (entries : list (string * Z)) (max : Z) : bool * Z :=
  match entries with
  | [] => (false, max)
  | (class, index) :: rest =>
      let max := if max <? index then index else max in
      match ev_ClassEligibility eval !! class with
      | None => if ev_SnapshotIndex eval <? index then (true, max) else missedLoop eval rest max
      | Some elig =>
          if elig && (ev_SnapshotIndex eval <? index) then (true, max)
          else missedLoop eval rest max
      end
  end.

Definition missedUnblock b (eval : Evaluation) : bool :=
  let '(hit, max) := missedLoop eval (map_to_list (unblockIndexes b)) 0 in
  if hit then true
  else ev_EscapedComputedClass eval && (ev_SnapshotIndex eval <? max).

Definition processBlock b (eval : Evaluation) (token : string) : BlockedEvals B :=
  if negb (be_enabled b) then b
  else
    match jobs b !! ev_JobID eval with
    | Some _ =>
        b <| duplicates := duplicates b ++ [eval] |> <| duplicateCh := true |>
    | None =>
        if missedUnblock b eval then
          b <| evalBroker ::= fun br => sink_EnqueueAll br [(eval, token)] |>
        else
          let b := b <| be_stats ::= fun s => s <| bs_TotalBlocked ::= Z.add 1 |> |>
                     <| jobs := <[ev_JobID eval := ev_ID eval]> (jobs b) |> in
          let wrapped := mkWrappedEval eval token in
          if ev_EscapedComputedClass eval then
            b <| escaped := <[ev_ID eval := wrapped]> (escaped b) |>
              <| be_stats ::= fun s => s <| TotalEscaped ::= Z.add 1 |> |>
          else b <| captured := <[ev_ID eval := wrapped]> (captured b) |>
    end.

Definition Block b (eval : Evaluation) : BlockedEvals B := processBlock b eval "".
Definition Reblock b (eval : Evaluation) (token : string) : BlockedEvals B :=
  processBlock b eval token.

Definition Untrack b (jobID : string) : BlockedEvals B :=
  if negb (be_enabled b) then b
  else
    match jobs b !! jobID with
    | None => b
    | Some evalID =>
        let b1 :=
          match captured b !! evalID with
          | Some w =>
              b <| jobs := delete (ev_JobID (we_eval w)) (jobs b) |>
                <| captured := delete evalID (captured b) |>
                <| be_stats ::= fun s => s <| bs_TotalBlocked ::= fun n => n - 1 |> |>
          | None => b
          end in
        match escaped b1 !! evalID with
        | Some w =>
            b1 <| jobs := delete (ev_JobID (we_eval w)) (jobs b1) |>
               <| escaped := delete evalID (escaped b1) |>
               <| be_stats ::= fun s => s <| TotalEscaped ::= fun n => n - 1 |>
                                          <| bs_TotalBlocked ::= fun n => n - 1 |> |>
        | None => b1
        end
    end.

(** The store of the index under the lock, and the send on the channel. *)
Definition Unblock b (computedClass : string) (index : Z) : BlockedEvals B :=
  if negb (be_enabled b) then b
  else
    b <| unblockIndexes := <[computedClass := index]> (unblockIndexes b) |>
      <| capacityChangeCh := capacityChangeCh b ++ [mkCapacityUpdate computedClass index] |>.

Definition pairs_of (m : gmap string wrappedEval) : list (Evaluation * string) :=
  (fun w => (we_eval w, we_token w)) <$> vals m.

(** Deleting from [jobs] the job of each evaluation of [m]. *)
Definition dropJobs (m : gmap string wrappedEval) (j : gmap string string) : gmap string string :=
  foldl (fun j w => delete (ev_JobID (we_eval w)) j) j (vals m).

(** The captured evaluation has not marked the class as ineligible. *)
Definition eligibleFor (computedClass : string) (w : wrappedEval) : bool :=
  match ev_ClassEligibility (we_eval w) !! computedClass with
  | Some elig => elig
  | None => true
  end.

Definition unblock (ord : list (Evaluation * string) → list (Evaluation * string))
    b (computedClass : string) (index : Z) : BlockedEvals B :=
  if negb (be_enabled b) then b
  else
    let hit := filter (fun kw => eligibleFor computedClass kw.2 = true) (captured b) in
    let keep := filter (fun kw => eligibleFor computedClass kw.2 = false) (captured b) in
    let unblocked := pairs_of (escaped b) ++ pairs_of hit in
    let b := b <| jobs := dropJobs hit (dropJobs (escaped b) (jobs b)) |>
               <| escaped := ∅ |> <| captured := keep |> in
    if (length unblocked =? 0)%nat then b
    else
      b <| be_stats ::= fun s => s <| TotalEscaped := 0 |>
                                   <| bs_TotalBlocked ::= fun n => n - Z.of_nat (length unblocked) |> |>
        <| evalBroker ::= fun br => sink_EnqueueAll br (ord unblocked) |>.

(** One turn of the [watchCapacity] loop; nothing to do on an empty channel. *)
Definition watchCapacity (ord : list (Evaluation * string) → list (Evaluation * string))
    b : BlockedEvals B :=
  match capacityChangeCh b with
  | [] => b
  | update :: rest =>
      unblock ord (b <| capacityChangeCh := rest |>) (cu_computedClass update) (cu_index update)
  end.

(** The watcher working off the updates that are in the channel. *)
Definition drain (ord : list (Evaluation * string) → list (Evaluation * string))
    b : BlockedEvals B :=
  Nat.iter (length (capacityChangeCh b)) (watchCapacity ord) b.

Definition failedTrigger (w : wrappedEval) : bool :=
  bool_decide (ev_TriggeredBy (we_eval w) = EvalTriggerMaxPlans).

Definition UnblockFailed (ord : list (Evaluation * string) → list (Evaluation * string))
    b : BlockedEvals B :=
  if negb (be_enabled b) then b
  else
    let hitC := filter (fun kw => failedTrigger kw.2 = true) (captured b) in
    let hitE := filter (fun kw => failedTrigger kw.2 = true) (escaped b) in
    let unblocked := pairs_of hitC ++ pairs_of hitE in
    let b := b <| jobs := dropJobs hitE (dropJobs hitC (jobs b)) |>
               <| captured := filter (fun kw => failedTrigger kw.2 = false) (captured b) |>
               <| escaped := filter (fun kw => failedTrigger kw.2 = false) (escaped b) |>
               <| be_stats ::= fun s => s <| TotalEscaped ::= fun n => n - Z.of_nat (size hitE) |> |> in
    if (length unblocked =? 0)%nat then b
    else
      b <| be_stats ::= fun s => s <| bs_TotalBlocked ::= fun n => n - Z.of_nat (length unblocked) |> |>
        <| evalBroker ::= fun br => sink_EnqueueAll br (ord unblocked) |>.

(** The round of [GetDuplicates] that finds duplicates; the other rounds wait. *)
Definition GetDuplicates b : BlockedEvals B * list Evaluation :=
  (b <| duplicates := [] |>, duplicates b).

Definition BlockedStatsOf b : BlockedStats := be_stats b.
End tracker.
