(* ===== verification/BlockedEvalsProps.v ===== *)
(** * What the blocked evaluations tracker guarantees

    The invariant of src/nomad/blocked_evals.go over every sequence of its
    methods, proved against the broker interface, and the instance of the
    interface for the evaluation broker. *)

From stdpp Require Import base gmap strings list.
From Stdlib Require Import ZArith Lia.
From S2P Require Import Prelude Timers Structs EvalBroker EvalBrokerInv BlockedEvals.
Open Scope string_scope.
Open Scope list_scope.
Open Scope Z_scope.

(** ** The evaluation broker is a sink *)

#[export] Instance EvalBroker_sink : EvalSink EvalBroker := {
  sink_EnqueueAll := EnqueueAll;
  sink_enabled := enabled;
  sink_accepts b id := is_Some (evals b !! id)
}.

Lemma enqueueLocked_same b e q :
  evals (enqueueLocked b e q) = evals b ∧ enabled (enqueueLocked b e q) = enabled b.
Proof. unfold enqueueLocked. by repeat case_match. Qed.

Lemma processEnqueue_same b e tok :
  enabled (processEnqueue b e tok) = enabled b ∧
  (∀ id, is_Some (evals b !! id) → is_Some (evals (processEnqueue b e tok) !! id)) ∧
  (enabled b = true → is_Some (evals (processEnqueue b e tok) !! ev_ID e)).
Proof.
  unfold processEnqueue. destruct (evals b !! ev_ID e) eqn:E.
  { assert (∀ b', evals b' = evals b → is_Some (evals b' !! ev_ID e)) as Hs
      by (intros b' ->; rewrite E; eauto).
    repeat case_match; split_and!; auto. }
  destruct (enabled b) eqn:Hen.
  - assert (∀ id, is_Some (evals b !! id) → is_Some (<[ev_ID e:=0]> (evals b) !! id)) as Hi.
    { intros id Hid. rewrite lookup_insert_is_Some. destruct (decide (ev_ID e = id)); auto. }
    assert (is_Some (<[ev_ID e:=0]> (evals b) !! ev_ID e)) by (rewrite lookup_insert_eq; eauto).
    case_match; [split_and!; simpl; try done; congruence|].
    destruct (enqueueLocked_same (b <| evals := <[ev_ID e:=0]> (evals b) |>) e (ev_Type e)) as [-> ->].
    split_and!; try done; congruence.
  - case_match; [split_and!; simpl; try done; congruence|].
    destruct (enqueueLocked_same b e (ev_Type e)) as [-> ->]. split_and!; try done; congruence.
Qed.

#[export] Instance EvalBroker_sink_laws : EvalSinkLaws EvalBroker.
Proof.
  assert (∀ l b id, is_Some (evals b !! id) → is_Some (evals (EnqueueAll b l) !! id)) as Hk.
  { unfold EnqueueAll. induction l as [|[e t] l IH]; intros b id Hid; [done|].
    simpl. apply IH. by apply processEnqueue_same. }
  split; simpl; [|by auto|]; cycle 1.
  { intros b l. revert b. unfold EnqueueAll. induction l as [|[e t] l IH]; intros b; [done|].
    simpl. rewrite IH. apply processEnqueue_same. }
  intros b l e t. revert b.
  induction l as [|[e' t'] l IH]; intros b Hen Hin; [by apply not_elem_of_nil in Hin|].
  destruct (processEnqueue_same b e' t') as (E1 & _ & E3).
  apply elem_of_cons in Hin as [[= -> ->]|Hin].
  - apply (Hk l (processEnqueue b e' t')). by apply E3.
  - apply (IH (processEnqueue b e' t')); [by rewrite E1|done].
Qed.

(** ** [missedUnblock] *)

(** The evaluation may be able to use capacity of the class. *)
Definition could_use (e : Evaluation) (class : string) : Prop :=
  ev_EscapedComputedClass e = true ∨ ev_ClassEligibility e !! class ≠ Some false.

Lemma missedLoop_spec e entries max :
  match missedLoop e entries max with
  | (true, _) => ∃ c i, (c, i) ∈ entries ∧ ev_SnapshotIndex e < i ∧ ev_ClassEligibility e !! c ≠ Some false
  | (false, m) =>
      (∀ c i, (c, i) ∈ entries → ev_SnapshotIndex e < i → ev_ClassEligibility e !! c = Some false) ∧
      max ≤ m ∧ (∀ c i, (c, i) ∈ entries → i ≤ m) ∧ (m = max ∨ ∃ c, (c, m) ∈ entries)
  end.
Proof.
  revert max. induction entries as [|[c i] entries IH]; intros max; simpl.
  { split_and!; [intros ?? Hin; by apply not_elem_of_nil in Hin|lia|
                 intros ?? Hin; by apply not_elem_of_nil in Hin|by left]. }
  set (max' := if max <? i then i else max).
  assert (max ≤ max' ∧ i ≤ max' ∧ (max' = max ∨ max' = i)) as (Hm1 & Hm2 & Hm3)
    by (unfold max'; destruct (Z.ltb_spec max i); lia).
  assert (∀ P : Prop, (P → ev_ClassEligibility e !! c ≠ Some false ∧ ev_SnapshotIndex e < i) →
    (¬ P → ev_SnapshotIndex e < i → ev_ClassEligibility e !! c = Some false) →
    ∀ d : bool, (d = true ↔ P) →
    match (if d then (true, max') else missedLoop e entries max') with
    | (true, _) => ∃ c' i', (c', i') ∈ (c, i) :: entries ∧ ev_SnapshotIndex e < i' ∧
                            ev_ClassEligibility e !! c' ≠ Some false
    | (false, m) =>
        (∀ c' i', (c', i') ∈ (c, i) :: entries → ev_SnapshotIndex e < i' → ev_ClassEligibility e !! c' = Some false) ∧
        max ≤ m ∧ (∀ c' i', (c', i') ∈ (c, i) :: entries → i' ≤ m) ∧
        (m = max ∨ ∃ c', (c', m) ∈ (c, i) :: entries)
    end) as Hgen.
  { intros P HP HnP [] Hd.
    { destruct HP; [by apply Hd|]. exists c, i. split_and!; [left|done..]. }
    specialize (IH max'). destruct (missedLoop e entries max') as [[] m].
    - destruct IH as (c' & i' & ? & ? & ?). exists c', i'. split_and!; [by right|done..].
    - destruct IH as (I1 & I2 & I3 & I4). split_and!; [|lia| |].
      + intros c' i' [[= -> ->]|Hin]%elem_of_cons; [|by eauto]. apply HnP. rewrite <- Hd. done.
      + intros c' i' [[= -> ->]|Hin]%elem_of_cons; [lia|by eauto].
      + destruct I4 as [->|[c' ?]]; [|right; exists c'; by right].
        destruct Hm3 as [->| ->]; [by left|right; exists c; left]. }
  destruct (ev_ClassEligibility e !! c) as [elig|] eqn:Ec.
  - apply (Hgen (elig = true ∧ ev_SnapshotIndex e < i)).
    + intros [-> ?]. done.
    + intros Hn Hlt. destruct elig; [tauto|done].
    + rewrite andb_true_iff. by rewrite Z.ltb_lt.
  - apply (Hgen (ev_SnapshotIndex e < i)); [done|tauto|by rewrite Z.ltb_lt].
Qed.

Section tracker.
Context {B : Type} `{EvalSink B} `{!EvalSinkLaws B}.
Implicit Types (b : BlockedEvals B) (w : wrappedEval).

(** [missedUnblock] asks exactly whether capacity the evaluation could use has
    appeared since the snapshot it was processed on, whatever the order in
    which the map is ranged over. *)
Lemma missedUnblock_spec b e :
  0 ≤ ev_SnapshotIndex e →
  missedUnblock b e = true ↔
  ∃ class idx, unblockIndexes b !! class = Some idx ∧ ev_SnapshotIndex e < idx ∧ could_use e class.
Proof.
  intros Hs. unfold missedUnblock, could_use.
  pose proof (missedLoop_spec e (map_to_list (unblockIndexes b)) 0) as Hl.
  destruct (missedLoop e _ 0) as [[] m]; setoid_rewrite elem_of_map_to_list in Hl.
  - split; [|done]. intros _. destruct Hl as (c & i & ? & ? & ?). exists c, i. auto.
  - destruct Hl as (L1 & L2 & L3 & L4). rewrite andb_true_iff, Z.ltb_lt. split.
    + intros [Hesc Hlt]. destruct L4 as [->|[c Hc]]; [lia|]. exists c, m. auto.
    + intros (c & i & Hc & Hlt & [Hesc|Hel]).
      * split; [done|]. apply L3 in Hc. lia.
      * by apply L1 in Hc.
Qed.

(** ** The invariant *)

Definition blockedAt b (id : string) w : Prop :=
  captured b !! id = Some w ∨ escaped b !! id = Some w.

Record BInv b : Prop := mkBInv {
  b_key : ∀ id w, blockedAt b id w →
    ev_ID (we_eval w) = id ∧ jobs b !! ev_JobID (we_eval w) = Some id;
  b_jobs : ∀ j id, jobs b !! j = Some id → ∃ w, blockedAt b id w ∧ ev_JobID (we_eval w) = j;
  b_disj : captured b ##ₘ escaped b;
  b_captured : ∀ id w, captured b !! id = Some w → ev_EscapedComputedClass (we_eval w) = false;
  b_escaped : ∀ id w, escaped b !! id = Some w → ev_EscapedComputedClass (we_eval w) = true;
  b_TotalEscaped : TotalEscaped (be_stats b) = Z.of_nat (size (escaped b));
  b_TotalBlocked : bs_TotalBlocked (be_stats b) =
    Z.of_nat (size (captured b)) + Z.of_nat (size (escaped b));
  b_wake : ∀ id w class idx, blockedAt b id w → unblockIndexes b !! class = Some idx →
    ev_SnapshotIndex (we_eval w) < idx → could_use (we_eval w) class →
    ∃ u, u ∈ capacityChangeCh b ∧ cu_computedClass u = class;
  b_disabled : be_enabled b = false → captured b = ∅ ∧ escaped b = ∅
}.

Lemma New_BInv broker : BInv (NewBlockedEvals broker).
Proof.
  split; try done; intros;
    match goal with Hw : blockedAt _ _ _ |- _ => by destruct Hw end.
Qed.

Lemma Flush_BInv b : BInv (BlockedFlush b).
Proof.
  split; try done; intros;
    match goal with Hw : blockedAt _ _ _ |- _ => by destruct Hw end.
Qed.

Lemma SetEnabled_BInv b on : BInv b → BInv (BlockedSetEnabled b on).
Proof.
  intros HI. unfold BlockedSetEnabled. case_bool_decide as E; [done|].
  destruct on; simpl; [|apply Flush_BInv].
  destruct HI. by split.
Qed.

(** An ID names evaluations of one job only. *)
Definition same_job b (e : Evaluation) : Prop :=
  ∀ w, blockedAt b (ev_ID e) w → ev_JobID (we_eval w) = ev_JobID e.

Lemma processBlock_BInv b e tok :
  BInv b → 0 ≤ ev_SnapshotIndex e → same_job b e → BInv (processBlock b e tok).
Proof.
  intros HI Hs Hid. unfold processBlock. destruct (be_enabled b) eqn:Hen; simpl; [|done].
  destruct (jobs b !! ev_JobID e) eqn:Hj; [destruct HI; by split|].
  destruct (missedUnblock b e) eqn:Hm; [destruct HI; by split|].
  assert (captured b !! ev_ID e = None ∧ escaped b !! ev_ID e = None) as [Hc He].
  { assert (∀ w, ¬ blockedAt b (ev_ID e) w) as Hn.
    { intros w Hw. destruct (b_key b HI _ _ Hw) as [_ Hjw]. rewrite (Hid w Hw) in Hjw. congruence. }
    unfold blockedAt in Hn. split.
    - destruct (captured b !! ev_ID e) as [w|]; [exfalso; apply (Hn w); auto|done].
    - destruct (escaped b !! ev_ID e) as [w|]; [exfalso; apply (Hn w); auto|done]. }
  assert (∀ class idx, unblockIndexes b !! class = Some idx → ev_SnapshotIndex e < idx →
                       could_use e class → False) as Hmiss.
  { intros class idx H1 H2 H3. assert (missedUnblock b e = true) as Ht; [|congruence].
    apply missedUnblock_spec; [done|]. eauto. }
  set (b1 := if ev_EscapedComputedClass e then _ else _).
  assert (∀ id w, blockedAt b1 id w ↔ (id = ev_ID e ∧ w = mkWrappedEval e tok) ∨ blockedAt b id w) as Hat.
  { intros id w. unfold blockedAt, b1. destruct (ev_EscapedComputedClass e); simpl;
      rewrite lookup_insert_Some; destruct (decide (ev_ID e = id)) as [<-|]; naive_solver. }
  assert (jobs b1 = <[ev_JobID e := ev_ID e]> (jobs b)) as Ej
    by (unfold b1; by destruct (ev_EscapedComputedClass e)).
  assert (unblockIndexes b1 = unblockIndexes b ∧ capacityChangeCh b1 = capacityChangeCh b) as [Eu Ec]
    by (unfold b1; by destruct (ev_EscapedComputedClass e)).
  destruct HI. split.
  - intros id w [[-> ->]|Hw]%Hat; rewrite Ej; simpl; [by rewrite lookup_insert_eq|].
    destruct (b_key0 id w Hw) as [? Hjw]. split; [done|].
    rewrite lookup_insert_ne; [done|]. congruence.
  - intros j id. rewrite Ej, lookup_insert_Some. setoid_rewrite Hat.
    intros [[<- <-]|[Hne Hji]]; [by eauto|]. destruct (b_jobs0 j id Hji) as (w & ? & ?). eauto.
  - unfold b1. destruct (ev_EscapedComputedClass e); simpl.
    + by apply map_disjoint_insert_r_2.
    + by apply map_disjoint_insert_l_2.
  - intros id w. unfold b1. destruct (ev_EscapedComputedClass e) eqn:Ee; simpl; [by eauto|].
    rewrite lookup_insert_Some. intros [[_ <-]|[_ ?]]; [done|by eauto].
  - intros id w. unfold b1. destruct (ev_EscapedComputedClass e) eqn:Ee; simpl; [|by eauto].
    rewrite lookup_insert_Some. intros [[_ <-]|[_ ?]]; [done|by eauto].
  - unfold b1. destruct (ev_EscapedComputedClass e); simpl; [|done].
    rewrite map_size_insert_None by done. lia.
  - unfold b1. destruct (ev_EscapedComputedClass e); simpl; rewrite map_size_insert_None by done; lia.
  - intros id w class idx [[-> ->]|Hw]%Hat; rewrite Eu, Ec; [|by eauto].
    simpl. intros. exfalso. eauto.
  - intros Hd. unfold b1 in Hd. destruct (ev_EscapedComputedClass e); simpl in Hd; congruence.
Qed.

Lemma Unblock_BInv b class idx : BInv b → BInv (Unblock b class idx).
Proof.
  intros HI. unfold Unblock. destruct (be_enabled b) eqn:Hen; simpl; [|done].
  destruct HI. split; try done; simpl.
  - intros id w c i Hw. rewrite lookup_insert_Some. intros [[<- <-]|[Hne Hc]] Hlt Hu.
    + exists (mkCapacityUpdate class idx). split; [|done]. apply elem_of_app. right. left.
    + destruct (b_wake0 id w c i Hw Hc Hlt Hu) as (u & ? & ?). exists u. split; [|done].
      apply elem_of_app. by left.
Qed.

Lemma blockedAt_det b id w w' : BInv b → blockedAt b id w → blockedAt b id w' → w = w'.
Proof.
  intros HI. pose proof (b_disj b HI) as Hd. rewrite map_disjoint_spec in Hd.
  intros [H1|H1] [H2|H2]; try congruence; exfalso; by eapply Hd.
Qed.

(** Two states of the tracker of which the second has dropped evaluations. *)
Lemma drop_BInv b b' :
  BInv b →
  captured b' ⊆ captured b → escaped b' ⊆ escaped b →
  (∀ j id, jobs b' !! j = Some id ↔ jobs b !! j = Some id ∧ ∃ w, blockedAt b' id w) →
  unblockIndexes b' = unblockIndexes b → be_enabled b' = be_enabled b →
  TotalEscaped (be_stats b') = Z.of_nat (size (escaped b')) →
  bs_TotalBlocked (be_stats b') = Z.of_nat (size (captured b')) + Z.of_nat (size (escaped b')) →
  (∀ u, u ∈ capacityChangeCh b → u ∈ capacityChangeCh b' ∨
        ∀ id w, blockedAt b' id w → ¬ could_use (we_eval w) (cu_computedClass u)) →
  BInv b'.
Proof.
  intros HI Hc He Hj Hu Hen Hs1 Hs2 Hw.
  assert (∀ id w, blockedAt b' id w → blockedAt b id w) as Hat.
  { intros id w [Hx|Hx]; [left|right]; by eapply lookup_weaken. }
  pose proof HI as []. split; try done.
  - intros id w Hb. destruct (b_key0 id w (Hat id w Hb)) as [? ?]. split; [done|]. apply Hj. eauto.
  - intros j id [Hjb [w Hb]]%Hj. exists w. split; [done|].
    destruct (b_jobs0 j id Hjb) as (w' & Hb' & <-). by rewrite (blockedAt_det b id w w') by auto.
  - by eapply map_disjoint_weaken.
  - intros id w Hx. eapply b_captured0, lookup_weaken; done.
  - intros id w Hx. eapply b_escaped0, lookup_weaken; done.
  - intros id w class idx Hb Hui Hlt Hcu. rewrite Hu in Hui.
    destruct (b_wake0 id w class idx (Hat _ _ Hb) Hui Hlt Hcu) as (u & Hin & <-).
    destruct (Hw u Hin) as [?|Hn]; [by exists u|]. by apply Hn in Hb.
  - rewrite Hen. intros Hd. destruct (b_disabled0 Hd) as [E1 E2].
    rewrite E1 in Hc. rewrite E2 in He.
    split; apply (anti_symm (⊆)); done || apply map_empty_subseteq.
Qed.

Lemma dropJobs_lookup (m : gmap string wrappedEval) (js : gmap string string) k id :
  dropJobs m js !! k = Some id ↔
  js !! k = Some id ∧ ∀ id' w, m !! id' = Some w → ev_JobID (we_eval w) ≠ k.
Proof.
  unfold dropJobs.
  assert (∀ (l : list wrappedEval) (js : gmap string string), foldl (fun j w => delete (ev_JobID (we_eval w)) j) js l !! k = Some id ↔
    js !! k = Some id ∧ ∀ w, w ∈ l → ev_JobID (we_eval w) ≠ k) as Hf.
  { induction l as [|w l IH]; intros j; simpl.
    - split; [|by intros []]. intros ?. split; [done|]. by intros w ?%not_elem_of_nil.
    - rewrite IH, lookup_delete_Some. setoid_rewrite elem_of_cons. naive_solver. }
  rewrite Hf. setoid_rewrite elem_of_vals. naive_solver.
Qed.

(** The jobs that remain when the evaluations of the IDs [gone] are dropped. *)
Lemma drop_jobs b b' (gone : string → Prop) :
  BInv b →
  (∀ id w, blockedAt b' id w ↔ blockedAt b id w ∧ ¬ gone id) →
  (∀ j id, jobs b' !! j = Some id ↔ jobs b !! j = Some id ∧
     ∀ id' w, blockedAt b id' w → gone id' → ev_JobID (we_eval w) ≠ j) →
  ∀ j id, jobs b' !! j = Some id ↔ jobs b !! j = Some id ∧ ∃ w, blockedAt b' id w.
Proof.
  intros HI Hat Hj j id. rewrite Hj. split; intros [Hjb Hx]; (split; [done|]).
  - destruct (b_jobs b HI j id Hjb) as (w & Hb & E). exists w. apply Hat. split; [done|].
    intros Hg. by eapply Hx.
  - destruct Hx as [w [Hb Hg]%Hat]. intros id' w' Hb' Hg' <-.
    destruct (b_key b HI id' w' Hb') as [_ Hj']. congruence.
Qed.

Lemma Untrack_BInv b j : BInv b → BInv (Untrack b j).
Proof.
  intros HI. unfold Untrack. destruct (be_enabled b); simpl; [|done].
  destruct (jobs b !! j) as [id|] eqn:Hj; [|done].
  destruct (b_jobs b HI j id Hj) as (w & Hw & <-).
  pose proof (b_disj b HI) as Hd. rewrite map_disjoint_alt in Hd.
  assert (∀ b', (∀ id' w', blockedAt b' id' w' ↔ blockedAt b id' w' ∧ ¬ id' = id) →
    jobs b' = delete (ev_JobID (we_eval w)) (jobs b) →
    ∀ j id, jobs b' !! j = Some id ↔ jobs b !! j = Some id ∧ ∃ w, blockedAt b' id w) as Hjobs.
  { intros b' Hat Ej. apply (drop_jobs b b' (fun i => i = id)); [done..|].
    intros j' id'. rewrite Ej, lookup_delete_Some. split.
    - intros [? ?]. split; [done|]. intros id2 w2 Hw2 ->. by rewrite <- (blockedAt_det b id w w2).
    - intros [? Hn]. split; [by eapply Hn|done]. }
  destruct (captured b !! id) as [w1|] eqn:Ec; [|destruct (escaped b !! id) as [w2|] eqn:Ee].
  - assert (w1 = w) as -> by (eapply (blockedAt_det b id); [done|by left|done]).
    assert (escaped b !! id = None) as Ee by (destruct (Hd id); congruence).
    simpl. rewrite Ee.
    assert (size (captured b) = S (size (delete id (captured b)))) as Hsz.
    { rewrite map_size_delete_Some by eauto. destruct (size (captured b)) eqn:E; [|lia].
      apply map_size_empty_inv in E. rewrite E in Ec. done. }
    apply (drop_BInv b); try done; [apply delete_subseteq|..].
    + apply Hjobs; [|done]. intros id' w'. unfold blockedAt. simpl. rewrite lookup_delete_Some.
      split; [|naive_solver]. intros [[? ?]|?]; [naive_solver|]. split; [by right|]. congruence.
    + apply (b_TotalEscaped b HI).
    + simpl. rewrite (b_TotalBlocked b HI), Hsz. lia.
    + intros u Hu. by left.
  - assert (w2 = w) as -> by (eapply (blockedAt_det b id); [done|by right|done]).
    assert (size (escaped b) = S (size (delete id (escaped b)))) as Hsz.
    { rewrite map_size_delete_Some by eauto. destruct (size (escaped b)) eqn:E; [|lia].
      apply map_size_empty_inv in E. rewrite E in Ee. done. }
    apply (drop_BInv b); try done; [apply delete_subseteq|..].
    + apply Hjobs; [|done]. intros id' w'. unfold blockedAt. simpl. rewrite lookup_delete_Some.
      split; [|naive_solver]. intros [?|[? ?]]; [split; [by left|congruence]|naive_solver].
    + simpl. rewrite (b_TotalEscaped b HI), Hsz. lia.
    + simpl. rewrite (b_TotalBlocked b HI), Hsz. lia.
    + intros u Hu. by left.
  - destruct Hw; congruence.
Qed.

Lemma size_filter_split (P : wrappedEval → bool) (m : gmap string wrappedEval) :
  size m = (size (filter (fun kw => P kw.2 = true) m) + size (filter (fun kw => P kw.2 = false) m))%nat.
Proof.
  rewrite <- map_size_disj_union.
  - f_equal. apply map_eq. intros i. rewrite lookup_union, !map_lookup_filter.
    destruct (m !! i) as [w|]; simpl; [|done].
    destruct (P w) eqn:E; repeat case_guard; simpl in *; congruence || done.
  - apply map_disjoint_spec. intros i x y Hx Hy.
    apply map_lookup_filter_Some in Hx as [? Hx]. apply map_lookup_filter_Some in Hy as [? Hy].
    simplify_eq/=. congruence.
Qed.

Lemma length_pairs_of m : length (pairs_of m) = size m.
Proof. unfold pairs_of. by rewrite length_fmap, length_vals. Qed.

(** Dropping the captured evaluations that satisfy [P] and the escaped ones that
    satisfy [Q], with their jobs. *)
Lemma filter_BInv b b' (P Q : wrappedEval → bool) :
  let hitC := filter (fun kw => P kw.2 = true) (captured b) in
  let hitE := filter (fun kw => Q kw.2 = true) (escaped b) in
  BInv b →
  captured b' = filter (fun kw => P kw.2 = false) (captured b) →
  escaped b' = filter (fun kw => Q kw.2 = false) (escaped b) →
  (∀ j id, jobs b' !! j = Some id ↔ jobs b !! j = Some id ∧
     (∀ id' w, hitC !! id' = Some w → ev_JobID (we_eval w) ≠ j) ∧
     (∀ id' w, hitE !! id' = Some w → ev_JobID (we_eval w) ≠ j)) →
  unblockIndexes b' = unblockIndexes b → be_enabled b' = be_enabled b →
  TotalEscaped (be_stats b') = TotalEscaped (be_stats b) - Z.of_nat (size hitE) →
  bs_TotalBlocked (be_stats b') =
    bs_TotalBlocked (be_stats b) - Z.of_nat (size hitC) - Z.of_nat (size hitE) →
  (∀ u, u ∈ capacityChangeCh b → u ∈ capacityChangeCh b' ∨
        ∀ id w, blockedAt b' id w → ¬ could_use (we_eval w) (cu_computedClass u)) →
  BInv b'.
Proof.
  intros hitC hitE HI Ec Ee Hj Hu Hen Hs1 Hs2 Hw.
  pose proof (size_filter_split P (captured b)) as HsC.
  pose proof (size_filter_split Q (escaped b)) as HsE.
  pose proof (b_disj b HI) as Hd. rewrite map_disjoint_spec in Hd.
  apply (drop_BInv b); try done.
  - rewrite Ec. apply map_filter_subseteq.
  - rewrite Ee. apply map_filter_subseteq.
  - apply (drop_jobs b b' (fun i => (∃ w, hitC !! i = Some w) ∨ ∃ w, hitE !! i = Some w)); [done|..].
    + intros id w. unfold blockedAt, hitC, hitE. rewrite Ec, Ee.
      setoid_rewrite map_lookup_filter_Some. simpl. split.
      * intros [[? ?]|[? ?]]; (split; [by eauto|]); intros [[w' [? ?]]|[w' [? ?]]];
          (congruence || by eapply Hd).
      * intros [[?|?] Hn]; [left|right]; (split; [done|]); apply not_true_is_false; naive_solver.
    + intros j id. rewrite Hj. unfold hitC, hitE, blockedAt.
      setoid_rewrite map_lookup_filter_Some. simpl. split; intros [? Hx]; (split; [done|]).
      * intros id' w' Hb [[w2 [H1 H2]]|[w2 [H1 H2]]];
          (assert (w' = w2) as -> by (eapply blockedAt_det; unfold blockedAt; eauto)); naive_solver.
      * split; intros id' w' [? ?]; eapply Hx; eauto.
  - rewrite Hs1, (b_TotalEscaped b HI), Ee. fold hitE in HsE. lia.
  - rewrite Hs2, (b_TotalBlocked b HI), Ec, Ee. fold hitE in HsE. fold hitC in HsC. lia.
Qed.

Lemma filter_none (m : gmap string wrappedEval) :
  filter (fun kw => (fun _ : wrappedEval => true) kw.2 = false) m = ∅.
Proof. apply map_empty. intros i. apply map_lookup_filter_None. by right. Qed.

Lemma filter_every (m : gmap string wrappedEval) :
  filter (fun kw => (fun _ : wrappedEval => true) kw.2 = true) m = m.
Proof. by apply map_filter_id. Qed.

Lemma pairs_none m m' : (length (pairs_of m ++ pairs_of m') =? 0)%nat = true → size m = 0%nat ∧ size m' = 0%nat.
Proof. rewrite length_app, !length_pairs_of. intros ?%Nat.eqb_eq. lia. Qed.

(** After [unblock] for a class no evaluation that could use the class is left. *)
Lemma unblock_BInv ord b class idx :
  BInv b → BInv (unblock ord b class idx) ∧
  (be_enabled b = true → ∀ id w, blockedAt (unblock ord b class idx) id w →
                                 ¬ could_use (we_eval w) class).
Proof.
  intros HI. unfold unblock. destruct (be_enabled b) eqn:Hen; simpl; [|done].
  set (hit := filter _ _). set (keep := filter _ _). set (js := dropJobs _ _).
  assert (∀ b', captured b' = keep → escaped b' = ∅ → jobs b' = js →
    unblockIndexes b' = unblockIndexes b → be_enabled b' = be_enabled b →
    capacityChangeCh b' = capacityChangeCh b →
    TotalEscaped (be_stats b') = 0 →
    bs_TotalBlocked (be_stats b') =
      bs_TotalBlocked (be_stats b) - Z.of_nat (size hit) - Z.of_nat (size (escaped b)) →
    BInv b' ∧ (∀ id w, blockedAt b' id w → ¬ could_use (we_eval w) class)) as Hgo.
  { intros b' Ec Ee Ej Eu Eb Ech Hs1 Hs2. split.
    - apply (filter_BInv b b' (eligibleFor class) (fun _ => true)); try done.
      + by rewrite filter_none.
      + intros j id. rewrite filter_every, Ej. unfold js. rewrite !dropJobs_lookup. tauto.
      + rewrite filter_every, Hs1, (b_TotalEscaped b HI). lia.
      + by rewrite filter_every.
      + rewrite Ech. auto.
    - intros id w. unfold blockedAt. rewrite Ec, Ee, lookup_empty.
      unfold keep. rewrite map_lookup_filter_Some. simpl. intros [[Hb Hf]|]; [|done].
      unfold could_use. rewrite (b_captured b HI id w Hb). intros [|Hn]; [done|].
      unfold eligibleFor in Hf. destruct (ev_ClassEligibility (we_eval w) !! class) as [[]|]; congruence. }
  destruct (_ =? 0)%nat eqn:El.
  - apply pairs_none in El as [El1 El2]. rewrite El1, El2 in Hgo.
    destruct (Hgo (b <| jobs := js |> <| escaped := ∅ |> <| captured := keep |>)) as [? ?]; simpl; try done.
    + by rewrite (b_TotalEscaped b HI), El1.
    + lia.
  - edestruct Hgo as [Hb1 Hb2]; [..|split; [exact Hb1|intros _; exact Hb2]]; simpl; try done.
    rewrite length_app, !length_pairs_of. lia.
Qed.

Lemma unblock_commutes ord b class idx rest :
  unblock ord (b <| capacityChangeCh := rest |>) class idx =
  (unblock ord b class idx) <| capacityChangeCh := rest |>.
Proof. unfold unblock. simpl. destruct (be_enabled b); simpl; [|done]. by destruct (_ =? 0)%nat. Qed.

Lemma unblock_frame ord b class idx :
  capacityChangeCh (unblock ord b class idx) = capacityChangeCh b ∧
  be_enabled (unblock ord b class idx) = be_enabled b.
Proof. unfold unblock. destruct (be_enabled b) eqn:E; simpl; [|done]. by destruct (_ =? 0)%nat. Qed.

Lemma watchCapacity_BInv ord b : BInv b → BInv (watchCapacity ord b).
Proof.
  intros HI. unfold watchCapacity.
  destruct (capacityChangeCh b) as [|u rest] eqn:Ech; [done|].
  rewrite unblock_commutes.
  destruct (unblock_BInv ord b (cu_computedClass u) (cu_index u) HI) as [HI1 Hn].
  destruct (unblock_frame ord b (cu_computedClass u) (cu_index u)) as [Ef1 Ef2].
  set (b1 := unblock _ _ _ _) in *.
  apply (drop_BInv b1); try done; [|apply HI1..|].
  - intros j id. split; [|by intros [??]]. intros Hj. split; [done|].
    destruct (b_jobs b1 HI1 j id Hj) as (w & ? & ?). by exists w.
  - intros u' Hu'. rewrite Ef1, Ech in Hu'. apply elem_of_cons in Hu' as [->|?]; [right|by left].
    intros id w Hw. destruct (be_enabled b) eqn:Hen; [by eapply Hn|].
    destruct (b_disabled b1 HI1) as [E1 E2]; [congruence|].
    destruct Hw as [Hw|Hw]; simpl in Hw; [rewrite E1 in Hw|rewrite E2 in Hw]; done.
Qed.


Lemma UnblockFailed_BInv ord b : BInv b → BInv (UnblockFailed ord b).
Proof.
  intros HI. unfold UnblockFailed. destruct (be_enabled b) eqn:Hen; simpl; [|done].
  set (hitC := filter _ (captured b)). set (keepC := filter _ (captured b)).
  set (hitE := filter _ (escaped b)). set (keepE := filter _ (escaped b)).
  set (js := dropJobs _ _).
  assert (∀ b', captured b' = keepC → escaped b' = keepE → jobs b' = js →
    unblockIndexes b' = unblockIndexes b → be_enabled b' = be_enabled b →
    capacityChangeCh b' = capacityChangeCh b →
    TotalEscaped (be_stats b') = TotalEscaped (be_stats b) - Z.of_nat (size hitE) →
    bs_TotalBlocked (be_stats b') =
      bs_TotalBlocked (be_stats b) - Z.of_nat (size hitC) - Z.of_nat (size hitE) → BInv b') as Hgo.
  { intros b' Ec Ee Ej Eu Eb Ech Hs1 Hs2.
    apply (filter_BInv b b' failedTrigger failedTrigger); try done.
    - intros j id. rewrite Ej. unfold js. rewrite !dropJobs_lookup. tauto.
    - rewrite Ech. auto. }
  destruct (_ =? 0)%nat eqn:El.
  - apply pairs_none in El as [El1 El2]. apply Hgo; simpl; try done. rewrite El1, El2. lia.
  - apply Hgo; simpl; try done. rewrite length_app, !length_pairs_of. lia.
Qed.

(** ** Runs of the tracker *)

(** The methods of the tracker, in any order; [bs_broker] is a step of the
    broker itself. *)
Inductive bstep : BlockedEvals B → BlockedEvals B → Prop :=
  | bs_SetEnabled b on : bstep b (BlockedSetEnabled b on)
  | bs_Reblock b e tok : 0 ≤ ev_SnapshotIndex e → same_job b e → bstep b (Reblock b e tok)
  | bs_Block b e : 0 ≤ ev_SnapshotIndex e → same_job b e → bstep b (Block b e)
  | bs_Untrack b j : bstep b (Untrack b j)
  | bs_Unblock b class idx : bstep b (Unblock b class idx)
  | bs_watch ord b : bstep b (watchCapacity ord b)
  | bs_UnblockFailed ord b : bstep b (UnblockFailed ord b)
  | bs_Flush b : bstep b (BlockedFlush b)
  | bs_GetDuplicates b : bstep b (GetDuplicates b).1
  | bs_broker b br : bstep b (b <| evalBroker := br |>).

Inductive breachable (br : B) : BlockedEvals B → Prop :=
  | br_new : breachable br (NewBlockedEvals br)
  | br_step b b' : breachable br b → bstep b b' → breachable br b'.

Lemma bstep_BInv b b' : bstep b b' → BInv b → BInv b'.
Proof.
  destruct 1; intros HI.
  - by apply SetEnabled_BInv.
  - by apply processBlock_BInv.
  - by apply processBlock_BInv.
  - by apply Untrack_BInv.
  - by apply Unblock_BInv.
  - by apply watchCapacity_BInv.
  - by apply UnblockFailed_BInv.
  - apply Flush_BInv.
  - destruct HI. by split.
  - destruct HI. by split.
Qed.

Lemma breachable_BInv br b : breachable br b → BInv b.
Proof. induction 1; [apply New_BInv|by eapply bstep_BInv]. Qed.

(** ** What [unblock] does with an evaluation *)

Lemma pairs_of_elem m id w : m !! id = Some w → (we_eval w, we_token w) ∈ pairs_of m.
Proof.
  intros Hm. unfold pairs_of. apply list_elem_of_fmap. exists w. split; [done|].
  apply elem_of_vals. eauto.
Qed.

Lemma could_use_eligible w class :
  could_use (we_eval w) class ↔ ev_EscapedComputedClass (we_eval w) = true ∨ eligibleFor class w = true.
Proof.
  unfold could_use, eligibleFor. destruct (ev_ClassEligibility (we_eval w) !! class) as [[]|]; naive_solver.
Qed.

Lemma classic_could_use e class : could_use e class ∨ ¬ could_use e class.
Proof.
  unfold could_use. destruct (ev_EscapedComputedClass e); [by left; left|].
  destruct (decide (ev_ClassEligibility e !! class = Some false)); naive_solver.
Qed.

Lemma unblock_wakes ord b class idx id w :
  (∀ l, ord l ≡ₚ l) → BInv b → be_enabled b = true → sink_enabled (evalBroker b) = true →
  blockedAt b id w → could_use (we_eval w) class →
  sink_accepts (evalBroker (unblock ord b class idx)) id.
Proof.
  intros Hord HI Hen Hbr Hw Hcu. destruct (b_key b HI id w Hw) as [<- _].
  unfold unblock. rewrite Hen. simpl.
  set (hit := filter _ _). set (keep := filter _ _).
  assert ((we_eval w, we_token w) ∈ pairs_of (escaped b) ++ pairs_of hit) as Hin.
  { apply elem_of_app. destruct Hw as [Hc|He]; [right|left; by eapply pairs_of_elem].
    apply could_use_eligible in Hcu as [Hcu|Hcu]; [by rewrite (b_captured b HI _ _ Hc) in Hcu|].
    apply (pairs_of_elem hit (ev_ID (we_eval w))). by apply map_lookup_filter_Some. }
  destruct (_ =? 0)%nat eqn:El.
  { apply Nat.eqb_eq, nil_length_inv in El. rewrite El in Hin. by apply not_elem_of_nil in Hin. }
  simpl. apply sink_EnqueueAll_accepts with (t := we_token w); [done|]. by rewrite Hord.
Qed.

Lemma unblock_leaves ord b class idx id w :
  BInv b → blockedAt b id w → ¬ could_use (we_eval w) class →
  blockedAt (unblock ord b class idx) id w.
Proof.
  intros HI Hw Hn. unfold unblock. destruct (be_enabled b); simpl; [|done].
  rewrite could_use_eligible in Hn.
  assert (filter (fun kw => eligibleFor class kw.2 = false) (captured b) !! id = Some w) as Hk.
  { destruct Hw as [Hc|He]; [|by rewrite (b_escaped b HI _ _ He) in Hn; tauto].
    apply map_lookup_filter_Some. split; [done|]. apply not_true_is_false. tauto. }
  destruct (_ =? 0)%nat; by left.
Qed.

Lemma unblock_broker_keeps ord b class idx id :
  sink_accepts (evalBroker b) id → sink_accepts (evalBroker (unblock ord b class idx)) id.
Proof.
  intros Ha. unfold unblock. destruct (be_enabled b); simpl; [|done].
  destruct (_ =? 0)%nat; [done|]. by apply sink_EnqueueAll_keeps.
Qed.

Lemma watch_follows ord b id w :
  (∀ l, ord l ≡ₚ l) → BInv b → be_enabled b = true → sink_enabled (evalBroker b) = true →
  blockedAt b id w ∨ sink_accepts (evalBroker b) id →
  let b' := watchCapacity ord b in
  be_enabled b' = true ∧ sink_enabled (evalBroker b') = true ∧
  (blockedAt b' id w ∨ sink_accepts (evalBroker b') id) ∧
  capacityChangeCh b' = tail (capacityChangeCh b).
Proof.
  intros Hord HI Hen Hbr Hw. unfold watchCapacity.
  destruct (capacityChangeCh b) as [|u rest] eqn:Ech; [simpl; by split_and!|]. simpl.
  rewrite unblock_commutes. simpl.
  destruct (unblock_frame ord b (cu_computedClass u) (cu_index u)) as [_ ->].
  split_and!; [done| | |done].
  - unfold unblock. rewrite Hen. simpl. destruct (_ =? 0)%nat; simpl; [done|].
    by rewrite sink_EnqueueAll_enabled.
  - destruct Hw as [Hw|Ha]; [|right; by apply unblock_broker_keeps].
    destruct (classic_could_use (we_eval w) (cu_computedClass u)).
    + right. by eapply unblock_wakes.
    + left. by apply (unblock_leaves ord b (cu_computedClass u) (cu_index u)).
Qed.

Lemma drain_follows ord b id w :
  (∀ l, ord l ≡ₚ l) → BInv b → be_enabled b = true → sink_enabled (evalBroker b) = true →
  blockedAt b id w →
  let b' := drain ord b in
  BInv b' ∧ capacityChangeCh b' = [] ∧
  (blockedAt b' id w ∨ sink_accepts (evalBroker b') id).
Proof.
  intros Hord HI Hen Hbr Hw. unfold drain.
  assert (∀ n, let b' := Nat.iter n (watchCapacity ord) b in
    BInv b' ∧ be_enabled b' = true ∧ sink_enabled (evalBroker b') = true ∧
    (blockedAt b' id w ∨ sink_accepts (evalBroker b') id) ∧
    capacityChangeCh b' = drop n (capacityChangeCh b)) as Hn.
  { induction n as [|n (I1 & I2 & I3 & I4 & I5)]; [by split_and!; auto|].
    destruct (watch_follows ord _ id w Hord I1 I2 I3 I4) as (J1 & J2 & J3 & J4).
    simpl. split_and!; [by apply watchCapacity_BInv|done..|].
    rewrite J4, I5. change (tail (drop n (capacityChangeCh b))) with (drop 1 (drop n (capacityChangeCh b))). rewrite drop_drop. f_equal. lia. }
  destruct (Hn (length (capacityChangeCh b))) as (I1 & _ & _ & I4 & I5).
  split_and!; [done| |done]. by rewrite I5, drop_all.
Qed.
End tracker.

(** ** Properties *)

Section properties.
Context {B : Type} `{EvalSink B} `{!EvalSinkLaws B}.
Implicit Types (b : BlockedEvals B) (w : wrappedEval).

(** C9. No wakeup is lost.  In every state the tracker can reach, once the watcher
    has worked off the capacity updates in the channel, an evaluation that was
    blocked is with the broker, or it is still blocked and no capacity that it
    could use has appeared after the snapshot it was scheduled on. *)
Theorem no_lost_wakeup br b ord id w :
  breachable br b → (∀ l, ord l ≡ₚ l) →
  be_enabled b = true → sink_enabled (evalBroker b) = true →
  blockedAt b id w →
  sink_accepts (evalBroker (drain ord b)) id ∨
  (blockedAt (drain ord b) id w ∧
   ∀ class idx, unblockIndexes (drain ord b) !! class = Some idx →
     could_use (we_eval w) class → idx ≤ ev_SnapshotIndex (we_eval w)).
Proof.
  intros HI%breachable_BInv Hord Hen Hbr Hw.
  destruct (drain_follows ord b id w Hord HI Hen Hbr Hw) as (HI' & Hch & [Hb|?]); [right|by left].
  split; [done|]. intros class idx Hu Hcu.
  destruct (decide (ev_SnapshotIndex (we_eval w) < idx)) as [Hlt|]; [|lia].
  destruct (b_wake _ HI' id w class idx Hb Hu Hlt Hcu) as (u & Hin & _).
  rewrite Hch in Hin. by apply not_elem_of_nil in Hin.
Qed.

(** The tracker holds one evaluation per job, each under its own ID and in the
    map that its [EscapedComputedClass] selects, and its statistics count them. *)
Theorem one_blocked_per_job br b :
  breachable br b →
  (∀ id1 w1 id2 w2, blockedAt b id1 w1 → blockedAt b id2 w2 →
     ev_JobID (we_eval w1) = ev_JobID (we_eval w2) → id1 = id2 ∧ w1 = w2) ∧
  (∀ id w, captured b !! id = Some w → ev_EscapedComputedClass (we_eval w) = false ∧ ev_ID (we_eval w) = id) ∧
  (∀ id w, escaped b !! id = Some w → ev_EscapedComputedClass (we_eval w) = true ∧ ev_ID (we_eval w) = id) ∧
  BlockedStatsOf b = mkBlockedStats (Z.of_nat (size (escaped b)))
    (Z.of_nat (size (captured b) + size (escaped b))).
Proof.
  intros HI%breachable_BInv. split_and!.
  - intros id1 w1 id2 w2 H1 H2 E. destruct (b_key b HI _ _ H1) as [_ J1], (b_key b HI _ _ H2) as [_ J2].
    assert (id1 = id2) as <- by congruence. split; [done|]. by eapply blockedAt_det.
  - intros id w Hc. split; [by eapply b_captured|]. apply (b_key b HI). by left.
  - intros id w Hc. split; [by eapply b_escaped|]. apply (b_key b HI). by right.
  - unfold BlockedStatsOf. destruct (be_stats b) eqn:E.
    pose proof (b_TotalEscaped b HI) as H1. pose proof (b_TotalBlocked b HI) as H2.
    rewrite E in H1, H2. simpl in H1, H2. f_equal; lia.
Qed.

(** Blocking an evaluation of a job that has none blocked puts it in the tracker
    exactly when no capacity it could use appeared since its snapshot, and hands
    it to the broker otherwise; with one blocked already it becomes a duplicate. *)
Theorem block_outcome b e tok :
  be_enabled b = true → sink_enabled (evalBroker b) = true → 0 ≤ ev_SnapshotIndex e →
  let b' := processBlock b e tok in
  (is_Some (jobs b !! ev_JobID e) ∧ duplicates b' = duplicates b ++ [e] ∧
     captured b' = captured b ∧ escaped b' = escaped b ∧ jobs b' = jobs b) ∨
  (jobs b !! ev_JobID e = None ∧
     (∃ class idx, unblockIndexes b !! class = Some idx ∧ ev_SnapshotIndex e < idx ∧ could_use e class) ∧
     sink_accepts (evalBroker b') (ev_ID e) ∧ captured b' = captured b ∧ escaped b' = escaped b) ∨
  (jobs b !! ev_JobID e = None ∧
     (∀ class idx, unblockIndexes b !! class = Some idx → could_use e class → idx ≤ ev_SnapshotIndex e) ∧
     blockedAt b' (ev_ID e) (mkWrappedEval e tok) ∧ jobs b' !! ev_JobID e = Some (ev_ID e)).
Proof.
  intros Hen Hbr Hs. unfold processBlock. rewrite Hen. simpl.
  destruct (jobs b !! ev_JobID e) eqn:Hj; [left; by eauto|right].
  destruct (missedUnblock b e) eqn:Hm; [left|right]; (split; [done|]).
  - split; [by apply missedUnblock_spec|]. simpl. split_and!; [|done..].
    apply sink_EnqueueAll_accepts with (t := tok); [done|left].
  - split.
    + intros class idx Hc Hu. destruct (decide (ev_SnapshotIndex e < idx)); [|lia].
      assert (missedUnblock b e = true); [apply missedUnblock_spec; eauto|congruence].
    + unfold blockedAt. destruct (ev_EscapedComputedClass e); simpl; rewrite !lookup_insert_eq; auto.
Qed.
End properties.

(** ** The properties at a concrete tracker *)

Definition trackerBroker : EvalBroker :=
  SetEnabled (default (mkEvalBroker 0 0 false zeroStats ∅ ∅ ∅ ∅ ∅ ∅ ∅ ∅ 0 0 no_timers)
                      (NewEvalBroker 60 1 20 3)) true.

(** One evaluation has ruled the class [c1] out, one has not, one has escaped. *)
Definition ruledOut : Evaluation :=
  zeroEvaluation <| ev_ID := "e1" |> <| ev_JobID := "j1" |> <| ev_SnapshotIndex := 5 |>
    <| ev_ClassEligibility := {["c1" := false]} |>.
Definition undecided : Evaluation :=
  zeroEvaluation <| ev_ID := "e2" |> <| ev_JobID := "j2" |> <| ev_SnapshotIndex := 5 |>.
Definition escapee : Evaluation :=
  zeroEvaluation <| ev_ID := "e3" |> <| ev_JobID := "j3" |> <| ev_SnapshotIndex := 5 |>
    <| ev_EscapedComputedClass := true |>.

Definition tracker0 : BlockedEvals EvalBroker := BlockedSetEnabled (NewBlockedEvals trackerBroker) true.
Definition tracker1 : BlockedEvals EvalBroker :=
  Unblock (Block (Block (Block tracker0 ruledOut) undecided) escapee) "c1" 7.

Lemma tracker1_reachable : breachable trackerBroker tracker1.
Proof.
  unfold tracker1, tracker0.
  eapply br_step; [|apply bs_Unblock].
  do 3 (eapply br_step; [|apply bs_Block;
    [vm_compute; discriminate|intros w [Hw|Hw]; vm_compute in Hw; discriminate Hw]]).
  eapply br_step; [apply br_new|apply bs_SetEnabled].
Qed.

Lemma no_lost_wakeup_witness :
  (sink_accepts (evalBroker (drain id tracker1)) "e2" ∨
   blockedAt (drain id tracker1) "e2" (mkWrappedEval undecided "")) ∧
  captured (drain id tracker1) !! "e1" = Some (mkWrappedEval ruledOut "").
Proof.
  split; [|vm_compute; reflexivity].
  destruct (no_lost_wakeup trackerBroker tracker1 id "e2" (mkWrappedEval undecided "")
              tracker1_reachable) as [Ha|[Hb _]];
    [intros l; reflexivity|reflexivity|reflexivity|left; vm_compute; reflexivity|left; exact Ha|right; exact Hb].
Defined.

Lemma one_blocked_per_job_witness : BlockedStatsOf tracker1 = mkBlockedStats 1 3.
Proof.
  destruct (one_blocked_per_job trackerBroker tracker1 tracker1_reachable) as (_ & _ & _ & E).
  rewrite E. vm_compute. reflexivity.
Defined.

Lemma block_outcome_witness :
  duplicates (processBlock tracker1 ruledOut "") = duplicates tracker1 ++ [ruledOut].
Proof.
  destruct (block_outcome tracker1 ruledOut "") as [[_ [Hd _]]|[[Hj _]|[Hj _]]];
    [reflexivity|reflexivity|vm_compute; discriminate|exact Hd|
     vm_compute in Hj; discriminate Hj|vm_compute in Hj; discriminate Hj].
Defined.
