(* ===== verification/Bitmap.v ===== *)
(** * Bitmaps (src/nomad/structs/bitmap.go)

    A [Bitmap] is a slice of bytes, here a list of integers between 0 and 255.
    An index is a Go [uint].  [None] is the run-time panic of an index beyond
    the slice.  [bit] is the abstract content of a bitmap, a total function from
    indexes to booleans, and the lemmas say what each method does to it. *)

From stdpp Require Import base list numbers strings.
From Stdlib Require Import ZArith Lia.
From S2P Require Import Prelude.
Open Scope list_scope.
Open Scope Z_scope.

Abbreviation Bitmap := (list Z).

Definition NewBitmap (size : Z) : string + Bitmap :=
  if size =? 0 then inl "bitmap must be positive size"%string
  else if negb (Z.land size 7 =? 0) then inl "bitmap must be byte aligned"%string
  else inr (replicate (Z.to_nat (Z.shiftr size 3)) 0).

Definition Size (b : Bitmap) : Z := Z.shiftl (Z.of_nat (length b)) 3.

(** [b[i]] with Go's bounds check. *)
Definition byte_at (b : Bitmap) (i : Z) : option Z :=
  if (0 <=? i) && (i <? Z.of_nat (length b)) then b !! Z.to_nat i else None.

(** The conversion to [byte]. *)
Definition to_byte (z : Z) : Z := Z.land z 255.

Definition Set_ (b : Bitmap) (idx : Z) : option Bitmap :=
  let bucket := Z.shiftr idx 3 in
  let mask := to_byte (Z.shiftl 1 (Z.land idx 7)) in
  v ← byte_at b bucket;
  Some (<[Z.to_nat bucket := Z.lor v mask]> b).

Definition Unset (b : Bitmap) (idx : Z) : option Bitmap :=
  let bucket := Z.shiftr idx 3 in
  let offset := Z.shiftl 1 (Z.land idx 7) in
  let mask := to_byte (Z.lxor offset 255) in
  v ← byte_at b bucket;
  Some (<[Z.to_nat bucket := Z.land v mask]> b).

Definition Check_ (b : Bitmap) (idx : Z) : option bool :=
  let bucket := Z.shiftr idx 3 in
  let mask := to_byte (Z.shiftl 1 (Z.land idx 7)) in
  v ← byte_at b bucket;
  Some (negb (Z.land v mask =? 0)).

Definition Clear (b : Bitmap) : Bitmap := (fun _ => 0) <$> b.

(** The loop of [IndexesInRange]; [n] bounds the iterations left. *)
Fixpoint indexesLoop (n : nat) (b : Bitmap) (set : bool) (i to : Z) : option (list Z) :=
  match n with
  | O => Some []
  | S n =>
      if (i <=? to) && (i <? Size b) then
        c ← Check_ b i;
        rest ← indexesLoop n b set (i + 1) to;
        Some (if (c && set) || (negb c && negb set) then i :: rest else rest)
      else Some []
  end.

(** No more iterations than the bitmap has bits. *)
Definition IndexesInRange (b : Bitmap) (set : bool) (from to : Z) : option (list Z) :=
  indexesLoop (S (Z.to_nat (Size b))) b set from to.

(** ** The abstract content *)

Definition bit (b : Bitmap) (i : Z) : bool := default false (Check_ b i).

Definition byte_ok (v : Z) : Prop := 0 ≤ v < 256.
Definition bitmap_ok (b : Bitmap) : Prop := Forall byte_ok b.

Lemma Size_eq b : Size b = 8 * Z.of_nat (length b).
Proof. unfold Size. rewrite Z.shiftl_mul_pow2 by lia. lia. Qed.

Lemma bucket_eq i : Z.shiftr i 3 = i / 8.
Proof. by rewrite Z.shiftr_div_pow2 by lia. Qed.

Lemma offset_eq i : Z.land i 7 = i mod 8.
Proof. change 7 with (Z.ones 3). by rewrite Z.land_ones by lia. Qed.

Lemma byte_at_Some b i v :
  byte_at b i = Some v ↔ 0 ≤ i ∧ b !! Z.to_nat i = Some v.
Proof.
  unfold byte_at. destruct (Z.leb_spec 0 i), (Z.ltb_spec i (Z.of_nat (length b))); simpl; try naive_solver lia.
  split; [done|]. intros [_ Hl%lookup_lt_Some]. lia.
Qed.

Lemma byte_at_in b i : 0 ≤ i < Size b → ∃ v, byte_at b (Z.shiftr i 3) = Some v.
Proof.
  rewrite Size_eq, bucket_eq. intros Hi.
  assert (0 ≤ i / 8 < Z.of_nat (length b)) by (split; [apply Z.div_pos|apply Z.div_lt_upper_bound]; lia).
  destruct (lookup_lt_is_Some_2 b (Z.to_nat (i / 8))) as [v Hv]; [lia|].
  exists v. apply byte_at_Some. split; [lia|done].
Qed.

(** The mask of an index has exactly its bit. *)
Lemma mask_eq i : to_byte (Z.shiftl 1 (Z.land i 7)) = 2 ^ (i mod 8).
Proof.
  unfold to_byte. rewrite offset_eq, Z.shiftl_1_l. change 255 with (Z.ones 8).
  pose proof (Z.mod_pos_bound i 8 ltac:(lia)).
  rewrite Z.land_ones, Z.mod_small; [done| |lia]. split; [apply Z.pow_nonneg; lia|].
  apply Z.pow_lt_mono_r; lia.
Qed.

Lemma unmask_bit i k : 0 ≤ k < 8 →
  Z.testbit (to_byte (Z.lxor (Z.shiftl 1 (Z.land i 7)) 255)) k = negb (k =? i mod 8).
Proof.
  intros Hk. unfold to_byte. rewrite offset_eq, Z.shiftl_1_l. change 255 with (Z.ones 8).
  pose proof (Z.mod_pos_bound i 8 ltac:(lia)).
  rewrite Z.land_spec, Z.lxor_spec, Z.ones_spec_low, Z.pow2_bits_eqb by lia.
  rewrite Z.eqb_sym. by destruct (k =? i mod 8).
Qed.

Lemma land_pow2_eqb v k : 0 ≤ k → negb (Z.land v (2 ^ k) =? 0) = Z.testbit v k.
Proof.
  intros Hk. destruct (Z.testbit v k) eqn:E.
  - apply negb_true_iff, Z.eqb_neq. intros H0. apply (f_equal (fun z => Z.testbit z k)) in H0.
    rewrite Z.land_spec, E, Z.pow2_bits_true, Z.bits_0 in H0 by lia. done.
  - apply negb_false_iff, Z.eqb_eq. apply Z.bits_inj. intros j.
    rewrite Z.land_spec, Z.bits_0, Z.pow2_bits_eqb by lia.
    destruct (Z.eqb_spec k j) as [<-|]; [by rewrite E|by rewrite andb_false_r].
Qed.

Lemma bit_eq b i :
  bit b i = match byte_at b (i / 8) with Some v => Z.testbit v (i mod 8) | None => false end.
Proof.
  unfold bit, Check_. rewrite bucket_eq, mask_eq. destruct (byte_at b (i / 8)) as [v|]; simpl; [|done].
  apply land_pow2_eqb, Z.mod_pos_bound. lia.
Qed.

Lemma Check_in b i : 0 ≤ i < Size b → Check_ b i = Some (bit b i).
Proof. intros Hi. destruct (byte_at_in b i Hi) as [v Hv]. unfold bit, Check_. by rewrite Hv. Qed.

Lemma byte_at_insert b k v x i :
  byte_at b k = Some v →
  byte_at (<[Z.to_nat k := x]> b) i = if i =? k then Some x else byte_at b i.
Proof.
  intros [Hk Hv]%byte_at_Some. unfold byte_at. rewrite length_insert.
  destruct (Z.eqb_spec i k) as [->|Hne].
  - apply lookup_lt_Some in Hv. rewrite list_lookup_insert_eq by done.
    destruct (Z.leb_spec 0 k), (Z.ltb_spec k (Z.of_nat (length b))); simpl; done || lia.
  - destruct (Z.leb_spec 0 i); simpl; [|done]. by rewrite list_lookup_insert_ne by lia.
Qed.

Lemma idx_split i j : i = j ↔ i / 8 = j / 8 ∧ i mod 8 = j mod 8.
Proof.
  split; [by intros ->|]. intros [E1 E2].
  rewrite (Z.div_mod i 8), (Z.div_mod j 8) by lia. congruence.
Qed.

Lemma Set_spec b i : 0 ≤ i < Size b → ∃ b', Set_ b i = Some b' ∧ Size b' = Size b ∧
  ∀ j, bit b' j = (j =? i) || bit b j.
Proof.
  intros Hi. destruct (byte_at_in b i Hi) as [v Hv]. unfold Set_. rewrite Hv. simpl.
  eexists. split; [done|]. split; [by rewrite !Size_eq, length_insert|].
  intros j. rewrite !bit_eq, mask_eq, bucket_eq in *. rewrite (byte_at_insert _ _ v) by done.
  pose proof (Z.mod_pos_bound i 8 ltac:(lia)). pose proof (Z.mod_pos_bound j 8 ltac:(lia)).
  destruct (Z.eqb_spec (j / 8) (i / 8)) as [E|E].
  - rewrite Z.lor_spec, E, Hv, Z.pow2_bits_eqb by lia.
    destruct (Z.eqb_spec (i mod 8) (j mod 8)) as [E2|E2], (Z.eqb_spec j i) as [E3|E3]; subst; try done.
    + by rewrite orb_true_r.
    + destruct E3. by apply idx_split.
    + by rewrite orb_false_r.
  - destruct (Z.eqb_spec j i) as [->|]; done.
Qed.

Lemma Unset_spec b i : 0 ≤ i < Size b → ∃ b', Unset b i = Some b' ∧ Size b' = Size b ∧
  ∀ j, bit b' j = negb (j =? i) && bit b j.
Proof.
  intros Hi. destruct (byte_at_in b i Hi) as [v Hv]. unfold Unset. rewrite Hv. simpl.
  eexists. split; [done|]. split; [by rewrite !Size_eq, length_insert|].
  intros j. rewrite !bit_eq, bucket_eq in *. rewrite (byte_at_insert _ _ v) by done.
  pose proof (Z.mod_pos_bound j 8 ltac:(lia)).
  destruct (Z.eqb_spec (j / 8) (i / 8)) as [E|E].
  - rewrite Z.land_spec, E, Hv, unmask_bit, andb_comm by lia. f_equal. f_equal.
    destruct (Z.eqb_spec (j mod 8) (i mod 8)) as [E2|E2], (Z.eqb_spec j i) as [E3|E3]; subst; try done.
    destruct E3. by apply idx_split.
  - destruct (Z.eqb_spec j i) as [->|]; done.
Qed.

Lemma Set_out b i : Size b ≤ i → Set_ b i = None.
Proof.
  intros Hi. unfold Set_. destruct (byte_at b _) as [v|] eqn:E; [|done].
  apply byte_at_Some in E as [_ E%lookup_lt_Some]. rewrite bucket_eq in E. rewrite Size_eq in Hi.
  pose proof (Z.div_le_lower_bound i 8 (Z.of_nat (length b))). lia.
Qed.

Lemma bit_out b i : Size b ≤ i → bit b i = false.
Proof.
  intros Hi. rewrite bit_eq. destruct (byte_at b _) as [v|] eqn:E; [|done].
  apply byte_at_Some in E as [_ E%lookup_lt_Some]. rewrite Size_eq in Hi.
  pose proof (Z.div_le_lower_bound i 8 (Z.of_nat (length b))). lia.
Qed.

(** ** [IndexesInRange] and [NewBitmap] against the abstract content *)

Lemma indexesLoop_spec n b set i to :
  0 ≤ i → Z.min (to + 1) (Size b) - i < Z.of_nat n →
  indexesLoop n b set i to =
    Some (filter (fun j => bit b j = set) (seqZ i (Z.min (to + 1) (Size b) - i))).
Proof.
  revert i. induction n as [|n IH]; intros i Hi Hn.
  - simpl. rewrite seqZ_nil by lia. done.
  - cbn [indexesLoop]. destruct (Z.leb_spec i to), (Z.ltb_spec i (Size b)); cbn [andb];
      [|by rewrite seqZ_nil by lia..].
    rewrite Check_in by lia. cbn [mbind option_bind]. rewrite IH by lia. cbn [mbind option_bind].
    rewrite (seqZ_cons i) by lia.
    replace (Z.min (to + 1) (Size b) - (i + 1)) with (Z.pred (Z.min (to + 1) (Size b) - i)) by lia.
    replace (i + 1) with (Z.succ i) by lia.
    rewrite filter_cons. f_equal. destruct (bit b i), set; cbn; repeat case_decide; done || congruence.
Qed.

Lemma IndexesInRange_spec b set from to :
  0 ≤ from →
  IndexesInRange b set from to =
    Some (filter (fun j => bit b j = set) (seqZ from (Z.min (to + 1) (Size b) - from))).
Proof. intros Hf. apply indexesLoop_spec; [done|]. rewrite Size_eq. lia. Qed.

Lemma NewBitmap_spec size :
  0 < size → size mod 8 = 0 →
  ∃ b, NewBitmap size = inr b ∧ Size b = size ∧ bitmap_ok b ∧ ∀ i, bit b i = false.
Proof.
  intros Hs Hm. unfold NewBitmap. rewrite offset_eq, Hm.
  destruct (Z.eqb_spec size 0); [lia|]. simpl. eexists. split; [done|].
  rewrite Z.shiftr_div_pow2 by lia. change (2 ^ 3) with 8.
  assert (0 ≤ size / 8) by (apply Z.div_pos; lia).
  split; [|split].
  - rewrite Size_eq, length_replicate, Z2Nat.id by lia. pose proof (Z.div_mod size 8). lia.
  - apply Forall_replicate. unfold byte_ok. lia.
  - intros i. rewrite bit_eq. destruct (byte_at _ _) as [v|] eqn:E; [|done].
    apply byte_at_Some in E as [_ [-> _]%lookup_replicate]. apply Z.bits_0.
Qed.

Lemma NewBitmap_inr size b : 0 ≤ size → NewBitmap size = inr b → 0 < size ∧ size mod 8 = 0.
Proof.
  unfold NewBitmap. rewrite offset_eq. destruct (Z.eqb_spec size 0); [done|].
  destruct (Z.eqb_spec (size mod 8) 0); simpl; [|done]. lia.
Qed.

Lemma Clear_spec b i : bit (Clear b) i = false ∧ Size (Clear b) = Size b.
Proof.
  split; [|unfold Clear; by rewrite !Size_eq, length_fmap]. rewrite bit_eq.
  destruct (byte_at _ _) as [v|] eqn:E; [|done]. apply byte_at_Some in E as [_ E].
  unfold Clear in E. rewrite list_lookup_fmap in E. destruct (b !! _); simplify_eq/=. apply Z.bits_0.
Qed.

(** Bytes stay bytes. *)
Lemma byte_ok_bits v : 0 ≤ v → (∀ k, 8 ≤ k → Z.testbit v k = false) → byte_ok v.
Proof.
  intros Hv Hk. split; [done|]. destruct (decide (v = 0)) as [->|]; [lia|].
  apply (Z.log2_lt_pow2 v 8); [lia|]. destruct (decide (Z.log2 v < 8)); [done|].
  pose proof (Z.bit_log2 v ltac:(lia)) as Hl. by rewrite Hk in Hl by lia.
Qed.

Lemma byte_ok_high v k : byte_ok v → 8 ≤ k → Z.testbit v k = false.
Proof.
  intros [? ?] ?. destruct (decide (v = 0)) as [->|]; [apply Z.bits_0|].
  apply Z.bits_above_log2; [done|]. assert (Z.log2 v < 8); [|lia]. by apply Z.log2_lt_pow2; lia.
Qed.

Lemma Set_ok b i b' : bitmap_ok b → Set_ b i = Some b' → bitmap_ok b'.
Proof.
  intros Hb. unfold Set_. destruct (byte_at b _) as [v|] eqn:E; simpl; [|done]. intros [= <-].
  apply byte_at_Some in E as [_ E]. pose proof (Forall_lookup_1 _ _ _ _ Hb E) as Hv.
  apply Forall_insert; [done|]. rewrite mask_eq.
  pose proof (Z.mod_pos_bound i 8 ltac:(lia)). apply byte_ok_bits.
  - apply Z.lor_nonneg. split; [apply Hv|apply Z.pow_nonneg; lia].
  - intros k Hk. rewrite Z.lor_spec, (byte_ok_high v), Z.pow2_bits_false by (done || lia). done.
Qed.

Lemma Unset_ok b i b' : bitmap_ok b → Unset b i = Some b' → bitmap_ok b'.
Proof.
  intros Hb. unfold Unset. destruct (byte_at b _) as [v|] eqn:E; simpl; [|done]. intros [= <-].
  apply byte_at_Some in E as [_ E]. pose proof (Forall_lookup_1 _ _ _ _ Hb E) as Hv.
  apply Forall_insert; [done|]. apply byte_ok_bits.
  - apply Z.land_nonneg. left. apply Hv.
  - intros k Hk. rewrite Z.land_spec, (byte_ok_high v) by done. done.
Qed.
