(* ===== verification/Resources.v ===== *)
(** * Resources and networks as values (src/nomad/structs/structs.go)

    The [Resources], [NetworkResource] and [Port] structs with the methods that
    compare and add them.  Sums of Go [int]s wrap at 64 bits. *)

From stdpp Require Import base gmap strings list.
From Stdlib Require Import ZArith Lia.
From S2P Require Import Prelude.
Open Scope string_scope.
Open Scope list_scope.
Open Scope Z_scope.

Record Port := mkPort { p_Label : string; p_Value : Z }.
#[export] Instance eta_Port : Eta Port := fun r => mkPort (p_Label r) (p_Value r).

Record NetworkResource := mkNetworkResource {
  nr_Device : string;
  nr_CIDR : string;
  nr_IP : string;
  nr_MBits : Z;
  nr_ReservedPorts : list Port;
  nr_DynamicPorts : list Port
}.
#[export] Instance eta_NetworkResource : Eta NetworkResource := fun r =>
  mkNetworkResource (nr_Device r) (nr_CIDR r) (nr_IP r) (nr_MBits r)
    (nr_ReservedPorts r) (nr_DynamicPorts r).

Record Resources := mkResources {
  r_CPU : Z;
  r_MemoryMB : Z;
  r_DiskMB : Z;
  r_IOPS : Z;
  r_Networks : list NetworkResource
}.
#[export] Instance eta_Resources : Eta Resources := fun r =>
  mkResources (r_CPU r) (r_MemoryMB r) (r_DiskMB r) (r_IOPS r) (r_Networks r).

#[export] Instance Port_eq : EqDecision Port.
Proof. solve_decision. Defined.
#[export] Instance NetworkResource_eq : EqDecision NetworkResource.
Proof. solve_decision. Defined.
#[export] Instance Resources_eq : EqDecision Resources.
Proof. solve_decision. Defined.

Definition zeroResources : Resources := mkResources 0 0 0 0 [].

Definition DefaultResources : Resources :=
  zeroResources <| r_CPU := 100 |> <| r_MemoryMB := 10 |> <| r_IOPS := 0 |>.

Definition BytesInMegabyte : Z := 1024 * 1024.
Definition DiskInBytes (r : Resources) : Z := wrap64 (r_DiskMB r * BytesInMegabyte).

(** [Networks.Port]: the first port with the label, reserved ports first. *)
Definition portWith (label : string) (ps : list Port) : option Port :=
  list_find (fun p => p_Label p = label) ps ≫= fun ip => Some ip.2.

Fixpoint NetworksPort (ns : list NetworkResource) (label : string) : string * Z :=
  match ns with
  | [] => ("", 0)
  | n :: ns =>
      match portWith label (nr_ReservedPorts n), portWith label (nr_DynamicPorts n) with
      | Some p, _ => (nr_IP n, p_Value p)
      | None, Some p => (nr_IP n, p_Value p)
      | None, None => NetworksPort ns label
      end
  end.

Definition PortLabels (n : NetworkResource) : gmap string Z :=
  foldl (fun m p => <[p_Label p := p_Value p]> m) ∅ (nr_ReservedPorts n ++ nr_DynamicPorts n).

Definition Merge (r other : Resources) : Resources :=
  let r := if r_CPU other =? 0 then r else r <| r_CPU := r_CPU other |> in
  let r := if r_MemoryMB other =? 0 then r else r <| r_MemoryMB := r_MemoryMB other |> in
  let r := if r_DiskMB other =? 0 then r else r <| r_DiskMB := r_DiskMB other |> in
  let r := if r_IOPS other =? 0 then r else r <| r_IOPS := r_IOPS other |> in
  if (length (r_Networks other) =? 0)%nat then r else r <| r_Networks := r_Networks other |>.

Definition NetIndex (r : Resources) (n : NetworkResource) : Z :=
  match list_find (fun net => nr_Device net = nr_Device n) (r_Networks r) with
  | Some (idx, _) => Z.of_nat idx
  | None => -1
  end.

Definition Superset (r other : Resources) : bool * string :=
  if r_CPU r <? r_CPU other then (false, "cpu exhausted")
  else if r_MemoryMB r <? r_MemoryMB other then (false, "memory exhausted")
  else if r_DiskMB r <? r_DiskMB other then (false, "disk exhausted")
  else if r_IOPS r <? r_IOPS other then (false, "iops exhausted")
  else (true, "").

Definition NetworkAdd (n delta : NetworkResource) : NetworkResource :=
  n <| nr_ReservedPorts ::= fun ps => ps ++ nr_ReservedPorts delta |>
    <| nr_MBits := wrap64 (nr_MBits n + nr_MBits delta) |>
    <| nr_DynamicPorts ::= fun ps => ps ++ nr_DynamicPorts delta |>.

(** One turn of the loop over [delta.Networks]; [n.Copy()] is the value [n]. *)
Definition addNetwork (r : Resources) (n : NetworkResource) : Resources :=
  let idx := NetIndex r n in
  if idx =? -1 then r <| r_Networks ::= fun ns => ns ++ [n] |>
  else r <| r_Networks ::= alter (fun net => NetworkAdd net n) (Z.to_nat idx) |>.

(** [delta] may be nil.  The error result of the Go method is always nil. *)
Definition Add (r : Resources) (delta : option Resources) : Resources :=
  match delta with
  | None => r
  | Some delta =>
      let r := r <| r_CPU := wrap64 (r_CPU r + r_CPU delta) |>
                 <| r_MemoryMB := wrap64 (r_MemoryMB r + r_MemoryMB delta) |>
                 <| r_DiskMB := wrap64 (r_DiskMB r + r_DiskMB delta) |>
                 <| r_IOPS := wrap64 (r_IOPS r + r_IOPS delta) |> in
      foldl addNetwork r (r_Networks delta)
  end.

#[global] Arguments Add : simpl never.

(** ** The four dimensions *)

(** A dimension of [Resources] other than the networks. *)
Inductive dim := CPU | MemoryMB | DiskMB | IOPS.
Definition amount (r : Resources) (d : dim) : Z :=
  match d with CPU => r_CPU r | MemoryMB => r_MemoryMB r | DiskMB => r_DiskMB r | IOPS => r_IOPS r end.

Lemma addNetwork_amount r n d : amount (addNetwork r n) d = amount r d.
Proof. unfold addNetwork. destruct (_ =? _), d; done. Qed.

Lemma Add_amount r delta d :
  amount (Add r (Some delta)) d = wrap64 (amount r d + amount delta d).
Proof.
  unfold Add. set (r0 := _ <| r_IOPS := _ |>).
  assert (∀ l r1, amount (foldl addNetwork r1 l) d = amount r1 d) as ->.
  { induction l as [|n l IH]; intros r1; [done|]. simpl. by rewrite IH, addNetwork_amount. }
  by destruct d.
Qed.

Lemma Superset_spec r other :
  (Superset r other).1 = true ↔ ∀ d, amount other d ≤ amount r d.
Proof.
  unfold Superset. split.
  - repeat (match goal with |- context [?a <? ?b] => destruct (Z.ltb_spec a b) end; [done|]).
    intros _ []; done.
  - intros H. pose proof (H CPU). pose proof (H MemoryMB). pose proof (H DiskMB). pose proof (H IOPS).
    simpl in *. repeat (match goal with |- context [?a <? ?b] => destruct (Z.ltb_spec a b) end; [lia|]).
    done.
Qed.
