(* ===== verification/Jobs.v ===== *)
(** * Jobs, nodes, allocations, deployments and plans (src/nomad/structs/structs.go)

    The data the scheduler and the plan applier work on, with the methods that
    read it.  A pointer that the code compares with nil is an [option], and so is
    a map of which it makes a difference whether it is nil or empty; other
    pointers are the value they point to.  Left out of the records are fields
    that only the client or the user interface reads: services, logs and the
    dispatch payload of a task, the Vault token of a job.  An empty slice or map of a task is nil, as [Canonicalize] leaves it.
    Times are nanoseconds. *)

From stdpp Require Import base gmap strings list.
From Stdlib Require Import ZArith Lia.
From S2P Require Import Prelude GoText Structs Resources.
Open Scope string_scope.
Open Scope list_scope.
Open Scope Z_scope.

(** ** Jobs *)

Definition JobTypeCore : string := "_core".
Definition JobTypeService : string := "service".
Definition JobTypeBatch : string := "batch".
Definition JobTypeSystem : string := "system".

Definition JobStatusPending : string := "pending".
Definition JobStatusRunning : string := "running".
Definition JobStatusDead : string := "dead".

Record Constraint := mkConstraint { c_LTarget : string; c_RTarget : string; c_Operand : string }.

Definition ConstraintEqual (c o : Constraint) : bool :=
  bool_decide (c_LTarget c = c_LTarget o) && bool_decide (c_RTarget c = c_RTarget o) &&
  bool_decide (c_Operand c = c_Operand o).

Record UpdateStrategy := mkUpdateStrategy {
  us_Stagger : Z;
  us_MaxParallel : Z;
  us_HealthCheck : string;
  us_MinHealthyTime : Z;
  us_HealthyDeadline : Z;
  us_AutoRevert : bool;
  us_Canary : Z
}.
#[export] Instance eta_UpdateStrategy : Eta UpdateStrategy := fun r =>
  mkUpdateStrategy (us_Stagger r) (us_MaxParallel r) (us_HealthCheck r) (us_MinHealthyTime r)
    (us_HealthyDeadline r) (us_AutoRevert r) (us_Canary r).

Definition noUpdate : UpdateStrategy := mkUpdateStrategy 0 0 "" 0 0 false 0.

Definition Rolling (u : UpdateStrategy) : bool := (0 <? us_Stagger u) && (0 <? us_MaxParallel u).

Record EphemeralDisk := mkEphemeralDisk { ed_Sticky : bool; ed_SizeMB : Z; ed_Migrate : bool }.

(** The values of a driver configuration, as decoded from a job; the entries of a
    map are in the order of their keys. *)
Inductive ConfigValue :=
  | CString (s : string)
  | CInt (z : Z)
  | CFloat (f : float64)
  | CBool (b : bool)
  | CList (l : list ConfigValue)
  | CMap (m : list (string * ConfigValue)).

#[export] Instance ConfigValue_eq : EqDecision ConfigValue.
Proof.
  refine (fix go x y :=
    let _ : EqDecision ConfigValue := @go in
    match x, y return Decision (x = y) with
    | CString a, CString b => cast_if (decide (a = b))
    | CInt a, CInt b => cast_if (decide (a = b))
    | CFloat a, CFloat b => cast_if (decide (a = b))
    | CBool a, CBool b => cast_if (decide (a = b))
    | CList a, CList b => cast_if (decide (a = b))
    | CMap a, CMap b => cast_if (decide (a = b))
    | _, _ => right _
    end); abstract congruence.
Defined.

Record Vault := mkVault { va_Policies : list string; va_Env : bool; va_ChangeMode : string; va_ChangeSignal : string }.

Record Template := mkTemplate {
  te_SourcePath : string;
  te_DestPath : string;
  te_EmbeddedTmpl : string;
  te_ChangeMode : string;
  te_ChangeSignal : string;
  te_Splay : Z;
  te_Perms : string;
  te_LeftDelim : string;
  te_RightDelim : string;
  te_Envvars : bool
}.

Record TaskArtifact := mkTaskArtifact {
  ta_GetterSource : string;
  ta_GetterOptions : gmap string string;
  ta_GetterMode : string;
  ta_RelativeDest : string
}.

#[export] Instance Vault_eq : EqDecision Vault.
Proof. solve_decision. Defined.
#[export] Instance Template_eq : EqDecision Template.
Proof. solve_decision. Defined.
#[export] Instance TaskArtifact_eq : EqDecision TaskArtifact.
Proof. solve_decision. Defined.
#[export] Instance EphemeralDisk_eq : EqDecision EphemeralDisk.
Proof. solve_decision. Defined.

Record Task := mkTask {
  tk_Name : string;
  tk_Driver : string;
  tk_User : string;
  tk_Config : list (string * ConfigValue);
  tk_Env : gmap string string;
  tk_Vault : option Vault;
  tk_Templates : list Template;
  tk_Artifacts : list TaskArtifact;
  tk_Constraints : list Constraint;
  tk_Resources : Resources;
  tk_Meta : gmap string string;
  tk_KillTimeout : Z;
  tk_Leader : bool
}.

#[export] Instance eta_Task : Eta Task := fun r =>
  mkTask (tk_Name r) (tk_Driver r) (tk_User r) (tk_Config r) (tk_Env r) (tk_Vault r) (tk_Templates r)
    (tk_Artifacts r) (tk_Constraints r) (tk_Resources r) (tk_Meta r) (tk_KillTimeout r) (tk_Leader r).

Record TaskGroup := mkTaskGroup {
  tg_Name : string;
  tg_Count : Z;
  tg_Update : option UpdateStrategy;
  tg_Constraints : list Constraint;
  tg_Tasks : list Task;
  tg_EphemeralDisk : option EphemeralDisk;
  tg_Meta : gmap string string
}.
#[export] Instance eta_TaskGroup : Eta TaskGroup := fun r =>
  mkTaskGroup (tg_Name r) (tg_Count r) (tg_Update r) (tg_Constraints r) (tg_Tasks r)
    (tg_EphemeralDisk r) (tg_Meta r).

Record PeriodicConfig := mkPeriodicConfig {
  pc_Enabled : bool;
  pc_Spec : string;
  pc_SpecType : string;
  pc_ProhibitOverlap : bool;
  pc_TimeZone : string
}.

Record ParameterizedJobConfig := mkParameterizedJobConfig {
  pj_Payload : string;
  pj_MetaRequired : list string;
  pj_MetaOptional : list string
}.

Record Job := mkJob {
  jb_Stop : bool;
  jb_Region : string;
  jb_ID : string;
  jb_ParentID : string;
  jb_Name : string;
  jb_Type : string;
  jb_Priority : Z;
  jb_AllAtOnce : bool;
  jb_Datacenters : list string;
  jb_Constraints : list Constraint;
  jb_TaskGroups : list TaskGroup;
  jb_Update : UpdateStrategy;
  jb_Periodic : option PeriodicConfig;
  jb_ParameterizedJob : option ParameterizedJobConfig;
  jb_Payload : string;
  jb_Meta : gmap string string;
  jb_Status : string;
  jb_StatusDescription : string;
  jb_Stable : bool;
  jb_Version : Z;
  jb_SubmitTime : Z;
  jb_CreateIndex : Z;
  jb_ModifyIndex : Z;
  jb_JobModifyIndex : Z
}.
#[export] Instance eta_Job : Eta Job := fun r =>
  mkJob (jb_Stop r) (jb_Region r) (jb_ID r) (jb_ParentID r) (jb_Name r) (jb_Type r)
    (jb_Priority r) (jb_AllAtOnce r) (jb_Datacenters r) (jb_Constraints r) (jb_TaskGroups r) (jb_Update r)
    (jb_Periodic r) (jb_ParameterizedJob r) (jb_Payload r)
    (jb_Meta r) (jb_Status r) (jb_StatusDescription r) (jb_Stable r) (jb_Version r)
    (jb_SubmitTime r) (jb_CreateIndex r) (jb_ModifyIndex r) (jb_JobModifyIndex r).

Definition IsPeriodic (j : Job) : bool := bool_decide (is_Some (jb_Periodic j)).
Definition IsParameterized (j : Job) : bool := bool_decide (is_Some (jb_ParameterizedJob j)).

Definition LookupTaskGroup (j : Job) (name : string) : option TaskGroup :=
  list_find (fun tg => tg_Name tg = name) (jb_TaskGroups j) ≫= fun itg => Some itg.2.

Definition LookupTask (tg : TaskGroup) (name : string) : option Task :=
  list_find (fun t => tk_Name t = name) (tg_Tasks tg) ≫= fun it => Some it.2.

(** The deepest scope wins: task, then group, then job. *)
Definition CombinedTaskMeta (j : Job) (groupName taskName : string) : option (gmap string string) :=
  group ← LookupTaskGroup j groupName;
  task ← LookupTask group taskName;
  Some (tk_Meta task ∪ tg_Meta group ∪ jb_Meta j).

(** A nil job is stopped. *)
Definition Stopped (j : option Job) : bool :=
  match j with None => true | Some j => jb_Stop j end.

Definition HasUpdateStrategy (j : Job) : bool :=
  existsb (fun tg => bool_decide (is_Some (tg_Update tg))) (jb_TaskGroups j).

(** ** Nodes *)

Definition NodeStatusInit : string := "initializing".
Definition NodeStatusReady : string := "ready".
Definition NodeStatusDown : string := "down".

Record Node := mkNode {
  nd_ID : string;
  nd_SecretID : string;
  nd_Datacenter : string;
  nd_Name : string;
  nd_HTTPAddr : string;
  nd_TLSEnabled : bool;
  nd_Attributes : gmap string string;
  nd_Resources : Resources;
  nd_Reserved : option Resources;
  nd_Links : gmap string string;
  nd_Meta : gmap string string;
  nd_NodeClass : string;
  nd_ComputedClass : string;
  nd_Drain : bool;
  nd_Status : string;
  nd_StatusDescription : string;
  nd_StatusUpdatedAt : Z;
  nd_CreateIndex : Z;
  nd_ModifyIndex : Z
}.
#[export] Instance eta_Node : Eta Node := fun r =>
  mkNode (nd_ID r) (nd_SecretID r) (nd_Datacenter r) (nd_Name r) (nd_HTTPAddr r) (nd_TLSEnabled r)
    (nd_Attributes r) (nd_Resources r) (nd_Reserved r) (nd_Links r) (nd_Meta r) (nd_NodeClass r)
    (nd_ComputedClass r) (nd_Drain r) (nd_Status r) (nd_StatusDescription r)
    (nd_StatusUpdatedAt r) (nd_CreateIndex r) (nd_ModifyIndex r).

(** [None] is the panic on an unknown status. *)
Definition ShouldDrainNode (status : string) : option bool :=
  if bool_decide (status = NodeStatusInit) || bool_decide (status = NodeStatusReady) then Some false
  else if bool_decide (status = NodeStatusDown) then Some true
  else None.

Definition ValidNodeStatus (status : string) : bool :=
  bool_decide (status = NodeStatusInit) || bool_decide (status = NodeStatusReady) ||
  bool_decide (status = NodeStatusDown).

Definition NodeReady (n : Node) : bool := bool_decide (nd_Status n = NodeStatusReady) && negb (nd_Drain n).
Definition NodeTerminal (n : Node) : bool := bool_decide (nd_Status n = NodeStatusDown).
