(* ===== verification/Allocs.v ===== *)
(** * Allocations and deployments (src/nomad/structs/structs.go, funcs.go)

    The records of the allocations of a job and of its deployments, the
    predicates on their status, and the name of an allocation, from which
    [Index] reads the allocation's index back. *)

From stdpp Require Import base gmap strings list pretty.
From Stdlib Require Import ZArith Lia Ascii.
From S2P Require Import Prelude Structs Resources Jobs.
Open Scope string_scope.
Open Scope list_scope.
Open Scope Z_scope.

(** ** Task states *)

Definition TaskStateDead : string := "dead".
Definition TaskTerminated : string := "Terminated".

Record TaskEvent := mkTaskEvent { te_Type : string; te_ExitCode : Z }.
Record TaskState := mkTaskState { ts_State : string; ts_Failed : bool; ts_Events : list TaskEvent }.

Definition Successful (ts : TaskState) : bool :=
  if bool_decide (ts_State ts ≠ TaskStateDead) || (length (ts_Events ts) =? 0)%nat then false
  else
    match last (ts_Events ts) with
    | None => false
    | Some e => if bool_decide (te_Type e ≠ TaskTerminated) then false else te_ExitCode e =? 0
    end.

(** ** Deployments *)

Definition DeploymentStatusRunning : string := "running".
Definition DeploymentStatusPaused : string := "paused".
Definition DeploymentStatusFailed : string := "failed".
Definition DeploymentStatusSuccessful : string := "successful".
Definition DeploymentStatusCancelled : string := "cancelled".

Definition DescriptionRunning : string := "Deployment is running".
Definition DescriptionRunningNeedsPromotion : string := "Deployment is running but requires promotion".
Definition DescriptionSuccessful : string := "Deployment completed successfully".
Definition DescriptionStoppedJob : string := "Cancelled because job is stopped".
Definition DescriptionNewerJob : string := "Cancelled due to newer version of job".

Record DeploymentState := mkDeploymentState {
  ds_AutoRevert : bool;
  ds_Promoted : bool;
  ds_PlacedCanaries : list string;
  ds_DesiredCanaries : Z;
  ds_DesiredTotal : Z;
  ds_PlacedAllocs : Z;
  ds_HealthyAllocs : Z;
  ds_UnhealthyAllocs : Z
}.
#[export] Instance eta_DeploymentState : Eta DeploymentState := fun r =>
  mkDeploymentState (ds_AutoRevert r) (ds_Promoted r) (ds_PlacedCanaries r) (ds_DesiredCanaries r)
    (ds_DesiredTotal r) (ds_PlacedAllocs r) (ds_HealthyAllocs r) (ds_UnhealthyAllocs r).

Definition zeroDeploymentState : DeploymentState := mkDeploymentState false false [] 0 0 0 0 0.

Record Deployment := mkDeployment {
  d_ID : string;
  d_JobID : string;
  d_JobVersion : Z;
  d_JobModifyIndex : Z;
  d_JobCreateIndex : Z;
  d_TaskGroups : gmap string DeploymentState;
  d_Status : string;
  d_StatusDescription : string;
  d_CreateIndex : Z;
  d_ModifyIndex : Z
}.
#[export] Instance eta_Deployment : Eta Deployment := fun r =>
  mkDeployment (d_ID r) (d_JobID r) (d_JobVersion r) (d_JobModifyIndex r) (d_JobCreateIndex r)
    (d_TaskGroups r) (d_Status r) (d_StatusDescription r) (d_CreateIndex r) (d_ModifyIndex r).

Record DeploymentStatusUpdate := mkDeploymentStatusUpdate {
  du_DeploymentID : string;
  du_Status : string;
  du_StatusDescription : string
}.

(** [uuid] is the result of [GenerateUUID()]. *)
Definition NewDeployment (uuid : string) (job : Job) : Deployment :=
  mkDeployment uuid (jb_ID job) (jb_Version job) (jb_ModifyIndex job) (jb_CreateIndex job) ∅
    DeploymentStatusRunning DescriptionRunning 0 0.

Definition Active (d : Deployment) : bool :=
  bool_decide (d_Status d = DeploymentStatusRunning) || bool_decide (d_Status d = DeploymentStatusPaused).

Definition GetID (d : option Deployment) : string := match d with None => "" | Some d => d_ID d end.

Definition HasPlacedCanaries (d : option Deployment) : bool :=
  match d with
  | None => false
  | Some d => existsb (fun s => negb (length (ds_PlacedCanaries s) =? 0)%nat) (vals (d_TaskGroups d))
  end.

Definition RequiresPromotion (d : option Deployment) : bool :=
  match d with
  | None => false
  | Some d =>
      if bool_decide (d_Status d ≠ DeploymentStatusRunning) then false
      else existsb (fun s => (0 <? ds_DesiredCanaries s) && negb (ds_Promoted s)) (vals (d_TaskGroups d))
  end.

(** ** Allocations *)

Definition AllocDesiredStatusRun : string := "run".
Definition AllocDesiredStatusStop : string := "stop".
Definition AllocDesiredStatusEvict : string := "evict".
Definition AllocClientStatusPending : string := "pending".
Definition AllocClientStatusRunning : string := "running".
Definition AllocClientStatusComplete : string := "complete".
Definition AllocClientStatusFailed : string := "failed".
Definition AllocClientStatusLost : string := "lost".

Record AllocDeploymentStatus := mkAllocDeploymentStatus { ads_Healthy : option bool; ads_ModifyIndex : Z }.

(** Nil status and nil health are neither healthy nor unhealthy. *)
Definition IsHealthy (a : option AllocDeploymentStatus) : bool :=
  match a with Some (mkAllocDeploymentStatus (Some h) _) => h | _ => false end.
Definition IsUnhealthy (a : option AllocDeploymentStatus) : bool :=
  match a with Some (mkAllocDeploymentStatus (Some h) _) => negb h | _ => false end.

Record Allocation := mkAllocation {
  al_ID : string;
  al_EvalID : string;
  al_Name : string;
  al_NodeID : string;
  al_JobID : string;
  al_Job : option Job;
  al_TaskGroup : string;
  al_Resources : option Resources;
  al_SharedResources : option Resources;
  al_TaskResources : option (gmap string Resources);
  al_Metrics : option AllocMetric;
  al_DesiredStatus : string;
  al_DesiredDescription : string;
  al_ClientStatus : string;
  al_ClientDescription : string;
  al_TaskStates : gmap string TaskState;
  al_PreviousAllocation : string;
  al_DeploymentID : string;
  al_DeploymentStatus : option AllocDeploymentStatus;
  al_CreateIndex : Z;
  al_ModifyIndex : Z;
  al_AllocModifyIndex : Z;
  al_CreateTime : Z
}.
#[export] Instance eta_Allocation : Eta Allocation := fun r =>
  mkAllocation (al_ID r) (al_EvalID r) (al_Name r) (al_NodeID r) (al_JobID r) (al_Job r)
    (al_TaskGroup r) (al_Resources r) (al_SharedResources r) (al_TaskResources r) (al_Metrics r)
    (al_DesiredStatus r) (al_DesiredDescription r) (al_ClientStatus r) (al_ClientDescription r)
    (al_TaskStates r) (al_PreviousAllocation r) (al_DeploymentID r) (al_DeploymentStatus r)
    (al_CreateIndex r) (al_ModifyIndex r) (al_AllocModifyIndex r) (al_CreateTime r).

Definition zeroAllocation : Allocation :=
  mkAllocation "" "" "" "" "" None "" None None None None "" "" "" "" ∅ "" "" None 0 0 0 0.

Definition AllocTerminal (a : Allocation) : bool :=
  bool_decide (al_DesiredStatus a = AllocDesiredStatusStop) ||
  bool_decide (al_DesiredStatus a = AllocDesiredStatusEvict) ||
  bool_decide (al_ClientStatus a = AllocClientStatusComplete) ||
  bool_decide (al_ClientStatus a = AllocClientStatusFailed) ||
  bool_decide (al_ClientStatus a = AllocClientStatusLost).

Definition Terminated (a : Allocation) : bool :=
  bool_decide (al_ClientStatus a = AllocClientStatusFailed) ||
  bool_decide (al_ClientStatus a = AllocClientStatusComplete) ||
  bool_decide (al_ClientStatus a = AllocClientStatusLost).

Definition RanSuccessfully (a : Allocation) : bool :=
  if (size (al_TaskStates a) =? 0)%nat then false
  else forallb Successful (vals (al_TaskStates a)).

(** [None] is the nil dereference of an allocation without job. *)
Definition ShouldMigrate (a : Allocation) : option bool :=
  if bool_decide (al_DesiredStatus a = AllocDesiredStatusStop) ||
     bool_decide (al_DesiredStatus a = AllocDesiredStatusEvict) then Some false
  else
    job ← al_Job a;
    Some match LookupTaskGroup job (al_TaskGroup a) ≫= tg_EphemeralDisk with
         | None => false
         | Some disk => ed_Migrate disk && ed_Sticky disk
         end.

(** ** Names and indexes *)

(** Go's [%d] for an unsigned integer. *)
Definition itoa (n : Z) : string := pretty (Z.to_N n).

Definition AllocName (job group : string) (idx : Z) : string :=
  job +:+ "." +:+ group +:+ "[" +:+ itoa idx +:+ "]".

(** The digit loop of [strconv.ParseUint] in base 10 at 64 bits: [inl] is a syntax
    error, and an overflow ends the loop with the largest value. *)
Fixpoint parseUint (s : string) (acc : Z) : unit + Z :=
  match s with
  | EmptyString => inr acc
  | String c s =>
      let v := Z.of_N (Ascii.N_of_ascii c) - 48 in
      if (v <? 0) || (9 <? v) then inl tt
      else if 2 ^ 64 - 1 <? acc * 10 + v then inr (2 ^ 64 - 1)
      else parseUint s (acc * 10 + v)
  end.

(** [strconv.Atoi] with its error dropped: a value out of range is clamped, a
    string that is no number gives 0. *)
Definition Atoi (s : string) : Z :=
  let '(neg, digits) :=
    match s with
    | String "+"%char s => (false, s)
    | String "-"%char s => (true, s)
    | _ => (false, s)
    end in
  match digits with
  | EmptyString => 0
  | _ =>
      match parseUint digits 0 with
      | inl _ => 0
      | inr un => if neg then - Z.min un (2 ^ 63) else Z.min un (2 ^ 63 - 1)
      end
  end.

Definition Index (a : Allocation) : Z :=
  let l := String.length (al_Name a) in
  let prefix := (String.length (al_JobID a) + String.length (al_TaskGroup a) + 2)%nat in
  if (l <=? 3)%nat || (l <=? prefix)%nat then 0
  else
    let strNum := String.substring prefix (l - 1 - prefix) (al_Name a) in
    Atoi strNum mod 2 ^ 64.

(** *** Reading back a printed number *)

Definition digit (n : N) : Ascii.ascii := pretty_N_char n.

Lemma digit_val n : (n < 10)%N → Z.of_N (Ascii.N_of_ascii (digit n)) - 48 = Z.of_N n.
Proof.
  intros Hn. assert (∃ k : nat, (k < 10)%nat ∧ n = N.of_nat k) as (k & Hk & ->) by (exists (N.to_nat n); lia).
  do 10 (destruct k as [|k]; [done|]). lia.
Qed.

Lemma parseUint_pretty n s :
  Z.of_N n < 2 ^ 64 → parseUint (pretty_N_go n s) 0 = parseUint s (Z.of_N n).
Proof.
  revert s. induction n as [n IH] using (well_founded_induction N.lt_wf_0). intros s Hn.
  destruct (decide (n = 0)%N) as [->|Hn0]; [done|].
  rewrite pretty_N_go_step by lia.
  assert (n `div` 10 < n)%N as Hlt by (apply N.div_lt; lia).
  rewrite IH by lia. clear IH Hlt. cbn [parseUint].
  pose proof (N.div_mod n 10 ltac:(lia)) as Hdm. pose proof (N.mod_lt n 10 ltac:(lia)) as Hm.
  change (pretty_N_char (n `mod` 10)) with (digit (n `mod` 10)). rewrite digit_val by done.
  generalize dependent (n `mod` 10)%N. generalize (n `div` 10)%N. intros q r Hdm Hm.
  destruct (Z.ltb_spec (Z.of_N r) 0); [lia|].
  destruct (Z.ltb_spec 9 (Z.of_N r)); [lia|]. cbn [orb].
  replace (Z.of_N q * 10 + Z.of_N r) with (Z.of_N n) by lia.
  destruct (Z.ltb_spec (2 ^ 64 - 1) (Z.of_N n)); [lia|done].
Qed.

Lemma pretty_N_go_digit n s : (0 < n)%N → ∃ d t, (d < 10)%N ∧ pretty_N_go n s = String (digit d) t.
Proof.
  revert s. induction n as [n IH] using (well_founded_induction N.lt_wf_0). intros s Hn.
  rewrite pretty_N_go_step by lia. destruct (decide (n `div` 10 = 0)%N) as [->|Hd].
  - exists (n `mod` 10)%N, s. split; [apply N.mod_lt; lia|]. by rewrite pretty_N_go_0.
  - apply IH; [apply N.div_lt; lia|by apply N.neq_0_lt_0].
Qed.

Lemma itoa_digit n : 0 ≤ n → ∃ d t, (d < 10)%N ∧ itoa n = String (digit d) t.
Proof.
  intros Hn. unfold itoa, pretty, pretty_N. case_decide as E.
  - exists 0%N, "". done.
  - apply pretty_N_go_digit. lia.
Qed.

Lemma parseUint_itoa n : 0 ≤ n < 2 ^ 64 → parseUint (itoa n) 0 = inr n.
Proof.
  intros Hn. unfold itoa, pretty, pretty_N. case_decide as E.
  - simpl. f_equal. lia.
  - rewrite parseUint_pretty by lia. simpl. f_equal. lia.
Qed.

Lemma Atoi_itoa n : 0 ≤ n < 2 ^ 63 → Atoi (itoa n) = n.
Proof.
  intros Hn. pose proof (parseUint_itoa n ltac:(lia)) as Hp.
  destruct (itoa_digit n ltac:(lia)) as (d & t & Hd & E). rewrite E in *.
  assert (Atoi (String (digit d) t) =
          match parseUint (String (digit d) t) 0 with inl _ => 0 | inr un => Z.min un (2 ^ 63 - 1) end) as ->.
  { assert (∃ k : nat, (k < 10)%nat ∧ d = N.of_nat k) as (k & Hk & ->) by (exists (N.to_nat d); lia).
    do 10 (destruct k as [|k]; [done|]). lia. }
  rewrite Hp. lia.
Qed.

Lemma substring_prefix s t : String.substring 0 (String.length s) (s +:+ t) = s.
Proof. induction s as [|c s IH]; simpl; [by destruct t|by rewrite IH]. Qed.

Lemma substring_app p s t :
  String.substring (String.length p) (String.length s) (p +:+ s +:+ t) = s.
Proof. induction p as [|c p IH]; [apply (substring_prefix s t)|done]. Qed.

Lemma string_length_app s t : String.length (s +:+ t) = (String.length s + String.length t)%nat.
Proof. induction s; simpl; [done|by rewrite IHs]. Qed.

Lemma string_app_assoc s t u : (s +:+ t) +:+ u = s +:+ t +:+ u.
Proof. induction s as [|c s IH]; [done|]. change (String c ((s +:+ t) +:+ u) = String c (s +:+ t +:+ u)). by rewrite IH. Qed.

Lemma AllocName_Index a idx :
  al_Name a = AllocName (al_JobID a) (al_TaskGroup a) idx → 0 ≤ idx < 2 ^ 63 → Index a = idx.
Proof.
  intros Hn Hi. unfold Index. rewrite Hn.
  assert (AllocName (al_JobID a) (al_TaskGroup a) idx =
          (al_JobID a +:+ "." +:+ al_TaskGroup a +:+ "[") +:+ itoa idx +:+ "]") as ->.
  { unfold AllocName. by rewrite !string_app_assoc. }
  set (p := al_JobID a +:+ "." +:+ al_TaskGroup a +:+ "[").
  assert (String.length p = (String.length (al_JobID a) + String.length (al_TaskGroup a) + 2)%nat) as <-
    by (unfold p; rewrite !string_length_app; simpl; lia).
  assert (0 < String.length (itoa idx))%nat as Hl
    by (destruct (itoa_digit idx ltac:(lia)) as (d & t & _ & ->); simpl; lia).
  assert (2 ≤ String.length p)%nat by (unfold p; rewrite !string_length_app; simpl; lia).
  rewrite !string_length_app. change (String.length "]") with 1%nat.
  destruct (Nat.leb_spec (String.length p + (String.length (itoa idx) + 1)) 3); [lia|].
  destruct (Nat.leb_spec (String.length p + (String.length (itoa idx) + 1)) (String.length p)); [lia|].
  cbn [orb].
  replace (String.length p + (String.length (itoa idx) + 1) - 1 - String.length p)%nat
    with (String.length (itoa idx)) by lia.
  rewrite substring_app, Atoi_itoa by lia. apply Z.mod_small. lia.
Qed.
