(* ===== verification/Network.v ===== *)
(** * The network index (src/nomad/structs/network.go)

    The ports in use per IP as bitmaps, and the bandwidth in use per device, of
    the reservations of a node and of the allocations on it.  The process-wide
    [bitmapPool] is the list of bitmaps that [Release] has put back, carried by
    the index that takes from it.  An operation is [None] where the Go method
    would index a bitmap out of range. *)

From stdpp Require Import base gmap strings list.
From Stdlib Require Import ZArith Lia.
From S2P Require Import Prelude Bitmap Structs Resources Jobs Allocs.
Open Scope string_scope.
Open Scope list_scope.
Open Scope Z_scope.

#[local] Arguments NewBitmap : simpl never.

Definition MinDynamicPort : Z := 20000.
Definition MaxDynamicPort : Z := 60000.
Definition maxRandPortAttempts : Z := 20.
Definition maxValidPort : Z := 65536.

Record NetworkIndex := mkNetworkIndex {
  AvailNetworks : list NetworkResource;
  AvailBandwidth : gmap string Z;
  UsedPorts : gmap string Bitmap;
  UsedBandwidth : gmap string Z;
  bitmapPool : list Bitmap
}.
#[export] Instance eta_NetworkIndex : Eta NetworkIndex := fun r =>
  mkNetworkIndex (AvailNetworks r) (AvailBandwidth r) (UsedPorts r) (UsedBandwidth r) (bitmapPool r).

Definition NewNetworkIndex (pool : list Bitmap) : NetworkIndex := mkNetworkIndex [] ∅ ∅ ∅ pool.

(** The pool after the index has given its bitmaps back. *)
Definition Release (idx : NetworkIndex) : list Bitmap := vals (UsedPorts idx) ++ bitmapPool idx.

Definition Overcommitted (idx : NetworkIndex) : bool :=
  existsb (fun du => default 0 (AvailBandwidth idx !! du.1) <? du.2) (map_to_list (UsedBandwidth idx)).

(** A bitmap from the pool, cleared, or a new one. *)
Definition getBitmap (pool : list Bitmap) : Bitmap * list Bitmap :=
  match pool with
  | raw :: pool => (Clear raw, pool)
  | [] => (match NewBitmap maxValidPort with inr b => b | inl _ => [] end, [])
  end.

(** The loops over the ports: the bitmap, whether a port was in use, and whether
    a port was invalid, at which the method returns. *)
Fixpoint addPorts (used : Bitmap) (ports : list Port) (collide : bool) : option (Bitmap * bool * bool) :=
  match ports with
  | [] => Some (used, collide, false)
  | port :: ports =>
      if (p_Value port <? 0) || (maxValidPort <=? p_Value port) then Some (used, collide, true)
      else
        inUse ← Check_ used (p_Value port);
        if (inUse : bool) then addPorts used ports true
        else used ← Set_ used (p_Value port); addPorts used ports collide
  end.

(** The bitmap of an IP, which is created when the index has none. *)
Definition bitmapOf (idx : NetworkIndex) (ip : string) : Bitmap * NetworkIndex :=
  match UsedPorts idx !! ip with
  | Some used => (used, idx)
  | None =>
      let '(used, pool) := getBitmap (bitmapPool idx) in
      (used, idx <| bitmapPool := pool |> <| UsedPorts := <[ip := used]> (UsedPorts idx) |>)
  end.

Definition AddReserved (idx : NetworkIndex) (n : NetworkResource) : option (NetworkIndex * bool) :=
  let '(used, idx) := bitmapOf idx (nr_IP n) in
  r ← addPorts used (nr_ReservedPorts n ++ nr_DynamicPorts n) false;
  let '(used, collide, invalid) := r in
  let idx := idx <| UsedPorts := <[nr_IP n := used]> (UsedPorts idx) |> in
  if (invalid : bool) then Some (idx, true)
  else
    let bw := wrap64 (default 0 (UsedBandwidth idx !! nr_Device n) + nr_MBits n) in
    Some (idx <| UsedBandwidth := <[nr_Device n := bw]> (UsedBandwidth idx) |>, collide).

(** A loop of [AddReserved] that collects [collide]. *)
Fixpoint addReservedAll (idx : NetworkIndex) (ns : list NetworkResource) (collide : bool)
    : option (NetworkIndex * bool) :=
  match ns with
  | [] => Some (idx, collide)
  | n :: ns =>
      r ← AddReserved idx n;
      addReservedAll r.1 ns (collide || r.2)
  end.

Definition SetNode (idx : NetworkIndex) (node : Node) : option (NetworkIndex * bool) :=
  let idx := foldl (fun idx n =>
      if bool_decide (nr_Device n = "") then idx
      else idx <| AvailNetworks ::= fun l => l ++ [n] |>
               <| AvailBandwidth := <[nr_Device n := nr_MBits n]> (AvailBandwidth idx) |>)
    idx (r_Networks (nd_Resources node)) in
  match nd_Reserved node with
  | None => Some (idx, false)
  | Some r => addReservedAll idx (r_Networks r) false
  end.

Section allocs.
(** The order in which Go ranges over the tasks of an allocation. *)
Variable range : gmap string Resources → list Resources.

(** The networks [AddAllocs] adds: the first one of each task that has one. *)
Definition allocNetworks (allocs : list Allocation) : list NetworkResource :=
  flat_map (fun alloc =>
    flat_map (fun task => match r_Networks task with [] => [] | n :: _ => [n] end)
      (range (default ∅ (al_TaskResources alloc)))) allocs.

Definition AddAllocs (idx : NetworkIndex) (allocs : list Allocation) : option (NetworkIndex * bool) :=
  addReservedAll idx (allocNetworks allocs) false.
End allocs.

(** ** Port claims *)

Definition ports_of (n : NetworkResource) : list Z :=
  p_Value <$> (nr_ReservedPorts n ++ nr_DynamicPorts n).

(** The (IP, port) pairs that a list of networks claims. *)
Definition claims (ns : list NetworkResource) : list (string * Z) :=
  ns ≫= fun n => pair (nr_IP n) <$> ports_of n.

Definition valid_port (p : Z) : Prop := 0 ≤ p < maxValidPort.
Definition valid_ports (ns : list NetworkResource) : Prop := ∀ n, n ∈ ns → Forall valid_port (ports_of n).

(** No port of an IP is claimed twice and every port is valid. *)
Definition ports_free (ns : list NetworkResource) : Prop := valid_ports ns ∧ NoDup (claims ns).

Definition bandwidth (dev : string) (ns : list NetworkResource) : Z :=
  foldr (fun n acc => (if bool_decide (nr_Device n = dev) then nr_MBits n else 0) + acc) 0 ns.

Lemma claims_app ns ns' : claims (ns ++ ns') = claims ns ++ claims ns'.
Proof. apply bind_app. Qed.

Lemma claims_one n : claims [n] = pair (nr_IP n) <$> ports_of n.
Proof. unfold claims. simpl. by rewrite app_nil_r. Qed.

Lemma bandwidth_app dev ns ns' : bandwidth dev (ns ++ ns') = bandwidth dev ns + bandwidth dev ns'.
Proof. induction ns as [|n ns IH]; simpl; [done|]. rewrite IH. lia. Qed.

#[global] Instance claims_Permutation : Proper ((≡ₚ) ==> (≡ₚ)) claims.
Proof. intros ns ns' Hp. unfold claims. by rewrite Hp. Qed.

#[global] Instance bandwidth_Permutation dev : Proper ((≡ₚ) ==> (=)) (bandwidth dev).
Proof. induction 1; simpl; lia. Qed.

#[global] Instance ports_free_Permutation : Proper ((≡ₚ) ==> iff) ports_free.
Proof. intros ns ns' Hp. unfold ports_free, valid_ports. rewrite Hp. by setoid_rewrite Hp. Qed.

(** ** What the index holds *)

Lemma addPorts_spec ports : ∀ used c,
  Size used = maxValidPort →
  ∃ used' c' bad, addPorts used ports c = Some (used', c', bad) ∧ Size used' = maxValidPort ∧
    (bad = false ∧ c' = false ↔
     c = false ∧ Forall valid_port (p_Value <$> ports) ∧ NoDup (p_Value <$> ports) ∧
     Forall (fun p => bit used p = false) (p_Value <$> ports)) ∧
    (bad = false → c' = false →
     ∀ j, bit used' j = true ↔ bit used j = true ∨ j ∈ p_Value <$> ports).
Proof.
  induction ports as [|p ports IH]; intros used c Hs; simpl.
  { exists used, c, false. split_and!; try done.
    - split; [intros [_ ->]|naive_solver]. split_and!; [done|constructor..].
    - intros _ _ j. rewrite elem_of_nil. tauto. }
  destruct (Z.ltb_spec (p_Value p) 0); simpl.
  { exists used, c, true. split_and!; try done. split; [naive_solver|].
    intros (_ & [[Hp _] _]%Forall_cons & _). lia. }
  destruct (Z.leb_spec maxValidPort (p_Value p)); simpl.
  { exists used, c, true. split_and!; try done. split; [naive_solver|].
    intros (_ & [[_ Hp] _]%Forall_cons & _). lia. }
  rewrite Check_in by lia. simpl. destruct (bit used (p_Value p)) eqn:Hb.
  - destruct (IH used true Hs) as (u & c' & bad & E & Hu & Hiff & _). exists u, c', bad.
    split_and!; [done..| |].
    + split; [intros Hx; apply Hiff in Hx as [? _]; done|].
      intros (_ & _ & _ & [? _]%Forall_cons). congruence.
    + intros -> ->. destruct Hiff as [Hiff _]. destruct Hiff as [? _]; done.
  - destruct (Set_spec used (p_Value p)) as (used1 & E1 & Hs1 & Hbit); [lia|]. rewrite E1. simpl.
    destruct (IH used1 c) as (u & c' & bad & E & Hu & Hiff & Hset); [congruence|].
    exists u, c', bad. split_and!; [done..| |].
    + rewrite Hiff, !Forall_cons, NoDup_cons. split.
      * intros (-> & Hv & Hnd & Hf). rewrite Forall_forall in Hf. split_and!; try done.
        -- intros Hin%Hf. rewrite Hbit, Z.eqb_refl in Hin. done.
        -- apply Forall_forall. intros q Hq%Hf. rewrite Hbit in Hq. by apply orb_false_iff in Hq as [_ ?].
      * intros (-> & [_ Hv] & [Hp Hnd] & [_ Hf]). split_and!; try done.
        rewrite Forall_forall in Hf |- *. intros q Hq. rewrite Hbit, (Hf q Hq).
        destruct (Z.eqb_spec q (p_Value p)) as [->|]; done.
    + intros -> -> j. rewrite (Hset eq_refl eq_refl j), Hbit, elem_of_cons, orb_true_iff, Z.eqb_eq. tauto.
Qed.

(** Every bitmap of the index and of the pool covers all ports. *)
Definition sizes_ok (idx : NetworkIndex) : Prop :=
  Forall (fun b => Size b = maxValidPort) (bitmapPool idx) ∧
  (∀ ip b, UsedPorts idx !! ip = Some b → Size b = maxValidPort).

(** The index holds the claims and the bandwidth of the networks [ns]. *)
Record holds (idx : NetworkIndex) (ns : list NetworkResource) : Prop := {
  h_free : ports_free ns;
  h_used : ∀ ip b, UsedPorts idx !! ip = Some b → ∀ p, bit b p = true ↔ (ip, p) ∈ claims ns;
  h_unused : ∀ ip p, UsedPorts idx !! ip = None → (ip, p) ∉ claims ns;
  h_bandwidth : ∀ dev, default 0 (UsedBandwidth idx !! dev) = wrap64 (bandwidth dev ns);
  h_devices : ∀ dev, is_Some (UsedBandwidth idx !! dev) ↔ ∃ n, n ∈ ns ∧ nr_Device n = dev
}.

Lemma wrap64_add a b : wrap64 (wrap64 a + b) = wrap64 (a + b).
Proof.
  unfold wrap64. f_equal.
  replace ((a + 2 ^ 63) `mod` 2 ^ 64 - 2 ^ 63 + b + 2 ^ 63) with ((a + 2 ^ 63) `mod` 2 ^ 64 + b) by lia.
  rewrite Z.add_mod_idemp_l by lia. f_equal. lia.
Qed.

Lemma getBitmap_spec pool :
  Forall (fun b => Size b = maxValidPort) pool →
  Size (getBitmap pool).1 = maxValidPort ∧ (∀ p, bit (getBitmap pool).1 p = false) ∧
  Forall (fun b => Size b = maxValidPort) (getBitmap pool).2.
Proof.
  intros Hp. destruct pool as [|raw pool]; cbn [getBitmap fst snd].
  - destruct (NewBitmap_spec maxValidPort) as (b & E & Hs & _ & Hb); [done..|]. rewrite E. done.
  - apply Forall_cons in Hp as [Hr Hp]. split_and!; [|intros p; apply Clear_spec|done].
    rewrite <- Hr. apply (Clear_spec raw 0).
Qed.

Lemma bitmapOf_spec idx ip :
  sizes_ok idx →
  ∃ used idx', bitmapOf idx ip = (used, idx') ∧ Size used = maxValidPort ∧ sizes_ok idx' ∧
    AvailBandwidth idx' = AvailBandwidth idx ∧ UsedBandwidth idx' = UsedBandwidth idx ∧
    (∀ ip', ip' ≠ ip → UsedPorts idx' !! ip' = UsedPorts idx !! ip') ∧
    (∀ ns, holds idx ns → ∀ p, bit used p = true ↔ (ip, p) ∈ claims ns).
Proof.
  intros [Hpool Hsz]. unfold bitmapOf. destruct (UsedPorts idx !! ip) as [used|] eqn:E.
  - exists used, idx. split_and!; eauto; try done. intros ns Hh p. by eapply h_used.
  - destruct (getBitmap_spec (bitmapPool idx) Hpool) as (G1 & G2 & G3).
    destruct (getBitmap (bitmapPool idx)) as [used pool]. simpl in *.
    eexists used, _. split_and!; [done|done| |done|done| |].
    + split; [done|]. simpl. intros ip' b [[_ <-]|[_ ?]]%lookup_insert_Some; [done|by eauto].
    + intros ip' Hne. simpl. by rewrite lookup_insert_ne.
    + intros ns Hh p. rewrite G2. split; [done|]. intros Hin. by apply (h_unused idx ns Hh _ p) in E.
Qed.

(** One more network keeps the claims disjoint when its ports are. *)
Lemma ports_free_snoc ns n (used : Bitmap) :
  ports_free ns → (∀ p, bit used p = true ↔ (nr_IP n, p) ∈ claims ns) →
  ports_free (ns ++ [n]) ↔
  Forall valid_port (ports_of n) ∧ NoDup (ports_of n) ∧ Forall (fun p => bit used p = false) (ports_of n).
Proof.
  intros [Hv Hnd] Hbits. unfold ports_free, valid_ports.
  rewrite claims_app, claims_one, NoDup_app. rewrite NoDup_fmap by (apply _).
  setoid_rewrite Forall_forall. split.
  - intros [Hvp (_ & Hd & Hnp)]. split_and!; try done.
    + intros p Hp. apply (Hvp n); [solve_in|done].
    + intros p Hp. destruct (bit used p) eqn:E; [|done]. apply Hbits in E.
      exfalso. apply (Hd _ E). apply list_elem_of_fmap. eauto.
  - intros (Hvp & Hnp & Hf). split_and!; try done.
    + intros m Hm. apply elem_of_app in Hm as [Hm|Hm]; [by apply Forall_forall, Hv|].
      apply list_elem_of_singleton in Hm as ->. done.
    + intros [ip p] Hin (q & [= -> ->] & Hq)%list_elem_of_fmap.
      apply Hbits in Hin. rewrite (Hf q Hq) in Hin. done.
Qed.

(** [AddReserved] takes the index from one list of networks to the next, and
    reports a collision exactly when the claims are no longer disjoint. *)
Lemma AddReserved_spec idx n :
  sizes_ok idx →
  ∃ idx' c, AddReserved idx n = Some (idx', c) ∧ sizes_ok idx' ∧
    AvailBandwidth idx' = AvailBandwidth idx ∧
    ∀ ns, holds idx ns →
      (c = false ↔ ports_free (ns ++ [n])) ∧ (c = false → holds idx' (ns ++ [n])).
Proof.
  intros Hok. unfold AddReserved.
  destruct (bitmapOf_spec idx (nr_IP n) Hok)
    as (used & idx1 & -> & Hu & [Hpool1 Hsz1] & HA & HB & Hsame & Hbits).
  destruct (addPorts_spec (nr_ReservedPorts n ++ nr_DynamicPorts n) used false Hu)
    as (used' & c & bad & -> & Hu' & Hiff & Hset). simpl.
  change (p_Value <$> nr_ReservedPorts n ++ nr_DynamicPorts n) with (ports_of n) in *.
  assert (sizes_ok (idx1 <| UsedPorts := <[nr_IP n := used']> (UsedPorts idx1) |>)) as Hok'.
  { split; [done|]. simpl. intros ip b [[_ <-]|[_ ?]]%lookup_insert_Some; [done|by eauto]. }
  assert (∀ ns, holds idx ns → bad = false ∧ c = false ↔ ports_free (ns ++ [n])) as Hfree.
  { intros ns Hh. rewrite Hiff, (ports_free_snoc ns n used (h_free idx ns Hh) (Hbits ns Hh)). tauto. }
  destruct bad; simpl.
  { eexists _, true. split_and!; [done|done|done|]. intros ns Hh. rewrite <- (Hfree ns Hh). naive_solver. }
  eexists _, c. split_and!; [done|done|done|]. intros ns Hh. specialize (Hfree ns Hh).
  split; [rewrite <- Hfree; split; [done|by intros [_ ?]]|].
  intros ->. specialize (Hset eq_refl eq_refl). split; simpl.
  - by apply Hfree.
  - intros ip b Hb p. rewrite claims_app, claims_one, elem_of_app, list_elem_of_fmap.
    apply lookup_insert_Some in Hb as [[<- <-]|[Hne Hb]].
    + rewrite Hset, (Hbits ns Hh). clear. naive_solver.
    + rewrite Hsame in Hb by done. rewrite (h_used idx ns Hh ip b Hb). clear - Hne. naive_solver.
  - intros ip p [Hb Hne]%lookup_insert_None. rewrite Hsame in Hb by done.
    rewrite claims_app, claims_one, elem_of_app, list_elem_of_fmap.
    pose proof (h_unused idx ns Hh ip p Hb) as Hn. clear - Hne Hn. naive_solver.
  - intros dev. rewrite HB, bandwidth_app. simpl. rewrite Z.add_0_r.
    destruct (decide (nr_Device n = dev)) as [<-|Hne].
    + rewrite lookup_insert_eq, bool_decide_true by done. simpl.
      by rewrite (h_bandwidth idx ns Hh), wrap64_add.
    + rewrite lookup_insert_ne, bool_decide_false, Z.add_0_r by done. apply (h_bandwidth idx ns Hh).
  - intros dev. rewrite HB, lookup_insert_is_Some, (h_devices idx ns Hh).
    setoid_rewrite elem_of_app. setoid_rewrite list_elem_of_singleton.
    clear. destruct (decide (nr_Device n = dev)); naive_solver.
Qed.

(** The same for a list of networks. *)
Lemma addReservedAll_spec ms : ∀ idx c0,
  sizes_ok idx →
  ∃ idx' c, addReservedAll idx ms c0 = Some (idx', c) ∧ sizes_ok idx' ∧
    AvailBandwidth idx' = AvailBandwidth idx ∧ (c0 = true → c = true) ∧
    ∀ ns, holds idx ns → c0 = false →
      (c = false ↔ ports_free (ns ++ ms)) ∧ (c = false → holds idx' (ns ++ ms)).
Proof.
  induction ms as [|m ms IH]; intros idx c0 Hok; simpl.
  { exists idx, c0. split_and!; try done. intros ns Hh ->. rewrite app_nil_r. split; [|done].
    split; [|done]. intros _. apply (h_free idx ns Hh). }
  destruct (AddReserved_spec idx m Hok) as (idx1 & c1 & -> & Hok1 & HA1 & H1). simpl.
  destruct (IH idx1 (c0 || c1) Hok1) as (idx' & c & -> & Hok' & HA' & Hm & H2).
  exists idx', c. split_and!; [done|done|congruence|by intros ->; apply Hm|].
  intros ns Hh ->. destruct (H1 ns Hh) as [Hc1 Hh1].
  replace (ns ++ m :: ms) with ((ns ++ [m]) ++ ms) by by rewrite <- app_assoc.
  destruct c1; simpl in *.
  - rewrite (Hm eq_refl). split; [|done]. split; [done|]. intros [Hv Hnd]. apply Hc1. split.
    + intros x Hx. apply Hv. apply elem_of_app. by left.
    + rewrite claims_app in Hnd. by apply NoDup_app in Hnd as [? _].
  - apply H2; [|done]. by apply Hh1.
Qed.

(** The order of the networks does not matter. *)
#[global] Instance holds_Permutation idx : Proper ((≡ₚ) ==> iff) (holds idx).
Proof.
  assert (∀ ns ns', ns ≡ₚ ns' → holds idx ns → holds idx ns') as Hgo.
  { intros ns ns' Hp []. split; setoid_rewrite <- Hp; done. }
  intros ns ns' Hp. split; by apply Hgo.
Qed.
