(* ===== verification/NetworkAssign.v ===== *)
(** * Assigning networks (src/nomad/structs/network.go)

    [AssignNetwork] walks the addresses of the node's networks and offers the first
    one whose bandwidth and ports satisfy the ask.

    An address is its bytes.  Parsing and printing of addresses, Go's [ParseCIDR] and
    [String], are arguments, with the documented shape of what they return where a
    theorem needs it; [intn k n] is the [k]-th draw of [rand.Intn(n)].  An operation
    is [None] where the Go code would panic.  The walk has no bound of its own: its
    steps are counted by a binary number, and a walk that exhausts it is a walk that
    does not end. *)

From stdpp Require Import base gmap strings list pretty.
From Stdlib Require Import ZArith Lia.
From S2P Require Import Prelude GoHeap Bitmap Structs Resources Jobs Allocs Network.
Open Scope string_scope.
Open Scope list_scope.
Open Scope Z_scope.

(** ** Walking the addresses *)

(** At most [p] steps, each of which continues with a state or ends with a result. *)
Fixpoint iterate {S R} (step : S → S + R) (p : positive) (s : S) : S + R :=
  match p with
  | xH => step s
  | xO p => match iterate step p s with inl s => iterate step p s | inr r => inr r end
  | xI p =>
      match iterate step p s with
      | inl s => match iterate step p s with inl s => step s | inr r => inr r end
      | inr r => inr r
      end
  end.

(** [inc], on the bytes from the last to the first. *)
Fixpoint incBytes (l : list Z) : list Z :=
  match l with
  | [] => []
  | b :: l => let b := (b + 1) mod 256 in if 0 <? b then b :: l else b :: incBytes l
  end.
Definition inc (ip : list Z) : list Z := reverse (incBytes (reverse ip)).

Definition v4InV6Prefix : list Z := [0; 0; 0; 0; 0; 0; 0; 0; 0; 0; 255; 255].

Definition To4 (ip : list Z) : option (list Z) :=
  if (length ip =? 4)%nat then Some ip
  else if (length ip =? 16)%nat && bool_decide (take 12 ip = v4InV6Prefix) then Some (drop 12 ip)
  else None.

(** [ip.Mask(mask)]; nil is the empty list. *)
Definition Mask (ip mask : list Z) : list Z :=
  let mask := if (length mask =? 16)%nat && (length ip =? 4)%nat && bool_decide (take 12 mask = replicate 12 255)
    then drop 12 mask else mask in
  let ip := if (length mask =? 4)%nat && (length ip =? 16)%nat && bool_decide (take 12 ip = v4InV6Prefix)
    then drop 12 ip else ip in
  if (length ip =? length mask)%nat then zip_with Z.land ip mask else [].

Record IPNet := mkIPNet { in_IP : list Z; in_Mask : list Z }.

(** The network number and the mask that [Contains] compares with. *)
Definition networkNumberAndMask (n : IPNet) : list Z * list Z :=
  let ip := default (in_IP n) (To4 (in_IP n)) in
  let m := in_Mask n in
  let m := if (length m =? 16)%nat && (length ip =? 4)%nat then drop 12 m else m in
  if (length m =? length ip)%nat then (ip, m) else ([], []).

Definition Contains (n : IPNet) (ip : list Z) : bool :=
  let '(nn, m) := networkNumberAndMask n in
  let ip := default ip (To4 ip) in
  (length ip =? length nn)%nat && bool_decide (zip_with Z.land nn m = zip_with Z.land ip m).

(** More steps than there are addresses of sixteen bytes. *)
Definition walkBound : positive := 2 ^ 129.

Section walk.
Context {S : Type}.
Variable ParseCIDR : string → option (list Z * IPNet).
(** The callback: the new state and whether to stop, or a panic. *)
Variable cb : NetworkResource → list Z → S → option (bool * S).

(** One iteration over the addresses of a network: it ends with a panic, with a
    state and [true] when the callback stops, or with [false] after the last one. *)
Definition walkStep (n : NetworkResource) (ipnet : IPNet) (st : list Z * S)
    : (list Z * S) + option (bool * S) :=
  let '(ip, s) := st in
  if Contains ipnet ip then
    match cb n ip s with
    | None => inr None
    | Some (true, s) => inr (Some (true, s))
    | Some (false, s) => inl (inc ip, s)
    end
  else inr (Some (false, s)).

(** [None] when the walk does not end, [Some None] when it panics. *)
Fixpoint yieldIP (networks : list NetworkResource) (s : S) : option (option S) :=
  match networks with
  | [] => Some (Some s)
  | n :: networks =>
      match ParseCIDR (nr_CIDR n) with
      | None => yieldIP networks s
      | Some (ip, ipnet) =>
          match iterate (walkStep n ipnet) walkBound (Mask ip (in_Mask ipnet), s) with
          | inl _ => None
          | inr None => Some None
          | inr (Some (true, s)) => Some (Some s)
          | inr (Some (false, s)) => yieldIP networks s
          end
      end
  end.
End walk.

(** ** The ports *)

Definition isPortReserved (haystack : list Z) (needle : Z) : bool :=
  existsb (fun item => item =? needle) haystack.

Section ports.
Variable intn : nat → Z → Z.

(** The [k]-th draw. *)
Definition Intn (k : nat) (n : Z) : option Z := if n <=? 0 then None else Some (intn k n).

(** The label PICK with the attempts that are left: the draws so far and a port. *)
Fixpoint pickPort (attempts : nat) (k : nat) (nodeUsed : option Bitmap) (reserved dynamic : list Z)
    : option (nat * (string + Z)) :=
  match attempts with
  | O => Some (k, inl "stochastic dynamic port selection failed")
  | S attempts =>
      r ← Intn k (MaxDynamicPort - MinDynamicPort);
      let randPort := MinDynamicPort + r in
      inUse ← (match nodeUsed with Some used => Check_ used randPort | None => Some false end);
      if (inUse : bool) || isPortReserved reserved randPort || isPortReserved dynamic randPort
      then pickPort attempts (S k) nodeUsed reserved dynamic
      else Some (S k, inr randPort)
  end.

Fixpoint stochasticLoop (n : nat) (k : nat) (nodeUsed : option Bitmap) (reserved dynamic : list Z)
    : option (nat * (string + list Z)) :=
  match n with
  | O => Some (k, inr dynamic)
  | S n =>
      r ← pickPort (Z.to_nat maxRandPortAttempts) k nodeUsed reserved dynamic;
      let '(k, port) := r in
      match port with
      | inl err => Some (k, inl err)
      | inr port => stochasticLoop n k nodeUsed reserved (dynamic ++ [port])
      end
  end.

Definition getDynamicPortsStochastic (k : nat) (nodeUsed : option Bitmap) (ask : NetworkResource)
    : option (nat * (string + list Z)) :=
  stochasticLoop (length (nr_DynamicPorts ask)) k nodeUsed (p_Value <$> nr_ReservedPorts ask) [].

(** The loop that sets the reserved ports in the copy. *)
Fixpoint setPorts (used : Bitmap) (ports : list Port) : option Bitmap :=
  match ports with
  | [] => Some used
  | port :: ports => used ← Set_ used (p_Value port); setPorts used ports
  end.

(** The first [n] entries are exchanged with random ones. *)
Fixpoint shuffleLoop (n : nat) (i : nat) (k : nat) (ports : list Z) : option (nat * list Z) :=
  match n with
  | O => Some (k, ports)
  | S n =>
      j ← Intn k (Z.of_nat (length ports));
      shuffleLoop n (S i) (S k) (swap ports i (Z.to_nat j))
  end.

Definition getDynamicPortsPrecise (k : nat) (nodeUsed : option Bitmap) (ask : NetworkResource)
    : option (nat * (string + list Z)) :=
  match (match nodeUsed with Some used => inr used | None => NewBitmap maxValidPort end) with
  | inl err => Some (k, inl err)
  | inr usedSet =>
      usedSet ← setPorts usedSet (nr_ReservedPorts ask);
      availablePorts ← IndexesInRange usedSet false MinDynamicPort MaxDynamicPort;
      let numDyn := length (nr_DynamicPorts ask) in
      if (length availablePorts <? numDyn)%nat then Some (k, inl "dynamic port selection failed")
      else
        r ← shuffleLoop numDyn 0 k availablePorts;
        Some (r.1, inr (take numDyn r.2))
  end.

(** ** The offer *)

(** What the callback captures: the error, the offer, the ask, whose dynamic ports
    the offer shares, and the number of draws. *)
Record assignState := mkAssignState {
  st_err : option string;
  st_out : option NetworkResource;
  st_ask : NetworkResource;
  st_draws : nat
}.
#[export] Instance eta_assignState : Eta assignState := fun r =>
  mkAssignState (st_err r) (st_out r) (st_ask r) (st_draws r).

(** The error of the loop over the reserved ports, if any. *)
Fixpoint checkReserved (used : option Bitmap) (ports : list Port) : option (option string) :=
  match ports with
  | [] => Some None
  | port :: ports =>
      if (p_Value port <? 0) || (maxValidPort <=? p_Value port) then Some (Some ("invalid port " +:+ pretty (p_Value port) +:+ " (out of range)"))
      else
        inUse ← (match used with Some used => Check_ used (p_Value port) | None => Some false end);
        if (inUse : bool) then Some (Some "reserved port collision") else checkReserved used ports
  end.

(** The values are written through the slice that offer and ask share. *)
Definition assignPorts (ports : list Port) (values : list Z) : list Port :=
  zip_with (fun port v => port <| p_Value := v |>) ports values.

Definition offerPorts (n : NetworkResource) (ip : string) (values : list Z) (s : assignState) : assignState :=
  let ask := (st_ask s) <| nr_DynamicPorts ::= fun ports => assignPorts ports values |> in
  s <| st_ask := ask |>
    <| st_out := Some (mkNetworkResource (nr_Device n) "" ip (nr_MBits ask) (nr_ReservedPorts ask) (nr_DynamicPorts ask)) |>
    <| st_err := None |>.

Section assign.
Variable ParseCIDR : string → option (list Z * IPNet).
Variable ipString : list Z → string.

(** The callback of [AssignNetwork]. *)
Definition tryIP (idx : NetworkIndex) (n : NetworkResource) (ip : list Z) (s : assignState)
    : option (bool * assignState) :=
  let ipStr := ipString ip in
  let ask := st_ask s in
  let availBandwidth := default 0 (AvailBandwidth idx !! nr_Device n) in
  let usedBandwidth := default 0 (UsedBandwidth idx !! nr_Device n) in
  if availBandwidth <? wrap64 (usedBandwidth + nr_MBits ask) then
    Some (false, s <| st_err := Some "bandwidth exceeded" |>)
  else
    let used := UsedPorts idx !! ipStr in
    err ← checkReserved used (nr_ReservedPorts ask);
    match err with
    | Some err => Some (false, s <| st_err := Some err |>)
    | None =>
        r ← getDynamicPortsStochastic (st_draws s) used ask;
        let s := s <| st_draws := r.1 |> in
        match r.2 with
        | inr dynPorts => Some (true, offerPorts n ipStr dynPorts s)
        | inl _ =>
            r ← getDynamicPortsPrecise (st_draws s) used ask;
            let s := s <| st_draws := r.1 |> in
            match r.2 with
            | inl err => Some (false, s <| st_err := Some err |>)
            | inr dynPorts => Some (true, offerPorts n ipStr dynPorts s)
            end
        end
    end.

Definition AssignNetwork (idx : NetworkIndex) (ask : NetworkResource) (draws : nat)
    : option (option assignState) :=
  yieldIP ParseCIDR (tryIP idx) (AvailNetworks idx)
    (mkAssignState (Some "no networks available") None ask draws).
End assign.
End ports.
