(* ===== verification/NetworkAssignProps.v ===== *)
(** * What an assigned network guarantees

    The walk of [yieldIP] ends, and the offer of [AssignNetwork] can be added to the
    index without a collision. *)

From stdpp Require Import base gmap strings list.
From Stdlib Require Import ZArith Lia.
From S2P Require Import Prelude GoHeap Bitmap Structs Resources Jobs Allocs Network NetworkAssign.
Open Scope string_scope.
Open Scope list_scope.
Open Scope Z_scope.

#[local] Arguments NewBitmap : simpl never.
#[local] Arguments walkBound : simpl never.

(** ** Iteration *)

Fixpoint iterN {S R} (step : S → S + R) (n : nat) (s : S) : S + R :=
  match n with
  | O => inl s
  | S n => match step s with inl s => iterN step n s | inr r => inr r end
  end.

Lemma iterN_add {S R} (step : S → S + R) n m s :
  iterN step (n + m) s = match iterN step n s with inl s => iterN step m s | inr r => inr r end.
Proof.
  revert s. induction n as [|n IH]; intros s; [done|]. simpl. destruct (step s); [apply IH|done].
Qed.

Lemma iterate_iterN {S R} (step : S → S + R) p : ∀ s, iterate step p s = iterN step (Pos.to_nat p) s.
Proof.
  induction p as [p IH|p IH|]; intros s; cbn [iterate].
  - rewrite Pos2Nat.inj_xI, <- Nat.add_1_r, <- Nat.double_twice. unfold Nat.double.
    rewrite <- Nat.add_assoc, iterN_add, IH. destruct (iterN step (Pos.to_nat p) s) as [s1|r]; [|done].
    rewrite iterN_add, IH. destruct (iterN step (Pos.to_nat p) s1) as [s2|r]; [|done]. simpl. by destruct (step s2).
  - rewrite Pos2Nat.inj_xO, <- Nat.double_twice. unfold Nat.double.
    rewrite iterN_add, IH. destruct (iterN step (Pos.to_nat p) s) as [s1|r]; [apply IH|done].
  - simpl. by destruct (step s).
Qed.

(** ** Addresses as numbers *)

(** The bytes from the last to the first as a number. *)
Fixpoint value (l : list Z) : Z := match l with [] => 0 | b :: l => b + 256 * value l end.

Lemma value_range l : Forall byte_ok l → 0 ≤ value l < 256 ^ Z.of_nat (length l).
Proof.
  induction 1 as [|b l Hb Hl IH]; [simpl; lia|]. cbn [value length].
  rewrite Nat2Z.inj_succ, Z.pow_succ_r by lia. unfold byte_ok in Hb. lia.
Qed.

Lemma value_inj l : ∀ l', Forall byte_ok l → Forall byte_ok l' → length l = length l' → value l = value l' → l = l'.
Proof.
  induction l as [|b l IH]; intros [|b' l'] Hl Hl' Hlen Hv; try done.
  apply Forall_cons in Hl as [Hb Hl], Hl' as [Hb' Hl']. simpl in Hv. unfold byte_ok in *.
  assert (b = b') as <- by lia. f_equal. apply IH; [done|done|by injection Hlen|lia].
Qed.

Lemma incBytes_spec l :
  Forall byte_ok l →
  Forall byte_ok (incBytes l) ∧ length (incBytes l) = length l ∧
  value (incBytes l) = (value l + 1) mod 256 ^ Z.of_nat (length l).
Proof.
  induction 1 as [|b l Hb Hl (I1 & I2 & I3)]; [done|]. cbn [incBytes length value]. unfold byte_ok in Hb.
  rewrite Nat2Z.inj_succ, Z.pow_succ_r by lia. pose proof (value_range l Hl) as Hr.
  destruct (Z.eq_dec b 255) as [->|Hne].
  - change ((255 + 1) mod 256) with 0. cbn [Z.ltb Z.compare]. split_and!.
    + constructor; [done|exact I1].
    + cbn [length]. by rewrite I2.
    + cbn [value]. rewrite I3. replace (255 + 256 * value l + 1) with (256 * (value l + 1)) by lia.
      rewrite Z.mul_mod_distr_l by lia. lia.
  - rewrite Z.mod_small by lia. destruct (Z.ltb_spec 0 (b + 1)); [|lia]. split_and!.
    + constructor; [unfold byte_ok; lia|done].
    + done.
    + cbn [value]. rewrite Z.mod_small; lia.
Qed.

Definition ip_ok (ip : list Z) : Prop := Forall byte_ok ip.

Lemma inc_iter k : ∀ ip,
  ip_ok ip → ip_ok (Nat.iter k inc ip) ∧ length (Nat.iter k inc ip) = length ip ∧
  value (reverse (Nat.iter k inc ip)) = (value (reverse ip) + Z.of_nat k) mod 256 ^ Z.of_nat (length ip).
Proof.
  induction k as [|k IH]; intros ip Hip; cbn [Nat.iter nat_rect].
  - split_and!; [done..|]. rewrite Z.add_0_r, Z.mod_small; [done|].
    rewrite <- (length_reverse ip). apply value_range. by apply Forall_reverse.
  - change (nat_rect _ _ _ k) with (Nat.iter k inc ip). destruct (IH ip Hip) as (I1 & I2 & I3).
    set (x := Nat.iter k inc ip) in *.
    destruct (incBytes_spec (reverse x)) as (J1 & J2 & J3); [by apply Forall_reverse|].
    rewrite length_reverse, I2 in J2, J3. split_and!.
    + unfold ip_ok, inc. by apply Forall_reverse.
    + unfold inc. by rewrite length_reverse, J2.
    + unfold inc. rewrite reverse_involutive, J3, I3, Z.add_mod_idemp_l by lia. f_equal. lia.
Qed.

(** Counting from [ip] reaches every address of its length. *)
Lemma inc_reaches ip x :
  ip_ok ip → ip_ok x → length x = length ip →
  ∃ k, Z.of_nat k < 256 ^ Z.of_nat (length ip) ∧ Nat.iter k inc ip = x.
Proof.
  intros Hip Hx Hlen. set (M := 256 ^ Z.of_nat (length ip)). assert (0 < M) by (unfold M; lia).
  set (k := (value (reverse x) - value (reverse ip)) mod M).
  pose proof (Z.mod_pos_bound (value (reverse x) - value (reverse ip)) M ltac:(lia)) as Hk. fold k in Hk.
  exists (Z.to_nat k). split; [lia|]. destruct (inc_iter (Z.to_nat k) ip Hip) as (I1 & I2 & I3).
  apply (inj reverse). apply value_inj; [by apply Forall_reverse..|by rewrite !length_reverse, I2|].
  rewrite I3, Z2Nat.id by lia. fold M. unfold k. rewrite Z.add_mod_idemp_r by lia.
  replace (value (reverse ip) + (value (reverse x) - value (reverse ip))) with (value (reverse x)) by lia.
  apply Z.mod_small. unfold M. rewrite <- Hlen, <- (length_reverse x). apply value_range. by apply Forall_reverse.
Qed.

(** ** The walk *)

Section walking.
Context {S : Type} (cb : NetworkResource → list Z → S → option (bool * S)).

Lemma walk_inl n ipnet N : ∀ ip s st,
  iterN (walkStep cb n ipnet) N (ip, s) = inl st → ∀ k, (k < N)%nat → Contains ipnet (Nat.iter k inc ip) = true.
Proof.
  induction N as [|N IH]; intros ip s st; [lia|]. cbn [iterN]. unfold walkStep at 1.
  destruct (Contains ipnet ip) eqn:Ec; [|done]. destruct (cb n ip s) as [[[] s']|]; [done| |done].
  intros H k Hk. destruct k as [|k]; [done|]. rewrite Nat.iter_succ_r. eapply IH; [exact H|lia].
Qed.

(** A walk ends when some address is outside the network. *)
Lemma walk_ends n ipnet p ip s x :
  ip_ok ip → ip_ok x → length x = length ip → Contains ipnet x = false → 256 ^ Z.of_nat (length ip) ≤ Z.pos p →
  ∃ r, iterate (walkStep cb n ipnet) p (ip, s) = inr r.
Proof.
  intros Hip Hx Hlen Hout Hp. rewrite iterate_iterN.
  destruct (iterN _ _ _) as [st|r] eqn:E; [|by eexists].
  destruct (inc_reaches ip x Hip Hx Hlen) as (k & Hk & Hreach).
  assert (k < Pos.to_nat p)%nat as Hlt by (apply Nat2Z.inj_lt; rewrite positive_nat_Z; lia).
  pose proof (walk_inl n ipnet _ ip s st E k Hlt) as Hin. rewrite Hreach in Hin. congruence.
Qed.

(** [P] holds while the callback goes on and [Q] when it stops. *)
Context (P : S → Prop) (Q : NetworkResource → list Z → S → Prop).
Definition cb_ok (n : NetworkResource) : Prop :=
  ∀ ip s, P s → ∃ stop s', cb n ip s = Some (stop, s') ∧ if (stop : bool) then Q n ip s' else P s'.

Lemma walk_spec n ipnet N : cb_ok n → ∀ ip s r,
  P s → iterN (walkStep cb n ipnet) N (ip, s) = inr r →
  (∃ s', r = Some (false, s') ∧ P s') ∨ (∃ ip' s', r = Some (true, s') ∧ Contains ipnet ip' = true ∧ Q n ip' s').
Proof.
  intros Hcb. induction N as [|N IH]; intros ip s r Hs; [done|]. cbn [iterN]. unfold walkStep at 1.
  destruct (Contains ipnet ip) eqn:Ec; [|intros [= <-]; left; by exists s].
  destruct (Hcb ip s Hs) as (stop & s' & -> & Hs'). destruct stop.
  - intros [= <-]. right. by exists ip, s'.
  - by apply IH.
Qed.

(** The addresses of a network are at most 16 bytes, and not all of that length. *)
Definition walkable (ParseCIDR : string → option (list Z * IPNet)) (n : NetworkResource) : Prop :=
  ∀ ip ipnet, ParseCIDR (nr_CIDR n) = Some (ip, ipnet) →
    ip_ok (Mask ip (in_Mask ipnet)) ∧ (length (Mask ip (in_Mask ipnet)) ≤ 16)%nat ∧
    ∃ x, ip_ok x ∧ length x = length (Mask ip (in_Mask ipnet)) ∧ Contains ipnet x = false.

Lemma yieldIP_spec ParseCIDR networks : ∀ s,
  (∀ n, n ∈ networks → cb_ok n ∧ walkable ParseCIDR n) → P s →
  ∃ s', yieldIP ParseCIDR cb networks s = Some (Some s') ∧
    (P s' ∨ ∃ n ip0 ipnet ip, n ∈ networks ∧ ParseCIDR (nr_CIDR n) = Some (ip0, ipnet) ∧ Contains ipnet ip = true ∧ Q n ip s').
Proof.
  induction networks as [|n networks IH]; intros s Hn Hs; [exists s; auto|]. cbn [yieldIP].
  assert (∀ s, P s → ∃ s', yieldIP ParseCIDR cb networks s = Some (Some s') ∧
    (P s' ∨ ∃ n' ip0 ipnet ip, n' ∈ n :: networks ∧ ParseCIDR (nr_CIDR n') = Some (ip0, ipnet) ∧ Contains ipnet ip = true ∧ Q n' ip s')) as Hrest.
  { intros s1 Hs1. destruct (IH s1) as (s' & E & H); [intros m Hm; apply Hn; by right|done|]. exists s'. split; [done|].
    destruct H as [?|(m & ip0 & net & ip & ? & ? & ? & ?)]; [by left|]. right. exists m, ip0, net, ip. split_and!; try done. by right. }
  destruct (ParseCIDR (nr_CIDR n)) as [[ip0 ipnet]|] eqn:Ep; [|by apply Hrest].
  destruct (Hn n) as [Hcb Hw]; [left|]. destruct (Hw ip0 ipnet Ep) as (W1 & W2 & x & W3 & W4 & W5).
  destruct (walk_ends n ipnet walkBound (Mask ip0 (in_Mask ipnet)) s x) as [r Er]; [done..| |].
  { etrans; [apply Z.pow_le_mono_r; [lia|apply inj_le, W2]|]. vm_compute. discriminate. }
  rewrite Er. rewrite iterate_iterN in Er.
  destruct (walk_spec n ipnet _ Hcb _ s r Hs Er) as [(s' & -> & Hs')|(ip & s' & -> & Hc & Hq)]; clear Er; [by apply Hrest|].
  exists s'. split; [done|]. right. exists n, ip0, ipnet, ip. split_and!; try done. left.
Qed.
End walking.

(** ** The ports *)

Section choosing.
Context (intn : nat → Z → Z).
Context (intn_range : ∀ k n, 0 < n → 0 ≤ intn k n < n).
Context (used : option Bitmap).
Context (used_size : ∀ b, used = Some b → Size b = maxValidPort).

Definition free_port (p : Z) : Prop := ∀ b, used = Some b → bit b p = false.

(** Distinct free dynamic ports that are not reserved. *)
Definition good_ports (reserved l : list Z) : Prop :=
  NoDup l ∧ ∀ v, v ∈ l → MinDynamicPort ≤ v ≤ MaxDynamicPort ∧ free_port v ∧ v ∉ reserved.

Lemma isPortReserved_spec l v : isPortReserved l v = true ↔ v ∈ l.
Proof.
  unfold isPortReserved. rewrite existsb_exists. setoid_rewrite <- list_elem_of_In. split.
  - intros (x & Hx & ->%Z.eqb_eq). done.
  - intros Hv. exists v. by rewrite Z.eqb_refl.
Qed.

Lemma check_used p : 0 ≤ p < maxValidPort →
  ∃ c, match used with Some b => Check_ b p | None => Some false end = Some c ∧ (c = false ↔ free_port p).
Proof.
  intros Hp. unfold free_port. destruct used as [b|] eqn:E.
  - rewrite Check_in by (by rewrite (used_size b)). eexists. split; [done|]. split; [by intros ? ? [= <-]|by intros H; apply H].
  - exists false. done.
Qed.

Lemma pickPort_spec attempts reserved dynamic : ∀ k,
  ∃ k' r, pickPort intn attempts k used reserved dynamic = Some (k', r) ∧
    ∀ p, r = inr p → MinDynamicPort ≤ p ≤ MaxDynamicPort ∧ free_port p ∧ (p ∉ reserved) ∧ p ∉ dynamic.
Proof.
  induction attempts as [|attempts IH]; intros k; cbn [pickPort]; [eexists _, _; by split|].
  unfold Intn, MaxDynamicPort, MinDynamicPort in *. cbn [Z.sub Z.leb Z.compare Z.add Z.opp Z.pos_sub Pos.compare Pos.compare_cont mbind option_bind].
  pose proof (intn_range k (60000 - 20000) ltac:(lia)) as Hr. change (60000 - 20000) with 40000 in *.
  change (40000 <=? 0) with false. cbn [mbind option_bind].
  destruct (check_used (20000 + intn k 40000)) as (c & -> & Hc); [unfold maxValidPort; lia|]. cbn [mbind option_bind].
  destruct c; cbn [orb]; [apply IH|].
  destruct (isPortReserved reserved _) eqn:E1; cbn [orb]; [apply IH|].
  destruct (isPortReserved dynamic _) eqn:E2; cbn [orb]; [apply IH|].
  eexists _, _. split; [done|]. intros p [= <-]. rewrite <- !isPortReserved_spec, E1, E2.
  split_and!; [lia|lia|by apply Hc|done|done].
Qed.

Lemma stochasticLoop_spec reserved n : ∀ k dynamic,
  good_ports reserved dynamic →
  ∃ k' r, stochasticLoop intn n k used reserved dynamic = Some (k', r) ∧
    ∀ l, r = inr l → good_ports reserved l ∧ length l = (length dynamic + n)%nat.
Proof.
  induction n as [|n IH]; intros k dynamic Hg; cbn [stochasticLoop].
  { eexists _, _. split; [done|]. intros l [= <-]. split; [done|lia]. }
  destruct (pickPort_spec (Z.to_nat maxRandPortAttempts) reserved dynamic k) as (k1 & r & -> & Hr). cbn [mbind option_bind].
  destruct r as [err|p]; [eexists _, _; by split|]. destruct (Hr p eq_refl) as (P1 & P2 & P3 & P4).
  destruct (IH k1 (dynamic ++ [p])) as (k2 & r2 & E & H2).
  - destruct Hg as [Hnd Hv]. split.
    + apply NoDup_app. split_and!; [done| |apply NoDup_singleton]. by intros x Hx ->%list_elem_of_singleton.
    + intros v [Hin| ->%list_elem_of_singleton]%elem_of_app; [by apply Hv|done].
  - exists k2, r2. split; [done|]. intros l Hl. destruct (H2 l Hl) as [? Hlen]. split; [done|].
    rewrite length_app in Hlen. simpl in Hlen. lia.
Qed.

Lemma setPorts_spec ports : ∀ b,
  Size b = maxValidPort → Forall valid_port (p_Value <$> ports) →
  ∃ b', setPorts b ports = Some b' ∧ Size b' = maxValidPort ∧
    ∀ j, bit b' j = true ↔ bit b j = true ∨ j ∈ p_Value <$> ports.
Proof.
  induction ports as [|p ports IH]; intros b Hb Hv; cbn [setPorts fmap list_fmap] in *.
  { exists b. split_and!; try done. intros j. rewrite elem_of_nil. tauto. }
  apply Forall_cons in Hv as [Hp Hv]. destruct (Set_spec b (p_Value p)) as (b1 & -> & S1 & S2); [by rewrite Hb|].
  cbn [mbind option_bind]. destruct (IH b1) as (b' & E & H1 & H2); [congruence|done|]. exists b'. split_and!; [done..|].
  intros j. rewrite H2, S2, orb_true_iff, Z.eqb_eq, elem_of_cons. tauto.
Qed.

Lemma shuffleLoop_spec n : ∀ i k ports,
  (i + n ≤ length ports)%nat → ∃ k' l, shuffleLoop intn n i k ports = Some (k', l) ∧ l ≡ₚ ports.
Proof.
  induction n as [|n IH]; intros i k ports Hlen; cbn [shuffleLoop]; [by eexists _, _|]. unfold Intn.
  destruct (Z.leb_spec (Z.of_nat (length ports)) 0); [lia|]. cbn [mbind option_bind].
  destruct (IH (S i) (S k) (swap ports i (Z.to_nat (intn k (Z.of_nat (length ports)))))) as (k' & l & -> & Hl).
  - rewrite length_swap. lia.
  - exists k', l. split; [done|]. rewrite Hl. apply swap_perm.
Qed.

Lemma precise_spec k ask :
  Forall valid_port (p_Value <$> nr_ReservedPorts ask) →
  ∃ k' r, getDynamicPortsPrecise intn k used ask = Some (k', r) ∧
    ∀ l, r = inr l → good_ports (p_Value <$> nr_ReservedPorts ask) l ∧ length l = length (nr_DynamicPorts ask).
Proof.
  intros Hv. unfold getDynamicPortsPrecise.
  assert (∃ b, match used with Some b => inr b | None => NewBitmap maxValidPort end = inr b ∧ Size b = maxValidPort ∧
    ∀ j, bit b j = false → free_port j) as (b & -> & Hb & Hfree).
  { unfold free_port. destruct used as [b|].
    - exists b. split_and!; [done|by apply used_size|]. intros j Hj ? [= <-]. done.
    - destruct (NewBitmap_spec maxValidPort) as (b & E & Hs & _); [done..|]. exists b. by split_and!. }
  destruct (setPorts_spec (nr_ReservedPorts ask) b Hb Hv) as (b' & -> & Hb' & Hset). cbn [mbind option_bind].
  rewrite IndexesInRange_spec by done. cbn [mbind option_bind].
  set (avail := filter _ _). destruct (Nat.ltb_spec (length avail) (length (nr_DynamicPorts ask))); [eexists _, _; by split|].
  destruct (shuffleLoop_spec (length (nr_DynamicPorts ask)) 0 k avail) as (k' & l & -> & Hl); [lia|]. cbn [mbind option_bind fst snd].
  eexists _, _. split; [done|]. intros l' [= <-].
  pose proof (Permutation_length Hl). rewrite length_take. split; [split|lia].
  - eapply sublist_NoDup; [|apply sublist_take]. rewrite Hl. apply NoDup_filter, NoDup_seqZ.
  - intros v Hin%subseteq_take. rewrite Hl in Hin. apply list_elem_of_filter in Hin as [Hbit Hseq%elem_of_seqZ].
    rewrite Hb' in Hseq. unfold MinDynamicPort, MaxDynamicPort, maxValidPort in *.
    assert (¬ (bit b v = true ∨ v ∈ p_Value <$> nr_ReservedPorts ask)) as Hn by (by rewrite <- Hset, Hbit).
    split_and!; [lia|lia|apply Hfree, not_true_iff_false|]; tauto.
Qed.

Lemma checkReserved_spec ports :
  ∃ e, checkReserved used ports = Some e ∧
    (e = None → Forall valid_port (p_Value <$> ports) ∧ ∀ v, v ∈ p_Value <$> ports → free_port v).
Proof.
  induction ports as [|p ports IH]; cbn [checkReserved fmap list_fmap].
  { eexists. split; [done|]. intros _. split; [constructor|by intros v ?%not_elem_of_nil]. }
  destruct (Z.ltb_spec (p_Value p) 0); cbn [orb]; [eexists; by split|].
  destruct (Z.leb_spec maxValidPort (p_Value p)); [eexists; by split|].
  destruct (check_used (p_Value p)) as (c & -> & Hc); [lia|]. cbn [mbind option_bind].
  destruct c; [eexists; by split|]. destruct IH as (e & -> & He). exists e. split; [done|].
  intros ->. destruct (He eq_refl) as [H1 H2]. split; [by constructor|].
  intros v [->|?]%elem_of_cons; [by apply Hc|auto].
Qed.
End choosing.

(** ** The offer *)

Section offering.
Context (intn : nat → Z → Z).
Context (intn_range : ∀ k n, 0 < n → 0 ≤ intn k n < n).
Context (ParseCIDR : string → option (list Z * IPNet)) (ipString : list Z → string).
Context (idx : NetworkIndex) (idx_sizes : sizes_ok idx).
Context (ask : NetworkResource).

Definition undecided (s : assignState) : Prop := st_ask s = ask ∧ st_out s = None ∧ is_Some (st_err s).

Record offered (n : NetworkResource) (ip : list Z) (s : assignState) (offer : NetworkResource) (values : list Z) : Prop := {
  of_err : st_err s = None;
  of_out : st_out s = Some offer;
  of_eq : offer = mkNetworkResource (nr_Device n) "" (ipString ip) (nr_MBits ask) (nr_ReservedPorts ask)
    (assignPorts (nr_DynamicPorts ask) values);
  of_length : length values = length (nr_DynamicPorts ask);
  of_dynamic : good_ports (UsedPorts idx !! ipString ip) (p_Value <$> nr_ReservedPorts ask) values;
  of_valid : Forall valid_port (p_Value <$> nr_ReservedPorts ask);
  of_reserved : ∀ v, v ∈ p_Value <$> nr_ReservedPorts ask → free_port (UsedPorts idx !! ipString ip) v;
  of_bandwidth : wrap64 (default 0 (UsedBandwidth idx !! nr_Device n) + nr_MBits ask) ≤
    default 0 (AvailBandwidth idx !! nr_Device n)
}.

Lemma tryIP_spec n : cb_ok (tryIP intn ipString idx) undecided (fun n ip s => ∃ offer values, offered n ip s offer values) n.
Proof.
  intros ip s (Ha & Ho & He). unfold tryIP.
  destruct (Z.ltb_spec (default 0 (AvailBandwidth idx !! nr_Device n))
    (wrap64 (default 0 (UsedBandwidth idx !! nr_Device n) + nr_MBits (st_ask s)))) as [Hbw|Hbw].
  { eexists _, _. split; [done|]. by split_and!. }
  rewrite Ha in *. set (used := UsedPorts idx !! ipString ip).
  assert (∀ b, used = Some b → Size b = maxValidPort) as Hsz by (intros b; apply idx_sizes).
  destruct (checkReserved_spec used Hsz (nr_ReservedPorts ask)) as (e & -> & Hres). cbn [mbind option_bind].
  destruct e as [e|]; [eexists _, _; split; [done|]; by split_and!|]. destruct (Hres eq_refl) as [Hv Hfree].
  destruct (stochasticLoop_spec intn intn_range used Hsz (p_Value <$> nr_ReservedPorts ask)
    (length (nr_DynamicPorts ask)) (st_draws s) []) as (k & r & E & Hr).
  { split; [constructor|by intros v ?%not_elem_of_nil]. }
  unfold getDynamicPortsStochastic. rewrite E. cbn [mbind option_bind fst snd]. destruct r as [err|values].
  - destruct (precise_spec intn used Hsz k ask Hv) as (k' & r & E' & Hr'). cbn [upd_field st_draws]. simpl.
    rewrite E'. cbn [mbind option_bind fst snd]. destruct r as [err'|values].
    + eexists _, _. split; [done|]. by split_and!.
    + destruct (Hr' values eq_refl) as [Hg Hlen]. eexists _, _. split; [done|]. unfold offerPorts. simpl. rewrite Ha.
      eexists _, values. by split.
  - destruct (Hr values eq_refl) as [Hg Hlen]. eexists _, _. split; [done|]. unfold offerPorts. simpl. rewrite Ha.
    eexists _, values. by split.
Qed.

Lemma assignPorts_values ports values : length values = length ports → p_Value <$> assignPorts ports values = values.
Proof.
  revert values. induction ports as [|p ports IH]; intros [|v values] Hl; try done.
  cbn [assignPorts zip_with fmap list_fmap]. f_equal. apply IH. by injection Hl.
Qed.

Lemma assignPorts_labels ports values :
  length values = length ports → p_Label <$> assignPorts ports values = p_Label <$> ports.
Proof.
  revert values. induction ports as [|p ports IH]; intros [|v values] Hl; try done.
  cbn [assignPorts zip_with fmap list_fmap]. f_equal. apply IH. by injection Hl.
Qed.

(** The ports of an offer are new to what the index holds. *)
Lemma offered_free n ip s offer values ns :
  offered n ip s offer values → holds idx ns → NoDup (p_Value <$> nr_ReservedPorts ask) → ports_free (ns ++ [offer]).
Proof.
  intros [_ _ -> Hlen [Hnd Hdyn] Hv Hres _] Hh Hndr. set (offer := mkNetworkResource _ _ _ _ _ _).
  assert (ports_of offer = (p_Value <$> nr_ReservedPorts ask) ++ values) as Hports.
  { unfold ports_of. simpl. by rewrite fmap_app, assignPorts_values. }
  destruct (bitmapOf_spec idx (nr_IP offer) idx_sizes) as (used & idx' & _ & _ & _ & _ & _ & _ & Hbits).
  assert (∀ p, free_port (UsedPorts idx !! ipString ip) p → bit used p = false) as Hfree.
  { intros p Hp. apply not_true_iff_false. rewrite (Hbits ns Hh). simpl. intros Hin.
    destruct (UsedPorts idx !! ipString ip) as [b|] eqn:Eb.
    - apply (h_used idx ns Hh _ _ Eb) in Hin. rewrite (Hp b eq_refl) in Hin. done.
    - by apply (h_unused idx ns Hh _ p) in Eb. }
  apply (ports_free_snoc ns offer used (h_free idx ns Hh) (Hbits ns Hh)). rewrite Hports, NoDup_app, !Forall_app.
  split_and!; try done.
  - apply Forall_forall. intros v Hin. destruct (Hdyn v Hin) as [? _].
    unfold valid_port, maxValidPort, MinDynamicPort, MaxDynamicPort in *. lia.
  - intros v Hr Hin. by destruct (Hdyn v Hin) as (_ & _ & ?).
  - apply Forall_forall. intros v Hin. by apply Hfree, Hres.
  - apply Forall_forall. intros v Hin. apply Hfree. by destruct (Hdyn v Hin) as (_ & ? & _).
Qed.
End offering.

(** A new reservation leaves what is available alone. *)
Lemma AddReserved_avail idx n idx' c :
  AddReserved idx n = Some (idx', c) → AvailNetworks idx' = AvailNetworks idx ∧ AvailBandwidth idx' = AvailBandwidth idx.
Proof.
  unfold AddReserved. destruct (bitmapOf idx (nr_IP n)) as [used idx1] eqn:E.
  assert (AvailNetworks idx1 = AvailNetworks idx ∧ AvailBandwidth idx1 = AvailBandwidth idx) as Hb.
  { unfold bitmapOf in E. destruct (UsedPorts idx !! nr_IP n); [by injection E as _ <-|].
    destruct (getBitmap (bitmapPool idx)). by injection E as _ <-. }
  destruct (addPorts _ _ _) as [[[u c'] []]|]; simpl; [..|done]; by intros [= <- _].
Qed.

(** An offer answers the ask with an address of one of the networks. *)
Record answersAsk (ParseCIDR : string → option (list Z * IPNet)) (ipString : list Z → string)
    (idx : NetworkIndex) (ask offer : NetworkResource) : Prop := {
  aa_network : ∃ n ip0 ipnet ip, n ∈ AvailNetworks idx ∧ ParseCIDR (nr_CIDR n) = Some (ip0, ipnet) ∧
    Contains ipnet ip = true ∧ nr_Device offer = nr_Device n ∧ nr_IP offer = ipString ip;
  aa_mbits : nr_MBits offer = nr_MBits ask;
  aa_reserved : nr_ReservedPorts offer = nr_ReservedPorts ask;
  aa_labels : p_Label <$> nr_DynamicPorts offer = p_Label <$> nr_DynamicPorts ask;
  aa_dynamic : ∀ p, p ∈ nr_DynamicPorts offer → MinDynamicPort ≤ p_Value p ≤ MaxDynamicPort;
  aa_bandwidth : wrap64 (default 0 (UsedBandwidth idx !! nr_Device offer) + nr_MBits ask)
    ≤ default 0 (AvailBandwidth idx !! nr_Device offer)
}.

Lemma AssignNetwork_spec intn ParseCIDR ipString idx ask draws :
  (∀ k n, 0 < n → 0 ≤ intn k n < n) → sizes_ok idx → (∀ n, n ∈ AvailNetworks idx → walkable ParseCIDR n) →
  ∃ s, AssignNetwork intn ParseCIDR ipString idx ask draws = Some (Some s) ∧
    ((is_Some (st_err s) ∧ st_out s = None ∧ st_ask s = ask) ∨
     ∃ offer idx' c, st_err s = None ∧ st_out s = Some offer ∧ answersAsk ParseCIDR ipString idx ask offer ∧
       AddReserved idx offer = Some (idx', c) ∧ sizes_ok idx' ∧
       (NoDup (p_Value <$> nr_ReservedPorts ask) → ∀ ns, holds idx ns → c = false ∧ holds idx' (ns ++ [offer]))).
Proof.
  intros Hintn Hsz Hw. unfold AssignNetwork.
  destruct (yieldIP_spec (tryIP intn ipString idx) (undecided ask)
    (fun n ip s => ∃ offer values, offered ipString idx ask n ip s offer values) ParseCIDR (AvailNetworks idx)
    (mkAssignState (Some "no networks available") None ask draws)) as (s & E & Hs).
  { intros n Hn. split; [by apply tryIP_spec|by apply Hw]. }
  { by split_and!. }
  exists s. split; [done|]. destruct Hs as [(H1 & H2 & H3)|(n & ip0 & ipnet & ip & Hn & Hp & Hc & offer & values & Hof)];
    [left; by split_and!|right].
  destruct (AddReserved_spec idx offer Hsz) as (idx' & c & Eadd & Hsz' & _ & Hadd).
  pose proof (fun ns Hh Hnd => offered_free ipString idx Hsz ask n ip s offer values ns Hof Hh Hnd) as Hfree.
  exists offer, idx', c. destruct Hof as [O1 O2 O3 O4 [O5 O5'] O6 O7 O8]. split_and!; try done.
  - subst offer. split; simpl; try done.
    + by exists n, ip0, ipnet, ip.
    + by apply assignPorts_labels.
    + intros p Hin. simpl in Hin. apply O5'. rewrite <- (assignPorts_values _ _ O4). by apply list_elem_of_fmap_2.
  - intros Hnd ns Hh. destruct (Hadd ns Hh) as [Hc1 Hc2]. assert (c = false) as -> by (by apply Hc1, Hfree). auto.
Qed.

(** C22. An assigned network is safe to use.  For a node whose networks are not whole
    address spaces, [AssignNetwork] ends and does not panic.  Either it reports an
    error and leaves the ask alone, or it offers an address of one of the node's
    networks, with the reserved ports and the labels of the ask and one port of the
    dynamic range for each dynamic port: the bandwidth of the device suffices, and
    adding the offer to the index reports no collision. *)
Theorem assigned_network_is_free intn ParseCIDR ipString idx ns ask draws :
  (∀ k n, 0 < n → 0 ≤ intn k n < n) → sizes_ok idx → holds idx ns →
  NoDup (p_Value <$> nr_ReservedPorts ask) → (∀ n, n ∈ AvailNetworks idx → walkable ParseCIDR n) →
  ∃ s, AssignNetwork intn ParseCIDR ipString idx ask draws = Some (Some s) ∧
    ((is_Some (st_err s) ∧ st_out s = None ∧ st_ask s = ask) ∨
     ∃ offer idx', st_err s = None ∧ st_out s = Some offer ∧ answersAsk ParseCIDR ipString idx ask offer ∧
       AddReserved idx offer = Some (idx', false) ∧ holds idx' (ns ++ [offer])).
Proof.
  intros Hintn Hsz Hh Hnd Hw.
  destruct (AssignNetwork_spec intn ParseCIDR ipString idx ask draws Hintn Hsz Hw) as (s & E & Hs).
  exists s. split; [done|]. destruct Hs as [?|(offer & idx' & c & H1 & H2 & H3 & H4 & _ & H5)]; [by left|right].
  destruct (H5 Hnd ns Hh) as [-> Hh']. eauto 10.
Qed.

(** ** A node with one network *)

Definition demoNetwork : NetworkResource := mkNetworkResource "eth0" "10.0.0.0/30" "" 100 [] [].
Definition demoParse (s : string) : option (list Z * IPNet) :=
  if bool_decide (s = "10.0.0.0/30")
  then Some (v4InV6Prefix ++ [10; 0; 0; 1], mkIPNet [10; 0; 0; 0] [255; 255; 255; 252]) else None.
Definition dotted (ip : list Z) : string :=
  match ip with
  | [] => ""
  | b :: rest => foldl (fun s b => s +:+ "." +:+ itoa b) (itoa b) rest
  end.
Definition demoIndex : NetworkIndex :=
  (NewNetworkIndex []) <| AvailNetworks := [demoNetwork] |> <| AvailBandwidth := {["eth0" := 100]} |>.
Definition demoAsk : NetworkResource := mkNetworkResource "" "" "" 50 [mkPort "http" 80] [mkPort "rpc" 0; mkPort "metrics" 0].

Lemma demoIndex_holds : sizes_ok demoIndex ∧ holds demoIndex [].
Proof.
  split; [by split; [constructor|]|]. split; simpl; try done.
  - split; [by intros n ?%not_elem_of_nil|constructor].
  - intros ip p _. apply not_elem_of_nil.
  - intros dev. rewrite lookup_empty. split; [by intros []|]. by intros (n & ?%not_elem_of_nil & _).
Qed.

Lemma assigned_network_witness :
  ∃ s, AssignNetwork (fun k n => (7 * Z.of_nat k) mod n) demoParse dotted demoIndex demoAsk 0 = Some (Some s) ∧
    st_out s = Some (mkNetworkResource "eth0" "" "10.0.0.0" 50 [mkPort "http" 80] [mkPort "rpc" 20000; mkPort "metrics" 20007]).
Proof.
  destruct (assigned_network_is_free (fun k n => (7 * Z.of_nat k) mod n) demoParse dotted demoIndex [] demoAsk 0)
    as (s & Hs & _).
  - intros k n Hn. apply Z.mod_pos_bound, Hn.
  - apply demoIndex_holds.
  - apply demoIndex_holds.
  - apply NoDup_singleton.
  - intros n ->%list_elem_of_singleton ip ipnet [= <- <-]. split_and!.
    + vm_compute. repeat constructor; discriminate.
    + vm_compute. repeat constructor.
    + exists [11; 0; 0; 0]. split_and!; [repeat constructor; discriminate|reflexivity|reflexivity].
  - exists s. split; [exact Hs|]. vm_compute in Hs. injection Hs as <-. reflexivity.
Defined.
