(* ===== verification/Fit.v ===== *)
(** * Do the allocations fit on the node? (src/nomad/structs/funcs.go)

    [RemoveAllocs] and [FilterTerminalAllocs], which delete from a slice by
    swapping with its last element, and [AllocsFit], which decides whether a set
    of allocations fits on a node. *)

From stdpp Require Import base gmap strings list.
From Stdlib Require Import ZArith Lia.
From S2P Require Import Prelude Bitmap Structs Resources Jobs Allocs Network.
Open Scope string_scope.
Open Scope list_scope.
Open Scope Z_scope.

(** ** Deletion by swapping with the last element *)

Section swap_delete.
Context {A S : Type} (P : A → bool) (f : S → A → S).

(** [l] is the slice up to [n], [i] the loop variable.  An element that satisfies
    [P] is recorded in [s] and replaced by the last one, and the same index is
    looked at again. *)
Fixpoint swapDelete (fuel : nat) (l : list A) (i : nat) (s : S) : list A * S :=
  match fuel with
  | O => (l, s)
  | Datatypes.S fuel =>
      match l !! i, last l with
      | Some x, Some y =>
          if P x then swapDelete fuel (take (length l - 1) (<[i := y]> l)) i (f s x)
          else swapDelete fuel l (Datatypes.S i) s
      | _, _ => (l, s)
      end
  end.

Lemma swap_last (l : list A) i x y :
  l !! i = Some x → last l = Some y → l ≡ₚ x :: take (length l - 1) (<[i := y]> l).
Proof.
  intros Hx Hy. apply last_Some in Hy as [l' ->]. rewrite length_app. simpl.
  replace (length l' + 1 - 1)%nat with (length l') by lia.
  destruct (decide (i < length l')%nat) as [Hi|Hi].
  - rewrite lookup_app_l in Hx by done. rewrite insert_app_l by done.
    rewrite take_app_length' by by rewrite length_insert.
    apply list_elem_of_split_length in Hx as (l1 & l2 & -> & ->).
    rewrite insert_app_r_alt by lia. rewrite Nat.sub_diag. simpl.
    rewrite <- app_assoc. simpl. rewrite <- Permutation_middle. constructor.
    by rewrite (Permutation_app_comm l2 [y]).
  - apply lookup_lt_Some in Hx as Hlt. rewrite length_app in Hlt. simpl in Hlt.
    assert (i = length l') as -> by lia.
    rewrite list_lookup_middle in Hx by done. injection Hx as ->.
    rewrite insert_app_r_alt by lia. rewrite Nat.sub_diag. simpl.
    rewrite take_app_length. by rewrite Permutation_app_comm.
Qed.

(** The deleted elements in the order in which the loop meets them. *)
Lemma swapDelete_spec fuel : ∀ l i s,
  (length l - i ≤ fuel)%nat → (∀ j x, (j < i)%nat → l !! j = Some x → P x = false) →
  ∃ gone, (swapDelete fuel l i s).2 = foldl f s gone ∧ Forall (fun x => P x = true) gone ∧
    l ≡ₚ (swapDelete fuel l i s).1 ++ gone ∧
    Forall (fun x => P x = false) (swapDelete fuel l i s).1.
Proof.
  assert (∀ l i, (length l - i = 0)%nat → (∀ j x, (j < i)%nat → l !! j = Some x → P x = false) →
    Forall (fun x => P x = false) l) as Hdone.
  { intros l i Hl Hi. apply Forall_lookup. intros j x Hj. apply (Hi j x); [|done].
    apply lookup_lt_Some in Hj. lia. }
  induction fuel as [|fuel IH]; intros l i s Hf Hi; simpl.
  { exists []. rewrite app_nil_r. split_and!; [done|constructor|done|]. apply (Hdone l i); [lia|done]. }
  destruct (l !! i) as [x|] eqn:Hx.
  - pose proof (lookup_lt_Some _ _ _ Hx) as Hlt.
    destruct (last l) as [y|] eqn:Hy; [|by apply last_None in Hy as ->].
    destruct (P x) eqn:HP.
    + set (l1 := take (length l - 1) (<[i:=y]> l)).
      assert (l ≡ₚ x :: l1) as Hp by by apply swap_last.
      destruct (IH l1 i (f s x)) as (gone & E & Hg & Hperm & Hok).
      * unfold l1. rewrite length_take, length_insert. lia.
      * intros j z Hj Hz. apply (Hi j z Hj). unfold l1 in Hz.
        apply lookup_take_Some in Hz as [Hz _]. by rewrite list_lookup_insert_ne in Hz by lia.
      * exists (x :: gone). split_and!; [done|by constructor| |done].
        rewrite Hp, Hperm at 1. by rewrite Permutation_middle.
    + apply IH; [lia|]. intros j z Hj Hz. destruct (decide (j = i)) as [->|]; [congruence|].
      apply (Hi j z); [lia|done].
  - apply lookup_ge_None in Hx. exists []. rewrite app_nil_r. split_and!; [done|constructor|done|].
    apply (Hdone l i); [lia|done].
Qed.
End swap_delete.

Definition RemoveAllocs (alloc remove : list Allocation) : list Allocation :=
  let removeSet : gset string := list_to_set (al_ID <$> remove) in
  (swapDelete (fun a => bool_decide (al_ID a ∈ removeSet)) (fun _ _ => tt)
     (length alloc) alloc 0 tt).1.

(** The map entry of a terminal allocation: the one with the highest create
    index is kept. *)
Definition recordTerminal (m : gmap string Allocation) (a : Allocation) : gmap string Allocation :=
  match m !! al_Name a with
  | None => <[al_Name a := a]> m
  | Some alloc => if al_CreateIndex alloc <? al_CreateIndex a then <[al_Name a := a]> m else m
  end.

Definition FilterTerminalAllocs (allocs : list Allocation) : list Allocation * gmap string Allocation :=
  swapDelete AllocTerminal recordTerminal (length allocs) allocs 0 ∅.

(** ** [AllocsFit] *)

Inductive FitError := NoResourcesSet (allocID : string).

Section fit.
(** The order in which Go ranges over the tasks of an allocation. *)
Variable range : gmap string Resources → list Resources.

(** The loop that sums up what the allocations use. *)
Fixpoint addUsed (used : Resources) (allocs : list Allocation) : FitError + Resources :=
  match allocs with
  | [] => inr used
  | alloc :: allocs =>
      match al_Resources alloc, al_TaskResources alloc with
      | Some r, _ => addUsed (Add used (Some r)) allocs
      | None, Some tasks =>
          let used := Add used (al_SharedResources alloc) in
          addUsed (foldl (fun used r => Add used (Some r)) used (range tasks)) allocs
      | None, None => inl (NoResourcesSet (al_ID alloc))
      end
  end.

(** [pool] is the content of [bitmapPool].  The results of Go are the verdict, the
    exhausted dimension and the resources in use, or an error; [None] is a panic. *)
Definition AllocsFit (node : Node) (allocs : list Allocation) (netIdx : option NetworkIndex)
    (pool : list Bitmap) : option (FitError + (bool * string * Resources)) :=
  match addUsed (Add zeroResources (nd_Reserved node)) allocs with
  | inl err => Some (inl err)
  | inr used =>
      let '(superset, dimension) := Superset (nd_Resources node) used in
      if negb superset then Some (inr (false, dimension, used))
      else
        netIdx' ←
          match netIdx with
          | Some idx => Some (Some idx)
          | None =>
              r ← SetNode (NewNetworkIndex pool) node;
              if (r.2 : bool) then Some None
              else
                r ← AddAllocs range r.1 allocs;
                Some (if (r.2 : bool) then None else Some r.1)
          end;
        Some (inr match netIdx' with
                  | None => (false, "reserved port collision", used)
                  | Some idx =>
                      if Overcommitted idx then (false, "bandwidth exceeded", used)
                      else (true, "", used)
                  end)
  end.

(** ** The specification of a fit *)

(** What an allocation uses of a dimension. *)
Definition allocUse (d : dim) (a : Allocation) : Z :=
  match al_Resources a, al_TaskResources a with
  | Some r, _ => amount r d
  | None, Some tasks =>
      from_option (fun r => amount r d) 0 (al_SharedResources a) +
      foldr (fun r acc => amount r d + acc) 0 (vals tasks)
  | None, None => 0
  end.

Definition totalUse (d : dim) (node : Node) (allocs : list Allocation) : Z :=
  from_option (fun r => amount r d) 0 (nd_Reserved node) +
  foldr (fun a acc => allocUse d a + acc) 0 allocs.

Definition has_resources (a : Allocation) : Prop :=
  is_Some (al_Resources a) ∨ is_Some (al_TaskResources a).

(** The networks in use on the node: its own reservations and those of the tasks. *)
Definition usedNetworks (node : Node) (allocs : list Allocation) : list NetworkResource :=
  from_option r_Networks [] (nd_Reserved node) ++ allocNetworks vals allocs.

(** The bandwidth of a device: that of its last entry in the node's networks. *)
Definition availBandwidth (node : Node) (dev : string) : Z :=
  foldl (fun bw n => if bool_decide (nr_Device n = dev ∧ dev ≠ "") then nr_MBits n else bw) 0
    (r_Networks (nd_Resources node)).

Definition fits (node : Node) (allocs : list Allocation) : Prop :=
  (∀ d, totalUse d node allocs ≤ amount (nd_Resources node) d) ∧
  ports_free (usedNetworks node allocs) ∧
  (∀ n, n ∈ usedNetworks node allocs →
     bandwidth (nr_Device n) (usedNetworks node allocs) ≤ availBandwidth node (nr_Device n)).

(** The sums stay within the range of a Go [int]. *)
Definition in_range (node : Node) (allocs : list Allocation) : Prop :=
  (∀ d, - 2 ^ 63 ≤ totalUse d node allocs < 2 ^ 63) ∧
  (∀ dev, - 2 ^ 63 ≤ bandwidth dev (usedNetworks node allocs) < 2 ^ 63).
End fit.

(** ** [AllocsFit] decides the specification *)

Section fit_spec.
Context (range : gmap string Resources → list Resources).
Context (range_perm : ∀ m, range m ≡ₚ vals m).

Lemma Add_wrap used delta d t :
  amount used d = wrap64 t →
  amount (Add used delta) d = wrap64 (t + from_option (fun r => amount r d) 0 delta).
Proof.
  intros Hu. destruct delta as [r|]; simpl; [|by rewrite Z.add_0_r].
  by rewrite Add_amount, Hu, wrap64_add.
Qed.

Lemma addTasks_wrap d rs : ∀ used t,
  amount used d = wrap64 t →
  amount (foldl (fun used r => Add used (Some r)) used rs) d =
    wrap64 (t + foldr (fun r acc => amount r d + acc) 0 rs).
Proof.
  induction rs as [|r rs IH]; intros used t Hu; simpl; [by rewrite Z.add_0_r|].
  rewrite (IH _ (t + amount r d)); [f_equal; lia|]. by rewrite (Add_wrap _ _ _ t).
Qed.

Lemma sum_perm {A} (g : A → Z) l l' :
  l ≡ₚ l' → foldr (fun x acc => g x + acc) 0 l = foldr (fun x acc => g x + acc) 0 l'.
Proof. induction 1; simpl; lia. Qed.

Lemma addUsed_spec allocs : ∀ used (t : dim → Z),
  (∀ d, amount used d = wrap64 (t d)) → Forall has_resources allocs →
  ∃ u, addUsed range used allocs = inr u ∧
    ∀ d, amount u d = wrap64 (t d + foldr (fun a acc => allocUse d a + acc) 0 allocs).
Proof.
  induction allocs as [|a allocs IH]; intros used t Hu Hr; simpl.
  { exists used. split; [done|]. intros d. by rewrite Z.add_0_r. }
  apply Forall_cons in Hr as [Ha Hr]. unfold has_resources in Ha.
  assert (∀ used', (∀ d, amount used' d = wrap64 (t d + allocUse d a)) →
    ∃ u, addUsed range used' allocs = inr u ∧
      ∀ d, amount u d = wrap64 (t d + (allocUse d a + foldr (fun a acc => allocUse d a + acc) 0 allocs)))
    as Hgo.
  { intros used' Hu'. destruct (IH used' _ Hu' Hr) as (u & E & Hd). exists u. split; [done|].
    intros d. rewrite Hd. f_equal. lia. }
  unfold allocUse in Hgo at 1.
  destruct (al_Resources a) as [r|].
  { apply Hgo. intros d. apply (Add_wrap used (Some r)), Hu. }
  destruct (al_TaskResources a) as [tasks|]; [|by destruct Ha as [[? ?]|[? ?]]].
  apply Hgo. intros d. rewrite (addTasks_wrap d _ _ _ (Add_wrap _ _ _ _ (Hu d))).
  rewrite (sum_perm _ _ _ (range_perm tasks)). f_equal. lia.
Qed.

Lemma addUsed_error used allocs : ¬ Forall has_resources allocs → ∃ e, addUsed range used allocs = inl e.
Proof.
  revert used. induction allocs as [|a allocs IH]; intros used Hn; [by destruct Hn|]. simpl.
  assert (has_resources a → ∀ used, ∃ e, addUsed range used allocs = inl e) as Hgo.
  { intros Ha used'. apply IH. intros Hr. apply Hn. by constructor. }
  unfold has_resources in Hgo. destruct (al_Resources a); [apply Hgo; left; eauto|].
  destruct (al_TaskResources a); [apply Hgo; right; eauto|]. eauto.
Qed.

Lemma SetNode_avail node (idx : NetworkIndex) dev :
  let idx' := foldl (fun idx n =>
      if bool_decide (nr_Device n = "") then idx
      else idx <| AvailNetworks ::= fun l => l ++ [n] |>
               <| AvailBandwidth := <[nr_Device n := nr_MBits n]> (AvailBandwidth idx) |>)
    idx (r_Networks (nd_Resources node)) in
  default 0 (AvailBandwidth idx' !! dev) =
    foldl (fun bw n => if bool_decide (nr_Device n = dev ∧ dev ≠ "") then nr_MBits n else bw)
      (default 0 (AvailBandwidth idx !! dev)) (r_Networks (nd_Resources node)) ∧
  UsedPorts idx' = UsedPorts idx ∧ UsedBandwidth idx' = UsedBandwidth idx ∧
  bitmapPool idx' = bitmapPool idx.
Proof.
  simpl. generalize (r_Networks (nd_Resources node)). intros l. revert idx.
  induction l as [|n l IH]; intros idx; simpl; [done|].
  destruct (IH (if bool_decide (nr_Device n = "") then idx else
      idx <| AvailNetworks ::= fun l => l ++ [n] |>
          <| AvailBandwidth := <[nr_Device n := nr_MBits n]> (AvailBandwidth idx) |>))
    as (-> & -> & -> & ->).
  case_bool_decide as E1; simpl; [|split_and!; [|done..]; f_equal].
  - rewrite bool_decide_false; [done|]. intros [<- ?]. done.
  - destruct (decide (nr_Device n = dev)) as [<-|Hne].
    + by rewrite lookup_insert_eq, bool_decide_true.
    + rewrite lookup_insert_ne, bool_decide_false by naive_solver. done.
Qed.

Lemma allocNetworks_perm allocs : allocNetworks range allocs ≡ₚ allocNetworks vals allocs.
Proof.
  induction allocs as [|a allocs IH]; simpl; [done|]. f_equiv; [|done].
  induction (range_perm (default ∅ (al_TaskResources a))); simpl; [done|by f_equiv| |by etrans].
  rewrite !app_assoc. f_equiv. apply Permutation_app_comm.
Qed.

Lemma Overcommitted_spec idx ns :
  holds idx ns →
  Overcommitted idx = false ↔
  ∀ n, n ∈ ns → wrap64 (bandwidth (nr_Device n) ns) ≤ default 0 (AvailBandwidth idx !! nr_Device n).
Proof.
  intros Hh. unfold Overcommitted. rewrite <- not_true_iff_false, existsb_exists.
  split.
  - intros Hn n Hin. destruct (proj2 (h_devices idx ns Hh (nr_Device n))) as [u Hu]; [by eauto|].
    rewrite <- (h_bandwidth idx ns Hh), Hu. simpl. apply Z.le_ngt. intros Hlt. apply Hn.
    exists (nr_Device n, u). rewrite <- list_elem_of_In, elem_of_map_to_list. split; [done|by apply Z.ltb_lt].
  - intros Hall ([dev u] & Hin & Hlt%Z.ltb_lt). simpl in Hlt.
    apply list_elem_of_In, elem_of_map_to_list in Hin.
    destruct (proj1 (h_devices idx ns Hh dev)) as (n & Hn & <-); [by eauto|].
    apply Hall in Hn. rewrite <- (h_bandwidth idx ns Hh), Hin in Hn. simpl in Hn. lia.
Qed.

Lemma holds_New pool : holds (NewNetworkIndex pool) [].
Proof.
  split; try done.
  - split; [by intros n ?%not_elem_of_nil|constructor].
  - intros ip p _ Hin. by apply not_elem_of_nil in Hin.
  - intros dev. simpl. split; [by intros [? ?]|]. by intros (n & ?%not_elem_of_nil & _).
Qed.

Definition pool_ok (pool : list Bitmap) : Prop := Forall (fun b => Size b = maxValidPort) pool.

(** The index that [AllocsFit] builds: a collision, or the networks in use. *)
Lemma build_index_spec node allocs pool :
  pool_ok pool →
  ∃ idx, (r ← SetNode (NewNetworkIndex pool) node;
          if (r.2 : bool) then Some None
          else r ← AddAllocs range r.1 allocs; Some (if (r.2 : bool) then None else Some r.1)) = Some idx ∧
    match idx with
    | None => ¬ ports_free (usedNetworks node allocs)
    | Some idx => holds idx (usedNetworks node allocs) ∧
        ∀ dev, default 0 (AvailBandwidth idx !! dev) = availBandwidth node dev
    end.
Proof.
  intros Hpool. unfold SetNode, AddAllocs, usedNetworks. set (idx0 := foldl _ _ _).
  destruct (SetNode_avail node (NewNetworkIndex pool) "") as (_ & E1 & E2 & E3). fold idx0 in E1, E2, E3.
  assert (∀ dev, default 0 (AvailBandwidth idx0 !! dev) = availBandwidth node dev) as Hav
    by (intros dev; apply (SetNode_avail node (NewNetworkIndex pool))).
  assert (holds idx0 []) as Hh0.
  { destruct (holds_New pool). split; rewrite ?E1, ?E2; done. }
  assert (sizes_ok idx0) as Hs0 by (split; [by rewrite E3|by rewrite E1]).
  assert (∃ idx1 c, match nd_Reserved node with
      | Some r => addReservedAll idx0 (r_Networks r) false | None => Some (idx0, false) end = Some (idx1, c) ∧
    sizes_ok idx1 ∧ AvailBandwidth idx1 = AvailBandwidth idx0 ∧
    (c = false ↔ ports_free (from_option r_Networks [] (nd_Reserved node))) ∧
    (c = false → holds idx1 (from_option r_Networks [] (nd_Reserved node)))) as (idx1 & c & -> & Hs1 & HA1 & Hc & Hh1).
  { destruct (nd_Reserved node) as [r|]; simpl.
    - destruct (addReservedAll_spec (r_Networks r) idx0 false Hs0) as (idx1 & c & E & Hs & HA & _ & Hn).
      destruct (Hn [] Hh0 eq_refl) as [H1 H2]. exists idx1, c. done.
    - exists idx0, false. split_and!; try done. split; [|done]. intros _. apply (h_free idx0 [] Hh0). }
  simpl. destruct c; simpl.
  { exists None. split; [done|]. intros [Hv Hnd]. apply diff_true_false, Hc. split.
    - intros n Hn. apply Hv, elem_of_app. by left.
    - rewrite claims_app in Hnd. by apply NoDup_app in Hnd as [? _]. }
  destruct (addReservedAll_spec (allocNetworks range allocs) idx1 false Hs1) as (idx2 & c & -> & _ & HA & _ & Hn).
  destruct (Hn _ (Hh1 eq_refl) eq_refl) as [H1 H2]. rewrite (allocNetworks_perm allocs) in H1, H2.
  simpl. destruct c.
  - exists None. split; [done|]. intros Hf. by apply H1 in Hf.
  - exists (Some idx2). split; [done|]. split; [by apply H2|]. intros dev. by rewrite HA, HA1.
Qed.

Lemma AllocsFit_spec node allocs pool :
  pool_ok pool → in_range node allocs → Forall has_resources allocs →
  ∃ ok dimension used, AllocsFit range node allocs None pool = Some (inr (ok, dimension, used)) ∧
    (ok = true ↔ fits node allocs).
Proof.
  intros Hpool [Hr1 Hr2] Hres. unfold AllocsFit.
  destruct (addUsed_spec allocs (Add zeroResources (nd_Reserved node))
    (fun d => from_option (fun r => amount r d) 0 (nd_Reserved node))) as (used & -> & Hu); [|done|].
  { intros d. rewrite (Add_wrap _ _ _ 0); [done|by destruct d]. }
  fold (totalUse) in Hu. assert (∀ d, amount used d = totalUse d node allocs) as Hamt.
  { intros d. rewrite Hu. apply wrap64_id, Hr1. }
  pose proof (Superset_spec (nd_Resources node) used) as Hsup. setoid_rewrite Hamt in Hsup.
  destruct (Superset (nd_Resources node) used) as [sup dimension]. simpl in Hsup.
  destruct sup; simpl; [|exists false, dimension, used; split; [done|]; split; [done|]; intros [H1 _]; by apply Hsup].
  destruct (build_index_spec node allocs pool Hpool) as (idx & -> & Hidx). simpl.
  destruct idx as [idx|].
  - destruct Hidx as [Hh Hav].
    pose proof (Overcommitted_spec idx _ Hh) as Hov. setoid_rewrite Hav in Hov.
    assert (Overcommitted idx = false ↔ fits node allocs) as Hfit.
    { rewrite Hov. pose proof (h_free idx _ Hh).
      assert (∀ dev, wrap64 (bandwidth dev (usedNetworks node allocs)) = bandwidth dev (usedNetworks node allocs)) as Hw
        by (intros dev; apply wrap64_id, Hr2).
      setoid_rewrite Hw. split; [intros ?; split_and!; try done; by apply Hsup|by intros (_ & _ & ?)]. }
    destruct (Overcommitted idx); eexists _, _, _; (split; [done|]); rewrite <- Hfit; done.
  - eexists _, _, _. split; [done|]. split; [done|]. by intros (_ & ? & _).
Qed.

Lemma AllocsFit_total node allocs pool :
  pool_ok pool → ∃ r, AllocsFit range node allocs None pool = Some r.
Proof.
  intros Hpool. unfold AllocsFit. destruct (addUsed _ _ allocs) as [e|used]; [by eauto|].
  destruct (Superset _ used) as [[] dimension]; simpl; [|by eauto].
  destruct (build_index_spec node allocs pool Hpool) as (idx & -> & _). simpl. eauto.
Qed.
End fit_spec.

(** ** The two filters keep what they should *)

Lemma split_filter {A} (P : A → bool) (l kept gone : list A) :
  l ≡ₚ kept ++ gone → Forall (fun x => P x = true) gone → Forall (fun x => P x = false) kept →
  kept ≡ₚ filter (fun x => P x = false) l ∧ gone ≡ₚ filter (fun x => P x = true) l.
Proof.
  intros Hp Hg Hk. rewrite Hp, !filter_app, (filter_all _ kept Hk), (filter_all _ gone Hg).
  rewrite Forall_forall in Hg. rewrite Forall_forall in Hk.
  assert (filter (fun x => P x = false) gone = []) as ->.
  { apply filter_nothing. intros x Hin%Hg. congruence. }
  assert (filter (fun x => P x = true) kept = []) as ->.
  { apply filter_nothing. intros x Hin%Hk. congruence. }
  by rewrite app_nil_r.
Qed.

Lemma RemoveAllocs_spec alloc remove :
  RemoveAllocs alloc remove ≡ₚ filter (fun a => al_ID a ∉ al_ID <$> remove) alloc.
Proof.
  unfold RemoveAllocs.
  set (P := fun a => bool_decide (al_ID a ∈ (list_to_set (al_ID <$> remove) : gset string))).
  destruct (swapDelete_spec P (fun _ _ => tt) (length alloc) alloc 0 tt) as (gone & _ & Hg & Hp & Hk);
    [lia|lia|].
  destruct (split_filter P alloc _ gone Hp Hg Hk) as [-> _].
  apply Permutation_refl'. apply list_filter_iff. intros a. unfold P.
  rewrite bool_decide_eq_false. by rewrite elem_of_list_to_set.
Qed.

Lemma recordTerminal_spec gone : ∀ (m : gmap string Allocation) name,
  (∀ n a, m !! n = Some a → al_Name a = n) →
  match foldl recordTerminal m gone !! name with
  | Some a => (m !! name = Some a ∨ a ∈ gone) ∧ al_Name a = name ∧
      (∀ b, m !! name = Some b ∨ b ∈ gone → al_Name b = name → al_CreateIndex b ≤ al_CreateIndex a)
  | None => m !! name = None ∧ ∀ b, b ∈ gone → al_Name b ≠ name
  end.
Proof.
  induction gone as [|x gone IH]; intros m name Hm; simpl.
  { destruct (m !! name) as [a|] eqn:E.
    - split_and!; [by left|by eapply Hm|]. intros b [Hb|Hb%not_elem_of_nil]; [|done].
      injection Hb as ->. lia.
    - split; [done|]. by intros b ?%not_elem_of_nil. }
  assert (∀ n a, recordTerminal m x !! n = Some a → al_Name a = n) as Hm'.
  { intros n a. unfold recordTerminal. repeat case_match; try apply Hm;
      rewrite lookup_insert_Some; intros [[<- <-]|[_ ?]]; eauto. }
  specialize (IH (recordTerminal m x) name Hm').
  assert (recordTerminal m x !! name = if bool_decide (al_Name x = name) then
     match m !! name with Some a => if al_CreateIndex a <? al_CreateIndex x then Some x else Some a
     | None => Some x end else m !! name) as Erec.
  { unfold recordTerminal. destruct (decide (al_Name x = name)) as [<-|Hne].
    - rewrite bool_decide_true by done. destruct (m !! al_Name x) eqn:Em; [|by rewrite lookup_insert_eq].
      destruct (_ <? _); [by rewrite lookup_insert_eq|done].
    - rewrite bool_decide_false by done. repeat case_match; try done; by rewrite lookup_insert_ne. }
  destruct (foldl recordTerminal (recordTerminal m x) gone !! name) as [a|]; rewrite Erec in IH;
    setoid_rewrite elem_of_cons.
  - case_bool_decide as Ex.
    + destruct IH as (I1 & I2 & I3). destruct (m !! name) as [a0|] eqn:Em; cycle 1.
      { split_and!; [naive_solver|done|]. intros b [?|[->|Hb]] Hn; [done| |]; apply I3; auto. }
      destruct (Z.ltb_spec (al_CreateIndex a0) (al_CreateIndex x)).
      * split_and!; [naive_solver|done|]. intros b [Hb|[->|Hb]] Hn; [|apply I3; auto..].
        injection Hb as ->. specialize (I3 x (or_introl eq_refl) Ex). lia.
      * split_and!; [naive_solver|done|]. intros b [Hb|[->|Hb]] Hn; [apply I3; auto| |apply I3; auto].
        specialize (I3 a0 (or_introl eq_refl) (Hm _ _ Em)). lia.
    + destruct IH as (I1 & I2 & I3). split_and!; [naive_solver|done|].
      intros b [Hb|[->|Hb]] Hn; [|done|]; apply I3; auto.
  - destruct IH as [I1 I2]. case_bool_decide as Ex; [repeat case_match; done|].
    split; [done|]. intros b [->|Hb]; [done|by apply I2].
Qed.
