(* ===== verification/Plans.v ===== *)
(** * Plans and their results (src/nomad/structs/structs.go)

    A scheduler collects its stops and placements in a [Plan], by node; the
    leader answers with a [PlanResult]. *)

From stdpp Require Import base gmap strings list.
From Stdlib Require Import ZArith Lia.
From S2P Require Import Prelude Structs Resources Jobs Allocs.
Open Scope string_scope.
Open Scope list_scope.
Open Scope Z_scope.

Record DesiredUpdates := mkDesiredUpdates {
  du_Ignore : Z;
  du_Place : Z;
  du_Migrate : Z;
  du_Stop : Z;
  du_InPlaceUpdate : Z;
  du_DestructiveUpdate : Z;
  du_Canary : Z
}.
#[export] Instance eta_DesiredUpdates : Eta DesiredUpdates := fun r =>
  mkDesiredUpdates (du_Ignore r) (du_Place r) (du_Migrate r) (du_Stop r) (du_InPlaceUpdate r)
    (du_DestructiveUpdate r) (du_Canary r).

Definition zeroDesiredUpdates : DesiredUpdates := mkDesiredUpdates 0 0 0 0 0 0 0.

Record Plan := mkPlan {
  pl_EvalID : string;
  pl_EvalToken : string;
  pl_Priority : Z;
  pl_AllAtOnce : bool;
  pl_Job : option Job;
  pl_NodeUpdate : gmap string (list Allocation);
  pl_NodeAllocation : gmap string (list Allocation);
  pl_Annotations : option (gmap string DesiredUpdates);
  pl_Deployment : option Deployment;
  pl_DeploymentUpdates : list DeploymentStatusUpdate
}.
#[export] Instance eta_Plan : Eta Plan := fun r =>
  mkPlan (pl_EvalID r) (pl_EvalToken r) (pl_Priority r) (pl_AllAtOnce r) (pl_Job r)
    (pl_NodeUpdate r) (pl_NodeAllocation r) (pl_Annotations r) (pl_Deployment r)
    (pl_DeploymentUpdates r).

Definition zeroPlan : Plan := mkPlan "" "" 0 false None ∅ ∅ None None [].

Definition MakePlan (e : Evaluation) (j : option Job) : Plan :=
  zeroPlan <| pl_EvalID := ev_ID e |> <| pl_Priority := ev_Priority e |> <| pl_Job := j |>
    <| pl_AllAtOnce := from_option jb_AllAtOnce false j |>.

Definition AppendUpdate (p : Plan) (alloc : Allocation) (desiredStatus desiredDesc clientStatus : string)
    : Plan :=
  let p := match pl_Job p, al_Job alloc with
           | None, Some j => p <| pl_Job := Some j |>
           | _, _ => p
           end in
  let newAlloc := alloc <| al_Job := None |> <| al_Resources := None |>
                        <| al_DesiredStatus := desiredStatus |>
                        <| al_DesiredDescription := desiredDesc |> in
  let newAlloc := if bool_decide (clientStatus = "") then newAlloc
                  else newAlloc <| al_ClientStatus := clientStatus |> in
  let existing := default [] (pl_NodeUpdate p !! al_NodeID alloc) in
  p <| pl_NodeUpdate := <[al_NodeID alloc := existing ++ [newAlloc]]> (pl_NodeUpdate p) |>.

Definition PopUpdate (p : Plan) (alloc : Allocation) : Plan :=
  let existing := default [] (pl_NodeUpdate p !! al_NodeID alloc) in
  match last existing with
  | Some l =>
      if bool_decide (al_ID l = al_ID alloc) then
        let existing := take (length existing - 1) existing in
        if (0 <? length existing)%nat then
          p <| pl_NodeUpdate := <[al_NodeID alloc := existing]> (pl_NodeUpdate p) |>
        else p <| pl_NodeUpdate := delete (al_NodeID alloc) (pl_NodeUpdate p) |>
      else p
  | None => p
  end.

Definition AppendAlloc (p : Plan) (alloc : Allocation) : Plan :=
  let existing := default [] (pl_NodeAllocation p !! al_NodeID alloc) in
  p <| pl_NodeAllocation := <[al_NodeID alloc := existing ++ [alloc]]> (pl_NodeAllocation p) |>.

Definition PlanIsNoOp (p : Plan) : bool :=
  (size (pl_NodeUpdate p) =? 0)%nat && (size (pl_NodeAllocation p) =? 0)%nat &&
  bool_decide (pl_Deployment p = None) && (length (pl_DeploymentUpdates p) =? 0)%nat.

Record PlanResult := mkPlanResult {
  pr_NodeUpdate : gmap string (list Allocation);
  pr_NodeAllocation : gmap string (list Allocation);
  pr_Deployment : option Deployment;
  pr_DeploymentUpdates : list DeploymentStatusUpdate;
  pr_RefreshIndex : Z;
  pr_AllocIndex : Z
}.
#[export] Instance eta_PlanResult : Eta PlanResult := fun r =>
  mkPlanResult (pr_NodeUpdate r) (pr_NodeAllocation r) (pr_Deployment r) (pr_DeploymentUpdates r)
    (pr_RefreshIndex r) (pr_AllocIndex r).

Definition ResultIsNoOp (p : PlanResult) : bool :=
  (size (pr_NodeUpdate p) =? 0)%nat && (size (pr_NodeAllocation p) =? 0)%nat &&
  (length (pr_DeploymentUpdates p) =? 0)%nat && bool_decide (pr_Deployment p = None).

(** Whether every allocation was committed, how many were expected and how many
    there are. *)
Definition FullCommit (p : PlanResult) (plan : Plan) : bool * Z * Z :=
  let '(expected, actual) :=
    foldl (fun (ea : Z * Z) (kl : string * list Allocation) =>
        (wrap64 (ea.1 + Z.of_nat (length kl.2)),
         wrap64 (ea.2 + Z.of_nat (length (default [] (pr_NodeAllocation p !! kl.1))))))
      (0, 0) (map_to_list (pl_NodeAllocation plan)) in
  (actual =? expected, expected, actual).

(** The Raft request that commits the result of a plan. *)
Record ApplyPlanResultsRequest := mkApplyPlanResultsRequest {
  ap_Job : option Job;
  ap_Alloc : list Allocation;
  ap_Deployment : option Deployment;
  ap_DeploymentUpdates : list DeploymentStatusUpdate
}.

(** ** Undoing an update *)

(** A plan whose update lists are not empty, as the methods leave it. *)
Definition plan_wf (p : Plan) : Prop := ∀ n l, pl_NodeUpdate p !! n = Some l → l ≠ [].

Lemma AppendUpdate_wf p a ds dd cs : plan_wf p → plan_wf (AppendUpdate p a ds dd cs).
Proof.
  intros Hp n l. unfold AppendUpdate.
  assert (∀ p' l' x, pl_NodeUpdate p' = pl_NodeUpdate p →
    <[al_NodeID a := l' ++ [x]]> (pl_NodeUpdate p') !! n = Some l → l ≠ []) as Hgo.
  { intros p' l' x E. rewrite E, lookup_insert_Some. intros [[_ <-]|[_ ?]]; [by destruct l'|by eapply Hp]. }
  destruct (pl_Job p), (al_Job a); simpl; eapply Hgo; done.
Qed.

Lemma PopUpdate_wf p a : plan_wf p → plan_wf (PopUpdate p a).
Proof.
  intros Hp. unfold PopUpdate. destruct (last _) as [l|]; [|done]. case_bool_decide; [|done].
  destruct (Nat.ltb_spec 0 (length (take (length (default [] (pl_NodeUpdate p !! al_NodeID a)) - 1)
    (default [] (pl_NodeUpdate p !! al_NodeID a))))) as [Hl|]; intros n l'; simpl.
  - rewrite lookup_insert_Some. intros [[_ <-]|[_ ?]]; [|by eapply Hp]. intros E. rewrite E in Hl. simpl in Hl. lia.
  - rewrite lookup_delete_Some. intros [_ ?]. by eapply Hp.
Qed.

(** Popping an update that was just appended restores the plan's updates. *)
Lemma PopUpdate_AppendUpdate p a ds dd cs :
  plan_wf p → pl_NodeUpdate (PopUpdate (AppendUpdate p a ds dd cs) a) = pl_NodeUpdate p.
Proof.
  intros Hp. unfold AppendUpdate, PopUpdate.
  set (p1 := match pl_Job p with Some _ => _ | None => _ end).
  assert (pl_NodeUpdate p1 = pl_NodeUpdate p) as E1 by (unfold p1; by repeat case_match).
  set (na := if bool_decide (cs = "") then _ else _).
  assert (al_ID na = al_ID a) as Eid by (unfold na; by case_bool_decide).
  simpl. rewrite lookup_insert_eq. simpl. rewrite last_snoc, bool_decide_true by done.
  rewrite length_app. simpl. rewrite E1.
  replace (length (default [] (pl_NodeUpdate p !! al_NodeID a)) + 1 - 1)%nat
    with (length (default [] (pl_NodeUpdate p !! al_NodeID a))) by lia.
  rewrite take_app_length. destruct (pl_NodeUpdate p !! al_NodeID a) as [l|] eqn:E; simpl.
  - destruct l as [|x l]; [by apply Hp in E|]. simpl. by rewrite insert_insert_eq, insert_id.
  - by rewrite delete_insert_id.
Qed.
