(* ===== verification/FitProps.v ===== *)
(** * Properties of the data structures a plan is checked with

    Bitmaps as sets of indexes, names of allocations, the network index, the
    fit check, and the edits of a plan. *)

From stdpp Require Import base gmap strings list sorting.
From Stdlib Require Import ZArith Lia.
From S2P Require Import Prelude Bitmap Structs Resources Jobs Allocs Network Fit Plans.
Open Scope string_scope.
Open Scope list_scope.
Open Scope Z_scope.

(** ** Bitmaps *)

(** A bitmap implements a set of indexes below its size.  A new bitmap is the
    empty set; [Set], [Unset] and [Check] add, remove and test an index in range,
    and leave bytes bytes; [Set] panics out of range; and [IndexesInRange] lists
    the indexes of the range that are in the set, or that are not, in order. *)
Theorem bitmap_is_index_set size b i from to set :
  NewBitmap size = inr b → 0 < size → 0 ≤ from →
  (Size b = size ∧ ∀ j, bit b j = false) ∧
  ∀ b, bitmap_ok b →
  (0 ≤ i < Size b → Check_ b i = Some (bit b i) ∧
     (∃ b', Set_ b i = Some b' ∧ bitmap_ok b' ∧ Size b' = Size b ∧ ∀ j, bit b' j = (j =? i) || bit b j) ∧
     (∃ b', Unset b i = Some b' ∧ bitmap_ok b' ∧ Size b' = Size b ∧ ∀ j, bit b' j = negb (j =? i) && bit b j)) ∧
  (Size b ≤ i → Set_ b i = None) ∧
  ∃ l, IndexesInRange b set from to = Some l ∧ StronglySorted Z.lt l ∧
    ∀ j, j ∈ l ↔ from ≤ j ≤ to ∧ j < Size b ∧ bit b j = set.
Proof.
  intros Hnew Hs Hfrom. destruct (NewBitmap_inr size b ltac:(lia) Hnew) as [_ Hm].
  destruct (NewBitmap_spec size Hs Hm) as (b0 & E & Hsz & _ & Hb). rewrite Hnew in E. injection E as <-.
  split; [done|]. clear b Hnew Hsz Hb. intros b Hok. split_and!.
  - intros Hi. split; [by apply Check_in|]. split.
    + destruct (Set_spec b i Hi) as (b' & E & ? & ?). exists b'. split_and!; try done. by eapply Set_ok.
    + destruct (Unset_spec b i Hi) as (b' & E & ? & ?). exists b'. split_and!; try done. by eapply Unset_ok.
  - apply Set_out.
  - eexists. split; [by apply IndexesInRange_spec|]. split.
    + apply StronglySorted_filter. apply StronglySorted_seqZ.
    + intros j. rewrite list_elem_of_filter, elem_of_seqZ. destruct (decide (j < Size b)); lia || naive_solver lia.
Qed.

Definition sixteen : Bitmap := [0; 0].
Lemma bitmap_is_index_set_witness :
  ∃ b', Set_ [1; 0] 9 = Some b' ∧ IndexesInRange [1; 0] true 0 15 = Some [0].
Proof.
  destruct (bitmap_is_index_set 16 sixteen 9 0 15 true) as [_ H]; [reflexivity|lia|lia|].
  destruct (H [1; 0]) as (H1 & _ & _);
    [constructor; [|constructor; [|constructor]]; unfold byte_ok; lia|].
  destruct H1 as (_ & (b' & E & _) & _); [vm_compute; split; congruence|].
  exists b'. split; [exact E|vm_compute; reflexivity].
Defined.

(** ** Names of allocations *)

(** The index read from the name that [AllocName] gives an allocation of the job
    and group is the index it was made from. *)
Theorem alloc_name_roundtrip a idx :
  0 ≤ idx < 2 ^ 63 →
  Index (a <| al_Name := AllocName (al_JobID a) (al_TaskGroup a) idx |>) = idx.
Proof. by apply AllocName_Index. Qed.

Lemma alloc_name_roundtrip_witness :
  Index (zeroAllocation <| al_JobID := "web" |> <| al_TaskGroup := "cache" |> <| al_Name := "web.cache[12]" |>) = 12.
Proof.
  exact (alloc_name_roundtrip
    (zeroAllocation <| al_JobID := "web" |> <| al_TaskGroup := "cache" |>) 12 ltac:(lia)).
Defined.

(** ** The fit check *)

(** C36. [AllocsFit] decides whether the allocations fit: with sums in the range of an
    [int] it returns a verdict, which is positive exactly when in each dimension
    the node's reservations and the allocations stay within the node's resources,
    no port of an IP is claimed twice or invalid, and no device's bandwidth is
    exceeded.  Neither the order of the tasks nor reused bitmaps matter.  An
    allocation without resources is an error. *)
Theorem allocs_fit_decides range node allocs pool :
  (∀ m, range m ≡ₚ vals m) → pool_ok pool →
  (Forall has_resources allocs → in_range node allocs →
     ∃ ok dimension used, AllocsFit range node allocs None pool = Some (inr (ok, dimension, used)) ∧
       (ok = true ↔ fits node allocs)) ∧
  (¬ Forall has_resources allocs → ∃ e, AllocsFit range node allocs None pool = Some (inl e)).
Proof.
  intros Hrange Hpool. split.
  - intros Hres Hr. by apply AllocsFit_spec.
  - intros Hn. unfold AllocsFit.
    destruct (addUsed_error range (Add zeroResources (nd_Reserved node)) allocs Hn) as [e ->]. by exists e.
Qed.

(** A node with one device of 1000 MBits and 4000 MHz. *)
Definition eth0 (mbits : Z) (ports : list Z) : NetworkResource :=
  mkNetworkResource "eth0" "10.0.0.1/32" "10.0.0.1" mbits (mkPort "p" <$> ports) [].
Definition node1 : Node :=
  mkNode "n1" "" "dc1" "n1" "" false ∅ (mkResources 4000 8192 10000 100 [eth0 1000 []]) None ∅ ∅ "" ""
    false NodeStatusReady "" 0 1 1.
Definition alloc1 (id : string) (cpu port : Z) : Allocation :=
  zeroAllocation <| al_ID := id |> <| al_NodeID := "n1" |>
    <| al_TaskResources := Some {["web" := mkResources cpu 256 0 0 [eth0 400 [port]]]} |>.

Lemma alloc1_in_range l : l = [alloc1 "a" 1000 8080; alloc1 "b" 2000 8081] → in_range node1 l.
Proof.
  intros ->. split.
  - intros []; vm_compute; split; congruence.
  - assert (usedNetworks node1 [alloc1 "a" 1000 8080; alloc1 "b" 2000 8081] = [eth0 400 [8080]; eth0 400 [8081]])
      as -> by (vm_compute; reflexivity).
    intros dev. unfold bandwidth. simpl. case_bool_decide; lia.
Qed.

Lemma allocs_fit_decides_witness :
  ∃ used, AllocsFit vals node1 [alloc1 "a" 1000 8080; alloc1 "b" 2000 8081] None [] = Some (inr (true, "", used)) ∧
  fits node1 [alloc1 "a" 1000 8080; alloc1 "b" 2000 8081].
Proof.
  eexists. split; [vm_compute; reflexivity|].
  destruct (allocs_fit_decides vals node1 [alloc1 "a" 1000 8080; alloc1 "b" 2000 8081] [])
    as [H _]; [intros m; reflexivity|constructor|].
  destruct H as (ok & d & u & E & Hiff);
    [do 2 (constructor; [right; eexists; reflexivity|]); constructor|apply alloc1_in_range; reflexivity|].
  apply Hiff. vm_compute in E. injection E as <- _ _. reflexivity.
Defined.

(** [FilterTerminalAllocs] keeps exactly the allocations that are not terminal,
    and its map has, for each name of a terminal allocation, one with the highest
    create index of that name. *)
Theorem filter_terminal_latest allocs :
  let '(live, latest) := FilterTerminalAllocs allocs in
  live ≡ₚ filter (fun a => AllocTerminal a = false) allocs ∧
  ∀ name, match latest !! name with
    | Some a => a ∈ allocs ∧ AllocTerminal a = true ∧ al_Name a = name ∧
        ∀ b, b ∈ allocs → AllocTerminal b = true → al_Name b = name → al_CreateIndex b ≤ al_CreateIndex a
    | None => ∀ b, b ∈ allocs → AllocTerminal b = true → al_Name b ≠ name
    end.
Proof.
  unfold FilterTerminalAllocs.
  destruct (swapDelete_spec AllocTerminal recordTerminal (length allocs) allocs 0 ∅)
    as (gone & Em & Hg & Hp & Hk); [lia|lia|].
  destruct (swapDelete _ _ _ _ _ _) as [live latest]. simpl in *.
  destruct (split_filter AllocTerminal allocs live gone Hp Hg Hk) as [Hlive Hgone].
  split; [done|]. intros name. rewrite Em.
  pose proof (recordTerminal_spec gone ∅ name) as Hr.
  assert (∀ b, b ∈ gone ↔ AllocTerminal b = true ∧ b ∈ allocs) as Hin
    by (intros b; by rewrite Hgone, list_elem_of_filter).
  destruct (foldl recordTerminal ∅ gone !! name) as [a|].
  - destruct Hr as ([Ha|Ha] & Hn & Hmax); [done..| |]; [done|]. apply Hin in Ha as [? ?].
    split_and!; try done. intros b Hb Hbt Hbn. apply Hmax; [|done]. right. by apply Hin.
  - destruct Hr as [_ Hr]; [done|]. intros b Hb Hbt. apply Hr. by apply Hin.
Qed.

(** ** Plans *)

(** [PopUpdate] of the allocation that [AppendUpdate] has just added gives back
    the updates of the plan. *)
Theorem pop_undoes_append p alloc desiredStatus desiredDesc clientStatus :
  plan_wf p →
  pl_NodeUpdate (PopUpdate (AppendUpdate p alloc desiredStatus desiredDesc clientStatus) alloc) =
  pl_NodeUpdate p.
Proof. apply PopUpdate_AppendUpdate. Qed.

Lemma pop_undoes_append_witness :
  pl_NodeUpdate (PopUpdate (AppendUpdate zeroPlan (alloc1 "a" 1 80) "stop" "" "") (alloc1 "a" 1 80)) = ∅.
Proof. apply (pop_undoes_append zeroPlan). intros n l E. discriminate E. Defined.
