(* ===== verification/PlanApply.v ===== *)
(** * Verifying and applying plans (src/nomad/plan_apply.go)

    The leader checks a scheduler's plan against a snapshot of the state, node by
    node, and commits the part of it that fits.  The workers of the evaluate pool
    (src/nomad/plan_apply_pool.go) answer in any order: the order in which
    [handleResult] sees the nodes is an argument.  The snapshot is used through
    the three queries the code makes. *)

From stdpp Require Import base gmap strings list.
From Stdlib Require Import ZArith Lia.
From S2P Require Import Prelude Bitmap Structs Resources Jobs Allocs Network Fit Plans.
Open Scope string_scope.
Open Scope list_scope.
Open Scope Z_scope.

(** The queries of a snapshot; [inl] is the error of the lookup. *)
Record StateSnapshot := mkStateSnapshot {
  ss_NodeByID : string → string + option Node;
  ss_AllocsByNodeTerminal : string → bool → string + list Allocation;
  ss_Index : string → string + Z
}.

Inductive PlanError :=
  | ErrNodeLookup (nodeID err : string)
  | ErrAllocLookup (nodeID err : string)
  | ErrFit (e : FitError)
  | ErrIndex (err : string)
  | ErrZeroRefresh (nodeIndex allocIndex : Z).

Section verify.
(** The order in which Go ranges over the tasks of an allocation, and what the
    bitmap pool holds when a node is evaluated. *)
Variable range : gmap string Resources → list Resources.
Variable pool : string → list Bitmap.

(** The allocations the node would run. *)
Definition proposedAllocs (plan : Plan) (nodeID : string) (existing : list Allocation) : list Allocation :=
  let updates := default [] (pl_NodeUpdate plan !! nodeID) in
  let allocs := default [] (pl_NodeAllocation plan !! nodeID) in
  RemoveAllocs existing (updates ++ allocs) ++ allocs.

(** [None] is a panic of [AllocsFit]. *)
Definition evaluateNodePlan (snap : StateSnapshot) (plan : Plan) (nodeID : string)
    : option (PlanError + bool) :=
  if (length (default [] (pl_NodeAllocation plan !! nodeID)) =? 0)%nat then Some (inr true)
  else
    match ss_NodeByID snap nodeID with
    | inl err => Some (inl (ErrNodeLookup nodeID err))
    | inr None => Some (inr false)
    | inr (Some node) =>
        if bool_decide (nd_Status node ≠ NodeStatusReady) || nd_Drain node then Some (inr false)
        else
          match ss_AllocsByNodeTerminal snap nodeID false with
          | inl err => Some (inl (ErrAllocLookup nodeID err))
          | inr existingAlloc =>
              r ← AllocsFit range node (proposedAllocs plan nodeID existingAlloc) None (pool nodeID);
              Some match r with
                   | inl e => inl (ErrFit e)
                   | inr (fit, _, _) => inr fit
                   end
          end
    end.

(** The variables that [handleResult] captures. *)
Record evalState := mkEvalState {
  es_result : PlanResult;
  es_partialCommit : bool;
  es_errors : list PlanError
}.
#[export] Instance eta_evalState : Eta evalState := fun r =>
  mkEvalState (es_result r) (es_partialCommit r) (es_errors r).

(** The new state, and whether the evaluation is cancelled. *)
Definition handleResult (plan : Plan) (st : evalState) (nodeID : string) (r : PlanError + bool)
    : evalState * bool :=
  match r with
  | inl err => (st <| es_errors ::= fun l => l ++ [err] |>, true)
  | inr false =>
      let st := st <| es_partialCommit := true |> in
      if pl_AllAtOnce plan then
        (st <| es_result ::= fun r => r <| pr_NodeUpdate := ∅ |> <| pr_NodeAllocation := ∅ |>
                                        <| pr_DeploymentUpdates := [] |> <| pr_Deployment := None |> |>, true)
      else (st, false)
  | inr true =>
      let nodeUpdate := default [] (pl_NodeUpdate plan !! nodeID) in
      let st := if (0 <? length nodeUpdate)%nat then
          st <| es_result ::= fun r =>
                  r <| pr_NodeUpdate := <[nodeID := nodeUpdate]> (pr_NodeUpdate r) |> |>
        else st in
      let nodeAlloc := default [] (pl_NodeAllocation plan !! nodeID) in
      let st := if (0 <? length nodeAlloc)%nat then
          st <| es_result ::= fun r =>
                  r <| pr_NodeAllocation := <[nodeID := nodeAlloc]> (pr_NodeAllocation r) |> |>
        else st in
      (st, false)
  end.

(** Results are handled as they arrive, until one of them cancels. *)
Fixpoint handleResults (snap : StateSnapshot) (plan : Plan) (st : evalState) (order : list string)
    : option evalState :=
  match order with
  | [] => Some st
  | nodeID :: order =>
      r ← evaluateNodePlan snap plan nodeID;
      let '(st, cancel) := handleResult plan st nodeID r in
      if (cancel : bool) then Some st else handleResults snap plan st order
  end.

Definition correctDeploymentCanaries (result : PlanResult) : PlanResult :=
  match pr_Deployment result with
  | None => result
  | Some d =>
      if negb (HasPlacedCanaries (Some d)) then result
      else
        let placedAllocs : gset string := list_to_set (al_ID <$> flat (pr_NodeAllocation result)) in
        let prune s := s <| ds_PlacedCanaries ::= filter (fun id => id ∈ placedAllocs) |> in
        result <| pr_Deployment := Some (d <| d_TaskGroups ::= fmap prune |>) |>
  end.

(** The nodes of the plan, each once. *)
Definition planNodes (plan : Plan) : list string :=
  elements (dom (pl_NodeUpdate plan) ∪ dom (pl_NodeAllocation plan)).

Definition indexOf (r : string + Z) : Z * list PlanError :=
  match r with inl err => (0, [ErrIndex err]) | inr i => (i, []) end.

(** The result and the errors collected. *)
Definition evaluatePlan (snap : StateSnapshot) (plan : Plan) (order : list string)
    : option (PlanResult * list PlanError) :=
  let result := mkPlanResult ∅ ∅ (pl_Deployment plan) (pl_DeploymentUpdates plan) 0 0 in
  st ← handleResults snap plan (mkEvalState result false []) order;
  if es_partialCommit st then
    let '(allocIndex, errs1) := indexOf (ss_Index snap "allocs") in
    let '(nodeIndex, errs2) := indexOf (ss_Index snap "nodes") in
    let refresh := Z.max nodeIndex allocIndex in
    let errs3 := if refresh =? 0 then [ErrZeroRefresh nodeIndex allocIndex] else [] in
    Some (correctDeploymentCanaries ((es_result st) <| pr_RefreshIndex := refresh |>),
          es_errors st ++ errs1 ++ errs2 ++ errs3)
  else Some (es_result st, es_errors st).
End verify.

(** ** Committing the result *)

(** The Raft request of [applyPlan]; [updates] and [allocs] are the entries of the
    two maps in the order in which Go ranges over them, [now] the clock. *)
Definition applyRequest (plan : Plan) (result : PlanResult) (updates allocs : list (list Allocation))
    (now : Z) : ApplyPlanResultsRequest :=
  let stamp a := if al_CreateTime a =? 0 then a <| al_CreateTime := now |> else a in
  mkApplyPlanResultsRequest (pl_Job plan) (stamp <$> (concat updates ++ concat allocs))
    (pr_Deployment result) (pr_DeploymentUpdates result).

(** What [asyncPlanWait] responds once the request is applied at [index]. *)
Definition planResponse (result : PlanResult) (index : Z) : PlanResult :=
  let result := result <| pr_AllocIndex := index |> in
  if pr_RefreshIndex result =? 0 then result
  else result <| pr_RefreshIndex := Z.max (pr_RefreshIndex result) (pr_AllocIndex result) |>.
