(* ===== verification/PlanApplyProps.v ===== *)
(** * What verifying a plan guarantees *)

From stdpp Require Import base gmap strings list.
From Stdlib Require Import ZArith Lia.
From S2P Require Import Prelude Bitmap Structs Resources Jobs Allocs Network Fit Plans FitProps PlanApply.
Open Scope string_scope.
Open Scope list_scope.
Open Scope Z_scope.

(** ** The fit does not depend on the order of the allocations *)

Lemma allocNetworks_Permutation range l l' : l ≡ₚ l' → allocNetworks range l ≡ₚ allocNetworks range l'.
Proof.
  unfold allocNetworks. induction 1; simpl; [done|by f_equiv| |by etrans].
  rewrite !app_assoc. f_equiv. apply Permutation_app_comm.
Qed.

#[global] Instance fits_Permutation node : Proper ((≡ₚ) ==> iff) (fits node).
Proof.
  intros l l' Hp. unfold fits, totalUse.
  assert (usedNetworks node l ≡ₚ usedNetworks node l') as Hu
    by (unfold usedNetworks; by rewrite (allocNetworks_Permutation vals l l' Hp)).
  rewrite Hu. setoid_rewrite Hu. by setoid_rewrite (sum_perm _ _ _ Hp).
Qed.

#[global] Instance in_range_Permutation node : Proper ((≡ₚ) ==> iff) (in_range node).
Proof.
  intros l l' Hp. unfold in_range, totalUse.
  assert (usedNetworks node l ≡ₚ usedNetworks node l') as Hu
    by (unfold usedNetworks; by rewrite (allocNetworks_Permutation vals l l' Hp)).
  setoid_rewrite Hu. by setoid_rewrite (sum_perm _ _ _ Hp).
Qed.

(** Allocations that use the same are exchangeable. *)
Definition sameUse (a b : Allocation) : Prop := (∀ d, allocUse d a = allocUse d b) ∧ al_TaskResources a = al_TaskResources b.

Lemma sameUse_lists node l l' : Forall2 sameUse l l' → (∀ d, totalUse d node l = totalUse d node l') ∧ usedNetworks node l = usedNetworks node l'.
Proof.
  intros Hl. split.
  - intros d. unfold totalUse. f_equal. induction Hl as [|a b l l' [Hab _] _ IH]; [done|]. simpl. by rewrite Hab, IH.
  - unfold usedNetworks, allocNetworks. f_equal. induction Hl as [|a b l l' [_ Hab] _ IH]; [done|]. simpl. by rewrite Hab, IH.
Qed.

Lemma fits_sameUse node l l' : Forall2 sameUse l l' → fits node l ↔ fits node l'.
Proof. intros [Hu Hn]%(sameUse_lists node). unfold fits. rewrite Hn. by setoid_rewrite Hu. Qed.
Lemma in_range_sameUse node l l' : Forall2 sameUse l l' → in_range node l ↔ in_range node l'.
Proof. intros [Hu Hn]%(sameUse_lists node). unfold in_range. rewrite Hn. by setoid_rewrite Hu. Qed.

#[global] Instance has_resources_dec a : Decision (has_resources a).
Proof. unfold has_resources. apply _. Defined.

Section verify_spec.
Context (range : gmap string Resources → list Resources) (pool : string → list Bitmap).
Context (snap : StateSnapshot) (plan : Plan).

Abbreviation verdict := (evaluateNodePlan range pool snap plan).

(** The node was evaluated and its part of the plan fits. *)
Definition committed (seen : list string) (n : string) : Prop := n ∈ seen ∧ verdict n = Some (inr true).

(** The state of the loop once the nodes [seen] are handled without a cancel. *)
Record agrees (st : evalState) (seen : list string) : Prop := {
  ag_update : ∀ n l, pr_NodeUpdate (es_result st) !! n = Some l ↔
    committed seen n ∧ pl_NodeUpdate plan !! n = Some l ∧ l ≠ [];
  ag_alloc : ∀ n l, pr_NodeAllocation (es_result st) !! n = Some l ↔
    committed seen n ∧ pl_NodeAllocation plan !! n = Some l ∧ l ≠ [];
  ag_partial : es_partialCommit st = true ↔ ∃ n, n ∈ seen ∧ verdict n = Some (inr false);
  ag_errors : es_errors st = [];
  ag_deployment : pr_Deployment (es_result st) = pl_Deployment plan ∧
    pr_DeploymentUpdates (es_result st) = pl_DeploymentUpdates plan;
  ag_refresh : pr_RefreshIndex (es_result st) = 0;
  ag_seen : ∀ n, n ∈ seen → ∃ fit, verdict n = Some (inr fit);
  ag_all : pl_AllAtOnce plan = true → es_partialCommit st = false
}.

(** Adding the entries of one committed node to one of the result's maps. *)
Lemma commit_entry (m pm : gmap string (list Allocation)) n seen :
  (∀ k l, m !! k = Some l ↔ committed seen k ∧ pm !! k = Some l ∧ l ≠ []) →
  verdict n = Some (inr true) →
  ∀ k l, (if (0 <? length (default [] (pm !! n)))%nat then <[n := default [] (pm !! n)]> m else m) !! k = Some l ↔
    committed (n :: seen) k ∧ pm !! k = Some l ∧ l ≠ [].
Proof.
  intros Hm Hv k l. unfold committed. rewrite elem_of_cons.
  destruct (decide (k = n)) as [->|Hne].
  - destruct (pm !! n) as [l0|] eqn:E; simpl.
    + destruct l0 as [|x l0]; simpl; [rewrite Hm; unfold committed; naive_solver|].
      rewrite lookup_insert_eq. naive_solver.
    + rewrite Hm. unfold committed. naive_solver.
  - transitivity (m !! k = Some l); [|rewrite Hm; unfold committed; naive_solver].
    destruct (0 <? _)%nat; [by rewrite lookup_insert_ne|done].
Qed.

Lemma handle_fit st seen n :
  agrees st seen → verdict n = Some (inr true) →
  ∃ st', handleResult plan st n (inr true) = (st', false) ∧ agrees st' (n :: seen).
Proof.
  intros [Hu Ha Hp He Hd Hr Hs Hall] Hv. eexists. split; [done|]. simpl.
  set (st1 := if (0 <? length (default [] (pl_NodeUpdate plan !! n)))%nat then _ else _).
  set (st2 := if (0 <? length (default [] (pl_NodeAllocation plan !! n)))%nat then _ else _).
  assert (pr_NodeUpdate (es_result st2) =
    if (0 <? length (default [] (pl_NodeUpdate plan !! n)))%nat
    then <[n := default [] (pl_NodeUpdate plan !! n)]> (pr_NodeUpdate (es_result st))
    else pr_NodeUpdate (es_result st)) as Eu by (unfold st2, st1; by repeat case_match).
  assert (pr_NodeAllocation (es_result st2) =
    if (0 <? length (default [] (pl_NodeAllocation plan !! n)))%nat
    then <[n := default [] (pl_NodeAllocation plan !! n)]> (pr_NodeAllocation (es_result st))
    else pr_NodeAllocation (es_result st)) as Ea by (unfold st2, st1; by repeat case_match).
  assert (es_partialCommit st2 = es_partialCommit st ∧ es_errors st2 = es_errors st ∧
    pr_Deployment (es_result st2) = pr_Deployment (es_result st) ∧
    pr_DeploymentUpdates (es_result st2) = pr_DeploymentUpdates (es_result st) ∧
    pr_RefreshIndex (es_result st2) = pr_RefreshIndex (es_result st)) as (E1 & E2 & E3 & E4 & E5)
    by (unfold st2, st1; by repeat case_match).
  split.
  - intros k l. rewrite Eu. by apply commit_entry.
  - intros k l. rewrite Ea. by apply commit_entry.
  - rewrite E1, Hp. setoid_rewrite elem_of_cons. split; [naive_solver|].
    intros (k & [->|Hk] & Hf); [congruence|eauto].
  - congruence.
  - by rewrite E3, E4.
  - congruence.
  - intros k [->|Hk]%elem_of_cons; eauto.
  - rewrite E1. done.
Qed.

Lemma handle_misfit st seen n :
  pl_AllAtOnce plan = false → agrees st seen → verdict n = Some (inr false) →
  ∃ st', handleResult plan st n (inr false) = (st', false) ∧ agrees st' (n :: seen).
Proof.
  intros Hall [Hu Ha Hp He Hd Hr Hs _] Hv. simpl. rewrite Hall. eexists. split; [done|].
  split; simpl; try done.
  - intros k l. rewrite Hu. unfold committed. rewrite elem_of_cons. naive_solver.
  - intros k l. rewrite Ha. unfold committed. rewrite elem_of_cons. naive_solver.
  - split; [|done]. intros _. exists n. split; [left|done].
  - intros k [->|Hk]%elem_of_cons; eauto.
  - congruence.
Qed.

(** A run without errors: all nodes are handled, or an all-at-once plan is
    rejected as a whole. *)
Lemma handleResults_spec order : ∀ st seen st',
  agrees st seen → handleResults range pool snap plan st order = Some st' → es_errors st' = [] →
  agrees st' (reverse order ++ seen) ∨
  (pl_AllAtOnce plan = true ∧ es_partialCommit st' = true ∧
   pr_NodeUpdate (es_result st') = ∅ ∧ pr_NodeAllocation (es_result st') = ∅ ∧
   pr_Deployment (es_result st') = None ∧ pr_DeploymentUpdates (es_result st') = [] ∧
   ∃ n, n ∈ order ∧ verdict n = Some (inr false)).
Proof.
  induction order as [|n order IH]; intros st seen st' Hag Hrun Herr; simpl in Hrun.
  { injection Hrun as <-. by left. }
  rewrite reverse_cons, <- app_assoc. simpl.
  destruct (verdict n) as [[err|[]]|] eqn:Hv; simpl in Hrun; [| | |done].
  - injection Hrun as <-. simpl in Herr. by destruct (es_errors st).
  - destruct (handle_fit st seen n Hag Hv) as (st1 & E & Hag1). injection E as E. rewrite E in Hrun.
    destruct (IH st1 (n :: seen) st' Hag1 Hrun Herr) as [?|(? & ? & ? & ? & ? & ? & k & ? & ?)]; [by left|right].
    split_and!; try done. exists k. split; [by right|done].
  - destruct (pl_AllAtOnce plan) eqn:Hall; simpl in Hrun.
    + injection Hrun as <-. right. simpl. split_and!; try done. exists n. split; [left|done].
    + destruct (handle_misfit st seen n Hall Hag Hv) as (st1 & E & Hag1). simpl in E. rewrite Hall in E.
      injection E as E. rewrite E in Hrun.
      destruct (IH st1 (n :: seen) st' Hag1 Hrun Herr) as [?|(? & ? & _)]; [by left|congruence].
Qed.

Lemma agrees_start :
  agrees (mkEvalState (mkPlanResult ∅ ∅ (pl_Deployment plan) (pl_DeploymentUpdates plan) 0 0) false []) [].
Proof.
  split; simpl; try done; unfold committed.
  - intros n l. rewrite lookup_empty, elem_of_nil. naive_solver.
  - intros n l. rewrite lookup_empty, elem_of_nil. naive_solver.
  - setoid_rewrite elem_of_nil. naive_solver.
  - intros n Hn. by apply not_elem_of_nil in Hn.
Qed.

Lemma correct_maps r :
  pr_NodeUpdate (correctDeploymentCanaries r) = pr_NodeUpdate r ∧
  pr_NodeAllocation (correctDeploymentCanaries r) = pr_NodeAllocation r ∧
  pr_RefreshIndex (correctDeploymentCanaries r) = pr_RefreshIndex r ∧
  pr_DeploymentUpdates (correctDeploymentCanaries r) = pr_DeploymentUpdates r ∧
  (pr_Deployment r = None → pr_Deployment (correctDeploymentCanaries r) = None).
Proof. unfold correctDeploymentCanaries. destruct (pr_Deployment r) eqn:E; [|done]. by case_match. Qed.

(** The result of an evaluation without errors, from the state of the loop. *)
Lemma evaluatePlan_spec order result :
  order ≡ₚ planNodes plan → evaluatePlan range pool snap plan order = Some (result, []) →
  ∃ st, handleResults range pool snap plan
      (mkEvalState (mkPlanResult ∅ ∅ (pl_Deployment plan) (pl_DeploymentUpdates plan) 0 0) false []) order = Some st ∧
    es_errors st = [] ∧ pr_NodeUpdate result = pr_NodeUpdate (es_result st) ∧
    pr_NodeAllocation result = pr_NodeAllocation (es_result st) ∧
    pr_DeploymentUpdates result = pr_DeploymentUpdates (es_result st) ∧
    (pr_Deployment (es_result st) = None → pr_Deployment result = None) ∧
    (es_partialCommit st = true → pr_RefreshIndex result ≠ 0).
Proof.
  intros Hord. unfold evaluatePlan.
  destruct (handleResults _ _ _ _ _ order) as [st|]; simpl; [|done]. intros H.
  exists st. split; [done|].
  destruct (es_partialCommit st) eqn:Hp; simpl in *; [|by injection H as -> ->].
  destruct (indexOf (ss_Index snap "allocs")) as [ai e1], (indexOf (ss_Index snap "nodes")) as [ni e2].
  injection H as <- E. apply app_nil in E as [E1 E]. apply app_nil in E as [E2 E]. apply app_nil in E as [E3 E4].
  destruct (correct_maps ((es_result st) <| pr_RefreshIndex := Z.max ni ai |>)) as (-> & -> & -> & -> & Hdn).
  split_and!; try done. simpl. intros _. destruct (Z.eqb_spec (Z.max ni ai) 0); done.
Qed.

(** A node whose part of the plan is committed with placements. *)
Lemma verdict_true n allocs :
  (∀ m, range m ≡ₚ vals m) → pool_ok (pool n) →
  verdict n = Some (inr true) → pl_NodeAllocation plan !! n = Some allocs → allocs ≠ [] →
  ∃ node existing, ss_NodeByID snap n = inr (Some node) ∧ NodeReady node = true ∧
    ss_AllocsByNodeTerminal snap n false = inr existing ∧ Forall has_resources (proposedAllocs plan n existing) ∧
    (in_range node (proposedAllocs plan n existing) → fits node (proposedAllocs plan n existing)).
Proof.
  intros Hrange Hpool Hv Ha Hne. unfold evaluateNodePlan in Hv. rewrite Ha in Hv. simpl in Hv.
  destruct (Nat.eqb_spec (length allocs) 0) as [E|_]; [by apply nil_length_inv in E|].
  destruct (ss_NodeByID snap n) as [?|[node|]]; [done| |done].
  destruct (bool_decide (nd_Status node ≠ NodeStatusReady) || nd_Drain node) eqn:Hready; [done|].
  apply orb_false_iff in Hready as [Hst Hdr]. apply bool_decide_eq_false, dec_stable in Hst.
  destruct (ss_AllocsByNodeTerminal snap n false) as [?|existing]; [done|].
  assert (Forall has_resources (proposedAllocs plan n existing)) as Hres.
  { destruct (decide (Forall has_resources (proposedAllocs plan n existing))) as [|Hres]; [done|].
    destruct (addUsed_error range (Add zeroResources (nd_Reserved node)) _ Hres) as [e E].
    unfold AllocsFit in Hv. rewrite E in Hv. done. }
  exists node, existing. split_and!; try done.
  { unfold NodeReady. by rewrite Hdr, bool_decide_true. }
  intros Hr. destruct (AllocsFit_spec range Hrange node _ (pool n) Hpool Hr Hres) as (ok & d & u & E & Hiff).
  rewrite E in Hv. simpl in Hv. apply Hiff. congruence.
Qed.
End verify_spec.

Lemma verdict_total range pool snap plan n :
  (∀ m, range m ≡ₚ vals m) → pool_ok (pool n) → ∃ r, evaluateNodePlan range pool snap plan n = Some r.
Proof.
  intros Hrange Hpool. unfold evaluateNodePlan. repeat case_match; eauto.
  match goal with |- context [AllocsFit range ?nd ?al None ?p] =>
    destruct (AllocsFit_total range Hrange nd al p Hpool) as [x ->] end.
  simpl. eauto.
Qed.

Lemma handleResults_total range pool snap plan order : ∀ st,
  (∀ m, range m ≡ₚ vals m) → (∀ n, pool_ok (pool n)) →
  ∃ st', handleResults range pool snap plan st order = Some st'.
Proof.
  induction order as [|n order IH]; intros st Hrange Hpool; simpl; [by eauto|].
  destruct (verdict_total range pool snap plan n Hrange (Hpool n)) as [r ->]. simpl.
  destruct (handleResult plan st n r) as [st1 []]; eauto.
Qed.

(** The entry of a node in a plan's map, if there is something in it. *)
Definition part (m : gmap string (list Allocation)) (n : string) : option (list Allocation) :=
  match m !! n with Some (a :: l) => Some (a :: l) | _ => None end.

Lemma part_spec m n l : part m n = Some l ↔ m !! n = Some l ∧ l ≠ [].
Proof. unfold part. destruct (m !! n) as [[|a l']|]; naive_solver. Qed.

Lemma part_eq (r m : gmap string (list Allocation)) n :
  (∀ l, r !! n = Some l ↔ m !! n = Some l ∧ l ≠ []) → r !! n = part m n.
Proof. intros Hr. apply option_eq. intros l. by rewrite Hr, part_spec. Qed.

(** The result keeps the plan's part for a node, or drops it. *)
Definition keeps (result : PlanResult) (plan : Plan) (n : string) : Prop :=
  pr_NodeUpdate result !! n = part (pl_NodeUpdate plan) n ∧
  pr_NodeAllocation result !! n = part (pl_NodeAllocation plan) n.
Definition drops (result : PlanResult) (n : string) : Prop :=
  pr_NodeUpdate result !! n = None ∧ pr_NodeAllocation result !! n = None.

(** ** Properties *)

Section properties.
Context (range : gmap string Resources → list Resources) (pool : string → list Bitmap).
Context (range_perm : ∀ m, range m ≡ₚ vals m) (pool_sizes : ∀ n, pool_ok (pool n)).
Context (snap : StateSnapshot) (plan : Plan) (order : list string).
Context (order_perm : order ≡ₚ planNodes plan).

(** A node on which the result places allocations. *)
Lemma placed_node result nodeID placed :
  evaluatePlan range pool snap plan order = Some (result, []) → pr_NodeAllocation result !! nodeID = Some placed →
  ∃ node existing, ss_NodeByID snap nodeID = inr (Some node) ∧ NodeReady node = true ∧
    ss_AllocsByNodeTerminal snap nodeID false = inr existing ∧ pl_NodeAllocation plan !! nodeID = Some placed ∧
    default [] (pr_NodeUpdate result !! nodeID) = default [] (pl_NodeUpdate plan !! nodeID) ∧
    let gone := default [] (pl_NodeUpdate plan !! nodeID) ++ placed in
    let final := filter (fun a => al_ID a ∉ al_ID <$> gone) existing ++ placed in
    Forall has_resources final ∧ (in_range node final → fits node final).
Proof.
  intros Hev Hpl.
  destruct (evaluatePlan_spec range pool snap plan order result order_perm Hev)
    as (st & Hrun & Herr & Eu & Ea & _). rewrite Ea in Hpl.
  destruct (handleResults_spec _ _ _ _ _ _ _ _ (agrees_start range pool snap plan) Hrun Herr)
    as [Hag|(_ & _ & _ & E & _)]; [|by rewrite E in Hpl].
  apply (ag_alloc _ _ _ _ _ _ Hag) in Hpl as (Hc & Hpa & Hne).
  destruct (verdict_true range pool snap plan nodeID placed range_perm (pool_sizes nodeID) (proj2 Hc) Hpa Hne)
    as (node & existing & H1 & H2 & H3 & Hres & H4).
  exists node, existing. split_and!; try done.
  - rewrite Eu. destruct (pr_NodeUpdate (es_result st) !! nodeID) as [l|] eqn:El.
    + apply (ag_update _ _ _ _ _ _ Hag) in El as (_ & -> & _). done.
    + destruct (pl_NodeUpdate plan !! nodeID) as [[|x l]|] eqn:Ep; [done| |done].
      assert (pr_NodeUpdate (es_result st) !! nodeID = Some (x :: l)) by (by apply (ag_update _ _ _ _ _ _ Hag)). congruence.
  - simpl. unfold proposedAllocs in H4, Hres. rewrite Hpa in H4, Hres. simpl in H4, Hres.
    rewrite RemoveAllocs_spec in H4. by rewrite RemoveAllocs_spec in Hres.
Qed.

(** C15. A committed plan overcommits no node.  Whatever the order in which the
    nodes are evaluated, each node on which the result places allocations exists
    in the snapshot, is ready and not draining, and its allocations that are not
    terminal, without those the plan stops or replaces and with those it places,
    fit on it: the four resource dimensions, the bandwidth of each device and
    the ports of each IP. *)
Theorem plan_never_overcommits result :
  evaluatePlan range pool snap plan order = Some (result, []) →
  ∀ nodeID placed, pr_NodeAllocation result !! nodeID = Some placed →
  ∃ node existing, ss_NodeByID snap nodeID = inr (Some node) ∧ NodeReady node = true ∧
    ss_AllocsByNodeTerminal snap nodeID false = inr existing ∧
    pl_NodeAllocation plan !! nodeID = Some placed ∧
    let gone := default [] (pl_NodeUpdate plan !! nodeID) ++ placed in
    let final := filter (fun a => al_ID a ∉ al_ID <$> gone) existing ++ placed in
    in_range node final → fits node final.
Proof.
  intros Hev nodeID placed Hpl.
  destruct (placed_node result nodeID placed Hev Hpl) as (node & existing & H1 & H2 & H3 & H4 & _ & _ & H5).
  by exists node, existing.
Qed.

Lemma agrees_keeps st n :
  agrees range pool snap plan st (reverse order ++ []) → n ∈ order →
  evaluateNodePlan range pool snap plan n = Some (inr true) → keeps (es_result st) plan n.
Proof.
  intros Hag Hn Hv.
  assert (committed range pool snap plan (reverse order ++ []) n)
    by (split; [by rewrite app_nil_r, elem_of_reverse|done]).
  split; apply part_eq; intros l.
  - rewrite (ag_update _ _ _ _ _ _ Hag). tauto.
  - rewrite (ag_alloc _ _ _ _ _ _ Hag). tauto.
Qed.

Lemma agrees_drops st n :
  agrees range pool snap plan st (reverse order ++ []) →
  evaluateNodePlan range pool snap plan n = Some (inr false) → drops (es_result st) n.
Proof.
  intros Hag Hv. split; apply eq_None_not_Some; intros [l Hl].
  - apply (ag_update _ _ _ _ _ _ Hag) in Hl as [[_ ?] _]. congruence.
  - apply (ag_alloc _ _ _ _ _ _ Hag) in Hl as [[_ ?] _]. congruence.
Qed.

(** C20. The evaluation of a plan always returns.  Without errors, the result keeps
    or drops the whole part of the plan for each node; it drops a node only with
    a refresh index that makes the scheduler catch up; and an all-at-once plan
    is kept as a whole or dropped as a whole, its deployment included. *)
Theorem plan_commits_whole_nodes :
  ∃ result errs, evaluatePlan range pool snap plan order = Some (result, errs) ∧
  (errs = [] →
    (∀ n, n ∈ planNodes plan → keeps result plan n ∨ drops result n) ∧
    (pr_RefreshIndex result = 0 → ∀ n, n ∈ planNodes plan → keeps result plan n) ∧
    (pl_AllAtOnce plan = true →
       (∀ n, n ∈ planNodes plan → keeps result plan n) ∨
       (pr_NodeUpdate result = ∅ ∧ pr_NodeAllocation result = ∅ ∧
        pr_Deployment result = None ∧ pr_DeploymentUpdates result = []))).
Proof.
  set (st0 := mkEvalState (mkPlanResult ∅ ∅ (pl_Deployment plan) (pl_DeploymentUpdates plan) 0 0) false []).
  destruct (handleResults_total range pool snap plan order st0 range_perm pool_sizes) as [st' Hst'].
  assert (∃ result errs, evaluatePlan range pool snap plan order = Some (result, errs)) as (result & errs & Hev).
  { unfold evaluatePlan. fold st0. rewrite Hst'. simpl. repeat case_match; eauto. }
  exists result, errs. split; [done|]. intros ->.
  destruct (evaluatePlan_spec range pool snap plan order result order_perm Hev)
    as (st & Hrun & Herr & Eu & Ea & Edu & Ed & Hpart).
  assert (∀ n, keeps (es_result st) plan n → keeps result plan n) as Hk
    by (intros n; unfold keeps; by rewrite Eu, Ea).
  assert (∀ n, drops (es_result st) n → drops result n) as Hd by (intros n; unfold drops; by rewrite Eu, Ea).
  setoid_rewrite <- order_perm.
  destruct (handleResults_spec _ _ _ _ _ _ _ _ (agrees_start range pool snap plan) Hrun Herr)
    as [Hag|(Hall & Hp & E1 & E2 & E3 & E4 & _)].
  - assert (∀ n, n ∈ order → ∃ fit, evaluateNodePlan range pool snap plan n = Some (inr fit)) as Hseen.
    { intros n Hn. apply (ag_seen _ _ _ _ _ _ Hag). by rewrite app_nil_r, elem_of_reverse. }
    assert (es_partialCommit st = false → ∀ n, n ∈ order → keeps result plan n) as Hfull.
    { intros Hp n Hn. apply Hk, agrees_keeps; [done..|]. destruct (Hseen n Hn) as [[] Hf]; [done|].
      apply not_true_iff_false in Hp. destruct Hp. apply (ag_partial _ _ _ _ _ _ Hag). exists n.
      by rewrite app_nil_r, elem_of_reverse. }
    split_and!.
    + intros n Hn. destruct (Hseen n Hn) as [[] Hf]; [left; by apply Hk, agrees_keeps|right; by apply Hd, agrees_drops].
    + intros Hr. apply Hfull. destruct (es_partialCommit st); [by destruct (Hpart eq_refl)|done].
    + intros Hall. left. apply Hfull, (ag_all _ _ _ _ _ _ Hag Hall).
  - rewrite Eu, Ea, Edu. split_and!.
    + intros n Hn. right. unfold drops. by rewrite Eu, Ea, E1, E2.
    + intros Hr. by destruct (Hpart Hp).
    + intros _. right. split_and!; try done. by apply Ed.
Qed.
End properties.

(** After a partial commit the deployment lists as placed canaries only
    allocations that the result places, all of them canaries of the plan. *)
Theorem plan_canaries_placed range pool snap plan order result errs :
  evaluatePlan range pool snap plan order = Some (result, errs) → pr_RefreshIndex result ≠ 0 →
  ∀ d group s id, pr_Deployment result = Some d → d_TaskGroups d !! group = Some s →
    id ∈ ds_PlacedCanaries s →
    (∃ node l a, pr_NodeAllocation result !! node = Some l ∧ a ∈ l ∧ al_ID a = id) ∧
    (∃ d0 s0, pl_Deployment plan = Some d0 ∧ d_TaskGroups d0 !! group = Some s0 ∧ id ∈ ds_PlacedCanaries s0).
Proof.
  intros Hev Hr d group s id Hd Hs Hid. unfold evaluatePlan in Hev.
  set (st0 := mkEvalState _ _ _) in Hev.
  destruct (handleResults range pool snap plan st0 order) as [st|] eqn:Hrun; simpl in Hev; [|done].
  assert (∀ l st1, handleResults range pool snap plan st1 l = Some st →
    (∀ d, pr_Deployment (es_result st1) = Some d → pl_Deployment plan = Some d) ∧
    pr_RefreshIndex (es_result st1) = 0 →
    (∀ d, pr_Deployment (es_result st) = Some d → pl_Deployment plan = Some d) ∧
    pr_RefreshIndex (es_result st) = 0) as Hdep.
  { induction l as [|n l IH]; intros st1 Hl H1; simpl in Hl; [by injection Hl as <-|].
    destruct (evaluateNodePlan _ _ _ _ n) as [r|]; simpl in Hl; [|done].
    unfold handleResult in Hl. destruct r as [e|[]].
    - by injection Hl as <-.
    - apply (IH _ Hl). repeat case_match; exact H1.
    - destruct (pl_AllAtOnce plan); [injection Hl as <-; split; [done|apply H1]|]. by apply (IH _ Hl). }
  destruct (Hdep order st0 Hrun) as [Hpl Hr0]; [done|].
  destruct (es_partialCommit st); [|injection Hev as <- _; congruence].
  destruct (indexOf _) as [ai e1], (indexOf (ss_Index snap "nodes")) as [ni e2]. injection Hev as <- _.
  unfold correctDeploymentCanaries in *. simpl in *.
  destruct (pr_Deployment (es_result st)) as [d0|] eqn:E0; [|simpl in Hd; congruence].
  destruct (existsb _ (vals (d_TaskGroups d0))) eqn:Hcan; simpl in *.
  - injection Hd as <-. simpl in Hs. apply lookup_fmap_Some in Hs as (s0 & <- & Hs0). simpl in Hid.
    apply list_elem_of_filter in Hid as [Hin Hid]. split; [|by eauto 10].
    apply elem_of_list_to_set, list_elem_of_fmap in Hin as (a & -> & Ha).
    apply elem_of_flat in Ha as (k & l & Hk & Ha). eauto 10.
  - rewrite E0 in Hd. injection Hd as <-. exfalso. apply not_true_iff_false in Hcan. apply Hcan, existsb_exists.
    exists s. split; [apply list_elem_of_In, elem_of_vals; by eauto|].
    destruct (ds_PlacedCanaries s); [by apply not_elem_of_nil in Hid|done].
Qed.

(** ** The properties at a concrete plan

    Two nodes; the plan's placement on the first does not fit beside what runs
    there, the one on the second does. *)

Definition snap1 : StateSnapshot :=
  mkStateSnapshot
    (fun id => inr (if bool_decide (id = "n1") then Some node1
                    else if bool_decide (id = "n2") then Some (node1 <| nd_ID := "n2" |>) else None))
    (fun id _ => inr (if bool_decide (id = "n1") then [alloc1 "a" 3000 8080] else []))
    (fun _ => inr 7).
Definition plan1 : Plan :=
  zeroPlan <| pl_NodeAllocation := {["n1" := [alloc1 "b" 2000 8081]; "n2" := [alloc1 "c" 2000 8080]]} |>
    <| pl_Deployment := Some (mkDeployment "d" "job" 0 0 0
         {["web" := zeroDeploymentState <| ds_PlacedCanaries := ["b"; "c"] |>]} DeploymentStatusRunning "" 0 0) |>.
Definition run1 : option (PlanResult * list PlanError) :=
  evaluatePlan vals (fun _ => []) snap1 plan1 (planNodes plan1).

Lemma plan_never_overcommits_witness :
  match run1 with
  | Some (result, []) =>
      pr_NodeAllocation result !! "n1" = None ∧
      ∃ node existing, ss_NodeByID snap1 "n2" = inr (Some node) ∧ NodeReady node = true ∧
        ss_AllocsByNodeTerminal snap1 "n2" false = inr existing
  | _ => False
  end.
Proof.
  pose proof (plan_never_overcommits vals (fun _ => []) (fun m => reflexivity (vals m))
    (fun _ => List.Forall_nil _) snap1 plan1 (planNodes plan1) (reflexivity _)) as H.
  unfold run1.
  destruct (evaluatePlan vals (fun _ => []) snap1 plan1 (planNodes plan1)) as [[result [|err errs]]|] eqn:E;
    [|vm_compute in E; discriminate E|vm_compute in E; discriminate E].
  specialize (H result eq_refl "n2" [alloc1 "c" 2000 8080]).
  vm_compute in E. injection E as <-. split; [vm_compute; reflexivity|].
  destruct H as (node & existing & H1 & H2 & H3 & _); [vm_compute; reflexivity|].
  exists node, existing. split; [exact H1|split; [exact H2|exact H3]].
Defined.

Lemma plan_commits_whole_nodes_witness :
  ∃ result errs, run1 = Some (result, errs) ∧
    (errs = [] → ∀ n, n ∈ planNodes plan1 → keeps result plan1 n ∨ drops result n).
Proof.
  destruct (plan_commits_whole_nodes vals (fun _ => []) (fun m => reflexivity (vals m))
    (fun _ => List.Forall_nil _) snap1 plan1 (planNodes plan1) (reflexivity _)) as (result & errs & E & H).
  exists result, errs. split; [exact E|]. intros Hn. apply (H Hn).
Defined.

Lemma plan_canaries_placed_witness :
  match run1 with
  | Some (result, errs) =>
      ∃ node l a, pr_NodeAllocation result !! node = Some l ∧ a ∈ l ∧ al_ID a = "c"
  | _ => False
  end.
Proof.
  pose proof (plan_canaries_placed vals (fun _ => []) snap1 plan1 (planNodes plan1)) as H.
  unfold run1.
  destruct (evaluatePlan vals (fun _ => []) snap1 plan1 (planNodes plan1)) as [[result errs]|] eqn:E;
    [|vm_compute in E; discriminate E].
  specialize (H result errs eq_refl). vm_compute in E. injection E as <- <-.
  destruct (H ltac:(vm_compute; discriminate)
    (mkDeployment "d" "job" 0 0 0 {["web" := zeroDeploymentState <| ds_PlacedCanaries := ["c"] |>]}
       DeploymentStatusRunning "" 0 0)
    "web" (zeroDeploymentState <| ds_PlacedCanaries := ["c"] |>) "c") as [Hp _];
    [vm_compute; reflexivity|vm_compute; reflexivity|left|exact Hp].
Defined.
