(* ===== verification/AllocSets.v ===== *)
(** * Allocation sets and name indexes (src/scheduler/reconcile_util.go)

    An [allocSet] maps allocation IDs to allocations.  Where the code ranges over
    a set and the order can be observed, the order is that of [range], any
    function that lists the entries of a map; the sort of [nameOrder] is a sort
    of that list, so that every order that Go's unstable sort may give to equal
    indexes is the order of some [range].  [None] is a panic. *)

From stdpp Require Import base gmap strings list sorting.
From Stdlib Require Import ZArith Lia.
From S2P Require Import Prelude Bitmap Structs Resources Jobs Allocs.
Open Scope string_scope.
Open Scope list_scope.
Open Scope Z_scope.

Abbreviation allocSet := (gmap string Allocation).
Abbreviation allocMatrix := (gmap string (gmap string Allocation)).

(** Go's [uint]. *)
Definition uint (z : Z) : Z := z mod 2 ^ 64.

Definition addToMatrix (m : allocMatrix) (a : Allocation) : allocMatrix :=
  let s := default ∅ (m !! al_TaskGroup a) in
  <[al_TaskGroup a := <[al_ID a := a]> s]> m.

Definition addGroup (m : allocMatrix) (tg : TaskGroup) : allocMatrix :=
  match m !! tg_Name tg with Some _ => m | None => <[tg_Name tg := ∅]> m end.

Definition newAllocMatrix (job : option Job) (allocs : list Allocation) : allocMatrix :=
  let m := foldl addToMatrix ∅ allocs in
  match job with
  | None => m
  | Some job => foldl addGroup m (jb_TaskGroups job)
  end.

Definition newAllocSet (allocs : list Allocation) : allocSet :=
  foldl (fun s a => <[al_ID a := a]> s) ∅ allocs.

Definition nameSet (a : allocSet) : gset string := list_to_set (al_Name <$> vals a).

Definition byIndex : relation Allocation := fun x y => Index x ≤ Index y.
#[export] Instance byIndex_dec : RelDecision byIndex.
Proof. intros x y. unfold byIndex. apply _. Defined.

Definition difference (a : allocSet) (others : list allocSet) : allocSet :=
  filter (fun kv => Forall (fun other : allocSet => other !! kv.1 = None) others) a.

(** The last set that has a key wins. *)
Definition union (a : allocSet) (others : list allocSet) : allocSet :=
  foldl (fun u s => s ∪ u) a others.

Definition fromKeys (a : allocSet) (keys : list string) : allocSet :=
  foldl (fun from k => match a !! k with Some alloc => <[k := alloc]> from | None => from end) ∅ keys.

Record allocNameIndex := mkAllocNameIndex {
  ni_job : string;
  ni_taskGroup : string;
  ni_count : Z;
  ni_b : Bitmap
}.
#[export] Instance eta_allocNameIndex : Eta allocNameIndex := fun r =>
  mkAllocNameIndex (ni_job r) (ni_taskGroup r) (ni_count r) (ni_b r).

Definition nameAt (a : allocNameIndex) (idx : Z) : string := AllocName (ni_job a) (ni_taskGroup a) idx.

(** Setting a list of indexes. *)
Fixpoint setAll (b : Bitmap) (l : list Z) : option Bitmap :=
  match l with
  | [] => Some b
  | i :: l => b ← Set_ b i; setAll b l
  end.

Fixpoint unsetAll (b : Bitmap) (l : list Z) : option Bitmap :=
  match l with
  | [] => Some b
  | i :: l => b ← Unset b i; unsetAll b l
  end.

(** The size that [bitmapFrom] computes. *)
Definition bitmapSize (input : allocSet) (minSize : Z) : Z :=
  let max := foldr (fun a max => if max <? Index a then Index a else max) 0 (vals input) in
  let minSize := if minSize <? Z.of_nat (size input) then Z.of_nat (size input) else minSize in
  let max := if max <? minSize then minSize else max in
  let max := if max =? 0 then 8 else max in
  let remainder := max mod 8 in
  if remainder =? 0 then max else uint (max + 8 - remainder).

Definition bitmapFrom (input : allocSet) (minSize : Z) : option Bitmap :=
  match NewBitmap (bitmapSize input minSize) with
  | inl _ => None
  | inr bitmap => setAll bitmap (Index <$> vals input)
  end.

Definition newAllocNameIndex (job taskGroup : string) (count : Z) (inp : allocSet)
    : option allocNameIndex :=
  b ← bitmapFrom inp (uint count);
  Some (mkAllocNameIndex job taskGroup count b).

(** The loop of [Highest], from index [i - 1] down; [h] are the names so far. *)
Fixpoint highestLoop (a : allocNameIndex) (i : nat) (n : Z) (b : Bitmap) (h : gset string)
    : option (gset string * Bitmap) :=
  match i with
  | O => Some (h, b)
  | S idx =>
      if Z.of_nat (size h) <? n then
        c ← Check_ b (Z.of_nat idx);
        if (c : bool) then
          b ← Unset b (Z.of_nat idx);
          highestLoop a idx n b ({[nameAt a (Z.of_nat idx)]} ∪ h)
        else highestLoop a idx n b h
      else Some (h, b)
  end.

Definition Highest (a : allocNameIndex) (n : Z) : option (gset string * allocNameIndex) :=
  r ← highestLoop a (Z.to_nat (Size (ni_b a))) n (ni_b a) ∅;
  Some (r.1, a <| ni_b := r.2 |>).

Definition SetNames (a : allocNameIndex) (set : allocSet) : option allocNameIndex :=
  b ← setAll (ni_b a) (Index <$> vals set);
  Some (a <| ni_b := b |>).

Definition UnsetNames (a : allocNameIndex) (set : allocSet) : option allocNameIndex :=
  b ← unsetAll (ni_b a) (Index <$> vals set);
  Some (a <| ni_b := b |>).

Definition UnsetIndex (a : allocNameIndex) (idx : Z) : option allocNameIndex :=
  b ← Unset (ni_b a) idx;
  Some (a <| ni_b := b |>).

(** A loop over candidate indexes that takes those whose name is not in [taken]
    until [n] names are found.  The second component is the remainder after the
    last name taken, if any; the third whether the method returns from the loop. *)
Fixpoint takeNames (a : allocNameIndex) (taken : gset string) (n : Z) (next : list string)
    (remainder : Z) (l : list Z) : option (allocNameIndex * list string * Z * bool) :=
  match l with
  | [] => Some (a, next, remainder, false)
  | idx :: l =>
      let name := nameAt a idx in
      if bool_decide (name ∈ taken) then takeNames a taken n next remainder l
      else
        let next := next ++ [name] in
        b ← Set_ (ni_b a) idx;
        let a := a <| ni_b := b |> in
        let remainder := uint (n - Z.of_nat (length next)) in
        if remainder =? 0 then Some (a, next, remainder, true)
        else takeNames a taken n next remainder l
  end.

(** The last loop of [NextCanaries]: [i < remainder], and the body may assign
    [remainder]; [fuel] bounds the iterations. *)
Fixpoint overlapCanaries (fuel : nat) (a : allocNameIndex) (taken : gset string) (n : Z)
    (next : list string) (i remainder : Z) : option (allocNameIndex * list string) :=
  match fuel with
  | O => Some (a, next)
  | S fuel =>
      if i <? remainder then
        let name := nameAt a i in
        if bool_decide (name ∈ taken) then overlapCanaries fuel a taken n next (i + 1) remainder
        else
          let next := next ++ [name] in
          b ← Set_ (ni_b a) i;
          let a := a <| ni_b := b |> in
          let remainder := uint (n - Z.of_nat (length next)) in
          if remainder =? 0 then Some (a, next)
          else overlapCanaries fuel a taken n next (i + 1) remainder
      else Some (a, next)
  end.

(** The [remainder] of the first loop is a new variable that shadows the outer
    one, which is still 0 after that loop. *)
Definition NextCanaries (a : allocNameIndex) (n : Z) (existing destructive : allocSet)
    : option (allocNameIndex * list string) :=
  let existingNames := nameSet existing in
  dmap ← bitmapFrom destructive (uint (ni_count a));
  idxs ← IndexesInRange dmap true 0 (uint (uint (ni_count a) - 1));
  r ← takeNames a existingNames n [] 0 idxs;
  let '(a, next, _, done) := r in
  if (done : bool) then Some (a, next)
  else
    idxs ← IndexesInRange (ni_b a) false 0 (uint (uint (ni_count a) - 1));
    r ← takeNames a existingNames n next 0 idxs;
    let '(a, next, remainder, done) := r in
    if (done : bool) then Some (a, next)
    else overlapCanaries (Z.to_nat remainder) a existingNames n next 0 remainder.

(** The last loop of [Next]: the indexes below [remainder], used or not. *)
Definition overlapNext (a : allocNameIndex) (next : list string) (remainder : Z)
    : option (allocNameIndex * list string) :=
  b ← setAll (ni_b a) (seqZ 0 remainder);
  Some (a <| ni_b := b |>, next ++ (nameAt a <$> seqZ 0 remainder)).

Definition Next (a : allocNameIndex) (n : Z) : option (allocNameIndex * list string) :=
  idxs ← IndexesInRange (ni_b a) false 0 (uint (uint (ni_count a) - 1));
  r ← takeNames a ∅ n [] n idxs;
  let '(a, next, remainder, done) := r in
  if (done : bool) then Some (a, next) else overlapNext a next remainder.

Section ordered.
Variable range : allocSet → list (string * Allocation).

Definition nameOrder (a : allocSet) : list Allocation := merge_sort byIndex (range a).*2.

(** The three sets of [filterByTainted]; the job of an allocation on a tainted
    node is dereferenced. *)
Definition addTainted (nodes : gmap string (option Node)) (sets : allocSet * allocSet * allocSet)
    (alloc : Allocation) : option (allocSet * allocSet * allocSet) :=
  let '(untainted, migrate, lost) := sets in
  match nodes !! al_NodeID alloc with
  | None => Some (<[al_ID alloc := alloc]> untainted, migrate, lost)
  | Some n =>
      job ← al_Job alloc;
      if bool_decide (jb_Type job = JobTypeBatch) && RanSuccessfully alloc then
        Some (<[al_ID alloc := alloc]> untainted, migrate, lost)
      else
        match n with
        | None => Some (untainted, migrate, <[al_ID alloc := alloc]> lost)
        | Some n =>
            if NodeTerminal n then Some (untainted, migrate, <[al_ID alloc := alloc]> lost)
            else Some (untainted, <[al_ID alloc := alloc]> migrate, lost)
        end
  end.

Fixpoint foldTainted (nodes : gmap string (option Node)) (sets : allocSet * allocSet * allocSet)
    (l : list Allocation) : option (allocSet * allocSet * allocSet) :=
  match l with
  | [] => Some sets
  | a :: l => sets ← addTainted nodes sets a; foldTainted nodes sets l
  end.

Definition filterByTainted (a : allocSet) (nodes : gmap string (option Node))
    : option (allocSet * allocSet * allocSet) :=
  foldTainted nodes (∅, ∅, ∅) (range a).*2.

Definition filterByDeployment (a : allocSet) (id : string) : allocSet * allocSet :=
  foldl (fun '(match_, nonmatch) alloc =>
      if bool_decide (al_DeploymentID alloc = id) then (<[al_ID alloc := alloc]> match_, nonmatch)
      else (match_, <[al_ID alloc := alloc]> nonmatch))
    (∅, ∅) (range a).*2.
End ordered.

(** * What the operations on allocation sets compute

    The sets that the reconciler builds entry by entry are filters of the set it
    ranges over, whatever the order; the name index is a set of indexes. *)

(** Each allocation is stored under its ID. *)
Definition keyed (s : allocSet) : Prop := ∀ k a, s !! k = Some a → al_ID a = k.

Lemma keyed_filter (P : string * Allocation → Prop) `{∀ x, Decision (P x)} s : keyed s → keyed (filter P s).
Proof. intros Hs k a [Ha _]%map_lookup_filter_Some. by apply Hs. Qed.

Lemma keyed_sub s s' : s' ⊆ s → keyed s → keyed s'.
Proof. intros Hsub Hs k a Ha. eapply Hs, lookup_weaken; done. Qed.

(** Insertion of a list of allocations, each under its ID. *)
Definition insertAll (l : list Allocation) (s : allocSet) : allocSet :=
  foldl (fun s a => <[al_ID a := a]> s) s l.

Lemma insertAll_lookup l : ∀ s k a,
  NoDup (al_ID <$> l) →
  insertAll l s !! k = Some a ↔ (a ∈ l ∧ al_ID a = k) ∨ ((k ∉ al_ID <$> l) ∧ s !! k = Some a).
Proof.
  induction l as [|x l IH]; intros s k a Hnd; simpl.
  { rewrite elem_of_nil. set_solver. }
  apply NoDup_cons in Hnd as [Hx Hnd]. unfold insertAll in *. simpl. rewrite IH by done.
  rewrite !elem_of_cons, lookup_insert_Some. split.
  - intros [[Ha <-]|(Hk & [[<- <-]|[Hne Hs]])].
    + left. auto.
    + left. auto.
    + right. split; [|done]. by intros [->|?].
  - intros [[[->|Ha] <-]|(Hk & Hs)].
    + right. split; [done|by left].
    + left. done.
    + right. split; [tauto|]. right. split; [|done]. intros <-. tauto.
Qed.

Section ordered.
Context (range : allocSet → list (string * Allocation)).
Context (range_perm : ∀ s, range s ≡ₚ map_to_list s).

Lemma range_elem s k a : (k, a) ∈ range s ↔ s !! k = Some a.
Proof. by rewrite range_perm, elem_of_map_to_list. Qed.

Lemma range_vals s : (range s).*2 ≡ₚ vals s.
Proof. unfold vals. by rewrite range_perm. Qed.

Lemma length_range s : length (range s) = size s.
Proof. by rewrite range_perm, length_map_to_list. Qed.

Lemma keyed_ids s : keyed s → al_ID <$> vals s ≡ₚ (map_to_list s).*1.
Proof.
  intros Hs. unfold vals. rewrite <- list_fmap_compose. apply Permutation_refl'.
  apply list_fmap_ext. intros i [k a] Hi. simpl. apply Hs, elem_of_map_to_list.
  by eapply list_elem_of_lookup_2.
Qed.

Lemma NoDup_range_ids s : keyed s → NoDup (al_ID <$> (range s).*2).
Proof. intros Hs. rewrite range_vals, keyed_ids by done. apply NoDup_fst_map_to_list. Qed.

(** Ranging over a set and inserting what satisfies [P] is a filter. *)
Lemma insertAll_filter (P : Allocation → Prop) `{∀ a, Decision (P a)} s :
  keyed s → insertAll (filter P (range s).*2) ∅ = filter (fun kv => P kv.2) s.
Proof.
  intros Hs. apply map_eq. intros k. apply option_eq. intros a.
  rewrite insertAll_lookup, map_lookup_filter_Some, list_elem_of_filter; cycle 1.
  { eapply sublist_NoDup; [apply (NoDup_range_ids s Hs)|]. apply fmap_sublist, sublist_filter. }
  rewrite range_vals, elem_of_vals, lookup_empty. simpl. split.
  - intros [[[HP [k' Hk]] <-]|[_ ?]]; [|done]. by rewrite (Hs k' a Hk).
  - intros [Hk HP]. left. split_and!; eauto.
Qed.

(** ** Taint *)

Inductive taint := Untainted | Migrating | Lost.
#[global] Instance taint_dec : EqDecision taint.
Proof. solve_decision. Defined.

(** A finished allocation of a batch job is left alone; one on a node that is
    gone or down is lost; one on another tainted node migrates. *)
Definition taintOf (nodes : gmap string (option Node)) (a : Allocation) : taint :=
  match nodes !! al_NodeID a with
  | None => Untainted
  | Some n =>
      if from_option (fun j => bool_decide (jb_Type j = JobTypeBatch)) false (al_Job a) && RanSuccessfully a
      then Untainted
      else match n with
           | None => Lost
           | Some n => if NodeTerminal n then Lost else Migrating
           end
  end.

Definition tainted (nodes : gmap string (option Node)) (t : taint) (s : allocSet) : allocSet :=
  filter (fun kv => taintOf nodes kv.2 = t) s.

Definition have_jobs (s : allocSet) : Prop := ∀ k a, s !! k = Some a → is_Some (al_Job a).

Lemma foldTainted_spec nodes l : ∀ u m d,
  Forall (fun a => is_Some (al_Job a)) l →
  foldTainted nodes (u, m, d) l =
    Some (insertAll (filter (fun a => taintOf nodes a = Untainted) l) u,
          insertAll (filter (fun a => taintOf nodes a = Migrating) l) m,
          insertAll (filter (fun a => taintOf nodes a = Lost) l) d).
Proof.
  induction l as [|a l IH]; intros u m d Hj; [done|].
  apply Forall_cons in Hj as [[j Hj] Hl]. rewrite !filter_cons. cbn [foldTainted]. unfold addTainted, taintOf.
  destruct (nodes !! al_NodeID a) as [n|]; [|cbn; by rewrite IH].
  rewrite Hj. cbn. destruct (bool_decide _ && _); [cbn; by rewrite IH|].
  destruct n as [n|]; [destruct (NodeTerminal n)|]; cbn; by rewrite IH.
Qed.

Lemma filterByTainted_spec s nodes :
  keyed s → have_jobs s →
  filterByTainted range s nodes =
    Some (tainted nodes Untainted s, tainted nodes Migrating s, tainted nodes Lost s).
Proof.
  intros Hs Hj. unfold filterByTainted, tainted. rewrite foldTainted_spec.
  - by rewrite !insertAll_filter.
  - apply Forall_forall. intros a Ha. rewrite range_vals in Ha. apply elem_of_vals in Ha as [k Hk].
    by eapply Hj.
Qed.

Lemma tainted_disjoint nodes s t t' : t ≠ t' → tainted nodes t s ##ₘ tainted nodes t' s.
Proof.
  intros Hne. apply map_disjoint_spec. intros k x y [Hx Hxt]%map_lookup_filter_Some [Hy Hyt]%map_lookup_filter_Some.
  simplify_eq/=.
Qed.

Lemma tainted_union nodes s :
  tainted nodes Untainted s ∪ tainted nodes Migrating s ∪ tainted nodes Lost s = s.
Proof.
  apply map_eq. intros k. unfold tainted. rewrite !lookup_union, !map_lookup_filter.
  destruct (s !! k) as [a|]; simpl; [|done].
  destruct (taintOf nodes a); repeat case_guard; simpl in *; congruence || done.
Qed.

(** ** Deployment *)

Lemma filterByDeployment_spec s id :
  keyed s →
  filterByDeployment range s id =
    (filter (fun kv => al_DeploymentID kv.2 = id) s, filter (fun kv => al_DeploymentID kv.2 ≠ id) s).
Proof.
  intros Hs. unfold filterByDeployment.
  assert (∀ l m n, foldl (fun '(m, n) alloc =>
      if bool_decide (al_DeploymentID alloc = id) then (<[al_ID alloc := alloc]> m, n)
      else (m, <[al_ID alloc := alloc]> n)) (m, n) l =
    (insertAll (filter (fun a => al_DeploymentID a = id) l) m,
     insertAll (filter (fun a => al_DeploymentID a ≠ id) l) n)) as Hf.
  { induction l as [|a l IH]; intros m n; [done|]. rewrite !filter_cons. cbn [foldl].
    case_bool_decide as E; rewrite IH; destruct (decide (al_DeploymentID a = id)), (decide (al_DeploymentID a ≠ id));
      done || congruence. }
  rewrite Hf. by rewrite !insertAll_filter.
Qed.

Lemma nameOrder_perm s : nameOrder range s ≡ₚ vals s.
Proof. unfold nameOrder. by rewrite merge_sort_Permutation, range_vals. Qed.

Lemma nameOrder_sorted s : StronglySorted byIndex (nameOrder range s).
Proof.
  unfold nameOrder. apply StronglySorted_merge_sort; unfold byIndex.
  - intros x y z ? ?. lia.
  - intros x y. lia.
Qed.
End ordered.
