(* ===== verification/NameIndex.v ===== *)
(** * The name index of the reconciler as a set of indexes

    [bitmapFrom], [Next] and [Highest] of src/scheduler/reconcile_util.go on
    allocations whose names carry distinct indexes. *)

From stdpp Require Import base gmap strings list sorting.
From Stdlib Require Import ZArith Lia.
From S2P Require Import Prelude Bitmap Structs Resources Jobs Allocs AllocSets.
Open Scope string_scope.
Open Scope list_scope.
Open Scope Z_scope.

Lemma AllocName_inj job group i j :
  0 ≤ i < 2 ^ 63 → 0 ≤ j < 2 ^ 63 → AllocName job group i = AllocName job group j → i = j.
Proof.
  intros Hi Hj E.
  set (a := zeroAllocation <| al_JobID := job |> <| al_TaskGroup := group |> <| al_Name := AllocName job group i |>).
  rewrite <- (AllocName_Index a i), <- (AllocName_Index a j); done.
Qed.

Lemma nameAt_inj a i j : 0 ≤ i < 2 ^ 63 → 0 ≤ j < 2 ^ 63 → nameAt a i = nameAt a j → i = j.
Proof. apply AllocName_inj. Qed.

Lemma setAll_spec l : ∀ b,
  (∀ i, i ∈ l → 0 ≤ i < Size b) →
  ∃ b', setAll b l = Some b' ∧ Size b' = Size b ∧ ∀ j, bit b' j = true ↔ bit b j = true ∨ j ∈ l.
Proof.
  induction l as [|i l IH]; intros b Hl; simpl.
  { exists b. split_and!; try done. intros j. rewrite elem_of_nil. tauto. }
  destruct (Set_spec b i) as (b1 & -> & Hs1 & Hb1); [apply Hl; left|]. simpl.
  destruct (IH b1) as (b2 & -> & Hs2 & Hb2); [intros k Hk; rewrite Hs1; apply Hl; by right|].
  exists b2. split_and!; [done|congruence|]. intros j.
  rewrite Hb2, Hb1, orb_true_iff, Z.eqb_eq, elem_of_cons. tauto.
Qed.

(** ** The size of the bitmap *)

(** An index that [bitmapFrom] with minimum size [count] has room for. *)
Definition index_fits (count : Z) (a : Allocation) : Prop :=
  0 ≤ Index a < 2 ^ 62 ∧ (Index a < count ∨ Index a mod 8 ≠ 0).

Lemma max_index_spec l :
  let max := foldr (fun a max => if max <? Index a then Index a else max) 0 l in
  0 ≤ max ∧ (∀ a, a ∈ l → Index a ≤ max) ∧ (max = 0 ∨ ∃ a, a ∈ l ∧ Index a = max).
Proof.
  induction l as [|a l (I1 & I2 & I3)]; simpl.
  { split_and!; [lia| |by left]. intros a Ha. by apply not_elem_of_nil in Ha. }
  destruct (Z.ltb_spec (foldr (fun a max => if max <? Index a then Index a else max) 0 l) (Index a)).
  - split_and!; [lia| |]; [|right; exists a; split; [left|done]].
    intros b [->|Hb]%elem_of_cons; [lia|]. specialize (I2 b Hb). lia.
  - split_and!; [done| |].
    + intros b [->|Hb]%elem_of_cons; [done|]. by apply I2.
    + destruct I3 as [?|(b & ? & ?)]; [by left|right]. exists b. split; [by right|done].
Qed.

Lemma bitmapSize_spec s count :
  0 ≤ count < 2 ^ 62 → Z.of_nat (size s) < 2 ^ 62 → (∀ k a, s !! k = Some a → index_fits count a) →
  let n := bitmapSize s count in
  0 < n < 2 ^ 63 ∧ n mod 8 = 0 ∧ count ≤ n ∧ ∀ k a, s !! k = Some a → Index a < n.
Proof.
  intros Hc Hs Hfit. unfold bitmapSize.
  destruct (max_index_spec (vals s)) as (M1 & M2 & M3).
  set (max := foldr _ 0 (vals s)) in *.
  set (minSize := if count <? Z.of_nat (size s) then Z.of_nat (size s) else count).
  assert (count ≤ minSize < 2 ^ 62) by (unfold minSize; destruct (Z.ltb_spec count (Z.of_nat (size s))); lia).
  assert (max < 2 ^ 62) as Hmax.
  { destruct M3 as [->|(a & [k Hk]%elem_of_vals & <-)]; [lia|]. apply (Hfit k a Hk). }
  set (m := if (if max <? minSize then minSize else max) =? 0 then 8 else if max <? minSize then minSize else max).
  assert (0 < m < 2 ^ 62 ∧ minSize ≤ m ∧ max ≤ m) as (Hm & Hmm & Hmx).
  { unfold m. destruct (Z.ltb_spec max minSize);
      match goal with |- context [?x =? 0] => destruct (Z.eqb_spec x 0) end; lia. }
  fold m. cbv zeta. pose proof (Z.mod_pos_bound m 8 ltac:(lia)) as Hr. pose proof (Z.div_mod m 8 ltac:(lia)) as Hd.
  assert (∀ k a, s !! k = Some a → Index a ≤ m) as Hle.
  { intros k a Hk. assert (Index a ≤ max); [|lia]. apply M2, elem_of_vals. eauto. }
  destruct (Z.eqb_spec (m mod 8) 0) as [E|E].
  - split_and!; [lia|lia|done|lia|]. intros k a Hk. specialize (Hle k a Hk).
    destruct (Hfit k a Hk) as [_ [Hlt|Hne]]; [lia|]. destruct (decide (Index a = m)) as [E2|]; [|lia]. congruence.
  - unfold uint. rewrite Z.mod_small by lia. split_and!; [lia|lia| |lia|].
    + replace (m + 8 - m mod 8) with ((m / 8 + 1) * 8) by lia. apply Z.mod_mul. lia.
    + intros k a Hk. specialize (Hle k a Hk). lia.
Qed.

Lemma bitmapFrom_spec s count :
  0 ≤ count < 2 ^ 62 → Z.of_nat (size s) < 2 ^ 62 → (∀ k a, s !! k = Some a → index_fits count a) →
  ∃ b, bitmapFrom s (uint count) = Some b ∧ count ≤ Size b < 2 ^ 63 ∧
    ∀ j, bit b j = true ↔ ∃ k a, s !! k = Some a ∧ Index a = j.
Proof.
  intros Hc Hs Hfit. unfold bitmapFrom, uint. rewrite (Z.mod_small count) by lia.
  destruct (bitmapSize_spec s count Hc Hs Hfit) as (N1 & N2 & N3 & N4).
  destruct (NewBitmap_spec (bitmapSize s count)) as (b0 & -> & Hs0 & _ & Hb0); [lia|done|].
  destruct (setAll_spec (Index <$> vals s) b0) as (b & -> & Hsb & Hb).
  { intros i (a & -> & [k Hk]%elem_of_vals)%list_elem_of_fmap. rewrite Hs0. split; [apply (Hfit k a Hk)|by eapply N4]. }
  exists b. split_and!; [done|lia|lia|]. intros j. rewrite Hb, Hb0, list_elem_of_fmap. setoid_rewrite elem_of_vals.
  naive_solver.
Qed.

(** ** [Next] *)

Definition freeNames (a : allocNameIndex) : list Z :=
  filter (fun j => bit (ni_b a) j = false) (seqZ 0 (ni_count a)).

Lemma takeNames_spec n l : ∀ a next rem,
  Z.of_nat (length next) < n < 2 ^ 63 → n - Z.of_nat (length next) ≤ Z.of_nat (length l) →
  (∀ i, i ∈ l → 0 ≤ i < Size (ni_b a)) →
  ∃ a', takeNames a ∅ n next rem l =
    Some (a', next ++ (nameAt a <$> take (Z.to_nat (n - Z.of_nat (length next))) l), 0, true).
Proof.
  induction l as [|i l IH]; intros a next rem Hn Hl Hin; simpl in Hl; [lia|].
  cbn [takeNames]. rewrite bool_decide_false by set_solver.
  destruct (Set_spec (ni_b a) i) as (b & -> & Hsb & _); [apply Hin; left|]. cbn [mbind option_bind].
  rewrite length_app. cbn [length]. unfold uint.
  rewrite Z.mod_small by lia.
  destruct (Z.eqb_spec (n - Z.of_nat (length next + 1)) 0) as [E|E].
  - exists (a <| ni_b := b |>). repeat f_equal; [|lia].
    replace (Z.to_nat (n - Z.of_nat (length next))) with 1%nat by lia. done.
  - destruct (IH (a <| ni_b := b |>) (next ++ [nameAt a i]) (n - Z.of_nat (length next + 1))) as [a' E'].
    + rewrite length_app. simpl. lia.
    + rewrite length_app. simpl. lia.
    + intros j Hj. simpl. rewrite Hsb. apply Hin. by right.
    + exists a'. rewrite E', length_app.
      replace (Z.to_nat (n - Z.of_nat (length next))) with (S (Z.to_nat (n - Z.of_nat (length next + 1)))) by lia.
      simpl. by rewrite <- app_assoc.
Qed.

(** With enough free names, [Next] takes the lowest ones. *)
Lemma Next_spec a n :
  0 < n → n ≤ Z.of_nat (length (freeNames a)) → 0 < ni_count a < 2 ^ 62 → ni_count a ≤ Size (ni_b a) →
  ∃ a', Next a n = Some (a', nameAt a <$> take (Z.to_nat n) (freeNames a)).
Proof.
  intros Hn Hf Hc Hs. unfold Next.
  assert (uint (uint (ni_count a) - 1) = ni_count a - 1) as ->
    by (unfold uint; rewrite (Z.mod_small (ni_count a)) by lia; apply Z.mod_small; lia).
  rewrite IndexesInRange_spec by lia. cbn [mbind option_bind].
  replace (Z.min (ni_count a - 1 + 1) (Size (ni_b a)) - 0) with (ni_count a) by lia.
  fold (freeNames a).
  assert (Z.of_nat (length (freeNames a)) ≤ ni_count a) as Hlen.
  { unfold freeNames. pose proof (length_filter (fun j => bit (ni_b a) j = false) (seqZ 0 (ni_count a))) as Hl.
    rewrite length_seqZ in Hl. lia. }
  destruct (takeNames_spec n (freeNames a) a [] n) as [a' ->].
  - simpl. lia.
  - simpl. lia.
  - intros i [_ Hi%elem_of_seqZ]%list_elem_of_filter. lia.
  - exists a'. simpl. by rewrite Z.sub_0_r.
Qed.

(** ** [Highest] *)

(** The used indexes below [i], highest first. *)
Definition descending (b : Bitmap) (i : nat) : list Z :=
  reverse (filter (fun j => bit b j = true) (seqZ 0 (Z.of_nat i))).

Lemma descending_S b i :
  descending b (S i) = (if bit b (Z.of_nat i) then [Z.of_nat i] else []) ++ descending b i.
Proof.
  unfold descending. rewrite seqZ_S, Z.add_0_l, filter_app, reverse_app, filter_cons.
  case_decide as E; destruct (bit b (Z.of_nat i)); done || congruence.
Qed.

Lemma descending_ext b b' i :
  (∀ j, 0 ≤ j < Z.of_nat i → bit b' j = bit b j) → descending b' i = descending b i.
Proof.
  intros Hb. unfold descending. f_equal. apply filter_ext_in.
  intros j Hj%elem_of_seqZ. rewrite Hb by lia. done.
Qed.

Lemma elem_of_descending b i j : j ∈ descending b i ↔ 0 ≤ j < Z.of_nat i ∧ bit b j = true.
Proof. unfold descending. rewrite elem_of_reverse, list_elem_of_filter, elem_of_seqZ. lia || naive_solver lia. Qed.

Lemma NoDup_descending b i : NoDup (descending b i).
Proof. unfold descending. rewrite reverse_Permutation. apply NoDup_filter, NoDup_seqZ. Qed.

Lemma highestLoop_spec a n i : ∀ b h,
  Z.of_nat i ≤ Size b < 2 ^ 63 → (∀ j, 0 ≤ j < Z.of_nat i → nameAt a j ∉ h) →
  ∃ b', highestLoop a i n b h =
    Some (list_to_set (nameAt a <$> take (Z.to_nat (n - Z.of_nat (size h))) (descending b i)) ∪ h, b').
Proof.
  induction i as [|i IH]; intros b h Hs Hh.
  { exists b. cbn [highestLoop]. assert (descending b 0 = []) as -> by done.
    rewrite take_nil. simpl. by rewrite (left_id_L ∅ (∪)). }
  cbn [highestLoop]. destruct (Z.ltb_spec (Z.of_nat (size h)) n) as [Hn|Hn]; cycle 1.
  { exists b. replace (Z.to_nat (n - Z.of_nat (size h))) with 0%nat by lia. simpl. by rewrite (left_id_L ∅ (∪)). }
  rewrite Check_in by lia. cbn [mbind option_bind]. rewrite descending_S.
  destruct (bit b (Z.of_nat i)) eqn:Hb.
  - destruct (Unset_spec b (Z.of_nat i)) as (b1 & -> & Hs1 & Hb1); [lia|]. cbn [mbind option_bind].
    assert (nameAt a (Z.of_nat i) ∉ h) as Hi by (apply Hh; lia).
    destruct (IH b1 ({[nameAt a (Z.of_nat i)]} ∪ h)) as [b' ->].
    + rewrite Hs1. lia.
    + intros j Hj [E%elem_of_singleton|Hin]%elem_of_union; [|by apply (Hh j); [lia|]].
      apply nameAt_inj in E; lia.
    + exists b'. do 2 f_equal. rewrite (descending_ext b1 b); cycle 1.
      { intros j Hj. rewrite Hb1. destruct (Z.eqb_spec j (Z.of_nat i)); [lia|done]. }
      rewrite size_union by set_solver. rewrite size_singleton.
      replace (Z.to_nat (n - Z.of_nat (size h)))
        with (S (Z.to_nat (n - Z.of_nat (1 + size h)))) by lia.
      simpl. set_solver.
  - destruct (IH b h) as [b' ->]; [lia|intros j Hj; apply Hh; lia|]. by exists b'.
Qed.

(** [Highest] returns the names of the [n] highest indexes in use. *)
Lemma Highest_spec a n :
  Size (ni_b a) < 2 ^ 63 →
  ∃ a', Highest a n =
    Some (list_to_set (nameAt a <$> take (Z.to_nat n) (descending (ni_b a) (Z.to_nat (Size (ni_b a))))), a').
Proof.
  intros Hs. unfold Highest.
  destruct (highestLoop_spec a n (Z.to_nat (Size (ni_b a))) (ni_b a) ∅) as [b' ->].
  - rewrite Size_eq in *. lia.
  - intros j _. set_solver.
  - rewrite size_empty, Z.sub_0_r. cbn [mbind option_bind fst snd]. eexists. f_equal. f_equal.
    by rewrite (right_id_L ∅ (∪)).
Qed.
