(* ===== verification/Reconcile.v ===== *)
(** * The reconciler (src/scheduler/reconcile.go)

    Given a job, its allocations, its deployment and the tainted nodes, the
    reconciler computes what to place, to update in place and to stop.  The
    fields of [allocReconciler] that [Compute] assigns are its state; methods
    return the new state, and [None] where the Go code panics.  The pointer
    shared by [a.deployment] and [a.result.deployment] is modelled by storing
    the deployment in both fields at once.

    Parameters: [range], the order in which Go ranges over a set of allocations;
    [allocUpdateFn], the callback that classifies an update, a closure whose
    captured variables (the stack and the plan, for the generic scheduler) are the
    state [ar_updater] it is called with and returns; [uuid], the result of
    [GenerateUUID()] for a new deployment. *)

From stdpp Require Import base gmap strings list sorting.
From Stdlib Require Import ZArith Lia.
From S2P Require Import Prelude Bitmap Structs Resources Jobs Allocs Plans AllocSets.
Open Scope string_scope.
Open Scope list_scope.
Open Scope Z_scope.

Definition allocNotNeeded : string := "alloc not needed due to job update".
Definition allocMigrating : string := "alloc is being migrated".
Definition allocUpdating : string := "alloc is being updated due to job update".
Definition allocLost : string := "alloc is lost since its node is down".
Definition allocNodeTainted : string := "alloc not needed as node is tainted".

Record allocPlaceResult := mkAllocPlaceResult {
  ap_name : string;
  ap_canary : bool;
  ap_taskGroup : TaskGroup;
  ap_previousAlloc : option Allocation
}.

Record allocStopResult := mkAllocStopResult {
  as_alloc : Allocation;
  as_clientStatus : string;
  as_statusDescription : string
}.

Record reconcileResults := mkReconcileResults {
  rr_deployment : option Deployment;
  rr_deploymentUpdates : list DeploymentStatusUpdate;
  rr_place : list allocPlaceResult;
  rr_inplaceUpdate : list (option Allocation);
  rr_stop : list allocStopResult;
  rr_desiredTGUpdates : gmap string DesiredUpdates;
  rr_followupEvalWait : Z
}.
#[export] Instance eta_reconcileResults : Eta reconcileResults := fun r =>
  mkReconcileResults (rr_deployment r) (rr_deploymentUpdates r) (rr_place r) (rr_inplaceUpdate r)
    (rr_stop r) (rr_desiredTGUpdates r) (rr_followupEvalWait r).

Record allocReconciler (U : Type) := mkAllocReconciler {
  ar_updater : U;
  ar_batch : bool;
  ar_job : option Job;
  ar_jobID : string;
  ar_oldDeployment : option Deployment;
  ar_deployment : option Deployment;
  ar_deploymentPaused : bool;
  ar_deploymentFailed : bool;
  ar_taintedNodes : gmap string (option Node);
  ar_existingAllocs : list Allocation;
  ar_result : reconcileResults
}.
#[global] Arguments mkAllocReconciler {U}.
#[global] Arguments ar_updater {U}.
#[global] Arguments ar_batch {U}.
#[global] Arguments ar_job {U}.
#[global] Arguments ar_jobID {U}.
#[global] Arguments ar_oldDeployment {U}.
#[global] Arguments ar_deployment {U}.
#[global] Arguments ar_deploymentPaused {U}.
#[global] Arguments ar_deploymentFailed {U}.
#[global] Arguments ar_taintedNodes {U}.
#[global] Arguments ar_existingAllocs {U}.
#[global] Arguments ar_result {U}.
#[export] Instance eta_allocReconciler U : Eta (allocReconciler U) := fun r =>
  mkAllocReconciler (ar_updater r) (ar_batch r) (ar_job r) (ar_jobID r) (ar_oldDeployment r) (ar_deployment r)
    (ar_deploymentPaused r) (ar_deploymentFailed r) (ar_taintedNodes r) (ar_existingAllocs r)
    (ar_result r).

Definition Changes (r : reconcileResults) : Z :=
  Z.of_nat (length (rr_place r)) + Z.of_nat (length (rr_inplaceUpdate r)) + Z.of_nat (length (rr_stop r)).

Definition NewAllocReconciler {U : Type} (updater : U) (batch : bool) (jobID : string) (job : option Job)
    (deployment : option Deployment) (existingAllocs : list Allocation)
    (taintedNodes : gmap string (option Node)) : allocReconciler U :=
  mkAllocReconciler updater batch job jobID None deployment false false taintedNodes existingAllocs
    (mkReconcileResults None [] [] [] [] ∅ 0).

Definition IntMin (a b : Z) : Z := if a <? b then a else b.

(** Appending to the lists of [a.result]. *)
Definition addStop {U : Type} (a : allocReconciler U) (l : list allocStopResult) : allocReconciler U :=
  a <| ar_result ::= fun r => r <| rr_stop := rr_stop r ++ l |> |>.
Definition addPlace {U : Type} (a : allocReconciler U) (l : list allocPlaceResult) : allocReconciler U :=
  a <| ar_result ::= fun r => r <| rr_place := rr_place r ++ l |> |>.
Definition addDeploymentUpdate {U : Type} (a : allocReconciler U) (d : Deployment) (status desc : string)
    : allocReconciler U :=
  a <| ar_result ::= fun r => r <| rr_deploymentUpdates :=
    rr_deploymentUpdates r ++ [mkDeploymentStatusUpdate (d_ID d) status desc] |> |>.

(** [cancelDeployments]; the job is dereferenced only when it is not nil. *)
Definition cancelDeployments {U : Type} (a : allocReconciler U) : allocReconciler U :=
  if Stopped (ar_job a) then
    let a := match ar_deployment a with
             | Some d => if Active d then
                 addDeploymentUpdate a d DeploymentStatusCancelled DescriptionStoppedJob else a
             | None => a
             end in
    a <| ar_oldDeployment := ar_deployment a |> <| ar_deployment := None |>
  else
    match ar_deployment a, ar_job a with
    | Some d, Some job =>
        let a :=
          if negb (d_JobCreateIndex d =? jb_CreateIndex job) || negb (d_JobVersion d =? jb_Version job) then
            let a := if Active d then
                addDeploymentUpdate a d DeploymentStatusCancelled DescriptionNewerJob else a in
            a <| ar_oldDeployment := Some d |> <| ar_deployment := None |>
          else a in
        if bool_decide (d_Status d = DeploymentStatusSuccessful) then
          a <| ar_oldDeployment := Some d |> <| ar_deployment := None |>
        else a
    | _, _ => a
    end.

Section reconcile.
Variable range : allocSet → list (string * Allocation).
Context {U : Type}.
Variable allocUpdateFn : U → Allocation → Job → TaskGroup → (bool * bool * option Allocation) * U.
Variable uuid : string.

Definition markStop (a : allocReconciler U) (allocs : allocSet) (clientStatus desc : string)
    : allocReconciler U :=
  addStop a ((fun alloc => mkAllocStopResult alloc clientStatus desc) <$> (range allocs).*2).

(** Stopping all of a group, as [handleStop] does and [computeGroup] for a group
    that is gone. *)
Definition stopAllOf (a : allocReconciler U) (all : allocSet)
    : option (allocReconciler U * allocSet * allocSet * allocSet) :=
  r ← filterByTainted range all (ar_taintedNodes a);
  let '(untainted, migrate, lost) := r in
  let a := markStop a untainted "" allocNotNeeded in
  let a := markStop a migrate "" allocNotNeeded in
  let a := markStop a lost AllocClientStatusLost allocLost in
  Some (a, untainted, migrate, lost).

Definition setDesired (a : allocReconciler U) (group : string) (d : DesiredUpdates) : allocReconciler U :=
  a <| ar_result ::= fun r => r <| rr_desiredTGUpdates := <[group := d]> (rr_desiredTGUpdates r) |> |>.

(** [m] are the groups in the order of Go's range. *)
Fixpoint handleStop (a : allocReconciler U) (m : list (string * allocSet)) : option (allocReconciler U) :=
  match m with
  | [] => Some a
  | (group, s) :: m =>
      r ← stopAllOf a s;
      let '(a, _, _, _) := r in
      let desiredChanges := zeroDesiredUpdates <| du_Stop := Z.of_nat (size s) |> in
      handleStop (setDesired a group desiredChanges) m
  end.

(** The canaries of the states of a deployment, those not promoted or all. *)
Definition canaryIDs (promotedToo : bool) (d : option Deployment) : list string :=
  match d with
  | None => []
  | Some d => vals (d_TaskGroups d) ≫= fun s =>
      if promotedToo || negb (ds_Promoted s) then ds_PlacedCanaries s else []
  end.

Definition handleGroupCanaries (a : allocReconciler U) (all : allocSet) (desiredChanges : DesiredUpdates)
    : option (allocReconciler U * DesiredUpdates * allocSet * allocSet) :=
  let stop := canaryIDs false (ar_oldDeployment a) ++
    match ar_deployment a with
    | Some d => if bool_decide (d_Status d = DeploymentStatusFailed) then canaryIDs false (Some d) else []
    | None => []
    end in
  let stopSet := fromKeys all stop in
  let a := markStop a stopSet "" allocNotNeeded in
  let desiredChanges := desiredChanges <| du_Stop ::= Z.add (Z.of_nat (size stopSet)) |> in
  let all := difference all [stopSet] in
  match ar_deployment a with
  | None => Some (a, desiredChanges, ∅, all)
  | Some d =>
      let canaries := fromKeys all (canaryIDs true (Some d)) in
      r ← filterByTainted range canaries (ar_taintedNodes a);
      let '(untainted, migrate, lost) := r in
      let a := markStop a migrate "" allocMigrating in
      let a := markStop a lost AllocClientStatusLost allocLost in
      Some (a, desiredChanges, untainted, difference all [migrate; lost])
  end.

(** The loop of [computeLimit] over the allocations of the deployment: [None] once
    an allocation is unhealthy, else the limit left. *)
Fixpoint limitLoop (limit : Z) (l : list Allocation) : option Z :=
  match l with
  | [] => Some limit
  | alloc :: l =>
      if IsUnhealthy (al_DeploymentStatus alloc) then None
      else limitLoop (if IsHealthy (al_DeploymentStatus alloc) then limit else limit - 1) l
  end.

Definition computeLimit (a : allocReconciler U) (group : TaskGroup)
    (untainted destructive migrate : allocSet) (canaryState : bool) : Z :=
  match tg_Update group with
  | None => tg_Count group
  | Some update =>
      if (size destructive + size migrate =? 0)%nat then tg_Count group
      else if ar_deploymentPaused a || ar_deploymentFailed a then 0
      else if canaryState then 0
      else
        let limit := us_MaxParallel update in
        match ar_deployment a with
        | None => limit
        | Some d =>
            let '(partOf, _) := filterByDeployment range untainted (d_ID d) in
            default 0 (limitLoop limit (range partOf).*2)
        end
  end.

(** New allocations with the given names. *)
Definition placeNames (tg : TaskGroup) (canary : bool) (names : list string) : list allocPlaceResult :=
  (fun name => mkAllocPlaceResult name canary tg None) <$> names.

Definition computePlacements (group : TaskGroup) (nameIndex : allocNameIndex)
    (untainted migrate : allocSet) : option (allocNameIndex * list allocPlaceResult) :=
  let existing := Z.of_nat (size untainted + size migrate) in
  if tg_Count group <=? existing then Some (nameIndex, [])
  else
    r ← Next nameIndex (uint (tg_Count group - existing));
    let '(nameIndex, names) := r in
    Some (nameIndex, placeNames group false names).

Definition notNeeded (alloc : Allocation) : allocStopResult := mkAllocStopResult alloc "" allocNotNeeded.

(** *** [computeStop] *)

(** The loop that stops the allocations with the name of a canary: [stop] and
    [untainted] are updated, [stopped] are the results, [remove] is what is left
    to remove; the method returns from the loop when it reaches 0. *)
Fixpoint stopNamesakes (canaryNames : gset string) (l : list (string * Allocation))
    (stop untainted : allocSet) (stopped : list allocStopResult) (remove : Z)
    : allocSet * allocSet * list allocStopResult * Z :=
  match l with
  | [] => (stop, untainted, stopped, remove)
  | (id, alloc) :: l =>
      if bool_decide (al_Name alloc ∈ canaryNames) then
        let stop := <[id := alloc]> stop in
        let stopped := stopped ++ [notNeeded alloc] in
        let untainted := delete id untainted in
        if remove - 1 =? 0 then (stop, untainted, stopped, 0)
        else stopNamesakes canaryNames l stop untainted stopped (remove - 1)
      else stopNamesakes canaryNames l stop untainted stopped remove
  end.

(** The loop over the migrating allocations, which also frees their names. *)
Fixpoint stopMigrating (removeNames : gset string) (l : list (string * Allocation))
    (nameIndex : allocNameIndex) (stop migrate : allocSet) (stopped : list allocStopResult) (remove : Z)
    : option (allocNameIndex * allocSet * allocSet * list allocStopResult * Z) :=
  match l with
  | [] => Some (nameIndex, stop, migrate, stopped, remove)
  | (id, alloc) :: l =>
      if bool_decide (al_Name alloc ∈ removeNames) then
        let stopped := stopped ++ [notNeeded alloc] in
        let migrate := delete id migrate in
        let stop := <[id := alloc]> stop in
        nameIndex ← UnsetIndex nameIndex (Index alloc);
        if remove - 1 =? 0 then Some (nameIndex, stop, migrate, stopped, 0)
        else stopMigrating removeNames l nameIndex stop migrate stopped (remove - 1)
      else stopMigrating removeNames l nameIndex stop migrate stopped remove
  end.

(** The allocations of [untainted] with a name to remove. *)
Definition stopHighest (removeNames : gset string) (untainted : allocSet) : list (string * Allocation) :=
  filter (fun kv => al_Name kv.2 ∈ removeNames) (range untainted).

(** The new state, the name index, [migrate] (from which the code deletes) and
    the stopped allocations. *)
Definition computeStop (a : allocReconciler U) (group : TaskGroup) (nameIndex : allocNameIndex)
    (untainted migrate lost canaries : allocSet) (canaryState : bool)
    : option (allocReconciler U * allocNameIndex * allocSet * allocSet) :=
  let stop := union ∅ [lost] in
  let a := markStop a lost AllocClientStatusLost allocLost in
  let untainted := if canaryState then difference untainted [canaries] else untainted in
  let remove := Z.of_nat (size untainted) + Z.of_nat (size migrate) - tg_Count group in
  if remove <=? 0 then Some (a, nameIndex, migrate, stop)
  else
    let '(stop, untainted, stopped, remove) :=
      if negb canaryState && negb (size canaries =? 0)%nat then
        stopNamesakes (nameSet canaries) (range (difference untainted [canaries])) stop untainted [] remove
      else (stop, untainted, [], remove) in
    let a := addStop a stopped in
    if remove =? 0 then Some (a, nameIndex, migrate, stop)
    else
      r ←
        (if negb (size migrate =? 0)%nat then
           mNames ← newAllocNameIndex (ar_jobID a) (tg_Name group) (tg_Count group) migrate;
           h ← Highest mNames (uint remove);
           stopMigrating h.1 (range migrate) nameIndex stop migrate [] remove
         else Some (nameIndex, stop, migrate, [], remove));
      let '(nameIndex, stop, migrate, stopped, remove) := r in
      let a := addStop a stopped in
      if remove =? 0 then Some (a, nameIndex, migrate, stop)
      else
        h ← Highest nameIndex (uint remove);
        let chosen := stopHighest h.1 untainted in
        let a := addStop a (notNeeded <$> chosen.*2) in
        Some (a, h.2, migrate, list_to_map chosen ∪ stop).

(** The sets of [computeUpdates], and the updated allocations for the result. *)
Definition addUpdate (job : Job) (group : TaskGroup)
    (acc : allocSet * allocSet * allocSet * list (option Allocation) * U) (alloc : Allocation)
    : allocSet * allocSet * allocSet * list (option Allocation) * U :=
  let '(ignore, inplace, destructive, updates, u) := acc in
  let '(ignoreChange, destructiveChange, inplaceAlloc, u) := allocUpdateFn u alloc job group in
  if ignoreChange then (<[al_ID alloc := alloc]> ignore, inplace, destructive, updates, u)
  else if destructiveChange then (ignore, inplace, <[al_ID alloc := alloc]> destructive, updates, u)
  else (ignore, <[al_ID alloc := alloc]> inplace, destructive, updates ++ [inplaceAlloc], u).

Definition computeUpdates (a : allocReconciler U) (job : Job) (group : TaskGroup) (untainted : allocSet)
    : allocReconciler U * allocSet * allocSet * allocSet :=
  let '(ignore, inplace, destructive, updates, u) :=
    foldl (addUpdate job group) (∅, ∅, ∅, [], ar_updater a) (range untainted).*2 in
  (a <| ar_result ::= fun r => r <| rr_inplaceUpdate := rr_inplaceUpdate r ++ updates |> |>
     <| ar_updater := u |>,
   ignore, inplace, destructive).

(** *** [computeGroup] *)

(** The deployment state of the group, and whether the deployment has it. *)
Definition groupState (a : allocReconciler U) (group : string) (tg : TaskGroup) : DeploymentState * bool :=
  match ar_deployment a ≫= fun d => d_TaskGroups d !! group with
  | Some dstate => (dstate, true)
  | None =>
      let autorevert := match tg_Update tg with Some u => us_AutoRevert u | None => false end in
      (zeroDeploymentState <| ds_AutoRevert := autorevert |>, false)
  end.

Definition inCanaryState (dstate : DeploymentState) : bool :=
  negb (ds_DesiredCanaries dstate =? 0) && negb (ds_Promoted dstate).

(** The canaries to create. *)
Definition placeCanaries (a : allocReconciler U) (tg : TaskGroup) (strategy : UpdateStrategy)
    (nameIndex : allocNameIndex) (canaries destructive : allocSet) (existingDeployment : bool)
    (dstate : DeploymentState) (desiredChanges : DesiredUpdates)
    : option (allocReconciler U * allocNameIndex * DeploymentState * DesiredUpdates) :=
  let number := us_Canary strategy - Z.of_nat (size canaries) in
  let number := IntMin (Z.of_nat (size destructive)) number in
  let desiredChanges := desiredChanges <| du_Canary ::= Z.add (uint number) |> in
  let dstate := if existingDeployment then dstate else dstate <| ds_DesiredCanaries := us_Canary strategy |> in
  r ← NextCanaries nameIndex (uint number) canaries destructive;
  let '(nameIndex, names) := r in
  let a := addPlace a (placeNames tg true names) in
  Some (a, nameIndex, dstate, desiredChanges).

(** The new placements and the destructive updates; [None] when the slice
    expression [nameOrder()[:min]] is given a negative bound.  The last
    component is the limit that is left. *)
Definition placeAndUpdate (a : allocReconciler U) (tg : TaskGroup) (place : list allocPlaceResult)
    (destructive : allocSet) (limit : Z) (desiredChanges : DesiredUpdates)
    : option (allocReconciler U * DesiredUpdates * Z) :=
  let desiredChanges := desiredChanges <| du_Place ::= Z.add (Z.of_nat (length place)) |> in
  let a := addPlace a place in
  let min := IntMin (Z.of_nat (size destructive)) limit in
  let desiredChanges := desiredChanges
    <| du_DestructiveUpdate ::= Z.add (uint min) |>
    <| du_Ignore ::= Z.add (uint (Z.of_nat (size destructive) - min)) |> in
  if min <? 0 then None
  else
    let chosen := take (Z.to_nat min) (nameOrder range destructive) in
    let a := addStop a ((fun alloc => mkAllocStopResult alloc "" allocUpdating) <$> chosen) in
    let a := addPlace a ((fun alloc => mkAllocPlaceResult (al_Name alloc) false tg (Some alloc)) <$> chosen) in
    Some (a, desiredChanges, limit - min).

(** The loop over the migrating allocations: [migrated] is the counter, and the
    result says whether a follow-up is needed. *)
Fixpoint migrateLoop (a : allocReconciler U) (tg : TaskGroup) (limit migrated : Z) (l : list Allocation)
    : allocReconciler U * bool :=
  match l with
  | [] => (a, false)
  | alloc :: l =>
      if ar_deploymentFailed a || ar_deploymentPaused a then
        migrateLoop (addStop a [mkAllocStopResult alloc "" allocNodeTainted]) tg limit migrated l
      else if limit <=? migrated then (a, true)
      else
        let a := addStop a [mkAllocStopResult alloc "" allocMigrating] in
        let a := addPlace a [mkAllocPlaceResult (al_Name alloc) false tg (Some alloc)] in
        migrateLoop a tg limit (migrated + 1) l
  end.

(** The state and the sets after the stops and the updates are decided. *)
Record groupSets := mkGroupSets {
  gs_canaries : allocSet;
  gs_untainted : allocSet;
  gs_migrate : allocSet;
  gs_lost : allocSet;
  gs_inplace : allocSet;
  gs_destructive : allocSet;
  gs_nameIndex : allocNameIndex
}.

(** From the start of [computeGroup] to the computation of the updates. *)
Definition classifyGroup (a : allocReconciler U) (job : Job) (group : string) (tg : TaskGroup)
    (all : allocSet) (dstate : DeploymentState)
    : option (allocReconciler U * DesiredUpdates * groupSets) :=
  r ← handleGroupCanaries a all zeroDesiredUpdates;
  let '(a, desiredChanges, canaries, all) := r in
  r ← filterByTainted range all (ar_taintedNodes a);
  let '(untainted, migrate, lost) := r in
  nameIndex ← newAllocNameIndex (ar_jobID a) group (tg_Count tg) (union untainted [migrate]);
  let canaryState := inCanaryState dstate in
  r ← computeStop a tg nameIndex untainted migrate lost canaries canaryState;
  let '(a, nameIndex, migrate, stop) := r in
  let desiredChanges := desiredChanges <| du_Stop ::= Z.add (Z.of_nat (size stop)) |> in
  let untainted := difference untainted [stop] in
  r ← (if negb canaryState then
         nameIndex ← SetNames nameIndex canaries;
         Some (union untainted [canaries], nameIndex)
       else Some (untainted, nameIndex));
  let '(untainted, nameIndex) := r in
  let '(a, ignore, inplace, destructive) := computeUpdates a job tg untainted in
  let desiredChanges := desiredChanges
    <| du_Ignore ::= Z.add (Z.of_nat (size ignore)) |>
    <| du_InPlaceUpdate ::= Z.add (Z.of_nat (size inplace)) |> in
  Some (a, desiredChanges, mkGroupSets canaries untainted migrate lost inplace destructive nameIndex).

(** Every allocation of the deployment is healthy. *)
Definition allHealthy (untainted : allocSet) (d : Deployment) : bool :=
  forallb (fun alloc => IsHealthy (al_DeploymentStatus alloc))
    (vals (filterByDeployment range untainted (d_ID d)).1).

(** The wait of the follow-up evaluation, and the deployment that is created. *)
Definition finishGroup (a : allocReconciler U) (job : Job) (group : string)
    (strategy : option UpdateStrategy) (dstate : DeploymentState) (followup : bool) : allocReconciler U :=
  let a := match strategy with
           | Some u =>
               if followup && (rr_followupEvalWait (ar_result a) <? us_Stagger u) then
                 a <| ar_result ::= fun r => r <| rr_followupEvalWait := us_Stagger u |> |>
               else a
           | None => a
           end in
  match ar_deployment a, strategy with
  | None, Some _ =>
      if negb (ds_DesiredTotal dstate =? 0) then
        let d := (NewDeployment uuid job) <| d_TaskGroups := {[group := dstate]} |> in
        a <| ar_deployment := Some d |>
          <| ar_result ::= fun r => r <| rr_deployment := Some d |> |>
      else a
  | _, _ => a
  end.

(** From the canaries to the end of [computeGroup]. *)
Definition placeGroup (a : allocReconciler U) (job : Job) (group : string) (tg : TaskGroup)
    (dstate : DeploymentState) (existingDeployment : bool)
    (desiredChanges : DesiredUpdates) (gs : groupSets)
    : option (allocReconciler U * DesiredUpdates * bool) :=
  let '(canaries, untainted, migrate, inplace, destructive) :=
    (gs_canaries gs, gs_untainted gs, gs_migrate gs, gs_inplace gs, gs_destructive gs) in
  let dstate := if existingDeployment then dstate
    else dstate <| ds_DesiredTotal ::= fun n => n + Z.of_nat (size destructive + size inplace) |> in
  let strategy := tg_Update tg in
  let requireCanary :=
    match strategy with
    | Some u => negb (size destructive =? 0)%nat && (Z.of_nat (size canaries) <? us_Canary u) &&
                negb (ds_Promoted dstate)
    | None => false
    end in
  r ← (match strategy with
       | Some u =>
           if requireCanary && negb (ar_deploymentPaused a) && negb (ar_deploymentFailed a) then
             placeCanaries a tg u (gs_nameIndex gs) canaries destructive existingDeployment dstate desiredChanges
           else Some (a, gs_nameIndex gs, dstate, desiredChanges)
       | None => Some (a, gs_nameIndex gs, dstate, desiredChanges)
       end);
  let '(a, nameIndex, dstate, desiredChanges) := r in
  let canaryState := inCanaryState dstate in
  let limit := computeLimit a tg untainted destructive migrate canaryState in
  r ← computePlacements tg nameIndex untainted migrate;
  let '(_, place) := r in
  let dstate := if existingDeployment then dstate
    else dstate <| ds_DesiredTotal ::= fun n => n + Z.of_nat (length place) |> in
  r ← (if negb (ar_deploymentPaused a) && negb (ar_deploymentFailed a) && negb canaryState then
         placeAndUpdate a tg place destructive limit desiredChanges
       else Some (a, desiredChanges <| du_Ignore ::= Z.add (Z.of_nat (size destructive)) |>, limit));
  let '(a, desiredChanges, limit) := r in
  let min := IntMin (Z.of_nat (size migrate)) limit in
  let desiredChanges :=
    if negb (ar_deploymentFailed a) && negb (ar_deploymentPaused a) then
      desiredChanges <| du_Migrate ::= Z.add (uint min) |>
                     <| du_Ignore ::= Z.add (uint (Z.of_nat (size migrate) - min)) |>
    else desiredChanges <| du_Stop ::= Z.add (Z.of_nat (size migrate)) |> in
  let '(a, followup) := migrateLoop a tg limit 0 (nameOrder range migrate) in
  let a := finishGroup a job group strategy dstate followup in
  let deploymentComplete :=
    (size destructive + size inplace + length place + size migrate =? 0)%nat && negb requireCanary in
  let deploymentComplete :=
    if deploymentComplete then
      match ar_deployment a with Some d => allHealthy untainted d | None => true end
    else false in
  Some (a, desiredChanges, deploymentComplete).

Definition computeGroup (a : allocReconciler U) (job : Job) (group : string) (all : allocSet)
    : option (allocReconciler U * bool) :=
  match LookupTaskGroup job group with
  | None =>
      r ← stopAllOf a all;
      let '(a, untainted, migrate, lost) := r in
      let desiredChanges :=
        zeroDesiredUpdates <| du_Stop := Z.of_nat (size untainted + size migrate + size lost) |> in
      Some (setDesired a group desiredChanges, true)
  | Some tg =>
      let '(dstate, existingDeployment) := groupState a group tg in
      r ← classifyGroup a job group tg all dstate;
      let '(a, desiredChanges, gs) := r in
      r ← placeGroup a job group tg dstate existingDeployment desiredChanges gs;
      let '(a, desiredChanges, complete) := r in
      Some (setDesired a group desiredChanges, complete)
  end.

(** The loop of [Compute] over the groups, in the order [m]. *)
Fixpoint computeGroups (a : allocReconciler U) (job : Job) (m : list (string * allocSet)) (complete : bool)
    : option (allocReconciler U * bool) :=
  match m with
  | [] => Some (a, complete)
  | (group, s) :: m =>
      r ← computeGroup a job group s;
      computeGroups r.1 job m (complete && r.2)
  end.

(** [order] gives the order in which [Compute] ranges over the matrix. *)
Definition Compute_ (order : allocMatrix → list (string * allocSet)) (a : allocReconciler U)
    : option (reconcileResults * U) :=
  let m := order (newAllocMatrix (ar_job a) (ar_existingAllocs a)) in
  let a := cancelDeployments a in
  match ar_job a with
  | None => a ← handleStop a m; Some (ar_result a, ar_updater a)
  | Some job =>
      if Stopped (ar_job a) then a ← handleStop a m; Some (ar_result a, ar_updater a)
      else
        let a := match ar_deployment a with
          | Some d => a <| ar_deploymentPaused := bool_decide (d_Status d = DeploymentStatusPaused) |>
                        <| ar_deploymentFailed := bool_decide (d_Status d = DeploymentStatusFailed) |>
          | None => a
          end in
        r ← computeGroups a job m true;
        let '(a, complete) := r in
        let a := match ar_deployment a with
          | Some d => if (complete : bool) then
              addDeploymentUpdate a d DeploymentStatusSuccessful DescriptionSuccessful else a
          | None => a
          end in
        let result := ar_result a in
        Some (match rr_deployment result with
          | Some d => if RequiresPromotion (Some d) then
              result <| rr_deployment := Some (d <| d_StatusDescription := DescriptionRunningNeedsPromotion |>) |>
              else result
          | None => result
          end, ar_updater a)
  end.
End reconcile.
