(* ===== verification/ReconcileSpec.v ===== *)
(** * The stages of the reconciler on a well-formed group

    What [computeStop], [computeUpdates] and [computePlacements] of
    src/scheduler/reconcile.go compute for a group without canaries whose
    allocations have distinct names. *)

From stdpp Require Import base gmap strings list sorting.
From Stdlib Require Import ZArith Lia.
From S2P Require Import Prelude Bitmap Structs Resources Jobs Allocs Plans AllocSets NameIndex Reconcile.
Open Scope string_scope.
Open Scope list_scope.
Open Scope Z_scope.

(** ** Appending results *)

Lemma addStop_app {U} (a : allocReconciler U) l l' : addStop (addStop a l) l' = addStop a (l ++ l').
Proof. unfold addStop, upd_field. destruct a as [? ? ? ? ? ? ? ? ? ? r]. destruct r. simpl. by rewrite app_assoc. Qed.

Lemma addStop_nil {U} (a : allocReconciler U) : addStop a [] = a.
Proof. unfold addStop, upd_field. destruct a as [? ? ? ? ? ? ? ? ? ? r]. destruct r. simpl. by rewrite app_nil_r. Qed.

(** ** Groups *)

(** The allocations of a group of the job, under their IDs, with distinct names
    that carry the job, the group and the index. *)
Record group_ok (jobID group : string) (count : Z) (s : allocSet) : Prop := {
  go_keyed : keyed s;
  go_jobs : have_jobs s;
  go_names : ∀ k a, s !! k = Some a → al_Name a = AllocName jobID group (Index a);
  go_fits : ∀ k a, s !! k = Some a → index_fits count a;
  go_distinct : ∀ k k' a a', s !! k = Some a → s !! k' = Some a' → Index a = Index a' → k = k';
  go_size : Z.of_nat (size s) < 2 ^ 61
}.

Lemma group_ok_sub jobID group count s s' : s' ⊆ s → group_ok jobID group count s → group_ok jobID group count s'.
Proof.
  intros Hsub [H1 H2 H3 H4 H5 H6].
  assert (∀ k a, s' !! k = Some a → s !! k = Some a) as Hl by (intros k a Ha; by eapply lookup_weaken).
  split; [by eapply keyed_sub|intros k a Ha; by eapply H2, Hl|eauto..|].
  pose proof (map_subseteq_size _ _ Hsub). lia.
Qed.

(** ** Choosing the highest names *)

Lemma length_filter_fmap {A B} (f : A → B) (P : B → Prop) `{∀ x, Decision (P x)} (l : list A) :
  length (filter P (f <$> l)) = length (filter (fun x => P (f x)) l).
Proof.
  induction l as [|x l IH]; [done|]. rewrite fmap_cons, !filter_cons.
  repeat case_decide; simpl; congruence.
Qed.

Lemma filter_take {A} `{EqDecision A} (l : list A) n : NoDup l → filter (fun x => x ∈ take n l) l = take n l.
Proof.
  intros Hnd. transitivity (filter (fun x => x ∈ take n l) (take n l ++ drop n l)); [by rewrite take_drop|].
  rewrite filter_app, (filter_all _ (take n l)) by (by apply Forall_forall).
  rewrite (filter_nothing _ (drop n l)); [by rewrite app_nil_r|].
  intros x Hx Hx'. rewrite <- (take_drop n l) in Hnd. apply NoDup_app in Hnd as (_ & Hd & _). by apply (Hd x).
Qed.

Section stages.
Context (range : allocSet → list (string * Allocation)).
Context (range_perm : ∀ s, range s ≡ₚ map_to_list s).
Context (jobID group : string) (count : Z).

(** The name index holds the indexes of the set. *)
Definition indexes (ni : allocNameIndex) (s : allocSet) : Prop :=
  ni_job ni = jobID ∧ ni_taskGroup ni = group ∧ ni_count ni = count ∧
  count ≤ Size (ni_b ni) < 2 ^ 63 ∧
  ∀ j, bit (ni_b ni) j = true ↔ ∃ k a, s !! k = Some a ∧ Index a = j.

Lemma newAllocNameIndex_spec s :
  0 ≤ count < 2 ^ 62 → group_ok jobID group count s →
  ∃ ni, newAllocNameIndex jobID group count s = Some ni ∧ indexes ni s.
Proof.
  intros Hc Hs. unfold newAllocNameIndex. pose proof (go_size _ _ _ _ Hs).
  destruct (bitmapFrom_spec s count Hc) as (b & -> & Hb1 & Hb2); [lia|apply Hs|].
  eexists. split; [done|]. done.
Qed.

Lemma indexes_below ni s k a : group_ok jobID group count s → indexes ni s → s !! k = Some a → 0 ≤ Index a < Size (ni_b ni).
Proof.
  intros Hs (_ & _ & _ & Hsz & Hb) Hk. destruct (go_fits _ _ _ _ Hs k a Hk) as [[? _] _]. split; [done|].
  apply Z.nle_gt. intros Hle. apply bit_out in Hle.
  rewrite (proj2 (Hb (Index a))) in Hle; [done|by eauto].
Qed.

Lemma descending_perm ni s :
  group_ok jobID group count s → indexes ni s →
  descending (ni_b ni) (Z.to_nat (Size (ni_b ni))) ≡ₚ (Index ∘ snd) <$> range s.
Proof.
  intros Hs Hi. apply NoDup_Permutation; [apply NoDup_descending| |].
  - rewrite range_perm. apply NoDup_fmap_2_strong; [|apply NoDup_map_to_list].
    intros [k a] [k' a'] Ha%elem_of_map_to_list Ha'%elem_of_map_to_list E. simpl in E.
    assert (k = k') as <- by (eapply (go_distinct _ _ _ _ Hs); eauto). congruence.
  - intros j. rewrite elem_of_descending, list_elem_of_fmap.
    pose proof Hi as (_ & _ & _ & Hsz & Hb). rewrite Hb. split.
    + intros [_ (k & a & Hk & <-)]. exists (k, a). split; [done|]. by apply range_elem.
    + intros ([k a] & -> & Hk). apply (range_elem range range_perm) in Hk. simpl. split; [|by eauto].
      pose proof (indexes_below ni s k a Hs Hi Hk). rewrite Size_eq in *. lia.
Qed.

(** The entries of [s] whose name is among the [r] highest. *)
Definition topNames (ni : allocNameIndex) (r : nat) : gset string :=
  list_to_set (nameAt ni <$> take r (descending (ni_b ni) (Z.to_nat (Size (ni_b ni))))).

Lemma length_top ni s r :
  group_ok jobID group count s → indexes ni s →
  length (filter (fun kv => al_Name kv.2 ∈ topNames ni r) (range s)) = (r `min` size s)%nat.
Proof.
  intros Hs Hi. set (D := descending (ni_b ni) (Z.to_nat (Size (ni_b ni)))).
  pose proof (descending_perm ni s Hs Hi) as HD. fold D in HD.
  assert (filter (fun kv => al_Name kv.2 ∈ topNames ni r) (range s) =
          filter (fun kv => (Index ∘ snd) kv ∈ take r D) (range s)) as ->.
  { apply filter_ext_in. intros [k a] Hk%(range_elem range range_perm). simpl. unfold topNames. fold D.
    rewrite elem_of_list_to_set, (go_names _ _ _ _ Hs k a Hk), list_elem_of_fmap.
    pose proof Hi as (Hj & Hg & _). split; [|intros Hin; exists (Index a); unfold nameAt; by rewrite Hj, Hg].
    intros (j & Ej & Hin). unfold nameAt in Ej. rewrite Hj, Hg in Ej.
    apply AllocName_inj in Ej as ->; [done| |].
    - destruct (go_fits _ _ _ _ Hs k a Hk) as [? _]. lia.
    - assert (j ∈ D) as [? _]%elem_of_descending 
        by (apply elem_of_take in Hin as (i & Hl & _); by eapply list_elem_of_lookup_2).
      destruct Hi as (_ & _ & _ & ? & _). lia. }
  transitivity (length (filter (fun j => j ∈ take r D) ((Index ∘ snd) <$> range s)));
    [symmetry; apply length_filter_fmap|]. rewrite <- HD.
  rewrite filter_take by apply NoDup_descending.
  rewrite length_take, HD, length_fmap, length_range by done. done.
Qed.

(** ** [computeStop] *)

Definition insertPairs (l : list (string * Allocation)) (s : allocSet) : allocSet :=
  foldl (fun s kv => <[kv.1 := kv.2]> s) s l.
Definition deleteKeys (l : list (string * Allocation)) (s : allocSet) : allocSet :=
  foldl (fun s kv => delete kv.1 s) s l.

Lemma insertPairs_dom l : ∀ s k, is_Some (insertPairs l s !! k) ↔ k ∈ l.*1 ∨ is_Some (s !! k).
Proof.
  induction l as [|[k0 a] l IH]; intros s k; unfold insertPairs in *; simpl; [rewrite elem_of_nil; tauto|].
  rewrite IH, elem_of_cons, lookup_insert_is_Some. simpl.
  destruct (decide (k = k0)); intuition congruence.
Qed.

Lemma deleteKeys_lookup l : ∀ s k a, deleteKeys l s !! k = Some a ↔ (k ∉ l.*1) ∧ s !! k = Some a.
Proof.
  induction l as [|[k0 a0] l IH]; intros s k a; unfold deleteKeys in *; simpl; [rewrite elem_of_nil; tauto|].
  rewrite IH, elem_of_cons, lookup_delete_Some. simpl. intuition congruence.
Qed.

Lemma stopMigrating_spec R l : ∀ ni stop mig stopped remove,
  let chosen := filter (fun kv => al_Name kv.2 ∈ R) l in
  0 < remove → Z.of_nat (length chosen) ≤ remove →
  (∀ kv, kv ∈ l → 0 ≤ Index kv.2 < Size (ni_b ni)) →
  ∃ ni', stopMigrating R l ni stop mig stopped remove =
    Some (ni', insertPairs chosen stop, deleteKeys chosen mig, stopped ++ (notNeeded <$> chosen.*2),
          remove - Z.of_nat (length chosen)) ∧
    ni_job ni' = ni_job ni ∧ ni_taskGroup ni' = ni_taskGroup ni ∧ ni_count ni' = ni_count ni ∧
    Size (ni_b ni') = Size (ni_b ni) ∧
    ∀ j, bit (ni_b ni') j = true ↔ bit (ni_b ni) j = true ∧ j ∉ (Index ∘ snd) <$> chosen.
Proof.
  induction l as [|[k a] l IH]; intros ni stop mig stopped remove chosen Hr Hlen Hidx.
  { exists ni. unfold chosen. simpl. rewrite app_nil_r, Z.sub_0_r. split_and!; try done.
    intros j. rewrite elem_of_nil. tauto. }
  cbn [stopMigrating]. unfold chosen in *. clear chosen. rewrite filter_cons in *. simpl in *.
  case_decide as Ha; cycle 1.
  { rewrite bool_decide_false by done. apply IH; [done..|]. intros kv Hkv. apply Hidx. by right. }
  rewrite bool_decide_true by done. simpl in Hlen.
  destruct (Unset_spec (ni_b ni) (Index a)) as (b & Eb & Hsb & Hbit); [apply (Hidx (k, a)); left|].
  unfold UnsetIndex. rewrite Eb. cbn [mbind option_bind].
  set (chosen := filter (fun kv => al_Name kv.2 ∈ R) l) in *.
  assert (∀ j, bit b j = true ↔ bit (ni_b ni) j = true ∧ j ≠ Index a) as Hbit'.
  { intros j. rewrite Hbit, andb_true_iff, negb_true_iff, Z.eqb_neq. tauto. }
  destruct (Z.eqb_spec (remove - 1) 0) as [E|E].
  - assert (chosen = []) as -> by (apply nil_length_inv; lia). exists (ni <| ni_b := b |>).
    split_and!; try done; [simpl; repeat f_equal; lia|]. intros j. simpl. rewrite Hbit', list_elem_of_singleton. done.
  - destruct (IH (ni <| ni_b := b |>) (<[k:=a]> stop) (delete k mig) (stopped ++ [notNeeded a]) (remove - 1))
      as (ni' & E' & H1 & H2 & H3 & H4 & H5); [lia|lia| |].
    { intros kv Hkv. simpl. rewrite Hsb. apply Hidx. by right. }
    simpl in H4, H5. exists ni'. split_and!; [|done|done|done|congruence|].
    + rewrite E'. fold chosen. cbn [length].
      replace (remove - Z.of_nat (S (length chosen))) with (remove - 1 - Z.of_nat (length chosen)) by lia.
      simpl. by rewrite <- app_assoc.
    + intros j. rewrite H5, Hbit', fmap_cons, elem_of_cons. simpl. tauto.
Qed.

(** The entries of a list are entries of the set, each key once. *)
Definition entries_of (l : list (string * Allocation)) (s : allocSet) : Prop :=
  (∀ kv, kv ∈ l → s !! kv.1 = Some kv.2) ∧ NoDup l.*1.

Lemma range_filter_entries (P : string * Allocation → Prop) `{∀ x, Decision (P x)} s :
  entries_of (filter P (range s)) s.
Proof.
  split.
  - intros [k a] [_ Hk]%list_elem_of_filter. by apply (range_elem range range_perm).
  - eapply sublist_NoDup; [|apply fmap_sublist, sublist_filter]. rewrite range_perm. apply NoDup_fst_map_to_list.
Qed.

(** The stops of the lost allocations, and those of [cm] and [cu]. *)
Definition stopsOf (lost : allocSet) (cm cu : list (string * Allocation)) : list allocStopResult :=
  ((fun alloc => mkAllocStopResult alloc AllocClientStatusLost allocLost) <$> (range lost).*2) ++
  (notNeeded <$> cm.*2) ++ (notNeeded <$> cu.*2).

(** The migrating allocations that are stopped when [r] are too many: the highest
    names first, and all of them when [r] is large. *)
Lemma stop_migrating_stage {U} (a : allocReconciler U) tg ni stop u m r :
  tg_Name tg = group → tg_Count tg = count → ar_jobID a = jobID → 0 ≤ count < 2 ^ 62 → 0 < r < 2 ^ 63 →
  group_ok jobID group count (m ∪ u) → indexes ni (m ∪ u) →
  ∃ ni' cm, (if negb (size m =? 0)%nat then
       mNames ← newAllocNameIndex (ar_jobID a) (tg_Name tg) (tg_Count tg) m;
       h ← Highest mNames (uint r);
       stopMigrating h.1 (range m) ni stop m [] r
     else Some (ni, stop, m, [], r)) =
    Some (ni', insertPairs cm stop, deleteKeys cm m, notNeeded <$> cm.*2, r - Z.of_nat (length cm)) ∧
    entries_of cm m ∧ length cm = (Z.to_nat r `min` size m)%nat ∧
    (Z.of_nat (length cm) < r → m ##ₘ u → indexes ni' u).
Proof.
  intros Hn Hcnt Hj Hc Hr Hok Hi.
  destruct (Nat.eqb_spec (size m) 0) as [E|E]; simpl.
  { apply map_size_empty_inv in E as ->. exists ni, []. split_and!.
    - simpl. by rewrite Z.sub_0_r.
    - split; [by intros kv ?%not_elem_of_nil|constructor].
    - rewrite map_size_empty. simpl. lia.
    - intros _ _. by rewrite (left_id_L ∅ (∪)) in Hi. }
  assert (group_ok jobID group count m) as Hm by (eapply group_ok_sub; [apply map_union_subseteq_l|done]).
  rewrite Hj, Hn, Hcnt. destruct (newAllocNameIndex_spec m Hc Hm) as (mN & -> & HmN). simpl.
  destruct (Highest_spec mN (uint r)) as [mN' ->]; [apply HmN|]. simpl.
  unfold uint. rewrite Z.mod_small by lia. fold (topNames mN (Z.to_nat r)).
  set (R := topNames mN (Z.to_nat r)). set (cm := filter (fun kv => al_Name kv.2 ∈ R) (range m)).
  pose proof (length_top mN m (Z.to_nat r) Hm HmN) as Hlen. fold R cm in Hlen.
  destruct (stopMigrating_spec R (range m) ni stop m [] r) as (ni' & E' & J1 & J2 & J3 & J4 & J5); [lia| | |].
  { fold cm. lia. }
  { intros [k x] Hk%(range_elem range range_perm). simpl.
    apply (indexes_below ni (m ∪ u) k x Hok Hi). by apply lookup_union_Some_l. }
  fold cm in E', J5. exists ni', cm. split_and!; [done|apply range_filter_entries|done|].
  intros Hlt Hdisj. assert (cm = range m) as Ecm.
  { apply filter_length_eq. fold cm. rewrite Hlen, length_range by done. lia. }
  destruct Hi as (I1 & I2 & I3 & I4 & I5). split_and!; [congruence|congruence|congruence|lia|lia|].
  intros j. rewrite J5, I5, Ecm, list_elem_of_fmap. split.
  - intros [(k & x & [Hk|[_ Hk]]%lookup_union_Some_raw & <-) Hnot]; [|by eauto].
    destruct Hnot. exists (k, x). split; [done|]. by apply (range_elem range range_perm).
  - intros (k & x & Hk & <-). split.
    + exists k, x. split; [|done]. by apply lookup_union_Some_r.
    + intros ([k' x'] & Eidx & Hk'%(range_elem range range_perm)). simpl in Eidx.
      assert (k = k') as <-.
      { apply (go_distinct _ _ _ _ Hok k k' x x'); [by apply lookup_union_Some_r|by apply lookup_union_Some_l|done]. }
      rewrite map_disjoint_spec in Hdisj. by apply (Hdisj k x' x).
Qed.

Lemma computeStop_spec {U} (a : allocReconciler U) tg ni u m lost :
  tg_Name tg = group → tg_Count tg = count → ar_jobID a = jobID → 0 ≤ count < 2 ^ 62 →
  group_ok jobID group count (m ∪ u) → m ##ₘ u → indexes ni (m ∪ u) →
  ∃ ni' cm cu stop,
    computeStop range a tg ni u m lost ∅ false =
      Some (addStop a (stopsOf lost cm cu), ni', deleteKeys cm m, stop) ∧
    entries_of cm m ∧ entries_of cu u ∧
    (∀ k, is_Some (stop !! k) ↔ is_Some (lost !! k) ∨ k ∈ cm.*1 ∨ k ∈ cu.*1) ∧
    Z.of_nat (length cm + length cu) = Z.max 0 (Z.of_nat (size u + size m) - count) ∧
    (Z.of_nat (size u + size m) ≤ count → ni' = ni).
Proof.
  intros Hn Hcnt Hj Hc Hok Hdisj Hi. unfold computeStop, markStop, union. cbn [foldl].
  rewrite (right_id_L ∅ (∪)). set (r := Z.of_nat (size u) + Z.of_nat (size m) - tg_Count tg).
  set (a1 := addStop a _). assert (∀ l, addStop a1 l = addStop a
    (((fun alloc => mkAllocStopResult alloc AllocClientStatusLost allocLost) <$> (range lost).*2) ++ l)) as Ha1
    by (intros l; unfold a1; by rewrite addStop_app).
  assert (entries_of [] u ∧ entries_of [] m) as [Hnu Hnm]
    by (split; (split; [by intros kv ?%not_elem_of_nil|constructor])).
  destruct (Z.leb_spec r 0) as [Hr|Hr].
  { exists ni, [], [], lost. split_and!; try done.
    - unfold stopsOf. simpl. by rewrite app_nil_r.
    - intros k. simpl. rewrite elem_of_nil. tauto.
    - unfold r in Hr. simpl. lia. }
  rewrite map_size_empty. cbn [negb andb Nat.eqb]. rewrite addStop_nil.
  destruct (Z.eqb_spec r 0) as [?|_]; [lia|].
  assert (r < 2 ^ 63) as Hr63.
  { pose proof (go_size _ _ _ _ Hok) as Hsz. rewrite map_size_disj_union in Hsz by done. unfold r. lia. }
  destruct (stop_migrating_stage a1 tg ni lost u m r) as (ni1 & cm & -> & Hcm & Hlcm & Hrest);
    [done|done|by destruct a|done|lia|done|done|]. cbn [mbind option_bind].
  destruct (Z.eqb_spec (r - Z.of_nat (length cm)) 0) as [E|E].
  { exists ni1, cm, [], (insertPairs cm lost). split_and!; try done.
    - rewrite Ha1. unfold stopsOf. simpl. by rewrite app_nil_r.
    - intros k. rewrite insertPairs_dom, elem_of_nil. tauto.
    - simpl. lia.
    - unfold r in Hr. lia. }
  specialize (Hrest ltac:(lia) Hdisj).
  assert (group_ok jobID group count u) as Hu by (eapply group_ok_sub; [by apply map_union_subseteq_r|done]).
  destruct (Highest_spec ni1 (uint (r - Z.of_nat (length cm)))) as [ni2 ->]; [apply Hrest|]. cbn [mbind option_bind fst snd].
  unfold uint. rewrite Z.mod_small by lia. fold (topNames ni1 (Z.to_nat (r - Z.of_nat (length cm)))).
  set (R := topNames ni1 _). unfold stopHighest. set (cu := filter (fun kv => al_Name kv.2 ∈ R) (range u)).
  pose proof (length_top ni1 u (Z.to_nat (r - Z.of_nat (length cm))) Hu Hrest) as Hlcu. fold R cu in Hlcu.
  pose proof (range_filter_entries (fun kv => al_Name kv.2 ∈ R) u) as Hcu. fold cu in Hcu.
  exists ni2, cm, cu, (list_to_map cu ∪ insertPairs cm lost). split_and!; try done.
  - rewrite Ha1, addStop_app, <- app_assoc. done.
  - intros k. rewrite lookup_union_is_Some, insertPairs_dom.
    assert (is_Some ((list_to_map cu : allocSet) !! k) ↔ k ∈ cu.*1) as ->; [|tauto].
    rewrite <- not_eq_None_Some, <- not_elem_of_list_to_map. split; [apply dec_stable|tauto].
  - unfold r in *. lia.
  - unfold r in Hr. lia.
Qed.
End stages.
