(* ===== verification/ReconcileGroup.v ===== *)
(** * One group, from its allocations to its stops and placements

    [computeGroup] of src/scheduler/reconcile.go on a well-formed group without
    canaries: what it stops and what it places. *)

From stdpp Require Import base gmap strings list sorting.
From Stdlib Require Import ZArith Lia.
From S2P Require Import Prelude Bitmap Structs Resources Jobs Allocs Plans AllocSets NameIndex Reconcile ReconcileSpec.
Open Scope string_scope.
Open Scope list_scope.
Open Scope Z_scope.

Abbreviation stops_of a := (rr_stop (ar_result a)).
Abbreviation places_of a := (rr_place (ar_result a)).

(** The fields that only [Compute] and [cancelDeployments] assign. *)
Definition same_inputs {U : Type} (a a' : allocReconciler U) : Prop :=
  ar_job a' = ar_job a ∧ ar_jobID a' = ar_jobID a ∧ ar_taintedNodes a' = ar_taintedNodes a ∧
  ar_deploymentPaused a' = ar_deploymentPaused a ∧ ar_deploymentFailed a' = ar_deploymentFailed a ∧
  ar_oldDeployment a' = ar_oldDeployment a.

Lemma same_inputs_trans {U : Type} (a b c : allocReconciler U) : same_inputs a b → same_inputs b c → same_inputs a c.
Proof. unfold same_inputs. intuition congruence. Qed.

(** A step that leaves the updates and the state of the callback as they are. *)
Definition keeps {U : Type} (a a' : allocReconciler U) : Prop :=
  same_inputs a a' ∧ ar_updater a' = ar_updater a ∧ rr_inplaceUpdate (ar_result a') = rr_inplaceUpdate (ar_result a).

Lemma keeps_trans {U : Type} (a b c : allocReconciler U) : keeps a b → keeps b c → keeps a c.
Proof. intros (? & ? & ?) (? & ? & ?). split; [by eapply same_inputs_trans|]. split; congruence. Qed.

(** ** Parts of a set *)

Lemma vals_union (s t : allocSet) : s ##ₘ t → vals (s ∪ t) ≡ₚ vals s ++ vals t.
Proof.
  induction s as [|k x s Hk IH] using map_ind; intros Hd; [by rewrite (left_id_L ∅ (∪))|].
  apply map_disjoint_insert_l in Hd as [Ht Hd].
  rewrite <- insert_union_l, !vals_insert, IH; [done|done|done|by apply lookup_union_None].
Qed.

Lemma vals_filter_split (P : string * Allocation → Prop) `{∀ x, Decision (P x)} (s : allocSet) :
  vals s ≡ₚ vals (filter P s) ++ vals (filter (fun kv => ¬ P kv) s).
Proof. rewrite <- vals_union by apply map_disjoint_filter_complement. by rewrite map_filter_union_complement. Qed.

Lemma vals_entries c : ∀ s, entries_of c s → vals s ≡ₚ c.*2 ++ vals (deleteKeys c s).
Proof.
  induction c as [|[k x] c IH]; intros s [Hin Hnd]; [done|]. simpl in *. apply NoDup_cons in Hnd as [Hk Hnd].
  rewrite (vals_delete s k x) by (apply (Hin (k, x)); left). constructor. apply IH. split; [|done].
  intros [k' y] Hy. cbn [fst snd]. rewrite lookup_delete_ne; [apply (Hin (k', y)); by right|].
  intros <-. destruct Hk. by eapply (list_elem_of_fmap_2' fst) in Hy.
Qed.

Lemma vals_tainted nodes all :
  vals all ≡ₚ vals (tainted nodes Untainted all) ++ vals (tainted nodes Migrating all) ++ vals (tainted nodes Lost all).
Proof.
  rewrite <- (tainted_union nodes all) at 1. rewrite vals_union, vals_union, <- app_assoc; [done| |].
  - by apply tainted_disjoint.
  - apply map_disjoint_union_l. split; by apply tainted_disjoint.
Qed.

(** When the allocations of a set are divided in [S] and [R], removing the IDs of [S] leaves [R]. *)
Lemma split_by_ids s S R :
  keyed s → vals s ≡ₚ S ++ R →
  NoDup (al_ID <$> S) ∧ (∀ x, x ∈ S → s !! al_ID x = Some x) ∧
  vals (filter (fun kv => kv.1 ∉ al_ID <$> S) s) ≡ₚ R.
Proof.
  intros Hk Hs. assert (NoDup (al_ID <$> S ++ R)) as Hnd.
  { rewrite <- Hs, keyed_ids by done. apply NoDup_fst_map_to_list. }
  rewrite fmap_app in Hnd. apply NoDup_app in Hnd as (HS & Hdis & HR). split_and!; [done| |].
  - intros x Hx. assert (x ∈ vals s) as [k Hx']%elem_of_vals by (rewrite Hs; apply elem_of_app; by left).
    by rewrite (Hk k x Hx').
  - apply NoDup_Permutation; [| |].
    + apply (NoDup_fmap_1 al_ID). rewrite keyed_ids by (by apply keyed_filter). apply NoDup_fst_map_to_list.
    + by apply (NoDup_fmap_1 al_ID).
    + intros x. rewrite elem_of_vals. setoid_rewrite map_lookup_filter_Some. cbn [fst]. split.
      * intros (k & Hx & Hno). assert (x ∈ S ++ R) as [Hx'|?]%elem_of_app; [rewrite <- Hs; apply elem_of_vals; by eauto| |done].
        destruct Hno. rewrite <- (Hk k x Hx). by apply list_elem_of_fmap_2.
      * intros Hx. assert (x ∈ vals s) as [k Hx']%elem_of_vals by (rewrite Hs; apply elem_of_app; by right).
        exists k. split; [done|]. rewrite <- (Hk k x Hx'). intros Hin. by apply (Hdis _ Hin), list_elem_of_fmap_2.
Qed.

Lemma vals_filter (P : Allocation → Prop) `{∀ x, Decision (P x)} (s : allocSet) :
  vals (filter (fun kv => P kv.2) s) ≡ₚ filter P (vals s).
Proof.
  induction s as [|k x s Hk IH] using map_ind; [by rewrite map_filter_empty, !vals_empty|].
  rewrite (vals_insert s) by done. rewrite filter_cons. destruct (decide (P x)).
  - rewrite map_filter_insert_True, vals_insert by (done || (apply map_lookup_filter_None; by left)). by rewrite IH.
  - rewrite map_filter_insert_False, delete_id by done. done.
Qed.

(** The allocations of the deployment that have not reported healthy. *)
Definition pending (id : string) (l : list Allocation) : list Allocation :=
  filter (fun x => al_DeploymentID x = id ∧ IsHealthy (al_DeploymentStatus x) = false) l.

Section group.
Context (range : allocSet → list (string * Allocation)).
Context (range_perm : ∀ s, range s ≡ₚ map_to_list s).
Context {U : Type}.
Context (allocUpdateFn : U → Allocation → Job → TaskGroup → (bool * bool * option Allocation) * U).
Context (uuid : string).
Implicit Type a : allocReconciler U.

(** ** [computeUpdates] *)

(** The callback keeps [okU], and its answer for an allocation is in [okR]. *)
Context (okU : U → Prop) (okR : Allocation → bool * bool * option Allocation → Prop).
Definition answers_well (job : Job) (tg : TaskGroup) (l : list Allocation) : Prop :=
  ∀ u x, okU u → x ∈ l → okU (allocUpdateFn u x job tg).2 ∧ okR x (allocUpdateFn u x job tg).1.

(** What the callback answers for the allocations of one call of [computeUpdates]: each
    is asked about once, so its answers are those of a function. *)
Definition answers := Allocation → bool * bool * option Allocation.
Definition ignores (f : answers) (x : Allocation) : bool := (f x).1.1.
Definition destroys (f : answers) (x : Allocation) : bool := negb (f x).1.1 && (f x).1.2.
Definition inplaces (f : answers) (x : Allocation) : bool := negb (f x).1.1 && negb (f x).1.2.
Definition updatesFor (f : answers) (l : list Allocation) : list (option Allocation) :=
  (fun x => (f x).2) <$> filter (fun x => inplaces f x = true) l.

Definition answer (x : Allocation) (b : bool * bool * option Allocation) (f : answers) : answers :=
  fun y => if decide (al_ID y = al_ID x) then b else f y.

Lemma answer_other x b f (l : list Allocation) y : al_ID x ∉ al_ID <$> l → y ∈ l → answer x b f y = f y.
Proof.
  intros Hx Hy. unfold answer. destruct (decide (al_ID y = al_ID x)) as [E|]; [|done].
  destruct Hx. rewrite <- E. by apply list_elem_of_fmap_2.
Qed.

Lemma filter_answer (g : answers → Allocation → bool) x b f (l : list Allocation) :
  (∀ f f' y, f y = f' y → g f y = g f' y) → al_ID x ∉ al_ID <$> l →
  filter (fun y => g (answer x b f) y = true) l = filter (fun y => g f y = true) l.
Proof.
  intros Hg Hx. induction l as [|y l IH]; [done|]. rewrite !filter_cons.
  rewrite (Hg (answer x b f) f y), IH; [done| |by eapply answer_other, list_elem_of_here].
  rewrite fmap_cons, not_elem_of_cons in Hx. apply Hx.
Qed.

Lemma addUpdate_fold job tg l : NoDup (al_ID <$> l) → answers_well job tg l → ∀ i p d us u, okU u →
  ∃ f u', foldl (addUpdate allocUpdateFn job tg) (i, p, d, us, u) l =
    (insertAll (filter (fun x => ignores f x = true) l) i,
     insertAll (filter (fun x => inplaces f x = true) l) p,
     insertAll (filter (fun x => destroys f x = true) l) d, us ++ updatesFor f l, u') ∧
    okU u' ∧ ∀ x, x ∈ l → okR x (f x).
Proof.
  induction l as [|x l IH]; intros Hnd Hok i p d us u Hu.
  { exists (fun _ => (false, false, None)), u. split; [by rewrite app_nil_r|]. split; [done|]. by intros x ?%elem_of_nil. }
  apply NoDup_cons in Hnd as [Hx Hnd]. cbn [foldl]. unfold addUpdate at 2.
  destruct (Hok u x Hu) as [Hu1 HR]; [left|].
  destruct (allocUpdateFn u x job tg) as [[[ig de] ia] u1]. cbn [fst snd] in Hu1, HR.
  destruct (IH Hnd (fun u x Hu Hin => Hok u x Hu (list_elem_of_further _ _ _ Hin)) (if ig then <[al_ID x := x]> i else i)
    (if ig then p else if de then p else <[al_ID x := x]> p)
    (if ig then d else if de then <[al_ID x := x]> d else d)
    (if ig then us else if de then us else us ++ [ia]) u1 Hu1) as (f & u' & E & Hu' & Hf).
  set (f' := answer x (ig, de, ia) f).
  assert (f' x = (ig, de, ia)) as Hself by (unfold f', answer; by rewrite decide_True).
  exists f', u'. split_and!; [|done|].
  - unfold updatesFor. rewrite !filter_cons.
    assert (∀ g : answers → Allocation → bool, (∀ f f' y, f y = f' y → g f y = g f' y) →
      filter (fun y => g f' y = true) l = filter (fun y => g f y = true) l) as Hg by (intros; by apply filter_answer).
    rewrite (Hg ignores), (Hg inplaces), (Hg destroys)
      by (unfold ignores, inplaces, destroys; intros ? ? ? ->; done).
    assert (ignores f' x = ig ∧ inplaces f' x = negb ig && negb de ∧ destroys f' x = negb ig && de) as (-> & -> & ->)
      by (unfold ignores, inplaces, destroys; by rewrite Hself).
    assert ((fun x => (f' x).2) <$> filter (fun y => inplaces f y = true) l = updatesFor f l) as Eup.
    { apply list_fmap_ext. intros k y [_ Hy]%list_elem_of_lookup_2%list_elem_of_filter. f_equal. by eapply answer_other. }
    destruct ig, de; simpl in E |- *; rewrite ?Eup; rewrite E; try done.
    rewrite Hself. change (list_fmap _ _ ?g ?l) with (g <$> l). by rewrite Eup, <- app_assoc.
  - intros y [->|Hy]%elem_of_cons; [by rewrite Hself|]. unfold f'. rewrite (answer_other x _ f l y) by done. by apply Hf.
Qed.

Lemma computeUpdates_spec a job tg u :
  keyed u → okU (ar_updater a) → answers_well job tg (vals u) →
  ∃ f a', computeUpdates range allocUpdateFn a job tg u =
    (a', filter (fun kv => ignores f kv.2 = true) u, filter (fun kv => inplaces f kv.2 = true) u,
     filter (fun kv => destroys f kv.2 = true) u) ∧
    stops_of a' = stops_of a ∧ places_of a' = places_of a ∧ same_inputs a a' ∧
    ar_deployment a' = ar_deployment a ∧ okU (ar_updater a') ∧
    rr_inplaceUpdate (ar_result a') = rr_inplaceUpdate (ar_result a) ++ updatesFor f (range u).*2 ∧
    (∀ x, x ∈ vals u → okR x (f x)) ∧ rr_deployment (ar_result a') = rr_deployment (ar_result a).
Proof.
  intros Hu Ha Hok. unfold computeUpdates.
  destruct (addUpdate_fold job tg (range u).*2 (NoDup_range_ids range range_perm u Hu)) with (u := ar_updater a)
    (i := ∅ : allocSet) (p := ∅ : allocSet) (d := ∅ : allocSet) (us := @nil (option Allocation))
    as (f & u' & -> & Hu' & Hf); [|done|].
  { intros v x Hv Hx. apply Hok; [done|]. by rewrite <- (range_vals range range_perm). }
  exists f. eexists. rewrite !insertAll_filter by done. split; [done|]. split_and!; try done.
  intros x Hx. apply Hf. by rewrite (range_vals range range_perm).
Qed.

(** ** Stops and placements of the last stages *)

Definition replaceOf (tg : TaskGroup) (x : Allocation) : allocPlaceResult :=
  mkAllocPlaceResult (al_Name x) false tg (Some x).

Lemma placeAndUpdate_spec a tg place d limit dc :
  0 ≤ limit →
  let n := IntMin (Z.of_nat (size d)) limit in
  let chosen := take (Z.to_nat n) (nameOrder range d) in
  ∃ a' dc', placeAndUpdate range a tg place d limit dc = Some (a', dc', limit - n) ∧
    stops_of a' = stops_of a ++ ((fun x => mkAllocStopResult x "" allocUpdating) <$> chosen) ∧
    places_of a' = places_of a ++ place ++ (replaceOf tg <$> chosen) ∧
    keeps a a' ∧ ar_deployment a' = ar_deployment a ∧ rr_deployment (ar_result a') = rr_deployment (ar_result a).
Proof.
  intros Hl n chosen. unfold placeAndUpdate. fold n.
  assert (0 ≤ n) by (unfold n, IntMin; destruct (Z.ltb_spec (Z.of_nat (size d)) limit); lia).
  destruct (Z.ltb_spec n 0); [lia|]. eexists _, _. split; [done|]. fold chosen. simpl.
  split_and!; try done. by rewrite app_assoc.
Qed.

Lemma migrateLoop_spec tg limit l : ∀ a migrated,
  ar_deploymentPaused a = false → ar_deploymentFailed a = false →
  let chosen := take (Z.to_nat (limit - migrated)) l in
  let '(a', followup) := migrateLoop a tg limit migrated l in
  stops_of a' = stops_of a ++ ((fun x => mkAllocStopResult x "" allocMigrating) <$> chosen) ∧
  places_of a' = places_of a ++ (replaceOf tg <$> chosen) ∧
  keeps a a' ∧ ar_deployment a' = ar_deployment a ∧ rr_deployment (ar_result a') = rr_deployment (ar_result a) ∧
  (followup = true ↔ (length chosen < length l)%nat).
Proof.
  induction l as [|x l IH]; intros a migrated Hp Hf chosen.
  { unfold chosen. rewrite take_nil. simpl. rewrite !app_nil_r. split_and!; try done. split; [done|lia]. }
  cbn [migrateLoop]. rewrite Hf, Hp. simpl.
  destruct (Z.leb_spec limit migrated) as [Hle|Hlt].
  - unfold chosen. replace (Z.to_nat (limit - migrated)) with 0%nat by lia. simpl. rewrite !app_nil_r.
    split_and!; try done. split; [lia|done].
  - set (a1 := addPlace _ _). specialize (IH a1 (migrated + 1) Hp Hf). cbv zeta in IH.
    destruct (migrateLoop a1 tg limit (migrated + 1) l) as [a' fu]. destruct IH as (I1 & I2 & I3 & I4 & I5 & I6).
    unfold chosen. replace (Z.to_nat (limit - migrated)) with (S (Z.to_nat (limit - (migrated + 1)))) by lia.
    rewrite I1, I2. unfold a1. simpl. rewrite <- !app_assoc. split_and!; try done. rewrite I6. lia.
Qed.

(** ** [computePlacements] *)

Lemma computePlacements_spec jobID tg ni u m :
  0 ≤ tg_Count tg < 2 ^ 62 → group_ok jobID (tg_Name tg) (tg_Count tg) (m ∪ u) → m ##ₘ u →
  (Z.of_nat (size u + size m) < tg_Count tg → indexes jobID (tg_Name tg) (tg_Count tg) ni (m ∪ u)) →
  ∃ ni' names, computePlacements tg ni u m = Some (ni', placeNames tg false names) ∧
    Z.of_nat (length names) = Z.max 0 (tg_Count tg - Z.of_nat (size u + size m)) ∧
    NoDup names ∧ (∀ k x, (m ∪ u) !! k = Some x → al_Name x ∉ names) ∧
    (∀ name, name ∈ names → ∃ j, 0 ≤ j < tg_Count tg ∧ name = AllocName jobID (tg_Name tg) j).
Proof.
  intros Hc Hok Hdisj Hni. unfold computePlacements.
  destruct (Z.leb_spec (tg_Count tg) (Z.of_nat (size u + size m))) as [Hle|Hlt].
  { exists ni, []. split_and!; [done|simpl; lia|constructor|by intros k x _ ?%not_elem_of_nil|by intros ? ?%not_elem_of_nil]. }
  specialize (Hni ltac:(lia)). pose proof Hni as (J1 & J2 & J3 & J4 & J5).
  set (n := tg_Count tg - Z.of_nat (size u + size m)).
  unfold uint. rewrite Z.mod_small by lia.
  assert (n ≤ Z.of_nat (length (freeNames ni))) as Hfree.
  { unfold n, freeNames. rewrite J3.
    pose proof (descending_perm range range_perm jobID (tg_Name tg) (tg_Count tg) ni (m ∪ u) Hok Hni) as HD.
    apply Permutation_length in HD. rewrite length_fmap, length_range, map_size_disj_union in HD by done.
    pose proof (filter_split_length (fun j => bit (ni_b ni) j) (seqZ 0 (tg_Count tg))) as Hsp.
    rewrite length_seqZ in Hsp.
    assert (length (filter (fun j => bit (ni_b ni) j = true) (seqZ 0 (tg_Count tg))) ≤
      length (descending (ni_b ni) (Z.to_nat (Size (ni_b ni)))))%nat; [|lia].
    apply submseteq_length, NoDup_submseteq; [apply NoDup_filter, NoDup_seqZ|].
    intros j [Hb Hj%elem_of_seqZ]%list_elem_of_filter. apply elem_of_descending. split; [|done]. rewrite Size_eq in *. lia. }
  destruct (Next_spec ni n) as [ni' ->]; [lia|done|lia|lia|]. cbn [mbind option_bind].
  assert (∀ j, j ∈ take (Z.to_nat n) (freeNames ni) → 0 ≤ j < tg_Count tg ∧ bit (ni_b ni) j = false) as Hin.
  { intros j Hj%subseteq_take. unfold freeNames in Hj. apply list_elem_of_filter in Hj as [? Hj%elem_of_seqZ].
    rewrite J3 in Hj. split; [lia|done]. }
  exists ni', (nameAt ni <$> take (Z.to_nat n) (freeNames ni)). split_and!; [done| | | |].
  - rewrite length_fmap, length_take. lia.
  - apply NoDup_fmap_2_strong.
    + intros i j [Hi _]%Hin [Hj _]%Hin. apply nameAt_inj; lia.
    + eapply sublist_NoDup; [|apply sublist_take]. apply NoDup_filter, NoDup_seqZ.
  - intros k x Hk (j & E & Hj)%list_elem_of_fmap. apply Hin in Hj as [Hj Hb].
    rewrite (go_names _ _ _ _ Hok k x Hk) in E. unfold nameAt in E. rewrite J1, J2 in E.
    destruct (go_fits _ _ _ _ Hok k x Hk) as [? _]. apply AllocName_inj in E; [|lia..].
    rewrite (proj2 (J5 j)) in Hb; [done|]. exists k, x. split; [done|]. congruence.
  - intros name (j & -> & [Hj _]%Hin)%list_elem_of_fmap. exists j. unfold nameAt. by rewrite J1, J2.
Qed.

(** ** The stages composed *)

(** No allocation of the group is a canary, and none is wanted. *)
Definition no_canaries (a : allocReconciler U) (tg : TaskGroup) (dstate : DeploymentState) : Prop :=
  canaryIDs false (ar_oldDeployment a) = [] ∧ canaryIDs true (ar_deployment a) = [] ∧
  inCanaryState dstate = false ∧
  ∀ u, tg_Update tg = Some u → us_Canary u ≤ 0 ∨ ds_Promoted dstate = true.

Lemma markStop_empty a status desc : markStop range a ∅ status desc = a.
Proof.
  unfold markStop. assert (range ∅ = []) as ->; [|apply addStop_nil].
  apply Permutation_nil. by rewrite range_perm, map_to_list_empty.
Qed.

Lemma canaryIDs_false d : canaryIDs true d = [] → canaryIDs false d = [].
Proof.
  destruct d as [d|]; [|done]. unfold canaryIDs. generalize (vals (d_TaskGroups d)) as l.
  induction l as [|s l IH]; [done|]. cbn [mbind list_bind orb]. intros [E1 E2]%app_nil. rewrite E1.
  specialize (IH E2). cbn [orb] in IH. rewrite IH. by destruct (negb (ds_Promoted s)).
Qed.

Lemma difference_empties s others : Forall (eq ∅) others → difference s others = s.
Proof.
  intros Ho. apply map_filter_id. intros k x _. eapply Forall_impl; [exact Ho|].
  intros o <-. apply lookup_empty.
Qed.

Lemma filterByTainted_empty nodes : filterByTainted range ∅ nodes = Some (∅, ∅, ∅).
Proof. rewrite filterByTainted_spec; [|done|done|done]. unfold tainted. by rewrite !map_filter_empty. Qed.

Lemma handleGroupCanaries_none a tg dstate all dc :
  no_canaries a tg dstate →
  ∃ dc', handleGroupCanaries range a all dc = Some (a, dc', ∅, all).
Proof.
  intros (H1 & H2 & _). unfold handleGroupCanaries. rewrite H1.
  assert (match ar_deployment a with
    | Some d => if bool_decide (d_Status d = DeploymentStatusFailed) then canaryIDs false (Some d) else []
    | None => [] end = []) as ->.
  { destruct (ar_deployment a) as [d|]; [|done]. case_bool_decide; [|done]. by apply canaryIDs_false. }
  cbn [app]. change (fromKeys all []) with (∅ : allocSet).
  rewrite markStop_empty, difference_empties by (by repeat constructor).
  destruct (ar_deployment a) as [d|]; [|by eexists]. rewrite H2. change (fromKeys all []) with (∅ : allocSet).
  rewrite filterByTainted_empty. cbn [mbind option_bind].
  rewrite !markStop_empty, difference_empties by (by repeat constructor). by eexists.
Qed.

(** The outcome of [classifyGroup]: the entries [cm] of [m] and [cu] of [u] are stopped
    because they are too many. *)
Record classified (f : answers) (a : allocReconciler U) (tg : TaskGroup) (all : allocSet)
    (a' : allocReconciler U) (gs : groupSets) (cm cu : list (string * Allocation)) : Prop := {
  cl_stops : stops_of a' = stops_of a ++ stopsOf range (tainted (ar_taintedNodes a) Lost all) cm cu;
  cl_places : places_of a' = places_of a;
  cl_same : same_inputs a a';
  cl_deployment : ar_deployment a' = ar_deployment a;
  cl_result : rr_deployment (ar_result a') = rr_deployment (ar_result a);
  cl_updater : okU (ar_updater a');
  cl_updates : rr_inplaceUpdate (ar_result a') = rr_inplaceUpdate (ar_result a) ++ updatesFor f (range (gs_untainted gs)).*2;
  cl_answers : ∀ x, x ∈ vals (gs_untainted gs) → okR x (f x);
  cl_canaries : gs_canaries gs = ∅;
  cl_migrate : gs_migrate gs = deleteKeys cm (tainted (ar_taintedNodes a) Migrating all);
  cl_untainted : gs_untainted gs = deleteKeys cu (tainted (ar_taintedNodes a) Untainted all);
  cl_destructive : gs_destructive gs = filter (fun kv => destroys f kv.2 = true) (gs_untainted gs);
  cl_cm : entries_of cm (tainted (ar_taintedNodes a) Migrating all);
  cl_cu : entries_of cu (tainted (ar_taintedNodes a) Untainted all);
  cl_count : Z.of_nat (length cm + length cu) =
    Z.max 0 (Z.of_nat (size (tainted (ar_taintedNodes a) Untainted all) +
                       size (tainted (ar_taintedNodes a) Migrating all)) - tg_Count tg);
  cl_index : Z.of_nat (size (tainted (ar_taintedNodes a) Untainted all) +
                       size (tainted (ar_taintedNodes a) Migrating all)) ≤ tg_Count tg →
    indexes (ar_jobID a) (tg_Name tg) (tg_Count tg) (gs_nameIndex gs)
      (tainted (ar_taintedNodes a) Migrating all ∪ tainted (ar_taintedNodes a) Untainted all)
}.

Lemma classifyGroup_spec a job tg all dstate :
  0 ≤ tg_Count tg < 2 ^ 62 → group_ok (ar_jobID a) (tg_Name tg) (tg_Count tg) all → no_canaries a tg dstate →
  okU (ar_updater a) → answers_well job tg (vals all) →
  ∃ f a' dc gs cm cu, classifyGroup range allocUpdateFn a job (tg_Name tg) tg all dstate = Some (a', dc, gs) ∧
    classified f a tg all a' gs cm cu.
Proof.
  intros Hc Hok Hcan Hupd Hans. unfold classifyGroup.
  destruct (handleGroupCanaries_none a tg dstate all zeroDesiredUpdates Hcan) as [dc ->]. cbn [mbind option_bind].
  rewrite filterByTainted_spec by (done || apply Hok). cbn [mbind option_bind].
  set (u := tainted (ar_taintedNodes a) Untainted all). set (m := tainted (ar_taintedNodes a) Migrating all).
  set (lost := tainted (ar_taintedNodes a) Lost all).
  assert (m ##ₘ u) as Hdisj by (by apply tainted_disjoint).
  assert (group_ok (ar_jobID a) (tg_Name tg) (tg_Count tg) (m ∪ u)) as Hmu.
  { eapply group_ok_sub; [|exact Hok]. apply map_union_least; apply map_filter_subseteq. }
  change (AllocSets.union u [m]) with (m ∪ u).
  destruct (newAllocNameIndex_spec _ _ _ _ Hc Hmu) as (ni & -> & Hni). cbn [mbind option_bind].
  destruct Hcan as (_ & _ & -> & _).
  destruct (computeStop_spec range range_perm (ar_jobID a) (tg_Name tg) (tg_Count tg) a tg ni u m lost)
    as (ni' & cm & cu & stop & -> & Hcm & Hcu & Hstop & Hcount & Heq); [done..|]. cbn [mbind option_bind negb].
  unfold SetNames. change (Index <$> vals ∅) with (@nil Z). cbn [setAll mbind option_bind].
  unfold union. cbn [foldl]. rewrite (left_id_L ∅ (∪)).
  assert (difference u [stop] = deleteKeys cu u) as Hu'.
  { apply map_eq. intros k. apply option_eq. intros x. unfold difference.
    rewrite map_lookup_filter_Some, Forall_singleton, deleteKeys_lookup, (and_comm (k ∉ _)). cbn [fst].
    apply and_iff_under. intros Hk. rewrite eq_None_not_Some, Hstop.
    split; [tauto|]. intros Hn [[y Hy]|[Hy|Hy]]; [| |done].
    - by eapply (map_disjoint_spec u lost); [apply tainted_disjoint|exact Hk|exact Hy].
    - apply list_elem_of_fmap in Hy as ([? y] & -> & Hy%(proj1 Hcm)).
      by eapply (map_disjoint_spec u m); [apply tainted_disjoint|exact Hk|exact Hy]. }
  assert (keyed (difference u [stop])) as Hk.
  { apply keyed_filter, keyed_filter, Hok. }
  set (a1 := addStop a _).
  destruct (computeUpdates_spec a1 job tg _ Hk) as (f & a' & -> & S1 & S2 & S3 & S4 & S5 & S6 & S7 & S8); [done| |].
  { intros v x Hv [k Hx]%elem_of_vals. apply Hans; [done|]. apply elem_of_vals. exists k.
    by apply map_lookup_filter_Some in Hx as [[Hx _]%map_lookup_filter_Some _]. }
  eexists f, _, _, _, cm, cu. split; [reflexivity|]. split; try done; simpl.
  intros Hle. rewrite Heq by done. by destruct ni.
Qed.
(** ** The limit *)

Lemma limitLoop_spec l : ∀ limit r,
  limitLoop limit l = Some r →
  r = limit - Z.of_nat (length (filter (fun x => IsHealthy (al_DeploymentStatus x) = false) l)).
Proof.
  induction l as [|x l IH]; intros limit r; simpl; [intros [= ->]; simpl; lia|].
  rewrite filter_cons. destruct (IsUnhealthy (al_DeploymentStatus x)); [done|].
  destruct (IsHealthy (al_DeploymentStatus x)) eqn:E; intros ->%IH; case_decide; simpl; congruence || lia.
Qed.

(** The update strategy of the group allows what is in flight. *)
Definition limit_ok (a : allocReconciler U) (tg : TaskGroup) (all : allocSet) : Prop :=
  ∀ u, tg_Update tg = Some u → 0 ≤ us_MaxParallel u ∧
    ∀ d, ar_deployment a = Some d → Z.of_nat (length (pending (d_ID d) (vals all))) ≤ us_MaxParallel u.

Lemma computeLimit_spec a tg all u d m :
  0 ≤ tg_Count tg → keyed u → u ⊆ all → limit_ok a tg all →
  ar_deploymentPaused a = false → ar_deploymentFailed a = false →
  let limit := computeLimit range a tg u d m false in
  0 ≤ limit ∧
  ∀ s, tg_Update tg = Some s → limit ≤ us_MaxParallel s ∨ (size d + size m = 0)%nat.
Proof.
  intros Hc Hu Hsub Hok Hp Hf. unfold computeLimit. destruct (tg_Update tg) as [s|] eqn:Es; [|by split].
  destruct (Hok s Es) as [Hs Hpend].
  destruct (Nat.eqb_spec (size d + size m) 0) as [E|E]; [split; [done|]; intros ? _; by right|].
  rewrite Hp, Hf. cbn [orb]. destruct (ar_deployment a) as [dp|]; [|split; [done|]; intros ? [= ->]; by left].
  rewrite filterByDeployment_spec by done. cbn [default].
  destruct (limitLoop _ _) as [r|] eqn:Er; [|split; [done|]; intros ? [= ->]; by left].
  apply limitLoop_spec in Er. pose proof (vals_filter (fun x => al_DeploymentID x = d_ID dp) u) as Hv.
  cbn beta in Hv. rewrite range_vals, Hv, list_filter_filter in Er by done.
  cbn [default id].
  specialize (Hpend dp eq_refl). assert (length (pending (d_ID dp) (vals u)) ≤ length (pending (d_ID dp) (vals all)))%nat.
  { apply map_to_list_submseteq, (fmap_submseteq snd), submseteq_Permutation in Hsub as [rest Hsub].
    unfold pending, vals. rewrite Hsub, filter_app, length_app. lia. }
  assert (length (filter (fun x => IsHealthy (al_DeploymentStatus x) = false ∧ al_DeploymentID x = d_ID dp) (vals u)) =
    length (pending (d_ID dp) (vals u))) as El.
  { unfold pending. f_equal. apply list_filter_iff. tauto. }
  rewrite El in Er. split; [lia|]. intros ? [= ->]. left. lia.
Qed.

(** ** [placeGroup] *)

Definition chosenOf (s : allocSet) (limit : Z) : list Allocation :=
  take (Z.to_nat (IntMin (Z.of_nat (size s)) limit)) (nameOrder range s).

Lemma length_chosenOf s limit : 0 ≤ limit → Z.of_nat (length (chosenOf s limit)) = IntMin (Z.of_nat (size s)) limit.
Proof.
  intros Hl. unfold chosenOf. rewrite length_take, nameOrder_perm, length_vals by done. unfold IntMin.
  destruct (Z.ltb_spec (Z.of_nat (size s)) limit); lia.
Qed.

Lemma chosenOf_take s limit : 0 ≤ limit → take (Z.to_nat limit) (nameOrder range s) = chosenOf s limit.
Proof.
  intros Hl. unfold chosenOf, IntMin. destruct (Z.ltb_spec (Z.of_nat (size s)) limit) as [Hlt|]; [|done].
  assert (length (nameOrder range s) = size s) by (by rewrite nameOrder_perm, length_vals).
  rewrite !take_ge by lia. done.
Qed.

Lemma chosenOf_split s limit : ∃ rest, vals s ≡ₚ chosenOf s limit ++ rest.
Proof. eexists. rewrite <- (nameOrder_perm range range_perm s). unfold chosenOf. by rewrite take_drop. Qed.

Definition updateStop (x : Allocation) : allocStopResult := mkAllocStopResult x "" allocUpdating.
Definition migrateStop (x : Allocation) : allocStopResult := mkAllocStopResult x "" allocMigrating.

(** The deployment is as before, or it is new and has the group only. *)
Definition deploys (job : Job) (group : string) (dstate : DeploymentState) (a a' : allocReconciler U) : Prop :=
  (ar_deployment a' = ar_deployment a ∧ rr_deployment (ar_result a') = rr_deployment (ar_result a)) ∨
  (ar_deployment a = None ∧ let d := (NewDeployment uuid job) <| d_TaskGroups := {[group := dstate]} |> in
   ar_deployment a' = Some d ∧ rr_deployment (ar_result a') = Some d).

(** The end of [computeGroup] does not touch the stops and the placements. *)
Lemma finishGroup_keeps a job group strategy dstate followup :
  let a' := finishGroup uuid a job group strategy dstate followup in
  stops_of a' = stops_of a ∧ places_of a' = places_of a ∧ keeps a a' ∧ deploys job group dstate a a'.
Proof.
  unfold finishGroup, deploys. destruct strategy as [u|]; cbn zeta;
    [|destruct (ar_deployment a) eqn:E; simpl; rewrite ?E; split_and!; try done; by left].
  destruct (followup && _); cbn [ar_deployment]; simpl;
    destruct (ar_deployment a) eqn:E, (ds_DesiredTotal dstate =? 0); simpl; rewrite ?E; split_and!; try done;
    (by left) || (by right).
Qed.

Lemma placeGroup_spec a job group tg dstate ex dc gs names ni :
  gs_canaries gs = ∅ → no_canaries a tg dstate →
  ar_deploymentPaused a = false → ar_deploymentFailed a = false →
  let limit := computeLimit range a tg (gs_untainted gs) (gs_destructive gs) (gs_migrate gs) false in
  0 ≤ limit →
  computePlacements tg (gs_nameIndex gs) (gs_untainted gs) (gs_migrate gs) = Some (ni, placeNames tg false names) →
  let cd := chosenOf (gs_destructive gs) limit in
  let cg := chosenOf (gs_migrate gs) (limit - Z.of_nat (length cd)) in
  ∃ a' dc' complete, placeGroup range uuid a job group tg dstate ex dc gs = Some (a', dc', complete) ∧
    stops_of a' = stops_of a ++ (updateStop <$> cd) ++ (migrateStop <$> cg) ∧
    places_of a' = places_of a ++ placeNames tg false names ++ (replaceOf tg <$> cd) ++ (replaceOf tg <$> cg) ∧
    keeps a a' ∧ ∃ ds, ds_PlacedCanaries ds = ds_PlacedCanaries dstate ∧ inCanaryState ds = inCanaryState dstate ∧
      deploys job group ds a a'.
Proof.
  intros Hcan (_ & _ & Hst & Hupd) Hp Hf limit Hl Hplace cd cg. unfold placeGroup. rewrite Hcan, map_size_empty.
  set (ds1 := if ex then dstate else _).
  assert (ds_Promoted ds1 = ds_Promoted dstate ∧ inCanaryState ds1 = inCanaryState dstate) as [E1 E2] by (by destruct ex).
  set (rc := match tg_Update tg with Some _ => _ | None => false end).
  assert (rc = false) as ->.
  { unfold rc. destruct (tg_Update tg) as [s|] eqn:Es; [|done]. rewrite E1.
    destruct (Hupd s eq_refl) as [Hz| ->]; [|by rewrite andb_false_r].
    replace (Z.of_nat 0 <? us_Canary s) with false; [by rewrite andb_false_r|]. symmetry. apply Z.ltb_ge. lia. }
  assert (∀ (P : allocReconciler U * allocNameIndex * DeploymentState * DesiredUpdates → option (allocReconciler U * DesiredUpdates * bool)),
    (match tg_Update tg with
     | Some u => if false && negb (ar_deploymentPaused a) && negb (ar_deploymentFailed a) then
         placeCanaries a tg u (gs_nameIndex gs) ∅ (gs_destructive gs) ex ds1 dc
         else Some (a, gs_nameIndex gs, ds1, dc)
     | None => Some (a, gs_nameIndex gs, ds1, dc) end ≫= P) = P (a, gs_nameIndex gs, ds1, dc)) as ->
    by (intros; by destruct (tg_Update tg)).
  rewrite E2, Hst. fold limit. rewrite Hplace, Hp, Hf. cbn [mbind option_bind negb andb].
  destruct (placeAndUpdate_spec a tg (placeNames tg false names) (gs_destructive gs) limit dc Hl)
    as (a1 & dc1 & -> & S1 & S2 & S3 & S4 & S5). cbn [mbind option_bind].
  fold (chosenOf (gs_destructive gs) limit) in S1, S2. fold cd in S1, S2.
  rewrite <- length_chosenOf by done. fold cd.
  set (l1 := limit - Z.of_nat (length cd)) in *.
  assert (0 ≤ l1) as Hl1.
  { unfold l1, cd. rewrite length_chosenOf by done. unfold IntMin. destruct (Z.ltb_spec (Z.of_nat (size (gs_destructive gs))) limit); lia. }
  pose proof (migrateLoop_spec tg l1 (nameOrder range (gs_migrate gs)) a1 0) as Hm.
  destruct (migrateLoop a1 tg l1 0 _) as [a2 fu].
  destruct (proj1 S3) as (S31 & S32 & S33 & S34 & S35 & S36).
  destruct Hm as (M1 & M2 & M3 & M4 & M5 & _); [congruence|congruence|].
  rewrite Z.sub_0_r, chosenOf_take in M1, M2 by done. fold cg in M1, M2.
  set (ds2 := if ex then ds1 else _).
  destruct (finishGroup_keeps a2 job group (tg_Update tg) ds2 fu) as (F1 & F2 & F3 & F4).
  eexists _, _, _. split; [reflexivity|]. rewrite F1, F2, M1, M2, S1, S2, <- !app_assoc. split_and!; [done..| |].
  - eapply keeps_trans; [|exact F3]. by eapply keeps_trans.
  - exists ds2. split; [unfold ds2, ds1; by destruct ex|]. split; [unfold ds2, ds1; by destruct ex|]. unfold deploys in *. rewrite M4, M5, S4, S5 in F4. exact F4.
Qed.

(** ** [computeGroup] *)

Lemma group_names_NoDup jobID group count s : group_ok jobID group count s → NoDup (al_Name <$> vals s).
Proof.
  intros Hs. unfold vals. rewrite <- list_fmap_compose. apply NoDup_fmap_2_strong; [|apply NoDup_map_to_list].
  intros [k x] [k' x'] Hx%elem_of_map_to_list Hx'%elem_of_map_to_list E. simpl in E.
  rewrite (go_names _ _ _ _ Hs k x Hx), (go_names _ _ _ _ Hs k' x' Hx') in E.
  destruct (go_fits _ _ _ _ Hs k x Hx) as [? _]. destruct (go_fits _ _ _ _ Hs k' x' Hx') as [? _].
  apply AllocName_inj in E; [|lia..]. assert (k = k') as <- by (by eapply (go_distinct _ _ _ _ Hs)). congruence.
Qed.

Lemma deleteKeys_sub c s : deleteKeys c s ⊆ s.
Proof. apply map_subseteq_spec. intros k x Hx. by apply deleteKeys_lookup in Hx as [_ Hx]. Qed.

Lemma inplaces_kept f (s : allocSet) :
  filter (fun x => inplaces f x = true) (vals s) ⊆+ vals (filter (fun kv => ¬ destroys f kv.2 = true) s).
Proof.
  pose proof (vals_filter (fun x => ¬ destroys f x = true) s) as Hv. cbn beta in Hv. rewrite Hv. apply sublist_submseteq.
  generalize (vals s) as l. induction l as [|x l IH]; [constructor|]. rewrite !filter_cons.
  assert (inplaces f x = true → ¬ destroys f x = true) as Hx.
  { unfold inplaces, destroys. destruct (f x) as [[[] []] ?]; done. }
  case_decide; [rewrite decide_True by auto; by constructor|]. case_decide; [by constructor|done].
Qed.

(** The parts of the group: [lost], [cm], [cu], [cd] and [cg] are stopped, [rest] is kept. *)
Lemma classified_parts f a tg all a' gs cm cu limit limit' :
  classified f a tg all a' gs cm cu →
  let cd := chosenOf (gs_destructive gs) limit in
  let cg := chosenOf (gs_migrate gs) limit' in
  ∃ rest, vals (gs_migrate gs ∪ gs_untainted gs) ≡ₚ rest ++ cd ++ cg ∧
    vals all ≡ₚ (vals (tainted (ar_taintedNodes a) Lost all) ++ cm.*2 ++ cu.*2 ++ cd ++ cg) ++ rest ∧
    filter (fun x => inplaces f x = true) (range (gs_untainted gs)).*2 ⊆+ rest.
Proof.
  intros Hcl cd cg. destruct (chosenOf_split (gs_destructive gs) limit) as [rd Hrd].
  destruct (chosenOf_split (gs_migrate gs) limit') as [rg Hrg]. fold cd in Hrd. fold cg in Hrg.
  pose proof (vals_filter_split (fun kv => destroys f kv.2 = true) (gs_untainted gs)) as Hu.
  rewrite <- (cl_destructive _ _ _ _ _ _ _ _ Hcl), Hrd in Hu.
  set (ru := vals (filter (fun kv => ¬ destroys f kv.2 = true) (gs_untainted gs))) in Hu.
  exists (rd ++ ru ++ rg). rewrite vals_union, Hu, Hrg.
  - split; [solve_Permutation|]. split; [|rewrite range_vals by done; by apply submseteq_inserts_l, submseteq_inserts_r, inplaces_kept].
    rewrite (vals_tainted (ar_taintedNodes a) all), (vals_entries cu _ (cl_cu _ _ _ _ _ _ _ _ Hcl)),
      (vals_entries cm _ (cl_cm _ _ _ _ _ _ _ _ Hcl)).
    rewrite <- (cl_untainted _ _ _ _ _ _ _ _ Hcl), <- (cl_migrate _ _ _ _ _ _ _ _ Hcl), Hu, Hrg. solve_Permutation.
  - rewrite (cl_untainted _ _ _ _ _ _ _ _ Hcl), (cl_migrate _ _ _ _ _ _ _ _ Hcl).
    eapply map_disjoint_weaken; [|apply deleteKeys_sub|apply deleteKeys_sub]. by apply tainted_disjoint.
Qed.

Lemma classified_sizes f a tg all a' gs cm cu :
  classified f a tg all a' gs cm cu → group_ok (ar_jobID a) (tg_Name tg) (tg_Count tg) all →
  gs_migrate gs ##ₘ gs_untainted gs ∧
  group_ok (ar_jobID a) (tg_Name tg) (tg_Count tg) (gs_migrate gs ∪ gs_untainted gs) ∧
  Z.of_nat (size (gs_untainted gs) + size (gs_migrate gs)) ≤ Z.max 0 (tg_Count tg) ∧
  (Z.of_nat (size (gs_untainted gs) + size (gs_migrate gs)) < tg_Count tg →
   indexes (ar_jobID a) (tg_Name tg) (tg_Count tg) (gs_nameIndex gs) (gs_migrate gs ∪ gs_untainted gs)).
Proof.
  intros [_ _ _ _ _ _ _ _ _ Hm Hu _ Hcm Hcu Hcount Hidx] Hok. rewrite Hm, Hu.
  set (u := tainted (ar_taintedNodes a) Untainted all) in *. set (m := tainted (ar_taintedNodes a) Migrating all) in *.
  pose proof (vals_entries _ _ Hcu) as Lu%Permutation_length. pose proof (vals_entries _ _ Hcm) as Lm%Permutation_length.
  rewrite length_app, length_fmap, !length_vals in Lu, Lm. split_and!.
  - eapply map_disjoint_weaken; [|apply deleteKeys_sub|apply deleteKeys_sub]. by apply tainted_disjoint.
  - eapply group_ok_sub; [|exact Hok].
    apply map_union_least; (etrans; [apply deleteKeys_sub|apply map_filter_subseteq]).
  - lia.
  - intros Hlt. assert (cm = [] ∧ cu = []) as [-> ->] by (split; apply nil_length_inv; lia). apply Hidx. simpl in Hcount. lia.
Qed.

Lemma computeGroup_spec a job tg all :
  LookupTaskGroup job (tg_Name tg) = Some tg → 0 ≤ tg_Count tg < 2 ^ 62 →
  group_ok (ar_jobID a) (tg_Name tg) (tg_Count tg) all →
  no_canaries a tg (groupState a (tg_Name tg) tg).1 →
  ar_deploymentPaused a = false → ar_deploymentFailed a = false → limit_ok a tg all →
  okU (ar_updater a) → answers_well job tg (vals all) →
  let lost := tainted (ar_taintedNodes a) Lost all in
  ∃ a' complete cm cu cd cg names rest,
    computeGroup range allocUpdateFn uuid a job (tg_Name tg) all = Some (a', complete) ∧
    stops_of a' = stops_of a ++ stopsOf range lost cm cu ++ (updateStop <$> cd) ++ (migrateStop <$> cg) ∧
    places_of a' = places_of a ++ placeNames tg false names ++ (replaceOf tg <$> cd) ++ (replaceOf tg <$> cg) ∧
    same_inputs a a' ∧
    vals all ≡ₚ (vals lost ++ cm.*2 ++ cu.*2 ++ cd ++ cg) ++ rest ∧
    Z.of_nat (length (rest ++ cd ++ cg) + length names) = tg_Count tg ∧
    NoDup (names ++ (al_Name <$> rest ++ cd ++ cg)) ∧
    (∀ s, tg_Update tg = Some s → Z.of_nat (length cd + length cg) ≤ us_MaxParallel s) ∧
    okU (ar_updater a') ∧
    (∃ f xs, rr_inplaceUpdate (ar_result a') = rr_inplaceUpdate (ar_result a) ++ ((fun x => (f x).2) <$> xs) ∧ xs ⊆+ rest ∧
       ∀ x, x ∈ xs → inplaces f x = true ∧ okR x (f x)) ∧
    ∃ ds, ds_PlacedCanaries ds = ds_PlacedCanaries (groupState a (tg_Name tg) tg).1 ∧
      inCanaryState ds = inCanaryState (groupState a (tg_Name tg) tg).1 ∧ deploys job (tg_Name tg) ds a a'.
Proof.
  intros Hlk Hc Hok Hcan Hp Hf Hlim Hupd Hans lost. unfold computeGroup. rewrite Hlk.
  destruct (groupState a (tg_Name tg) tg) as [dstate ex]. cbn [fst] in Hcan.
  destruct (classifyGroup_spec a job tg all dstate Hc Hok Hcan Hupd Hans) as (f & a1 & dc & gs & cm & cu & -> & Hcl).
  cbn [mbind option_bind]. destruct (classified_sizes _ _ _ _ _ _ _ _ Hcl Hok) as (Hdisj & Hok' & Hsz & Hidx).
  destruct (computePlacements_spec (ar_jobID a) tg (gs_nameIndex gs) (gs_untainted gs) (gs_migrate gs))
    as (ni & names & Hplace & Hnames & Hnd & Hfresh & _); [done..|].
  pose proof (cl_same _ _ _ _ _ _ _ _ Hcl) as (S1 & S2 & S3 & S4 & S5 & S6).
  pose proof (cl_deployment _ _ _ _ _ _ _ _ Hcl) as S7.
  destruct (computeLimit_spec a1 tg all (gs_untainted gs) (gs_destructive gs) (gs_migrate gs)) as [Hl0 Hlmax];
    [lia| | |intros s; rewrite S7; apply Hlim|congruence..|].
  { eapply keyed_sub; [|apply (go_keyed _ _ _ _ Hok')]. by apply map_union_subseteq_r. }
  { rewrite (cl_untainted _ _ _ _ _ _ _ _ Hcl). etrans; [apply deleteKeys_sub|apply map_filter_subseteq]. }
  set (limit := computeLimit _ _ _ _ _ _ _) in *.
  destruct (placeGroup_spec a1 job (tg_Name tg) tg dstate ex dc gs names ni) as (a2 & dc2 & complete & -> & P1 & P2 & P3 & ds & P4 & P6 & P5);
    [apply Hcl|unfold no_canaries; by rewrite S6, S7|congruence..|done|done|].
  fold limit in P1, P2. set (cd := chosenOf (gs_destructive gs) limit) in *.
  set (cg := chosenOf (gs_migrate gs) (limit - Z.of_nat (length cd))) in *.
  destruct (classified_parts _ _ _ _ _ _ _ _ limit (limit - Z.of_nat (length cd)) Hcl) as (rest & R1 & R2 & R3).
  fold cd cg in R1, R2.
  eexists _, complete, cm, cu, cd, cg, names, rest. split; [reflexivity|]. simpl.
  rewrite P1, P2, (cl_stops _ _ _ _ _ _ _ _ Hcl), (cl_places _ _ _ _ _ _ _ _ Hcl), <- !app_assoc.
  split_and!; [done|done|eapply same_inputs_trans; [apply Hcl|apply P3]|by rewrite R2, <- !app_assoc| | | | | |].
  - rewrite <- R1, length_vals, map_size_disj_union by done. lia.
  - rewrite <- R1. apply NoDup_app. split_and!; [done| |by eapply group_names_NoDup].
    intros name Hn (x & -> & [k Hk]%elem_of_vals)%list_elem_of_fmap. by apply (Hfresh k x Hk).
  - intros s Hs. pose proof (length_chosenOf (gs_destructive gs) limit Hl0) as L1. fold cd in L1.
    assert (0 ≤ limit - Z.of_nat (length cd)) as Hl1
      by (rewrite L1; unfold IntMin; destruct (Z.ltb_spec (Z.of_nat (size (gs_destructive gs))) limit); lia).
    pose proof (length_chosenOf (gs_migrate gs) _ Hl1) as L2. fold cg in L2. destruct (Hlim s Hs) as [Hmp _].
    unfold IntMin in L1, L2. destruct (Hlmax s Hs);
      destruct (Z.ltb_spec (Z.of_nat (size (gs_destructive gs))) limit),
        (Z.ltb_spec (Z.of_nat (size (gs_migrate gs))) (limit - Z.of_nat (length cd))); lia.
  - destruct P3 as (_ & E & _). rewrite E. apply (cl_updater _ _ _ _ _ _ _ _ Hcl).
  - destruct P3 as (_ & _ & E). exists f. eexists. rewrite E, (cl_updates _ _ _ _ _ _ _ _ Hcl).
    split; [reflexivity|]. split; [exact R3|]. intros x [Hx Hin]%list_elem_of_filter. split; [done|].
    apply (cl_answers _ _ _ _ _ _ _ _ Hcl). by rewrite (range_vals range range_perm) in Hin.
  - exists ds. split; [done|]. split; [done|]. unfold deploys in *.
    rewrite (cl_deployment _ _ _ _ _ _ _ _ Hcl), (cl_result _ _ _ _ _ _ _ _ Hcl) in P5. exact P5.
Qed.
End group.
