(* ===== verification/ReconcileProps.v ===== *)
(** * Properties of the reconciler

    A group converges to its count with distinct names, updates at most what the
    strategy allows at once, and places nothing while its deployment is paused; a
    stopped job is stopped entirely.  The last section has two runs in which the
    reconciler does not do what it means to. *)

From stdpp Require Import base gmap strings list sorting.
From Stdlib Require Import ZArith Lia.
From S2P Require Import Prelude Bitmap Structs Resources Jobs Allocs Plans AllocSets NameIndex Reconcile ReconcileSpec ReconcileGroup.
Open Scope string_scope.
Open Scope list_scope.
Open Scope Z_scope.

(** ** The matrix of allocations *)

Lemma addToMatrix_flat (m : allocMatrix) x :
  (∀ g s k y, m !! g = Some s → s !! k = Some y → k ≠ al_ID x) →
  flat (vals <$> addToMatrix m x) ≡ₚ x :: flat (vals <$> m).
Proof.
  intros Hx. unfold addToMatrix. rewrite fmap_insert, flat_insert, <- fmap_delete.
  rewrite vals_insert; [|destruct (m !! al_TaskGroup x) as [s|] eqn:E; [|done]; simpl].
  - rewrite (flat_delete (vals <$> m) (al_TaskGroup x)), <- fmap_delete, lookup_fmap.
    destruct (m !! al_TaskGroup x); [done|]. simpl. by rewrite vals_empty.
  - apply eq_None_not_Some. intros [y Hy]. by eapply Hx.
Qed.

(** Every allocation is in the set of its group, under its ID. *)
Definition matrix_ok (m : allocMatrix) (allocs : list Allocation) : Prop :=
  (∀ g s, m !! g = Some s → keyed s ∧ ∀ k x, s !! k = Some x → x ∈ allocs ∧ al_TaskGroup x = g) ∧
  flat (vals <$> m) ≡ₚ allocs.

Lemma addToMatrix_ok m l x :
  al_ID x ∉ al_ID <$> l → matrix_ok m l → matrix_ok (addToMatrix m x) (x :: l).
Proof.
  intros Hx [Hm Hf]. split.
  - intros g s. unfold addToMatrix. destruct (decide (g = al_TaskGroup x)) as [->|Hne].
    + rewrite lookup_insert_eq. intros [= <-]. destruct (m !! al_TaskGroup x) as [s|] eqn:E; simpl.
      * destruct (Hm _ _ E) as [Hk Hin]. split.
        { intros k y [[<- <-]|[_ Hy]]%lookup_insert_Some; [done|by apply Hk]. }
        intros k y [[<- <-]|[_ Hy]]%lookup_insert_Some; [split; [left|done]|].
        destruct (Hin k y Hy). split; [by right|done].
      * split; intros k y [[<- <-]|[_ Hy]]%lookup_insert_Some; try done. split; [left|done].
    + rewrite lookup_insert_ne by done. intros Hs. destruct (Hm g s Hs) as [Hk Hin]. split; [done|].
      intros k y Hy. destruct (Hin k y Hy). split; [by right|done].
  - rewrite addToMatrix_flat, Hf; [done|]. intros g s k y Hs Hy ->. destruct (Hm g s Hs) as [Hk Hin].
    destruct Hx. destruct (Hin _ _ Hy) as [Hy' _]. rewrite <- (Hk _ _ Hy). by apply list_elem_of_fmap_2.
Qed.

Lemma addGroup_ok l tgs : ∀ m, matrix_ok m l → matrix_ok (foldl addGroup m tgs) l.
Proof.
  induction tgs as [|tg tgs IH]; intros m Hm; [done|]. simpl. apply IH. unfold addGroup.
  destruct (m !! tg_Name tg) as [?|] eqn:E; [done|]. destruct Hm as [Hm Hf]. split.
  - intros g s [[<- <-]|[_ Hs]]%lookup_insert_Some; [|by apply Hm]. by split.
  - rewrite fmap_insert, flat_insert, vals_empty, <- fmap_delete, delete_id by done. done.
Qed.

Lemma newAllocMatrix_ok job allocs :
  NoDup (al_ID <$> allocs) → ∃ l, l ≡ₚ allocs ∧ matrix_ok (newAllocMatrix job allocs) l.
Proof.
  intros Hnd. assert (∀ l m acc, NoDup (al_ID <$> l ++ acc) → matrix_ok m acc →
    ∃ l', l' ≡ₚ l ++ acc ∧ matrix_ok (foldl addToMatrix m l) l') as Hfold.
  { induction l as [|x l IH]; intros m acc Hl Hm; [by exists acc|]. simpl in *. apply NoDup_cons in Hl as [Hx Hl].
    destruct (IH (addToMatrix m x) (x :: acc)) as (l' & Hp & Hok).
    - rewrite <- Permutation_middle. by constructor.
    - apply addToMatrix_ok; [|done]. intros Hin. apply Hx. rewrite fmap_app. apply elem_of_app. by right.
    - exists l'. split; [|done]. rewrite Hp. by rewrite <- Permutation_middle. }
  destruct (Hfold allocs ∅ []) as (l & Hl & Hok); [by rewrite app_nil_r| |].
  { split; [done|]. by rewrite fmap_empty, flat_empty. }
  exists l. rewrite app_nil_r in Hl. split; [done|]. unfold newAllocMatrix. destruct job; [by apply addGroup_ok|done].
Qed.

Section props.
Context {U : Type}.
Implicit Type a : allocReconciler U.
Context (range : allocSet → list (string * Allocation)).
Context (range_perm : ∀ s, range s ≡ₚ map_to_list s).

(** ** Stopping everything *)

Lemma as_alloc_mark status desc (l : list Allocation) : as_alloc <$> ((fun x => mkAllocStopResult x status desc) <$> l) = l.
Proof. rewrite <- list_fmap_compose. apply list_fmap_id. Qed.

Lemma stopAllOf_spec a s :
  keyed s → have_jobs s →
  ∃ a' u m l, stopAllOf range a s = Some (a', u, m, l) ∧
    as_alloc <$> stops_of a' ≡ₚ (as_alloc <$> stops_of a) ++ vals s ∧
    places_of a' = places_of a ∧ rr_deploymentUpdates (ar_result a') = rr_deploymentUpdates (ar_result a) ∧
    rr_deployment (ar_result a') = rr_deployment (ar_result a) ∧ same_inputs a a'.
Proof.
  intros Hk Hj. unfold stopAllOf. rewrite filterByTainted_spec by done. cbn [mbind option_bind].
  eexists _, _, _, _. split; [reflexivity|]. unfold markStop. simpl. split_and!; try done.
  rewrite !fmap_app, !as_alloc_mark, <- !app_assoc. apply Permutation_app_head.
  by rewrite !(range_vals range range_perm), <- vals_tainted.
Qed.

Lemma handleStop_spec l : ∀ a,
  Forall (fun gs => keyed gs.2 ∧ have_jobs gs.2) l →
  ∃ a', handleStop range a l = Some a' ∧
    as_alloc <$> stops_of a' ≡ₚ (as_alloc <$> stops_of a) ++ concat (vals <$> l.*2) ∧
    places_of a' = places_of a ∧ rr_deploymentUpdates (ar_result a') = rr_deploymentUpdates (ar_result a) ∧
    rr_deployment (ar_result a') = rr_deployment (ar_result a).
Proof.
  induction l as [|[g s] l IH]; intros a Hl; [exists a; simpl; by rewrite app_nil_r|].
  apply Forall_cons in Hl as [[Hk Hj] Hl]. cbn [handleStop].
  destruct (stopAllOf_spec a s Hk Hj) as (a1 & u & m & lo & -> & S1 & S2 & S3 & S4 & _). cbn [mbind option_bind].
  set (dc := zeroDesiredUpdates <| du_Stop := _ |>). destruct (IH (setDesired a1 g dc) Hl) as (a' & -> & T1 & T2 & T3 & T4). exists a'. split; [done|].
  simpl in T1, T2, T3, T4. split_and!; [|congruence..]. rewrite T1, S1. simpl. by rewrite app_assoc.
Qed.
End props.

(** C33. A stopped job is stopped entirely.  When the job is stopped or gone, the
    reconciler stops every existing allocation exactly once, places nothing,
    creates no deployment, and cancels the deployment exactly when it is active. *)
Theorem stopped_job_stops_everything {U : Type} range order
    (allocUpdateFn : U → Allocation → Job → TaskGroup → (bool * bool * option Allocation) * U) u uuid batch jobID job deployment allocs nodes :
  (∀ s, range s ≡ₚ map_to_list s) → (∀ m, order m ≡ₚ map_to_list m) →
  Stopped job = true → NoDup (al_ID <$> allocs) → Forall (fun x => is_Some (al_Job x)) allocs →
  ∃ r u', Compute_ range allocUpdateFn uuid order (NewAllocReconciler u batch jobID job deployment allocs nodes) = Some (r, u') ∧
    as_alloc <$> rr_stop r ≡ₚ allocs ∧ rr_place r = [] ∧ rr_deployment r = None ∧
    rr_deploymentUpdates r = match deployment with
      | Some d => if Active d then [mkDeploymentStatusUpdate (d_ID d) DeploymentStatusCancelled DescriptionStoppedJob] else []
      | None => []
      end.
Proof.
  intros Hr Ho Hst Hnd Hj. unfold Compute_, cancelDeployments. simpl. rewrite Hst.
  destruct (newAllocMatrix_ok job allocs Hnd) as (l & Hl & Hm & Hflat).
  set (m := newAllocMatrix job allocs) in *. set (a := match deployment with Some _ => _ | None => _ end).
  set (a1 := _ <| ar_deployment := None |>).
  destruct (handleStop_spec range Hr (order m) a1) as (a' & E & S1 & S2 & S3 & S4).
  { apply Forall_forall. intros [g s] Hin. rewrite Ho in Hin. apply elem_of_map_to_list in Hin.
    destruct (Hm g s Hin) as [Hk Hx]. split; [done|]. intros k x Hs. destruct (Hx k x Hs) as [Hin' _].
    rewrite Hl in Hin'. rewrite Forall_forall in Hj. by apply Hj. }
  assert (stops_of a1 = [] ∧ places_of a1 = [] ∧ rr_deployment (ar_result a1) = None ∧ Stopped (ar_job a1) = true)
    as (E1 & E2 & E3 & E4) by (unfold a1, a; destruct deployment as [d|]; [destruct (Active d)|]; by split_and!).
  assert (rr_deploymentUpdates (ar_result a1) = match deployment with
      | Some d => if Active d then [mkDeploymentStatusUpdate (d_ID d) DeploymentStatusCancelled DescriptionStoppedJob] else []
      | None => [] end) as E5 by (unfold a1, a; destruct deployment as [d|]; [destruct (Active d)|]; done).
  exists (ar_result a'), (ar_updater a'). split_and!; [destruct (ar_job a1); [rewrite E4|]; by rewrite E| |congruence..].
  rewrite S1, E1. simpl. rewrite Ho, <- Hl, <- Hflat. unfold flat.
  change (vals (vals <$> m)) with ((map_to_list (vals <$> m)).*2). by rewrite map_to_list_fmap, <- !list_fmap_compose.
Qed.

(** ** A group converges *)

(** What is left of the group when the stops are carried out. *)
Definition keptOf (all : allocSet) (stops : list allocStopResult) : allocSet :=
  filter (fun kv => kv.1 ∉ al_ID <$> (as_alloc <$> stops)) all.

(** C5. One evaluation brings a group to its count.  For a well-formed group that
    has no canaries and whose deployment is neither paused nor failed, the
    reconciler returns; it stops existing allocations, none twice; what it keeps and
    what it places together are exactly the count of the group and have distinct
    names; and every allocation on a lost node is stopped and marked lost. *)
Theorem group_converges {U : Type} range
    (allocUpdateFn : U → Allocation → Job → TaskGroup → (bool * bool * option Allocation) * U) uuid a job tg all :
  (∀ s, range s ≡ₚ map_to_list s) →
  LookupTaskGroup job (tg_Name tg) = Some tg → 0 ≤ tg_Count tg < 2 ^ 62 →
  group_ok (ar_jobID a) (tg_Name tg) (tg_Count tg) all →
  no_canaries a tg (groupState a (tg_Name tg) tg).1 →
  ar_deploymentPaused a = false → ar_deploymentFailed a = false → limit_ok a tg all →
  ∃ a' complete stops places,
    computeGroup range allocUpdateFn uuid a job (tg_Name tg) all = Some (a', complete) ∧
    stops_of a' = stops_of a ++ stops ∧ places_of a' = places_of a ++ places ∧
    NoDup (al_ID <$> (as_alloc <$> stops)) ∧
    (∀ s, s ∈ stops → all !! al_ID (as_alloc s) = Some (as_alloc s)) ∧
    Z.of_nat (size (keptOf all stops) + length places) = tg_Count tg ∧
    NoDup ((al_Name <$> vals (keptOf all stops)) ++ (ap_name <$> places)) ∧
    (∀ k x, all !! k = Some x → taintOf (ar_taintedNodes a) x = Lost →
       mkAllocStopResult x AllocClientStatusLost allocLost ∈ stops).
Proof.
  intros Hr Hlk Hc Hok Hcan Hp Hf Hlim.
  destruct (computeGroup_spec range Hr allocUpdateFn uuid (fun _ => True) (fun _ _ => True) a job tg all Hlk Hc Hok Hcan Hp Hf Hlim
    I (fun _ _ _ _ => conj I I))
    as (a' & complete & cm & cu & cd & cg & names & rest & E & S & P & _ & Hparts & Hcount & Hnd & _).
  set (lost := tainted (ar_taintedNodes a) Lost all) in *. eexists a', complete, _, _. split_and!; [done..| | | | |].
  all: set (stops := stopsOf range lost cm cu ++ _); try set (places := placeNames tg false names ++ _).
  all: assert (as_alloc <$> stops ≡ₚ vals lost ++ cm.*2 ++ cu.*2 ++ cd ++ cg) as Hst
    by (unfold stops, stopsOf, notNeeded, updateStop, migrateStop;
        rewrite !fmap_app, !as_alloc_mark, (range_vals range Hr), <- !app_assoc; done).
  all: destruct (split_by_ids all (as_alloc <$> stops) rest (go_keyed _ _ _ _ Hok)) as (HS & Hin & Hkept); [by rewrite Hst|].
  - done.
  - intros s Hs. by apply Hin, list_elem_of_fmap_2.
  - unfold keptOf. rewrite <- length_vals, Hkept. unfold places, placeNames. rewrite !length_app in *. rewrite !length_fmap. lia.
  - unfold keptOf. rewrite Hkept. unfold places, placeNames, replaceOf. rewrite !fmap_app, <- !list_fmap_compose in *.
    rewrite list_fmap_id. eapply NoDup_Permutation_proper; [|exact Hnd]. solve_Permutation.
  - intros k x Hx Ht. unfold stops, stopsOf. apply elem_of_app. left. apply elem_of_app. left.
    apply list_elem_of_fmap. exists x. split; [done|]. rewrite (range_vals range Hr). apply elem_of_vals. exists k.
    by apply map_lookup_filter_Some.
Qed.


(** ** A paused deployment *)

Lemma migrateLoop_paused {U : Type} tg limit l : ∀ (a : allocReconciler U) migrated,
  ar_deploymentFailed a || ar_deploymentPaused a = true →
  migrateLoop a tg limit migrated l = (addStop a ((fun x => mkAllocStopResult x "" allocNodeTainted) <$> l), false).
Proof.
  induction l as [|x l IH]; intros a migrated Hp; [by rewrite addStop_nil|]. cbn [migrateLoop]. rewrite Hp, IH by done.
  by rewrite addStop_app.
Qed.

Lemma placeGroup_paused {U : Type} range uuid (a : allocReconciler U) job group tg dstate ex dc gs ni place :
  ar_deploymentFailed a || ar_deploymentPaused a = true →
  computePlacements tg (gs_nameIndex gs) (gs_untainted gs) (gs_migrate gs) = Some (ni, place) →
  ∃ a' dc' complete, placeGroup range uuid a job group tg dstate ex dc gs = Some (a', dc', complete) ∧
    stops_of a' = stops_of a ++ ((fun x => mkAllocStopResult x "" allocNodeTainted) <$> nameOrder range (gs_migrate gs)) ∧
    places_of a' = places_of a.
Proof.
  intros Hp Hplace. unfold placeGroup. set (ds1 := if ex then dstate else _). set (rc := match tg_Update tg with Some _ => _ | None => false end).
  assert (∀ b, b && negb (ar_deploymentPaused a) && negb (ar_deploymentFailed a) = false) as Hno
    by (intros []; by destruct (ar_deploymentFailed a), (ar_deploymentPaused a)).
  assert (∀ (P : allocReconciler U * allocNameIndex * DeploymentState * DesiredUpdates → option (allocReconciler U * DesiredUpdates * bool)),
    (match tg_Update tg with
     | Some u => if rc && negb (ar_deploymentPaused a) && negb (ar_deploymentFailed a) then
         placeCanaries a tg u (gs_nameIndex gs) (gs_canaries gs) (gs_destructive gs) ex ds1 dc
         else Some (a, gs_nameIndex gs, ds1, dc)
     | None => Some (a, gs_nameIndex gs, ds1, dc) end ≫= P) = P (a, gs_nameIndex gs, ds1, dc)) as ->
    by (intros; rewrite Hno; by destruct (tg_Update tg)).
  rewrite Hplace. specialize (Hno true). cbn [mbind option_bind andb] in *. rewrite Hno. cbn [mbind option_bind andb].
  rewrite migrateLoop_paused by done. set (ds2 := if ex then ds1 else _).
  set (a1 := addStop a _).
  destruct (finishGroup_keeps uuid a1 job group (tg_Update tg) ds2 false) as (F1 & F2 & _).
  eexists _, _, _. split; [reflexivity|]. by rewrite F1, F2.
Qed.

(** A paused or failed deployment changes nothing that it can avoid.  For a
    well-formed group without canaries the reconciler returns and places nothing: it
    only stops what is lost, what exceeds the count, and every other allocation on a
    tainted node, which is not replaced. *)
Theorem paused_group_places_nothing {U : Type} range
    (allocUpdateFn : U → Allocation → Job → TaskGroup → (bool * bool * option Allocation) * U) uuid a job tg all :
  (∀ s, range s ≡ₚ map_to_list s) →
  LookupTaskGroup job (tg_Name tg) = Some tg → 0 ≤ tg_Count tg < 2 ^ 62 →
  group_ok (ar_jobID a) (tg_Name tg) (tg_Count tg) all →
  no_canaries a tg (groupState a (tg_Name tg) tg).1 →
  ar_deploymentFailed a || ar_deploymentPaused a = true →
  ∃ a' complete stops tainted_stops,
    computeGroup range allocUpdateFn uuid a job (tg_Name tg) all = Some (a', complete) ∧
    places_of a' = places_of a ∧ stops_of a' = stops_of a ++ stops ++ tainted_stops ∧
    (∀ s, s ∈ stops → as_statusDescription s = allocLost ∨ as_statusDescription s = allocNotNeeded) ∧
    (∀ s, s ∈ tainted_stops → as_statusDescription s = allocNodeTainted ∧ as_clientStatus s = "") ∧
    (∀ k x, all !! k = Some x → taintOf (ar_taintedNodes a) x ≠ Untainted → x ∈ as_alloc <$> stops ++ tainted_stops) ∧
    Z.of_nat (length stops) =
      Z.of_nat (size (tainted (ar_taintedNodes a) Lost all)) +
      Z.max 0 (Z.of_nat (size (tainted (ar_taintedNodes a) Untainted all) +
                         size (tainted (ar_taintedNodes a) Migrating all)) - tg_Count tg).
Proof.
  intros Hr Hlk Hc Hok Hcan Hp. unfold computeGroup. rewrite Hlk.
  destruct (groupState a (tg_Name tg) tg) as [dstate ex]. cbn [fst] in Hcan.
  destruct (classifyGroup_spec range Hr allocUpdateFn (fun _ => True) (fun _ _ => True) a job tg all dstate Hc Hok Hcan
    I (fun _ _ _ _ => conj I I)) as (f & a1 & dc & gs & cm & cu & -> & Hcl).
  cbn [mbind option_bind]. destruct (classified_sizes _ _ _ _ _ _ _ _ _ _ _ Hcl Hok) as (Hdisj & Hok' & Hsz & Hidx).
  destruct (computePlacements_spec range Hr (ar_jobID a) tg (gs_nameIndex gs) (gs_untainted gs) (gs_migrate gs))
    as (ni & names & Hplace & _); [done..|].
  pose proof (cl_same _ _ _ _ _ _ _ _ _ _ _ Hcl) as (_ & _ & _ & S4 & S5 & _).
  assert (ar_deploymentFailed a1 || ar_deploymentPaused a1 = true) as Hp1 by (by rewrite S4, S5).
  set (l := nameOrder range (gs_migrate gs)). set (ts := (fun x => mkAllocStopResult x "" allocNodeTainted) <$> l).
  assert (∃ a2 dc2 c, placeGroup range uuid a1 job (tg_Name tg) tg dstate ex dc gs = Some (a2, dc2, c) ∧
    stops_of a2 = stops_of a1 ++ ts ∧ places_of a2 = places_of a1) as (a2 & dc2 & c & -> & P1 & P2).
  { by apply (placeGroup_paused range uuid a1 job (tg_Name tg) tg dstate ex dc gs ni (placeNames tg false names)). }
  cbn [mbind option_bind]. eexists _, c, (stopsOf range (tainted (ar_taintedNodes a) Lost all) cm cu), ts.
  split; [reflexivity|]. simpl.
  rewrite P1, P2, (cl_stops _ _ _ _ _ _ _ _ _ _ _ Hcl), (cl_places _ _ _ _ _ _ _ _ _ _ _ Hcl), <- app_assoc.
  split_and!; [done|done| | | |].
  - intros s. unfold stopsOf, notNeeded. rewrite !elem_of_app, !list_elem_of_fmap.
    intros [(x & -> & _)|[(x & -> & _)|(x & -> & _)]]; auto.
  - by intros s (x & -> & _)%list_elem_of_fmap.
  - intros k x Hx Ht. rewrite fmap_app. unfold ts, stopsOf, notNeeded. rewrite !fmap_app, !as_alloc_mark, range_vals by done.
    unfold l. rewrite nameOrder_perm by done. rewrite (cl_migrate _ _ _ _ _ _ _ _ _ _ _ Hcl).
    assert (x ∈ vals (tainted (ar_taintedNodes a) Migrating all) ∨ x ∈ vals (tainted (ar_taintedNodes a) Lost all)) as [Hm|Hl].
    { rewrite !elem_of_vals. destruct (taintOf (ar_taintedNodes a) x) eqn:E; [done|left|right]; exists k; by apply map_lookup_filter_Some. }
    + rewrite (vals_entries cm _ (cl_cm _ _ _ _ _ _ _ _ _ _ _ Hcl)) in Hm. solve_in.
    + solve_in.
  - unfold stopsOf, notNeeded. rewrite !length_app, !length_fmap, length_range by done.
    pose proof (cl_count _ _ _ _ _ _ _ _ _ _ _ Hcl). lia.
Qed.

(** ** Concrete groups *)

Definition demoStrategy (maxParallel canary : Z) : UpdateStrategy := mkUpdateStrategy 30 maxParallel "" 0 0 false canary.
Definition demoGroup (count : Z) (update : option UpdateStrategy) : TaskGroup := mkTaskGroup "g" count update [] [] None ∅.
Definition demoJob (tg : TaskGroup) : Job :=
  mkJob false "global" "web" "" "web" JobTypeService 50 false [] [] [tg] noUpdate None None "" ∅ "" "" false 1 0 1 1 1.
Definition demoAlloc (tg : TaskGroup) (i : Z) (node : string) (deployment : string) : Allocation :=
  zeroAllocation <| al_ID := "id" +:+ itoa i |> <| al_NodeID := node |> <| al_JobID := "web" |>
    <| al_TaskGroup := "g" |> <| al_Name := AllocName "web" "g" i |> <| al_Job := Some (demoJob tg) |>
    <| al_DeploymentID := deployment |>.
Definition demoSet (tg : TaskGroup) : allocSet :=
  <["id0" := demoAlloc tg 0 "n0" ""]> {["id1" := demoAlloc tg 1 "n1" ""]}.
Definition demoReconciler (tg : TaskGroup) (deployment : option Deployment) (allocs : list Allocation) : allocReconciler nat :=
  NewAllocReconciler 0%nat false "web" (Some (demoJob tg)) deployment allocs {["n1" := None]}.
(** The allocations of no deployment are to be updated; the state counts the calls. *)
Definition demoUpdateFn (n : nat) (x : Allocation) (_ : Job) (_ : TaskGroup) : (bool * bool * option Allocation) * nat :=
  (negb (bool_decide (al_DeploymentID x = "")), true, None, S n).

Lemma demoSet_lookup tg k x :
  demoSet tg !! k = Some x → (k, x) = ("id0", demoAlloc tg 0 "n0" "") ∨ (k, x) = ("id1", demoAlloc tg 1 "n1" "").
Proof. unfold demoSet. intros [[<- <-]|[_ [<- <-]%lookup_singleton_Some]]%lookup_insert_Some; auto. Qed.

Lemma demo_group_ok count update :
  count = 3 → group_ok "web" "g" count (demoSet (demoGroup count update)).
Proof.
  intros ->. split.
  - by intros k x [[= -> ->]|[= -> ->]]%demoSet_lookup.
  - intros k x [[= -> ->]|[= -> ->]]%demoSet_lookup; by eexists.
  - by intros k x [[= -> ->]|[= -> ->]]%demoSet_lookup.
  - intros k x [[= -> ->]|[= -> ->]]%demoSet_lookup; (split; [vm_compute; by split|by left]).
  - by intros k k' x x' [[= -> ->]|[= -> ->]]%demoSet_lookup [[= -> ->]|[= -> ->]]%demoSet_lookup.
  - vm_compute. done.
Qed.

Lemma group_converges_witness :
  ∃ a' complete stops places,
    computeGroup map_to_list demoUpdateFn "d" (demoReconciler (demoGroup 3 None) None [])
      (demoJob (demoGroup 3 None)) "g" (demoSet (demoGroup 3 None)) = Some (a', complete) ∧
    stops_of a' = stops ∧ places_of a' = places ∧
    Z.of_nat (size (keptOf (demoSet (demoGroup 3 None)) stops) + length places) = 3.
Proof.
  destruct (group_converges map_to_list demoUpdateFn "d" (demoReconciler (demoGroup 3 None) None [])
    (demoJob (demoGroup 3 None)) (demoGroup 3 None) (demoSet (demoGroup 3 None)))
    as (a' & complete & stops & places & H1 & H2 & H3 & _ & _ & H4 & _);
    [reflexivity|reflexivity|split; reflexivity || discriminate|apply demo_group_ok; reflexivity| |reflexivity|reflexivity| |].
  - split_and!; try reflexivity. intros u Hu. discriminate.
  - intros u Hu. discriminate.
  - exists a', complete, stops, places. split_and!; assumption.
Defined.


Lemma paused_group_witness :
  ∃ a' complete,
    computeGroup map_to_list demoUpdateFn "d" ((demoReconciler (demoGroup 3 None) None []) <| ar_deploymentPaused := true |>)
      (demoJob (demoGroup 3 None)) "g" (demoSet (demoGroup 3 None)) = Some (a', complete) ∧ places_of a' = [].
Proof.
  destruct (paused_group_places_nothing map_to_list demoUpdateFn "d"
    ((demoReconciler (demoGroup 3 None) None []) <| ar_deploymentPaused := true |>)
    (demoJob (demoGroup 3 None)) (demoGroup 3 None) (demoSet (demoGroup 3 None)))
    as (a' & complete & stops & ts & H1 & H2 & _);
    [reflexivity|reflexivity|split; reflexivity || discriminate|apply demo_group_ok; reflexivity| |reflexivity|].
  - split_and!; try reflexivity. intros u Hu. discriminate.
  - exists a', complete. split; [exact H1|exact H2].
Defined.

Lemma stopped_job_witness :
  ∃ r u, Compute_ map_to_list demoUpdateFn "d" map_to_list
      (NewAllocReconciler 0%nat false "web" None None (vals (demoSet (demoGroup 3 None))) {["n1" := None]}) = Some (r, u) ∧
    as_alloc <$> rr_stop r ≡ₚ vals (demoSet (demoGroup 3 None)).
Proof.
  destruct (stopped_job_stops_everything map_to_list map_to_list demoUpdateFn 0%nat "d" false "web" None None
    (vals (demoSet (demoGroup 3 None))) {["n1" := None]}) as (r & u & H1 & H2 & _).
  - reflexivity.
  - reflexivity.
  - reflexivity.
  - vm_compute. repeat constructor; rewrite ?elem_of_cons, ?elem_of_nil; intros H; repeat destruct H as [H|H]; discriminate || contradiction.
  - apply Forall_forall. intros x [k [[= -> ->]|[= -> ->]]%demoSet_lookup]%elem_of_vals; eexists; reflexivity.
  - exists r, u. split; assumption.
Defined.

(** ** Runs that go wrong *)

(** The job went from two allocations to four with a new task, one update at a time.
    The first evaluation updated id0 and placed id2 and id3, none of which has
    reported its health yet; id1 is still to be updated. *)
Definition scaledGroup : TaskGroup := demoGroup 4 (Some (demoStrategy 1 0)).
Definition scaledDeployment : Deployment :=
  mkDeployment "dep" "web" 1 1 1 {["g" := zeroDeploymentState <| ds_DesiredTotal := 4 |>]} DeploymentStatusRunning "" 1 1.
Definition scaledAllocs : list Allocation :=
  [demoAlloc scaledGroup 0 "n0" "dep"; demoAlloc scaledGroup 1 "n0" "";
   demoAlloc scaledGroup 2 "n0" "dep"; demoAlloc scaledGroup 3 "n0" "dep"].

(** [computeLimit] can return a negative number, and [computeGroup] then slices
    with a negative bound: three allocations of a deployment with [MaxParallel] 1
    are pending, one is left to update, and the reconciler panics. *)
Theorem negative_limit_panics :
  computeLimit map_to_list (demoReconciler scaledGroup (Some scaledDeployment) scaledAllocs) scaledGroup
    (newAllocSet scaledAllocs) {["id1" := demoAlloc scaledGroup 1 "n0" ""]} ∅ false = -2 ∧
  Compute_ map_to_list demoUpdateFn "d" map_to_list
    (demoReconciler scaledGroup (Some scaledDeployment) scaledAllocs) = None.
Proof. split; vm_compute; reflexivity. Qed.

(** Nine allocations of which one is on a node that is lost, while the job is
    scaled down to eight. *)
Definition shrunkAllocs : list Allocation :=
  (fun i => demoAlloc (demoGroup 8 None) i (if i =? 3 then "n1" else "n0") "") <$> seqZ 0 9.

(** The bitmap of the names is one byte short when the highest index is a
    multiple of eight and the count and the number of allocations are not above it:
    [bitmapFrom] then sets a bit out of range.  Nine allocations, one of them on a
    lost node, and a count lowered to eight make the reconciler panic; with a count
    of nine it returns. *)
Theorem byte_aligned_index_panics :
  bitmapFrom {["id8" := demoAlloc (demoGroup 8 None) 8 "n0" ""]} 8 = None ∧
  Compute_ map_to_list demoUpdateFn "d" map_to_list (demoReconciler (demoGroup 8 None) None shrunkAllocs) = None ∧
  is_Some (Compute_ map_to_list demoUpdateFn "d" map_to_list (demoReconciler (demoGroup 9 None) None shrunkAllocs)).
Proof. split_and!; [vm_compute; reflexivity..|]. vm_compute. eexists. reflexivity. Qed.

(** [NextCanaries] returns fewer names than it is asked for: with one destructive
    update and no free name, two canaries are asked for and one name comes back, for
    the loop that would overlap names reads a variable that was never assigned. *)
Theorem next_canaries_short :
  (ni ← newAllocNameIndex "web" "g" 1 {["id0" := demoAlloc (demoGroup 1 None) 0 "n0" ""]};
   r ← NextCanaries ni 2 ∅ {["id0" := demoAlloc (demoGroup 1 None) 0 "n0" ""]};
   Some r.2) = Some ["web.g[0]"].
Proof. vm_compute. reflexivity. Qed.
