(* ===== verification/ReconcileJob.v ===== *)
(** * A whole job, from its allocations to its stops, updates and placements

    [Compute] of src/scheduler/reconcile.go for a job that is not stopped: the groups
    are worked off one after the other, and a deployment that the first of them creates
    is there for the others. *)

From stdpp Require Import base gmap strings list sorting.
From Stdlib Require Import ZArith Lia.
From S2P Require Import Prelude Bitmap Structs Resources Jobs Allocs Plans AllocSets NameIndex Reconcile ReconcileSpec ReconcileGroup ReconcileProps.
Open Scope string_scope.
Open Scope list_scope.
Open Scope Z_scope.

Lemma LookupTaskGroup_Some job g tg : LookupTaskGroup job g = Some tg → tg ∈ jb_TaskGroups job ∧ tg_Name tg = g.
Proof.
  unfold LookupTaskGroup. intros ([i t] & (Hi & En & _)%list_find_Some & [= <-])%bind_Some.
  split; [by eapply list_elem_of_lookup_2|done].
Qed.

(** ** The matrix has a set for every group *)

Lemma addGroup_mono m tg g : is_Some (m !! g) → is_Some (addGroup m tg !! g).
Proof.
  unfold addGroup. destruct (m !! tg_Name tg); [done|]. intros ?. rewrite lookup_insert_is_Some'. by right.
Qed.

Lemma addGroups_dom tgs : ∀ (m : allocMatrix) g,
  (is_Some (m !! g) ∨ g ∈ tg_Name <$> tgs) → is_Some (foldl addGroup m tgs !! g).
Proof.
  induction tgs as [|t tgs IH]; intros m g; [by intros [?|?%elem_of_nil]|].
  rewrite fmap_cons, elem_of_cons. cbn [foldl]. intros [Hm|[->|Hin]]; apply IH; [left; by apply addGroup_mono| |by right].
  left. unfold addGroup. destruct (m !! tg_Name t) eqn:E; [by rewrite E|]. by rewrite lookup_insert_eq.
Qed.

Lemma matrix_group m l g s :
  NoDup (al_ID <$> l) → matrix_ok m l → m !! g = Some s → vals s ≡ₚ filter (fun x => al_TaskGroup x = g) l.
Proof.
  intros Hnd [Hm Hf] Hs. destruct (Hm g s Hs) as [Hk Hin]. apply NoDup_Permutation.
  - apply (NoDup_fmap_1 al_ID). rewrite keyed_ids by done. apply NoDup_fst_map_to_list.
  - apply NoDup_filter. by apply (NoDup_fmap_1 al_ID).
  - intros x. rewrite elem_of_vals, list_elem_of_filter. split.
    + intros [k Hx]. destruct (Hin k x Hx). done.
    + intros [Hg Hx]. rewrite <- Hf in Hx. apply elem_of_flat in Hx as (k & vs & Hvs & Hxv).
      rewrite lookup_fmap in Hvs. apply fmap_Some in Hvs as (s' & Hs' & ->). apply elem_of_vals in Hxv as [i Hx].
      destruct (Hm k s' Hs') as [_ Hin']. destruct (Hin' i x Hx) as [_ Eg]. exists i. congruence.
Qed.

(** ** Conditions *)

(** The allocations of a job, with distinct identifiers; those of a group of the job carry
    the names of the group, each another index. *)
Record allocs_ok (jobID : string) (job : Job) (allocs : list Allocation) : Prop := {
  ao_ids : NoDup (al_ID <$> allocs);
  ao_jobs : ∀ x, x ∈ allocs → is_Some (al_Job x);
  ao_names : ∀ x tg, x ∈ allocs → LookupTaskGroup job (al_TaskGroup x) = Some tg →
    al_Name x = AllocName jobID (al_TaskGroup x) (Index x) ∧ index_fits (tg_Count tg) x;
  ao_distinct : ∀ x y, x ∈ allocs → y ∈ allocs → al_TaskGroup x = al_TaskGroup y → Index x = Index y → al_ID x = al_ID y;
  ao_few : Z.of_nat (length allocs) < 2 ^ 61;
  ao_counts : ∀ tg, tg ∈ jb_TaskGroups job → 0 ≤ tg_Count tg < 2 ^ 62
}.

(** No group uses canaries, the deployment is neither paused nor failed, and no more of its
    allocations are pending than may be updated at once. *)
Record steady (job : Job) (deployment : option Deployment) (allocs : list Allocation) : Prop := {
  sd_states : ∀ d g s, deployment = Some d → d_TaskGroups d !! g = Some s → ds_PlacedCanaries s = [] ∧ inCanaryState s = false;
  sd_running : ∀ d, deployment = Some d → d_Status d ≠ DeploymentStatusPaused ∧ d_Status d ≠ DeploymentStatusFailed;
  sd_updates : ∀ tg u, tg ∈ jb_TaskGroups job → tg_Update tg = Some u → us_Canary u ≤ 0 ∧ 0 ≤ us_MaxParallel u;
  sd_pending : ∀ d tg u, deployment = Some d → tg ∈ jb_TaskGroups job → tg_Update tg = Some u →
    Z.of_nat (length (pending (d_ID d) (filter (fun x => al_TaskGroup x = tg_Name tg) allocs))) ≤ us_MaxParallel u
}.

Lemma canaryIDs_none b deployment :
  (∀ d g s, deployment = Some d → d_TaskGroups d !! g = Some s → ds_PlacedCanaries s = []) → canaryIDs b deployment = [].
Proof.
  destruct deployment as [d|]; [|done]. intros Hd. unfold canaryIDs.
  assert (∀ s, s ∈ vals (d_TaskGroups d) → ds_PlacedCanaries s = []) as Hs.
  { intros s [g Hg]%elem_of_vals. by eapply Hd. }
  revert Hs. generalize (vals (d_TaskGroups d)) as l. induction l as [|s l IH]; intros Hs; [done|].
  cbn [mbind list_bind]. rewrite (Hs s) by left. rewrite IH by (intros t Ht; apply Hs; by right).
  by destruct (b || negb (ds_Promoted s)).
Qed.

Lemma allocs_ok_perm jobID job l l' : l ≡ₚ l' → allocs_ok jobID job l → allocs_ok jobID job l'.
Proof.
  intros Hl [A1 A2 A3 A4 A5 A6]. split; [by rewrite <- Hl|..|by rewrite <- Hl|done].
  - intros x. rewrite <- Hl. apply A2.
  - intros x tg. rewrite <- Hl. apply A3.
  - intros x y. rewrite <- Hl. apply A4.
Qed.

Lemma steady_perm job deployment l l' : l ≡ₚ l' → steady job deployment l → steady job deployment l'.
Proof. intros Hl [S1 S2 S3 S4]. split; [done..|]. intros d tg u. unfold pending. rewrite <- Hl. apply S4. Qed.

(** The part of a concatenation that has a key. *)
Lemma filter_concat_one {A B} (key : A → string) g (m : list (string * B)) : ∀ ls i b l,
  NoDup m.*1 → Forall2 (fun kb l => ∀ x, x ∈ l → key x = kb.1) m ls → m !! i = Some (g, b) → ls !! i = Some l →
  filter (fun x => key x = g) (concat ls) = l.
Proof.
  induction m as [|[k c] m IH]; intros ls i b l Hnd Hls Hm Hl; [done|]. apply Forall2_cons_inv_l in Hls as (l0 & ls' & H0 & Hls & ->).
  rewrite fmap_cons in Hnd. apply NoDup_cons in Hnd as [Hk Hnd]. simpl. rewrite filter_app. destruct i as [|i]; simpl in Hm, Hl.
  - injection Hm as -> ->. injection Hl as ->. rewrite filter_all, filter_nothing; [| |by apply Forall_forall].
    2:{ intros x (l' & Hl' & Hx)%list_elem_of_In%in_concat E. apply list_elem_of_In, list_elem_of_lookup in Hl' as [j Hj].
        destruct (Forall2_lookup_r _ _ _ j l' Hls Hj) as ([k' c'] & Hm' & Hx'). apply Hk.
        rewrite <- E, (Hx' x) by (by apply list_elem_of_In). apply list_elem_of_lookup. exists j. by rewrite list_lookup_fmap, Hm'. }
    by rewrite app_nil_r.
  - rewrite filter_nothing; [by eapply IH|]. intros x Hx E. apply Hk.
    assert (k = g) as -> by (rewrite <- E; symmetry; by apply H0). apply list_elem_of_lookup. exists i.
    by rewrite list_lookup_fmap, Hm.
Qed.

(** ** The groups one after the other *)

(** What one group comes to. *)
Record groupResult := mkGroupResult {
  gr_stop : list allocStopResult;
  gr_place : list allocPlaceResult;
  gr_update : list (option Allocation);
  gr_kept : list Allocation;
  gr_renewed : list Allocation
}.

Section job.
Context (range : allocSet → list (string * Allocation)).
Context (range_perm : ∀ s, range s ≡ₚ map_to_list s).
Context (order : allocMatrix → list (string * allocSet)).
Context (order_perm : ∀ m, order m ≡ₚ map_to_list m).
Context {U : Type}.
Context (allocUpdateFn : U → Allocation → Job → TaskGroup → (bool * bool * option Allocation) * U).
Context (uuid : string).
Context (okU : U → Prop) (okR : Allocation → bool * bool * option Allocation → Prop).
Context (jobID : string) (job : Job) (deployment : option Deployment) (allocs : list Allocation).
Context (nodes : gmap string (option Node)).
Context (allocs_good : allocs_ok jobID job allocs) (steady_job : steady job deployment allocs).
Context (uuid_fresh : ∀ x, x ∈ allocs → al_DeploymentID x ≠ uuid).
Context (answers_good : ∀ tg, tg ∈ jb_TaskGroups job →
  answers_well allocUpdateFn okU okR job tg (filter (fun x => al_TaskGroup x = tg_Name tg) allocs)).
Implicit Type a : allocReconciler U.

Definition isGroup (g : string) (all : allocSet) : Prop := keyed all ∧ vals all ≡ₚ filter (fun x => al_TaskGroup x = g) allocs.

(** A group of the job is brought to its count, the allocations of any other are stopped. *)
Record outcome (g : string) (all : allocSet) (r : groupResult) : Prop := {
  oc_parts : vals all ≡ₚ (as_alloc <$> gr_stop r) ++ gr_kept r;
  oc_updates : Forall2 (fun x o => okR x (false, false, o)) (gr_renewed r) (gr_update r);
  oc_renewed : gr_renewed r ⊆+ gr_kept r;
  oc_lost : ∀ x, x ∈ vals all → taintOf nodes x = Lost → mkAllocStopResult x AllocClientStatusLost allocLost ∈ gr_stop r;
  oc_group : match LookupTaskGroup job g with
    | None => gr_kept r = [] ∧ gr_place r = []
    | Some tg =>
        Z.of_nat (length (gr_kept r) + length (gr_place r)) = tg_Count tg ∧
        NoDup ((al_Name <$> gr_kept r) ++ (ap_name <$> gr_place r)) ∧
        (∀ p, p ∈ gr_place r → ap_taskGroup p = tg ∧ ap_canary p = false ∧
           ∀ prev, ap_previousAlloc p = Some prev → prev ∈ as_alloc <$> gr_stop r ∧ taintOf nodes prev ≠ Lost)
    end
}.

(** The reconciler between two groups: it has the deployment it started with, or the one it
    has created. *)
Record staged a : Prop := {
  sg_job : ar_jobID a = jobID;
  sg_nodes : ar_taintedNodes a = nodes;
  sg_paused : ar_deploymentPaused a = false;
  sg_failed : ar_deploymentFailed a = false;
  sg_old : ar_oldDeployment a = None ∨ ar_oldDeployment a = deployment;
  sg_deployment : ar_deployment a = None ∨ ar_deployment a = deployment ∨
    ∃ g ds, ar_deployment a = Some ((NewDeployment uuid job) <| d_TaskGroups := {[g := ds]} |>) ∧
      ds_PlacedCanaries ds = [] ∧ inCanaryState ds = false;
  sg_updater : okU (ar_updater a)
}.

Lemma staged_states a d g s :
  staged a → ar_deployment a = Some d → d_TaskGroups d !! g = Some s → ds_PlacedCanaries s = [] ∧ inCanaryState s = false.
Proof.
  intros [_ _ _ _ _ Hd _] Ed Hs. destruct Hd as [E|[E|(g' & ds & E & H1 & H2)]]; [congruence| |].
  - apply (sd_states _ _ _ steady_job d g s); congruence.
  - rewrite E in Ed. injection Ed as <-. simpl in Hs. by apply lookup_singleton_Some in Hs as [_ <-].
Qed.

Lemma staged_no_canaries a tg :
  staged a → tg ∈ jb_TaskGroups job → no_canaries a tg (groupState a (tg_Name tg) tg).1.
Proof.
  intros Ha Htg. split_and!.
  - destruct (sg_old a Ha) as [->| ->]; [done|]. apply canaryIDs_none. intros d g s Hd Hs.
    by apply (sd_states _ _ _ steady_job d g s).
  - apply canaryIDs_none. intros d g s Hd Hs. by apply (staged_states a d g s).
  - unfold groupState. destruct (ar_deployment a ≫= _) as [ds|] eqn:E; simpl; [|done].
    apply bind_Some in E as (d & Ed & Es). by eapply staged_states.
  - intros u Hu. left. by apply (sd_updates _ _ _ steady_job tg u).
Qed.

Lemma pending_perm id l l' : l ≡ₚ l' → length (pending id l) = length (pending id l').
Proof. intros Hl. unfold pending. by rewrite Hl. Qed.

Lemma staged_limit a tg all : staged a → tg ∈ jb_TaskGroups job → isGroup (tg_Name tg) all → limit_ok a tg all.
Proof.
  intros Ha Htg [_ Hall] u Hu. destruct (sd_updates _ _ _ steady_job tg u Htg Hu) as [_ Hm]. split; [done|].
  intros d Hd. rewrite (pending_perm _ _ _ Hall).
  destruct (sg_deployment a Ha) as [E|[E|(g' & ds & E & _ & _)]]; [congruence| |].
  - apply (sd_pending _ _ _ steady_job d tg u); congruence.
  - rewrite E in Hd. injection Hd as <-. simpl. unfold pending. rewrite filter_nothing; [simpl; lia|].
    intros x [_ Hx]%list_elem_of_filter [Ex _]. by apply (uuid_fresh x).
Qed.

Lemma elem_of_group g all k x : isGroup g all → all !! k = Some x → x ∈ allocs ∧ al_TaskGroup x = g ∧ k = al_ID x.
Proof.
  intros [Hk Hall] Hx. assert (x ∈ vals all) as Hv by (apply elem_of_vals; by exists k).
  rewrite Hall in Hv. apply list_elem_of_filter in Hv as [? ?]. split_and!; [done..|]. symmetry. by apply Hk.
Qed.

Lemma isGroup_ok g all tg :
  isGroup g all → LookupTaskGroup job g = Some tg → group_ok jobID (tg_Name tg) (tg_Count tg) all.
Proof.
  intros Hall Hlk. pose proof (LookupTaskGroup_Some _ _ _ Hlk) as [Htg Eg]. pose proof allocs_good as [H1 H2 H3 H4 H5 H6].
  split.
  - apply Hall.
  - intros k x Hx. apply H2. by eapply elem_of_group.
  - intros k x Hx. destruct (elem_of_group g all k x Hall Hx) as (Hin & Ex & _).
    rewrite Eg, <- Ex. eapply H3; [done|by rewrite Ex].
  - intros k x Hx. destruct (elem_of_group g all k x Hall Hx) as (Hin & Ex & _). eapply H3; [done|by rewrite Ex].
  - intros k k' x y Hx Hy E. destruct (elem_of_group g all k x Hall Hx) as (Hin & Ex & ->).
    destruct (elem_of_group g all k' y Hall Hy) as (Hin' & Ey & ->). apply H4; [done..|congruence|done].
  - rewrite <- length_vals, (proj2 Hall). pose proof (length_filter (fun x => al_TaskGroup x = g) allocs). lia.
Qed.

Lemma stopAllOf_keeps a s :
  keyed s → have_jobs s →
  ∃ a' u m l stops, stopAllOf range a s = Some (a', u, m, l) ∧ stops_of a' = stops_of a ++ stops ∧ as_alloc <$> stops ≡ₚ vals s ∧
    (∀ x, x ∈ vals s → taintOf (ar_taintedNodes a) x = Lost → mkAllocStopResult x AllocClientStatusLost allocLost ∈ stops) ∧
    places_of a' = places_of a ∧ keeps a a' ∧ ar_deployment a' = ar_deployment a.
Proof.
  intros Hk Hj. unfold stopAllOf. rewrite filterByTainted_spec by done. cbn [mbind option_bind].
  eexists _, _, _, _, _. split; [reflexivity|]. unfold markStop. simpl. rewrite <- !app_assoc.
  split; [reflexivity|]. split_and!; try done.
  - rewrite !fmap_app, !as_alloc_mark, !(range_vals range range_perm). by rewrite <- vals_tainted.
  - intros x [k Hx]%elem_of_vals Ht. apply elem_of_app. right. apply elem_of_app. right. apply list_elem_of_fmap. exists x.
    split; [done|]. rewrite (range_vals range range_perm). apply elem_of_vals. exists k. by apply map_lookup_filter_Some.
Qed.

Lemma computeGroup_removed a g all :
  staged a → isGroup g all → LookupTaskGroup job g = None →
  ∃ a' c r, computeGroup range allocUpdateFn uuid a job g all = Some (a', c) ∧ staged a' ∧ outcome g all r ∧
    stops_of a' = stops_of a ++ gr_stop r ∧ places_of a' = places_of a ++ gr_place r ∧
    rr_inplaceUpdate (ar_result a') = rr_inplaceUpdate (ar_result a) ++ gr_update r.
Proof.
  intros Ha Hall Hlk. unfold computeGroup. rewrite Hlk.
  destruct (stopAllOf_keeps a all) as (a1 & u & m & l & stops & -> & S1 & S2 & S8 & S3 & (S4 & S5 & S6) & S7).
  { apply Hall. }
  { intros k x Hx. apply (ao_jobs _ _ _ allocs_good). by eapply elem_of_group. }
  cbn [mbind option_bind]. eexists _, _, (mkGroupResult stops [] [] [] []). split; [reflexivity|].
  destruct S4 as (_ & E2 & E3 & E4 & E5 & E6). simpl. split; [|split].
  - pose proof Ha as []. split; simpl; rewrite ?E2, ?E3, ?E4, ?E5, ?E6, ?S5, ?S7; done.
  - split; simpl; [by rewrite app_nil_r|constructor|done|by rewrite <- (sg_nodes a Ha)|by rewrite Hlk].
  - by rewrite S1, S3, S6, !app_nil_r.
Qed.

Lemma computeGroup_present a g all tg :
  staged a → isGroup g all → LookupTaskGroup job g = Some tg →
  ∃ a' c r, computeGroup range allocUpdateFn uuid a job g all = Some (a', c) ∧ staged a' ∧ outcome g all r ∧
    stops_of a' = stops_of a ++ gr_stop r ∧ places_of a' = places_of a ++ gr_place r ∧
    rr_inplaceUpdate (ar_result a') = rr_inplaceUpdate (ar_result a) ++ gr_update r.
Proof.
  intros Ha Hall Hlk. pose proof (LookupTaskGroup_Some _ _ _ Hlk) as [Htg Eg]. subst g.
  pose proof (isGroup_ok _ _ _ Hall Hlk) as Hok. rewrite <- (sg_job a Ha) in Hok.
  destruct (computeGroup_spec range range_perm allocUpdateFn uuid okU okR a job tg all Hlk (ao_counts _ _ _ allocs_good tg Htg) Hok
    (staged_no_canaries a tg Ha Htg) (sg_paused a Ha) (sg_failed a Ha) (staged_limit a tg all Ha Htg Hall) (sg_updater a Ha))
    as (a' & c & cm & cu & cd & cg & names & rest & E & S & P & (I1 & I2 & I3 & I4 & I5 & I6) & Hparts & Hcount & Hnd & _ &
        HU & (f & xs & Eup & Hxs & Hf) & ds & D1 & D2 & D3).
  { intros u x Hu Hx. apply (answers_good tg Htg); [done|]. by rewrite <- (proj2 Hall). }
  rewrite (sg_nodes a Ha) in *. set (lost := tainted nodes Lost all) in *.
  set (stops := stopsOf range lost cm cu ++ _) in S. set (places := placeNames tg false names ++ _) in P.
  assert (as_alloc <$> stops ≡ₚ vals lost ++ cm.*2 ++ cu.*2 ++ cd ++ cg) as Hst.
  { unfold stops, stopsOf, notNeeded, updateStop, migrateStop.
    rewrite !fmap_app, !as_alloc_mark, (range_vals range range_perm), <- !app_assoc. done. }
  exists a', c, (mkGroupResult stops places ((fun x => (f x).2) <$> xs) rest xs). split; [done|]. split; [|split; [|done]].
  - pose proof Ha as [G1 G2 G3 G4 G5 G6 G7]. split; [congruence..| | |done]; [by rewrite I6|].
    destruct D3 as [[-> _]|(E0 & D3 & _)]; [apply Ha|]. right. right. exists (tg_Name tg), ds. split; [done|].
    unfold groupState in D1, D2. rewrite E0 in D1, D2. simpl in D1, D2. by rewrite D1, D2.
  - split; simpl; [by rewrite Hst| |done| |].
    + apply Forall2_fmap_r, Forall_Forall2_diag, Forall_forall. intros x Hx. destruct (Hf x Hx) as [Hi HR].
      assert (f x = (false, false, (f x).2)) as Ex; [|rewrite Ex in HR; exact HR].
      unfold inplaces in Hi. by destruct (f x) as [[[] []] ia].
    + intros x [k Hx]%elem_of_vals Ht. unfold stops, stopsOf. apply elem_of_app. left. apply elem_of_app. left.
      apply list_elem_of_fmap. exists x. split; [done|]. rewrite (range_vals range range_perm). apply elem_of_vals. exists k.
      by apply map_lookup_filter_Some.
    + rewrite Hlk. split_and!.
      * unfold places, placeNames. rewrite !length_app in *. rewrite !length_fmap. lia.
      * unfold places, placeNames, replaceOf. rewrite !fmap_app, <- !list_fmap_compose in *. rewrite list_fmap_id.
        eapply NoDup_Permutation_proper; [|exact Hnd]. solve_Permutation.
      * assert (∀ x, x ∈ cd ++ cg → x ∈ as_alloc <$> stops ∧ taintOf nodes x ≠ Lost) as Hprev.
        { intros x Hx. split; [rewrite Hst; solve_in|]. intros Ht.
          assert (NoDup (vals all)) as Hnd'.
          { apply (NoDup_fmap_1 al_ID). rewrite keyed_ids by apply Hall. apply NoDup_fst_map_to_list. }
          assert (x ∈ vals all) as [k Hk]%elem_of_vals by (rewrite Hparts; solve_in).
          rewrite Hparts, <- !app_assoc in Hnd'. apply NoDup_app in Hnd' as (_ & Hdis & _). apply (Hdis x); [|solve_in].
          apply elem_of_vals. exists k. by apply map_lookup_filter_Some. }
        unfold places, placeNames, replaceOf. intros p. rewrite !elem_of_app, !list_elem_of_fmap.
        intros [(n & -> & _)|[(x & -> & Hx)|(x & -> & Hx)]]; (split; [done|]; split; [done|]); simpl;
          intros prev [= <-]; apply Hprev; solve_in.
Qed.

Lemma computeGroups_job m : ∀ a complete,
  staged a → (∀ gs, gs ∈ m → isGroup gs.1 gs.2) →
  ∃ a' c rs, computeGroups range allocUpdateFn uuid a job m complete = Some (a', c) ∧ staged a' ∧
    Forall2 (fun gs r => outcome gs.1 gs.2 r) m rs ∧
    stops_of a' = stops_of a ++ concat (gr_stop <$> rs) ∧ places_of a' = places_of a ++ concat (gr_place <$> rs) ∧
    rr_inplaceUpdate (ar_result a') = rr_inplaceUpdate (ar_result a) ++ concat (gr_update <$> rs).
Proof.
  induction m as [|[g all] m IH]; intros a complete Ha Hm.
  { exists a, complete, []. split_and!; [done|done|constructor|simpl; by rewrite app_nil_r..]. }
  assert (isGroup g all) as Hg by (apply (Hm (g, all)); left).
  assert (∃ a1 c r, computeGroup range allocUpdateFn uuid a job g all = Some (a1, c) ∧ staged a1 ∧ outcome g all r ∧
    stops_of a1 = stops_of a ++ gr_stop r ∧ places_of a1 = places_of a ++ gr_place r ∧
    rr_inplaceUpdate (ar_result a1) = rr_inplaceUpdate (ar_result a) ++ gr_update r) as (a1 & c & r & E & Ha1 & Ho & S1 & S2 & S3).
  { destruct (LookupTaskGroup job g) as [tg|] eqn:Hlk; [by eapply computeGroup_present|by apply computeGroup_removed]. }
  cbn [computeGroups]. rewrite E. cbn [mbind option_bind fst snd].
  destruct (IH a1 (complete && c) Ha1) as (a' & c' & rs & -> & Ha' & Hrs & T1 & T2 & T3).
  { intros gs Hin. apply Hm. by right. }
  exists a', c', (r :: rs). split_and!; [done|done|by constructor|..]; simpl; rewrite ?T1, ?T2, ?T3, ?S1, ?S2, ?S3; by rewrite app_assoc.
Qed.

(** What the reconciler decides for the whole job. *)
Record reconciled (res : reconcileResults) (kept renewed : list Allocation) : Prop := {
  rc_parts : allocs ≡ₚ (as_alloc <$> rr_stop res) ++ kept;
  rc_updates : Forall2 (fun x o => okR x (false, false, o)) renewed (rr_inplaceUpdate res);
  rc_renewed : renewed ⊆+ kept;
  rc_lost : ∀ x, x ∈ allocs → taintOf nodes x = Lost → mkAllocStopResult x AllocClientStatusLost allocLost ∈ rr_stop res;
  rc_present : ∀ x, x ∈ kept → is_Some (LookupTaskGroup job (al_TaskGroup x));
  rc_place : ∀ p, p ∈ rr_place res → LookupTaskGroup job (tg_Name (ap_taskGroup p)) = Some (ap_taskGroup p) ∧ ap_canary p = false ∧
    ∀ prev, ap_previousAlloc p = Some prev → prev ∈ allocs ∧ taintOf nodes prev ≠ Lost;
  rc_count : ∀ tg, LookupTaskGroup job (tg_Name tg) = Some tg →
    let k := filter (fun x => al_TaskGroup x = tg_Name tg) kept in
    let ps := filter (fun p => tg_Name (ap_taskGroup p) = tg_Name tg) (rr_place res) in
    Z.of_nat (length k + length ps) = tg_Count tg ∧ NoDup ((al_Name <$> k) ++ (ap_name <$> ps))
}.

Section outcomes.
Context (m : list (string * allocSet)) (rs : list groupResult).
Context (groups : ∀ gs, gs ∈ m → isGroup gs.1 gs.2) (outs : Forall2 (fun gs r => outcome gs.1 gs.2 r) m rs).

Lemma outcome_of r : r ∈ rs → ∃ g all, (g, all) ∈ m ∧ outcome g all r.
Proof.
  intros [i Hi]%list_elem_of_lookup. destruct (Forall2_lookup_r _ _ _ i r outs Hi) as ([g all] & Hm & Ho).
  exists g, all. split; [by eapply list_elem_of_lookup_2|done].
Qed.

Lemma outcomes_parts :
  concat ((fun gs => vals gs.2) <$> m) ≡ₚ (as_alloc <$> concat (gr_stop <$> rs)) ++ concat (gr_kept <$> rs).
Proof.
  clear groups. induction outs as [|[g all] r m' rs' Ho Hos IH]; [done|]. simpl. rewrite IH by done.
  rewrite (oc_parts _ _ _ Ho), fmap_app. solve_Permutation.
Qed.

Lemma outcomes_renewed :
  Forall2 (fun x o => okR x (false, false, o)) (concat (gr_renewed <$> rs)) (concat (gr_update <$> rs)) ∧
  concat (gr_renewed <$> rs) ⊆+ concat (gr_kept <$> rs).
Proof.
  clear groups. induction outs as [|[g all] r m' rs' Ho Hos IH]; [split; [constructor|done]|]. simpl.
  destruct (IH Hos) as [I1 I2]. split; [apply Forall2_app; [apply Ho|done]|]. apply submseteq_app; [apply Ho|done].
Qed.

Lemma kept_group r g all x : (g, all) ∈ m → outcome g all r → x ∈ gr_kept r → x ∈ allocs ∧ al_TaskGroup x = g.
Proof.
  intros Hm Ho Hx. apply groups in Hm as [_ Hall]. simpl in Hall.
  assert (x ∈ vals all) as Hv by (rewrite (oc_parts _ _ _ Ho); solve_in). rewrite Hall in Hv.
  by apply list_elem_of_filter in Hv as [? ?].
Qed.

Lemma place_group r g all p : outcome g all r → p ∈ gr_place r → LookupTaskGroup job g = Some (ap_taskGroup p).
Proof.
  intros Ho Hp. pose proof (oc_group _ _ _ Ho) as Hg. destruct (LookupTaskGroup job g) as [tg|].
  - destruct Hg as (_ & _ & Hps). by destruct (Hps p Hp) as [-> _].
  - destruct Hg as [_ E]. rewrite E in Hp. by apply elem_of_nil in Hp.
Qed.

Lemma by_group {A} (part : groupResult → list A) (key : A → string) :
  (∀ g all r x, (g, all) ∈ m → outcome g all r → x ∈ part r → key x = g) →
  Forall2 (fun gs l => ∀ x, x ∈ l → key x = gs.1) m (part <$> rs).
Proof.
  intros Hkey. apply Forall2_fmap_r. apply Forall2_same_length_lookup_2; [by eapply Forall2_length|].
  intros i [g all] r Hg Hr x Hx. pose proof (Forall2_lookup_lr _ _ _ i _ _ outs Hg Hr) as Ho.
  by apply (Hkey g all r x); [eapply list_elem_of_lookup_2|..].
Qed.

Lemma outcomes_reconciled res :
  NoDup m.*1 → (∀ tg, LookupTaskGroup job (tg_Name tg) = Some tg → tg_Name tg ∈ m.*1) →
  allocs ≡ₚ concat ((fun gs => vals gs.2) <$> m) →
  rr_stop res = concat (gr_stop <$> rs) → rr_place res = concat (gr_place <$> rs) →
  rr_inplaceUpdate res = concat (gr_update <$> rs) →
  reconciled res (concat (gr_kept <$> rs)) (concat (gr_renewed <$> rs)).
Proof.
  intros Hnd Hdom Hall E1 E2 E3. pose proof outcomes_parts as Hparts. destruct outcomes_renewed as [Hren Hsub].
  split; rewrite ?E1, ?E2, ?E3; [by rewrite Hall|done|done|..].
  - intros x Hx Ht. rewrite Hall in Hx. apply list_elem_of_In, in_concat in Hx as (l & Hl & Hx).
    apply list_elem_of_In, list_elem_of_fmap in Hl as ([g all] & -> & Hin). apply list_elem_of_lookup in Hin as [i Hi].
    destruct (Forall2_lookup_l _ _ _ i _ outs Hi) as (r & Hr & Ho).
    apply list_elem_of_In, in_concat. exists (gr_stop r). split.
    + apply list_elem_of_In, list_elem_of_fmap_2. by eapply list_elem_of_lookup_2.
    + apply list_elem_of_In, (oc_lost _ _ _ Ho); [by apply list_elem_of_In|done].
  - intros x (l & Hl & Hx)%list_elem_of_In%in_concat. apply list_elem_of_In, list_elem_of_fmap in Hl as (r & -> & Hr).
    apply list_elem_of_In in Hx. destruct (outcome_of r Hr) as (g & all & Hm & Ho).
    destruct (kept_group r g all x Hm Ho Hx) as [_ ->]. pose proof (oc_group _ _ _ Ho) as Hg.
    destruct (LookupTaskGroup job g); [by eexists|]. destruct Hg as [E _]. rewrite E in Hx. by apply elem_of_nil in Hx.
  - intros p (l & Hl & Hp)%list_elem_of_In%in_concat. apply list_elem_of_In, list_elem_of_fmap in Hl as (r & -> & Hr).
    apply list_elem_of_In in Hp. destruct (outcome_of r Hr) as (g & all & Hm & Ho).
    pose proof (place_group r g all p Ho Hp) as Hlk. pose proof (oc_group _ _ _ Ho) as Hg. rewrite Hlk in Hg.
    destruct Hg as (_ & _ & Hps). destruct (Hps p Hp) as (_ & Hc & Hprev).
    split; [by rewrite (proj2 (LookupTaskGroup_Some _ _ _ Hlk))|]. split; [done|]. intros prev Ep.
    destruct (Hprev prev Ep) as [Hst Ht]. split; [|done]. apply groups in Hm as [_ Hv]. simpl in Hv.
    assert (prev ∈ vals all) as Hin by (rewrite (oc_parts _ _ _ Ho); solve_in). rewrite Hv in Hin.
    by apply list_elem_of_filter in Hin as [_ ?].
  - intros tg Hlk. apply Hdom in Hlk as Hin. apply list_elem_of_fmap in Hin as ([g all] & Eg & Hin). simpl in Eg. subst g.
    apply list_elem_of_lookup in Hin as [i Hi]. destruct (Forall2_lookup_l _ _ _ i _ outs Hi) as (r & Hr & Ho). simpl in Ho.
    rewrite (filter_concat_one al_TaskGroup (tg_Name tg) m _ i all (gr_kept r) Hnd),
      (filter_concat_one (fun p => tg_Name (ap_taskGroup p)) (tg_Name tg) m _ i all (gr_place r) Hnd);
      [|apply by_group|done|by rewrite list_lookup_fmap, Hr|apply by_group|done|by rewrite list_lookup_fmap, Hr].
    + pose proof (oc_group _ _ _ Ho) as Hg. rewrite Hlk in Hg. by destruct Hg as (? & ? & _).
    + intros g all' r' p Hm Ho' Hp. by apply (place_group r' g all' p Ho'), LookupTaskGroup_Some in Hp as [_ ?].
    + intros g all' r' x Hm Ho' Hx. by destruct (kept_group r' g all' x Hm Ho' Hx).
Qed.
End outcomes.

Lemma cancelDeployments_staged a :
  Stopped (ar_job a) = false → ar_jobID a = jobID → ar_taintedNodes a = nodes → ar_deployment a = deployment →
  ar_oldDeployment a = None → ar_deploymentPaused a = false → ar_deploymentFailed a = false → okU (ar_updater a) →
  let a' := cancelDeployments a in
  staged a' ∧ ar_job a' = ar_job a ∧ stops_of a' = stops_of a ∧ places_of a' = places_of a ∧
  rr_inplaceUpdate (ar_result a') = rr_inplaceUpdate (ar_result a).
Proof.
  intros Hst H1 H2 H3 H4 H5 H6 H7. unfold cancelDeployments. rewrite Hst.
  destruct (ar_deployment a) as [d|] eqn:Ed; [|split; [split; auto|done]].
  destruct (ar_job a) as [j|] eqn:Ej; [|split; [split; auto; rewrite Ed; auto|done]].
  destruct (_ || _), (Active d), (bool_decide (d_Status d = DeploymentStatusSuccessful)); simpl;
    (split; [split; simpl; rewrite ?Ed; auto|done]).
Qed.

(** The groups of the matrix. *)
Lemma matrix_groups :
  let m := order (newAllocMatrix (Some job) allocs) in
  NoDup m.*1 ∧ (∀ gs, gs ∈ m → isGroup gs.1 gs.2) ∧ allocs ≡ₚ concat ((fun gs => vals gs.2) <$> m) ∧
  ∀ tg, LookupTaskGroup job (tg_Name tg) = Some tg → tg_Name tg ∈ m.*1.
Proof.
  intros m. destruct (newAllocMatrix_ok (Some job) allocs (ao_ids _ _ _ allocs_good)) as (l & Hl & Hm).
  assert (m ≡ₚ map_to_list (newAllocMatrix (Some job) allocs)) as Hp by apply order_perm. split_and!.
  - rewrite Hp. apply NoDup_fst_map_to_list.
  - intros [g s] Hin. rewrite Hp in Hin. apply elem_of_map_to_list in Hin. split; [by eapply Hm|]. simpl.
    rewrite <- Hl. eapply matrix_group; [rewrite Hl; apply allocs_good|done..].
  - rewrite <- Hl, <- (proj2 Hm). unfold flat. rewrite Hp.
    change (vals (vals <$> ?m)) with ((map_to_list (vals <$> m)).*2). by rewrite map_to_list_fmap, <- !list_fmap_compose.
  - intros tg [Htg _]%LookupTaskGroup_Some. rewrite Hp.
    destruct (addGroups_dom (jb_TaskGroups job) (foldl addToMatrix ∅ allocs) (tg_Name tg)) as [s Hs];
      [right; by apply list_elem_of_fmap_2|].
    apply list_elem_of_fmap. exists (tg_Name tg, s). split; [done|]. by apply elem_of_map_to_list.
Qed.

Lemma Compute_job u batch :
  okU u → Stopped (Some job) = false →
  ∃ res u' kept renewed,
    Compute_ range allocUpdateFn uuid order (NewAllocReconciler u batch jobID (Some job) deployment allocs nodes) = Some (res, u') ∧
    okU u' ∧ reconciled res kept renewed.
Proof.
  intros Hu Hst. unfold Compute_. cbv zeta. set (a0 := NewAllocReconciler u batch jobID (Some job) deployment allocs nodes).
  destruct (cancelDeployments_staged a0) as (Ha & Ej & S1 & S2 & S3); [done..|]. set (a1 := cancelDeployments a0) in *.
  rewrite Ej. change (ar_job a0) with (Some job). rewrite Hst.
  set (a2 := match ar_deployment a1 with Some _ => _ | None => _ end).
  assert (staged a2 ∧ ar_result a2 = ar_result a1) as [Ha2 Er].
  { unfold a2. destruct (ar_deployment a1) as [d|] eqn:Ed; [|done]. split; [|done].
    assert (d_Status d ≠ DeploymentStatusPaused ∧ d_Status d ≠ DeploymentStatusFailed) as [N1 N2].
    { destruct (sg_deployment a1 Ha) as [E|[E|(g & ds & E & _)]]; [congruence| |].
      - apply (sd_running _ _ _ steady_job). congruence.
      - rewrite Ed in E. injection E as ->. done. }
    destruct Ha. split; simpl; rewrite ?bool_decide_eq_false_2 by done; rewrite ?Ed; auto. by rewrite <- Ed. }
  destruct matrix_groups as (M1 & M2 & M3 & M4). set (m := order _) in *.
  destruct (computeGroups_job m a2 true Ha2 M2) as (a' & c & rs & E & Ha' & Hrs & T1 & T2 & T3).
  change (ar_job a0) with (Some job) in *. change (ar_existingAllocs a0) with allocs. fold m. rewrite E. cbn [mbind option_bind].
  rewrite Er in T1, T2, T3. rewrite S1 in T1. rewrite S2 in T2. rewrite S3 in T3. simpl in T1, T2, T3.
  eexists _, _, (concat (gr_kept <$> rs)), (concat (gr_renewed <$> rs)). split; [reflexivity|].
  set (a3 := match ar_deployment a' with Some _ => _ | None => _ end).
  assert (ar_updater a3 = ar_updater a' ∧ stops_of a3 = stops_of a' ∧ places_of a3 = places_of a' ∧
    rr_inplaceUpdate (ar_result a3) = rr_inplaceUpdate (ar_result a')) as (E0 & E1 & E2 & E3)
    by (unfold a3; destruct (ar_deployment a'), c; done).
  split; [rewrite E0; apply Ha'|].
  apply (outcomes_reconciled m rs M2 Hrs _ M1 M4 M3); destruct (rr_deployment (ar_result a3)) as [d|];
    try destruct (RequiresPromotion (Some d)); simpl; congruence.
Qed.
End job.
