(* ===== verification/SchedContext.v ===== *)
(** * The context of an evaluation (src/scheduler/context.go, src/nomad/structs/node_class.go)

    Computed node classes and the constraints that escape them, the metrics of a
    placement, the eligibility of classes, and the allocations proposed for a node. *)

From stdpp Require Import base gmap strings list pretty.
From Stdlib Require Import ZArith Lia.
From S2P Require Import Prelude GoText Structs Resources Jobs Allocs Fit Plans.
Open Scope string_scope.
Open Scope list_scope.
Open Scope Z_scope.

(** ** Computed node classes *)

Definition NodeUniqueNamespace : string := "unique.".
Definition UniqueNamespace (key : string) : string := NodeUniqueNamespace +:+ key.
Definition IsUniqueNamespace (key : string) : bool := HasPrefix key NodeUniqueNamespace.

Definition HashInclude (field : string) : bool :=
  bool_decide (field ∈ ["Datacenter"; "Attributes"; "Meta"; "NodeClass"]).

(** [None] is the error on an unexpected field. *)
Definition HashIncludeMap (field key : string) : option bool :=
  if bool_decide (field = "Meta") || bool_decide (field = "Attributes") then Some (negb (IsUniqueNamespace key))
  else None.

(** What of a node the hash sees: the included fields and entries. *)
Definition includedMap (field : string) (m : gmap string string) : gmap string string :=
  filter (fun kv => HashIncludeMap field kv.1 = Some true) m.

Definition hashInput (n : Node) : string * gmap string string * gmap string string * string :=
  (nd_Datacenter n, includedMap "Attributes" (nd_Attributes n), includedMap "Meta" (nd_Meta n), nd_NodeClass n).

(** [Hash] is hashstructure's hash of what is included. *)
Definition ComputeClass (Hash : string * gmap string string * gmap string string * string → string + Z) (n : Node)
    : string + Node :=
  match Hash (hashInput n) with
  | inl err => inl err
  | inr hash => inr (n <| nd_ComputedClass := "v1:" +:+ pretty hash |>)
  end.

Definition constraintTargetEscapes (target : string) : bool :=
  HasPrefix target "${node.unique." || HasPrefix target "${attr.unique." || HasPrefix target "${meta.unique.".

Definition EscapedConstraints (constraints : list Constraint) : list Constraint :=
  filter (fun c => constraintTargetEscapes (c_LTarget c) || constraintTargetEscapes (c_RTarget c) = true) constraints.

(** ** Metrics *)

(** [m[k] += 1]. *)
Definition countKey (k : string) (m : gmap string Z) : gmap string Z := <[k := default 0 (m !! k) + 1]> m.

Definition EvaluateNode (a : AllocMetric) : AllocMetric := a <| am_NodesEvaluated ::= Z.add 1 |>.

Definition FilterNode (a : AllocMetric) (node : Node) (constraint : string) : AllocMetric :=
  let a := a <| am_NodesFiltered ::= Z.add 1 |> in
  let a := if bool_decide (nd_NodeClass node = "") then a else a <| am_ClassFiltered ::= countKey (nd_NodeClass node) |> in
  if bool_decide (constraint = "") then a else a <| am_ConstraintFiltered ::= countKey constraint |>.

Definition ExhaustedNode (a : AllocMetric) (node : Node) (dimension : string) : AllocMetric :=
  let a := a <| am_NodesExhausted ::= Z.add 1 |> in
  let a := if bool_decide (nd_NodeClass node = "") then a else a <| am_ClassExhausted ::= countKey (nd_NodeClass node) |> in
  if bool_decide (dimension = "") then a else a <| am_DimensionExhausted ::= countKey dimension |>.

Definition ScoreNode (a : AllocMetric) (node : Node) (name : string) (score : float64) : AllocMetric :=
  a <| am_Scores ::= <[nd_ID node +:+ "." +:+ name := score]> |>.

(** ** Eligibility *)

Inductive ComputedClassFeasibility :=
  | EvalComputedClassUnknown
  | EvalComputedClassIneligible
  | EvalComputedClassEligible
  | EvalComputedClassEscaped.

Record EvalEligibility := mkEvalEligibility {
  el_job : gmap string ComputedClassFeasibility;
  el_jobEscaped : bool;
  el_taskGroups : gmap string (gmap string ComputedClassFeasibility);
  el_tgEscapedConstraints : gmap string bool
}.
#[export] Instance eta_EvalEligibility : Eta EvalEligibility := fun r =>
  mkEvalEligibility (el_job r) (el_jobEscaped r) (el_taskGroups r) (el_tgEscapedConstraints r).

Definition NewEvalEligibility : EvalEligibility := mkEvalEligibility ∅ false ∅ ∅.

(** The constraints of a group and of its tasks. *)
Definition allConstraints (tg : TaskGroup) : list Constraint :=
  tg_Constraints tg ++ (tg_Tasks tg ≫= tk_Constraints).

Definition escapes (constraints : list Constraint) : bool := negb (length (EscapedConstraints constraints) =? 0)%nat.

Definition ElSetJob (e : EvalEligibility) (job : Job) : EvalEligibility :=
  e <| el_jobEscaped := escapes (jb_Constraints job) |>
    <| el_tgEscapedConstraints ::= fun m =>
         foldl (fun m tg => <[tg_Name tg := escapes (allConstraints tg)]> m) m (jb_TaskGroups job) |>.

Definition HasEscaped (e : EvalEligibility) : bool :=
  el_jobEscaped e || existsb id (vals (el_tgEscapedConstraints e)).

(** A class of the job, and one of a group, in [GetClasses]. *)
Definition addJobClass (elig : gmap string bool) (cf : string * ComputedClassFeasibility) : gmap string bool :=
  match cf.2 with
  | EvalComputedClassEligible => <[cf.1 := true]> elig
  | EvalComputedClassIneligible => <[cf.1 := false]> elig
  | _ => elig
  end.
Definition addGroupClass (elig : gmap string bool) (cf : string * ComputedClassFeasibility) : gmap string bool :=
  match cf.2 with
  | EvalComputedClassEligible => <[cf.1 := true]> elig
  | EvalComputedClassIneligible => match elig !! cf.1 with Some _ => elig | None => <[cf.1 := false]> elig end
  | _ => elig
  end.

Definition GetClasses (e : EvalEligibility) : gmap string bool :=
  let elig := foldl addJobClass ∅ (map_to_list (el_job e)) in
  foldl (fun elig classes => foldl addGroupClass elig (map_to_list classes)) elig (vals (el_taskGroups e)).

Definition JobStatus (e : EvalEligibility) (class : string) : ComputedClassFeasibility :=
  if el_jobEscaped e || bool_decide (class = "") then EvalComputedClassEscaped
  else default EvalComputedClassUnknown (el_job e !! class).

Definition classOf (eligible : bool) : ComputedClassFeasibility :=
  if eligible then EvalComputedClassEligible else EvalComputedClassIneligible.

Definition SetJobEligibility (e : EvalEligibility) (eligible : bool) (class : string) : EvalEligibility :=
  e <| el_job ::= <[class := classOf eligible]> |>.

Definition TaskGroupStatus (e : EvalEligibility) (tg class : string) : ComputedClassFeasibility :=
  if bool_decide (class = "") then EvalComputedClassEscaped
  else if default false (el_tgEscapedConstraints e !! tg) then EvalComputedClassEscaped
  else default EvalComputedClassUnknown (el_taskGroups e !! tg ≫= fun classes => classes !! class).

Definition SetTaskGroupEligibility (e : EvalEligibility) (eligible : bool) (tg class : string) : EvalEligibility :=
  e <| el_taskGroups ::= fun m => <[tg := <[class := classOf eligible]> (default ∅ (m !! tg))]> m |>.

(** ** The context *)

(** The queries of the state; [inl] is the error of the lookup. *)
Record SchedState := mkSchedState {
  sc_Nodes : string + list Node;
  sc_NodeByID : string → string + option Node;
  sc_JobByID : string → string + option Job;
  sc_AllocsByNodeTerminal : string → bool → string + list Allocation;
  sc_AllocsByJob : string → bool → string + list Allocation;
  sc_LatestDeploymentByJobID : string → string + option Deployment
}.

(** Regular expressions, and go-version's versions and constraints: compiling a
    regular expression or parsing a version can fail. *)
Class TextLibs := {
  Regexp : Type;
  Version : Type;
  VersionConstraints : Type;
  Compile : string → option Regexp;
  MatchString : Regexp → string → bool;
  NewVersion : string → option Version;
  NewConstraint : string → option VersionConstraints;
  CheckVersion : VersionConstraints → Version → bool
}.

Record EvalContext `{TextLibs} := mkEvalContext {
  ec_reCache : gmap string Regexp;
  ec_constraintCache : gmap string VersionConstraints;
  ec_state : SchedState;
  ec_plan : Plan;
  ec_metrics : AllocMetric;
  ec_eligibility : EvalEligibility
}.

Section context.
Context `{TextLibs}.

#[export] Instance eta_EvalContext : Eta EvalContext := fun r =>
  mkEvalContext _ (ec_reCache r) (ec_constraintCache r) (ec_state r) (ec_plan r) (ec_metrics r) (ec_eligibility r).

(** The eligibility, which the code creates on the first use, starts out empty. *)
Definition NewEvalContext (s : SchedState) (p : Plan) : EvalContext :=
  mkEvalContext _ ∅ ∅ s p newAllocMetric NewEvalEligibility.

Definition ContextReset (e : EvalContext) : EvalContext := e <| ec_metrics := newAllocMetric |>.

(** The order in which Go ranges over the map of the proposed allocations. *)
Variable range : gmap string Allocation → list Allocation.

Definition ProposedAllocs (e : EvalContext) (nodeID : string) : string + list Allocation :=
  match sc_AllocsByNodeTerminal (ec_state e) nodeID false with
  | inl err => inl err
  | inr existingAlloc =>
      let update := default [] (pl_NodeUpdate (ec_plan e) !! nodeID) in
      let proposed := if (0 <? length update)%nat then RemoveAllocs existingAlloc update else existingAlloc in
      let proposedIDs := foldl (fun m alloc => <[al_ID alloc := alloc]> m) ∅ proposed in
      let proposedIDs :=
        foldl (fun m alloc => <[al_ID alloc := alloc]> m) proposedIDs
          (default [] (pl_NodeAllocation (ec_plan e) !! nodeID)) in
      inr (range proposedIDs)
  end.
End context.
