(* ===== verification/Feasible.v ===== *)
(** * Feasibility of nodes (src/scheduler/feasible.go)

    Constraints and drivers, the wrapper that remembers verdicts by computed class,
    and the iterators over distinct hosts and distinct properties.

    An iterator's [Next] is a function on the state of the whole stack (Stack.v);
    here are the parts of it that only look at one node, as functions of the context. *)

From stdpp Require Import base gmap strings list.
From Stdlib Require Import ZArith Lia Ascii.
From S2P Require Import Prelude GoText Structs Resources Jobs Allocs Fit Plans SchedContext.
Open Scope string_scope.
Open Scope list_scope.
Open Scope Z_scope.

Definition ConstraintDistinctProperty : string := "distinct_property".
Definition ConstraintDistinctHosts : string := "distinct_hosts".
Definition ConstraintRegex : string := "regexp".
Definition ConstraintVersion : string := "version".
Definition ConstraintSetContains : string := "set_contains".

(** The values an [interface{}] of this file can hold. *)
Inductive value := VString (s : string) | VInt (z : Z).
#[export] Instance value_eq : EqDecision value.
Proof. solve_decision. Defined.

(** [Constraint.String]. *)
Definition ConstraintString (c : Constraint) : string :=
  c_LTarget c +:+ " " +:+ c_Operand c +:+ " " +:+ c_RTarget c.

(** [None] when the target cannot be resolved. *)
Definition resolveConstraintTarget (target : string) (node : Node) : option value :=
  if negb (HasPrefix target "${") then Some (VString target)
  else if bool_decide (target = "${node.unique.id}") then Some (VString (nd_ID node))
  else if bool_decide (target = "${node.datacenter}") then Some (VString (nd_Datacenter node))
  else if bool_decide (target = "${node.unique.name}") then Some (VString (nd_Name node))
  else if bool_decide (target = "${node.class}") then Some (VString (nd_NodeClass node))
  else if HasPrefix target "${attr." then
    VString <$> nd_Attributes node !! TrimSuffix (TrimPrefix target "${attr.") "}"
  else if HasPrefix target "${meta." then
    VString <$> nd_Meta node !! TrimSuffix (TrimPrefix target "${meta.") "}"
  else None.

Definition checkLexicalOrder (op : string) (lVal rVal : value) : bool :=
  match lVal, rVal with
  | VString l, VString r =>
      if bool_decide (op = "<") then str_lt l r
      else if bool_decide (op = "<=") then str_le l r
      else if bool_decide (op = ">") then str_lt r l
      else if bool_decide (op = ">=") then str_le r l
      else false
  | _, _ => false
  end.

Definition cleaned (s : string) : list string := TrimSpace <$> Split s ",".

Definition checkSetContainsConstraint (lVal rVal : value) : bool :=
  match lVal, rVal with
  | VString l, VString r => forallb (fun x => bool_decide (x ∈ cleaned l)) (cleaned r)
  | _, _ => false
  end.

(** [fmt.Sprintf] of an int. *)
Definition formatInt (z : Z) : string := if z <? 0 then "-" +:+ itoa (- z) else itoa z.

Section checks.
Context `{TextLibs}.

Definition checkVersionConstraint (ctx : EvalContext) (lVal rVal : value) : bool * EvalContext :=
  let versionStr := match lVal with VString s => s | VInt z => formatInt z end in
  match NewVersion versionStr with
  | None => (false, ctx)
  | Some vers =>
      match rVal with
      | VInt _ => (false, ctx)
      | VString constraintStr =>
          match ec_constraintCache ctx !! constraintStr with
          | Some constraints => (CheckVersion constraints vers, ctx)
          | None =>
              match NewConstraint constraintStr with
              | None => (false, ctx)
              | Some constraints =>
                  (CheckVersion constraints vers,
                   ctx <| ec_constraintCache ::= <[constraintStr := constraints]> |>)
              end
          end
      end
  end.

Definition checkRegexpConstraint (ctx : EvalContext) (lVal rVal : value) : bool * EvalContext :=
  match lVal, rVal with
  | VString lStr, VString regexpStr =>
      match ec_reCache ctx !! regexpStr with
      | Some re => (MatchString re lStr, ctx)
      | None =>
          match Compile regexpStr with
          | None => (false, ctx)
          | Some re => (MatchString re lStr, ctx <| ec_reCache ::= <[regexpStr := re]> |>)
          end
      end
  | _, _ => (false, ctx)
  end.

Definition checkConstraint (ctx : EvalContext) (operand : string) (lVal rVal : value) : bool * EvalContext :=
  if bool_decide (operand ∈ [ConstraintDistinctHosts; ConstraintDistinctProperty]) then (true, ctx)
  else if bool_decide (operand ∈ ["="; "=="; "is"]) then (bool_decide (lVal = rVal), ctx)
  else if bool_decide (operand ∈ ["!="; "not"]) then (negb (bool_decide (lVal = rVal)), ctx)
  else if bool_decide (operand ∈ ["<"; "<="; ">"; ">="]) then (checkLexicalOrder operand lVal rVal, ctx)
  else if bool_decide (operand = ConstraintVersion) then checkVersionConstraint ctx lVal rVal
  else if bool_decide (operand = ConstraintRegex) then checkRegexpConstraint ctx lVal rVal
  else if bool_decide (operand = ConstraintSetContains) then (checkSetContainsConstraint lVal rVal, ctx)
  else (false, ctx).

Definition meetsConstraint (ctx : EvalContext) (constraint : Constraint) (option : Node) : bool * EvalContext :=
  match resolveConstraintTarget (c_LTarget constraint) option,
        resolveConstraintTarget (c_RTarget constraint) option with
  | Some lVal, Some rVal => checkConstraint ctx (c_Operand constraint) lVal rVal
  | _, _ => (false, ctx)
  end.

(** [ConstraintChecker.Feasible]. *)
Fixpoint ConstraintFeasible (ctx : EvalContext) (constraints : list Constraint) (option : Node) : bool * EvalContext :=
  match constraints with
  | [] => (true, ctx)
  | constraint :: constraints =>
      let '(ok, ctx) := meetsConstraint ctx constraint option in
      if ok then ConstraintFeasible ctx constraints option
      else (false, ctx <| ec_metrics ::= fun m => FilterNode m option (ConstraintString constraint) |>)
  end.

(** A driver is a node attribute that says it is enabled. *)
Definition hasDriver (option : Node) (driver : string) : bool :=
  match nd_Attributes option !! ("driver." +:+ driver) with
  | None => false
  | Some value => default false (ParseBool value)
  end.

(** [DriverChecker.Feasible]; the answer does not depend on the order in which
    [hasDrivers] ranges over the set. *)
Definition hasDrivers (drivers : gset string) (option : Node) : bool := forallb (hasDriver option) (elements drivers).

Definition DriverFeasible (ctx : EvalContext) (drivers : gset string) (option : Node) : bool * EvalContext :=
  if hasDrivers drivers option then (true, ctx)
  else (false, ctx <| ec_metrics ::= fun m => FilterNode m option "missing drivers" |>).

(** ** The specification of a constraint *)

(** What a constraint says of a node, without the caches. *)
Definition holdsConstraint (operand : string) (lVal rVal : value) : bool :=
  if bool_decide (operand ∈ [ConstraintDistinctHosts; ConstraintDistinctProperty]) then true
  else if bool_decide (operand ∈ ["="; "=="; "is"]) then bool_decide (lVal = rVal)
  else if bool_decide (operand ∈ ["!="; "not"]) then negb (bool_decide (lVal = rVal))
  else if bool_decide (operand ∈ ["<"; "<="; ">"; ">="]) then checkLexicalOrder operand lVal rVal
  else if bool_decide (operand = ConstraintVersion) then
    match NewVersion (match lVal with VString s => s | VInt z => formatInt z end), rVal with
    | Some v, VString r => from_option (fun c => CheckVersion c v) false (NewConstraint r)
    | _, _ => false
    end
  else if bool_decide (operand = ConstraintRegex) then
    match lVal, rVal with
    | VString l, VString r => from_option (fun re => MatchString re l) false (Compile r)
    | _, _ => false
    end
  else if bool_decide (operand = ConstraintSetContains) then checkSetContainsConstraint lVal rVal
  else false.

Definition satisfies (node : Node) (c : Constraint) : bool :=
  match resolveConstraintTarget (c_LTarget c) node, resolveConstraintTarget (c_RTarget c) node with
  | Some l, Some r => holdsConstraint (c_Operand c) l r
  | _, _ => false
  end.

(** The caches hold what parsing gives. *)
Definition caches_ok (ctx : EvalContext) : Prop :=
  (∀ s re, ec_reCache ctx !! s = Some re → Compile s = Some re) ∧
  (∀ s c, ec_constraintCache ctx !! s = Some c → NewConstraint s = Some c).

(** Only the caches and the metrics differ. *)
Definition same_eval (ctx ctx' : EvalContext) : Prop :=
  ec_state ctx' = ec_state ctx ∧ ec_plan ctx' = ec_plan ctx ∧ ec_eligibility ctx' = ec_eligibility ctx.

Lemma same_eval_refl ctx : same_eval ctx ctx.
Proof. done. Qed.
Lemma same_eval_trans a b c : same_eval a b → same_eval b c → same_eval a c.
Proof. unfold same_eval. intuition congruence. Qed.

Lemma checkConstraint_spec ctx operand l r :
  caches_ok ctx →
  (checkConstraint ctx operand l r).1 = holdsConstraint operand l r ∧
  caches_ok (checkConstraint ctx operand l r).2 ∧ same_eval ctx (checkConstraint ctx operand l r).2.
Proof.
  intros [Hre Hc]. unfold checkConstraint, holdsConstraint. repeat (case_bool_decide; [done|]).
  case_bool_decide.
  - unfold checkVersionConstraint. destruct (NewVersion _); [|done]. destruct r as [s|]; [|done].
    destruct (ec_constraintCache ctx !! s) as [c|] eqn:E; [by rewrite (Hc s c E)|].
    destruct (NewConstraint s) as [c|] eqn:E'; [|done]. split_and!; try done. split; [done|]. simpl.
    intros s' c' [[<- <-]|[_ ?]]%lookup_insert_Some; eauto.
  - case_bool_decide; [|case_bool_decide; done].
    unfold checkRegexpConstraint. destruct l as [l|], r as [s|]; try done.
    destruct (ec_reCache ctx !! s) as [c|] eqn:E; [by rewrite (Hre s c E)|].
    destruct (Compile s) as [c|] eqn:E'; [|done]. split_and!; try done. split; [|done]. simpl.
    intros s' c' [[<- <-]|[_ ?]]%lookup_insert_Some; eauto.
Qed.

Lemma ConstraintFeasible_spec node cs : ∀ ctx,
  caches_ok ctx →
  (ConstraintFeasible ctx cs node).1 = forallb (satisfies node) cs ∧
  caches_ok (ConstraintFeasible ctx cs node).2 ∧ same_eval ctx (ConstraintFeasible ctx cs node).2.
Proof.
  induction cs as [|c cs IH]; intros ctx Hctx; [done|]. cbn [ConstraintFeasible forallb].
  assert ((meetsConstraint ctx c node).1 = satisfies node c ∧ caches_ok (meetsConstraint ctx c node).2 ∧
    same_eval ctx (meetsConstraint ctx c node).2) as (H1 & H2 & H3).
  { unfold meetsConstraint, satisfies. destruct (resolveConstraintTarget _ _); [|done].
    destruct (resolveConstraintTarget _ _); [|done]. by apply checkConstraint_spec. }
  destruct (meetsConstraint ctx c node) as [ok ctx1]. simpl in *. rewrite <- H1. destruct ok; simpl; [|done].
  destruct (IH ctx1 H2) as (J1 & J2 & J3). split_and!; [done..|]. by eapply same_eval_trans.
Qed.

Lemma DriverFeasible_spec ctx drivers node :
  caches_ok ctx →
  (DriverFeasible ctx drivers node).1 = hasDrivers drivers node ∧
  caches_ok (DriverFeasible ctx drivers node).2 ∧ same_eval ctx (DriverFeasible ctx drivers node).2.
Proof. intros Hc. unfold DriverFeasible. by destruct (hasDrivers drivers node). Qed.
End checks.

(** * Computed classes decide feasibility

    Two nodes with the same computed class satisfy the same constraints, unless a
    constraint escapes the classes. *)

(** ** Prefixes *)

Lemma HasPrefix_iff s p : HasPrefix s p = true ↔ ∃ r, s = p +:+ r.
Proof.
  unfold HasPrefix. revert s. induction p as [|c p IH]; intros s; [split; [by exists s|by destruct s]|].
  destruct s as [|c' s]; [split; [done|by intros [? ?]]|]. cbn [String.prefix]. destruct (ascii_dec c c') as [<-|Hne].
  - rewrite IH. split; intros [r E]; exists r; [by rewrite E|by injection E].
  - split; [done|]. intros [r [= E _]]. by destruct Hne.
Qed.

Lemma substring_all s : String.substring 0 (String.length s) s = s.
Proof. induction s as [|c s IH]; [done|]. simpl. by f_equal. Qed.

Lemma TrimPrefix_app p r : TrimPrefix (p +:+ r) p = r.
Proof.
  unfold TrimPrefix. rewrite (proj2 (HasPrefix_iff _ p)) by (by exists r).
  induction p as [|c p IH]; simpl; [rewrite Nat.sub_0_r; apply substring_all|apply IH].
Qed.

Lemma substring_prefix_of s n : ∃ r, s = String.substring 0 n s +:+ r.
Proof.
  revert n. induction s as [|c s IH]; intros [|n]; simpl; try (by eexists). destruct (IH n) as [r E]. exists r.
  change (String c s = String c (String.substring 0 n s +:+ r)). by rewrite <- E.
Qed.

Lemma string_app_nil s : s +:+ "" = s.
Proof. induction s as [|c s IH]; [done|]. change (String c (s +:+ "") = String c s). by rewrite IH. Qed.

Lemma TrimSuffix_prefix s x : ∃ r, s = TrimSuffix s x +:+ r.
Proof.
  unfold TrimSuffix. destruct (HasSuffix s x); [apply substring_prefix_of|]. exists "". by rewrite string_app_nil.
Qed.

(** ** The entries that the class covers *)

Lemma included_lookup field m key :
  field = "Attributes" ∨ field = "Meta" → IsUniqueNamespace key = false → includedMap field m !! key = m !! key.
Proof.
  intros Hf Hk. unfold includedMap. rewrite map_lookup_filter. destruct (m !! key) as [v|]; [|done]. simpl.
  case_guard as Hn; [done|]. exfalso. apply Hn. unfold HashIncludeMap. rewrite Hk.
  destruct Hf as [-> | ->]; done.
Qed.

(** The key of a target that does not escape is not unique. *)
Lemma target_key_common target prefix :
  HasPrefix target prefix = true → HasPrefix target (prefix +:+ "unique.") = false →
  IsUniqueNamespace (TrimSuffix (TrimPrefix target prefix) "}") = false.
Proof.
  intros [r ->]%HasPrefix_iff Hno. rewrite TrimPrefix_app. apply not_true_iff_false. intros [t Ht]%HasPrefix_iff.
  apply not_true_iff_false in Hno. apply Hno, HasPrefix_iff.
  destruct (TrimSuffix_prefix r "}") as [q Hq]. rewrite Ht in Hq. exists (t +:+ q).
  rewrite string_app_assoc. f_equal. rewrite Hq at 1. unfold NodeUniqueNamespace. by rewrite string_app_assoc.
Qed.

Lemma resolve_class target n n' :
  hashInput n = hashInput n' → constraintTargetEscapes target = false →
  resolveConstraintTarget target n = resolveConstraintTarget target n'.
Proof.
  intros [= Hdc Hattr Hmeta Hclass] Hesc. unfold constraintTargetEscapes in Hesc.
  rewrite !orb_false_iff in Hesc. destruct Hesc as [[Hu Ha] Hm]. unfold resolveConstraintTarget.
  destruct (HasPrefix target "${"); [|done]. simpl.
  case_bool_decide as E1; [by rewrite E1 in Hu|]. case_bool_decide; [by rewrite Hdc|].
  case_bool_decide as E2; [by rewrite E2 in Hu|]. case_bool_decide; [by rewrite Hclass|].
  destruct (HasPrefix target "${attr.") eqn:Ea.
  - pose proof (target_key_common target "${attr." Ea Ha) as Hk.
    rewrite <- (included_lookup "Attributes" (nd_Attributes n)), Hattr, included_lookup by auto. done.
  - destruct (HasPrefix target "${meta.") eqn:Em; [|done].
    pose proof (target_key_common target "${meta." Em Hm) as Hk.
    rewrite <- (included_lookup "Meta" (nd_Meta n)), Hmeta, included_lookup by auto. done.
Qed.

Section classes.
Context `{TextLibs}.

Lemma satisfies_class c n n' :
  hashInput n = hashInput n' → constraintTargetEscapes (c_LTarget c) || constraintTargetEscapes (c_RTarget c) = false →
  satisfies n c = satisfies n' c.
Proof.
  intros Hn [Hl Hr]%orb_false_iff. unfold satisfies. by rewrite (resolve_class _ n n' Hn Hl), (resolve_class _ n n' Hn Hr).
Qed.

Lemma constraints_class cs n n' :
  hashInput n = hashInput n' → escapes cs = false → forallb (satisfies n) cs = forallb (satisfies n') cs.
Proof.
  intros Hn Hesc. unfold escapes in Hesc. apply negb_false_iff, Nat.eqb_eq, nil_length_inv in Hesc.
  unfold EscapedConstraints in Hesc. induction cs as [|c cs IH]; [done|]. rewrite filter_cons in Hesc. simpl.
  case_decide as Hc; [done|]. apply not_true_iff_false in Hc. by rewrite (satisfies_class c n n' Hn Hc), IH.
Qed.

Lemma driver_class n n' d : hashInput n = hashInput n' → hasDriver n d = hasDriver n' d.
Proof.
  intros [= _ Hattr _ _]. unfold hasDriver.
  by rewrite <- (included_lookup "Attributes" (nd_Attributes n)), Hattr, included_lookup by auto.
Qed.

Lemma drivers_class n n' ds : hashInput n = hashInput n' → hasDrivers ds n = hasDrivers ds n'.
Proof.
  intros Hn. unfold hasDrivers. induction (elements ds) as [|d l IH]; [done|]. simpl. by rewrite (driver_class n n' d Hn), IH.
Qed.

(** What a job and a group ask of a node by themselves. *)
Definition jobFeasible (job : Job) (n : Node) : bool := forallb (satisfies n) (jb_Constraints job).
Definition tgDrivers (tg : TaskGroup) : gset string := list_to_set (tk_Driver <$> tg_Tasks tg).
Definition tgFeasible (tg : TaskGroup) (n : Node) : bool :=
  hasDrivers (tgDrivers tg) n && forallb (satisfies n) (allConstraints tg).

Lemma jobFeasible_class job n n' :
  hashInput n = hashInput n' → escapes (jb_Constraints job) = false → jobFeasible job n = jobFeasible job n'.
Proof. apply constraints_class. Qed.

Lemma tgFeasible_class tg n n' :
  hashInput n = hashInput n' → escapes (allConstraints tg) = false → tgFeasible tg n = tgFeasible tg n'.
Proof. intros Hn He. unfold tgFeasible. by rewrite (drivers_class n n' _ Hn), (constraints_class _ n n' Hn He). Qed.
End classes.

(** * Distinct properties (src/scheduler/propertyset.go)

    The values of a node property that the allocations of a job already use, that
    planned placements will use, and that planned stops give up. *)

(** The sets are the keys of Go's maps; a nil map has no keys. *)
Record propertySet := mkPropertySet {
  ps_jobID : string;
  ps_taskGroup : string;
  ps_constraint : Constraint;
  ps_errorBuilding : option string;
  ps_existingValues : gset string;
  ps_proposedValues : gset string;
  ps_clearedValues : gset string
}.
#[export] Instance eta_propertySet : Eta propertySet := fun r =>
  mkPropertySet (ps_jobID r) (ps_taskGroup r) (ps_constraint r) (ps_errorBuilding r)
    (ps_existingValues r) (ps_proposedValues r) (ps_clearedValues r).

Definition zeroConstraint : Constraint := mkConstraint "" "" "".

Definition NewPropertySet (job : Job) : propertySet :=
  mkPropertySet (jb_ID job) "" zeroConstraint None ∅ ∅ ∅.

(** Whether [filterAllocs] removes an allocation. *)
Definition removesAlloc (p : propertySet) (filterTerminal : bool) (alloc : Allocation) : bool :=
  (filterTerminal && AllocTerminal alloc) ||
  (negb (bool_decide (ps_taskGroup p = "")) && negb (bool_decide (al_TaskGroup alloc = ps_taskGroup p))).

(** A string in double quotes. *)
Definition quoted (s : string) : string :=
  let q := String (Ascii.ascii_of_nat 34) EmptyString in q +:+ s +:+ q.

(** The removed entries are exchanged with the last ones. *)
Definition filterAllocs (p : propertySet) (allocs : list Allocation) (filterTerminal : bool) : list Allocation :=
  (swapDelete (removesAlloc p filterTerminal) (fun (m : unit) _ => m) (length allocs) allocs 0 tt).1.

Definition getProperty (n : option Node) (property : string) : option string :=
  match n with
  | None => None
  | Some n =>
      if bool_decide (property = "") then None
      else match resolveConstraintTarget property n with
           | Some (VString v) => Some v
           | _ => None
           end
  end.

(** [None] of the map is a node that does not exist. *)
Fixpoint buildNodeMap (state : SchedState) (allocs : list Allocation) (nodes : gmap string (option Node))
    : string + gmap string (option Node) :=
  match allocs with
  | [] => inr nodes
  | alloc :: allocs =>
      match nodes !! al_NodeID alloc with
      | Some _ => buildNodeMap state allocs nodes
      | None =>
          match sc_NodeByID state (al_NodeID alloc) with
          | inl err => inl ("failed to lookup node ID " +:+ quoted (al_NodeID alloc) +:+ ": " +:+ err)
          | inr node => buildNodeMap state allocs (<[al_NodeID alloc := node]> nodes)
          end
      end
  end.

Definition populateProperties (p : propertySet) (allocs : list Allocation) (nodes : gmap string (option Node))
    (properties : gset string) : gset string :=
  foldl (fun properties alloc =>
      match getProperty (default None (nodes !! al_NodeID alloc)) (c_LTarget (ps_constraint p)) with
      | Some v => {[v]} ∪ properties
      | None => properties
      end) properties allocs.

Definition populateExisting (state : SchedState) (p : propertySet) : propertySet :=
  match sc_AllocsByJob state (ps_jobID p) false with
  | inl err => p <| ps_errorBuilding := Some ("failed to get job's allocations: " +:+ err) |>
  | inr allocs =>
      let allocs := filterAllocs p allocs true in
      match buildNodeMap state allocs ∅ with
      | inl err => p <| ps_errorBuilding := Some err |>
      | inr nodes => p <| ps_existingValues ::= populateProperties p allocs nodes |>
      end
  end.

Definition SetJobConstraint (state : SchedState) (p : propertySet) (constraint : Constraint) : propertySet :=
  populateExisting state (p <| ps_constraint := constraint |>).

Definition SetTGConstraint (state : SchedState) (p : propertySet) (constraint : Constraint) (taskGroup : string)
    : propertySet :=
  populateExisting state (p <| ps_taskGroup := taskGroup |> <| ps_constraint := constraint |>).

Section ordered.
(** The order in which Go ranges over the maps of the plan. *)
Variable range : gmap string (list Allocation) → list (list Allocation).

Definition PopulateProposed (state : SchedState) (plan : Plan) (p : propertySet) : propertySet :=
  let p := p <| ps_proposedValues := ∅ |> <| ps_clearedValues := ∅ |> in
  let stopping := filterAllocs p (concat (range (pl_NodeUpdate plan))) false in
  let proposed := filterAllocs p (concat (range (pl_NodeAllocation plan))) true in
  match buildNodeMap state (stopping ++ proposed) ∅ with
  | inl err => p <| ps_errorBuilding := Some err |>
  | inr nodes =>
      let cleared := populateProperties p stopping nodes ∅ in
      let proposedV := populateProperties p proposed nodes ∅ in
      p <| ps_proposedValues := proposedV |> <| ps_clearedValues := cleared ∖ proposedV |>
  end.
End ordered.

Definition SatisfiesDistinctProperties (p : propertySet) (option : Node) : bool * string :=
  match ps_errorBuilding p with
  | Some err => (false, err)
  | None =>
      match getProperty (Some option) (c_LTarget (ps_constraint p)) with
      | None => (false, "missing property " +:+ quoted (c_LTarget (ps_constraint p)))
      | Some nValue =>
          let used := bool_decide (nValue ∈ ps_existingValues p) || bool_decide (nValue ∈ ps_proposedValues p) in
          if used && negb (bool_decide (nValue ∈ ps_clearedValues p)) then
            (false, "distinct_property: " +:+ c_LTarget (ps_constraint p) +:+ "=" +:+ nValue +:+ " already used")
          else (true, "")
      end
  end.
