(* ===== verification/Stack.v ===== *)
(** * The stacks of iterators (src/scheduler/feasible.go, rank.go, select.go, stack.go)

    A stack chains iterators from the base nodes to a choice.  The objects of a stack
    are the fields of its record, and [Next] of an iterator is a function on that
    record, with the [Next] of its source as an argument.  A result is [None] where
    the Go code would panic.  A loop that goes on until its source is exhausted takes
    as fuel one more than the number of base nodes, which bounds what the source can
    yield. *)

From stdpp Require Import base gmap strings list.
From Stdlib Require Import ZArith Lia.
From S2P Require Import Prelude GoText GoHeap Bitmap Structs Resources Jobs Allocs Network NetworkAssign Fit Plans SchedContext Feasible.
Open Scope string_scope.
Open Scope list_scope.
Open Scope Z_scope.

Record RankedNode := mkRankedNode {
  rn_Node : Node;
  rn_Score : float64;
  rn_TaskResources : gmap string Resources;
  rn_Proposed : option (list Allocation)
}.
#[export] Instance eta_RankedNode : Eta RankedNode := fun r =>
  mkRankedNode (rn_Node r) (rn_Score r) (rn_TaskResources r) (rn_Proposed r).

Record StaticIterator := mkStaticIterator { si_nodes : list Node; si_offset : nat; si_seen : nat }.
#[export] Instance eta_StaticIterator : Eta StaticIterator := fun r =>
  mkStaticIterator (si_nodes r) (si_offset r) (si_seen r).

Record DistinctHostsIterator := mkDistinctHostsIterator {
  dh_tg : option TaskGroup;
  dh_job : option Job;
  dh_tgDistinctHosts : bool;
  dh_jobDistinctHosts : bool
}.
#[export] Instance eta_DistinctHostsIterator : Eta DistinctHostsIterator := fun r =>
  mkDistinctHostsIterator (dh_tg r) (dh_job r) (dh_tgDistinctHosts r) (dh_jobDistinctHosts r).

Record DistinctPropertyIterator := mkDistinctPropertyIterator {
  dp_tg : option TaskGroup;
  dp_job : option Job;
  dp_hasConstraints : bool;
  dp_jobPropertySets : list propertySet;
  dp_groupPropertySets : gmap string (list propertySet)
}.
#[export] Instance eta_DistinctPropertyIterator : Eta DistinctPropertyIterator := fun r =>
  mkDistinctPropertyIterator (dp_tg r) (dp_job r) (dp_hasConstraints r) (dp_jobPropertySets r) (dp_groupPropertySets r).

Record BinPackIterator := mkBinPackIterator { bp_evict : bool; bp_priority : Z; bp_taskGroup : option TaskGroup }.
#[export] Instance eta_BinPackIterator : Eta BinPackIterator := fun r =>
  mkBinPackIterator (bp_evict r) (bp_priority r) (bp_taskGroup r).

Record JobAntiAffinityIterator := mkJobAntiAffinityIterator { ja_penalty : float64; ja_jobID : string }.
#[export] Instance eta_JobAntiAffinityIterator : Eta JobAntiAffinityIterator := fun r =>
  mkJobAntiAffinityIterator (ja_penalty r) (ja_jobID r).

Record LimitIterator := mkLimitIterator { lm_limit : Z; lm_seen : Z }.
#[export] Instance eta_LimitIterator : Eta LimitIterator := fun r => mkLimitIterator (lm_limit r) (lm_seen r).

(** [rand] counts the draws from Go's random source, [pool] is the pool of bitmaps. *)
Record GenericStack `{TextLibs} := mkGenericStack {
  gs_batch : bool;
  gs_ctx : EvalContext;
  gs_source : StaticIterator;
  gs_jobConstraint : list Constraint;
  gs_taskGroupDrivers : gset string;
  gs_taskGroupConstraint : list Constraint;
  gs_wrappedTg : string;
  gs_distinctHosts : DistinctHostsIterator;
  gs_distinctProperty : DistinctPropertyIterator;
  gs_binPack : BinPackIterator;
  gs_jobAntiAff : JobAntiAffinityIterator;
  gs_limit : LimitIterator;
  gs_max : option RankedNode;
  gs_rand : nat;
  gs_pool : list Bitmap
}.

(** What the code takes from elsewhere: Go's orders of maps, its random source and
    its power function, and the parsing and printing of addresses. *)
Class StackLibs := {
  rangeTasks : gmap string Resources → list Resources;
  rangeAllocs : gmap string Allocation → list Allocation;
  rangePlan : gmap string (list Allocation) → list (list Allocation);
  intn : nat → Z → Z;
  Pow : float64 → float64 → float64;
  ParseCIDR : string → option (list Z * IPNet);
  ipString : list Z → string
}.

Section stack.
Context `{TextLibs} `{StackLibs}.

#[export] Instance eta_GenericStack : Eta GenericStack := fun r =>
  mkGenericStack _ (gs_batch r) (gs_ctx r) (gs_source r) (gs_jobConstraint r) (gs_taskGroupDrivers r)
    (gs_taskGroupConstraint r) (gs_wrappedTg r) (gs_distinctHosts r) (gs_distinctProperty r) (gs_binPack r)
    (gs_jobAntiAff r) (gs_limit r) (gs_max r) (gs_rand r) (gs_pool r).

(** [Next] yields an opt or nil, and the new state. *)
Definition nextFn (A : Type) : Type := GenericStack → option (option A * GenericStack).

Definition onMetrics (f : AllocMetric → AllocMetric) (s : GenericStack) : GenericStack :=
  s <| gs_ctx ::= fun ctx => ctx <| ec_metrics ::= f |> |>.
Definition onEligibility (f : EvalEligibility → EvalEligibility) (s : GenericStack) : GenericStack :=
  s <| gs_ctx ::= fun ctx => ctx <| ec_eligibility ::= f |> |>.

Definition loopFuel (s : GenericStack) : nat := S (length (si_nodes (gs_source s))).

(** ** The base *)

Definition StaticNext : nextFn Node := fun s =>
  let iter := gs_source s in
  let n := length (si_nodes iter) in
  if ((si_offset iter =? n)%nat || (si_seen iter =? n)%nat) && (si_seen iter =? n)%nat then Some (None, s)
  else
    let offset := if (si_offset iter =? n)%nat || (si_seen iter =? n)%nat then 0%nat else si_offset iter in
    node ← si_nodes iter !! offset;
    Some (Some node, onMetrics EvaluateNode
      (s <| gs_source := iter <| si_offset := S offset |> <| si_seen ::= S |> |>)).

Definition StaticReset (s : GenericStack) : GenericStack := s <| gs_source ::= fun iter => iter <| si_seen := 0%nat |> |>.
Definition StaticSetNodes (nodes : list Node) (s : GenericStack) : GenericStack :=
  s <| gs_source := mkStaticIterator nodes 0 0 |>.

(** ** The feasibility wrapper *)

Definition checker : Type := EvalContext → Node → bool * EvalContext.

(** The checkers are run until one fails. *)
Fixpoint runChecks (checks : list checker) (ctx : EvalContext) (opt : Node) : bool * EvalContext :=
  match checks with
  | [] => (true, ctx)
  | check :: checks =>
      let '(feasible, ctx) := check ctx opt in
      if feasible then runChecks checks ctx opt else (false, ctx)
  end.

Definition jobCheckers (s : GenericStack) : list checker := [fun ctx n => ConstraintFeasible ctx (gs_jobConstraint s) n].
Definition tgCheckers (s : GenericStack) : list checker :=
  [fun ctx n => DriverFeasible ctx (gs_taskGroupDrivers s) n;
   fun ctx n => ConstraintFeasible ctx (gs_taskGroupConstraint s) n].

Definition isIneligible (f : ComputedClassFeasibility) : bool :=
  match f with EvalComputedClassIneligible => true | _ => false end.
Definition isEligible (f : ComputedClassFeasibility) : bool :=
  match f with EvalComputedClassEligible => true | _ => false end.
Definition isEscaped (f : ComputedClassFeasibility) : bool :=
  match f with EvalComputedClassEscaped => true | _ => false end.
Definition isUnknown (f : ComputedClassFeasibility) : bool :=
  match f with EvalComputedClassUnknown => true | _ => false end.

(** The second half of the loop of the wrapper, for a node that passed the checks of the job. *)
Definition wrapperTgCheck (opt : Node) (s : GenericStack) : bool * GenericStack :=
  let class := nd_ComputedClass opt in
  let tgStatus := TaskGroupStatus (ec_eligibility (gs_ctx s)) (gs_wrappedTg s) class in
  if isIneligible tgStatus then (false, onMetrics (fun m => FilterNode m opt "computed class ineligible") s)
  else if isEligible tgStatus then (true, s)
  else
    let '(feasible, ctx) := runChecks (tgCheckers s) (gs_ctx s) opt in
    let s := s <| gs_ctx := ctx |> in
    if negb feasible then
      (false, if negb (isEscaped tgStatus)
              then onEligibility (fun e => SetTaskGroupEligibility e false (gs_wrappedTg s) class) s else s)
    else
      (true, if negb (isEscaped tgStatus) && isUnknown tgStatus
             then onEligibility (fun e => SetTaskGroupEligibility e true (gs_wrappedTg s) class) s else s).

(** One node in the loop of the wrapper: whether it is returned. *)
Definition wrapperCheck (opt : Node) (s : GenericStack) : bool * GenericStack :=
  let class := nd_ComputedClass opt in
  let jobStatus := JobStatus (ec_eligibility (gs_ctx s)) class in
  if isIneligible jobStatus then (false, onMetrics (fun m => FilterNode m opt "computed class ineligible") s)
  else
    let '(feasible, ctx) := runChecks (jobCheckers s) (gs_ctx s) opt in
    let s := s <| gs_ctx := ctx |> in
    if negb feasible then
      (false, if negb (isEscaped jobStatus) then onEligibility (fun e => SetJobEligibility e false class) s else s)
    else
      wrapperTgCheck opt
        (if negb (isEscaped jobStatus) && isUnknown jobStatus
         then onEligibility (fun e => SetJobEligibility e true class) s else s).

(** A loop that takes options from [src] until [keep] accepts one. *)
Fixpoint filterLoop {A B} (fuel : nat) (src : nextFn A) (keep : A → GenericStack → option (option B * GenericStack))
    (s : GenericStack) : option (option B * GenericStack) :=
  match fuel with
  | O => None
  | S fuel =>
      r ← src s;
      let '(opt, s) := r in
      match opt with
      | None => Some (None, s)
      | Some opt =>
          r ← keep opt s;
          let '(kept, s) := r in
          match kept with
          | Some x => Some (Some x, s)
          | None => filterLoop fuel src keep s
          end
      end
  end.

Definition keepIf {A} (check : A → GenericStack → bool * GenericStack) (x : A) (s : GenericStack)
    : option (option A * GenericStack) :=
  let '(ok, s) := check x s in Some (if ok then Some x else None, s).

Definition WrapperNext (src : nextFn Node) : nextFn Node := fun s => filterLoop (loopFuel s) src (keepIf wrapperCheck) s.

(** ** Distinct hosts *)

Definition hasDistinctHostsConstraint (constraints : list Constraint) : bool :=
  existsb (fun con => bool_decide (c_Operand con = ConstraintDistinctHosts)) constraints.

Definition HostsSetTaskGroup (tg : TaskGroup) (s : GenericStack) : GenericStack :=
  s <| gs_distinctHosts ::= fun iter =>
         iter <| dh_tg := Some tg |> <| dh_tgDistinctHosts := hasDistinctHostsConstraint (tg_Constraints tg) |> |>.
Definition HostsSetJob (job : Job) (s : GenericStack) : GenericStack :=
  s <| gs_distinctHosts ::= fun iter =>
         iter <| dh_job := Some job |> <| dh_jobDistinctHosts := hasDistinctHostsConstraint (jb_Constraints job) |> |>.

(** The job and the group are dereferenced once there is an allocation. *)
Fixpoint noCollision (iter : DistinctHostsIterator) (proposed : list Allocation) : option bool :=
  match proposed with
  | [] => Some true
  | alloc :: proposed =>
      job ← dh_job iter;
      tg ← dh_tg iter;
      let jobCollision := bool_decide (al_JobID alloc = jb_ID job) in
      let taskCollision := bool_decide (al_TaskGroup alloc = tg_Name tg) in
      if (dh_jobDistinctHosts iter && jobCollision) || (jobCollision && taskCollision) then Some false
      else noCollision iter proposed
  end.

Definition satisfiesDistinctHosts (opt : Node) (s : GenericStack) : option bool :=
  let iter := gs_distinctHosts s in
  if negb (dh_jobDistinctHosts iter || dh_tgDistinctHosts iter) then Some true
  else
    match ProposedAllocs rangeAllocs (gs_ctx s) (nd_ID opt) with
    | inl _ => Some false
    | inr proposed => noCollision iter proposed
    end.

Definition hostsKeep (opt : Node) (s : GenericStack) : option (option Node * GenericStack) :=
  let iter := gs_distinctHosts s in
  if negb (dh_jobDistinctHosts iter || dh_tgDistinctHosts iter) then Some (Some opt, s)
  else
    ok ← satisfiesDistinctHosts opt s;
    Some (if (ok : bool) then (Some opt, s)
          else (None, onMetrics (fun m => FilterNode m opt ConstraintDistinctHosts) s)).

Definition HostsNext (src : nextFn Node) : nextFn Node := fun s => filterLoop (loopFuel s) src hostsKeep s.

(** ** Distinct properties *)

Definition PropertySetTaskGroup (tg : TaskGroup) (s : GenericStack) : option GenericStack :=
  let iter := (gs_distinctProperty s) <| dp_tg := Some tg |> in
  let constraints := filter (fun c => c_Operand c = ConstraintDistinctProperty) (tg_Constraints tg) in
  iter ←
    match dp_groupPropertySets iter !! tg_Name tg, constraints with
    | Some _, _ => Some iter
    | None, [] => Some iter
    | None, _ =>
        job ← dp_job iter;
        let sets := (fun c => SetTGConstraint (ec_state (gs_ctx s)) (NewPropertySet job) c (tg_Name tg)) <$> constraints in
        Some (iter <| dp_groupPropertySets ::= <[tg_Name tg := sets]> |>)
    end;
  let has := negb (length (dp_jobPropertySets iter) =? 0)%nat ||
             negb (length (default [] (dp_groupPropertySets iter !! tg_Name tg)) =? 0)%nat in
  Some (s <| gs_distinctProperty := iter <| dp_hasConstraints := has |> |>).

Definition PropertySetJob (job : Job) (s : GenericStack) : GenericStack :=
  let constraints := filter (fun c => c_Operand c = ConstraintDistinctProperty) (jb_Constraints job) in
  let sets := (fun c => SetJobConstraint (ec_state (gs_ctx s)) (NewPropertySet job) c) <$> constraints in
  s <| gs_distinctProperty ::= fun iter =>
         iter <| dp_job := Some job |> <| dp_jobPropertySets ::= fun l => l ++ sets |> |>.

(** The first set that is not satisfied filters the node. *)
Fixpoint satisfiesProperties (opt : Node) (sets : list propertySet) (s : GenericStack) : bool * GenericStack :=
  match sets with
  | [] => (true, s)
  | ps :: sets =>
      let '(ok, reason) := SatisfiesDistinctProperties ps opt in
      if ok then satisfiesProperties opt sets s else (false, onMetrics (fun m => FilterNode m opt reason) s)
  end.

Definition propertyKeep (opt : Node) (s : GenericStack) : option (option Node * GenericStack) :=
  let iter := gs_distinctProperty s in
  if negb (dp_hasConstraints iter) then Some (Some opt, s)
  else
    let '(ok, s) := satisfiesProperties opt (dp_jobPropertySets iter) s in
    if negb ok then Some (None, s)
    else
      tg ← dp_tg iter;
      let '(ok, s) := satisfiesProperties opt (default [] (dp_groupPropertySets iter !! tg_Name tg)) s in
      Some (if ok then Some opt else None, s).

Definition PropertyNext (src : nextFn Node) : nextFn Node := fun s => filterLoop (loopFuel s) src propertyKeep s.

Definition PropertyReset (s : GenericStack) : GenericStack :=
  let populate := PopulateProposed rangePlan (ec_state (gs_ctx s)) (ec_plan (gs_ctx s)) in
  s <| gs_distinctProperty ::= fun iter =>
         iter <| dp_jobPropertySets ::= fun l => populate <$> l |>
              <| dp_groupPropertySets ::= fun m => (fun l : list propertySet => populate <$> l) <$> m |> |>.

(** ** Ranking *)

Definition RankNext (src : nextFn Node) : nextFn RankedNode := fun s =>
  match src s with
  | None => None
  | Some (None, s) => Some (None, s)
  | Some (Some node, s) => Some (Some (mkRankedNode node (f64 0) ∅ None), s)
  end.

Definition RankedProposed (r : RankedNode) (ctx : EvalContext) : string + RankedNode * list Allocation :=
  match rn_Proposed r with
  | Some p => inr (r, p)
  | None =>
      match ProposedAllocs rangeAllocs ctx (nd_ID (rn_Node r)) with
      | inl err => inl err
      | inr p => inr (r <| rn_Proposed := Some p |>, p)
      end
  end.

Definition SetTaskResources (r : RankedNode) (task : Task) (resource : Resources) : RankedNode :=
  r <| rn_TaskResources ::= <[tk_Name task := resource]> |>.

Definition ScoreFit (node : Node) (util : Resources) : float64 :=
  let nodeCpu := f64 (r_CPU (nd_Resources node)) in
  let nodeCpu := match nd_Reserved node with Some r => f_sub nodeCpu (f64 (r_CPU r)) | None => nodeCpu end in
  let nodeMem := f64 (r_MemoryMB (nd_Resources node)) in
  let nodeMem := match nd_Reserved node with Some r => f_sub nodeMem (f64 (r_MemoryMB r)) | None => nodeMem end in
  let freePctCpu := f_sub (f64 1) (f_div (f64 (r_CPU util)) nodeCpu) in
  let freePctRam := f_sub (f64 1) (f_div (f64 (r_MemoryMB util)) nodeMem) in
  let total := f_add (Pow (f64 10) freePctCpu) (Pow (f64 10) freePctRam) in
  let score := f_sub (f64 20) total in
  if f_lt (f64 18) score then f64 18
  else if f_lt score (f64 0) then f64 0
  else score.

(** The assignment of resources to the tasks: [inl] is the error of the network. *)
Fixpoint assignTasks (tasks : list Task) (netIdx : NetworkIndex) (opt : RankedNode) (total : Resources) (rand : nat)
    : option (nat * (string * NetworkIndex + NetworkIndex * RankedNode * Resources)) :=
  match tasks with
  | [] => Some (rand, inr (netIdx, opt, total))
  | task :: tasks =>
      let taskResources := tk_Resources task in
      match r_Networks taskResources with
      | [] => assignTasks tasks netIdx (SetTaskResources opt task taskResources) (Add total (Some taskResources)) rand
      | ask :: _ =>
          st ← mjoin (AssignNetwork intn ParseCIDR ipString netIdx ask rand);
          match st_out st with
          | None => Some (st_draws st, inl (default "" (st_err st), netIdx))
          | Some offer =>
              r ← AddReserved netIdx offer;
              let taskResources := taskResources <| r_Networks := [offer] |> in
              assignTasks tasks r.1 (SetTaskResources opt task taskResources) (Add total (Some taskResources)) (st_draws st)
          end
      end
  end.

(** One opt in the loop of the bin packing. *)
Definition binPackKeep (opt : RankedNode) (s : GenericStack) : option (option RankedNode * GenericStack) :=
  match RankedProposed opt (gs_ctx s) with
  | inl _ => Some (None, s)
  | inr (opt, proposed) =>
      r ← SetNode (NewNetworkIndex (gs_pool s)) (rn_Node opt);
      r ← AddAllocs rangeTasks r.1 proposed;
      let netIdx := r.1 in
      taskGroup ← bp_taskGroup (gs_binPack s);
      disk ← tg_EphemeralDisk taskGroup;
      r ← assignTasks (tg_Tasks taskGroup) netIdx opt (zeroResources <| r_DiskMB := ed_SizeMB disk |>) (gs_rand s);
      let s := s <| gs_rand := r.1 |> in
      match r.2 with
      | inl (err, netIdx) =>
          let s := onMetrics (fun m => ExhaustedNode m (rn_Node opt) ("network: " +:+ err)) s in
          Some (None, s <| gs_pool := Release netIdx |>)
      | inr (netIdx, opt, total) =>
          let proposed := proposed ++ [zeroAllocation <| al_Resources := Some total |>] in
          fit ← AllocsFit rangeTasks (rn_Node opt) proposed (Some netIdx) [];
          let s := s <| gs_pool := Release netIdx |> in
          match fit with
          | inl _ => Some (None, onMetrics (fun m => ExhaustedNode m (rn_Node opt) "") s)
          | inr (false, dim, _) => Some (None, onMetrics (fun m => ExhaustedNode m (rn_Node opt) dim) s)
          | inr (true, _, util) =>
              let fitness := ScoreFit (rn_Node opt) util in
              let opt := opt <| rn_Score ::= fun score => f_add score fitness |> in
              Some (Some opt, onMetrics (fun m => ScoreNode m (rn_Node opt) "binpack" fitness) s)
          end
      end
  end.

Definition BinPackNext (src : nextFn RankedNode) : nextFn RankedNode := fun s => filterLoop (loopFuel s) src binPackKeep s.

Definition antiAffKeep (opt : RankedNode) (s : GenericStack) : option (option RankedNode * GenericStack) :=
  match RankedProposed opt (gs_ctx s) with
  | inl _ => Some (None, s)
  | inr (opt, proposed) =>
      let collisions := length (filter (fun alloc => al_JobID alloc = ja_jobID (gs_jobAntiAff s)) proposed) in
      if (0 <? collisions)%nat then
        let scorePenalty := f_mul (f_mul (f64 (-1)) (f64 (Z.of_nat collisions))) (ja_penalty (gs_jobAntiAff s)) in
        Some (Some (opt <| rn_Score ::= fun score => f_add score scorePenalty |>),
              onMetrics (fun m => ScoreNode m (rn_Node opt) "job-anti-affinity" scorePenalty) s)
      else Some (Some opt, s)
  end.

Definition AntiAffNext (src : nextFn RankedNode) : nextFn RankedNode := fun s => filterLoop (loopFuel s) src antiAffKeep s.

Definition LimitNext (src : nextFn RankedNode) : nextFn RankedNode := fun s =>
  if lm_seen (gs_limit s) =? lm_limit (gs_limit s) then Some (None, s)
  else
    match src s with
    | None => None
    | Some (None, s) => Some (None, s)
    | Some (Some opt, s) => Some (Some opt, s <| gs_limit ::= fun iter => iter <| lm_seen ::= Z.add 1 |> |>)
    end.

(** The loop of [MaxScoreIterator.Next]. *)
Fixpoint maxLoop (fuel : nat) (src : nextFn RankedNode) (s : GenericStack) : option (option RankedNode * GenericStack) :=
  match fuel with
  | O => None
  | S fuel =>
      r ← src s;
      let '(opt, s) := r in
      match opt with
      | None => Some (gs_max s, s)
      | Some opt =>
          let better := match gs_max s with None => true | Some m => f_lt (rn_Score m) (rn_Score opt) end in
          maxLoop fuel src (if better then s <| gs_max := Some opt |> else s)
      end
  end.

Definition MaxScoreNext (src : nextFn RankedNode) : nextFn RankedNode := fun s =>
  match gs_max s with
  | Some _ => Some (None, s)
  | None => maxLoop (loopFuel s) src s
  end.

(** ** The generic stack *)

Definition serviceJobAntiAffinityPenalty : float64 := f64 20.
Definition batchJobAntiAffinityPenalty : float64 := f64 10.

(** The random source and the pool of bitmaps belong to the process. *)
Definition NewGenericStack (batch : bool) (ctx : EvalContext) (rand : nat) (pool : list Bitmap) : GenericStack :=
  mkGenericStack _ batch ctx (mkStaticIterator [] 0 0) [] ∅ [] ""
    (mkDistinctHostsIterator None None false false) (mkDistinctPropertyIterator None None false [] ∅)
    (mkBinPackIterator (negb batch) 0 None)
    (mkJobAntiAffinityIterator (if batch then batchJobAntiAffinityPenalty else serviceJobAntiAffinityPenalty) "")
    (mkLimitIterator 2 0) None rand pool.

(** Fisher-Yates, from index [i] down. *)
Fixpoint shuffleFrom {A} (i : nat) (rand : nat) (nodes : list A) : nat * list A :=
  match i with
  | O => (rand, nodes)
  | S i' => shuffleFrom i' (S rand) (swap nodes i (Z.to_nat (intn rand (Z.of_nat i + 1))))
  end.
Definition shuffleNodes {A} (rand : nat) (nodes : list A) : nat * list A := shuffleFrom (length nodes - 1) rand nodes.

(** The logarithm of the number of nodes, rounded up, with a floor of two. *)
Definition nodeLimit (batch : bool) (n : nat) : Z :=
  if negb batch && (0 <? n)%nat then Z.max 2 (Z.log2_up (Z.of_nat n)) else 2.

Definition SetNodes (baseNodes : list Node) (s : GenericStack) : GenericStack :=
  let '(rand, nodes) := shuffleNodes (gs_rand s) baseNodes in
  let s := StaticSetNodes nodes (s <| gs_rand := rand |>) in
  s <| gs_limit ::= fun iter => iter <| lm_limit := nodeLimit (gs_batch s) (length nodes) |> |>.

Definition SetJob (job : Job) (s : GenericStack) : GenericStack :=
  let s := s <| gs_jobConstraint := jb_Constraints job |> in
  let s := HostsSetJob job s in
  let s := PropertySetJob job s in
  let s := s <| gs_binPack ::= fun iter => iter <| bp_priority := jb_Priority job |> |>
             <| gs_jobAntiAff ::= fun iter => iter <| ja_jobID := jb_ID job |> |> in
  onEligibility (fun e => ElSetJob e job) s.

Record tgConstrainTuple := mkTgConstrainTuple {
  tc_constraints : list Constraint;
  tc_drivers : gset string;
  tc_size : Resources
}.

(** [None] is the panic on a group without an ephemeral disk. *)
Definition taskGroupConstraints (tg : TaskGroup) : option tgConstrainTuple :=
  disk ← tg_EphemeralDisk tg;
  Some (mkTgConstrainTuple (allConstraints tg) (list_to_set (tk_Driver <$> tg_Tasks tg))
          (foldl (fun size task => Add size (Some (tk_Resources task)))
             (zeroResources <| r_DiskMB := ed_SizeMB disk |>) (tg_Tasks tg))).

(** [Reset] of the iterators from the maximum down to the base. *)
Definition StackReset (s : GenericStack) : GenericStack :=
  let s := s <| gs_max := None |> <| gs_limit ::= fun iter => iter <| lm_seen := 0 |> |> in
  PropertyReset (StaticReset s).

(** The parameters of the iterators for a group. *)
Definition setTaskGroup (tg : TaskGroup) (tgConstr : tgConstrainTuple) (s : GenericStack) : option GenericStack :=
  let s := s <| gs_taskGroupDrivers := tc_drivers tgConstr |> <| gs_taskGroupConstraint := tc_constraints tgConstr |> in
  let s := HostsSetTaskGroup tg s in
  s ← PropertySetTaskGroup tg s;
  Some (s <| gs_wrappedTg := tg_Name tg |> <| gs_binPack ::= fun iter => iter <| bp_taskGroup := Some tg |> |>).

(** The chain of iterators. *)
Definition feasibleNext : nextFn Node := PropertyNext (HostsNext (WrapperNext StaticNext)).
Definition packedNext : nextFn RankedNode := BinPackNext (RankNext feasibleNext).
Definition genericNext : nextFn RankedNode := MaxScoreNext (LimitNext (AntiAffNext packedNext)).

(** The resources of the tasks are set where the bin packing has not. *)
Definition ensureResources (tg : TaskGroup) (opt : RankedNode) : RankedNode :=
  if (size (rn_TaskResources opt) =? length (tg_Tasks tg))%nat then opt
  else foldl (fun opt task => SetTaskResources opt task (tk_Resources task)) opt (tg_Tasks tg).

Definition storeTime (elapsed : Z) (s : GenericStack) : GenericStack :=
  onMetrics (fun m => m <| am_AllocationTime := elapsed |>) s.

(** The resets at the start of a selection and the parameters of the group. *)
Definition prepareSelect (tg : TaskGroup) (tgConstr : tgConstrainTuple) (s : GenericStack) : option GenericStack :=
  setTaskGroup tg tgConstr ((StackReset s) <| gs_ctx ::= ContextReset |>).

(** [elapsed] is the time the selection took. *)
Definition Select (tg : TaskGroup) (elapsed : Z) (s : GenericStack)
    : option (option RankedNode * Resources * GenericStack) :=
  tgConstr ← taskGroupConstraints tg;
  s ← prepareSelect tg tgConstr s;
  r ← genericNext s;
  let '(opt, s) := r in
  Some (option_map (ensureResources tg) opt, tc_size tgConstr, storeTime elapsed s).

Definition SelectPreferringNodes (tg : TaskGroup) (nodes : list Node) (elapsed : Z) (s : GenericStack)
    : option (option RankedNode * Resources * GenericStack) :=
  let originalNodes := si_nodes (gs_source s) in
  r ← Select tg elapsed (StaticSetNodes nodes s);
  let '(opt, resources, s) := r in
  let s := StaticSetNodes originalNodes s in
  match opt with
  | Some opt => Some (Some opt, resources, s)
  | None => Select tg elapsed s
  end.

(** ** The system stack

    It has the same iterators without the distinct hosts, the anti-affinity, the
    limit and the maximum; the fields it does not have are never read. *)

Definition NewSystemStack (ctx : EvalContext) (rand : nat) (pool : list Bitmap) : GenericStack :=
  (NewGenericStack false ctx rand pool) <| gs_binPack := mkBinPackIterator true 0 None |>.

Definition SystemSetNodes (baseNodes : list Node) (s : GenericStack) : GenericStack := StaticSetNodes baseNodes s.

Definition SystemSetJob (job : Job) (s : GenericStack) : GenericStack :=
  let s := PropertySetJob job (s <| gs_jobConstraint := jb_Constraints job |>) in
  onEligibility (fun e => ElSetJob e job) (s <| gs_binPack ::= fun iter => iter <| bp_priority := jb_Priority job |> |>).

Definition systemNext : nextFn RankedNode := BinPackNext (RankNext (PropertyNext (WrapperNext StaticNext))).

Definition SystemSelect (tg : TaskGroup) (elapsed : Z) (s : GenericStack)
    : option (option RankedNode * Resources * GenericStack) :=
  let s := PropertyReset (StaticReset s) in
  let s := s <| gs_ctx ::= ContextReset |> in
  tgConstr ← taskGroupConstraints tg;
  let s := s <| gs_taskGroupDrivers := tc_drivers tgConstr |> <| gs_taskGroupConstraint := tc_constraints tgConstr |>
             <| gs_wrappedTg := tg_Name tg |> in
  s ← PropertySetTaskGroup tg s;
  let s := s <| gs_binPack ::= fun iter => iter <| bp_taskGroup := Some tg |> |> in
  r ← systemNext s;
  let '(opt, s) := r in
  Some (option_map (ensureResources tg) opt, tc_size tgConstr, storeTime elapsed s).
End stack.
