(* ===== verification/StackSpec.v ===== *)
(** * What the iterators of a stack yield

    The nodes that an iterator will yield as a list: the base yields the nodes that
    are left, a filtering iterator the ones of its source that pass.  The wrapper's
    answers from the computed class are the answers of the checks. *)

From stdpp Require Import base gmap strings list.
From Stdlib Require Import ZArith Lia.
From S2P Require Import Prelude GoText GoHeap Bitmap Structs Resources Jobs Allocs Network NetworkAssign Fit Plans SchedContext Feasible Stack.
Open Scope string_scope.
Open Scope list_scope.
Open Scope Z_scope.

Section spec.
Context `{TextLibs} `{StackLibs}.
(** The job that is placed and the nodes that are considered. *)
Context (job : Job) (known : list Node).

(** The computed class determines what it is computed from. *)
Definition classes_ok : Prop :=
  ∀ n n', n ∈ known → n' ∈ known → nd_ComputedClass n = nd_ComputedClass n' → nd_ComputedClass n ≠ "" →
    hashInput n = hashInput n'.
Context (classes : classes_ok).

(** What is remembered of a class is true of every node of the class. *)
Record elig_ok (e : EvalEligibility) : Prop := {
  eo_job_escaped : el_jobEscaped e = escapes (jb_Constraints job);
  eo_tg_escaped : ∀ tg, tg ∈ jb_TaskGroups job →
    el_tgEscapedConstraints e !! tg_Name tg = Some (escapes (allConstraints tg));
  eo_job : ∀ f n, n ∈ known → el_job e !! nd_ComputedClass n = Some f → f = classOf (jobFeasible job n);
  eo_tg : ∀ tg f n, tg ∈ jb_TaskGroups job → n ∈ known →
    (el_taskGroups e !! tg_Name tg ≫= fun classes => classes !! nd_ComputedClass n) = Some f →
    f = classOf (tgFeasible tg n)
}.

Definition params (s : GenericStack) :=
  (si_nodes (gs_source s), gs_jobConstraint s, gs_taskGroupDrivers s, gs_taskGroupConstraint s, gs_wrappedTg s,
   gs_distinctHosts s, gs_distinctProperty s, gs_binPack s, gs_jobAntiAff s,
   (ec_state (gs_ctx s), ec_plan (gs_ctx s)), (lm_limit (gs_limit s))).

(** The progress of the iterators. *)
Definition progress (s : GenericStack) := (gs_source s, gs_limit s, gs_max s).

(** Only caches, metrics, eligibility, the random source and the pool differ. *)
Record quiet (s s' : GenericStack) : Prop := {
  q_params : params s' = params s;
  q_progress : progress s' = progress s
}.

Lemma quiet_refl s : quiet s s.
Proof. done. Qed.
Lemma quiet_trans a b c : quiet a b → quiet b c → quiet a c.
Proof. intros [] []. split; congruence. Qed.

Record Inv (s : GenericStack) : Prop := {
  in_caches : caches_ok (gs_ctx s);
  in_elig : elig_ok (ec_eligibility (gs_ctx s));
  in_offset : (si_offset (gs_source s) ≤ length (si_nodes (gs_source s)))%nat;
  in_seen : (si_seen (gs_source s) ≤ length (si_nodes (gs_source s)))%nat;
  in_known : ∀ n, n ∈ si_nodes (gs_source s) → n ∈ known;
  in_pool : Forall (fun b => Size b = maxValidPort) (gs_pool s)
}.

(** The stack is set up for a group of the job. *)
Record placing (tg : TaskGroup) (s : GenericStack) : Prop := {
  pl_group : tg ∈ jb_TaskGroups job;
  pl_job : gs_jobConstraint s = jb_Constraints job;
  pl_drivers : gs_taskGroupDrivers s = tgDrivers tg;
  pl_constraints : gs_taskGroupConstraint s = allConstraints tg;
  pl_name : gs_wrappedTg s = tg_Name tg
}.

Lemma placing_params tg s s' : params s' = params s → placing tg s → placing tg s'.
Proof. unfold params. intros [= E1 E2 E3 E4 E5 E6 E7 E8 E9 E10 E11] []. split; congruence. Qed.

(** ** The wrapper *)

Lemma Inv_metrics f s : Inv s → Inv (onMetrics f s).
Proof. intros [[] [] ? ? ? ?]. by split. Qed.
Lemma quiet_metrics f s : quiet s (onMetrics f s).
Proof. by destruct s as [? [] ? ? ? ? ? ? ? ? ? ? ? ? ?]. Qed.

Lemma Inv_elig f s : Inv s → elig_ok (f (ec_eligibility (gs_ctx s))) → Inv (onEligibility f s).
Proof. intros [[] _ ? ? ? ?] He. by split. Qed.
Lemma quiet_elig f s : quiet s (onEligibility f s).
Proof. by destruct s as [? [] ? ? ? ? ? ? ? ? ? ? ? ? ?]. Qed.

Lemma Inv_ctx s ctx : Inv s → caches_ok ctx → same_eval (gs_ctx s) ctx → Inv (s <| gs_ctx := ctx |>).
Proof. intros [? He ? ? ? ?] Hc (E1 & E2 & E3). split; try done. simpl. by rewrite E3. Qed.
Lemma quiet_ctx s ctx : same_eval (gs_ctx s) ctx → quiet s (s <| gs_ctx := ctx |>).
Proof. intros (E1 & E2 & _). split; [unfold params; simpl; by rewrite E1, E2|done]. Qed.

#[local] Hint Resolve quiet_refl quiet_metrics quiet_elig Inv_metrics : nomad.

Lemma JobStatus_ok e n :
  elig_ok e → n ∈ known →
  match JobStatus e (nd_ComputedClass n) with
  | EvalComputedClassEscaped => escapes (jb_Constraints job) = true ∨ nd_ComputedClass n = ""
  | EvalComputedClassUnknown => escapes (jb_Constraints job) = false ∧ nd_ComputedClass n ≠ ""
  | EvalComputedClassIneligible => jobFeasible job n = false
  | EvalComputedClassEligible => jobFeasible job n = true
  end.
Proof.
  intros He Hn. unfold JobStatus. rewrite (eo_job_escaped e He).
  destruct (escapes (jb_Constraints job)) eqn:Es; simpl; [by left|]. case_bool_decide; [by right|].
  destruct (el_job e !! nd_ComputedClass n) as [f|] eqn:Ef; simpl; [|done].
  rewrite (eo_job e He f n Hn Ef). by destruct (jobFeasible job n).
Qed.

Lemma TaskGroupStatus_ok e tg n :
  elig_ok e → tg ∈ jb_TaskGroups job → n ∈ known →
  match TaskGroupStatus e (tg_Name tg) (nd_ComputedClass n) with
  | EvalComputedClassEscaped => escapes (allConstraints tg) = true ∨ nd_ComputedClass n = ""
  | EvalComputedClassUnknown => escapes (allConstraints tg) = false ∧ nd_ComputedClass n ≠ ""
  | EvalComputedClassIneligible => tgFeasible tg n = false
  | EvalComputedClassEligible => tgFeasible tg n = true
  end.
Proof.
  intros He Htg Hn. unfold TaskGroupStatus. rewrite (eo_tg_escaped e He tg Htg).
  case_bool_decide; [by right|]. simpl. destruct (escapes (allConstraints tg)) eqn:Es; [by left|].
  destruct (el_taskGroups e !! tg_Name tg ≫= _) as [f|] eqn:Ef; simpl; [|done].
  rewrite (eo_tg e He tg f n Htg Hn Ef). by destruct (tgFeasible tg n).
Qed.

Lemma SetJobEligibility_ok e n :
  elig_ok e → n ∈ known → escapes (jb_Constraints job) = false → nd_ComputedClass n ≠ "" →
  elig_ok (SetJobEligibility e (jobFeasible job n) (nd_ComputedClass n)).
Proof.
  intros [H1 H2 H3 H4] Hn He Hc. split; try done. simpl. intros f n' Hn' [[Hcl <-]|[_ Hf]]%lookup_insert_Some; [|eauto].
  f_equal. apply jobFeasible_class; [|done]. by apply classes.
Qed.

(** Groups are told apart by their names. *)
Context (names : NoDup (tg_Name <$> jb_TaskGroups job)).

Lemma group_eq tg tg' : tg ∈ jb_TaskGroups job → tg' ∈ jb_TaskGroups job → tg_Name tg = tg_Name tg' → tg = tg'.
Proof.
  intros [i Hi]%list_elem_of_lookup [j Hj]%list_elem_of_lookup E.
  assert (i = j) as <-; [|congruence]. eapply NoDup_lookup; [exact names|..]; rewrite list_lookup_fmap.
  - by rewrite Hi.
  - rewrite Hj. simpl. by rewrite E.
Qed.

Lemma SetTaskGroupEligibility_ok e tg n :
  elig_ok e → tg ∈ jb_TaskGroups job → n ∈ known → escapes (allConstraints tg) = false → nd_ComputedClass n ≠ "" →
  elig_ok (SetTaskGroupEligibility e (tgFeasible tg n) (tg_Name tg) (nd_ComputedClass n)).
Proof.
  intros [H1 H2 H3 H4] Htg Hn He Hc. split; try done. simpl. intros tg' f n' Htg' Hn'.
  destruct (decide (tg_Name tg' = tg_Name tg)) as [E|E].
  - apply group_eq in E as ->; [|done..]. rewrite lookup_insert_eq. simpl. rewrite lookup_insert_Some.
    intros [[Hcl <-]|[_ Hf]].
    + f_equal. apply tgFeasible_class; [|done]. by apply classes.
    + destruct (el_taskGroups e !! tg_Name tg) as [classes'|] eqn:Ec; [|done]. eapply H4; [done|done|].
      rewrite Ec. exact Hf.
  - rewrite lookup_insert_ne by done. by apply H4.
Qed.

(** A list of checks that only touch the caches and the metrics decides the conjunction. *)
Definition check_spec (c : checker) (node : Node) (ok : bool) : Prop :=
  ∀ ctx, caches_ok ctx → (c ctx node).1 = ok ∧ caches_ok (c ctx node).2 ∧ same_eval ctx (c ctx node).2.

Lemma runChecks_spec node checks oks :
  Forall2 (fun c ok => check_spec c node ok) checks oks →
  check_spec (runChecks checks) node (forallb id oks).
Proof.
  intros HF. induction HF as [|c ok checks oks Hc HF IH]; intros ctx Hctx; [done|]. cbn [runChecks forallb].
  destruct (Hc ctx Hctx) as (E1 & E2 & E3). destruct (c ctx node) as [b ctx1]. simpl in *. subst b.
  destruct ok; [|done]. destruct (IH ctx1 E2) as (J1 & J2 & J3). split_and!; [done..|]. by eapply same_eval_trans.
Qed.

Lemma jobCheckers_spec tg s n : placing tg s → check_spec (runChecks (jobCheckers s)) n (jobFeasible job n).
Proof.
  intros Hp. unfold jobCheckers, jobFeasible. rewrite (pl_job tg s Hp).
  pose proof (runChecks_spec n [fun ctx m => ConstraintFeasible ctx (jb_Constraints job) m]
    [forallb (satisfies n) (jb_Constraints job)]) as HR.
  cbn [forallb id] in HR. rewrite andb_true_r in HR. apply HR. repeat constructor; by apply ConstraintFeasible_spec.
Qed.

Lemma tgCheckers_spec tg s n : placing tg s → check_spec (runChecks (tgCheckers s)) n (tgFeasible tg n).
Proof.
  intros Hp. unfold tgCheckers, tgFeasible. rewrite (pl_drivers tg s Hp), (pl_constraints tg s Hp).
  pose proof (runChecks_spec n [fun ctx m => DriverFeasible ctx (tgDrivers tg) m;
    fun ctx m => ConstraintFeasible ctx (allConstraints tg) m]
    [hasDrivers (tgDrivers tg) n; forallb (satisfies n) (allConstraints tg)]) as HR.
  cbn [forallb id] in HR. rewrite andb_true_r in HR. apply HR.
  repeat constructor; first [by apply DriverFeasible_spec | by apply ConstraintFeasible_spec].
Qed.

(** Answering for a node: the answer, and nothing but the caches changed. *)
Definition answers {A} (s : GenericStack) (r : A * GenericStack) (a : A) : Prop :=
  r.1 = a ∧ Inv r.2 ∧ quiet s r.2.

Lemma answers_ret {A} s (a : A) : Inv s → answers s (a, s) a.
Proof. done. Qed.
Lemma answers_metrics {A} s f (a : A) : Inv s → answers s (a, onMetrics f s) a.
Proof. intros HI. split_and!; simpl; auto with nomad. Qed.
Lemma answers_trans {A} s s1 r (a : A) : quiet s s1 → answers s1 r a → answers s r a.
Proof. intros Hq (E & HI & Hq'). split_and!; [done..|]. by eapply quiet_trans. Qed.

Lemma wrapperTgCheck_spec tg s n :
  Inv s → placing tg s → n ∈ known → answers s (wrapperTgCheck n s) (tgFeasible tg n).
Proof.
  intros HI Hp Hn. unfold wrapperTgCheck. cbv zeta. rewrite (pl_name tg s Hp).
  pose proof (TaskGroupStatus_ok _ tg n (in_elig s HI) (pl_group tg s Hp) Hn) as Hst.
  destruct (TaskGroupStatus _ _ _) eqn:Est; cbn [isIneligible isEligible isEscaped isUnknown];
    try (rewrite Hst; first [by apply answers_metrics | by apply answers_ret]);
    destruct (tgCheckers_spec tg s n Hp (gs_ctx s) (in_caches s HI)) as (E1 & E2 & E3);
    destruct (runChecks (tgCheckers s) (gs_ctx s) n) as [ok ctx]; cbn [fst snd] in *;
    pose proof (Inv_ctx s ctx HI E2 E3) as HI1; pose proof (quiet_ctx s ctx E3) as Hq; rewrite <- E1;
    destruct ok; cbn [negb andb]; try (split_and!; done).
  all: eapply answers_trans; [exact Hq|]; split_and!; [done| |apply quiet_elig].
  all: apply Inv_elig; [done|]. all: change (gs_wrappedTg (s <| gs_ctx := ctx |>)) with (gs_wrappedTg s).
  all: rewrite (pl_name tg s Hp), E1. all: apply SetTaskGroupEligibility_ok; try tauto; [by apply in_elig|by eapply pl_group].
Qed.

(** The wrapper returns exactly the nodes that the checks accept. *)
Lemma wrapperCheck_spec tg s n :
  Inv s → placing tg s → n ∈ known → answers s (wrapperCheck n s) (jobFeasible job n && tgFeasible tg n).
Proof.
  intros HI Hp Hn. unfold wrapperCheck. cbv zeta.
  pose proof (JobStatus_ok _ n (in_elig s HI) Hn) as Hst.
  destruct (JobStatus _ _) eqn:Est; cbn [isIneligible];
    try (rewrite Hst; by apply answers_metrics);
    destruct (jobCheckers_spec tg s n Hp (gs_ctx s) (in_caches s HI)) as (E1 & E2 & E3);
    destruct (runChecks (jobCheckers s) (gs_ctx s) n) as [ok ctx]; cbn [fst snd] in *;
    pose proof (Inv_ctx s ctx HI E2 E3) as HI1; pose proof (quiet_ctx s ctx E3) as Hq; rewrite <- E1;
    pose proof (placing_params tg s _ (q_params _ _ Hq) Hp) as Hp1;
    cbn [isEscaped isUnknown negb andb];
    (eapply answers_trans; [exact Hq|]).
  all: destruct ok; cbn [andb negb].
  all: try (by apply answers_ret).
  all: try (by apply wrapperTgCheck_spec).
  - assert (Inv (onEligibility (fun e => SetJobEligibility e true (nd_ComputedClass n)) (s <| gs_ctx := ctx |>))) as HI2.
    { apply Inv_elig; [done|]. rewrite E1. apply SetJobEligibility_ok; try tauto. by apply in_elig. }
    eapply answers_trans; [apply quiet_elig|]. apply wrapperTgCheck_spec; [done| |done].
    eapply placing_params; [|exact Hp1]. apply quiet_elig.
  - split_and!; [done| |apply quiet_elig]. apply Inv_elig; [done|]. rewrite E1.
    apply SetJobEligibility_ok; try tauto. by apply in_elig.
  - congruence.
Qed.

(** ** Iterators *)

(** The nodes the base has still to yield, in their order. *)
Definition pending (s : GenericStack) : list Node :=
  let iter := gs_source s in
  let nodes := si_nodes iter in
  take (length nodes - si_seen iter) (drop (si_offset iter) nodes ++ nodes).

Lemma length_pending s : Inv s → (length (pending s) < loopFuel s)%nat.
Proof. intros HI. unfold pending, loopFuel. rewrite length_take. lia. Qed.

(** The iterators look at the parameters of the selection, which [ref] has. *)
Context (tg : TaskGroup) (ref : GenericStack).

Record running (s : GenericStack) : Prop := {
  ru_inv : Inv s;
  ru_placing : placing tg s;
  ru_params : params s = params ref
}.

Lemma running_quiet s s' : quiet s s' → Inv s' → running s → running s'.
Proof. intros [Hp _] HI [_ Hpl E]. split; [done| |congruence]. by eapply placing_params. Qed.

Definition outer (s : GenericStack) := (gs_limit s, gs_max s).

(** An iterator goes through the nodes of the base in their order; the nodes it
    passes over are rejected, what it yields is accepted, and it ends when there
    are no more nodes. *)
Definition consumes {A} (node : A → Node) (acc : A → Prop) (rej : Node → Prop) (next : nextFn A) : Prop :=
  ∀ s, running s → ∃ r s' skipped,
    next s = Some (r, s') ∧ running s' ∧ outer s' = outer s ∧ Forall rej skipped ∧
    match r with
    | Some x => acc x ∧ pending s = skipped ++ node x :: pending s'
    | None => pending s = skipped ∧ pending s' = []
    end.

Lemma consumes_base : consumes id (fun n => n ∈ si_nodes (gs_source ref)) (fun _ => False) StaticNext.
Proof.
  intros s [HI Hpl Hpar]. unfold StaticNext.
  destruct HI as [H1 H2 Hoff Hseen Hkn Hpool]. destruct s as [b ctx [nodes off seen] ? ? ? ? ? ? ? ? ? ? ? ?].
  unfold pending, outer, params in *. cbn [gs_source si_nodes si_offset si_seen] in *.
  destruct (Nat.eqb_spec seen (length nodes)) as [->|Hne].
  { rewrite orb_true_r. eexists None, _, []. split; [done|].
    split; [by split; [split|..]|]. split; [done|]. split; [constructor|].
    cbn [gs_source si_nodes si_offset si_seen]. by rewrite Nat.sub_diag. }
  rewrite andb_false_r, orb_false_r. cbn [negb].
  set (offset := if (off =? length nodes)%nat then 0%nat else off).
  assert (offset < length nodes)%nat as Hlt.
  { unfold offset. destruct (Nat.eqb_spec off (length nodes)); lia. }
  destruct (lookup_lt_is_Some_2 nodes offset Hlt) as [node Hnode]. rewrite Hnode. cbn [mbind option_bind].
  eexists (Some node), _, []. split; [done|]. split; [|split; [done|split; [constructor|split]]].
  - split.
    + split; try done; simpl; lia.
    + by destruct Hpl.
    + etrans; [|exact Hpar]. done.
  - cbn [id]. injection Hpar as <- _ _ _ _ _ _ _ _ _ _ _. by eapply list_elem_of_lookup_2.
  - assert (∃ rest, drop off nodes ++ nodes = node :: drop (S offset) nodes ++ rest ∧
      take (length nodes - S seen) (drop (S offset) nodes ++ rest) =
      take (length nodes - S seen) (drop (S offset) nodes ++ nodes)) as (rest & E & Et).
    { unfold offset in *. destruct (Nat.eqb_spec off (length nodes)) as [->|].
      - exists []. rewrite drop_all, app_nil_r. cbn [app]. rewrite <- (drop_S nodes node 0 Hnode).
        split; [done|]. rewrite take_app_le; [done|]. rewrite length_drop. lia.
      - exists nodes. split; [|done]. by rewrite (drop_S nodes node off Hnode). }
    rewrite E. replace (length nodes - seen)%nat with (S (length nodes - S seen)) by lia.
    cbn [take app id]. by rewrite Et.
Qed.

(** A loop over a source that keeps some of what it yields. *)
Lemma consumes_filter {A B} (node : A → Node) acc rej src (node' : B → Node) (acc' : B → Prop) (rej' : Node → Prop) keep :
  consumes node acc rej src → (∀ n, rej n → rej' n) →
  (∀ x s, running s → acc x → node x ∈ known → ∃ r s',
     keep x s = Some (r, s') ∧ Inv s' ∧ quiet s s' ∧
     match r with Some y => node' y = node x ∧ acc' y | None => rej' (node x) end) →
  consumes node' acc' rej' (fun s => filterLoop (loopFuel s) src keep s).
Proof.
  intros Hsrc Hrej Hkeep.
  assert (∀ fuel s, running s → (length (pending s) < fuel)%nat → ∃ r s' skipped,
    filterLoop fuel src keep s = Some (r, s') ∧ running s' ∧ outer s' = outer s ∧ Forall rej' skipped ∧
    match r with
    | Some x => acc' x ∧ pending s = skipped ++ node' x :: pending s'
    | None => pending s = skipped ∧ pending s' = []
    end) as Hloop; [|intros s Hs; apply Hloop; [done|apply length_pending, Hs]].
  induction fuel as [|fuel IH]; intros s Hs Hf; [lia|]. cbn [filterLoop].
  destruct (Hsrc s Hs) as (r & s1 & skip & -> & Hs1 & Ho1 & Hskip & Hr). cbn [mbind option_bind].
  assert (Forall rej' skip) as Hskip' by (eapply Forall_impl; eauto).
  destruct r as [x|]; [|exists None, s1, skip; auto].
  destruct Hr as [Hacc Epend].
  assert (node x ∈ known) as Hx.
  { destruct Hs as [HI _ _]. apply (in_known s HI). unfold pending in Epend.
    assert (node x ∈ take (length (si_nodes (gs_source s)) - si_seen (gs_source s))
      (drop (si_offset (gs_source s)) (si_nodes (gs_source s)) ++ si_nodes (gs_source s))) as Hin
      by (rewrite Epend; solve_in).
    apply subseteq_take, elem_of_app in Hin as [Hin|Hin]; [by apply subseteq_drop in Hin|done]. }
  destruct (Hkeep x s1 Hs1 Hacc Hx) as (r & s2 & -> & HI2 & Hq & Hr). cbn [mbind option_bind].
  pose proof (running_quiet s1 s2 Hq HI2 Hs1) as Hs2.
  assert (pending s2 = pending s1 ∧ outer s2 = outer s1) as [Ep Eo].
  { destruct Hq as [_ Hpr]. unfold progress in Hpr. unfold pending, outer. injection Hpr as -> -> ->. done. }
  destruct r as [y|].
  - destruct Hr as [En Ha]. exists (Some y), s2, skip. split_and!; try done; [congruence|]. by rewrite En, Ep.
  - destruct (IH s2 Hs2) as (r & s' & skip2 & -> & Hs' & Ho & Hskip2 & Hr2).
    { rewrite Ep. rewrite Epend, length_app in Hf. simpl in Hf. lia. }
    exists r, s', (skip ++ node x :: skip2). split_and!; try done; [congruence| |].
    + apply Forall_app. split; [done|]. by constructor.
    + rewrite Ep in Hr2. rewrite Epend. destruct r as [z|].
      * destruct Hr2 as [Hz ->]. split; [done|]. by rewrite <- app_assoc.
      * by destruct Hr2 as [-> ?].
Qed.

(** ** The feasible nodes *)

Definition feasible (n : Node) : bool := jobFeasible job n && tgFeasible tg n.

Lemma consumes_wrapper :
  consumes id (fun n => feasible n = true) (fun n => feasible n = false) (WrapperNext StaticNext).
Proof.
  apply (consumes_filter id _ _ _ _ _ _ _ consumes_base); [done|]. intros n s [HI Hpl _] _ Hn. unfold keepIf.
  destruct (wrapperCheck_spec tg s n HI Hpl Hn) as (E & HI' & Hq). destruct (wrapperCheck n s) as [ok s']. simpl in *.
  eexists _, s'. split_and!; [done..|]. unfold feasible. by destruct ok.
Qed.

(** No allocation of the job that must not share the node is proposed for it. *)
Definition hostFree (n : Node) : Prop :=
  hasDistinctHostsConstraint (jb_Constraints job) || hasDistinctHostsConstraint (tg_Constraints tg) = true →
  ∃ proposed, ProposedAllocs rangeAllocs (gs_ctx ref) (nd_ID n) = inr proposed ∧
    ∀ alloc, alloc ∈ proposed → al_JobID alloc = jb_ID job →
      hasDistinctHostsConstraint (jb_Constraints job) = false ∧ al_TaskGroup alloc ≠ tg_Name tg.

Definition hostsIter : DistinctHostsIterator :=
  mkDistinctHostsIterator (Some tg) (Some job) (hasDistinctHostsConstraint (tg_Constraints tg))
    (hasDistinctHostsConstraint (jb_Constraints job)).

Lemma noCollision_spec proposed :
  ∃ ok, noCollision hostsIter proposed = Some ok ∧
    (ok = true ↔ ∀ alloc, alloc ∈ proposed → al_JobID alloc = jb_ID job →
       hasDistinctHostsConstraint (jb_Constraints job) = false ∧ al_TaskGroup alloc ≠ tg_Name tg).
Proof.
  induction proposed as [|a proposed (ok & E & IH)]; simpl.
  { exists true. split; [done|]. split; [|done]. intros _ alloc []%elem_of_nil. }
  rewrite E. setoid_rewrite elem_of_cons.
  destruct (hasDistinctHostsConstraint (jb_Constraints job)) eqn:Eh; simpl; repeat case_bool_decide; simpl;
    (eexists; split; [done|]); rewrite ?IH; clear IH E; naive_solver.
Qed.

Lemma ProposedAllocs_same range ctx ctx' id :
  ec_state ctx' = ec_state ctx → ec_plan ctx' = ec_plan ctx → ProposedAllocs range ctx' id = ProposedAllocs range ctx id.
Proof. unfold ProposedAllocs. by intros -> ->. Qed.

Lemma params_proposed s id :
  params s = params ref → ProposedAllocs rangeAllocs (gs_ctx s) id = ProposedAllocs rangeAllocs (gs_ctx ref) id.
Proof. intros [= _ _ _ _ _ _ _ _ _ ? ? _]. by apply ProposedAllocs_same. Qed.

Lemma consumes_hosts rej src :
  gs_distinctHosts ref = hostsIter →
  consumes id (fun n => feasible n = true) rej src →
  consumes id (fun n => feasible n = true ∧ hostFree n) (fun n => rej n ∨ ¬ hostFree n) (HostsNext src).
Proof.
  intros Hh Hsrc. apply (consumes_filter id _ _ _ _ _ _ _ Hsrc); [by left|]. intros n s [HI Hpl Hpar] Hf Hn. cbn [id] in *.
  assert (gs_distinctHosts s = hostsIter) as Eh by (injection Hpar; congruence).
  unfold hostsKeep, satisfiesDistinctHosts. rewrite Eh. cbn [dh_jobDistinctHosts dh_tgDistinctHosts hostsIter].
  unfold hostFree. destruct (_ || _); cbn [negb]; [|eexists _, s; by split_and!].
  rewrite (params_proposed s _ Hpar).
  destruct (ProposedAllocs rangeAllocs (gs_ctx ref) (nd_ID n)) as [err|proposed] eqn:Ep.
  { eexists None, _. split_and!; auto with nomad.
    right. intros Hc. destruct (Hc eq_refl) as (? & ? & _). congruence. }
  destruct (noCollision_spec proposed) as ([] & -> & Hok); cbn [mbind option_bind].
  - eexists (Some n), s. split_and!; try done. intros _. exists proposed. split; [done|]. by apply Hok.
  - eexists None, _. split_and!; auto with nomad.
    right. intros Hc. destruct (Hc eq_refl) as (p & Hp & Hc'). assert (p = proposed) as -> by congruence. apply Hok in Hc'. done.
Qed.

(** The values of the distinct properties that the node would add are allowed. *)
Definition propertiesFree (n : Node) : Prop :=
  dp_hasConstraints (gs_distinctProperty ref) = true →
  ∀ ps, ps ∈ dp_jobPropertySets (gs_distinctProperty ref) ++
             default [] (dp_groupPropertySets (gs_distinctProperty ref) !! tg_Name tg) →
    (SatisfiesDistinctProperties ps n).1 = true.

Lemma satisfiesProperties_spec n sets : ∀ s,
  Inv s → ∃ ok s', satisfiesProperties n sets s = (ok, s') ∧ Inv s' ∧ quiet s s' ∧
    (ok = true ↔ ∀ ps, ps ∈ sets → (SatisfiesDistinctProperties ps n).1 = true).
Proof.
  induction sets as [|ps sets IH]; intros s HI; simpl.
  { eexists true, s. split_and!; try done. split; [|done]. by intros _ ps ?%elem_of_nil. }
  setoid_rewrite elem_of_cons. destruct (SatisfiesDistinctProperties ps n) as [[] reason] eqn:E.
  - destruct (IH s HI) as (ok & s' & E' & HI' & Hq & Hok). exists ok, s'. split_and!; try done.
    rewrite Hok. split; [|by auto]. intros Hall ps' [->|Hin]; [by rewrite E|by apply Hall].
  - eexists false, _. split_and!; auto with nomad.
    split; [done|]. intros Hall. specialize (Hall ps (or_introl eq_refl)). by rewrite E in Hall.
Qed.

Lemma consumes_properties acc rej src :
  dp_tg (gs_distinctProperty ref) = Some tg →
  consumes id acc rej src →
  consumes id (fun n => acc n ∧ propertiesFree n) (fun n => rej n ∨ ¬ propertiesFree n) (PropertyNext src).
Proof.
  intros Htg Hsrc. apply (consumes_filter id _ _ _ _ _ _ _ Hsrc); [by left|]. intros n s [HI Hpl Hpar] Hf Hn. cbn [id] in *.
  assert (gs_distinctProperty s = gs_distinctProperty ref) as Ed by (injection Hpar; congruence).
  unfold propertyKeep. rewrite Ed. unfold propertiesFree.
  destruct (dp_hasConstraints _) eqn:Ec; cbn [negb]; [|eexists _, s; by split_and!].
  destruct (satisfiesProperties_spec n (dp_jobPropertySets (gs_distinctProperty ref)) s HI)
    as (ok & s1 & -> & HI1 & Hq1 & Hok1).
  destruct ok; cbn [negb]; [|eexists None, s1; split; [done|]; split; [done|]; split; [done|]].
  2:{ right. intros Hc. enough (false = true) by done. apply Hok1. intros ps Hps. apply Hc; [done|]. apply elem_of_app; auto. }
  rewrite Htg. cbn [mbind option_bind].
  destruct (satisfiesProperties_spec n (default [] (dp_groupPropertySets (gs_distinctProperty ref) !! tg_Name tg)) s1 HI1)
    as (ok & s2 & -> & HI2 & Hq2 & Hok2).
  eexists _, s2. split; [done|]. split; [done|]. split; [by eapply quiet_trans|]. destruct ok.
  - split_and!; try done. intros _ ps [Hps|Hps]%elem_of_app; [by apply Hok1|by apply Hok2].
  - right. intros Hc. enough (false = true) by done. apply Hok2. intros ps Hps. apply Hc; [done|]. apply elem_of_app; auto.
Qed.

Lemma consumes_rank acc rej src :
  consumes id acc rej src →
  consumes rn_Node (fun r => acc (rn_Node r) ∧ r = mkRankedNode (rn_Node r) (f64 0) ∅ None) rej (RankNext src).
Proof.
  intros Hsrc s Hs. destruct (Hsrc s Hs) as (r & s' & skip & E & Hr). unfold RankNext. rewrite E.
  destruct r as [n|]; eexists _, s', skip; (split; [done|]); [|done].
  destruct Hr as (? & ? & ? & ? & ?). by split_and!.
Qed.
End spec.

#[export] Hint Resolve quiet_refl quiet_metrics quiet_elig Inv_metrics : nomad.
