(* ===== verification/StackPack.v ===== *)
(** * What the bin packing accepts

    The bin packing of a node either assigns every task its resources, with networks
    that collide with nothing on the node, such that the node has room for them and
    everything proposed for it, or passes the node over. *)

From stdpp Require Import base gmap strings list.
From Stdlib Require Import ZArith Lia.
From S2P Require Import Prelude GoText GoHeap Bitmap Structs Resources Jobs Allocs Network NetworkAssign NetworkAssignProps Fit Plans SchedContext Feasible Stack StackSpec.
Open Scope string_scope.
Open Scope list_scope.
Open Scope Z_scope.

#[local] Arguments NewBitmap : simpl never.

Section pack.
Context `{TextLibs} `{StackLibs}.
Context (rangeTasks_perm : ∀ m, rangeTasks m ≡ₚ vals m).
Context (intn_range : ∀ k n, 0 < n → 0 ≤ intn k n < n).

(** ** The tasks of a group *)

(** What a task is granted: what it asks for, with an offer for its first network. *)
Definition grants (task : Task) (r : Resources) : Prop :=
  match r_Networks (tk_Resources task) with
  | [] => r = tk_Resources task
  | ask :: _ => ∃ offer idx, r = (tk_Resources task) <| r_Networks := [offer] |> ∧ answersAsk ParseCIDR ipString idx ask offer
  end.

Definition firstNetworks (rs : list Resources) : list NetworkResource :=
  flat_map (fun r => match r_Networks r with [] => [] | n :: _ => [n] end) rs.

(** The ports that an ask reserves are different. *)
Definition asks_ok (tasks : list Task) : Prop :=
  ∀ task ask rest, task ∈ tasks → r_Networks (tk_Resources task) = ask :: rest →
    NoDup (p_Value <$> nr_ReservedPorts ask).

Definition setResources (opt : RankedNode) (tasks : list Task) (granted : list Resources) : RankedNode :=
  foldl (fun opt tr => SetTaskResources opt tr.1 tr.2) opt (zip tasks granted).

Lemma assignTasks_spec tasks : ∀ idx opt total rand,
  sizes_ok idx → (∀ n, n ∈ AvailNetworks idx → walkable ParseCIDR n) →
  ∃ rand' out, assignTasks tasks idx opt total rand = Some (rand', out) ∧
    match out with
    | inl (err, idx') => sizes_ok idx' ∧ ∃ done granted task ask rest todo k st,
        tasks = done ++ task :: todo ∧ Forall2 grants done granted ∧ r_Networks (tk_Resources task) = ask :: rest ∧
        AvailBandwidth idx' = AvailBandwidth idx ∧
        (asks_ok tasks → ∀ ns, holds idx ns → holds idx' (ns ++ firstNetworks granted)) ∧
        AssignNetwork intn ParseCIDR ipString idx' ask k = Some (Some st) ∧ st_out st = None
    | inr (idx', opt', total') => ∃ granted,
        Forall2 grants tasks granted ∧ sizes_ok idx' ∧ AvailBandwidth idx' = AvailBandwidth idx ∧
        opt' = setResources opt tasks granted ∧
        total' = foldl (fun t r => Add t (Some r)) total granted ∧
        (asks_ok tasks → ∀ ns, holds idx ns → holds idx' (ns ++ firstNetworks granted))
    end.
Proof.
  induction tasks as [|task tasks IH]; intros idx opt total rand Hsz Hw; cbn [assignTasks].
  { eexists _, _. split; [done|]. exists []. split_and!; try done. intros _ ns Hh. by rewrite app_nil_r. }
  assert (asks_ok (task :: tasks) → asks_ok tasks) as Hao.
  { intros Ha t a rest Ht. apply (Ha t a rest). by right. }
  destruct (r_Networks (tk_Resources task)) as [|ask rest] eqn:En.
  - destruct (IH idx (SetTaskResources opt task (tk_Resources task)) (Add total (Some (tk_Resources task))) rand Hsz Hw)
      as (rand' & out & E & Hout). eexists rand', out. split; [exact E|].
    destruct out as [[err idx']|[[idx' opt'] total']].
    + destruct Hout as (? & before & granted & t & a & l & todo & k & st & -> & Hg & ? & ? & Hh & ? & ?). split; [done|].
      exists (task :: before), (tk_Resources task :: granted), t, a, l, todo, k, st. split_and!; try done.
      * constructor; [unfold grants; by rewrite En|done].
      * intros Ha ns Hns. unfold firstNetworks. simpl. rewrite En. simpl. by apply Hh; [apply Hao|].
    + destruct Hout as (granted & Hg & ? & ? & -> & -> & Hh). exists (tk_Resources task :: granted).
      split_and!; try done.
      * constructor; [unfold grants; by rewrite En|done].
      * intros Ha ns Hns. unfold firstNetworks. simpl. rewrite En. simpl. by apply Hh; [apply Hao|].
  - destruct (AssignNetwork_spec intn ParseCIDR ipString idx ask rand intn_range Hsz Hw) as (st & Est & Hst).
    rewrite Est. cbn [mjoin option_join mbind option_bind].
    destruct Hst as [(_ & Eout & _)|(offer & idx1 & c & _ & -> & Hans & Eadd & Hsz1 & Hh1)].
    { rewrite Eout. eexists _, _. split; [done|]. cbn beta iota. split; [done|].
      exists [], [], task, ask, rest, tasks, rand, st. split_and!; try done. intros _ ns Hns. by rewrite app_nil_r. }
    rewrite Eadd. cbn [mbind option_bind fst].
    destruct (AddReserved_avail idx offer idx1 c Eadd) as [Ean Eab].
    set (r := (tk_Resources task) <| r_Networks := [offer] |>).
    destruct (IH idx1 (SetTaskResources opt task r) (Add total (Some r)) (st_draws st) Hsz1) as (rand' & out & E & Hout).
    { by rewrite Ean. }
    assert (grants task r) as Hgr by (unfold grants; rewrite En; by exists offer, idx).
    assert (∀ granted idx', (asks_ok tasks → ∀ ns, holds idx1 ns → holds idx' (ns ++ firstNetworks granted)) →
      asks_ok (task :: tasks) → ∀ ns, holds idx ns → holds idx' (ns ++ firstNetworks (r :: granted))) as Hmore.
    { intros granted idx' Hh Ha ns Hns. destruct (Hh1 (Ha task ask rest ltac:(by left) En) ns Hns) as [_ Hns1].
      specialize (Hh (Hao Ha) _ Hns1). by rewrite <- app_assoc in Hh. }
    eexists rand', out. split; [exact E|]. destruct out as [[err idx']|[[idx' opt'] total']].
    + destruct Hout as (? & before & granted & t & a & l & todo & k & st' & -> & Hg & ? & ? & Hh & ? & ?). split; [done|].
      exists (task :: before), (r :: granted), t, a, l, todo, k, st'. split_and!; try done; [by constructor|congruence|by apply Hmore].
    + destruct Hout as (granted & Hg & ? & ? & -> & -> & Hh). exists (r :: granted).
      split_and!; try done; [by constructor|congruence|by apply Hmore].
Qed.

(** The resources of the tasks of a placement, by name. *)
Definition taskResources (tasks : list Task) (granted : list Resources) : gmap string Resources :=
  foldl (fun m tr => <[tk_Name tr.1 := tr.2]> m) ∅ (zip tasks granted).

Lemma setResources_parts tasks granted : ∀ opt,
  rn_Node (setResources opt tasks granted) = rn_Node opt ∧
  rn_Proposed (setResources opt tasks granted) = rn_Proposed opt ∧
  rn_TaskResources (setResources opt tasks granted) =
    foldl (fun m tr => <[tk_Name tr.1 := tr.2]> m) (rn_TaskResources opt) (zip tasks granted).
Proof.
  unfold setResources. induction (zip tasks granted) as [|tr l IH]; intros opt; [done|]. cbn [foldl].
  by destruct (IH (SetTaskResources opt tr.1 tr.2)) as (-> & -> & ->).
Qed.

Lemma taskResources_vals tasks granted :
  NoDup (tk_Name <$> tasks) → length granted = length tasks → vals (taskResources tasks granted) ≡ₚ granted.
Proof.
  intros Hnd Hlen. unfold taskResources.
  assert (∀ m : gmap string Resources, (∀ t, t ∈ tasks → m !! tk_Name t = None) →
    vals (foldl (fun m tr => <[tk_Name tr.1 := tr.2]> m) m (zip tasks granted)) ≡ₚ vals m ++ granted) as Hgo.
  { revert granted Hlen Hnd. induction tasks as [|t tasks IH]; intros [|r granted] [=] Hnd m Hm; simpl.
    { by rewrite app_nil_r. }
    apply NoDup_cons in Hnd as [Ht Hnd]. rewrite IH; try done.
    - rewrite vals_insert by (apply Hm; left). by rewrite <- Permutation_middle.
    - intros t' Ht'. rewrite lookup_insert_ne; [apply Hm; by right|].
      intros E. apply Ht. rewrite E. by apply list_elem_of_fmap_2. }
  rewrite Hgo; [|intros; apply lookup_empty]. by rewrite vals_empty.
Qed.

(** The allocation that the schedulers build from a placement. *)
Definition placedAlloc (tg : TaskGroup) (tasks : gmap string Resources) : Allocation :=
  zeroAllocation <| al_TaskResources := Some tasks |>
    <| al_SharedResources := Some (zeroResources <| r_DiskMB := from_option ed_SizeMB 0 (tg_EphemeralDisk tg) |>) |>.

(** ** The index of a node *)

Lemma addReservedAll_avail ms : ∀ idx c idx' c',
  addReservedAll idx ms c = Some (idx', c') → AvailNetworks idx' = AvailNetworks idx.
Proof.
  induction ms as [|m ms IH]; intros idx c idx' c'; simpl; [by intros [= <- _]|].
  destruct (AddReserved idx m) as [[idx1 c1]|] eqn:E; [|done]. simpl. intros ->%IH.
  by apply AddReserved_avail in E as [? _].
Qed.

Lemma SetNode_networks nets n : ∀ idx : NetworkIndex,
  n ∈ AvailNetworks (foldl (fun idx n =>
      if bool_decide (nr_Device n = "") then idx
      else idx <| AvailNetworks ::= fun l => l ++ [n] |>
               <| AvailBandwidth := <[nr_Device n := nr_MBits n]> (AvailBandwidth idx) |>) idx nets) →
  n ∈ AvailNetworks idx ∨ n ∈ nets.
Proof.
  induction nets as [|m nets IH]; intros idx; simpl; [by left|]. rewrite elem_of_cons. intros [Hin|?]%IH; [|by auto].
  case_bool_decide; [by left|]. simpl in Hin. apply elem_of_app in Hin as [?| ->%list_elem_of_singleton]; auto.
Qed.

Lemma ports_free_app ns ms : ports_free (ns ++ ms) → ports_free ns.
Proof.
  intros [Hv Hnd]. split; [intros n Hn; apply Hv, elem_of_app; by left|].
  rewrite claims_app in Hnd. by apply NoDup_app in Hnd as [? _].
Qed.

(** The index that the bin packing builds holds what is in use, unless that collides. *)
Lemma nodeIndex_spec node proposed pool :
  pool_ok pool →
  ∃ r1 r2, SetNode (NewNetworkIndex pool) node = Some r1 ∧ AddAllocs rangeTasks r1.1 proposed = Some r2 ∧
    sizes_ok r2.1 ∧ (∀ n, n ∈ AvailNetworks r2.1 → n ∈ r_Networks (nd_Resources node)) ∧
    (∀ dev, default 0 (AvailBandwidth r2.1 !! dev) = availBandwidth node dev) ∧
    (ports_free (usedNetworks node proposed) → holds r2.1 (usedNetworks node proposed)).
Proof.
  intros Hpool. unfold SetNode, AddAllocs, usedNetworks. set (idx0 := foldl _ _ _).
  destruct (SetNode_avail node (NewNetworkIndex pool) "") as (_ & E1 & E2 & E3). fold idx0 in E1, E2, E3.
  assert (∀ dev, default 0 (AvailBandwidth idx0 !! dev) = availBandwidth node dev) as Hav
    by (intros dev; apply (SetNode_avail node (NewNetworkIndex pool))).
  assert (holds idx0 []) as Hh0 by (destruct (holds_New pool); split; rewrite ?E1, ?E2; done).
  assert (sizes_ok idx0) as Hs0 by (split; [by rewrite E3|by rewrite E1]).
  assert (∀ n, n ∈ AvailNetworks idx0 → n ∈ r_Networks (nd_Resources node)) as Hnet
    by (intros n [[]%elem_of_nil|?]%SetNode_networks; done).
  assert (∃ idx1 c1, match nd_Reserved node with
      | Some r => addReservedAll idx0 (r_Networks r) false | None => Some (idx0, false) end = Some (idx1, c1) ∧
    sizes_ok idx1 ∧ AvailBandwidth idx1 = AvailBandwidth idx0 ∧ AvailNetworks idx1 = AvailNetworks idx0 ∧
    (ports_free (from_option r_Networks [] (nd_Reserved node)) →
       holds idx1 (from_option r_Networks [] (nd_Reserved node)))) as (idx1 & c1 & E & Hs1 & HA1 & HN1 & Hh1).
  { destruct (nd_Reserved node) as [r|]; simpl; [|by exists idx0, false].
    destruct (addReservedAll_spec (r_Networks r) idx0 false Hs0) as (idx1 & c & E & Hs & HA & _ & Hn).
    destruct (Hn [] Hh0 eq_refl) as [H1' H2']. exists idx1, c. split_and!; try done; [by eapply addReservedAll_avail|].
    intros Hf. by apply H2', H1'. }
  destruct (addReservedAll_spec (allocNetworks rangeTasks proposed) idx1 false Hs1) as (idx2 & c2 & E' & Hs2 & HA2 & _ & Hn).
  rewrite E. eexists _, (idx2, c2). split; [done|]. simpl. split; [exact E'|]. split; [done|]. split; [|split].
  - intros n. rewrite (addReservedAll_avail _ _ _ _ _ E'), HN1. apply Hnet.
  - intros dev. by rewrite HA2, HA1.
  - intros Hf. destruct (Hn _ (Hh1 (ports_free_app _ _ Hf)) eq_refl) as [H1' H2'].
    rewrite (allocNetworks_perm rangeTasks rangeTasks_perm proposed) in H1', H2'. by apply H2', H1'.
Qed.

(** ** The verdict *)

Section group.
Context (tg : TaskGroup) (disk : EphemeralDisk).
Context (tg_disk : tg_EphemeralDisk tg = Some disk).
Context (task_names : NoDup (tk_Name <$> tg_Tasks tg)).

Lemma placed_use granted d :
  length granted = length (tg_Tasks tg) →
  allocUse d (placedAlloc tg (taskResources (tg_Tasks tg) granted)) =
    amount (zeroResources <| r_DiskMB := ed_SizeMB disk |>) d + foldr (fun r acc => amount r d + acc) 0 granted.
Proof.
  intros Hlen. unfold allocUse, placedAlloc. simpl. rewrite tg_disk. simpl. f_equal.
  apply sum_perm, taskResources_vals; done.
Qed.

Lemma placed_networks node proposed granted :
  length granted = length (tg_Tasks tg) →
  usedNetworks node (proposed ++ [placedAlloc tg (taskResources (tg_Tasks tg) granted)]) ≡ₚ
    usedNetworks node proposed ++ firstNetworks granted.
Proof.
  intros Hlen. unfold usedNetworks, allocNetworks. rewrite flat_map_app, app_assoc. f_equiv. simpl.
  rewrite app_nil_r. apply Permutation_flat_map, taskResources_vals; done.
Qed.

#[local] Instance has_resources_dec a : Decision (has_resources a).
Proof. unfold has_resources. apply _. Defined.

Lemma addAll_amount d rs : ∀ base,
  wrap64 (amount (foldl (fun t r => Add t (Some r)) base rs) d) =
  wrap64 (amount base d + foldr (fun r acc => amount r d + acc) 0 rs).
Proof.
  induction rs as [|r rs IH]; intros base; simpl; [by rewrite Z.add_0_r|].
  by rewrite IH, Add_amount, wrap64_add, Z.add_assoc.
Qed.

(** What is in use with the sum of the group is what is in use with the placement. *)
Lemma total_use node proposed granted d :
  let total := foldl (fun t r => Add t (Some r)) (zeroResources <| r_DiskMB := ed_SizeMB disk |>) granted in
  length granted = length (tg_Tasks tg) →
  wrap64 (totalUse d node (proposed ++ [zeroAllocation <| al_Resources := Some total |>])) =
  wrap64 (totalUse d node (proposed ++ [placedAlloc tg (taskResources (tg_Tasks tg) granted)])).
Proof.
  intros total Hlen. unfold totalUse. rewrite !foldr_app. cbn [foldr]. rewrite (placed_use granted d Hlen).
  assert (∀ a b l, wrap64 a = wrap64 b →
    wrap64 (foldr (fun a acc => allocUse d a + acc) a l) = wrap64 (foldr (fun a acc => allocUse d a + acc) b l)) as Hl.
  { intros a b l Hab. induction l as [|x l IH]; simpl; [done|].
    by rewrite Z.add_comm, <- wrap64_add, IH, wrap64_add, Z.add_comm. }
  rewrite Z.add_comm, <- wrap64_add. rewrite (Hl _ (amount (zeroResources <| r_DiskMB := ed_SizeMB disk |>) d +
    foldr (fun r acc => amount r d + acc) 0 granted + 0)); [by rewrite wrap64_add, Z.add_comm|].
  change (allocUse d _) with (amount total d). rewrite !Z.add_0_r. apply addAll_amount.
Qed.

(** The verdict of [AllocsFit] on the index of the packing is that of the specification. *)
Lemma AllocsFit_packed node proposed idx granted :
  let total := foldl (fun t r => Add t (Some r)) (zeroResources <| r_DiskMB := ed_SizeMB disk |>) granted in
  let all := proposed ++ [placedAlloc tg (taskResources (tg_Tasks tg) granted)] in
  length granted = length (tg_Tasks tg) → in_range node all →
  (∀ dev, default 0 (AvailBandwidth idx !! dev) = availBandwidth node dev) →
  (ports_free (usedNetworks node proposed) → holds idx (usedNetworks node proposed ++ firstNetworks granted)) →
  ∃ r, AllocsFit rangeTasks node (proposed ++ [zeroAllocation <| al_Resources := Some total |>]) (Some idx) [] = Some r ∧
    match r with
    | inl _ => ¬ Forall has_resources proposed
    | inr (ok, _, _) => ports_free (usedNetworks node proposed) → (ok = true ↔ fits node all)
    end.
Proof.
  intros total all Hlen [Hr1 Hr2] Hav Hh. unfold AllocsFit. set (sum := proposed ++ [_]).
  destruct (decide (Forall has_resources proposed)) as [Hres|Hres].
  2:{ destruct (addUsed_error rangeTasks (Add zeroResources (nd_Reserved node)) sum) as [e ->]; [|by eexists].
      intros [? _]%Forall_app. done. }
  destruct (addUsed_spec rangeTasks rangeTasks_perm sum (Add zeroResources (nd_Reserved node))
    (fun d => from_option (fun r => amount r d) 0 (nd_Reserved node))) as (used & -> & Hu).
  { intros d. rewrite (Add_wrap _ _ _ 0); [done|by destruct d]. }
  { apply Forall_app. split; [done|]. constructor; [left; by eexists|done]. }
  assert (∀ d, amount used d = totalUse d node all) as Hamt.
  { intros d. rewrite Hu. change (wrap64 (totalUse d node sum) = totalUse d node all).
    unfold sum, total. rewrite total_use by done. apply wrap64_id, Hr1. }
  pose proof (Superset_spec (nd_Resources node) used) as Hsup. setoid_rewrite Hamt in Hsup.
  destruct (Superset (nd_Resources node) used) as [sup dimension]. simpl in Hsup.
  destruct sup; cbn [negb mbind option_bind]; eexists; (split; [done|]).
  2:{ intros _. split; [done|]. intros [Hf _]. by apply Hsup. }
  pose proof (placed_networks node proposed granted Hlen) as Hnets. fold all in Hnets.
  destruct (Overcommitted idx) eqn:Eo; intros Hfree; specialize (Hh Hfree); rewrite <- Hnets in Hh;
    pose proof (Overcommitted_spec idx _ Hh) as Hov; setoid_rewrite Hav in Hov;
    rewrite Eo in Hov; setoid_rewrite (fun dev => wrap64_id _ (Hr2 dev)) in Hov.
  - split; [done|]. intros (_ & _ & Hb). by apply Hov in Hb.
  - split; [|done]. intros _. split_and!; [by apply Hsup|by apply (h_free idx)|by apply Hov].
Qed.

Lemma AllocsFit_given node allocs idx : ∃ r, AllocsFit rangeTasks node allocs (Some idx) [] = Some r.
Proof.
  unfold AllocsFit. destruct (addUsed _ _ allocs) as [e|used]; [by eexists|].
  destruct (Superset _ used) as [[] dimension]; by eexists.
Qed.

(** ** The packing of a node *)

Context (job : Job) (known : list Node) (ref : GenericStack).
Context (ref_pack : bp_taskGroup (gs_binPack ref) = Some tg).
Context (known_walkable : ∀ n net, n ∈ known → net ∈ r_Networks (nd_Resources n) → walkable ParseCIDR net).

(** Every task is granted its resources, and the node has room for the placement. *)
Definition packed (opt : RankedNode) : Prop :=
  ∃ proposed granted,
    ProposedAllocs rangeAllocs (gs_ctx ref) (nd_ID (rn_Node opt)) = inr proposed ∧ rn_Proposed opt = Some proposed ∧
    Forall2 grants (tg_Tasks tg) granted ∧ rn_TaskResources opt = taskResources (tg_Tasks tg) granted ∧
    let all := proposed ++ [placedAlloc tg (rn_TaskResources opt)] in
    (asks_ok (tg_Tasks tg) → ports_free (usedNetworks (rn_Node opt) proposed) → in_range (rn_Node opt) all →
     fits (rn_Node opt) all).

(** A network of a task finds no place beside what is in use and was granted before. *)
Definition networkFull (n : Node) (proposed : list Allocation) : Prop :=
  ∃ idx before granted task ask rest todo k st,
    tg_Tasks tg = before ++ task :: todo ∧ Forall2 grants before granted ∧ r_Networks (tk_Resources task) = ask :: rest ∧
    (∀ dev, default 0 (AvailBandwidth idx !! dev) = availBandwidth n dev) ∧
    (asks_ok (tg_Tasks tg) → ports_free (usedNetworks n proposed) →
       holds idx (usedNetworks n proposed ++ firstNetworks granted)) ∧
    AssignNetwork intn ParseCIDR ipString idx ask k = Some (Some st) ∧ st_out st = None.

(** The placement does not fit on the node beside what is proposed for it. *)
Definition overfull (n : Node) (proposed : list Allocation) : Prop :=
  asks_ok (tg_Tasks tg) → ∃ granted, Forall2 grants (tg_Tasks tg) granted ∧
    let all := proposed ++ [placedAlloc tg (taskResources (tg_Tasks tg) granted)] in (in_range n all → ¬ fits n all).

(** Why the bin packing passes a node over. *)
Definition noRoom (n : Node) : Prop :=
  match ProposedAllocs rangeAllocs (gs_ctx ref) (nd_ID n) with
  | inl _ => True
  | inr proposed => networkFull n proposed ∨ ¬ Forall has_resources proposed ∨ overfull n proposed
  end.

Lemma Release_ok idx : sizes_ok idx → pool_ok (Release idx).
Proof.
  intros [Hp Hu]. apply Forall_app. split; [|done]. apply Forall_forall. intros b [ip Hb]%elem_of_vals. by eapply Hu.
Qed.

(** The verdict on the resources that the tasks of the group were granted. *)
Lemma verdict_spec n proposed idx granted :
  let total := foldl (fun t r => Add t (Some r)) (zeroResources <| r_DiskMB := ed_SizeMB disk |>) granted in
  let all := proposed ++ [placedAlloc tg (taskResources (tg_Tasks tg) granted)] in
  Forall2 grants (tg_Tasks tg) granted →
  (∀ dev, default 0 (AvailBandwidth idx !! dev) = availBandwidth n dev) →
  (asks_ok (tg_Tasks tg) → ports_free (usedNetworks n proposed) →
     holds idx (usedNetworks n proposed ++ firstNetworks granted)) →
  ∃ fit, AllocsFit rangeTasks n (proposed ++ [zeroAllocation <| al_Resources := Some total |>]) (Some idx) [] = Some fit ∧
    match fit with
    | inr (true, _, _) => asks_ok (tg_Tasks tg) → ports_free (usedNetworks n proposed) → in_range n all → fits n all
    | _ => ¬ Forall has_resources proposed ∨ overfull n proposed
    end.
Proof.
  intros total all Hg Hav Hh.
  assert (length granted = length (tg_Tasks tg)) as Hlen by (symmetry; by eapply Forall2_length).
  pose proof (fun Ha Hr => AllocsFit_packed n proposed idx granted Hlen Hr Hav (Hh Ha)) as Hfit.
  destruct (AllocsFit_given n (proposed ++ [zeroAllocation <| al_Resources := Some total |>]) idx) as [fit Efit].
  exists fit. split; [done|]. fold total all in Hfit. setoid_rewrite Efit in Hfit.
  destruct fit as [err|[[[] dim] util]].
  - destruct (decide (Forall has_resources proposed)); [right|by left]. intros Ha. exists granted. split; [done|].
    cbv zeta. intros Hr _. destruct (Hfit Ha Hr) as (res & [= <-] & ?). done.
  - intros Ha Hfree Hr. destruct (Hfit Ha Hr) as (res & [= <-] & Hr'). by apply Hr'.
  - right. intros Ha. exists granted. split; [done|]. cbv zeta. fold all. intros Hr Hf.
    destruct (Hfit Ha Hr) as (res & [= <-] & Hr'). apply Hr' in Hf as Hf'; [done|].
    destruct Hf as (_ & Hf & _). unfold all in Hf. rewrite (placed_networks n proposed granted Hlen) in Hf. by eapply ports_free_app.
Qed.

Lemma binPackKeep_spec opt s :
  running job known tg ref s → opt = mkRankedNode (rn_Node opt) (f64 0) ∅ None → rn_Node opt ∈ known →
  ∃ r s', binPackKeep opt s = Some (r, s') ∧ Inv job known s' ∧ quiet s s' ∧
    match r with
    | Some y => rn_Node y = rn_Node opt ∧ packed y
    | None => noRoom (rn_Node opt)
    end.
Proof.
  intros [HI Hpl Hpar] -> Hn. cbn [rn_Node] in Hn |- *. set (n := rn_Node opt) in *. clearbody n. clear opt.
  unfold binPackKeep, RankedProposed. cbn [rn_Proposed rn_Node].
  rewrite (params_proposed ref s _ Hpar).
  destruct (ProposedAllocs rangeAllocs (gs_ctx ref) (nd_ID n)) as [err|proposed] eqn:Ep.
  { eexists None, s. split; [done|]. split; [done|]. split; [done|]. unfold noRoom. by rewrite Ep. }
  destruct (nodeIndex_spec n proposed (gs_pool s) (in_pool _ _ s HI)) as (r1 & r2 & E1 & E2 & Hsz & Hnet & Hav & Hh).
  change (rn_Node ((mkRankedNode n (f64 0) ∅ None) <| rn_Proposed := Some proposed |>)) with n.
  rewrite E1. cbn [mbind option_bind]. rewrite E2. cbn [mbind option_bind].
  assert (gs_binPack s = gs_binPack ref) as -> by (injection Hpar; congruence).
  rewrite ref_pack. cbn [mbind option_bind]. rewrite tg_disk. cbn [mbind option_bind].
  destruct (assignTasks_spec (tg_Tasks tg) r2.1 ((mkRankedNode n (f64 0) ∅ None) <| rn_Proposed := Some proposed |>)
    (zeroResources <| r_DiskMB := ed_SizeMB disk |>) (gs_rand s) Hsz) as (rand' & out & -> & Hout).
  { intros net Hnet'. by eapply known_walkable, Hnet. }
  cbn [mbind option_bind fst snd]. destruct out as [[err idx']|[[idx' opt'] total']].
  - destruct Hout as (Hsz' & before & granted & t & a & l & todo & k & st & Etasks & Hg & Hnets & Hab & Hh' & Eas & Eout).
    eexists None, _. split; [done|]. split; [|split].
    + destruct HI. split; try done. by apply Release_ok.
    + done.
    + unfold noRoom. rewrite Ep. left. exists idx', before, granted, t, a, l, todo, k, st. split_and!; auto. by rewrite Hab.
  - destruct Hout as (granted & Hg & Hsz' & Hab & -> & -> & Hh').
    destruct (setResources_parts (tg_Tasks tg) granted ((mkRankedNode n (f64 0) ∅ None) <| rn_Proposed := Some proposed |>))
      as (En & Epr & Etr).
    set (opt := setResources _ _ _) in *. change (rn_Node opt = n) in En. rewrite En.
    change (rn_Proposed opt = Some proposed) in Epr. change (rn_TaskResources opt = taskResources (tg_Tasks tg) granted) in Etr.
    clearbody opt.
    destruct (verdict_spec n proposed idx' granted Hg) as (fit & Efit & Hfit); [by rewrite Hab|by auto|].
    rewrite Efit. cbn [mbind option_bind].
    assert (∀ f, Inv job known (onMetrics f (s <| gs_rand := rand' |> <| gs_pool := Release idx' |>))) as HI'.
    { intros f. apply Inv_metrics. destruct HI. split; try done. by apply Release_ok. }
    destruct fit as [err|[[[] dim] util]]; eexists _, _; (split; [done|]); (split; [by apply HI'|]);
      (split; [eapply quiet_trans; [|apply quiet_metrics]; done|]); try (unfold noRoom; rewrite Ep; by right).
    split; [done|]. exists proposed, granted. split_and!; try done; simpl; [by rewrite En|].
    rewrite En, Etr. done.
Qed.
End group.
End pack.
