(* ===== verification/StackSelect.v ===== *)
(** * What a stack selects

    The last iterators of the generic stack, the setup of a stack and the states it
    reaches. *)

From stdpp Require Import base gmap strings list.
From Stdlib Require Import ZArith Lia.
From S2P Require Import Prelude GoText GoHeap Bitmap Structs Resources Jobs Allocs Network NetworkAssign NetworkAssignProps Fit Plans SchedContext Feasible Stack StackSpec StackPack.
Open Scope string_scope.
Open Scope list_scope.
Open Scope Z_scope.

Lemma bind_of_Some {A B} (f : A → option B) x : (Some x ≫= f) = f x.
Proof. done. Qed.

(** ** The maximum *)

(** The maximum so far and one more option. *)
Definition better (best : option RankedNode) (opt : RankedNode) : option RankedNode :=
  Some match best with
       | None => opt
       | Some m => if f_lt (rn_Score m) (rn_Score opt) then opt else m
       end.

(** The maximum only grows. *)
Lemma better_grows opts : ∀ b m,
  foldl better (Some b) opts = Some m → (m = b ∨ m ∈ opts) ∧ (m = b ∨ f_lt (rn_Score b) (rn_Score m) = true).
Proof.
  induction opts as [|x opts IH]; intros b m; cbn [foldl]; [by intros [= ->]; auto|].
  unfold better at 2. setoid_rewrite elem_of_cons. destruct (f_lt (rn_Score b) (rn_Score x)) eqn:E; intros Hm;
    destruct (IH _ _ Hm) as [Hin Hlt]; [|by intuition].
  split; [by intuition|]. right. destruct Hlt as [->|Hlt]; [done|]. by eapply f_lt_trans.
Qed.

(** No option is better than the maximum. *)
Lemma better_max opts : ∀ best m,
  foldl better best opts = Some m → ∀ opt, opt ∈ opts → f_lt (rn_Score m) (rn_Score opt) = false.
Proof.
  induction opts as [|x opts IH]; intros best m; cbn [foldl]; [by intros _ opt ?%elem_of_nil|].
  intros Hm opt [->|Hopt]%elem_of_cons; [|by eapply IH]. unfold better in Hm. apply better_grows in Hm as [_ Hm].
  destruct best as [b|].
  - destruct (f_lt (rn_Score b) (rn_Score x)) eqn:E; destruct Hm as [->|Hm]; [apply f_lt_irrefl|by apply f_lt_asym|done|].
    destruct (f_lt (rn_Score m) (rn_Score x)) eqn:E'; [|done]. rewrite <- E. symmetry. by eapply f_lt_trans.
  - destruct Hm as [->|Hm]; [apply f_lt_irrefl|by apply f_lt_asym].
Qed.

Lemma better_in opts m : foldl better None opts = Some m → m ∈ opts.
Proof.
  destruct opts as [|x opts]; [done|]. cbn [foldl]. unfold better at 2. intros [[->|?] _]%better_grows; [left|by right].
Qed.

Lemma better_some opts : foldl better None opts = None → opts = [].
Proof.
  destruct opts as [|x opts]; [done|]. cbn [foldl]. unfold better at 2. generalize x. clear x.
  induction opts as [|y opts IH]; intros x; [done|]. cbn [foldl]. unfold better at 2. intros Hn. by apply IH in Hn.
Qed.

Section select.
Context `{TextLibs} `{StackLibs}.
Context (rangeTasks_perm : ∀ m, rangeTasks m ≡ₚ vals m).
Context (intn_range : ∀ k n, 0 < n → 0 ≤ intn k n < n).
Context (job : Job) (known : list Node).
Context (classes : classes_ok known) (names : NoDup (tg_Name <$> jb_TaskGroups job)).
Context (known_walkable : ∀ n net, n ∈ known → net ∈ r_Networks (nd_Resources n) → walkable ParseCIDR net).

Section chain.
Context (tg : TaskGroup) (disk : EphemeralDisk).
Context (tg_disk : tg_EphemeralDisk tg = Some disk).
Context (task_names : NoDup (tk_Name <$> tg_Tasks tg)).
Context (ref : GenericStack).
Context (ref_pack : bp_taskGroup (gs_binPack ref) = Some tg).

Lemma consumes_pack acc rej src :
  consumes job known tg ref rn_Node (fun r => acc (rn_Node r) ∧ r = mkRankedNode (rn_Node r) (f64 0) ∅ None) rej src →
  consumes job known tg ref rn_Node (fun r => acc (rn_Node r) ∧ packed tg ref r)
    (fun n => rej n ∨ noRoom tg ref n) (BinPackNext src).
Proof.
  intros Hsrc. eapply (consumes_filter job known tg ref rn_Node _ _ _ _ _ _ _ Hsrc); [by left|].
  intros opt s Hs [Hacc Hopt] Hn.
  destruct (binPackKeep_spec rangeTasks_perm intn_range tg disk tg_disk task_names job known ref ref_pack known_walkable
    opt s Hs Hopt Hn) as (r & s' & E & HI & Hq & Hr).
  exists r, s'. split_and!; try done; [apply Hq..|]. destruct r as [y|]; [|by right].
  destruct Hr as [En Hp]. by rewrite En.
Qed.

(** The penalty changes nothing but the score. *)
Lemma consumes_antiAff acc rej src :
  consumes job known tg ref rn_Node (fun r => acc (rn_Node r) ∧ packed tg ref r) rej src →
  consumes job known tg ref rn_Node (fun r => acc (rn_Node r) ∧ packed tg ref r) rej (AntiAffNext src).
Proof.
  intros Hsrc. eapply (consumes_filter job known tg ref rn_Node _ _ _ _ _ _ _ Hsrc); [done|].
  intros opt s [HI _ _] (Hacc & Hpk) Hn. destruct Hpk as (proposed & granted & E1 & E2 & E3 & E4 & Hfit).
  unfold antiAffKeep, RankedProposed. rewrite E2. destruct (0 <? _)%nat; eexists (Some _), _; (split; [done|]).
  - split; [by apply Inv_metrics|]. split; [apply quiet_metrics|]. split; [done|]. split; [done|]. by exists proposed, granted.
  - split; [done|]. split; [done|]. split; [done|]. split; [done|]. by exists proposed, granted.
Qed.

Lemma running_limit s iter : lm_limit iter = lm_limit (gs_limit s) → running job known tg ref s → running job known tg ref (s <| gs_limit := iter |>).
Proof.
  intros E [HI Hp Er]. split; [by destruct HI|by destruct Hp|]. rewrite <- Er. unfold params. simpl. by rewrite E.
Qed.
Lemma running_max s m : running job known tg ref s → running job known tg ref (s <| gs_max := m |>).
Proof. intros [HI Hp Er]. split; [by destruct HI|by destruct Hp|by rewrite <- Er]. Qed.

(** The limit passes options on until it has seen enough. *)
Lemma LimitNext_spec acc rej src s :
  consumes job known tg ref rn_Node acc rej src → running job known tg ref s →
  lm_seen (gs_limit s) ≤ lm_limit (gs_limit s) →
  ∃ r s' skip, LimitNext src s = Some (r, s') ∧ running job known tg ref s' ∧ gs_max s' = gs_max s ∧ Forall rej skip ∧
    match r with
    | Some x => acc x ∧ pending s = skip ++ rn_Node x :: pending s' ∧
        lm_seen (gs_limit s') = lm_seen (gs_limit s) + 1 ∧ lm_limit (gs_limit s') = lm_limit (gs_limit s) ∧
        lm_seen (gs_limit s) < lm_limit (gs_limit s)
    | None => lm_seen (gs_limit s) = lm_limit (gs_limit s) ∧ pending s' = pending s ∨ pending s = skip ∧ pending s' = []
    end.
Proof.
  intros Hsrc Hs Hseen. unfold LimitNext. destruct (Z.eqb_spec (lm_seen (gs_limit s)) (lm_limit (gs_limit s))) as [E|E].
  { exists None, s, []. split_and!; auto. }
  destruct (Hsrc s Hs) as (r & s1 & skip & -> & Hs1 & Ho & Hskip & Hr).
  unfold outer in Ho. injection Ho as El Em. destruct r as [x|].
  - destruct Hr as [Ha Ep]. eexists (Some x), _, skip. split; [done|]. split; [by apply running_limit|].
    split; [done|]. split; [done|]. split; [done|]. split; [done|]. cbn -[Z.add]. rewrite El. split_and!; lia.
  - exists None, s1, skip. split_and!; auto.
Qed.

(** The maximum of the options that the limit lets through. *)
Lemma maxLoop_spec acc rej src :
  consumes job known tg ref rn_Node acc rej src → ∀ fuel s,
  running job known tg ref s → lm_seen (gs_limit s) ≤ lm_limit (gs_limit s) → (length (pending s) < fuel)%nat →
  ∃ cands s', maxLoop fuel (LimitNext src) s = Some (foldl better (gs_max s) cands, s') ∧
    running job known tg ref s' ∧ Forall acc cands ∧
    lm_seen (gs_limit s) + Z.of_nat (length cands) ≤ lm_limit (gs_limit s) ∧
    (∀ n, n ∈ pending s → rej n ∨ n ∈ rn_Node <$> cands ∨ n ∈ pending s') ∧
    (∀ c, c ∈ cands → rn_Node c ∈ pending s) ∧
    (lm_seen (gs_limit s) + Z.of_nat (length cands) < lm_limit (gs_limit s) → pending s' = []).
Proof.
  intros Hsrc. induction fuel as [|fuel IH]; intros s Hs Hseen Hf; [lia|]. cbn [maxLoop].
  destruct (LimitNext_spec acc rej src s Hsrc Hs Hseen) as (r & s1 & skip & -> & Hs1 & Em & Hskip & Hr).
  rewrite Forall_forall in Hskip. cbn [mbind option_bind]. destruct r as [x|].
  - destruct Hr as (Ha & Ep & Es & El & Hlt).
    destruct (IH (s1 <| gs_max := better (gs_max s) x |>)) as (cands & s' & E & Hs' & Hacc & Hlen & Hcov & Hin & Hend);
      [by apply running_max|change (lm_seen (gs_limit s1) ≤ lm_limit (gs_limit s1)); lia| |].
    { change (pending (s1 <| gs_max := better (gs_max s) x |>)) with (pending s1).
      rewrite Ep, length_app in Hf. simpl in Hf. lia. }
    change (gs_limit (s1 <| gs_max := better (gs_max s) x |>)) with (gs_limit s1) in *.
    change (pending (s1 <| gs_max := better (gs_max s) x |>)) with (pending s1) in *. cbn [gs_max] in E.
    exists (x :: cands), s'. split_and!.
    + rewrite Em. cbn [foldl]. etrans; [|exact E]. f_equal. unfold better.
      destruct (gs_max s) as [m|]; [|done]. destruct (f_lt _ _); [done|]. rewrite <- Em. by destruct s1.
    + done.
    + by constructor.
    + cbn [length]. lia.
    + intros n. rewrite Ep, fmap_cons. rewrite !elem_of_app, !elem_of_cons. intros [?|[->|Hn%Hcov]]; [by auto..|]. tauto.
    + intros c [->|Hc%Hin]%elem_of_cons; rewrite Ep; solve_in.
    + cbn [length]. intros Hl. apply Hend. lia.
  - exists [], s1. cbn [foldl length]. rewrite Em. split_and!; try done; [lia|..].
    + intros n Hn. destruct Hr as [[_ ->]|[Er _]]; [by auto|]. left. apply Hskip. by rewrite <- Er.
    + by intros c ?%elem_of_nil.
    + destruct Hr as [[? _]|[_ ?]]; [lia|done].
Qed.
End chain.

(** ** Setting up a selection *)

(** A stack that has been given its job, and possibly nodes. *)
Record ready (s : GenericStack) : Prop := {
  rd_inv : Inv job known s;
  rd_job : gs_jobConstraint s = jb_Constraints job;
  rd_hosts : dh_job (gs_distinctHosts s) = Some job ∧
    dh_jobDistinctHosts (gs_distinctHosts s) = hasDistinctHostsConstraint (jb_Constraints job);
  rd_property : dp_job (gs_distinctProperty s) = Some job;
  rd_limit : 0 < lm_limit (gs_limit s)
}.

Lemma ready_params s s' : params s' = params s → Inv job known s' → ready s → ready s'.
Proof. unfold params. intros [= E1 E2 E3 E4 E5 E6 E7 E8 E9 E10 E11 E12] HI [_ Hj Hh Hp Hl]. split; congruence. Qed.

(** The state in which the iterators start. *)
Definition prepare (tg : TaskGroup) (s : GenericStack) : option GenericStack :=
  tgConstr ← taskGroupConstraints tg;
  prepareSelect tg tgConstr s.

Lemma pending_all s :
  (si_offset (gs_source s) ≤ length (si_nodes (gs_source s)))%nat → si_seen (gs_source s) = 0%nat →
  pending s ≡ₚ si_nodes (gs_source s).
Proof.
  intros Hoff Hseen. unfold pending. rewrite Hseen, Nat.sub_0_r.
  set (nodes := si_nodes (gs_source s)) in *. set (off := si_offset (gs_source s)) in *.
  assert (length (drop off nodes) = (length nodes - off)%nat) as Hl by apply length_drop.
  rewrite take_app_ge by lia. rewrite Hl. replace (length nodes - (length nodes - off))%nat with off by lia.
  rewrite Permutation_app_comm. by rewrite take_drop.
Qed.

Lemma PropertySetTaskGroup_spec tg s :
  dp_job (gs_distinctProperty s) = Some job →
  ∃ iter, PropertySetTaskGroup tg s = Some (s <| gs_distinctProperty := iter |>) ∧ dp_tg iter = Some tg ∧ dp_job iter = Some job.
Proof.
  intros Hj. unfold PropertySetTaskGroup. cbn zeta.
  change (dp_groupPropertySets ((gs_distinctProperty s) <| dp_tg := Some tg |>)) with (dp_groupPropertySets (gs_distinctProperty s)).
  change (dp_job ((gs_distinctProperty s) <| dp_tg := Some tg |>)) with (dp_job (gs_distinctProperty s)). rewrite Hj.
  destruct (dp_groupPropertySets (gs_distinctProperty s) !! tg_Name tg),
    (filter (fun c => c_Operand c = ConstraintDistinctProperty) (tg_Constraints tg));
    cbn [mbind option_bind]; eexists; split_and!; done.
Qed.

(** What a selection starts from and leaves as it is. *)
Definition given (s : GenericStack) := (si_nodes (gs_source s), ec_state (gs_ctx s), ec_plan (gs_ctx s)).

Lemma given_params s s' : params s' = params s → given s' = given s.
Proof. unfold params, given. intros [= E1 _ _ _ _ _ _ _ _ E2 E3 _]. congruence. Qed.

Lemma prepare_spec tg disk s :
  ready s → tg ∈ jb_TaskGroups job → tg_EphemeralDisk tg = Some disk →
  ∃ s1, prepare tg s = Some s1 ∧ running job known tg s1 s1 ∧ ready s1 ∧
    gs_distinctHosts s1 = hostsIter job tg ∧ dp_tg (gs_distinctProperty s1) = Some tg ∧
    bp_taskGroup (gs_binPack s1) = Some tg ∧ pending s1 ≡ₚ si_nodes (gs_source s) ∧
    gs_limit s1 = (gs_limit s) <| lm_seen := 0 |> ∧ gs_max s1 = None ∧ given s1 = given s.
Proof.
  intros [HI Hj [Hh1 Hh2] Hp Hl] Htg Hd. unfold prepare, taskGroupConstraints, prepareSelect. rewrite Hd. cbn [mbind option_bind].
  unfold setTaskGroup. set (s0 := HostsSetTaskGroup _ _).
  destruct (PropertySetTaskGroup_spec tg s0) as (iter & -> & E1 & E2); [done|]. cbn [mbind option_bind].
  eexists. split; [reflexivity|].
  match goal with |- running _ _ _ ?s' _ ∧ _ => assert (Inv job known s') as HI' end.
  { destruct HI as [Hc He Ho Hs Hk Hpool]. split; try done. simpl. lia. }
  split_and!; try done.
  - subst s0. unfold hostsIter. by destruct s as [? ? ? ? ? ? ? [] ? ? ? ? ? ? ?]; simpl in *; subst.
  - etrans; [apply pending_all; [apply (in_offset _ _ _ HI')|done]|done].
Qed.

(** ** The selection *)

(** What the stack asks of a node before it looks at the room on it. *)
Definition eligibleNode (tg : TaskGroup) (ref : GenericStack) (n : Node) : Prop :=
  feasible job tg n = true ∧ hostFree job tg ref n ∧ propertiesFree tg ref n.

(** Why the stack passes a node over. *)
Definition passedOver (tg : TaskGroup) (ref : GenericStack) (n : Node) : Prop :=
  feasible job tg n = false ∨ ¬ hostFree job tg ref n ∨ ¬ propertiesFree tg ref n ∨ noRoom tg ref n.

Lemma consumes_weaken {A} tg ref (node : A → Node) (acc acc' : A → Prop) (rej rej' : Node → Prop) next :
  (∀ x, acc x → acc' x) → (∀ n, rej n → rej' n) →
  consumes job known tg ref node acc rej next → consumes job known tg ref node acc' rej' next.
Proof.
  intros Ha Hr Hc s Hs. destruct (Hc s Hs) as (r & s' & skip & E & Hs' & Ho & Hskip & Hx).
  exists r, s', skip. split_and!; try done; [by eapply Forall_impl|]. destruct r; [|done]. naive_solver.
Qed.

Lemma consumes_generic tg disk ref :
  tg_EphemeralDisk tg = Some disk → NoDup (tk_Name <$> tg_Tasks tg) →
  gs_distinctHosts ref = hostsIter job tg → dp_tg (gs_distinctProperty ref) = Some tg →
  bp_taskGroup (gs_binPack ref) = Some tg →
  consumes job known tg ref rn_Node (fun r => eligibleNode tg ref (rn_Node r) ∧ packed tg ref r) (passedOver tg ref)
    (AntiAffNext packedNext).
Proof.
  intros Hd Hn Hh Hp Hb. pose proof (consumes_wrapper job known classes names tg ref) as Hw.
  apply (consumes_hosts job known tg ref _ _ Hh) in Hw. apply (consumes_properties job known tg ref _ _ _ Hp) in Hw.
  apply (consumes_weaken tg ref id _ (eligibleNode tg ref) _
    (fun n => feasible job tg n = false ∨ ¬ hostFree job tg ref n ∨ ¬ propertiesFree tg ref n)) in Hw;
    [|unfold eligibleNode; tauto|tauto].
  apply consumes_rank in Hw. apply (consumes_pack tg disk Hd Hn ref Hb) in Hw. apply consumes_antiAff.
  eapply consumes_weaken; [intros x Hx; exact Hx| |exact Hw]. unfold passedOver. tauto.
Qed.

(** The tasks of a group of the job have different names, and the group has a disk. *)
Definition group_ok (tg : TaskGroup) : Prop :=
  tg ∈ jb_TaskGroups job ∧ is_Some (tg_EphemeralDisk tg) ∧ NoDup (tk_Name <$> tg_Tasks tg).

Lemma ensureResources_packed tg ref opt : NoDup (tk_Name <$> tg_Tasks tg) → packed tg ref opt → ensureResources tg opt = opt.
Proof.
  intros Hn (proposed & granted & _ & _ & Hg & Et & _). unfold ensureResources.
  assert (length granted = length (tg_Tasks tg)) as Hlen by (symmetry; by eapply Forall2_length).
  rewrite Et, <- length_vals, (taskResources_vals _ _ Hn Hlen), Hlen, Nat.eqb_refl. done.
Qed.

Lemma Select_eq tg elapsed s ref disk opt s1 :
  tg_EphemeralDisk tg = Some disk → prepare tg s = Some ref → genericNext ref = Some (opt, s1) →
  ∃ size, Select tg elapsed s = Some (option_map (ensureResources tg) opt, size, storeTime elapsed s1).
Proof.
  intros Hd Ep E. unfold prepare in Ep. unfold Select.
  destruct (taskGroupConstraints tg) as [c|] eqn:Ec; [|done].
  rewrite bind_of_Some in Ep. rewrite bind_of_Some, Ep, bind_of_Some, E, bind_of_Some. by eexists.
Qed.

(** A selection returns; its node is the best of at most the limit of candidates, and
    nothing is returned only when every node was passed over. *)
Lemma Select_spec tg elapsed s :
  ready s → group_ok tg →
  ∃ ref r size s' cands,
    prepare tg s = Some ref ∧ Select tg elapsed s = Some (r, size, s') ∧ ready s' ∧
    r = foldl better None cands ∧ Z.of_nat (length cands) ≤ lm_limit (gs_limit s) ∧
    (∀ opt, opt ∈ cands → rn_Node opt ∈ si_nodes (gs_source s) ∧ eligibleNode tg ref (rn_Node opt) ∧ packed tg ref opt) ∧
    (Z.of_nat (length cands) < lm_limit (gs_limit s) → ∀ n, n ∈ si_nodes (gs_source s) →
       n ∈ rn_Node <$> cands ∨ passedOver tg ref n) ∧
    given ref = given s ∧ given s' = given s.
Proof.
  intros Hr (Htg & [disk Hd] & Hn). destruct (prepare_spec tg disk s Hr Htg Hd)
    as (ref & Ep & Hrun & Hready & H1 & H2 & H3 & Hpend & Hlim & Hmax & Hgiv).
  pose proof (consumes_generic tg disk ref Hd Hn H1 H2 H3) as Hc.
  assert (lm_limit (gs_limit ref) = lm_limit (gs_limit s) ∧ lm_seen (gs_limit ref) = 0) as [El Hseen] by by rewrite Hlim.
  destruct (maxLoop_spec tg ref _ _ _ Hc (loopFuel ref) ref Hrun) as (cands & s1 & E & Hrun1 & Hacc & Hlen & Hcov & Hin & Hend);
    [pose proof (rd_limit ref Hready); lia|apply (length_pending job known), Hrun|].
  assert (genericNext ref = Some (foldl better None cands, s1)) as Egen.
  { unfold genericNext, MaxScoreNext. rewrite Hmax. by rewrite E, Hmax. }
  destruct (Select_eq tg elapsed s ref disk _ _ Hd Ep Egen) as [size Esel].
  assert (option_map (ensureResources tg) (foldl better None cands) = foldl better None cands) as Eopt.
  { destruct (foldl better None cands) as [m|] eqn:Em; [|done]. simpl. f_equal.
    eapply (ensureResources_packed tg ref); [done|]. apply better_in in Em. by eapply Forall_forall in Hacc as [_ ?]. }
  rewrite Eopt in Esel.
  eexists ref, _, _, _, cands. split; [done|]. split; [exact Esel|]. split; [|split; [done|split; [lia|split; [|split; [|split; [done|]]]]]].
  - eapply (ready_params ref); [|by apply Inv_metrics, Hrun1|done]. rewrite <- (ru_params _ _ _ _ _ Hrun1). apply quiet_metrics.
  - intros opt Ho. rewrite <- Hpend. split; [by apply Hin|]. by eapply Forall_forall in Hacc.
  - intros Hl n. rewrite <- Hpend. intros [?|[?|Hn']]%Hcov; [by auto..|]. rewrite Hend in Hn' by lia. by apply elem_of_nil in Hn'.
  - rewrite <- Hgiv. apply given_params. rewrite <- (ru_params _ _ _ _ _ Hrun1). apply quiet_metrics.
Qed.

(** ** The states of a stack *)

Lemma shuffleFrom_perm {A} i : ∀ rand (l : list A), (i < length l)%nat → (shuffleFrom i rand l).2 ≡ₚ l.
Proof.
  induction i as [|i IH]; intros rand l Hi; [done|]. cbn [shuffleFrom].
  pose proof (intn_range rand (Z.of_nat (S i) + 1) ltac:(lia)) as Hr.
  rewrite IH by (rewrite length_swap; lia). apply swap_perm; lia.
Qed.

Lemma shuffleNodes_perm {A} rand (l : list A) : (shuffleNodes rand l).2 ≡ₚ l.
Proof. unfold shuffleNodes. destruct l as [|x l]; [done|]. apply shuffleFrom_perm. simpl. lia. Qed.

(** A stack is created for a job, given nodes and asked for placements, while the
    plan of the evaluation grows. *)
Inductive stackState : GenericStack → Prop :=
| st_new batch state plan rand pool :
    pool_ok pool → stackState (SetJob job (NewGenericStack batch (NewEvalContext state plan) rand pool))
| st_nodes nodes s :
    (∀ n, n ∈ nodes → n ∈ known) → stackState s → stackState (SetNodes nodes s)
| st_static nodes s :
    (∀ n, n ∈ nodes → n ∈ known) → stackState s → stackState (StaticSetNodes nodes s)
| st_plan plan s :
    stackState s → stackState (s <| gs_ctx ::= fun ctx => ctx <| ec_plan := plan |> |>)
| st_select tg elapsed s opt size s' :
    group_ok tg → stackState s → Select tg elapsed s = Some (opt, size, s') → stackState s'.

Lemma escaped_lookup tgs : ∀ (m : gmap string bool) tg,
  NoDup (tg_Name <$> tgs) → tg ∈ tgs →
  foldl (fun m tg => <[tg_Name tg := escapes (allConstraints tg)]> m) m tgs !! tg_Name tg = Some (escapes (allConstraints tg)).
Proof.
  induction tgs as [|t tgs IH]; intros m tg Hnd; [by intros ?%elem_of_nil|].
  rewrite fmap_cons in Hnd. apply NoDup_cons in Hnd as [Ht Hnd]. cbn [foldl].
  intros [->|Hin]%elem_of_cons; [|by apply IH]. clear IH Hnd.
  assert (∀ m : gmap string bool, m !! tg_Name t = Some (escapes (allConstraints t)) →
    foldl (fun m tg => <[tg_Name tg := escapes (allConstraints tg)]> m) m tgs !! tg_Name t = Some (escapes (allConstraints t))) as Hgo;
    [|by apply Hgo; rewrite lookup_insert_eq].
  induction tgs as [|t' tgs IH]; intros m' Hm; [done|]. rewrite fmap_cons in Ht. apply not_elem_of_cons in Ht as [Hne Ht].
  cbn [foldl]. apply IH; [done|]. by rewrite lookup_insert_ne.
Qed.

Lemma ready_new batch state plan rand pool :
  pool_ok pool → ready (SetJob job (NewGenericStack batch (NewEvalContext state plan) rand pool)).
Proof.
  intros Hp. split; try done. split; try done.
  - split; simpl; try done. intros tg Htg. by apply escaped_lookup.
  - by intros n ?%elem_of_nil.
Qed.

Lemma ready_source s nodes : (∀ n, n ∈ nodes → n ∈ known) → ready s → ready (StaticSetNodes nodes s).
Proof. intros Hn [[] ? ? ? ?]. split; try done. split; try done; simpl; lia. Qed.

Lemma nodeLimit_pos batch n : 0 < nodeLimit batch n.
Proof. unfold nodeLimit. destruct (_ && _); lia. Qed.

Lemma ready_nodes s nodes : (∀ n, n ∈ nodes → n ∈ known) → ready s → ready (SetNodes nodes s).
Proof.
  intros Hn Hr. unfold SetNodes. pose proof (shuffleNodes_perm (gs_rand s) nodes) as Hp.
  destruct (shuffleNodes (gs_rand s) nodes) as [rand nodes']. simpl in Hp.
  assert (ready (StaticSetNodes nodes' (s <| gs_rand := rand |>))) as [[] ? ? ? ?].
  { apply ready_source; [intros n; rewrite Hp; apply Hn|]. by destruct Hr as [[] ? ? ? ?]. }
  split; try done. apply nodeLimit_pos.
Qed.

Lemma stack_ready s : stackState s → ready s.
Proof.
  induction 1 as [batch state plan rand pool Hp|nodes s Hn Hs IH|nodes s Hn Hs IH|plan s Hs IH|tg elapsed s opt size s' Htg Hs IH E].
  - by apply ready_new.
  - by apply ready_nodes.
  - by apply ready_source.
  - by destruct IH as [[] ? ? ? ?].
  - destruct (Select_spec tg elapsed s IH Htg) as (ref & r & sz & s1 & cands & _ & E' & Hr & _).
    assert (s1 = s') as -> by congruence. done.
Qed.
End select.
