(* ===== verification/StackProps.v ===== *)
(** * The properties of the stacks

    The shortcuts over computed classes change no verdict, a selection places a task
    group on a node that satisfies all its constraints and has room for it, and what
    it places passes the check of the plan applier. *)

From stdpp Require Import base gmap strings list pretty.
From Stdlib Require Import ZArith Lia SpecFloat.
From S2P Require Import Prelude GoText GoHeap Bitmap Structs Resources Jobs Allocs Network NetworkAssign NetworkAssignProps Fit Plans SchedContext Feasible Stack StackSpec StackPack StackSelect.
Open Scope string_scope.
Open Scope list_scope.
Open Scope Z_scope.

#[local] Arguments NewBitmap : simpl never.

(** All the options of an iterator, in its order. *)
Fixpoint drainAll `{TextLibs} {A} (fuel : nat) (next : nextFn A) (s : GenericStack) : option (list A) :=
  match fuel with
  | O => None
  | S fuel =>
      r ← next s;
      match r with
      | (None, _) => Some []
      | (Some x, s) => rest ← drainAll fuel next s; Some (x :: rest)
      end
  end.

(** What the code takes from elsewhere behaves as documented: Go ranges over all the
    tasks, a draw below [n] is below [n], and the networks of the nodes are not whole
    address spaces. *)
Record libs_ok `{StackLibs} (known : list Node) : Prop := {
  lo_range : ∀ m, rangeTasks m ≡ₚ vals m;
  lo_intn : ∀ k n, 0 < n → 0 ≤ intn k n < n;
  lo_networks : ∀ n net, n ∈ known → net ∈ r_Networks (nd_Resources n) → walkable ParseCIDR net
}.

(** The classes of the nodes are computed with a hash that tells their inputs apart. *)
Record classed (Hash : string * gmap string string * gmap string string * string → string + Z) (known : list Node) : Prop := {
  cl_computed : ∀ n, n ∈ known → ComputeClass Hash n = inr n;
  cl_collisions : ∀ n n', n ∈ known → n' ∈ known → Hash (hashInput n) = Hash (hashInput n') → hashInput n = hashInput n'
}.

Lemma computed_class Hash n : ComputeClass Hash n = inr n → ∃ h, Hash (hashInput n) = inr h ∧ nd_ComputedClass n = "v1:" +:+ pretty h.
Proof.
  unfold ComputeClass. destruct (Hash (hashInput n)) as [|h]; [done|]. intros [= E]. exists h. split; [done|]. by rewrite <- E at 1.
Qed.

Lemma classed_ok Hash known : classed Hash known → classes_ok known.
Proof.
  intros [Hc Hf] n n' Hn Hn' E _. apply Hf; [done..|].
  destruct (computed_class Hash n (Hc n Hn)) as (h & Eh & Ec), (computed_class Hash n' (Hc n' Hn')) as (h' & Eh' & Ec').
  rewrite Ec, Ec' in E. apply (inj (String.append _)), (inj pretty) in E as ->. congruence.
Qed.

(** The groups of a job have different names. *)
Definition names_ok (job : Job) : Prop := NoDup (tg_Name <$> jb_TaskGroups job).

Section props.
Context `{TextLibs} `{StackLibs}.

Lemma drain_filter job known tg ref next (P : Node → bool) :
  consumes job known tg ref id (fun n => P n = true) (fun n => P n = false) next → ∀ fuel s,
  running job known tg ref s → (length (pending s) < fuel)%nat →
  drainAll fuel next s = Some (filter (fun n => P n = true) (pending s)).
Proof.
  intros Hc. induction fuel as [|fuel IH]; intros s Hs Hf; [lia|]. cbn [drainAll].
  destruct (Hc s Hs) as (r & s' & skip & -> & Hs' & _ & Hskip & Hr). cbn [mbind option_bind].
  assert (filter (fun n => P n = true) skip = []) as Hnil.
  { apply filter_nothing. intros n Hn. rewrite Forall_forall in Hskip. rewrite (Hskip n Hn). done. }
  destruct r as [x|].
  - destruct Hr as [Hx Ep]. rewrite Ep in Hf |- *. rewrite length_app in Hf. simpl in Hf.
    rewrite IH by (done || lia). cbn [mbind option_bind]. rewrite filter_app, Hnil, filter_cons_True by done. done.
  - destruct Hr as [-> _]. by rewrite Hnil.
Qed.

(** C16. The feasibility wrapper, which answers for a node from what it knows of the
    node's computed class where no constraint escapes the class, yields exactly the
    nodes that pass the checks of the job and of the group when each check is run on
    each node, in their order.  The hash of the class does not collide on the nodes. *)
Theorem class_cache_changes_no_verdict Hash job known tg disk s :
  libs_ok known → classed Hash known → names_ok job → stackState job known s →
  tg ∈ jb_TaskGroups job → tg_EphemeralDisk tg = Some disk →
  ∃ ref, prepare tg s = Some ref ∧
    drainAll (loopFuel ref) (WrapperNext StaticNext) ref =
      Some (filter (fun n => forallb (satisfies n) (jb_Constraints job) && hasDrivers (tgDrivers tg) n &&
                             forallb (satisfies n) (allConstraints tg) = true) (pending ref)) ∧
    pending ref ≡ₚ si_nodes (gs_source s).
Proof.
  intros [L1 L2 L3] Hcl%classed_ok Hn Hs Htg Hd.
  apply (stack_ready L1 L2 job known Hcl Hn L3) in Hs.
  destruct (prepare_spec job known tg disk s Hs Htg Hd) as (ref & Ep & Hrun & _ & _ & _ & _ & Hpend & _).
  exists ref. split; [done|]. split; [|done].
  rewrite (drain_filter job known tg ref _ _ (consumes_wrapper job known Hcl Hn tg ref) _ ref Hrun)
    by apply (length_pending job known), Hrun.
  f_equal. apply list_filter_iff. intros n. unfold feasible, jobFeasible, tgFeasible. by rewrite andb_assoc.
Qed.


(** C17. The plan applier accepts what a selection places.  When the allocations that are
    proposed for the selected node have resources and collide with nothing, and no sum
    overflows, [AllocsFit] finds that they fit on the node together with the allocation
    that is made of the granted resources. *)
Theorem selected_placement_fits Hash job known tg elapsed s opt size s' pool :
  libs_ok known → classed Hash known → names_ok job → stackState job known s → group_ok job tg → pool_ok pool →
  Select tg elapsed s = Some (Some opt, size, s') → asks_ok (tg_Tasks tg) →
  ∃ proposed, ProposedAllocs rangeAllocs (gs_ctx s) (nd_ID (rn_Node opt)) = inr proposed ∧
    let all := proposed ++ [placedAlloc tg (rn_TaskResources opt)] in
    (Forall has_resources proposed → ports_free (usedNetworks (rn_Node opt) proposed) → in_range (rn_Node opt) all →
     ∃ dimension used, AllocsFit rangeTasks (rn_Node opt) all None pool = Some (inr (true, dimension, used))).
Proof.
  intros [L1 L2 L3] Hcl%classed_ok Hn Hs Htg Hpool Esel Ha. apply (stack_ready L1 L2 job known Hcl Hn L3) in Hs.
  destruct (Select_spec L1 L2 job known Hcl Hn L3 tg elapsed s Hs Htg)
    as (ref & r & sz & s1 & cands & Ep & Es & _ & Er & _ & Hin & _ & Hgiv & _).
  assert (foldl better None cands = Some opt) as Hb by congruence.
  unfold given in Hgiv. injection Hgiv as _ Est Epl.
  destruct (Hin opt (better_in _ _ Hb)) as (_ & _ & proposed & granted & E1 & _ & _ & _ & Hfit).
  exists proposed. split; [by rewrite <- E1; apply ProposedAllocs_same|]. intros all Hres Hfree Hr.
  destruct (AllocsFit_spec rangeTasks L1 (rn_Node opt) all pool Hpool Hr) as (ok & dimension & used & E & Hok).
  { apply Forall_app. split; [done|]. constructor; [right; by eexists|done]. }
  exists dimension, used. rewrite E. replace ok with true; [done|]. symmetry. by apply Hok, Hfit.
Qed.

(** The score of a fit is bounded: it is not a number, or lies between 0 and 18. *)
Theorem score_is_bounded node util :
  f_nan (ScoreFit node util) ∨ f_le (f64 0) (ScoreFit node util) = true ∧ f_le (ScoreFit node util) (f64 18) = true.
Proof.
  unfold ScoreFit. set (score := f_sub (f64 20) _). clearbody score.
  destruct (f_lt (f64 18) score) eqn:E1; [right; split; reflexivity|].
  destruct (f_lt score (f64 0)) eqn:E2; [right; split; reflexivity|].
  destruct (decide (score = S754_nan)) as [?|Hn]; [by left|right]. split; apply f_nlt; done.
Qed.

(** A node without reserved networks has room for bandwidth as long as nothing uses any. *)
Lemma idle_fits node allocs used :
  from_option r_Networks [] (nd_Reserved node) = [] → allocNetworks rangeTasks allocs = [] →
  addUsed rangeTasks (Add zeroResources (nd_Reserved node)) allocs = inr used →
  (∀ d, amount used d ≤ amount (nd_Resources node) d) →
  AllocsFit rangeTasks node allocs None [] = Some (inr (true, "", used)).
Proof.
  intros Hr Hn Hu Hd. unfold AllocsFit. rewrite Hu. apply Superset_spec in Hd.
  destruct (Superset (nd_Resources node) used) as [sup dim]. simpl in Hd. subst sup. cbn [negb].
  unfold SetNode, AddAllocs. rewrite Hn. set (idx := foldl _ _ _).
  assert (Overcommitted idx = false) as Ho.
  { unfold Overcommitted. destruct (SetNode_avail node (NewNetworkIndex []) "") as (_ & _ & E & _). fold idx in E.
    by rewrite E. }
  destruct (nd_Reserved node) as [r|]; simpl in Hr; rewrite ?Hr; simpl; by rewrite Ho.
Qed.

(** Reserved resources count twice in the score.  On a node that reserves half of its
    CPU and memory and runs nothing, what is in use is the reservation, and the score is
    that of a node without a reservation that is used up: the utilization includes the
    reservation, and the capacity it is divided by excludes it. *)
Theorem reserved_counts_twice node :
  (∀ m, rangeTasks m ≡ₚ vals m) → r_CPU (nd_Resources node) = 4000 → r_MemoryMB (nd_Resources node) = 8192 →
  nd_Reserved node = Some (mkResources 2000 4096 0 0 []) → 0 ≤ r_DiskMB (nd_Resources node) → 0 ≤ r_IOPS (nd_Resources node) →
  ∃ idle full,
    AllocsFit rangeTasks node [] None [] = Some (inr (true, "", idle)) ∧
    AllocsFit rangeTasks (node <| nd_Reserved := None |>) [zeroAllocation <| al_Resources := Some (mkResources 4000 8192 0 0 []) |>]
      None [] = Some (inr (true, "", full)) ∧
    ScoreFit node idle = ScoreFit (node <| nd_Reserved := None |>) full.
Proof.
  intros Hrange Ec Em Er Hd Hi. assert (rangeTasks ∅ = []) as He by (apply Permutation_nil_r, Hrange).
  exists (mkResources 2000 4096 0 0 []), (mkResources 4000 8192 0 0 []). split; [|split].
  - apply idle_fits; [by rewrite Er|done|by rewrite Er|].
    intros []; cbn [amount]; rewrite ?Ec, ?Em; first [exact Hd | exact Hi | by vm_compute].
  - apply idle_fits; [done|unfold allocNetworks; simpl; by rewrite He|done|].
    intros []; cbn [amount]; change (nd_Resources (node <| nd_Reserved := None |>)) with (nd_Resources node);
      rewrite ?Ec, ?Em; first [exact Hd | exact Hi | by vm_compute].
  - unfold ScoreFit. rewrite Er. change (nd_Resources (node <| nd_Reserved := None |>)) with (nd_Resources node).
    rewrite Ec, Em. cbn [r_CPU r_MemoryMB].
    assert (f_sub (f64 1) (f_div (f64 2000) (f_sub (f64 4000) (f64 2000))) = f_sub (f64 1) (f_div (f64 4000) (f64 4000)) ∧
      f_sub (f64 1) (f_div (f64 4096) (f_sub (f64 8192) (f64 4096))) = f_sub (f64 1) (f_div (f64 8192) (f64 8192))) as [-> ->]
      by (split; vm_compute; reflexivity).
    done.
Qed.
End props.

(** ** Three nodes *)

#[local] Instance demoText : TextLibs :=
  Build_TextLibs string Z Z (fun s => Some s) (fun re s => bool_decide (re = s)) (fun _ => None) (fun _ => None) Z.leb.
#[local] Instance demoLibs : StackLibs :=
  Build_StackLibs vals vals vals (fun k n => (7 * Z.of_nat k) mod n) (fun _ _ => f64 1) (fun _ => None) (fun _ => "").

Definition demoHash (input : string * gmap string string * gmap string string * string) : string + Z :=
  inr (Z.of_nat (size input.1.1.2)).
Definition demoNode (id : string) (attrs : gmap string string) (reserved : option Resources) : Node :=
  mkNode id "" "dc1" id "" false attrs (mkResources 4000 8192 10000 100 []) reserved ∅ ∅ ""
    ("v1:" +:+ pretty (Z.of_nat (size attrs))) false NodeStatusReady "" 0 1 1.
Definition execNode (id : string) : Node := demoNode id {["arch" := "amd64"; "driver.exec" := "1"]} None.
Definition bareNode : Node := demoNode "c" {["arch" := "amd64"]} None.
Definition demoNodes : list Node := [bareNode; execNode "a"; execNode "b"].

Definition webGroup : TaskGroup :=
  mkTaskGroup "web" 2 None [mkConstraint "" "" ConstraintDistinctHosts]
    [mkTask "server" "exec" "" [] ∅ None [] [] [] (mkResources 500 256 0 0 []) ∅ 0 false] (Some (mkEphemeralDisk false 300 false)) ∅.
Definition webJob : Job :=
  mkJob false "global" "web" "" "web" JobTypeService 50 false ["dc1"] [mkConstraint "${attr.arch}" "amd64" "="]
    [webGroup] noUpdate None None "" ∅ "" "" false 1 0 1 1 1.

(** Node a runs an allocation of the group already. *)
Definition runningWeb : Allocation :=
  zeroAllocation <| al_ID := "x" |> <| al_NodeID := "a" |> <| al_JobID := "web" |> <| al_TaskGroup := "web" |>
    <| al_Resources := Some (mkResources 500 256 300 0 []) |>.
Definition demoState : SchedState :=
  mkSchedState (inr demoNodes) (fun _ => inr None) (fun _ => inr (Some webJob))
    (fun id _ => inr (if bool_decide (id = "a") then [runningWeb] else [])) (fun _ _ => inr []) (fun _ => inr None).
Definition demoStack : GenericStack :=
  SetNodes demoNodes (SetJob webJob (NewGenericStack false (NewEvalContext demoState zeroPlan) 0 [])).

Lemma demo_libs : libs_ok demoNodes.
Proof.
  split; [done| |].
  - intros k n Hn. by apply Z.mod_pos_bound.
  - intros n net Hn. unfold demoNodes in Hn. rewrite !elem_of_cons, elem_of_nil in Hn.
    by destruct Hn as [->|[->|[->|[]]]]; intros ?%elem_of_nil.
Qed.

Lemma demo_classed : classed demoHash demoNodes.
Proof.
  split.
  - intros n Hn. unfold demoNodes in Hn. rewrite !elem_of_cons, elem_of_nil in Hn.
    by destruct Hn as [->|[->|[->|[]]]]; vm_compute.
  - assert (forallb (fun n => forallb (fun n' => bool_decide (demoHash (hashInput n) ≠ demoHash (hashInput n')) ||
      bool_decide (hashInput n = hashInput n')) demoNodes) demoNodes = true) as Hall by (vm_compute; reflexivity).
    intros n n' Hn%list_elem_of_In Hn'%list_elem_of_In E. rewrite forallb_forall in Hall. specialize (Hall n Hn).
    rewrite forallb_forall in Hall. specialize (Hall n' Hn'). by apply orb_true_iff in Hall as [?%bool_decide_eq_true|?%bool_decide_eq_true].
Qed.

Lemma demo_stack : stackState webJob demoNodes demoStack.
Proof. apply st_nodes; [done|]. apply st_new. constructor. Qed.

Lemma demo_group : group_ok webJob webGroup ∧ names_ok webJob.
Proof. split; [|apply NoDup_singleton]. split_and!; [left|by eexists|apply NoDup_singleton]. Qed.

Lemma class_cache_witness :
  ∃ ref, prepare webGroup demoStack = Some ref ∧
    option_map (fmap nd_ID) (drainAll (loopFuel ref) (WrapperNext StaticNext) ref) = Some ["b"; "a"].
Proof.
  destruct (class_cache_changes_no_verdict demoHash webJob demoNodes webGroup (mkEphemeralDisk false 300 false) demoStack
    demo_libs demo_classed (proj2 demo_group) demo_stack (proj1 (proj1 demo_group)) eq_refl) as (ref & E & Hd & _).
  exists ref. split; [exact E|].
  assert (option_map (fun ref => option_map (fmap nd_ID) (drainAll (loopFuel ref) (WrapperNext StaticNext) ref)) (prepare webGroup demoStack)
    = Some (Some ["b"; "a"])) as Hv by (vm_compute; reflexivity).
  rewrite E in Hv. by injection Hv.
Defined.


Lemma demo_asks : asks_ok (tg_Tasks webGroup).
Proof. intros task ask rest ->%list_elem_of_singleton. discriminate. Qed.

Lemma demo_room :
  Forall has_resources [] ∧ ports_free (usedNetworks (execNode "b") []) ∧
  in_range (execNode "b") [placedAlloc webGroup {["server" := mkResources 500 256 0 0 []]}].
Proof.
  split; [constructor|]. split; [split; [by intros n ?%not_elem_of_nil|constructor]|].
  split; [intros []; vm_compute; split; congruence|]. intros dev. vm_compute. split; congruence.
Qed.

Lemma selected_fits_witness :
  ∃ opt size s' dimension used, Select webGroup 1 demoStack = Some (Some opt, size, s') ∧
    AllocsFit rangeTasks (rn_Node opt) [placedAlloc webGroup (rn_TaskResources opt)] None [] = Some (inr (true, dimension, used)).
Proof.
  assert (option_map (fun res => option_map (fun opt => (rn_Node opt, rn_TaskResources opt)) res.1.1) (Select webGroup 1 demoStack)
    = Some (Some (execNode "b", {["server" := mkResources 500 256 0 0 []]}))) as Hv by (vm_compute; reflexivity).
  destruct (Select webGroup 1 demoStack) as [[[[opt|] size] s']|] eqn:E; [|discriminate Hv..].
  apply (inj Some), (inj Some) in Hv. injection Hv as En Et.
  destruct (selected_placement_fits demoHash webJob demoNodes webGroup 1 demoStack opt size s' []
    demo_libs demo_classed (proj2 demo_group) demo_stack (proj1 demo_group) ltac:(constructor) E demo_asks) as (proposed & Ep & Hfit).
  rewrite En in Ep. vm_compute in Ep. injection Ep as <-. rewrite En, Et in Hfit.
  destruct (Hfit (proj1 demo_room) (proj1 (proj2 demo_room)) (proj2 (proj2 demo_room))) as (dimension & used & Hf).
  exists opt, size, s', dimension, used. split; [reflexivity|]. rewrite En, Et. exact Hf.
Defined.

Lemma reserved_witness :
  ∃ idle full, ScoreFit (demoNode "r" ∅ (Some (mkResources 2000 4096 0 0 []))) idle = ScoreFit (demoNode "r" ∅ None) full ∧
    r_CPU idle = 2000 ∧ r_CPU full = 4000.
Proof.
  destruct (reserved_counts_twice (demoNode "r" ∅ (Some (mkResources 2000 4096 0 0 [])))) as (idle & full & E1 & E2 & E3);
    [done|done|done|done|vm_compute; congruence|vm_compute; congruence|].
  exists idle, full. split; [exact E3|]. vm_compute in E1, E2. by injection E1 as <-; injection E2 as <-.
Defined.
