(* ===== verification/SchedUtil.v ===== *)
(** * The helpers of the schedulers (src/scheduler/util.go)

    The differences between what a job requires and what exists, updates in place,
    the scans of the state, and the loop that retries an evaluation.  Results are
    errors or values, and [None] where the Go code panics. *)

From stdpp Require Import base gmap strings list.
From Stdlib Require Import ZArith Lia.
From S2P Require Import Prelude GoText GoHeap Bitmap Structs Resources Jobs Allocs Network NetworkAssign Fit Plans Reconcile SchedContext Feasible Stack.
Open Scope string_scope.
Open Scope list_scope.
Open Scope Z_scope.

(** ** Messages *)

Definition byteString (n : nat) : string := String (Ascii.ascii_of_nat n) EmptyString.
Definition hexDigit (n : nat) : string := byteString (if (n <? 10)%nat then 48 + n else 87 + n).

(** The verb %q on ASCII text; the bytes of other runes are taken to be printable. *)
Definition quotedChar (c : Ascii.ascii) : string :=
  let n := Ascii.nat_of_ascii c in
  let backslash := byteString 92 in
  match n with
  | 34%nat | 92%nat => backslash +:+ byteString n
  | 7%nat => backslash +:+ "a"
  | 8%nat => backslash +:+ "b"
  | 9%nat => backslash +:+ "t"
  | 10%nat => backslash +:+ "n"
  | 11%nat => backslash +:+ "v"
  | 12%nat => backslash +:+ "f"
  | 13%nat => backslash +:+ "r"
  | _ => if (n <? 32)%nat || (n =? 127)%nat then backslash +:+ "x" +:+ hexDigit (n / 16) +:+ hexDigit (n mod 16)
         else byteString n
  end.
Fixpoint quotedBody (s : string) : string :=
  match s with
  | EmptyString => ""
  | String c s => quotedChar c +:+ quotedBody s
  end.
Definition quoted (s : string) : string := byteString 34 +:+ quotedBody s +:+ byteString 34.

(** ** Differences *)

Record allocTuple := mkAllocTuple {
  at_Name : string;
  at_TaskGroup : option TaskGroup;
  at_Alloc : option Allocation
}.
#[export] Instance eta_allocTuple : Eta allocTuple := fun r => mkAllocTuple (at_Name r) (at_TaskGroup r) (at_Alloc r).

Definition materializeTaskGroups (job : option Job) : gmap string TaskGroup :=
  match job with
  | Some j =>
      if Stopped job then ∅
      else
        foldl (fun out tg =>
            foldl (fun (out : gmap string TaskGroup) i => <[AllocName (jb_Name j) (tg_Name tg) i := tg]> out)
              out (seqZ 0 (tg_Count tg)))
          ∅ (jb_TaskGroups j)
  | None => ∅
  end.

Record diffResult := mkDiffResult {
  dr_place : list allocTuple;
  dr_update : list allocTuple;
  dr_migrate : list allocTuple;
  dr_stop : list allocTuple;
  dr_ignore : list allocTuple;
  dr_lost : list allocTuple
}.
#[export] Instance eta_diffResult : Eta diffResult := fun r =>
  mkDiffResult (dr_place r) (dr_update r) (dr_migrate r) (dr_stop r) (dr_ignore r) (dr_lost r).

Definition emptyDiff : diffResult := mkDiffResult [] [] [] [] [] [].

Definition AppendDiff (d other : diffResult) : diffResult :=
  mkDiffResult (dr_place d ++ dr_place other) (dr_update d ++ dr_update other) (dr_migrate d ++ dr_migrate other)
    (dr_stop d ++ dr_stop other) (dr_ignore d ++ dr_ignore other) (dr_lost d ++ dr_lost other).

(** One turn of the scan of the existing allocations. *)
Definition diffExisting (job : option Job) (tainted : gmap string (option Node)) (required : gmap string TaskGroup)
    (result : diffResult) (alloc : Allocation) : option diffResult :=
  let tuple := mkAllocTuple (al_Name alloc) (required !! al_Name alloc) (Some alloc) in
  if bool_decide (is_Some (required !! al_Name alloc)) then
    match tainted !! al_NodeID alloc with
    | Some node =>
        ej ← al_Job alloc;
        if bool_decide (jb_Type ej = JobTypeBatch) && RanSuccessfully alloc
        then Some (result <| dr_ignore ::= fun l => l ++ [tuple] |>)
        else
          Some (match node with
                | None => result <| dr_lost ::= fun l => l ++ [tuple] |>
                | Some n =>
                    if NodeTerminal n then result <| dr_lost ::= fun l => l ++ [tuple] |>
                    else result <| dr_migrate ::= fun l => l ++ [tuple] |>
                end)
    | None =>
        j ← job;
        ej ← al_Job alloc;
        Some (if bool_decide (jb_JobModifyIndex j ≠ jb_JobModifyIndex ej)
              then result <| dr_update ::= fun l => l ++ [tuple] |>
              else result <| dr_ignore ::= fun l => l ++ [tuple] |>)
    end
  else Some (result <| dr_stop ::= fun l => l ++ [tuple] |>).

Fixpoint diffScan (job : option Job) (tainted : gmap string (option Node)) (required : gmap string TaskGroup)
    (result : diffResult) (allocs : list Allocation) : option diffResult :=
  match allocs with
  | [] => Some result
  | alloc :: allocs =>
      result ← diffExisting job tainted required result alloc;
      diffScan job tainted required result allocs
  end.

(** [range] is the order in which Go ranges over the required groups. *)
Definition diffAllocs (range : gmap string TaskGroup → list (string * TaskGroup)) (job : option Job)
    (tainted : gmap string (option Node)) (required : gmap string TaskGroup) (allocs : list Allocation)
    (terminalAllocs : gmap string Allocation) : option diffResult :=
  result ← diffScan job tainted required emptyDiff allocs;
  let existing : gset string := list_to_set (al_Name <$> allocs) in
  let missing := filter (fun nt => nt.1 ∉ existing) (range required) in
  Some (result <| dr_place ::= fun l =>
          l ++ ((fun nt => mkAllocTuple nt.1 (Some nt.2) (terminalAllocs !! nt.1)) <$> missing) |>).

(** The allocations by node, with an entry for each node. *)
Definition allocsByNode (nodes : list Node) (allocs : list Allocation) : gmap string (list Allocation) :=
  let nodeAllocs := foldl (fun (m : gmap string (list Allocation)) alloc =>
      <[al_NodeID alloc := default [] (m !! al_NodeID alloc) ++ [alloc]]> m) ∅ allocs in
  foldl (fun (m : gmap string (list Allocation)) node =>
      match m !! nd_ID node with Some _ => m | None => <[nd_ID node := []]> m end) nodeAllocs nodes.

(** A placement is for the node: the previous allocation is kept when it was there. *)
Definition annotate (nodeID : string) (t : allocTuple) : allocTuple :=
  match at_Alloc t with
  | Some a => if bool_decide (al_NodeID a = nodeID) then t else t <| at_Alloc := Some (zeroAllocation <| al_NodeID := nodeID |>) |>
  | None => t <| at_Alloc := Some (zeroAllocation <| al_NodeID := nodeID |>) |>
  end.

(** The body of the loop over the nodes. *)
Definition diffNode (range : gmap string TaskGroup → list (string * TaskGroup)) (job : option Job)
    (tainted : gmap string (option Node)) (required : gmap string TaskGroup) (terminalAllocs : gmap string Allocation)
    (nodeID : string) (allocs : list Allocation) : option diffResult :=
  diff ← diffAllocs range job tainted required allocs terminalAllocs;
  let diff :=
    if bool_decide (is_Some (tainted !! nodeID)) then diff <| dr_place := [] |>
    else diff <| dr_place ::= fmap (annotate nodeID) |> in
  Some (diff <| dr_stop ::= fun l => l ++ dr_migrate diff |> <| dr_migrate := [] |>).

Fixpoint diffNodes (range : string → gmap string TaskGroup → list (string * TaskGroup)) (job : option Job)
    (tainted : gmap string (option Node)) (required : gmap string TaskGroup) (terminalAllocs : gmap string Allocation)
    (result : diffResult) (nodes : list (string * list Allocation)) : option diffResult :=
  match nodes with
  | [] => Some result
  | (nodeID, allocs) :: nodes =>
      diff ← diffNode (range nodeID) job tainted required terminalAllocs nodeID allocs;
      diffNodes range job tainted required terminalAllocs (AppendDiff result diff) nodes
  end.

(** [rangeNodes] is the order of the nodes, [range] that of the groups for each of them. *)
Definition diffSystemAllocs (rangeNodes : gmap string (list Allocation) → list (string * list Allocation))
    (range : string → gmap string TaskGroup → list (string * TaskGroup)) (job : option Job) (nodes : list Node)
    (tainted : gmap string (option Node)) (allocs : list Allocation) (terminalAllocs : gmap string Allocation)
    : option diffResult :=
  diffNodes range job tainted (materializeTaskGroups job) terminalAllocs emptyDiff (rangeNodes (allocsByNode nodes allocs)).

(** ** Scans of the state *)

Definition readyNodesInDCs (state : SchedState) (dcs : list string) : string + list Node * gmap string Z :=
  let dcMap : gmap string Z := foldl (fun m dc => <[dc := 0]> m) ∅ dcs in
  match sc_Nodes state with
  | inl err => inl err
  | inr nodes =>
      inr (foldl (fun (acc : list Node * gmap string Z) node =>
          let '(out, dcMap) := acc in
          if bool_decide (nd_Status node ≠ NodeStatusReady) || nd_Drain node then (out, dcMap)
          else
            match dcMap !! nd_Datacenter node with
            | None => (out, dcMap)
            | Some n => (out ++ [node], <[nd_Datacenter node := n + 1]> dcMap)
            end) ([], dcMap) nodes)
  end.

(** [None] is the panic of [ShouldDrainNode] on an unknown status. *)
Fixpoint taintedNodes (state : SchedState) (out : gmap string (option Node)) (allocs : list Allocation)
    : option (string + gmap string (option Node)) :=
  match allocs with
  | [] => Some (inr out)
  | alloc :: allocs =>
      match out !! al_NodeID alloc with
      | Some _ => taintedNodes state out allocs
      | None =>
          match sc_NodeByID state (al_NodeID alloc) with
          | inl err => Some (inl err)
          | inr None => taintedNodes state (<[al_NodeID alloc := None]> out) allocs
          | inr (Some node) =>
              drain ← ShouldDrainNode (nd_Status node);
              taintedNodes state
                (if (drain : bool) || nd_Drain node then <[al_NodeID alloc := Some node]> out else out) allocs
          end
      end
  end.

Definition updateNonTerminalAllocsToLost (plan : Plan) (tainted : gmap string (option Node)) (allocs : list Allocation)
    : Plan :=
  foldl (fun plan alloc =>
      if bool_decide (is_Some (tainted !! al_NodeID alloc)) &&
         bool_decide (al_DesiredStatus alloc = AllocDesiredStatusStop) &&
         (bool_decide (al_ClientStatus alloc = AllocClientStatusRunning) ||
          bool_decide (al_ClientStatus alloc = AllocClientStatusPending))
      then AppendUpdate plan alloc AllocDesiredStatusStop allocLost AllocClientStatusLost
      else plan) plan allocs.

(** ** Retries *)

(** [s] is the state the callback works on.  An attempt ends with an error, is done,
    or has to be repeated; [None] is the end of the fuel or a panic. *)
Inductive retryResult := RetryDone | RetryError (err : string) | RetryExhausted.

Fixpoint retryLoop {S} (fuel : nat) (max attempts : Z) (cb : S → option ((string + bool) * S)) (reset : S → bool) (s : S)
    : option (retryResult * S) :=
  match fuel with
  | O => None
  | Datatypes.S fuel =>
      if attempts <? max then
        r ← cb s;
        let '(res, s) := r in
        match res with
        | inl err => Some (RetryError err, s)
        | inr true => Some (RetryDone, s)
        | inr false => retryLoop fuel max (if reset s then 0 else attempts + 1) cb reset s
        end
      else Some (RetryExhausted, s)
  end.
Definition retryMax {S} (fuel : nat) (max : Z) (cb : S → option ((string + bool) * S)) (reset : S → bool) (s : S)
    : option (retryResult * S) := retryLoop fuel max 0 cb reset s.

Definition progressMade (result : option PlanResult) : bool :=
  match result with
  | None => false
  | Some r =>
      negb (size (pr_NodeUpdate r) =? 0)%nat || negb (size (pr_NodeAllocation r) =? 0)%nat ||
      bool_decide (is_Some (pr_Deployment r)) || negb (length (pr_DeploymentUpdates r) =? 0)%nat
  end.

(** ** Changes of tasks *)

Definition networkPortMap (n : NetworkResource) : gmap string Z :=
  foldl (fun m p => <[p_Label p := -1]> m)
    (foldl (fun m p => <[p_Label p := p_Value p]> m) ∅ (nr_ReservedPorts n)) (nr_DynamicPorts n).

Definition networksDiffer (an bn : NetworkResource) : bool :=
  bool_decide (nr_MBits an ≠ nr_MBits bn) || bool_decide (networkPortMap an ≠ networkPortMap bn).

(** The body of the loop over the tasks of the first group. *)
Definition taskUpdated (jobA jobB : Job) (taskGroup : string) (b : TaskGroup) (at_ : Task) : bool :=
  match LookupTask b (tk_Name at_) with
  | None => true
  | Some bt =>
      bool_decide (tk_Driver at_ ≠ tk_Driver bt) || bool_decide (tk_User at_ ≠ tk_User bt) ||
      bool_decide (tk_Config at_ ≠ tk_Config bt) || bool_decide (tk_Env at_ ≠ tk_Env bt) ||
      bool_decide (tk_Artifacts at_ ≠ tk_Artifacts bt) || bool_decide (tk_Vault at_ ≠ tk_Vault bt) ||
      bool_decide (tk_Templates at_ ≠ tk_Templates bt) ||
      bool_decide (CombinedTaskMeta jobA taskGroup (tk_Name at_) ≠ CombinedTaskMeta jobB taskGroup (tk_Name bt)) ||
      let ar := tk_Resources at_ in
      let br := tk_Resources bt in
      negb (length (r_Networks ar) =? length (r_Networks br))%nat ||
      existsb (fun ab => networksDiffer ab.1 ab.2) (zip (r_Networks ar) (r_Networks br)) ||
      bool_decide (r_CPU ar ≠ r_CPU br) || bool_decide (r_MemoryMB ar ≠ r_MemoryMB br) || bool_decide (r_IOPS ar ≠ r_IOPS br)
  end.

(** [None] is the nil dereference of a group that one of the jobs does not have. *)
Definition tasksUpdated (jobA jobB : Job) (taskGroup : string) : option bool :=
  a ← LookupTaskGroup jobA taskGroup;
  b ← LookupTaskGroup jobB taskGroup;
  Some (negb (length (tg_Tasks a) =? length (tg_Tasks b))%nat ||
        bool_decide (tg_EphemeralDisk a ≠ tg_EphemeralDisk b) ||
        existsb (taskUpdated jobA jobB taskGroup b) (tg_Tasks a)).

(** ** The planner *)

(** The interface the schedulers plan against: what it stands for is a state [W].
    An answer is an error, where there is one. *)
Class Planner (W : Type) := {
  SubmitPlan : W → Plan → (option PlanResult * option SchedState * option string) * W;
  UpdateEval : W → Evaluation → option string * W;
  CreateEval : W → Evaluation → option string * W;
  ReblockEval : W → Evaluation → option string * W
}.

(** A nil map of queued allocations leaves those of the evaluation. *)
Definition setStatus `{Planner W} (planner : W) (eval : Evaluation) (nextEval spawnedBlocked : option Evaluation)
    (tgMetrics : gmap string AllocMetric) (status desc : string) (queuedAllocs : option (gmap string Z))
    (deploymentID : string) : option string * W :=
  let newEval := eval <| ev_Status := status |> <| ev_StatusDescription := desc |>
                      <| ev_DeploymentID := deploymentID |> <| ev_FailedTGAllocs := tgMetrics |> in
  let newEval := match nextEval with Some e => newEval <| ev_NextEval := ev_ID e |> | None => newEval end in
  let newEval := match spawnedBlocked with Some e => newEval <| ev_BlockedEval := ev_ID e |> | None => newEval end in
  let newEval := match queuedAllocs with Some q => newEval <| ev_QueuedAllocations := q |> | None => newEval end in
  UpdateEval planner newEval.

(** [range] is the order of the nodes; the placed allocations of a group that is not
    queued are only logged. *)
Definition adjustQueuedAllocations (range : gmap string (list Allocation) → list (list Allocation))
    (result : option PlanResult) (queuedAllocs : gmap string Z) : gmap string Z :=
  match result with
  | None => queuedAllocs
  | Some r =>
      foldl (fun (q : gmap string Z) allocation =>
          if bool_decide (al_CreateIndex allocation ≠ al_ModifyIndex allocation) then q
          else
            match q !! al_TaskGroup allocation with
            | Some n => <[al_TaskGroup allocation := n - 1]> q
            | None => q
            end) queuedAllocs (concat (range (pr_NodeAllocation r)))
  end.

(** [FullCommit] of a nil result dereferences it at the first allocation. *)
Definition committed (result : option PlanResult) (plan : Plan) : option bool :=
  match result with
  | Some r => Some (FullCommit r plan).1.1
  | None => if (size (pl_NodeAllocation plan) =? 0)%nat then Some true else None
  end.

(** ** Desired updates *)

Definition bumpDesired (f : DesiredUpdates → DesiredUpdates) (m : gmap string DesiredUpdates) (name : string)
    : gmap string DesiredUpdates := <[name := f (default zeroDesiredUpdates (m !! name))]> m.

(** The groups of the tuples are dereferenced. *)
Definition groupNames (tuples : list allocTuple) : option (list string) :=
  mapM (fun t => option_map tg_Name (at_TaskGroup t)) tuples.

Definition desiredUpdates (diff : diffResult) (inplaceUpdates destructiveUpdates : list allocTuple)
    : option (gmap string DesiredUpdates) :=
  place ← groupNames (dr_place diff);
  stop ← mapM (fun t => option_map al_TaskGroup (at_Alloc t)) (dr_stop diff);
  ignore ← groupNames (dr_ignore diff);
  migrate ← groupNames (dr_migrate diff);
  inplace ← groupNames inplaceUpdates;
  destructive ← groupNames destructiveUpdates;
  let m := foldl (bumpDesired (fun d => d <| du_Place ::= Z.add 1 |>)) ∅ place in
  let m := foldl (bumpDesired (fun d => d <| du_Stop ::= Z.add 1 |>)) m stop in
  let m := foldl (bumpDesired (fun d => d <| du_Ignore ::= Z.add 1 |>)) m ignore in
  let m := foldl (bumpDesired (fun d => d <| du_Migrate ::= Z.add 1 |>)) m migrate in
  let m := foldl (bumpDesired (fun d => d <| du_InPlaceUpdate ::= Z.add 1 |>)) m inplace in
  Some (foldl (bumpDesired (fun d => d <| du_DestructiveUpdate ::= Z.add 1 |>)) m destructive).

(** ** Evictions *)

(** The first [limit] of the allocations are stopped and placed again; the flag is
    whether the limit has been reached. *)
Fixpoint stopAndPlace (desc clientStatus : string) (limit : Z) (allocs : list allocTuple) (plan : Plan)
    (place : list allocTuple) : option (Plan * list allocTuple) :=
  match allocs with
  | [] => Some (plan, place)
  | a :: allocs =>
      if 0 <? limit then
        alloc ← at_Alloc a;
        stopAndPlace desc clientStatus (limit - 1) allocs (AppendUpdate plan alloc AllocDesiredStatusStop desc clientStatus)
          (place ++ [a])
      else Some (plan, place)
  end.

Definition evictWith (clientStatus : string) (plan : Plan) (diff : diffResult) (allocs : list allocTuple) (desc : string)
    (limit : Z) : option (bool * Z * diffResult * Plan) :=
  r ← stopAndPlace desc clientStatus limit allocs plan (dr_place diff);
  let '(plan, place) := r in
  let diff := diff <| dr_place := place |> in
  let n := Z.of_nat (length allocs) in
  Some (if n <=? limit then (false, limit - n, diff, plan) else (true, 0, diff, plan)).

Definition evictAndPlace := evictWith "".
Definition markLostAndPlace := evictWith AllocClientStatusLost.

(** ** Updates in place *)

Definition allocInPlace : string := "alloc updating in-place".

(** The networks of the existing tasks: [None] is the nil dereference of a task that
    the existing allocation does not have. *)
Definition restoreNetworks (existing : option (gmap string Resources)) (resources : gmap string Resources)
    : option (gmap string Resources) :=
  let existing := default ∅ existing in
  if bool_decide (dom resources ⊆ dom existing)
  then Some (map_imap (fun task r => option_map (fun e => r <| r_Networks := r_Networks e |>) (existing !! task)) resources)
  else None.

Section inplace.
Context `{TextLibs} `{StackLibs}.

(** The interface of a stack. *)
Record StackOps := mkStackOps {
  so_SetNodes : list Node → GenericStack → GenericStack;
  so_SetJob : Job → GenericStack → GenericStack;
  so_Select : TaskGroup → Z → GenericStack → option (option RankedNode * Resources * GenericStack)
}.
Definition genericOps : StackOps := mkStackOps SetNodes SetJob Select.
Definition systemOps : StackOps := mkStackOps SystemSetNodes SystemSetJob SystemSelect.

(** The time the [n]-th selection takes. *)
Variable elapsed : nat → Z.

Definition onPlan (f : Plan → Plan) (s : GenericStack) : GenericStack :=
  s <| gs_ctx ::= fun ctx => ctx <| ec_plan ::= f |> |>.

Definition inPlaceAlloc (evalID : string) (existing : Allocation) (resources : gmap string Resources) (metrics : AllocMetric)
    : Allocation :=
  existing <| al_EvalID := evalID |> <| al_Job := None |> <| al_Resources := None |>
    <| al_TaskResources := Some resources |> <| al_Metrics := Some metrics |>.

(** Whether the group fits the node with the existing allocation taken off: the updated
    allocation, where it does. *)
Definition selectInPlace (stack : StackOps) (evalID : string) (existing : Allocation) (tg : TaskGroup) (node : Node)
    (clock : nat) (s : GenericStack) : option (option Allocation * GenericStack) :=
  let s := so_SetNodes stack [node] s in
  let s := onPlan (fun p => AppendUpdate p existing AllocDesiredStatusStop allocInPlace "") s in
  r ← so_Select stack tg (elapsed clock) s;
  let '(opt, _, s) := r in
  let s := onPlan (fun p => PopUpdate p existing) s in
  match opt with
  | None => Some (None, s)
  | Some opt =>
      resources ← restoreNetworks (al_TaskResources existing) (rn_TaskResources opt);
      Some (Some (inPlaceAlloc evalID existing resources (ec_metrics (gs_ctx s))), s)
  end.

(** The body of the loop: whether the update was done in place. *)
Definition inplaceOne (stack : StackOps) (eval : Evaluation) (job : option Job) (update : allocTuple) (clock : nat)
    (s : GenericStack) : option (bool * nat * GenericStack) :=
  alloc ← at_Alloc update;
  tg ← at_TaskGroup update;
  j ← job;
  existing ← al_Job alloc;
  updated ← tasksUpdated j existing (tg_Name tg);
  if (updated : bool) then Some (false, clock, s)
  else if AllocTerminal alloc then Some (true, clock, s)
  else
    match sc_NodeByID (ec_state (gs_ctx s)) (al_NodeID alloc) with
    | inl _ | inr None => Some (false, clock, s)
    | inr (Some node) =>
        r ← selectInPlace stack (ev_ID eval) alloc tg node clock s;
        let '(newAlloc, s) := r in
        match newAlloc with
        | None => Some (false, S clock, s)
        | Some newAlloc => Some (true, S clock, onPlan (fun p => AppendAlloc p newAlloc) s)
        end
    end.

(** An update done in place is swapped behind the last of the others.  Every turn brings
    [i] and [n] closer, so the number of updates is enough fuel. *)
Fixpoint inplaceLoop (stack : StackOps) (eval : Evaluation) (job : option Job) (fuel i n : nat) (updates : list allocTuple)
    (clock : nat) (s : GenericStack) : option (nat * list allocTuple * nat * GenericStack) :=
  if (i <? n)%nat then
    match fuel with
    | O => None
    | S fuel =>
        update ← updates !! i;
        r ← inplaceOne stack eval job update clock s;
        let '(done, clock, s) := r in
        if (done : bool) then inplaceLoop stack eval job fuel i (n - 1) (swap updates i (n - 1)) clock s
        else inplaceLoop stack eval job fuel (S i) n updates clock s
    end
  else Some (n, updates, clock, s).

(** The updates that could not be done in place, and those that were. *)
Definition inplaceUpdate (stack : StackOps) (eval : Evaluation) (job : option Job) (updates : list allocTuple) (clock : nat)
    (s : GenericStack) : option (list allocTuple * list allocTuple * nat * GenericStack) :=
  r ← inplaceLoop stack eval job (length updates) 0 (length updates) updates clock s;
  let '(n, updates, clock, s) := r in
  Some (take n updates, drop n updates, clock, s).

(** What the reconciler is told of an allocation: to ignore it, to replace it, or the
    allocation that updates it. *)
Definition genericAllocUpdateFn (evalID : string) (existing : Allocation) (newJob : Job) (newTG : TaskGroup) (clock : nat)
    (s : GenericStack) : option (bool * bool * option Allocation * nat * GenericStack) :=
  ej ← al_Job existing;
  if bool_decide (jb_JobModifyIndex ej = jb_JobModifyIndex newJob) then Some (true, false, None, clock, s)
  else
    updated ← tasksUpdated newJob ej (tg_Name newTG);
    if (updated : bool) then Some (false, true, None, clock, s)
    else if AllocTerminal existing then Some (true, false, None, clock, s)
    else
      match sc_NodeByID (ec_state (gs_ctx s)) (al_NodeID existing) with
      | inl _ => Some (true, false, None, clock, s)
      | inr None => Some (false, true, None, clock, s)
      | inr (Some node) =>
          r ← selectInPlace genericOps evalID existing newTG node clock s;
          let '(newAlloc, s) := r in
          match newAlloc with
          | None => Some (false, true, None, S clock, s)
          | Some newAlloc => Some (false, false, Some newAlloc, S clock, s)
          end
      end.
End inplace.
