(* ===== verification/SchedUtilSpec.v ===== *)
(** * What the helpers of the schedulers compute

    The fate of an allocation in the difference, the differences by node, what the plan
    stops, and the attempts of the retry loop. *)

From stdpp Require Import base gmap strings list.
From Stdlib Require Import ZArith Lia.
From S2P Require Import Prelude GoText GoHeap Structs Resources Jobs Allocs Fit Plans Reconcile SchedContext Stack SchedUtil.
Open Scope string_scope.
Open Scope list_scope.
Open Scope Z_scope.

(** ** The fate of an allocation *)

Inductive fate := FStop | FLost | FMigrate | FUpdate | FIgnore.
#[export] Instance fate_eq : EqDecision fate.
Proof. solve_decision. Defined.

Section diff.
Context (job : option Job) (tainted : gmap string (option Node)) (required : gmap string TaskGroup).

(** What should become of an allocation. *)
Definition fateOf (a : Allocation) : fate :=
  match required !! al_Name a with
  | None => FStop
  | Some _ =>
      match tainted !! al_NodeID a with
      | Some node =>
          if bool_decide (jb_Type <$> al_Job a = Some JobTypeBatch) && RanSuccessfully a then FIgnore
          else if from_option NodeTerminal true node then FLost else FMigrate
      | None => if bool_decide (jb_JobModifyIndex <$> job = jb_JobModifyIndex <$> al_Job a) then FIgnore else FUpdate
      end
  end.

Definition tupleOf (a : Allocation) : allocTuple := mkAllocTuple (al_Name a) (required !! al_Name a) (Some a).
Definition withFate (f : fate) (l : list Allocation) : list allocTuple := tupleOf <$> filter (fun a => fateOf a = f) l.

Lemma withFate_app f l l' : withFate f (l ++ l') = withFate f l ++ withFate f l'.
Proof. unfold withFate. by rewrite filter_app, fmap_app. Qed.
Lemma withFate_perm f l l' : l ≡ₚ l' → withFate f l ≡ₚ withFate f l'.
Proof. unfold withFate. by intros ->. Qed.
Lemma elem_of_withFate f l t : t ∈ withFate f l ↔ ∃ a, a ∈ l ∧ fateOf a = f ∧ t = tupleOf a.
Proof. unfold withFate. rewrite list_elem_of_fmap. setoid_rewrite list_elem_of_filter. naive_solver. Qed.

(** The allocations have their job, and where one is required there is a job. *)
Definition diffable (l : list Allocation) : Prop :=
  ∀ a, a ∈ l → is_Some (required !! al_Name a) → is_Some (al_Job a) ∧ is_Some job.

Definition fates (l : list Allocation) : diffResult :=
  mkDiffResult [] (withFate FUpdate l) (withFate FMigrate l) (withFate FStop l) (withFate FIgnore l) (withFate FLost l).

Lemma diffExisting_spec result a :
  diffable [a] → diffExisting job tainted required result a = Some (AppendDiff result (fates [a])).
Proof.
  intros Hd. destruct result as [pl up mi st ig lo]. unfold diffExisting, AppendDiff, fates, withFate. cbv zeta. simpl.
  rewrite !filter_cons, !filter_nil, app_nil_r. unfold fateOf.
  destruct (required !! al_Name a) as [tg|] eqn:Er.
  2:{ rewrite bool_decide_eq_false_2 by (by intros []). simpl. by rewrite !app_nil_r, <- Er. }
  destruct (Hd a ltac:(left) ltac:(by eexists)) as [[ej Hej] [j Hj]]. rewrite Hej, Hj, bool_decide_eq_true_2 by by eexists.
  assert (mkAllocTuple (al_Name a) (Some tg) (Some a) = tupleOf a) as Et by (unfold tupleOf; by rewrite Er). rewrite Et.
  destruct (tainted !! al_NodeID a) as [node|]; simpl.
  - rewrite (bool_decide_ext (Some (jb_Type ej) = Some JobTypeBatch) (jb_Type ej = JobTypeBatch)) by (split; congruence).
    destruct (_ && _); simpl; [by rewrite !app_nil_r|]. destruct node as [n|]; simpl; [|by rewrite !app_nil_r].
    destruct (NodeTerminal n); simpl; by rewrite !app_nil_r.
  - destruct (decide (jb_JobModifyIndex j = jb_JobModifyIndex ej)) as [E|E].
    + rewrite bool_decide_eq_false_2 by auto. rewrite bool_decide_eq_true_2 by congruence. simpl. by rewrite !app_nil_r.
    + rewrite bool_decide_eq_true_2 by done. rewrite bool_decide_eq_false_2 by congruence. simpl. by rewrite !app_nil_r.
Qed.

Lemma AppendDiff_assoc a b c : AppendDiff (AppendDiff a b) c = AppendDiff a (AppendDiff b c).
Proof. unfold AppendDiff. simpl. by rewrite !app_assoc. Qed.
Lemma fates_cons a l : AppendDiff (fates [a]) (fates l) = fates (a :: l).
Proof. unfold AppendDiff, fates. simpl. by rewrite <- !withFate_app. Qed.

Lemma diffScan_spec l : ∀ result,
  diffable l → diffScan job tainted required result l = Some (AppendDiff result (fates l)).
Proof.
  induction l as [|a l IH]; intros result Hd; simpl.
  { destruct result. unfold AppendDiff, fates, withFate. simpl. by rewrite !app_nil_r. }
  rewrite diffExisting_spec by (intros b ->%list_elem_of_singleton; apply Hd; left). simpl.
  rewrite IH by (intros b Hb; apply Hd; by right). by rewrite AppendDiff_assoc, fates_cons.
Qed.

(** What is missing on a node, and annotated for it. *)
Definition missingOn (range : gmap string TaskGroup → list (string * TaskGroup)) (terminal : gmap string Allocation)
    (id : string) (l : list Allocation) : list allocTuple :=
  if bool_decide (is_Some (tainted !! id)) then []
  else annotate id <$> ((fun nt => mkAllocTuple nt.1 (Some nt.2) (terminal !! nt.1)) <$>
         filter (fun nt => nt.1 ∉ (list_to_set (al_Name <$> l) : gset string)) (range required)).

Lemma diffNode_spec range terminal id l :
  diffable l →
  diffNode range job tainted required terminal id l =
    Some (mkDiffResult (missingOn range terminal id l) (withFate FUpdate l) [] (withFate FStop l ++ withFate FMigrate l)
            (withFate FIgnore l) (withFate FLost l)).
Proof.
  intros Hd. unfold diffNode, diffAllocs. rewrite (diffScan_spec l emptyDiff Hd). simpl.
  unfold missingOn. destruct (bool_decide (is_Some (tainted !! id))); done.
Qed.

(** The nodes in turn. *)
Definition systemDiff (range : string → gmap string TaskGroup → list (string * TaskGroup)) (terminal : gmap string Allocation)
    (m : list (string * list Allocation)) : diffResult :=
  let l := concat m.*2 in
  mkDiffResult (flat_map (fun il => missingOn (range il.1) terminal il.1 il.2) m) (withFate FUpdate l) []
    (flat_map (fun il => withFate FStop il.2 ++ withFate FMigrate il.2) m) (withFate FIgnore l) (withFate FLost l).

Lemma diffNodes_spec range terminal m : ∀ result,
  diffable (concat m.*2) →
  diffNodes range job tainted required terminal result m = Some (AppendDiff result (systemDiff range terminal m)).
Proof.
  induction m as [|[id l] m IH]; intros result Hd; simpl.
  { destruct result. unfold AppendDiff, systemDiff, withFate. simpl. by rewrite !app_nil_r. }
  simpl in Hd. rewrite diffNode_spec by (intros a Ha; apply Hd, elem_of_app; by left). simpl.
  rewrite IH by (intros a Ha; apply Hd, elem_of_app; by right). rewrite AppendDiff_assoc. f_equal. f_equal.
  unfold AppendDiff, systemDiff. simpl. by rewrite !withFate_app.
Qed.
End diff.

(** ** Allocations by node *)

Definition byNode (allocs : list Allocation) : gmap string (list Allocation) :=
  foldl (fun (m : gmap string (list Allocation)) alloc =>
    <[al_NodeID alloc := default [] (m !! al_NodeID alloc) ++ [alloc]]> m) ∅ allocs.

Lemma byNode_snoc allocs a : byNode (allocs ++ [a]) =
  <[al_NodeID a := default [] (byNode allocs !! al_NodeID a) ++ [a]]> (byNode allocs).
Proof. unfold byNode. by rewrite foldl_app. Qed.

Lemma byNode_flat allocs : flat (byNode allocs) ≡ₚ allocs.
Proof.
  induction allocs as [|a allocs IH] using rev_ind; [done|]. rewrite byNode_snoc, flat_insert.
  rewrite (flat_delete (byNode allocs) (al_NodeID a)) in IH. rewrite <- app_assoc, (Permutation_app_comm [a]), app_assoc.
  by rewrite IH.
Qed.

Lemma byNode_lookup allocs id : default [] (byNode allocs !! id) = filter (fun a => al_NodeID a = id) allocs.
Proof.
  induction allocs as [|a allocs IH] using rev_ind; [done|]. rewrite byNode_snoc, filter_app, filter_cons, filter_nil.
  destruct (decide (al_NodeID a = id)) as [<-|Hne].
  - rewrite lookup_insert_eq. simpl. by rewrite IH.
  - rewrite lookup_insert_ne by done. by rewrite app_nil_r.
Qed.

Lemma byNode_dom allocs id : is_Some (byNode allocs !! id) ↔ id ∈ al_NodeID <$> allocs.
Proof.
  induction allocs as [|a allocs IH] using rev_ind.
  { split; [by intros []|]. by intros ?%elem_of_nil. }
  rewrite byNode_snoc, lookup_insert_is_Some, fmap_app, elem_of_app, IH. simpl. rewrite list_elem_of_singleton.
  destruct (decide (al_NodeID a = id)); naive_solver.
Qed.

Lemma allocsByNode_lookup nodes allocs id :
  allocsByNode nodes allocs !! id =
    match byNode allocs !! id with
    | Some l => Some l
    | None => if decide (id ∈ nd_ID <$> nodes) then Some [] else None
    end.
Proof.
  unfold allocsByNode. fold (byNode allocs). induction nodes as [|n nodes IH] using rev_ind.
  { cbn [foldl]. destruct (byNode allocs !! id); [done|]. case_decide as Hin; [|done]. by apply elem_of_nil in Hin. }
  rewrite foldl_app. simpl. set (m := foldl _ _ nodes) in *. rewrite fmap_app. simpl.
  destruct (decide (id = nd_ID n)) as [->|Hne].
  - rewrite (decide_True (P := nd_ID n ∈ _ ++ _)) by (apply elem_of_app; right; left).
    destruct (m !! nd_ID n) as [l|] eqn:E; [rewrite E, IH|rewrite lookup_insert_eq];
      destruct (byNode allocs !! nd_ID n); try done. rewrite decide_True; [done|]. apply dec_stable. intros Hn.
    by rewrite decide_False in IH.
  - assert ((match m !! nd_ID n with Some _ => m | None => <[nd_ID n:=[]]> m end) !! id = m !! id) as ->.
    { destruct (m !! nd_ID n); [done|]. by rewrite lookup_insert_ne. }
    rewrite IH. destruct (byNode allocs !! id); [done|]. apply decide_ext. rewrite elem_of_app, list_elem_of_singleton. tauto.
Qed.

(** The map has an entry for each node with an allocation and for each of the nodes. *)
Lemma allocsByNode_spec nodes allocs id l :
  allocsByNode nodes allocs !! id = Some l ↔
  (id ∈ al_NodeID <$> allocs ∨ id ∈ nd_ID <$> nodes) ∧ l = filter (fun a => al_NodeID a = id) allocs.
Proof.
  rewrite allocsByNode_lookup. pose proof (byNode_lookup allocs id) as Hl. pose proof (byNode_dom allocs id) as Hd.
  rewrite <- Hd, <- Hl. destruct (byNode allocs !! id) as [l'|]; simpl.
  - split; [intros [= ->]; split; [left; by eexists|done]|by intros [_ ->]].
  - case_decide as Hin; split; try (by intros [= <-]; auto); intros [[[]|?] ->]; done.
Qed.

Lemma allocsByNode_flat nodes allocs : flat (allocsByNode nodes allocs) ≡ₚ allocs.
Proof.
  unfold allocsByNode. fold (byNode allocs). induction nodes as [|n nodes IH] using rev_ind; [apply byNode_flat|].
  rewrite foldl_app. simpl. set (m := foldl _ _ nodes) in *. destruct (m !! nd_ID n) as [l|] eqn:E; [done|].
  rewrite flat_insert. simpl. by rewrite delete_id.
Qed.

(** ** The difference of a system job *)

(** A group is missing on a node when the node is not tainted and none of its
    allocations has the name. *)
Definition missing (tainted : gmap string (option Node)) (required : gmap string TaskGroup) (nodes : list Node)
    (allocs : list Allocation) (id name : string) (tg : TaskGroup) : Prop :=
  (id ∈ al_NodeID <$> allocs ∨ id ∈ nd_ID <$> nodes) ∧ tainted !! id = None ∧ required !! name = Some tg ∧
  ∀ a, a ∈ allocs → al_NodeID a = id → al_Name a ≠ name.

Lemma elem_of_missingOn tainted required range terminal id l t :
  range required ≡ₚ map_to_list required →
  t ∈ missingOn tainted required range terminal id l ↔
  tainted !! id = None ∧ ∃ name tg, required !! name = Some tg ∧ (name ∉ al_Name <$> l) ∧
    t = annotate id (mkAllocTuple name (Some tg) (terminal !! name)).
Proof.
  intros Hrange. unfold missingOn. case_bool_decide as Ht.
  { split; [by intros ?%elem_of_nil|]. intros [E _]. rewrite E in Ht. by destruct Ht. }
  rewrite <- eq_None_not_Some in Ht. rewrite list_elem_of_fmap. split.
  - intros (t' & -> & ([name tg] & -> & [Hn Hin]%list_elem_of_filter)%list_elem_of_fmap).
    rewrite elem_of_list_to_set in Hn. rewrite Hrange, elem_of_map_to_list in Hin. split; [done|]. by exists name, tg.
  - intros (_ & name & tg & Hin & Hn & ->). eexists. split; [done|]. apply list_elem_of_fmap. exists (name, tg).
    split; [done|]. by rewrite list_elem_of_filter, elem_of_list_to_set, Hrange, elem_of_map_to_list.
Qed.

Lemma withFate_flat_map job tainted required f m :
  flat_map (fun il : string * list Allocation => withFate job tainted required f il.2) m =
  withFate job tainted required f (concat m.*2).
Proof. induction m as [|[id l] m IH]; [done|]. simpl. by rewrite withFate_app, IH. Qed.

Lemma flat_map_app_perm {A B} (f g : A → list B) l : flat_map (fun x => f x ++ g x) l ≡ₚ flat_map f l ++ flat_map g l.
Proof.
  induction l as [|x l IH]; [done|]. simpl. rewrite IH. rewrite <- !app_assoc. f_equiv. rewrite !app_assoc. f_equiv.
  apply Permutation_app_comm.
Qed.

(** Each allocation is in exactly one of the lists, that of its fate; those to migrate
    are stopped.  What is placed is what is missing. *)
Record diffRight (job : option Job) (nodes : list Node) (tainted : gmap string (option Node)) (allocs : list Allocation)
    (terminal : gmap string Allocation) (diff : diffResult) : Prop := {
  dx_migrate : dr_migrate diff = [];
  dx_stop : dr_stop diff ≡ₚ withFate job tainted (materializeTaskGroups job) FStop allocs ++
                            withFate job tainted (materializeTaskGroups job) FMigrate allocs;
  dx_lost : dr_lost diff ≡ₚ withFate job tainted (materializeTaskGroups job) FLost allocs;
  dx_update : dr_update diff ≡ₚ withFate job tainted (materializeTaskGroups job) FUpdate allocs;
  dx_ignore : dr_ignore diff ≡ₚ withFate job tainted (materializeTaskGroups job) FIgnore allocs;
  dx_place : ∀ t, t ∈ dr_place diff ↔ ∃ id name tg, missing tainted (materializeTaskGroups job) nodes allocs id name tg ∧
    t = annotate id (mkAllocTuple name (Some tg) (terminal !! name))
}.

Lemma diffSystemAllocs_spec rangeNodes range job nodes tainted allocs terminal :
  (∀ m, rangeNodes m ≡ₚ map_to_list m) → (∀ id m, range id m ≡ₚ map_to_list m) →
  diffable job (materializeTaskGroups job) allocs →
  ∃ diff, diffSystemAllocs rangeNodes range job nodes tainted allocs terminal = Some diff ∧
    diffRight job nodes tainted allocs terminal diff.
Proof.
  intros HrN Hr Hd. set (required := materializeTaskGroups job) in *. set (m := allocsByNode nodes allocs).
  assert (concat (rangeNodes m).*2 ≡ₚ allocs) as Hc.
  { rewrite HrN. apply allocsByNode_flat. }
  exists (systemDiff job tainted required range terminal (rangeNodes m)). unfold diffSystemAllocs. fold required m.
  rewrite diffNodes_spec by (intros a; rewrite Hc; apply Hd).
  split; [by destruct (systemDiff _ _ _ _ _ _)|]. split; simpl; [done|..].
  - rewrite flat_map_app_perm, !withFate_flat_map. by rewrite !(withFate_perm _ _ _ _ _ _ Hc).
  - by apply withFate_perm.
  - by apply withFate_perm.
  - by apply withFate_perm.
  - intros t. rewrite list_elem_of_In, in_flat_map. setoid_rewrite <- list_elem_of_In. split.
    + intros ([id l] & Hin & Ht). rewrite HrN in Hin. apply elem_of_map_to_list, allocsByNode_spec in Hin as [Hid ->].
      apply elem_of_missingOn in Ht as (Ht & name & tg & Hreq & Hn & ->); [|apply Hr]. exists id, name, tg.
      split; [|done]. split_and!; try done. intros a Ha E1 E2. apply Hn, list_elem_of_fmap.
      exists a. split; [done|]. by apply list_elem_of_filter.
    + intros (id & name & tg & (Hid & Ht & Hreq & Hn) & ->). exists (id, filter (fun a => al_NodeID a = id) allocs).
      rewrite HrN, elem_of_map_to_list. split; [by apply allocsByNode_spec|].
      apply elem_of_missingOn; [apply Hr|]. split; [done|]. exists name, tg. split_and!; try done.
      intros (a & Ea & [E1 Ha]%list_elem_of_filter)%list_elem_of_fmap. by apply (Hn a).
Qed.

(** ** What a plan stops and places *)

Definition updatesOf (p : Plan) (n : string) : list Allocation := default [] (pl_NodeUpdate p !! n).
Definition allocsOf (p : Plan) (n : string) : list Allocation := default [] (pl_NodeAllocation p !! n).

(** The identifiers of what the plan stops on a node. *)
Definition stopsOn (p : Plan) (n : string) : list string := al_ID <$> updatesOf p n.

(** [p'] stops the allocations [l] besides what [p] stops, and is [p] for the rest. *)
Record stopsMore (l : list Allocation) (p p' : Plan) : Prop := {
  sm_stops : ∀ n, stopsOn p' n = stopsOn p n ++ (al_ID <$> filter (fun a => al_NodeID a = n) l);
  sm_desired : ∀ n u, u ∈ updatesOf p' n → u ∈ updatesOf p n ∨ al_DesiredStatus u = AllocDesiredStatusStop;
  sm_allocs : pl_NodeAllocation p' = pl_NodeAllocation p;
  sm_annotations : pl_Annotations p' = pl_Annotations p;
  sm_job : is_Some (pl_Job p) → pl_Job p' = pl_Job p
}.

Lemma stopsMore_nil p : stopsMore [] p p.
Proof. split; auto. intros n. by rewrite app_nil_r. Qed.

Lemma stopsMore_app l l' p p1 p2 : stopsMore l p p1 → stopsMore l' p1 p2 → stopsMore (l ++ l') p p2.
Proof.
  intros [S1 D1 A1 N1 J1] [S2 D2 A2 N2 J2]. split; [|..|congruence|congruence|].
  - intros n. by rewrite S2, S1, filter_app, fmap_app, app_assoc.
  - intros n u [Hu| ->]%D2; [by apply D1|by right].
  - intros Hj. rewrite J2; [by apply J1|]. by rewrite J1.
Qed.

Lemma AppendUpdate_stops p a desc client :
  stopsMore [a] p (AppendUpdate p a AllocDesiredStatusStop desc client).
Proof.
  unfold AppendUpdate. cbv zeta. set (p0 := match pl_Job p with Some _ => p | None => _ end).
  assert (pl_NodeUpdate p0 = pl_NodeUpdate p ∧ pl_NodeAllocation p0 = pl_NodeAllocation p ∧ pl_Annotations p0 = pl_Annotations p ∧
    (is_Some (pl_Job p) → pl_Job p0 = pl_Job p)) as (E1 & E2 & E3 & E4).
  { subst p0. destruct (pl_Job p) eqn:Ej, (al_Job a); split_and!; try done; by intros []. }
  set (u := if bool_decide (client = "") then _ else _). assert (al_ID u = al_ID a ∧ al_DesiredStatus u = AllocDesiredStatusStop) as [Eu Es].
  { subst u. by case_bool_decide. }
  clearbody u p0. split; simpl; try done.
  - intros n. unfold stopsOn, updatesOf. simpl. rewrite E1, filter_cons, filter_nil.
    destruct (decide (al_NodeID a = n)) as [<-|Hne].
    + rewrite lookup_insert_eq. simpl. by rewrite fmap_app, <- Eu.
    + rewrite lookup_insert_ne by done. by rewrite app_nil_r.
  - intros n x. unfold updatesOf. simpl. rewrite E1. destruct (decide (al_NodeID a = n)) as [<-|Hne].
    + rewrite lookup_insert_eq. simpl. rewrite elem_of_app, list_elem_of_singleton. intros [?| ->]; auto.
    + rewrite lookup_insert_ne by done. auto.
Qed.

Lemma updateNonTerminalAllocsToLost_stops tainted l : ∀ p, ∃ lost,
  stopsMore lost p (updateNonTerminalAllocsToLost p tainted l) ∧
  ∀ a, a ∈ lost → a ∈ l ∧ AllocTerminal a = true.
Proof.
  unfold updateNonTerminalAllocsToLost. induction l as [|a l IH]; intros p; simpl.
  { exists []. split; [apply stopsMore_nil|]. by intros a ?%elem_of_nil. }
  destruct (_ && _ && _) eqn:E.
  2:{ destruct (IH p) as (lost & Hs & Hl). exists lost. split; [done|]. intros b Hb. destruct (Hl b Hb). by split; [right|]. }
  destruct (IH (AppendUpdate p a AllocDesiredStatusStop allocLost AllocClientStatusLost)) as (lost & Hs & Hl).
  exists (a :: lost). split; [apply (stopsMore_app [a] lost _ _ _ (AppendUpdate_stops _ _ _ _) Hs)|].
  intros b [->|Hb]%elem_of_cons; [|destruct (Hl b Hb); by split; [right|]]. split; [left|].
  unfold AllocTerminal. apply andb_true_iff in E as [[_ Es]%andb_true_iff _]. by rewrite Es.
Qed.

(** Taking back an update leaves what is stopped. *)
Lemma PopUpdate_undoes p a desc client n :
  updatesOf (PopUpdate (AppendUpdate p a AllocDesiredStatusStop desc client) a) n = updatesOf p n.
Proof.
  unfold PopUpdate, AppendUpdate. cbv zeta. set (p0 := match pl_Job p with Some _ => p | None => _ end).
  assert (pl_NodeUpdate p0 = pl_NodeUpdate p) as E1 by (subst p0; by destruct (pl_Job p), (al_Job a)).
  set (u := if bool_decide (client = "") then _ else _). assert (al_ID u = al_ID a) as Eu by (subst u; by case_bool_decide).
  clearbody u p0. cbn [pl_NodeUpdate]. unfold updatesOf. simpl. rewrite E1, lookup_insert_eq. cbn [default from_option id].
  rewrite last_snoc, bool_decide_eq_true_2 by done. rewrite length_app. cbn [length].
  rewrite Nat.add_sub, take_app_length. destruct (Nat.ltb_spec 0 (length (default [] (pl_NodeUpdate p !! al_NodeID a)))) as [Hl|Hl]; simpl.
  - destruct (decide (al_NodeID a = n)) as [<-|Hne]; [by rewrite lookup_insert_eq|]. by rewrite !lookup_insert_ne.
  - destruct (decide (al_NodeID a = n)) as [<-|Hne].
    + rewrite lookup_delete_eq. simpl. symmetry. by apply nil_length_inv; lia.
    + by rewrite lookup_delete_ne, lookup_insert_ne.
Qed.

(** ** Evictions *)

Definition allocsIn (ts : list allocTuple) : list Allocation := omap at_Alloc ts.

Lemma stopAndPlace_spec desc client ts : ∀ limit p place,
  (∀ t, t ∈ ts → is_Some (at_Alloc t)) →
  ∃ p', stopAndPlace desc client limit ts p place = Some (p', place ++ take (Z.to_nat limit) ts) ∧
    stopsMore (allocsIn (take (Z.to_nat limit) ts)) p p'.
Proof.
  induction ts as [|t ts IH]; intros limit p place Ht; simpl.
  { exists p. rewrite take_nil, app_nil_r. split; [done|apply stopsMore_nil]. }
  destruct (Ht t ltac:(left)) as [a Ea]. destruct (Z.ltb_spec 0 limit) as [Hl|Hl].
  - rewrite Ea. simpl. destruct (IH (limit - 1) (AppendUpdate p a AllocDesiredStatusStop desc client) (place ++ [t]))
      as (p' & E & Hs); [intros t' ?; apply Ht; by right|]. rewrite E. exists p'.
    replace (Z.to_nat limit) with (S (Z.to_nat (limit - 1))) by lia. cbn [take]. split; [by rewrite <- app_assoc|].
    unfold allocsIn. simpl. rewrite Ea. apply (stopsMore_app [a] _ _ _ _ (AppendUpdate_stops p a desc client) Hs).
  - exists p. replace (Z.to_nat limit) with 0%nat by lia. rewrite app_nil_r. split; [done|apply stopsMore_nil].
Qed.

(** The first [limit] allocations are stopped and placed again, and the limit is
    reached when there are more. *)
Lemma evictAndPlace_spec p diff ts desc limit :
  (∀ t, t ∈ ts → is_Some (at_Alloc t)) →
  ∃ rest p', evictAndPlace p diff ts desc limit =
      Some (negb (Z.of_nat (length ts) <=? limit), rest, diff <| dr_place ::= fun l => l ++ take (Z.to_nat limit) ts |>, p') ∧
    stopsMore (allocsIn (take (Z.to_nat limit) ts)) p p'.
Proof.
  intros Ht. unfold evictAndPlace, evictWith.
  destruct (stopAndPlace_spec desc "" ts limit p (dr_place diff) Ht) as (p' & -> & Hs). simpl.
  destruct (Z.of_nat (length ts) <=? limit); simpl; by eexists _, p'.
Qed.

(** ** Desired updates *)

Lemma bumpDesired_dom f names : ∀ m name,
  is_Some (m !! name) ∨ name ∈ names → is_Some (foldl (bumpDesired f) m names !! name).
Proof.
  induction names as [|x names IH]; intros m name; simpl; [by intros [?|?%elem_of_nil]|].
  rewrite elem_of_cons. intros Hn. apply IH. unfold bumpDesired. rewrite lookup_insert_is_Some'. naive_solver.
Qed.

Lemma groupNames_spec ts :
  (∀ t, t ∈ ts → is_Some (at_TaskGroup t)) →
  ∃ names, groupNames ts = Some names ∧ ∀ t tg, t ∈ ts → at_TaskGroup t = Some tg → tg_Name tg ∈ names.
Proof.
  unfold groupNames. induction ts as [|t ts IH]; intros Ht; simpl.
  { exists []. split; [done|]. by intros t tg ?%elem_of_nil. }
  destruct (Ht t ltac:(left)) as [tg E]. rewrite E. simpl.
  destruct IH as (names & -> & Hn); [intros t' ?; apply Ht; by right|]. simpl. exists (tg_Name tg :: names).
  split; [done|]. intros t' tg' [->|Hin]%elem_of_cons Et; [|right; by eapply Hn]. rewrite E in Et. injection Et as ->. left.
Qed.

(** Every group that is placed or replaced has its desired updates. *)
Lemma desiredUpdates_spec diff inplace destructive :
  (∀ t, t ∈ dr_place diff ++ dr_ignore diff ++ dr_migrate diff ++ inplace ++ destructive → is_Some (at_TaskGroup t)) →
  (∀ t, t ∈ dr_stop diff → is_Some (at_Alloc t)) →
  ∃ m, desiredUpdates diff inplace destructive = Some m ∧
    ∀ t tg, t ∈ dr_place diff ++ destructive → at_TaskGroup t = Some tg → is_Some (m !! tg_Name tg).
Proof.
  intros Hg Hs. unfold desiredUpdates.
  assert (∀ ts, (∀ t, t ∈ ts → t ∈ dr_place diff ++ dr_ignore diff ++ dr_migrate diff ++ inplace ++ destructive) →
    ∃ names, groupNames ts = Some names ∧ ∀ t tg, t ∈ ts → at_TaskGroup t = Some tg → tg_Name tg ∈ names) as Hnames.
  { intros ts Hts. apply groupNames_spec. auto. }
  assert (is_Some (mapM (fun t => option_map al_TaskGroup (at_Alloc t)) (dr_stop diff))) as [stop Est].
  { apply mapM_is_Some_2, Forall_forall. intros t Ht. destruct (Hs t Ht) as [a E]. exists (al_TaskGroup a). by rewrite E. }
  destruct (Hnames (dr_place diff)) as (n1 & -> & H1); [intros; solve_in|]. destruct (Hnames (dr_ignore diff)) as (n2 & -> & _); [intros; solve_in|].
  destruct (Hnames (dr_migrate diff)) as (n3 & -> & _); [intros; solve_in|]. destruct (Hnames inplace) as (n4 & -> & _); [intros; solve_in|].
  destruct (Hnames destructive) as (n5 & -> & H5); [intros; solve_in|]. rewrite Est. simpl. eexists. split; [reflexivity|].
  intros t tg [Ht|Ht]%elem_of_app E.
  - do 5 (apply bumpDesired_dom; left). apply bumpDesired_dom. right. by eapply H1.
  - apply bumpDesired_dom. right. by eapply H5.
Qed.

(** ** Tainted nodes *)

(** Whether the allocations of a node have to leave it. *)
Definition drains (n : Node) : bool := bool_decide (nd_Status n = NodeStatusDown) || nd_Drain n.

(** What the state knows of a node. *)
Definition taintOf (node : option Node) : option (option Node) :=
  match node with
  | None => Some None
  | Some n => if drains n then Some (Some n) else None
  end.

(** The state knows the nodes of the allocations, with a status there is. *)
Definition nodesKnown (state : SchedState) (allocs : list Allocation) : Prop :=
  ∀ a, a ∈ allocs → ∃ node, sc_NodeByID state (al_NodeID a) = inr node ∧
    ∀ n, node = Some n → ValidNodeStatus (nd_Status n) = true.

Lemma ShouldDrainNode_valid n : ValidNodeStatus (nd_Status n) = true → ∃ b, ShouldDrainNode (nd_Status n) = Some b ∧ b || nd_Drain n = drains n.
Proof.
  unfold ValidNodeStatus, drains. generalize (nd_Status n). intros status.
  rewrite !orb_true_iff, !bool_decide_eq_true. intros [[->| ->]| ->]; eexists; (split; [reflexivity|done]).
Qed.

Lemma taintedNodes_spec state allocs : ∀ out,
  nodesKnown state allocs →
  ∃ t, taintedNodes state out allocs = Some (inr t) ∧
    ∀ id, t !! id = match out !! id with
                    | Some x => Some x
                    | None =>
                        if decide (id ∈ al_NodeID <$> allocs) then
                          match sc_NodeByID state id with inr node => taintOf node | inl _ => None end
                        else None
                    end.
Proof.
  induction allocs as [|a allocs IH]; intros out Hk.
  { exists out. split; [done|]. intros id. destruct (out !! id); [done|]. rewrite decide_False; [done|apply not_elem_of_nil]. }
  destruct (Hk a ltac:(left)) as (node & En & Hv).
  assert (nodesKnown state allocs) as Hk' by (intros b Hb; apply Hk; by right).
  assert (∀ out', (out' = match taintOf node with Some x => <[al_NodeID a := x]> out | None => out end) → out !! al_NodeID a = None →
    ∃ t, taintedNodes state out' allocs = Some (inr t) ∧
    ∀ id, t !! id = match out !! id with
                    | Some x => Some x
                    | None => if decide (id ∈ al_NodeID <$> (a :: allocs)) then
                                match sc_NodeByID state id with inr node => taintOf node | inl _ => None end
                              else None
                    end) as Hgo.
  { intros out' -> Hout. destruct (IH (match taintOf node with Some x => <[al_NodeID a := x]> out | None => out end) Hk') as (t & -> & Ht).
    exists t. split; [done|]. intros id. rewrite Ht, fmap_cons. destruct (decide (id = al_NodeID a)) as [->|Hne].
    - rewrite Hout, En, (decide_True (P := _ ∈ _ :: _)) by left.
      destruct (taintOf node) eqn:Et; [by rewrite lookup_insert_eq|]. rewrite Hout. by case_decide.
    - assert ((match taintOf node with Some x => <[al_NodeID a := x]> out | None => out end) !! id = out !! id) as ->.
      { destruct (taintOf node); [|done]. by rewrite lookup_insert_ne. }
      destruct (out !! id); [done|]. erewrite decide_ext; [done|]. rewrite elem_of_cons. tauto. }
  cbn [taintedNodes]. destruct (out !! al_NodeID a) as [x|] eqn:Eout.
  { destruct (IH out Hk') as (t & -> & Ht). exists t. split; [done|]. intros id. rewrite Ht, fmap_cons.
    destruct (out !! id) eqn:E; [done|]. erewrite decide_ext; [done|]. rewrite elem_of_cons.
    split; [by right|]. intros [->|?]; [congruence|done]. }
  rewrite En. destruct node as [n|]; [|by apply Hgo].
  destruct (ShouldDrainNode_valid n (Hv n eq_refl)) as (b & -> & Eb). cbn [mbind option_bind]. rewrite Eb.
  apply Hgo; [|done]. unfold taintOf. by destruct (drains n).
Qed.

(** ** Ready nodes *)

Lemma readyNodesInDCs_spec state nodes dcs :
  sc_Nodes state = inr nodes →
  ∃ out dcMap, readyNodesInDCs state dcs = inr (out, dcMap) ∧
    out = filter (fun n => NodeReady n = true ∧ nd_Datacenter n ∈ dcs) nodes.
Proof.
  intros E. unfold readyNodesInDCs. rewrite E. set (dc0 := foldl _ ∅ dcs).
  assert (∀ dc, is_Some (dc0 !! dc) ↔ dc ∈ dcs) as H0.
  { subst dc0. intros dc. induction dcs as [|x dcs IH] using rev_ind; simpl.
    - split; [by intros []|]. by intros ?%elem_of_nil.
    - rewrite foldl_app. cbn [foldl]. rewrite lookup_insert_is_Some', IH, elem_of_app, list_elem_of_singleton. naive_solver. }
  assert (∀ out (dcMap : gmap string Z), (∀ dc, is_Some (dcMap !! dc) ↔ dc ∈ dcs) → ∃ dcMap',
    foldl (fun (acc : list Node * gmap string Z) node =>
          let '(out, dcMap) := acc in
          if bool_decide (nd_Status node ≠ NodeStatusReady) || nd_Drain node then (out, dcMap)
          else
            match dcMap !! nd_Datacenter node with
            | None => (out, dcMap)
            | Some n => (out ++ [node], <[nd_Datacenter node := n + 1]> dcMap)
            end) (out, dcMap) nodes =
      (out ++ filter (fun n => NodeReady n = true ∧ nd_Datacenter n ∈ dcs) nodes, dcMap')) as Hgo.
  2:{ destruct (Hgo [] dc0 H0) as [dcMap' ->]. by eexists _, dcMap'. }
  clear E H0 dc0. induction nodes as [|n nodes IH]; intros out dcMap Hdom; cbn [foldl].
  { exists dcMap. by rewrite filter_nil, app_nil_r. }
  assert (bool_decide (nd_Status n ≠ NodeStatusReady) || nd_Drain n = negb (NodeReady n)) as ->.
  { unfold NodeReady. rewrite bool_decide_not. by destruct (bool_decide _), (nd_Drain n). }
  rewrite filter_cons. destruct (NodeReady n) eqn:Er; cbn [negb].
  2:{ rewrite decide_False by (by intros [? _]). by apply IH. }
  destruct (dcMap !! nd_Datacenter n) as [c|] eqn:Ed.
  - rewrite decide_True by (split; [done|]; apply Hdom; by eexists).
    destruct (IH (out ++ [n]) (<[nd_Datacenter n := c + 1]> dcMap)) as [dcMap' ->].
    { intros dc. rewrite <- Hdom, lookup_insert_is_Some'. split; [|by right]. intros [<-|?]; [by eexists|done]. }
    exists dcMap'. by rewrite <- app_assoc.
  - rewrite decide_False; [by apply IH|]. intros [_ Hin%Hdom]. rewrite Ed in Hin. by destruct Hin.
Qed.

(** ** Retries *)

(** The loop ends when the callback returns, and every reset uses up some of a budget
    that no attempt adds to. *)
Lemma retryLoop_returns {S} (max : Z) (cb : S → option ((string + bool) * S)) (reset : S → bool) (good : S → Prop)
    (budget : S → nat) :
  0 ≤ max →
  (∀ s, good s → ∃ r s', cb s = Some (r, s') ∧
     (r = inr false → good s' ∧ (budget s' ≤ budget s)%nat ∧ (reset s' = true → (budget s' < budget s)%nat))) →
  ∀ fuel attempts s, good s → 0 ≤ attempts →
    (budget s * (Z.to_nat max + 1) + Z.to_nat (max - attempts) < fuel)%nat →
    is_Some (retryLoop fuel max attempts cb reset s).
Proof.
  intros Hmax Hcb. induction fuel as [|fuel IH]; intros attempts s Hs Ha Hf; [lia|]. cbn [retryLoop].
  destruct (Z.ltb_spec attempts max) as [Hlt|Hge]; [|by eexists].
  destruct (Hcb s Hs) as (r & s' & -> & Hr). cbn [mbind option_bind].
  destruct r as [err|[]]; [by eexists..|]. destruct (Hr eq_refl) as (Hs' & Hb & Hreset).
  destruct (reset s') eqn:E.
  - apply IH; [done|lia|]. specialize (Hreset eq_refl). nia.
  - apply IH; [done|lia|]. nia.
Qed.

(** ** Plans that only place more *)

(** A group has desired updates where the plan is annotated. *)
Definition annotated (p : Plan) (group : string) : Prop := ∀ d, pl_Annotations p = Some d → is_Some (d !! group).

Record placesMore (p p' : Plan) : Prop := {
  pm_updates : ∀ n, updatesOf p' n = updatesOf p n;
  pm_allocs : ∀ n a, a ∈ allocsOf p n → a ∈ allocsOf p' n;
  pm_annotated : ∀ g, annotated p g → annotated p' g;
  pm_job : is_Some (pl_Job p) → pl_Job p' = pl_Job p
}.

Lemma placesMore_refl p : placesMore p p.
Proof. by split. Qed.

Lemma placesMore_trans p p1 p2 : placesMore p p1 → placesMore p1 p2 → placesMore p p2.
Proof.
  intros [U1 A1 N1 J1] [U2 A2 N2 J2]. split; auto.
  - intros n. by rewrite U2.
  - intros Hj. rewrite J2; [by apply J1|]. by rewrite J1.
Qed.

Lemma AppendAlloc_places p a : placesMore p (AppendAlloc p a) ∧ a ∈ allocsOf (AppendAlloc p a) (al_NodeID a).
Proof.
  unfold AppendAlloc, allocsOf. split; [split|]; simpl; try done.
  - intros n x. unfold allocsOf. simpl. destruct (decide (al_NodeID a = n)) as [<-|Hne].
    + rewrite lookup_insert_eq. simpl. intros ?. apply elem_of_app. by left.
    + by rewrite lookup_insert_ne.
  - rewrite lookup_insert_eq. simpl. apply elem_of_app. right. by left.
Qed.

(** Trying an eviction and taking it back changes nothing. *)
Lemma AppendUpdate_tried p a desc client :
  placesMore p (PopUpdate (AppendUpdate p a AllocDesiredStatusStop desc client) a).
Proof.
  destruct (AppendUpdate_stops p a desc client) as [_ _ Ea En Ej].
  assert (∀ q, pl_NodeAllocation (PopUpdate q a) = pl_NodeAllocation q ∧ pl_Annotations (PopUpdate q a) = pl_Annotations q ∧
    pl_Job (PopUpdate q a) = pl_Job q) as Hpop.
  { intros q. unfold PopUpdate. destruct (last _); [|done]. case_bool_decide; [|done]. by destruct (_ <? _)%nat. }
  destruct (Hpop (AppendUpdate p a AllocDesiredStatusStop desc client)) as (E1 & E2 & E3).
  split.
  - intros n. apply PopUpdate_undoes.
  - intros n x. unfold allocsOf. by rewrite E1, Ea.
  - intros g. unfold annotated. by rewrite E2, En.
  - intros Hj. by rewrite E3, Ej.
Qed.

#[export] Hint Resolve stopsMore_nil placesMore_refl : nomad.

Lemma FilterTerminalAllocs_live allocs :
  (FilterTerminalAllocs allocs).1 ≡ₚ filter (fun a => AllocTerminal a = false) allocs.
Proof.
  unfold FilterTerminalAllocs.
  destruct (swapDelete_spec AllocTerminal recordTerminal (length allocs) allocs 0 ∅) as (gone & _ & Hg & Hp & Hk); [lia|lia|].
  by destruct (split_filter AllocTerminal allocs _ gone Hp Hg Hk).
Qed.
