(* ===== verification/SystemSched.v ===== *)
(** * The system scheduler (src/scheduler/system_sched.go)

    It runs a job on every ready node of its datacenters.  The plan and the context of
    an attempt are those of the stack, as in the code, where they are shared pointers.
    Results are errors or values, and [None] where the Go code panics. *)

From stdpp Require Import base gmap strings list.
From Stdlib Require Import ZArith Lia.
From S2P Require Import Prelude GoText GoHeap Bitmap Structs Resources Jobs Allocs Network NetworkAssign Fit Plans Reconcile SchedContext Feasible Stack SchedUtil.
Open Scope string_scope.
Open Scope list_scope.
Open Scope Z_scope.

Definition maxSystemScheduleAttempts : Z := 5.

(** [ss_clock] counts the selections, [ss_uuids] the generated identifiers. *)
Record SystemScheduler `{TextLibs} (W : Type) := mkSystemScheduler {
  ss_state : SchedState;
  ss_planner : W;
  ss_eval : Evaluation;
  ss_job : option Job;
  ss_planResult : option PlanResult;
  ss_stack : GenericStack;
  ss_nodes : list Node;
  ss_nodesByDC : gmap string Z;
  ss_limitReached : bool;
  ss_nextEval : option Evaluation;
  ss_failedTGAllocs : gmap string AllocMetric;
  ss_queuedAllocs : option (gmap string Z);
  ss_clock : nat;
  ss_uuids : nat
}.
Arguments mkSystemScheduler {_ _}.
Arguments ss_state {_ _}.
Arguments ss_planner {_ _}.
Arguments ss_eval {_ _}.
Arguments ss_job {_ _}.
Arguments ss_planResult {_ _}.
Arguments ss_stack {_ _}.
Arguments ss_nodes {_ _}.
Arguments ss_nodesByDC {_ _}.
Arguments ss_limitReached {_ _}.
Arguments ss_nextEval {_ _}.
Arguments ss_failedTGAllocs {_ _}.
Arguments ss_queuedAllocs {_ _}.
Arguments ss_clock {_ _}.
Arguments ss_uuids {_ _}.

Section system.
Context `{TextLibs} `{StackLibs} `{Planner W}.

#[export] Instance eta_SystemScheduler : Eta (SystemScheduler W) := fun r =>
  mkSystemScheduler (ss_state r) (ss_planner r) (ss_eval r) (ss_job r) (ss_planResult r) (ss_stack r) (ss_nodes r)
    (ss_nodesByDC r) (ss_limitReached r) (ss_nextEval r) (ss_failedTGAllocs r) (ss_queuedAllocs r) (ss_clock r) (ss_uuids r).

(** The orders of the maps in the difference, the identifiers and the times of the
    selections. *)
Variable rangeNodes : gmap string (list Allocation) → list (string * list Allocation).
Variable rangeGroups : string → gmap string TaskGroup → list (string * TaskGroup).
Variable uuid : nat → string.
Variable elapsed : nat → Z.

(** The random source and the pool of bitmaps belong to the process; the stack is
    replaced before it is used. *)
Definition NewSystemScheduler (state : SchedState) (planner : W) (rand : nat) (pool : list Bitmap) : SystemScheduler W :=
  mkSystemScheduler state planner zeroEvaluation None None (NewSystemStack (NewEvalContext state zeroPlan) rand pool) [] ∅
    false None ∅ None 0 0.

Definition plan_of (s : SystemScheduler W) : Plan := ec_plan (gs_ctx (ss_stack s)).
Definition metrics_of (s : SystemScheduler W) : AllocMetric := ec_metrics (gs_ctx (ss_stack s)).
Definition setPlan (f : Plan → Plan) (s : SystemScheduler W) : SystemScheduler W := s <| ss_stack ::= onPlan f |>.
Definition addQueued (group : string) (d : Z) (s : SystemScheduler W) : SystemScheduler W :=
  s <| ss_queuedAllocs ::= option_map (fun q : gmap string Z => <[group := default 0 (q !! group) + d]> q) |>.

(** ** Placements *)

(** A node that did not pass the constraints is not queued, nor desired: [None] is the
    nil dereference of a group without desired updates. *)
Definition dequeueFiltered (group : string) (s : SystemScheduler W) : option (SystemScheduler W) :=
  if 0 <? am_NodesFiltered (metrics_of s) then
    let s := addQueued group (-1) s in
    match pl_Annotations (plan_of s) with
    | Some desired =>
        if ev_AnnotatePlan (ss_eval s) then
          d ← desired !! group;
          Some (setPlan (fun p =>
            p <| pl_Annotations := Some (<[group := d <| du_Place ::= fun n => (n - 1) mod 2 ^ 64 |>]> desired) |>) s)
        else Some s
    | None => Some s
    end
  else Some s.

(** The available nodes are stored in the metrics of the selection. *)
Definition storeAvailable (s : SystemScheduler W) : SystemScheduler W :=
  s <| ss_stack ::= onMetrics (fun m => m <| am_NodesAvailable := ss_nodesByDC s |>) |>.

Definition newSystemAlloc (s : SystemScheduler W) (missing : allocTuple) (tg : TaskGroup) (disk : EphemeralDisk) (job : Job)
    (opt : RankedNode) : Allocation :=
  zeroAllocation <| al_ID := uuid (ss_uuids s) |> <| al_EvalID := ev_ID (ss_eval s) |> <| al_Name := at_Name missing |>
    <| al_JobID := jb_ID job |> <| al_TaskGroup := tg_Name tg |> <| al_Metrics := Some (metrics_of s) |>
    <| al_NodeID := nd_ID (rn_Node opt) |> <| al_TaskResources := Some (rn_TaskResources opt) |>
    <| al_DesiredStatus := AllocDesiredStatusRun |> <| al_ClientStatus := AllocClientStatusPending |>
    <| al_SharedResources := Some (zeroResources <| r_DiskMB := ed_SizeMB disk |>) |>
    <| al_PreviousAllocation := from_option al_ID "" (at_Alloc missing) |>.

(** The body of the loop, for a node that was found. *)
Definition placeOne (missing : allocTuple) (node : Node) (s : SystemScheduler W) : option (SystemScheduler W) :=
  tg ← at_TaskGroup missing;
  r ← SystemSelect tg (elapsed (ss_clock s)) (SystemSetNodes [node] (ss_stack s));
  let '(opt, _, stack) := r in
  let s := s <| ss_stack := stack |> <| ss_clock ::= S |> in
  match opt with
  | Some opt =>
      let s := storeAvailable s in
      disk ← tg_EphemeralDisk tg;
      job ← ss_job s;
      let alloc := newSystemAlloc s missing tg disk job opt in
      Some (setPlan (fun p => AppendAlloc p alloc) (s <| ss_uuids ::= S |>))
  | None =>
      s ← dequeueFiltered (tg_Name tg) s;
      Some (match ss_failedTGAllocs s !! tg_Name tg with
            | Some metric =>
                s <| ss_failedTGAllocs ::= <[tg_Name tg := metric <| am_CoalescedFailures ::= Z.add 1 |>]> |>
            | None =>
                let s := storeAvailable s in
                s <| ss_failedTGAllocs ::= <[tg_Name tg := metrics_of s]> |>
            end)
  end.

Definition couldNotFind (nodeID : string) : string := "could not find node " +:+ quoted nodeID.

Fixpoint placeAll (nodeByID : gmap string Node) (place : list allocTuple) (s : SystemScheduler W)
    : option (option string * SystemScheduler W) :=
  match place with
  | [] => Some (None, s)
  | missing :: place =>
      alloc ← at_Alloc missing;
      match nodeByID !! al_NodeID alloc with
      | None => Some (Some (couldNotFind (al_NodeID alloc)), s)
      | Some node => s ← placeOne missing node s; placeAll nodeByID place s
      end
  end.

Definition computeSystemPlacements (place : list allocTuple) (s : SystemScheduler W)
    : option (option string * SystemScheduler W) :=
  placeAll (foldl (fun m node => <[nd_ID node := node]> m) ∅ (ss_nodes s)) place s.

(** ** The allocations of the job *)

Fixpoint stopTuples (desc clientStatus : string) (tuples : list allocTuple) (p : Plan) : option Plan :=
  match tuples with
  | [] => Some p
  | e :: tuples =>
      alloc ← at_Alloc e;
      stopTuples desc clientStatus tuples (AppendUpdate p alloc AllocDesiredStatusStop desc clientStatus)
  end.

(** The annotations of the plan, where the evaluation asks for them. *)
Definition annotatePlan (diff : diffResult) (inplaceUpdates destructiveUpdates : list allocTuple) (s : SystemScheduler W)
    : option (SystemScheduler W) :=
  if ev_AnnotatePlan (ss_eval s) then
    desired ← desiredUpdates diff inplaceUpdates destructiveUpdates;
    Some (setPlan (fun p => p <| pl_Annotations := Some desired |>) s)
  else Some s.

(** The limit of a rolling upgrade. *)
Definition destructiveLimit (diff : diffResult) (s : SystemScheduler W) : Z :=
  match ss_job s with
  | Some job => if negb (jb_Stop job) && Rolling (jb_Update job) then us_MaxParallel (jb_Update job)
                else Z.of_nat (length (dr_update diff))
  | None => Z.of_nat (length (dr_update diff))
  end.

(** The placements are queued and computed. *)
Definition placeDiff (diff : diffResult) (s : SystemScheduler W) : option (option string * SystemScheduler W) :=
  if (length (dr_place diff) =? 0)%nat then
    let groups := match ss_job s with Some job => if jb_Stop job then [] else jb_TaskGroups job | None => [] end in
    Some (None, s <| ss_queuedAllocs ::= option_map (fun q => foldl (fun q tg => <[tg_Name tg := 0]> q) q groups) |>)
  else
    names ← groupNames (dr_place diff);
    computeSystemPlacements (dr_place diff) (foldl (fun s name => addQueued name 1 s) s names).

(** The part after the difference is known. *)
Definition applySystemDiff (diff : diffResult) (s : SystemScheduler W) : option (option string * SystemScheduler W) :=
  p ← stopTuples allocNotNeeded "" (dr_stop diff) (plan_of s);
  p ← stopTuples allocLost AllocClientStatusLost (dr_lost diff) p;
  let s := setPlan (fun _ => p) s in
  r ← inplaceUpdate elapsed systemOps (ss_eval s) (ss_job s) (dr_update diff) (ss_clock s) (ss_stack s);
  let '(destructiveUpdates, inplaceUpdates, clock, stack) := r in
  let s := s <| ss_stack := stack |> <| ss_clock := clock |> in
  let diff := diff <| dr_update := destructiveUpdates |> in
  s ← annotatePlan diff inplaceUpdates destructiveUpdates s;
  r ← evictAndPlace (plan_of s) diff (dr_update diff) allocUpdating (destructiveLimit diff s);
  let '(limitReached, _, diff, p) := r in
  placeDiff diff ((setPlan (fun _ => p) s) <| ss_limitReached := limitReached |>).

Definition computeJobAllocs (s : SystemScheduler W) : option (option string * SystemScheduler W) :=
  let jobID := ev_JobID (ss_eval s) in
  match sc_AllocsByJob (ss_state s) jobID true with
  | inl err => Some (Some ("failed to get allocs for job '" +:+ jobID +:+ "': " +:+ err), s)
  | inr allocs =>
      r ← taintedNodes (ss_state s) ∅ allocs;
      match r with
      | inl err => Some (Some ("failed to get tainted nodes for job '" +:+ jobID +:+ "': " +:+ err), s)
      | inr tainted =>
          let s := setPlan (fun p => updateNonTerminalAllocsToLost p tainted allocs) s in
          let '(allocs, terminalAllocs) := FilterTerminalAllocs allocs in
          diff ← diffSystemAllocs rangeNodes rangeGroups (ss_job s) (ss_nodes s) tainted allocs terminalAllocs;
          applySystemDiff diff s
      end
  end.

(** ** An attempt *)

(** A job that is not stopped brings its nodes and its constraints; the plan and the
    stack are new. *)
Definition beginAttempt (s : SystemScheduler W) : option string * SystemScheduler W :=
  let jobID := ev_JobID (ss_eval s) in
  match sc_JobByID (ss_state s) jobID with
  | inl err => (Some ("failed to get job '" +:+ jobID +:+ "': " +:+ err), s <| ss_job := None |>)
  | inr job =>
      let s := s <| ss_job := job |> <| ss_queuedAllocs := Some ∅ |> in
      let ready :=
        match job with
        | Some j =>
            if jb_Stop j then inr (ss_nodes s, ss_nodesByDC s)
            else readyNodesInDCs (ss_state s) (jb_Datacenters j)
        | None => inr (ss_nodes s, ss_nodesByDC s)
        end in
      match ready with
      | inl err => (Some ("failed to get ready nodes: " +:+ err), s <| ss_nodes := [] |> <| ss_nodesByDC := ∅ |>)
      | inr (nodes, nodesByDC) =>
          let ctx := NewEvalContext (ss_state s) (MakePlan (ss_eval s) job) in
          let stack := NewSystemStack ctx (gs_rand (ss_stack s)) (gs_pool (ss_stack s)) in
          let stack :=
            match job with
            | Some j => if jb_Stop j then stack else SystemSetJob j stack
            | None => stack
            end in
          (None, s <| ss_nodes := nodes |> <| ss_nodesByDC := nodesByDC |> <| ss_failedTGAllocs := ∅ |>
                   <| ss_stack := stack |>)
      end
  end.

(** The evaluation that takes over when the limit of a rolling update was reached. *)
Definition followUp (s : SystemScheduler W) : option (option string * SystemScheduler W) :=
  if ss_limitReached s && bool_decide (ss_nextEval s = None) then
    job ← ss_job s;
    let next := NextRollingEval (uuid (ss_uuids s)) (ss_eval s) (us_Stagger (jb_Update job)) in
    let '(err, w) := CreateEval (ss_planner s) next in
    Some (err, s <| ss_nextEval := Some next |> <| ss_uuids ::= S |> <| ss_planner := w |>)
  else Some (None, s).

(** The plan is submitted, and the attempt is done when it was committed. *)
Definition submit (s : SystemScheduler W) : option ((string + bool) * SystemScheduler W) :=
  let '(result, newState, err, w) := SubmitPlan (ss_planner s) (plan_of s) in
  let s := s <| ss_planner := w |> <| ss_planResult := result |> in
  match err with
  | Some err => Some (inl err, s)
  | None =>
      let s := s <| ss_queuedAllocs ::= option_map (adjustQueuedAllocations rangePlan result) |> in
      match newState with
      | Some state => Some (inr false, s <| ss_state := state |>)
      | None => fullCommit ← committed result (plan_of s); Some (inr fullCommit, s)
      end
  end.

Definition process (s : SystemScheduler W) : option ((string + bool) * SystemScheduler W) :=
  match beginAttempt s with
  | (Some err, s) => Some (inl err, s)
  | (None, s) =>
      r ← computeJobAllocs s;
      let '(err, s) := r in
      match err with
      | Some err => Some (inl err, s)
      | None =>
          if PlanIsNoOp (plan_of s) && negb (ev_AnnotatePlan (ss_eval s)) then Some (inr true, s)
          else
            r ← followUp s;
            let '(err, s) := r in
            match err with
            | Some err => Some (inl err, s)
            | None => submit s
            end
      end
  end.

(** ** An evaluation *)

Definition handles (trigger : string) : bool :=
  bool_decide (trigger ∈ [EvalTriggerJobRegister; EvalTriggerNodeUpdate; EvalTriggerJobDeregister;
                          EvalTriggerRollingUpdate; EvalTriggerDeploymentWatcher]).

Definition finish (status desc : string) (s : SystemScheduler W) : option string * SystemScheduler W :=
  let '(err, w) := setStatus (ss_planner s) (ss_eval s) (ss_nextEval s) None (ss_failedTGAllocs s) status desc
                     (ss_queuedAllocs s) "" in
  (err, s <| ss_planner := w |>).

(** [fuel] bounds the attempts, which the code does not. *)
Definition Process (fuel : nat) (eval : Evaluation) (s : SystemScheduler W) : option (option string * SystemScheduler W) :=
  let s := s <| ss_eval := eval |> in
  if handles (ev_TriggeredBy eval) then
    r ← retryMax fuel maxSystemScheduleAttempts process (fun s => progressMade (ss_planResult s)) s;
    let '(res, s) := r in
    Some (match res with
          | RetryDone => finish EvalStatusComplete "" s
          | RetryError err => (Some err, s)
          | RetryExhausted =>
              finish EvalStatusFailed
                ("maximum attempts reached (" +:+ formatInt maxSystemScheduleAttempts +:+ ")") s
          end)
  else
    Some (finish EvalStatusFailed
            ("scheduler cannot handle '" +:+ ev_TriggeredBy eval +:+ "' evaluation reason") s).
End system.
