(* ===== verification/SystemSpec.v ===== *)
(** * What the system stack selects, and what it leaves of the plan

    The system stack is given one node at a time.  A selection answers for that node,
    and neither it nor an attempt to update in place changes what the plan stops. *)

From stdpp Require Import base gmap strings list.
From Stdlib Require Import ZArith Lia.
From S2P Require Import Prelude GoText GoHeap Bitmap Structs Resources Jobs Allocs Network NetworkAssign NetworkAssignProps Fit Plans Reconcile SchedContext Feasible Stack StackSpec StackPack StackSelect SchedUtil SchedUtilSpec SystemSched.
Open Scope string_scope.
Open Scope list_scope.
Open Scope Z_scope.

(** What is swapped behind the last. *)
Lemma swap_drop {A} (l : list A) i n t x :
  x ∈ drop (n - 1) (swap l i (n - 1)) → (i < n)%nat → (n ≤ length l)%nat → l !! i = Some t → x = t ∨ x ∈ drop n l.
Proof.
  intros Hx Hi Hn Ht. destruct (lookup_lt_is_Some_2 l (n - 1)) as [y Hy]; [lia|].
  unfold swap in Hx. rewrite Ht, Hy in Hx. apply list_elem_of_lookup in Hx as [k Hk]. rewrite lookup_drop in Hk.
  destruct k as [|k].
  - rewrite Nat.add_0_r in Hk. destruct (decide (i = n - 1)%nat) as [->|Hne].
    + rewrite list_lookup_insert_eq in Hk by (rewrite length_insert; lia). left. congruence.
    + rewrite list_lookup_insert_ne, list_lookup_insert_eq in Hk by lia. left. congruence.
  - rewrite !list_lookup_insert_ne in Hk by lia. right. apply list_elem_of_lookup. exists k. rewrite lookup_drop.
    rewrite <- Hk. f_equal. lia.
Qed.

Section select.
Context `{TextLibs} `{StackLibs}.
Context (rangeTasks_perm : ∀ m, rangeTasks m ≡ₚ vals m).
Context (intn_range : ∀ k n, 0 < n → 0 ≤ intn k n < n).
Context (job : Job) (known : list Node).
Context (classes : classes_ok known) (names : NoDup (tg_Name <$> jb_TaskGroups job)).
Context (known_walkable : ∀ n net, n ∈ known → net ∈ r_Networks (nd_Resources n) → walkable ParseCIDR net).

(** A system stack that has been given its job. *)
Record systemReady (s : GenericStack) : Prop := {
  sr_inv : Inv job known s;
  sr_job : gs_jobConstraint s = jb_Constraints job;
  sr_property : dp_job (gs_distinctProperty s) = Some job
}.

Lemma systemReady_params s s' : params s' = params s → Inv job known s' → systemReady s → systemReady s'.
Proof. unfold params. intros [= E1 E2 E3 E4 E5 E6 E7 E8 E9 E10 E11 E12] HI [_ Hj Hp]. split; congruence. Qed.

Lemma systemReady_new state plan rand pool :
  pool_ok pool → systemReady (SystemSetJob job (NewSystemStack (NewEvalContext state plan) rand pool)).
Proof.
  intros Hp. split; try done. split; try done.
  - split; simpl; try done. intros tg Htg. by apply escaped_lookup.
  - by intros n ?%elem_of_nil.
Qed.

Lemma systemReady_plan f s : systemReady s → systemReady (onPlan f s).
Proof. by intros [[] ? ?]. Qed.

Lemma systemReady_node n s : n ∈ known → systemReady s → systemReady (SystemSetNodes [n] s).
Proof.
  intros Hn [[] ? ?]. split; try done. split; try done; simpl; try lia. by intros ? ->%list_elem_of_singleton.
Qed.

Lemma systemReady_metrics f s : systemReady s → systemReady (onMetrics f s).
Proof. intros [HI ? ?]. split; [by apply Inv_metrics|done..]. Qed.

(** The state in which the iterators start. *)
Definition systemPrepare (tg : TaskGroup) (s : GenericStack) : option GenericStack :=
  tgConstr ← taskGroupConstraints tg;
  s ← PropertySetTaskGroup tg
        ((PropertyReset (StaticReset s)) <| gs_ctx ::= ContextReset |>
           <| gs_taskGroupDrivers := tc_drivers tgConstr |> <| gs_taskGroupConstraint := tc_constraints tgConstr |>
           <| gs_wrappedTg := tg_Name tg |>);
  Some (s <| gs_binPack ::= fun iter => iter <| bp_taskGroup := Some tg |> |>).

Lemma systemPrepare_spec tg disk s :
  systemReady s → tg ∈ jb_TaskGroups job → tg_EphemeralDisk tg = Some disk →
  ∃ s1, systemPrepare tg s = Some s1 ∧ running job known tg s1 s1 ∧ systemReady s1 ∧
    dp_tg (gs_distinctProperty s1) = Some tg ∧ bp_taskGroup (gs_binPack s1) = Some tg ∧
    pending s1 ≡ₚ si_nodes (gs_source s) ∧
    ec_state (gs_ctx s1) = ec_state (gs_ctx s) ∧ ec_plan (gs_ctx s1) = ec_plan (gs_ctx s).
Proof.
  intros [HI Hj Hp] Htg Hd. unfold systemPrepare, taskGroupConstraints. rewrite Hd, !bind_of_Some. cbv beta.
  match goal with |- context [PropertySetTaskGroup tg ?s'] => set (s0 := s') end.
  destruct (PropertySetTaskGroup_spec job tg s0) as (iter & -> & E1 & E2); [done|]. rewrite bind_of_Some.
  eexists. split; [reflexivity|].
  match goal with |- running _ _ _ ?s' _ ∧ _ => assert (Inv job known s') as HI' end.
  { destruct HI as [Hc He Ho Hs Hk Hpool]. split; try done. simpl. lia. }
  split_and!; try done.
  etrans; [apply pending_all; [apply (in_offset _ _ _ HI')|done]|done].
Qed.

(** What the system stack asks of a node, and why it passes one over. *)
Definition systemEligible (tg : TaskGroup) (ref : GenericStack) (n : Node) : Prop :=
  feasible job tg n = true ∧ propertiesFree tg ref n.
Definition systemPassed (tg : TaskGroup) (ref : GenericStack) (n : Node) : Prop :=
  feasible job tg n = false ∨ ¬ propertiesFree tg ref n ∨ noRoom tg ref n.

Lemma consumes_system tg disk ref :
  tg_EphemeralDisk tg = Some disk → NoDup (tk_Name <$> tg_Tasks tg) →
  dp_tg (gs_distinctProperty ref) = Some tg → bp_taskGroup (gs_binPack ref) = Some tg →
  consumes job known tg ref rn_Node (fun r => systemEligible tg ref (rn_Node r) ∧ packed tg ref r) (systemPassed tg ref)
    systemNext.
Proof.
  intros Hd Hn Hp Hb. pose proof (consumes_wrapper job known classes names tg ref) as Hw.
  apply (consumes_properties job known tg ref _ _ _ Hp) in Hw. apply consumes_rank in Hw.
  apply (consumes_pack rangeTasks_perm intn_range job known known_walkable tg disk Hd Hn ref Hb (systemEligible tg ref)) in Hw.
  eapply (consumes_weaken intn_range); [intros x Hx; exact Hx| |exact Hw]. unfold systemPassed. tauto.
Qed.

Lemma SystemSelect_eq tg elapsed s ref disk opt s1 :
  tg_EphemeralDisk tg = Some disk → systemPrepare tg s = Some ref → systemNext ref = Some (opt, s1) →
  ∃ size, SystemSelect tg elapsed s = Some (option_map (ensureResources tg) opt, size, storeTime elapsed s1).
Proof.
  intros Hd Ep E. unfold systemPrepare in Ep. unfold SystemSelect. cbv zeta.
  destruct (taskGroupConstraints tg) as [c|]; [|done]. rewrite bind_of_Some in Ep. rewrite bind_of_Some. cbv beta in Ep |- *.
  destruct (PropertySetTaskGroup tg _) as [s0|]; [|done]. rewrite bind_of_Some in Ep. rewrite bind_of_Some.
  injection Ep as ->. rewrite E, bind_of_Some. by eexists.
Qed.

(** A selection for one node returns: the node when it is eligible and has room, and
    nothing when it is passed over. *)
Lemma SystemSelect_spec tg elapsed n s :
  systemReady s → n ∈ known → group_ok job tg →
  ∃ ref r size s',
    SystemSelect tg elapsed (SystemSetNodes [n] s) = Some (r, size, s') ∧ systemReady s' ∧
    ec_state (gs_ctx s') = ec_state (gs_ctx s) ∧ ec_plan (gs_ctx s') = ec_plan (gs_ctx s) ∧
    ec_state (gs_ctx ref) = ec_state (gs_ctx s) ∧ ec_plan (gs_ctx ref) = ec_plan (gs_ctx s) ∧
    match r with
    | Some opt => rn_Node opt = n ∧ systemEligible tg ref n ∧ packed tg ref opt
    | None => systemPassed tg ref n
    end.
Proof.
  intros Hs Hn (Htg & [disk Hd] & Htn). apply (systemReady_node n) in Hs; [|done].
  destruct (systemPrepare_spec tg disk _ Hs Htg Hd) as (ref & Ep & Hrun & Hready & H1 & H2 & Hpend & Est & Epl).
  destruct (consumes_system tg disk ref Hd Htn H1 H2 ref Hrun) as (r & s1 & skip & E & Hrun1 & _ & Hskip & Hr).
  destruct (SystemSelect_eq tg elapsed _ ref disk _ _ Hd Ep E) as [size Esel].
  simpl in Hpend. symmetry in Hpend. apply Permutation_singleton_l in Hpend.
  assert (params (storeTime elapsed s1) = params ref) as Hpar.
  { rewrite <- (ru_params _ _ _ _ _ Hrun1). apply quiet_metrics. }
  assert (ec_state (gs_ctx (storeTime elapsed s1)) = ec_state (gs_ctx s) ∧
    ec_plan (gs_ctx (storeTime elapsed s1)) = ec_plan (gs_ctx s)) as [Es Epl'].
  { unfold params in Hpar. injection Hpar as _ _ _ _ _ _ _ _ _ Ea Eb _. split; etrans; [exact Ea|exact Est|exact Eb|exact Epl]. }
  exists ref. eexists _, _, _. split; [exact Esel|]. split; [|split; [exact Es|split; [exact Epl'|split; [done|split; [done|]]]]].
  - eapply (systemReady_params ref); [done|by apply Inv_metrics, Hrun1|done].
  - destruct r as [opt|]; cbn [option_map].
    + destruct Hr as [[Ha Hpk] Ep']. rewrite <- Hpend in Ep'.
      rewrite (ensureResources_packed tg ref opt Htn Hpk).
      destruct skip as [|y skip]; [|by destruct skip]. injection Ep' as -> _. done.
    + destruct Hr as [Er _]. rewrite <- Hpend in Er. subst skip. by inversion Hskip.
Qed.

(** ** Updates in place *)

Variable elapsed : nat → Z.

(** Two states of the stack in one attempt: both have their job, and the plan only
    places more. *)
Record grows (s s' : GenericStack) : Prop := {
  gr_ready : systemReady s';
  gr_state : ec_state (gs_ctx s') = ec_state (gs_ctx s);
  gr_plan : placesMore (ec_plan (gs_ctx s)) (ec_plan (gs_ctx s'))
}.

Lemma grows_refl s : systemReady s → grows s s.
Proof. intros Hs. split; [done..|apply placesMore_refl]. Qed.
Lemma grows_trans a b c : grows a b → grows b c → grows a c.
Proof. intros [_ E1 P1] [R2 E2 P2]. split; [done|congruence|]. by eapply placesMore_trans. Qed.
Lemma grows_alloc s a : systemReady s → grows s (onPlan (fun p => AppendAlloc p a) s).
Proof. intros Hs. split; [by apply systemReady_plan|done|]. apply AppendAlloc_places. Qed.

Lemma taskResources_dom tasks granted name :
  is_Some (taskResources tasks granted !! name) → name ∈ tk_Name <$> tasks.
Proof.
  unfold taskResources. intros Hn.
  assert (∀ m : gmap string Resources, is_Some (foldl (fun m tr => <[tk_Name tr.1 := tr.2]> m) m (zip tasks granted) !! name) →
    is_Some (m !! name) ∨ name ∈ tk_Name <$> tasks) as Hgo.
  2:{ by destruct (Hgo ∅ Hn) as [[]|?]. }
  clear Hn. revert granted. induction tasks as [|t tasks IH]; intros [|r granted] m; simpl; try by left.
  intros [Hm|?]%IH; [|right; by right]. rewrite lookup_insert_is_Some' in Hm. destruct Hm as [<-|?]; [right; left|by left].
Qed.

Lemma restoreNetworks_spec existing resources :
  (∀ name, is_Some (resources !! name) → is_Some (default ∅ existing !! name)) →
  is_Some (restoreNetworks existing resources).
Proof.
  intros Hd. unfold restoreNetworks. rewrite bool_decide_eq_true_2; [by eexists|].
  intros name. rewrite !elem_of_dom. apply Hd.
Qed.

(** The selection for the node an allocation is on, with the allocation taken off. *)
Lemma selectInPlace_spec evalID a tg n clock s :
  systemReady s → n ∈ known → group_ok job tg →
  (∀ task, task ∈ tg_Tasks tg → is_Some (default ∅ (al_TaskResources a) !! tk_Name task)) →
  ∃ r s', selectInPlace elapsed systemOps evalID a tg n clock s = Some (r, s') ∧ grows s s' ∧
    ∀ u, r = Some u → al_ID u = al_ID a ∧ al_Name u = al_Name a ∧ al_NodeID u = al_NodeID a ∧ al_EvalID u = evalID.
Proof.
  intros Hs Hn Htg Htasks. unfold selectInPlace. cbv zeta. cbn [so_SetNodes so_Select systemOps].
  set (s1 := onPlan (fun p => AppendUpdate p a AllocDesiredStatusStop allocInPlace "") s).
  change (onPlan (fun p => AppendUpdate p a AllocDesiredStatusStop allocInPlace "") (SystemSetNodes [n] s))
    with (SystemSetNodes [n] s1).
  destruct (SystemSelect_spec tg (elapsed clock) n s1) as (ref & r & size & s2 & -> & Hs2 & Est & Epl & _ & _ & Hr);
    [by apply systemReady_plan|done..|]. cbn [mbind option_bind].
  set (s3 := onPlan (fun p => PopUpdate p a) s2).
  assert (grows s s3) as Hg.
  { split; [by apply systemReady_plan|done|]. change (ec_plan (gs_ctx s3)) with (PopUpdate (ec_plan (gs_ctx s2)) a).
    rewrite Epl. apply AppendUpdate_tried. }
  destruct r as [opt|]; [|by eexists None, s3]. destruct Hr as (_ & _ & proposed & granted & _ & _ & _ & Et & _).
  destruct (restoreNetworks_spec (al_TaskResources a) (rn_TaskResources opt)) as [res ->].
  { rewrite Et. intros name (task & -> & Hin)%taskResources_dom%list_elem_of_fmap. by apply Htasks. }
  cbn [mbind option_bind]. eexists (Some _), s3. split; [done|]. split; [done|]. by intros u [= <-].
Qed.

(** ** Updates of tuples *)

Lemma LookupTaskGroup_own tg : tg ∈ jb_TaskGroups job → LookupTaskGroup job (tg_Name tg) = Some tg.
Proof.
  intros Htg. unfold LookupTaskGroup.
  destruct (list_find (fun t => tg_Name t = tg_Name tg) (jb_TaskGroups job)) as [[i t]|] eqn:E; simpl.
  - apply list_find_Some in E as (Hi & En & _). f_equal. apply (group_eq job names); [by eapply list_elem_of_lookup_2|done..].
  - apply list_find_None in E. rewrite Forall_forall in E. by destruct (E tg Htg).
Qed.

(** An allocation that can be updated: the group belongs to the job, and the allocation
    has resources for the tasks of its own version of the group. *)
Definition updatable (state : SchedState) (t : allocTuple) : Prop :=
  ∃ a tg ej old, at_Alloc t = Some a ∧ at_TaskGroup t = Some tg ∧ group_ok job tg ∧ al_Job a = Some ej ∧
    LookupTaskGroup ej (tg_Name tg) = Some old ∧
    (∀ task, task ∈ tg_Tasks old → is_Some (default ∅ (al_TaskResources a) !! tk_Name task)) ∧
    (∀ n, sc_NodeByID state (al_NodeID a) = inr (Some n) → n ∈ known).

Lemma tasks_kept ej tg old :
  tg ∈ jb_TaskGroups job → LookupTaskGroup ej (tg_Name tg) = Some old →
  tasksUpdated job ej (tg_Name tg) = Some false → ∀ task, task ∈ tg_Tasks tg → ∃ task', task' ∈ tg_Tasks old ∧ tk_Name task' = tk_Name task.
Proof.
  intros Htg Hold. unfold tasksUpdated. rewrite (LookupTaskGroup_own tg Htg), Hold. cbn [mbind option_bind].
  intros [= [_ Hex]%orb_false_iff] task Htask. assert (taskUpdated job ej (tg_Name tg) old task = false) as Hu.
  { apply not_true_is_false. intros Ht. rewrite <- not_true_iff_false in Hex. apply Hex, existsb_exists.
    exists task. by rewrite <- list_elem_of_In. }
  unfold taskUpdated in Hu. destruct (LookupTask old (tk_Name task)) as [bt|] eqn:E; [|done].
  unfold LookupTask in E. apply bind_Some in E as ([i t] & (Hi & En & _)%list_find_Some & [= <-]).
  exists t. split; [by eapply list_elem_of_lookup_2|done].
Qed.

(** What an update in place leaves in the plan. *)
Definition renewed (evalID : string) (a : Allocation) (p : Plan) : Prop :=
  ∃ u, u ∈ allocsOf p (al_NodeID a) ∧ al_ID u = al_ID a ∧ al_Name u = al_Name a ∧ al_EvalID u = evalID.

Lemma renewed_grows evalID a p p' : placesMore p p' → renewed evalID a p → renewed evalID a p'.
Proof. intros Hp (u & Hu & Hr). exists u. split; [by apply (pm_allocs p p' Hp)|done]. Qed.

Lemma inplaceOne_spec eval t clock s :
  systemReady s → updatable (ec_state (gs_ctx s)) t →
  ∃ done clock' s', inplaceOne elapsed systemOps eval (Some job) t clock s = Some (done, clock', s') ∧ grows s s' ∧
    (done = true → ∀ a, at_Alloc t = Some a → AllocTerminal a = false → renewed (ev_ID eval) a (ec_plan (gs_ctx s'))).
Proof.
  intros Hs (a & tg & ej & old & Ea & Etg & Hg & Ej & Eold & Hres & Hn). pose proof (proj1 Hg) as Htg.
  unfold inplaceOne. rewrite Ea. cbn [mbind option_bind]. rewrite Etg. cbn [mbind option_bind]. rewrite Ej. cbn [mbind option_bind].
  destruct (tasksUpdated job ej (tg_Name tg)) as [updated|] eqn:Eu.
  2:{ unfold tasksUpdated in Eu. by rewrite (LookupTaskGroup_own tg Htg), Eold in Eu. }
  destruct updated; [eexists false, clock, s; by split_and!; [|apply grows_refl|]|].
  destruct (AllocTerminal a) eqn:Et.
  { eexists true, clock, s. split_and!; [done|by apply grows_refl|]. intros _ b [= <-]. by rewrite Et. }
  destruct (sc_NodeByID (ec_state (gs_ctx s)) (al_NodeID a)) as [err|[n|]] eqn:En;
    [eexists false, clock, s; by split_and!; [|apply grows_refl|]| |eexists false, clock, s; by split_and!; [|apply grows_refl|]].
  destruct (selectInPlace_spec (ev_ID eval) a tg n clock s Hs (Hn n eq_refl) Hg) as (r & s1 & -> & Hgr & Hr).
  { intros task Htask. destruct (tasks_kept ej tg old Htg Eold Eu task Htask) as (task' & Hin & <-). by apply Hres. }
  cbn [mbind option_bind]. destruct r as [u|]; [|eexists false, (S clock), s1; by split_and!].
  destruct (Hr u eq_refl) as (Eid & Ename & Enode & Eeval).
  eexists true, (S clock), _. split; [done|]. split.
  - eapply grows_trans; [exact Hgr|]. apply grows_alloc, Hgr.
  - intros _ b [= <-] _. exists u. split; [|done]. rewrite <- Enode. apply AppendAlloc_places.
Qed.

(** The updates are split into those that were not done in place and those that were. *)
Lemma inplaceLoop_spec eval fuel : ∀ i n updates clock s,
  (i ≤ n)%nat → (n ≤ length updates)%nat → (n - i ≤ fuel)%nat →
  systemReady s → (∀ t, t ∈ updates → updatable (ec_state (gs_ctx s)) t) →
  (∀ t a, t ∈ drop n updates → at_Alloc t = Some a → AllocTerminal a = false → renewed (ev_ID eval) a (ec_plan (gs_ctx s))) →
  ∃ n' updates' clock' s',
    inplaceLoop elapsed systemOps eval (Some job) fuel i n updates clock s = Some (n', updates', clock', s') ∧
    updates' ≡ₚ updates ∧ (n' ≤ length updates')%nat ∧ grows s s' ∧
    (∀ t a, t ∈ drop n' updates' → at_Alloc t = Some a → AllocTerminal a = false → renewed (ev_ID eval) a (ec_plan (gs_ctx s'))).
Proof.
  induction fuel as [|fuel IH]; intros i n updates clock s Hi Hn Hf Hs Hup Hdone; cbn [inplaceLoop].
  { destruct (Nat.ltb_spec i n); [lia|]. exists n, updates, clock, s. split_and!; auto using grows_refl. }
  destruct (Nat.ltb_spec i n) as [Hlt|Hge].
  2:{ exists n, updates, clock, s. split_and!; auto using grows_refl. }
  destruct (lookup_lt_is_Some_2 updates i) as [t Ht]; [lia|]. rewrite Ht. cbn [mbind option_bind].
  destruct (inplaceOne_spec eval t clock s Hs) as (ok & clock1 & s1 & -> & Hg & Hren);
    [by apply Hup; eapply list_elem_of_lookup_2|]. cbn [mbind option_bind].
  assert (∀ l, l ≡ₚ updates → ∀ t, t ∈ l → updatable (ec_state (gs_ctx s1)) t) as Hup1.
  { intros l Hl t'. rewrite Hl, (gr_state s s1 Hg). apply Hup. }
  assert (∀ t a, t ∈ drop n updates → at_Alloc t = Some a → AllocTerminal a = false →
    renewed (ev_ID eval) a (ec_plan (gs_ctx s1))) as Hdone1.
  { intros t' a Hin Ea Eterm. eapply renewed_grows; [apply Hg|]. by eapply Hdone. }
  destruct ok.
  - assert (swap updates i (n - 1) ≡ₚ updates) as Hp by (apply swap_perm; lia).
    destruct (IH i (n - 1)%nat (swap updates i (n - 1)) clock1 s1) as (n' & up & clock' & s' & -> & Hperm & Hlen & Hg' & Hd);
      [lia|rewrite length_swap; lia|lia|apply Hg|by apply Hup1| |].
    { intros t' a Hin Ea Eterm. apply (swap_drop updates i n t) in Hin as [->|Hin]; [by eapply Hren|by eapply Hdone1|lia|lia|done]. }
    exists n', up, clock', s'. split_and!; try done; [by rewrite Hperm|]. by eapply grows_trans.
  - destruct (IH (S i) n updates clock1 s1) as (n' & up & clock' & s' & -> & Hperm & Hlen & Hg' & Hd);
      [lia|lia|lia|apply Hg|by apply Hup1|done|].
    exists n', up, clock', s'. split_and!; try done. by eapply grows_trans.
Qed.

Lemma inplaceUpdate_spec eval updates clock s :
  systemReady s → (∀ t, t ∈ updates → updatable (ec_state (gs_ctx s)) t) →
  ∃ destructive inplace clock' s',
    inplaceUpdate elapsed systemOps eval (Some job) updates clock s = Some (destructive, inplace, clock', s') ∧
    destructive ++ inplace ≡ₚ updates ∧ grows s s' ∧
    (∀ t a, t ∈ inplace → at_Alloc t = Some a → AllocTerminal a = false → renewed (ev_ID eval) a (ec_plan (gs_ctx s'))).
Proof.
  intros Hs Hup. unfold inplaceUpdate.
  destruct (inplaceLoop_spec eval (length updates) 0 (length updates) updates clock s)
    as (n & up & clock' & s' & -> & Hp & Hlen & Hg & Hd); [lia..|done|done| |].
  { rewrite drop_all. by intros t a ?%elem_of_nil. }
  cbn [mbind option_bind]. exists (take n up), (drop n up), clock', s'. split; [done|]. by rewrite take_drop.
Qed.
End select.
