(* ===== verification/SystemAttempt.v ===== *)
(** * An attempt of the system scheduler

    What the placements and the difference leave in the plan, and that an attempt
    returns. *)

From stdpp Require Import base gmap strings list.
From Stdlib Require Import ZArith Lia.
From S2P Require Import Prelude GoText GoHeap Bitmap Structs Resources Jobs Allocs Network NetworkAssign NetworkAssignProps Fit Plans Reconcile SchedContext Feasible Stack StackSpec StackPack StackSelect SchedUtil SchedUtilSpec SystemSched SystemSpec.
Open Scope string_scope.
Open Scope list_scope.
Open Scope Z_scope.

Section attempt.
Context `{TextLibs} `{StackLibs} `{Planner W}.
Context (rangeTasks_perm : ∀ m, rangeTasks m ≡ₚ vals m).
Context (intn_range : ∀ k n, 0 < n → 0 ≤ intn k n < n).
Context (known : list Node) (classes : classes_ok known).
Context (known_walkable : ∀ n net, n ∈ known → net ∈ r_Networks (nd_Resources n) → walkable ParseCIDR net).
Context (rangeNodes : gmap string (list Allocation) → list (string * list Allocation)).
Context (rangeGroups : string → gmap string TaskGroup → list (string * TaskGroup)).
Context (rangeNodes_perm : ∀ m, rangeNodes m ≡ₚ map_to_list m).
Context (rangeGroups_perm : ∀ id m, rangeGroups id m ≡ₚ map_to_list m).
Context (uuid : nat → string) (elapsed : nat → Z).

Implicit Types (s : SystemScheduler W).

(** The parts of a scheduler that the placements do not touch. *)
Definition frame s :=
  (ss_state s, ss_planner s, ss_eval s, ss_job s, ss_planResult s, ss_nodes s, ss_nodesByDC s, ss_limitReached s, ss_nextEval s).

Section job.
Context (job : Job) (names : NoDup (tg_Name <$> jb_TaskGroups job)).

Record advances s s' : Prop := {
  ad_frame : frame s' = frame s;
  ad_grows : grows job known (ss_stack s) (ss_stack s');
  ad_failed : ∀ g, is_Some (ss_failedTGAllocs s !! g) → is_Some (ss_failedTGAllocs s' !! g)
}.

Lemma advances_refl s : systemReady job known (ss_stack s) → advances s s.
Proof. intros Hs. split; [done|by apply grows_refl|done]. Qed.
Lemma advances_trans a b c : advances a b → advances b c → advances a c.
Proof. intros [F1 G1 X1] [F2 G2 X2]. split; [congruence|by eapply grows_trans|auto]. Qed.

(** A selection of the attempt saw what the plan had placed so far. *)
Definition seen s (p : Plan) (ref : GenericStack) : Prop :=
  ec_state (gs_ctx ref) = ec_state (gs_ctx (ss_stack s)) ∧ placesMore (ec_plan (gs_ctx ref)) p.

(** The group runs on the node under the name: the plan places it there, and the node
    is eligible and has room beside what was proposed for it. *)
Definition placedOn s (node : Node) (name : string) (tg : TaskGroup) : Prop :=
  ∃ a ref opt, a ∈ allocsOf (plan_of s) (nd_ID node) ∧ al_Name a = name ∧ al_TaskGroup a = tg_Name tg ∧ al_JobID a = jb_ID job ∧
    al_EvalID a = ev_ID (ss_eval s) ∧ al_DesiredStatus a = AllocDesiredStatusRun ∧
    al_TaskResources a = Some (rn_TaskResources opt) ∧ seen s (plan_of s) ref ∧ rn_Node opt = node ∧
    systemEligible job tg ref node ∧ packed tg ref opt.

(** The failure is reported, and the node was passed over. *)
Definition failedOn s (node : Node) (tg : TaskGroup) : Prop :=
  is_Some (ss_failedTGAllocs s !! tg_Name tg) ∧ ∃ ref, seen s (plan_of s) ref ∧ systemPassed job tg ref node.

Lemma seen_advances s s' ref : advances s s' → seen s (plan_of s) ref → seen s' (plan_of s') ref.
Proof. intros [_ [_ E P] _] [E1 P1]. split; [congruence|]. by eapply placesMore_trans. Qed.

Lemma placedOn_advances s s' node name tg : advances s s' → placedOn s node name tg → placedOn s' node name tg.
Proof.
  intros Ha (a & ref & opt & Hin & E1 & E2 & E3 & E4 & E5 & E6 & Hseen & Hrest). exists a, ref, opt.
  pose proof (ad_frame s s' Ha) as Hf. injection Hf as _ _ Ee _ _ _ _ _ _.
  split_and!; try done; [|congruence|by eapply seen_advances|apply Hrest..].
  by apply (pm_allocs _ _ (gr_plan _ _ _ _ (ad_grows s s' Ha))).
Qed.

Lemma failedOn_advances s s' node tg : advances s s' → failedOn s node tg → failedOn s' node tg.
Proof.
  intros Ha (Hf & ref & Hseen & Hp). split; [by apply (ad_failed s s' Ha)|]. exists ref. split; [by eapply seen_advances|done].
Qed.

Lemma advances_stack s stack clock :
  grows job known (ss_stack s) stack → advances s (s <| ss_stack := stack |> <| ss_clock := clock |>).
Proof. by split. Qed.

Lemma storeAvailable_advances s : systemReady job known (ss_stack s) → advances s (storeAvailable s).
Proof.
  intros Hs. split; [done| |done]. split; [by apply systemReady_metrics|done|apply placesMore_refl].
Qed.

Lemma dequeueFiltered_spec group s :
  systemReady job known (ss_stack s) → annotated (plan_of s) group →
  ∃ s', dequeueFiltered group s = Some s' ∧ advances s s'.
Proof.
  intros Hs Hann. unfold dequeueFiltered. destruct (0 <? am_NodesFiltered (metrics_of s)); [|eexists; split; [done|by apply advances_refl]].
  cbv zeta. change (plan_of (addQueued group (-1) s)) with (plan_of s).
  destruct (pl_Annotations (plan_of s)) as [desired|] eqn:E; [|by eexists; split; [done|split; [done|apply grows_refl|]]].
  change (ss_eval (addQueued group (-1) s)) with (ss_eval s).
  destruct (ev_AnnotatePlan (ss_eval s)); [|by eexists; split; [done|split; [done|apply grows_refl|]]].
  destruct (Hann desired E) as [d Hd]. rewrite Hd. cbn [mbind option_bind]. eexists. split; [done|].
  split; [done| |done]. split; [by apply systemReady_plan|done|]. split; try done. simpl.
  intros g Hg d' [= <-]. rewrite lookup_insert_is_Some'. right. by apply Hg.
Qed.

(** One placement: the plan has it, or the failure is recorded. *)
Lemma placeOne_spec t tg node s :
  systemReady job known (ss_stack s) → ss_job s = Some job → at_TaskGroup t = Some tg → group_ok job tg → node ∈ known →
  annotated (plan_of s) (tg_Name tg) →
  ∃ s', placeOne uuid elapsed t node s = Some s' ∧ advances s s' ∧ (placedOn s' node (at_Name t) tg ∨ failedOn s' node tg).
Proof.
  intros Hs Hj Etg Hg Hn Hann. unfold placeOne. rewrite Etg. cbn [mbind option_bind].
  destruct (SystemSelect_spec rangeTasks_perm intn_range job known classes names known_walkable tg (elapsed (ss_clock s)) node (ss_stack s) Hs Hn Hg)
    as (ref & r & size & stack & -> & Hst & Es & Ep & Er & Epr & Hr). cbn [mbind option_bind]. cbv zeta.
  set (s1 := s <| ss_stack := stack |> <| ss_clock ::= S |>).
  assert (grows job known (ss_stack s) stack) as Hgr.
  { split; [done..|]. rewrite Ep. apply placesMore_refl. }
  assert (advances s s1) as Ha by (by split).
  assert (plan_of s1 = plan_of s) as Epl by exact Ep.
  assert (seen s1 (plan_of s1) ref) as Hseen.
  { split; [simpl; congruence|]. rewrite Epl, Epr. apply placesMore_refl. }
  destruct r as [opt|].
  - destruct Hr as (Eopt & Hel & Hpk). destruct Hg as (_ & [disk Hd] & _). rewrite Hd. cbn [mbind option_bind].
    change (ss_job (storeAvailable s1)) with (ss_job s). rewrite Hj. cbn [mbind option_bind]. eexists. split; [done|].
    set (a := newSystemAlloc uuid (storeAvailable s1) t tg disk job opt).
    set (s2 := setPlan _ _).
    assert (advances s1 s2) as Ha2.
    { eapply advances_trans; [by apply storeAvailable_advances|]. split; [done| |done].
      split; [by apply systemReady_plan, systemReady_metrics|done|]. apply AppendAlloc_places. }
    split; [by eapply advances_trans|]. left. exists a, ref, opt.
    assert (al_NodeID a = nd_ID node) as En by (subst a; simpl; by rewrite Eopt).
    split_and!; try done; [|by eapply seen_advances|apply Hel..]. rewrite <- En. apply AppendAlloc_places.
  - destruct (dequeueFiltered_spec (tg_Name tg) s1) as (s2 & -> & Ha2); [done|by rewrite Epl|].
    cbn [mbind option_bind]. eexists. split; [done|].
    assert (∀ s3, advances s2 s3 → is_Some (ss_failedTGAllocs s3 !! tg_Name tg) → advances s s3 ∧
      (placedOn s3 node (at_Name t) tg ∨ failedOn s3 node tg)) as Hfin.
    { intros s3 Ha3 Hf. assert (advances s1 s3) as Ha13 by (by eapply advances_trans).
      split; [by eapply advances_trans|]. right. split; [done|]. exists ref. split; [by eapply seen_advances|done]. }
    pose proof (gr_ready _ _ _ _ (ad_grows _ _ Ha2)) as Hs2.
    destruct (ss_failedTGAllocs s2 !! tg_Name tg) as [metric|] eqn:Ef; apply Hfin.
    + split; [done|by apply grows_refl|]. simpl. intros g Hg'. rewrite lookup_insert_is_Some'. by right.
    + simpl. rewrite lookup_insert_eq. by eexists.
    + eapply advances_trans; [by apply storeAvailable_advances|]. split; [done| |].
      * apply grows_refl. by apply systemReady_metrics.
      * simpl. intros g Hg'. rewrite lookup_insert_is_Some'. by right.
    + simpl. rewrite lookup_insert_eq. by eexists.
Qed.

(** ** All the placements *)

Definition nodesByID (nodes : list Node) : gmap string Node := foldl (fun m node => <[nd_ID node := node]> m) ∅ nodes.

Lemma nodesByID_lookup nodes id :
  id ∈ nd_ID <$> nodes → ∃ n, nodesByID nodes !! id = Some n ∧ n ∈ nodes ∧ nd_ID n = id.
Proof.
  unfold nodesByID. induction nodes as [|n nodes IH] using rev_ind; [by intros ?%elem_of_nil|].
  rewrite foldl_app. cbn [foldl]. destruct (decide (nd_ID n = id)) as [<-|Hne].
  - intros _. exists n. rewrite lookup_insert_eq. split_and!; [done| |done]. apply elem_of_app. right. by left.
  - rewrite fmap_app, elem_of_app. simpl. rewrite list_elem_of_singleton. intros [Hin|]; [|congruence].
    destruct (IH Hin) as (n' & E & Hn' & Eid). exists n'. rewrite lookup_insert_ne by done. split_and!; [done| |done].
    apply elem_of_app. by left.
Qed.

(** A tuple for a ready node. *)
Definition placeable (nodes : list Node) (t : allocTuple) : Prop :=
  ∃ a tg, at_Alloc t = Some a ∧ at_TaskGroup t = Some tg ∧ group_ok job tg ∧ al_NodeID a ∈ nd_ID <$> nodes.

(** Its placement is in the plan, or has failed. *)
Definition settled s (nodes : list Node) (t : allocTuple) : Prop :=
  ∀ a tg, at_Alloc t = Some a → at_TaskGroup t = Some tg →
  ∃ node, node ∈ nodes ∧ nd_ID node = al_NodeID a ∧ (placedOn s node (at_Name t) tg ∨ failedOn s node tg).

Lemma settled_advances s s' nodes t : advances s s' → settled s nodes t → settled s' nodes t.
Proof.
  intros Ha Hs a tg Ea Et. destruct (Hs a tg Ea Et) as (node & Hn & En & [?|?]); exists node; split_and!; try done;
    [left; by eapply placedOn_advances|right; by eapply failedOn_advances].
Qed.

Lemma placeAll_spec nodes place : ∀ s,
  (∀ n, n ∈ nodes → n ∈ known) → systemReady job known (ss_stack s) → ss_job s = Some job →
  (∀ t, t ∈ place → placeable nodes t) →
  (∀ t tg, t ∈ place → at_TaskGroup t = Some tg → annotated (plan_of s) (tg_Name tg)) →
  ∃ s', placeAll uuid elapsed (nodesByID nodes) place s = Some (None, s') ∧ advances s s' ∧ ∀ t, t ∈ place → settled s' nodes t.
Proof.
  induction place as [|t place IH]; intros s Hk Hs Hj Hp Hann; cbn [placeAll].
  { exists s. split_and!; [done|by apply advances_refl|]. by intros t ?%elem_of_nil. }
  destruct (Hp t ltac:(left)) as (a & tg & Ea & Etg & Hg & Hin). rewrite Ea. cbn [mbind option_bind].
  destruct (nodesByID_lookup nodes _ Hin) as (node & -> & Hnode & Enode).
  destruct (placeOne_spec t tg node s Hs Hj Etg Hg (Hk node Hnode)) as (s1 & -> & Ha1 & Hone); [by eapply Hann; [left|]|].
  cbn [mbind option_bind]. pose proof (ad_frame s s1 Ha1) as Hf. injection Hf as _ _ _ Ej _ _ _ _ _.
  destruct (IH s1) as (s2 & -> & Ha2 & Hall); [done|apply Ha1|congruence|intros t' ?; apply Hp; by right| |].
  { intros t' tg' Ht' Etg'. apply (pm_annotated _ _ (gr_plan _ _ _ _ (ad_grows s s1 Ha1))). eapply Hann; [by right|done]. }
  exists s2. split_and!; [done|by eapply advances_trans|]. intros t' [->|Ht']%elem_of_cons; [|by apply Hall].
  eapply settled_advances; [exact Ha2|]. intros a' tg' Ea' Etg'. exists node. simplify_eq. done.
Qed.

(** ** The difference *)

Lemma stopTuples_spec desc client ts : ∀ p,
  (∀ t, t ∈ ts → is_Some (at_Alloc t)) →
  ∃ p', stopTuples desc client ts p = Some p' ∧ stopsMore (allocsIn ts) p p'.
Proof.
  induction ts as [|t ts IH]; intros p Ht; cbn [stopTuples]; [eauto with nomad|].
  destruct (Ht t ltac:(left)) as [a Ea]. rewrite Ea. cbn [mbind option_bind].
  destruct (IH (AppendUpdate p a AllocDesiredStatusStop desc client)) as (p' & -> & Hs); [intros t' ?; apply Ht; by right|].
  exists p'. split; [done|]. unfold allocsIn. simpl. rewrite Ea. apply (stopsMore_app [a] _ _ _ _ (AppendUpdate_stops _ _ _ _) Hs).
Qed.

(** What the difference asks for can be done. *)
Record diffInput s (nodes : list Node) (diff : diffResult) : Prop := {
  di_stop : ∀ t, t ∈ dr_stop diff ++ dr_lost diff → is_Some (at_Alloc t);
  di_update : ∀ t, t ∈ dr_update diff → updatable job known (ec_state (gs_ctx (ss_stack s))) t ∧ placeable nodes t;
  di_place : ∀ t, t ∈ dr_place diff → placeable nodes t;
  di_groups : ∀ t, t ∈ dr_ignore diff ++ dr_migrate diff → is_Some (at_TaskGroup t)
}.

(** The number of destructive updates that one attempt makes. *)
Definition updateLimit (destructive : list allocTuple) : Z :=
  if negb (jb_Stop job) && Rolling (jb_Update job) then us_MaxParallel (jb_Update job)
  else Z.of_nat (length destructive).

(** The parts of a scheduler that an attempt does not touch once it has begun. *)
Definition fixedParts s := (ss_state s, ss_planner s, ss_eval s, ss_job s, ss_planResult s, ss_nodes s, ss_nextEval s).

(** The updates are done in place or, up to the limit, by stopping and placing; the
    rest waits.  The plan stops nothing else. *)
Record diffDone s (nodes : list Node) (diff : diffResult) s' (inplace evicted waiting : list allocTuple) : Prop := {
  dd_split : inplace ++ evicted ++ waiting ≡ₚ dr_update diff;
  dd_fixed : fixedParts s' = fixedParts s;
  dd_ready : systemReady job known (ss_stack s');
  dd_inplace : ∀ t a, t ∈ inplace → at_Alloc t = Some a → AllocTerminal a = false →
    renewed (ev_ID (ss_eval s)) a (plan_of s');
  dd_placed : ∀ t, t ∈ dr_place diff ++ evicted → settled s' nodes t;
  dd_stops : ∀ n, stopsOn (plan_of s') n =
    stopsOn (plan_of s) n ++ (al_ID <$> filter (fun a => al_NodeID a = n) (allocsIn (dr_stop diff) ++ allocsIn (dr_lost diff) ++ allocsIn evicted));
  dd_desired : ∀ n u, u ∈ updatesOf (plan_of s') n → u ∈ updatesOf (plan_of s) n ∨ al_DesiredStatus u = AllocDesiredStatusStop;
  dd_limit : waiting ≠ [] → ss_limitReached s' = true
}.

Lemma fold_addQueued group_names : ∀ s,
  let s' := foldl (fun s name => addQueued name 1 s) s group_names in
  frame s' = frame s ∧ ss_stack s' = ss_stack s ∧ ss_failedTGAllocs s' = ss_failedTGAllocs s.
Proof. induction group_names as [|g l IH]; intros s; [done|]. cbn [foldl]. by destruct (IH (addQueued g 1 s)) as (-> & -> & ->). Qed.

Lemma annotatePlan_spec diff inplace destructive s :
  (∀ g, annotated (plan_of s) g) →
  (∀ t, t ∈ dr_place diff ++ dr_ignore diff ++ dr_migrate diff ++ inplace ++ destructive → is_Some (at_TaskGroup t)) →
  (∀ t, t ∈ dr_stop diff → is_Some (at_Alloc t)) →
  ∃ d, annotatePlan diff inplace destructive s = Some (setPlan (fun p => p <| pl_Annotations := d |>) s) ∧
    ∀ t tg, t ∈ dr_place diff ++ destructive → at_TaskGroup t = Some tg → ∀ d', d = Some d' → is_Some (d' !! tg_Name tg).
Proof.
  intros Hann Hg Hst. unfold annotatePlan. destruct (ev_AnnotatePlan (ss_eval s)).
  - destruct (desiredUpdates_spec diff inplace destructive Hg Hst) as (m & -> & Hm). cbn [mbind option_bind].
    exists (Some m). split; [done|]. intros t tg Ht Etg d' [= <-]. by eapply Hm.
  - exists (pl_Annotations (plan_of s)). split; [|intros t tg _ _ d' E; by apply Hann].
    f_equal. by destruct s as [? ? ? ? ? [? [? ? ? [] ? ?] ? ? ? ? ? ? ? ? ? ? ? ? ?] ? ? ? ? ? ? ? ?].
Qed.

Lemma placeDiff_spec nodes diff s :
  (∀ n, n ∈ nodes → n ∈ known) → ss_nodes s = nodes → systemReady job known (ss_stack s) → ss_job s = Some job →
  (∀ t, t ∈ dr_place diff → placeable nodes t) →
  (∀ t tg, t ∈ dr_place diff → at_TaskGroup t = Some tg → annotated (plan_of s) (tg_Name tg)) →
  ∃ s', placeDiff uuid elapsed diff s = Some (None, s') ∧ advances s s' ∧ ∀ t, t ∈ dr_place diff → settled s' nodes t.
Proof.
  intros Hk En Hs Hj Hp Hann. unfold placeDiff. destruct (Nat.eqb_spec (length (dr_place diff)) 0) as [E|_].
  { eexists. split; [done|]. split; [split; [done|by apply grows_refl|done]|].
    apply nil_length_inv in E. rewrite E. by intros t ?%elem_of_nil. }
  destruct (groupNames_spec (dr_place diff)) as (gs & -> & _).
  { intros t Ht. destruct (Hp t Ht) as (a & tg & _ & E & _). by eexists. }
  cbn [mbind option_bind]. destruct (fold_addQueued gs s) as (Ef & Est & Efail). set (s1 := foldl _ s gs) in *.
  assert (advances s s1) as Ha1.
  { split; [done|rewrite Est; by apply grows_refl|by rewrite Efail]. }
  assert (ss_nodes s1 = nodes ∧ ss_job s1 = Some job) as [En1 Ej1] by (injection Ef; intros; split; congruence).
  unfold computeSystemPlacements. rewrite En1.
  destruct (placeAll_spec nodes (dr_place diff) s1 Hk) as (s2 & E2 & Ha2 & Hall); [by rewrite Est|done|done| |].
  { unfold plan_of. rewrite Est. exact Hann. }
  exists s2. split; [exact E2|]. split; [by eapply advances_trans|done].
Qed.

Lemma allocsIn_app ts ts' : allocsIn (ts ++ ts') = allocsIn ts ++ allocsIn ts'.
Proof. apply omap_app. Qed.

(** The difference is carried out. *)
Lemma applySystemDiff_spec nodes diff s :
  (∀ n, n ∈ nodes → n ∈ known) → ss_nodes s = nodes → systemReady job known (ss_stack s) → ss_job s = Some job →
  pl_Annotations (plan_of s) = None → diffInput s nodes diff →
  ∃ s' inplace evicted waiting,
    applySystemDiff uuid elapsed diff s = Some (None, s') ∧ diffDone s nodes diff s' inplace evicted waiting.
Proof.
  intros Hk En Hs Hj Hann [Hst Hup Hpl Hgr]. unfold applySystemDiff.
  destruct (stopTuples_spec allocNotNeeded "" (dr_stop diff) (plan_of s)) as (p1 & -> & S1); [intros; apply Hst; solve_in|].
  cbn [mbind option_bind].
  destruct (stopTuples_spec allocLost AllocClientStatusLost (dr_lost diff) p1) as (p2 & -> & S2); [intros; apply Hst; solve_in|].
  cbn [mbind option_bind]. cbv zeta. set (s1 := setPlan (fun _ => p2) s).
  pose proof (stopsMore_app _ _ _ _ _ S1 S2) as S12.
  assert (systemReady job known (ss_stack s1)) as Hs1 by by apply systemReady_plan.
  change (ss_job s1) with (ss_job s). rewrite Hj.
  destruct (inplaceUpdate_spec rangeTasks_perm intn_range job known classes names known_walkable elapsed (ss_eval s1)
    (dr_update diff) (ss_clock s1) (ss_stack s1) Hs1) as (destr & inpl & clock & stack & -> & Hsplit & Hg & Hren);
    [intros t Ht; apply Hup, Ht|]. cbn [mbind option_bind].
  set (s2 := s1 <| ss_stack := stack |> <| ss_clock := clock |>).
  assert (∀ t, t ∈ destr ++ inpl → updatable job known (ec_state (gs_ctx (ss_stack s))) t ∧ placeable nodes t) as Hup'.
  { intros t. rewrite Hsplit. apply Hup. }
  assert (∀ t, placeable nodes t → is_Some (at_TaskGroup t)) as Hpg by (intros t (? & ? & _ & E & _); by eexists).
  destruct (annotatePlan_spec (diff <| dr_update := destr |>) inpl destr s2) as (d & -> & Hd); [| |intros; apply Hst; simpl in *; solve_in|].
  { intros g. apply (pm_annotated _ _ (gr_plan _ _ _ _ Hg)). intros d.
    change (pl_Annotations p2 = Some d → is_Some (d !! g)). by rewrite (sm_annotations _ _ _ S12), Hann. }
  { simpl. intros t. rewrite !elem_of_app. intros [Ht|[Ht|[Ht|Ht]]]; [by apply Hpg, Hpl|apply Hgr; solve_in..|].
    apply Hpg, Hup'. rewrite elem_of_app. tauto. }
  cbn [mbind option_bind]. set (s3 := setPlan _ s2). simpl in Hd. cbn [dr_update].
  change (dr_update (diff <| dr_update := destr |>)) with destr.
  set (limit := destructiveLimit _ _).
  destruct (evictAndPlace_spec (plan_of s3) (diff <| dr_update := destr |>) destr allocUpdating limit) as (rest & p4 & -> & S4).
  { intros t Ht. destruct (Hup' t) as [(a & _ & _ & _ & E & _) _]; [solve_in|]. by eexists. }
  cbn [mbind option_bind]. set (evicted := take (Z.to_nat limit) destr) in *. set (waiting := drop (Z.to_nat limit) destr).
  set (s4 := (setPlan (fun _ => p4) s3) <| ss_limitReached := _ |>).
  destruct (placeDiff_spec nodes (diff <| dr_update := destr |> <| dr_place ::= fun l => l ++ evicted |>) s4)
    as (s5 & E5 & Ha & Hall); [done|done|by apply systemReady_plan, systemReady_plan, Hg|done| | |].
  { intros t [Ht|Ht]%elem_of_app; [by apply Hpl|]. apply Hup'. apply elem_of_app. left. by eapply subseteq_take. }
  { intros t tg Ht Etg d'. change (plan_of s4) with p4. rewrite (sm_annotations _ _ _ S4). change (d = Some d' → is_Some (d' !! tg_Name tg)).
    apply (Hd t tg); [|done]. apply elem_of_app in Ht as [Ht|Ht]; [solve_in|]. apply elem_of_app. right. by eapply subseteq_take. }
  exists s5, inpl, evicted, waiting. split; [exact E5|]. 
  assert (∀ n, updatesOf (plan_of s3) n = updatesOf p2 n) as U3 by exact (pm_updates _ _ (gr_plan _ _ _ _ Hg)).
  assert (∀ n, updatesOf (plan_of s5) n = updatesOf p4 n) as U5 by exact (pm_updates _ _ (gr_plan _ _ _ _ (ad_grows _ _ Ha))).
  pose proof (ad_frame _ _ Ha) as Hf. split.
  - subst evicted waiting. by rewrite take_drop, Permutation_app_comm.
  - assert (fixedParts s5 = fixedParts s4) as -> by (unfold frame in Hf; unfold fixedParts; congruence). done.
  - apply Ha.
  - intros t a Ht Ea Et. eapply renewed_grows; [apply (gr_plan _ _ _ _ (ad_grows _ _ Ha))|].
    destruct (Hren t a Ht Ea Et) as (u & Hu & Hrest). exists u. split; [|exact Hrest].
    unfold allocsOf. change (ec_plan (gs_ctx (ss_stack s4))) with p4. rewrite (sm_allocs _ _ _ S4). exact Hu.
  - exact Hall.
  - intros n. unfold stopsOn at 1. rewrite U5. fold (stopsOn p4 n). rewrite (sm_stops _ _ _ S4). unfold stopsOn at 1.
    rewrite U3. fold (stopsOn p2 n). by rewrite (sm_stops _ _ _ S12), !filter_app, !fmap_app, !app_assoc.
  - intros n u. rewrite U5. intros [Hu|?]%(sm_desired _ _ _ S4); [|by right]. rewrite U3 in Hu. by apply (sm_desired _ _ _ S12).
  - intros Hw. assert (ss_limitReached s5 = ss_limitReached s4) as -> by (unfold frame in Hf; congruence).
    apply negb_true_iff, Z.leb_gt. apply Znot_ge_lt. intros Hge. apply Hw, drop_ge. lia.
Qed.
End job.

(** ** The state of a job *)

Lemma materialize_group job name tg :
  materializeTaskGroups job !! name = Some tg → ∃ j, job = Some j ∧ jb_Stop j = false ∧ tg ∈ jb_TaskGroups j.
Proof.
  destruct job as [j|]; [|done]. unfold materializeTaskGroups, Stopped. destruct (jb_Stop j) eqn:Es; [done|].
  intros Hl. exists j. split_and!; try done.
  assert (∀ tgs (m : gmap string TaskGroup), foldl (fun out tg =>
            foldl (fun (out : gmap string TaskGroup) i => <[AllocName (jb_Name j) (tg_Name tg) i := tg]> out)
              out (seqZ 0 (tg_Count tg))) m tgs !! name = Some tg → m !! name = Some tg ∨ tg ∈ tgs) as Hgo.
  2:{ by destruct (Hgo _ _ Hl). }
  clear Hl. induction tgs as [|t tgs IH]; intros m; cbn [foldl]; [by left|]. intros [Hm|?]%IH; [|right; by right].
  generalize dependent (seqZ 0 (tg_Count t)). intros idxs. induction idxs as [|i idxs IHi] using rev_ind; [by left|].
  rewrite foldl_app. cbn [foldl]. intros [[_ ->]|[_ Hm]]%lookup_insert_Some; [right; left|by apply IHi].
Qed.

(** A node on which the job is to run. *)
Definition readyIn (j : Job) (n : Node) : Prop := NodeReady n = true ∧ nd_Datacenter n ∈ jb_Datacenters j.

(** What the scheduler relies on in the state: the nodes are known under their
    identifiers, the allocations of the job have different identifiers and carry their
    version of the job, with resources for its tasks; and a live allocation is
    on a node that is tainted, or ready in a datacenter of the job. *)

Record systemState (st : SchedState) (id : string) (job : option Job) (nodes : list Node) (allocs : list Allocation) : Prop := {
  so_job : sc_JobByID st id = inr job;
  so_nodes : sc_Nodes st = inr nodes;
  so_allocs : sc_AllocsByJob st id true = inr allocs;
  so_known : ∀ n, n ∈ nodes → n ∈ known ∧ sc_NodeByID st (nd_ID n) = inr (Some n);
  so_lookup : ∀ a, a ∈ allocs → ∃ node, sc_NodeByID st (al_NodeID a) = inr node ∧
    ∀ n, node = Some n → n ∈ nodes ∧ nd_ID n = al_NodeID a ∧ ValidNodeStatus (nd_Status n) = true;
  so_ids : NoDup (al_ID <$> allocs);
  so_groups : ∀ j, job = Some j → jb_Stop j = false →
    NoDup (tg_Name <$> jb_TaskGroups j) ∧ ∀ tg, tg ∈ jb_TaskGroups j → is_Some (tg_EphemeralDisk tg) ∧ NoDup (tk_Name <$> tg_Tasks tg);
  so_version : ∀ a tg, a ∈ allocs → AllocTerminal a = false → materializeTaskGroups job !! al_Name a = Some tg →
    ∃ ej old, al_Job a = Some ej ∧ LookupTaskGroup ej (tg_Name tg) = Some old ∧
      ∀ task, task ∈ tg_Tasks old → is_Some (default ∅ (al_TaskResources a) !! tk_Name task);
  so_home : ∀ j a n, job = Some j → jb_Stop j = false → a ∈ allocs → AllocTerminal a = false →
    sc_NodeByID st (al_NodeID a) = inr (Some n) → drains n = false → readyIn j n
}.

(** An allocation the job no longer needs where it is. *)
Definition unwanted (st : SchedState) (job : option Job) (a : Allocation) : Prop :=
  materializeTaskGroups job !! al_Name a = None ∨
  (∃ node x, sc_NodeByID st (al_NodeID a) = inr node ∧ taintOf node = Some x) ∧
  ¬ (jb_Type <$> al_Job a = Some JobTypeBatch ∧ RanSuccessfully a = true).

(** The allocation goes on running: it is up to date, or the plan renews it, or the limit
    of the rolling update makes it wait. *)
Definition keptOn (j : Job) s (a : Allocation) : Prop :=
  (al_ID a ∉ stopsOn (plan_of s) (al_NodeID a)) ∧
  (jb_JobModifyIndex <$> al_Job a = Some (jb_JobModifyIndex j) ∨ renewed (ev_ID (ss_eval s)) a (plan_of s) ∨
   ss_limitReached s = true).

(** What an attempt promises: what is required on a ready node runs there, is placed there
    or has failed there, and what is not wanted is stopped. *)
Record attemptRight (st : SchedState) (job : option Job) (nodes : list Node) (allocs : list Allocation) s : Prop := {
  ar_required : ∀ j n name tg, job = Some j → n ∈ nodes → readyIn j n → materializeTaskGroups job !! name = Some tg →
    placedOn j s n name tg ∨ failedOn j s n tg ∨
    ∃ a, a ∈ allocs ∧ AllocTerminal a = false ∧ al_NodeID a = nd_ID n ∧ al_Name a = name ∧ keptOn j s a;
  ar_unwanted : ∀ a, a ∈ allocs → AllocTerminal a = false → unwanted st job a →
    ∃ u, u ∈ updatesOf (plan_of s) (al_NodeID a) ∧ al_ID u = al_ID a ∧ al_DesiredStatus u = AllocDesiredStatusStop
}.

(** ** The beginning of an attempt *)

Section state.
Context (st : SchedState) (id : string) (job : option Job) (nodes : list Node) (allocs : list Allocation).
Context (Hst : systemState st id job nodes allocs).

Record begun s0 s : Prop := {
  be_fixed : (ss_state s, ss_planner s, ss_eval s, ss_planResult s, ss_nextEval s, ss_job s) =
             (st, ss_planner s0, ss_eval s0, ss_planResult s0, ss_nextEval s0, job);
  be_plan : plan_of s = MakePlan (ss_eval s0) job;
  be_pool : gs_pool (ss_stack s) = gs_pool (ss_stack s0);
  be_ready : ∀ j, job = Some j → jb_Stop j = false →
    ss_nodes s = filter (readyIn j) nodes ∧ systemReady j known (ss_stack s) ∧ ec_state (gs_ctx (ss_stack s)) = st
}.

Lemma beginAttempt_spec s0 :
  ss_state s0 = st → ev_JobID (ss_eval s0) = id → pool_ok (gs_pool (ss_stack s0)) →
  ∃ s, beginAttempt s0 = (None, s) ∧ begun s0 s.
Proof.
  intros Est Eid Hpool. unfold beginAttempt. rewrite Est, Eid, (so_job _ _ _ _ _ Hst).
  destruct job as [j|] eqn:Ej; [destruct (jb_Stop j) eqn:Estop|].
  - eexists. split; [done|]. split; rewrite ?Ej; [simpl; by rewrite Est|done|done|]. intros j' [= <-]. congruence.
  - destruct (readyNodesInDCs_spec st nodes (jb_Datacenters j) (so_nodes _ _ _ _ _ Hst)) as (out & dcMap & E & Eout).
    change (ss_state (s0 <| ss_job := Some j |> <| ss_queuedAllocs := Some ∅ |>)) with (ss_state s0). rewrite Est, E.
    eexists. split; [done|]. split; rewrite ?Ej; [simpl; by rewrite Est|done|done|]. intros j' [= <-] _. split_and!; [done| |done].
    apply systemReady_new; [|done]. by apply (so_groups _ _ _ _ _ Hst j).
  - eexists. split; [done|]. split; rewrite ?Ej; [simpl; by rewrite Est|done..].
Qed.

(** ** The difference of the state *)

Section taint.
Context (taint : gmap string (option Node)).
Context (Htaint : ∀ id, taint !! id = if decide (id ∈ al_NodeID <$> allocs) then
                                        match sc_NodeByID st id with inr node => taintOf node | inl _ => None end else None).
Let required := materializeTaskGroups job.
Context (live : list Allocation) (Hlive : live ≡ₚ filter (fun a => AllocTerminal a = false) allocs).

Lemma elem_of_live a : a ∈ live ↔ AllocTerminal a = false ∧ a ∈ allocs.
Proof. by rewrite Hlive, list_elem_of_filter. Qed.

Lemma taint_alloc a :
  a ∈ allocs → ∃ node, sc_NodeByID st (al_NodeID a) = inr node ∧ taint !! al_NodeID a = taintOf node ∧
    ∀ n, node = Some n → n ∈ nodes ∧ nd_ID n = al_NodeID a.
Proof.
  intros Ha. destruct (so_lookup _ _ _ _ _ Hst a Ha) as (node & E & Hn). exists node.
  rewrite Htaint, decide_True by by apply list_elem_of_fmap_2. rewrite E. split_and!; [done..|].
  intros n En. by destruct (Hn n En) as (? & ? & _).
Qed.

Lemma taint_ready n : n ∈ nodes → NodeReady n = true → taint !! nd_ID n = None.
Proof.
  intros Hn Hr. rewrite Htaint. case_decide; [|done]. destruct (so_known _ _ _ _ _ Hst n Hn) as [_ ->]. simpl.
  unfold NodeReady in Hr. apply andb_true_iff in Hr as [Hr%bool_decide_eq_true Hd%negb_true_iff].
  unfold drains. rewrite Hr, Hd. done.
Qed.

(** A live allocation of a node that is not tainted is on a ready node. *)
Lemma live_home j a :
  job = Some j → jb_Stop j = false → a ∈ live → taint !! al_NodeID a = None →
  al_NodeID a ∈ nd_ID <$> filter (readyIn j) nodes.
Proof.
  intros Ej Es [Ht Ha]%elem_of_live Hnt. destruct (taint_alloc a Ha) as (node & E & Et & Hn). rewrite Hnt in Et.
  destruct node as [n|]; [|done]. destruct (Hn n eq_refl) as [Hin <-]. apply list_elem_of_fmap_2, list_elem_of_filter. split; [|done].
  eapply (so_home _ _ _ _ _ Hst j a n); try done. simpl in Et. by destruct (drains n).
Qed.

Lemma live_diffable : diffable job required live.
Proof.
  intros a [Ht Ha]%elem_of_live [tg Hr]. destruct (so_version _ _ _ _ _ Hst a tg Ha Ht Hr) as (ej & old & Ej & _).
  destruct (materialize_group job _ tg Hr) as (j & -> & _). by split; eexists.
Qed.

Lemma group_of_required name tg : required !! name = Some tg → ∃ j, job = Some j ∧ jb_Stop j = false ∧ group_ok j tg.
Proof.
  intros Hr. destruct (materialize_group job _ tg Hr) as (j & Ej & Es & Htg). exists j. split_and!; try done.
  destruct (so_groups _ _ _ _ _ Hst j Ej Es) as [_ Hg]. by destruct (Hg tg Htg).
Qed.

Lemma fate_required a f : fateOf job taint required a = f → f ≠ FStop → ∃ tg, required !! al_Name a = Some tg.
Proof. unfold fateOf. destruct (required !! al_Name a) as [tg|]; [by eexists|]. by intros <-. Qed.

Lemma fate_untainted a f : fateOf job taint required a = f → f = FUpdate → taint !! al_NodeID a = None.
Proof.
  unfold fateOf. intros <-. destruct (required !! al_Name a); [|done]. destruct (taint !! al_NodeID a) as [node|]; [|done].
  destruct (_ && _); [done|]. by destruct (from_option NodeTerminal true node).
Qed.

Context (ready : list Node) (terminal : gmap string Allocation) (diff : diffResult).
Context (Hdiff : diffRight job ready taint live terminal diff).

Lemma annotate_spec nodeID t :
  at_Name (annotate nodeID t) = at_Name t ∧ at_TaskGroup (annotate nodeID t) = at_TaskGroup t ∧
  ∃ a, at_Alloc (annotate nodeID t) = Some a ∧ al_NodeID a = nodeID.
Proof.
  unfold annotate. destruct (at_Alloc t) as [a|] eqn:E; [case_bool_decide|]; split_and!; try done; by eexists.
Qed.

(** What the difference asks for can be done. *)
Lemma diff_input j s :
  job = Some j → jb_Stop j = false → ready = filter (readyIn j) nodes → ec_state (gs_ctx (ss_stack s)) = st →
  diffInput j s ready diff.
Proof.
  intros Ej Es Er Est. destruct Hdiff as [Dm Ds Dl Du Di Dp]. fold required in Ds, Dl, Du, Di, Dp. split.
  - intros t. rewrite elem_of_app, Ds, Dl, elem_of_app, !elem_of_withFate. intros [[Ht|Ht]|Ht]; destruct Ht as (a & _ & _ & ->); by eexists.
  - intros t. rewrite Du, elem_of_withFate. intros (a & Ha & Hf & ->). destruct (fate_required a _ Hf ltac:(done)) as [tg Htg].
    destruct (group_of_required _ tg Htg) as (j' & Ej' & _ & Hg). assert (j' = j) as -> by congruence.
    pose proof (proj1 (elem_of_live a) Ha) as [Hterm Hin].
    destruct (so_version _ _ _ _ _ Hst a tg Hin Hterm Htg) as (ej & old & Eej & Eold & Hres). rewrite Est. split.
    + exists a, tg, ej, old. split_and!; try done.
      intros n En. destruct (taint_alloc a Hin) as (node & E & _ & Hn). assert (node = Some n) as -> by congruence.
      apply (so_known _ _ _ _ _ Hst n), (Hn n eq_refl).
    + exists a, tg. split_and!; try done. rewrite Er. apply (live_home j a Ej Es Ha). by eapply fate_untainted.
  - intros t (nodeID & name & tg & (Hid & Hnt & Hreq & _) & ->)%Dp. destruct (annotate_spec nodeID (mkAllocTuple name (Some tg) (terminal !! name)))
      as (_ & Et & a & Ea & <-). destruct (group_of_required _ tg Hreq) as (j' & Ej' & _ & Hg). assert (j' = j) as -> by congruence.
    exists a, tg. split_and!; try done. destruct Hid as [(b & Eb & Hb)%list_elem_of_fmap|Hid]; [|done].
    rewrite Eb in Hnt |- *. rewrite Er. by apply live_home.
  - intros t. rewrite Dm, app_nil_r, Di, elem_of_withFate. intros (a & _ & Hf & ->). by apply (fate_required a _ Hf).
Qed.

Lemma id_inj a b : a ∈ allocs → b ∈ allocs → al_ID a = al_ID b → a = b.
Proof.
  intros [i Hi]%list_elem_of_lookup [k Hk]%list_elem_of_lookup E.
  assert (i = k) as <-; [|congruence]. eapply NoDup_lookup; [exact (so_ids _ _ _ _ _ Hst)|..]; rewrite list_lookup_fmap.
  - by rewrite Hi.
  - rewrite Hk. simpl. by rewrite E.
Qed.

Lemma live_NoDup : NoDup live.
Proof. rewrite Hlive. apply NoDup_filter. eapply NoDup_fmap_1, (so_ids _ _ _ _ _ Hst). Qed.

Lemma tupleOf_inj a b : tupleOf required a = tupleOf required b → a = b.
Proof. by intros [= _ _ ->]. Qed.

Lemma update_NoDup : NoDup (dr_update diff).
Proof.
  rewrite (dx_update _ _ _ _ _ _ Hdiff). apply NoDup_fmap_2_strong; [|apply NoDup_filter, live_NoDup].
  intros a b _ _. apply tupleOf_inj.
Qed.

Lemma elem_of_allocsIn a ts : a ∈ allocsIn ts ↔ ∃ t, t ∈ ts ∧ at_Alloc t = Some a.
Proof. unfold allocsIn. apply list_elem_of_omap. Qed.

(** The plan stops only what is terminal, what has that fate, and what is evicted. *)
Lemma stopped_only lost evicted a :
  (∀ b, b ∈ lost → b ∈ allocs ∧ AllocTerminal b = true) → (∀ t, t ∈ evicted → t ∈ dr_update diff) → a ∈ live →
  al_ID a ∈ (al_ID <$> filter (fun b => al_NodeID b = al_NodeID a) lost) ++
    (al_ID <$> filter (fun b => al_NodeID b = al_NodeID a) (allocsIn (dr_stop diff) ++ allocsIn (dr_lost diff) ++ allocsIn evicted)) →
  fateOf job taint required a ∈ [FStop; FMigrate; FLost] ∨ tupleOf required a ∈ evicted.
Proof.
  intros Hlost Hev Ha. pose proof (proj1 (elem_of_live a) Ha) as [Hterm Hin].
  rewrite <- fmap_app, <- filter_app. intros (b & Eid & [_ Hb]%list_elem_of_filter)%list_elem_of_fmap.
  assert (∀ f t, t ∈ withFate job taint required f live → at_Alloc t = Some b → b ∈ live ∧ fateOf job taint required b = f ∧ t = tupleOf required b) as Hfate.
  { intros f t (c & Hc & Hf & ->)%elem_of_withFate [= ->]. done. }
  destruct Hdiff as [Dm Ds Dl Du Di Dp]. fold required in Ds, Dl, Du, Di, Dp.
  assert (b ∈ allocs → a = b) as Hab by (intros; by apply id_inj).
  apply elem_of_app in Hb as [Hb|Hb].
  { destruct (Hlost b Hb) as [Hb1 Hb2]. rewrite (Hab Hb1) in Hterm. congruence. }
  rewrite !elem_of_app, !elem_of_allocsIn in Hb. destruct Hb as [(t & Ht & Eb)|[(t & Ht & Eb)|(t & Ht & Eb)]].
  - rewrite Ds in Ht. apply elem_of_app in Ht as [Ht|Ht]; destruct (Hfate _ t Ht Eb) as ([_ Hb]%elem_of_live & Hf & _);
      rewrite (Hab Hb), Hf; left; solve_in.
  - rewrite Dl in Ht. destruct (Hfate _ t Ht Eb) as ([_ Hb]%elem_of_live & Hf & _). rewrite (Hab Hb), Hf. left. solve_in.
  - pose proof (Hev t Ht) as Hu. rewrite Du in Hu. destruct (Hfate _ t Hu Eb) as ([_ Hb]%elem_of_live & Hf & ->).
    right. by rewrite (Hab Hb).
Qed.

(** What is required on a ready node. *)
Lemma required_done j s p0 s' inplace evicted waiting lost n name tg :
  job = Some j → ready = filter (readyIn j) nodes → n ∈ nodes → readyIn j n → required !! name = Some tg →
  diffDone j s ready diff s' inplace evicted waiting →
  stopsMore lost p0 (plan_of s) → (∀ nodeID, stopsOn p0 nodeID = []) → (∀ b, b ∈ lost → b ∈ allocs ∧ AllocTerminal b = true) →
  placedOn j s' n name tg ∨ failedOn j s' n tg ∨
  ∃ a, a ∈ allocs ∧ AllocTerminal a = false ∧ al_NodeID a = nd_ID n ∧ al_Name a = name ∧ keptOn j s' a.
Proof.
  intros Ej Er Hn Hrn Hreq [Dsplit Dfix Dready Dinpl Dpl Dstops Ddes Dlim] Hmore Hp0 Hlost.
  pose proof (taint_ready n Hn (proj1 Hrn)) as Hnt.
  assert (∀ t, t ∈ dr_place diff ++ evicted → at_Name t = name → at_TaskGroup t = Some tg → (∃ a, at_Alloc t = Some a ∧ al_NodeID a = nd_ID n) →
    placedOn j s' n name tg ∨ failedOn j s' n tg) as Hset.
  { intros t Ht En Et (a & Ea & Ean). destruct (Dpl t Ht a tg Ea Et) as (node & Hnode & Enode & Hpf).
    assert (node = n) as ->; [|by rewrite En in Hpf]. rewrite Er in Hnode. apply list_elem_of_filter in Hnode as [_ Hnode].
    destruct (so_known _ _ _ _ _ Hst n Hn) as [_ E1], (so_known _ _ _ _ _ Hst node Hnode) as [_ E2]. rewrite Enode, Ean in E2. congruence. }
  assert (∀ a, a ∈ live → fateOf job taint required a ∉ [FStop; FMigrate; FLost] → tupleOf required a ∉ evicted →
    al_ID a ∉ stopsOn (plan_of s') (al_NodeID a)) as Hkept.
  { intros a Ha Hf He. rewrite Dstops, (sm_stops _ _ _ Hmore), Hp0. cbn [app]. intros Hid.
    apply stopped_only in Hid as [?|?]; try done. intros t Ht. rewrite <- Dsplit. solve_in. }
  destruct (decide (Exists (fun a => al_NodeID a = nd_ID n ∧ al_Name a = name) live)) as [Hex|Hno].
  2:{ destruct (Hset (annotate (nd_ID n) (mkAllocTuple name (Some tg) (terminal !! name)))) as [?|?]; [..|by auto|by auto].
      - apply elem_of_app. left. apply (dx_place _ _ _ _ _ _ Hdiff). exists (nd_ID n), name, tg. split; [|done]. split_and!; try done.
        + right. rewrite Er. apply list_elem_of_fmap_2, list_elem_of_filter. done.
        + intros a Ha E1 E2. apply Hno, Exists_exists. by exists a.
      - apply annotate_spec.
      - apply annotate_spec.
      - apply annotate_spec. }
  apply Exists_exists in Hex as (a & Ha & Enode & Ename). pose proof (proj1 (elem_of_live a) Ha) as [Hterm Hin].
  assert (fateOf job taint required a = FIgnore ∧ jb_JobModifyIndex <$> al_Job a = Some (jb_JobModifyIndex j) ∨
          fateOf job taint required a = FUpdate) as [[Hf Hidx]|Hf].
  { unfold fateOf. rewrite Ename, Hreq, Enode, Hnt, Ej. case_bool_decide as E; [left|by right]. by rewrite <- E. }
  { right; right. exists a. split_and!; try done. split; [|by left]. apply Hkept; [done|rewrite Hf; by intros ?; solve_in|].
    intros He. assert (tupleOf required a ∈ dr_update diff) as Hu by (rewrite <- Dsplit; solve_in).
    rewrite (dx_update _ _ _ _ _ _ Hdiff) in Hu. apply elem_of_withFate in Hu as (b & _ & Hfb & ->%tupleOf_inj). fold required in Hfb. congruence. }
  assert (tupleOf required a ∈ inplace ++ evicted ++ waiting) as Hu.
  { rewrite Dsplit, (dx_update _ _ _ _ _ _ Hdiff). apply elem_of_withFate. by exists a. }
  assert (NoDup (inplace ++ evicted ++ waiting)) as Hnd by (rewrite Dsplit; apply update_NoDup).
  assert (tupleOf required a ∉ evicted → al_ID a ∉ stopsOn (plan_of s') (al_NodeID a)) as Hk.
  { apply Hkept; [done|]. rewrite Hf. by intros ?; solve_in. }
  apply NoDup_app in Hnd as (_ & Hd1 & (_ & Hd2 & _)%NoDup_app).
  rewrite !elem_of_app in Hu. destruct Hu as [Hu|[Hu|Hu]].
  - right; right. exists a. split_and!; try done. split.
    + apply Hk. intros He. apply (Hd1 _ Hu). solve_in.
    + right; left. unfold fixedParts in Dfix. injection Dfix as _ _ -> _ _ _ _. by eapply Dinpl.
  - destruct (Hset (tupleOf required a)) as [?|?]; [solve_in|done|simpl; by rewrite Ename|by exists a|by auto|by auto].
  - right; right. exists a. split_and!; try done. split.
    + apply Hk. intros He. by apply (Hd2 _ He).
    + right; right. apply Dlim. by intros ->; apply elem_of_nil in Hu.
Qed.

Lemma unwanted_fate a : a ∈ allocs → unwanted st job a → fateOf job taint required a ∈ [FStop; FMigrate; FLost].
Proof.
  intros Ha Hu. unfold fateOf. destruct (required !! al_Name a) as [tg|] eqn:Er; [|left].
  destruct Hu as [Hu|[(node & x & E & Et) Hb]]; [unfold required in Er; congruence|].
  destruct (taint_alloc a Ha) as (node' & E' & -> & _). assert (node' = node) as -> by congruence. rewrite Et.
  destruct (bool_decide _ && _) eqn:Eb.
  { apply andb_true_iff in Eb as [?%bool_decide_eq_true ?]. by destruct Hb. }
  destruct (from_option NodeTerminal true x); solve_in.
Qed.

(** What is not wanted is stopped. *)
Lemma unwanted_done p0 p p' lost evicted a :
  (∀ n, stopsOn p' n = stopsOn p n ++
    (al_ID <$> filter (fun a => al_NodeID a = n) (allocsIn (dr_stop diff) ++ allocsIn (dr_lost diff) ++ allocsIn evicted))) →
  (∀ n u, u ∈ updatesOf p' n → u ∈ updatesOf p n ∨ al_DesiredStatus u = AllocDesiredStatusStop) →
  stopsMore lost p0 p → (∀ n, updatesOf p0 n = []) →
  a ∈ allocs → AllocTerminal a = false → unwanted st job a →
  ∃ u, u ∈ updatesOf p' (al_NodeID a) ∧ al_ID u = al_ID a ∧ al_DesiredStatus u = AllocDesiredStatusStop.
Proof.
  intros Hstops Hdes Hmore Hp0 Ha Hterm Hu%unwanted_fate; [|done].
  assert (a ∈ live) as Hl by by apply elem_of_live.
  assert (a ∈ allocsIn (dr_stop diff) ++ allocsIn (dr_lost diff) ++ allocsIn evicted) as Hin.
  { rewrite !elem_of_app, !elem_of_allocsIn. destruct Hdiff as [Dm Ds Dl Du Di Dp]. fold required in Ds, Dl.
    rewrite !elem_of_cons, elem_of_nil in Hu.
    destruct Hu as [Hf|[Hf|[Hf|[]]]]; [left|left|right; left]; exists (tupleOf required a); (split; [|done]);
      rewrite ?Ds, ?Dl, ?elem_of_app, ?elem_of_withFate; [left|right|]; by exists a. }
  assert (al_ID a ∈ stopsOn p' (al_NodeID a)) as (u & Eu & Hup)%list_elem_of_fmap.
  { rewrite Hstops. apply elem_of_app. right. apply list_elem_of_fmap_2, list_elem_of_filter. done. }
  exists u. split_and!; try done. destruct (Hdes _ u Hup) as [Hup'|?]; [|done].
  destruct (sm_desired _ _ _ Hmore _ u Hup') as [Hup0|?]; [|done]. rewrite Hp0 in Hup0. by apply elem_of_nil in Hup0.
Qed.
End taint.

(** A job that does not run has nothing to update or to place. *)
Lemma applySystemDiff_stop diff s :
  dr_update diff = [] → dr_place diff = [] → dr_migrate diff = [] → dr_ignore diff = [] →
  (∀ t, t ∈ dr_stop diff ++ dr_lost diff → is_Some (at_Alloc t)) →
  ∃ s', applySystemDiff uuid elapsed diff s = Some (None, s') ∧ fixedParts s' = fixedParts s ∧ gs_pool (ss_stack s') = gs_pool (ss_stack s) ∧
    ss_limitReached s' = false ∧
    (∀ n, stopsOn (plan_of s') n = stopsOn (plan_of s) n ++
       (al_ID <$> filter (fun a => al_NodeID a = n) (allocsIn (dr_stop diff) ++ allocsIn (dr_lost diff) ++ allocsIn []))) ∧
    (∀ n u, u ∈ updatesOf (plan_of s') n → u ∈ updatesOf (plan_of s) n ∨ al_DesiredStatus u = AllocDesiredStatusStop).
Proof.
  intros Eu Ep Em Ei Ht. unfold applySystemDiff.
  destruct (stopTuples_spec allocNotNeeded "" (dr_stop diff) (plan_of s)) as (p1 & -> & S1); [intros; apply Ht; solve_in|].
  cbn [mbind option_bind].
  destruct (stopTuples_spec allocLost AllocClientStatusLost (dr_lost diff) p1) as (p2 & -> & S2); [intros; apply Ht; solve_in|].
  cbn [mbind option_bind]. cbv zeta. rewrite Eu. 
  pose proof (stopsMore_app _ _ _ _ _ S1 S2) as [Estops Edes _ _ _].
  cbn [inplaceUpdate inplaceLoop length Nat.ltb Nat.leb take drop mbind option_bind].
  set (s1 := setPlan (fun _ => p2) s). set (s2 := s1 <| ss_stack := _ |> <| ss_clock := _ |>).
  set (diff1 := diff <| dr_update := [] |>).
  assert (∃ f, annotatePlan diff1 [] [] s2 = Some (setPlan f s2) ∧ ∀ p, pl_NodeUpdate (f p) = pl_NodeUpdate p) as (f & -> & Ef).
  { unfold annotatePlan. destruct (ev_AnnotatePlan (ss_eval s2)).
    - destruct (desiredUpdates_spec diff1 [] []) as (m & -> & _); [|intros; apply Ht; simpl in *; solve_in|].
      + subst diff1. simpl. rewrite Ep, Ei, Em. by intros t ?%elem_of_nil.
      + cbn [mbind option_bind]. by eexists.
    - exists (fun p => p). split; [|done]. by destruct s as [? ? ? ? ? [? [] ? ? ? ? ? ? ? ? ? ? ? ? ?] ? ? ? ? ? ? ? ?]. }
  cbn [mbind option_bind]. set (s3 := setPlan f s2).
  destruct (evictAndPlace_spec (plan_of s3) diff1 [] allocUpdating (destructiveLimit diff1 s3)) as (rest & p4 & E4 & S4);
    [by intros t ?%elem_of_nil|].
  change (dr_update diff1) with (@nil allocTuple). rewrite E4. cbn [mbind option_bind]. clear E4. rewrite take_nil in S4 |- *.
  unfold placeDiff. simpl. rewrite Ep. simpl. eexists. split; [done|]. split; [done|]. split; [done|].
  assert (0 ≤ destructiveLimit diff1 s3) as Hlim.
  { unfold destructiveLimit. destruct (ss_job s3) as [j|]; [|done]. unfold Rolling.
    destruct (negb (jb_Stop j)), (Z.ltb_spec 0 (us_Stagger (jb_Update j))), (Z.ltb_spec 0 (us_MaxParallel (jb_Update j))); simpl; lia. }
  split; [simpl; by apply negb_false_iff, Z.leb_le|].
  assert (∀ n, updatesOf (plan_of s3) n = updatesOf p2 n) as U3.
  { intros n. unfold updatesOf. change (plan_of s3) with (f p2). by rewrite Ef. }
  split.
  - intros n. etrans; [apply (sm_stops _ _ _ S4)|]. change (allocsIn []) with (@nil Allocation).
    rewrite filter_nil, !app_nil_r. unfold stopsOn at 1. rewrite U3. fold (stopsOn p2 n). apply Estops.
  - intros n u. change (u ∈ updatesOf p4 n → u ∈ updatesOf (plan_of s) n ∨ al_DesiredStatus u = AllocDesiredStatusStop).
    intros [Hu|?]%(sm_desired _ _ _ S4); [|by right]. rewrite U3 in Hu. by apply Edes.
Qed.

(** The job is not stopped, or nothing is required. *)
Lemma job_runs : (∃ j, job = Some j ∧ jb_Stop j = false) ∨ materializeTaskGroups job = ∅.
Proof.
  destruct job as [j|]; [|by right]. destruct (jb_Stop j) eqn:E; [right|left; by exists j].
  unfold materializeTaskGroups, Stopped. by rewrite E.
Qed.

Lemma computeJobAllocs_spec s0 s :
  begun s0 s → ev_JobID (ss_eval s0) = id → pool_ok (gs_pool (ss_stack s0)) →
  ∃ s', computeJobAllocs rangeNodes rangeGroups uuid elapsed s = Some (None, s') ∧ fixedParts s' = fixedParts s ∧
    pool_ok (gs_pool (ss_stack s')) ∧ (ss_limitReached s' = true → is_Some job) ∧ attemptRight st job nodes allocs s'.
Proof.
  intros [Bfix Bplan Bpool Bready] Eid Hpool. injection Bfix as Est _ Eeval _ _ Ejob. unfold computeJobAllocs. cbv zeta.
  rewrite Est, Eeval, Eid, (so_allocs _ _ _ _ _ Hst).
  destruct (taintedNodes_spec st allocs ∅) as (taint & -> & Htaint).
  { intros a Ha. destruct (so_lookup _ _ _ _ _ Hst a Ha) as (node & E & Hn). exists node. split; [done|].
    intros n En. by destruct (Hn n En) as (_ & _ & ?). }
  cbn [mbind option_bind].
  assert (∀ nodeID, taint !! nodeID = if decide (nodeID ∈ al_NodeID <$> allocs) then
    match sc_NodeByID st nodeID with inr node => taintOf node | inl _ => None end else None) as Ht by exact Htaint.
  pose proof (FilterTerminalAllocs_live allocs) as Hlive. destruct (FilterTerminalAllocs allocs) as [live terminal]. cbn [fst] in Hlive.
  destruct (updateNonTerminalAllocsToLost_stops taint allocs (plan_of s)) as (lost & Hmore & Hlost).
  set (s1 := setPlan _ s). change (updateNonTerminalAllocsToLost (plan_of s) taint allocs) with (plan_of s1) in Hmore.
  change (ss_job s1) with (ss_job s). rewrite Ejob. change (ss_nodes s1) with (ss_nodes s).
  destruct (diffSystemAllocs_spec rangeNodes rangeGroups job (ss_nodes s) taint live terminal rangeNodes_perm rangeGroups_perm)
    as (diff & -> & Hdiff); [eapply live_diffable; eassumption|]. cbn [mbind option_bind].
  assert (∀ n, updatesOf (plan_of s) n = []) as Hnone by (intros n; by rewrite Bplan).
  destruct job_runs as [(j & Ej & Estop)|Hempty].
  - destruct (Bready j Ej Estop) as (En & Hready & Estate).
    destruct (applySystemDiff_spec j (proj1 (so_groups _ _ _ _ _ Hst j Ej Estop)) (ss_nodes s) diff s1)
      as (s2 & inpl & ev & wait & E2 & Hdone).
    + rewrite En. intros n [_ Hn]%list_elem_of_filter. by apply (so_known _ _ _ _ _ Hst n).
    + done.
    + by apply systemReady_plan.
    + change (ss_job s = Some j). congruence.
    + change (pl_Annotations (plan_of s1) = None). by rewrite (sm_annotations _ _ _ Hmore), Bplan.
    + by eapply diff_input.
    + exists s2. split; [exact E2|]. split; [apply (dd_fixed _ _ _ _ _ _ _ _ Hdone)|].
      split; [apply (in_pool _ _ _ (sr_inv _ _ _ (dd_ready _ _ _ _ _ _ _ _ Hdone)))|].
      split; [intros _; by rewrite Ej|]. split.
      * intros j' n name tg Ej' Hn Hrn Hreq. assert (j' = j) as -> by congruence.
        eapply required_done; try eassumption. intros nodeID. unfold stopsOn. by rewrite Hnone.
      * intros a Ha Hterm Hu. eapply unwanted_done; try eassumption; [apply (dd_stops _ _ _ _ _ _ _ _ Hdone)|apply (dd_desired _ _ _ _ _ _ _ _ Hdone)].
  - assert (∀ f, f ≠ FStop → withFate job taint (materializeTaskGroups job) f live = []) as Hnil.
    { intros f Hf. unfold withFate. rewrite filter_nothing; [done|]. intros a _ E. unfold fateOf in E. rewrite Hempty in E.
      rewrite lookup_empty in E. congruence. }
    destruct Hdiff as [Dm Ds Dl Du Di Dp] eqn:EHdiff. clear EHdiff.
    assert (dr_place diff = []) as Epl.
    { apply elem_of_nil_inv. intros t (x & name & tg & (_ & _ & Hr & _) & _)%Dp. by rewrite Hempty, lookup_empty in Hr. }
    rewrite Hnil in Dl, Du, Di by done.
    apply Permutation_nil_r in Dl, Du, Di.
    destruct (applySystemDiff_stop diff s1) as (s2 & E2 & Hf & Hp & Hl & Hstops & Hdes); try done.
    { intros t. rewrite Dl, app_nil_r, Ds, elem_of_app, !elem_of_withFate. intros [Ht'|Ht']; destruct Ht' as (a & _ & _ & ->); by eexists. }
    exists s2. split; [exact E2|]. split; [done|]. split; [rewrite Hp; simpl; by rewrite Bpool|].
    split; [by rewrite Hl|]. split.
    * intros j n name tg _ _ _ Hr. by rewrite Hempty, lookup_empty in Hr.
    * intros a Ha Hterm Hu. by eapply unwanted_done; try eassumption.
Qed.
End state.

(** ** Attempts *)

(** The planner: it commits progress only so often, the states it hands out are sound, and
    a plan it accepts without a new state has a result. *)
Record plannerSound (id : string) (budget : W → nat) : Prop := {
  ps_submit : ∀ w p result newState err w', SubmitPlan w p = (result, newState, err, w') →
    (budget w' ≤ budget w)%nat ∧ (progressMade result = true → (budget w' < budget w)%nat) ∧
    (∀ st, newState = Some st → ∃ job nodes allocs, systemState st id job nodes allocs) ∧
    (err = None → newState = None → is_Some result);
  ps_create : ∀ w e, (budget (CreateEval w e).2 ≤ budget w)%nat
}.

Record attemptable (id : string) s : Prop := {
  at_state : ∃ job nodes allocs, systemState (ss_state s) id job nodes allocs;
  at_eval : ev_JobID (ss_eval s) = id;
  at_pool : pool_ok (gs_pool (ss_stack s))
}.

Lemma followUp_spec s :
  (ss_limitReached s = true → is_Some (ss_job s)) →
  ∃ err s', followUp uuid s = Some (err, s') ∧ ss_stack s' = ss_stack s ∧ ss_eval s' = ss_eval s ∧ ss_state s' = ss_state s ∧
    (ss_planner s' = ss_planner s ∨ ∃ e, ss_planner s' = (CreateEval (ss_planner s) e).2).
Proof.
  intros Hj. unfold followUp. destruct (ss_limitReached s); cbn [andb]; [|eexists None, s; split_and!; auto].
  case_bool_decide; [|eexists None, s; split_and!; auto]. destruct (Hj eq_refl) as [j ->]. cbn [mbind option_bind].
  destruct (CreateEval _ _) as [err w] eqn:E. eexists err, _. split; [done|]. split_and!; try done.
  right. simpl. exists (NextRollingEval (uuid (ss_uuids s)) (ss_eval s) (us_Stagger (jb_Update j))). by rewrite E.
Qed.

Lemma submit_spec id budget s :
  plannerSound id budget → attemptable id s →
  ∃ r s', submit s = Some (r, s') ∧ (budget (ss_planner s') ≤ budget (ss_planner s))%nat ∧
    (progressMade (ss_planResult s') = true → (budget (ss_planner s') < budget (ss_planner s))%nat) ∧ attemptable id s'.
Proof.
  intros [Hsub _] [Hst Hev Hpool]. unfold submit.
  destruct (SubmitPlan (ss_planner s) (plan_of s)) as [[[result newState] err] w] eqn:E.
  destruct (Hsub _ _ _ _ _ _ E) as (Hle & Hlt & Hns & Hres). destruct err as [err|].
  { eexists _, _. split; [done|]. by split_and!. }
  destruct newState as [st|].
  { eexists _, _. split; [done|]. split_and!; [done..|]. split; [by apply Hns|done..]. }
  destruct (Hres eq_refl eq_refl) as [r ->]. eexists _, _. split; [done|]. by split_and!.
Qed.

Lemma process_spec id budget s :
  plannerSound id budget → attemptable id s →
  ∃ r s', process rangeNodes rangeGroups uuid elapsed s = Some (r, s') ∧
    (r = inr false → attemptable id s' ∧ (budget (ss_planner s') ≤ budget (ss_planner s))%nat ∧
       (progressMade (ss_planResult s') = true → (budget (ss_planner s') < budget (ss_planner s))%nat)).
Proof.
  intros Hp [(job & nodes & allocs & Hst) Hev Hpool]. unfold process.
  destruct (beginAttempt_spec (ss_state s) id job nodes allocs Hst s eq_refl Hev Hpool) as (s1 & -> & Hb).
  destruct (computeJobAllocs_spec (ss_state s) id job nodes allocs Hst s s1 Hb Hev Hpool) as (s2 & -> & Hfix & Hpool2 & Hlim & _).
  cbn [mbind option_bind]. destruct Hb as [Bfix _ _ _]. injection Bfix as E1 E2 E3 E4 E5 E6.
  unfold fixedParts in Hfix. injection Hfix as F1 F2 F3 F4 F5 F6 F7.
  destruct (PlanIsNoOp (plan_of s2) && _); [by eexists _, _|].
  destruct (followUp_spec s2) as (err & s3 & -> & G1 & G2 & G3 & G4); [intros Hl; rewrite F4, E6; by apply Hlim|].
  cbn [mbind option_bind]. destruct err as [err|]; [by eexists _, _|].
  destruct (submit_spec id budget s3 Hp) as (r & s4 & -> & Hle & Hlt & Hat).
  { split; [exists job, nodes, allocs; by rewrite G3, F1, E1|congruence|by rewrite G1]. }
  assert (budget (ss_planner s3) ≤ budget (ss_planner s))%nat as Hb3.
  { destruct G4 as [->|[e ->]]; rewrite F2, E2; [done|]. apply (ps_create id budget Hp). }
  eexists r, s4. split; [done|]. intros _. split; [done|]. split; [lia|]. intros Hpr%Hlt. lia.
Qed.
End attempt.
