(* ===== verification/SystemProps.v ===== *)
(** * The properties of the system scheduler

    An attempt runs the job on every ready node of its datacenters, and an evaluation
    ends. *)

From stdpp Require Import base gmap strings list pretty.
From Stdlib Require Import ZArith Lia.
From S2P Require Import Prelude GoText GoHeap Bitmap Structs Resources Jobs Allocs Network NetworkAssign NetworkAssignProps Fit Plans Reconcile SchedContext Feasible Stack StackSpec StackPack StackSelect StackProps SchedUtil SchedUtilSpec SystemSched SystemSpec SystemAttempt.
Open Scope string_scope.
Open Scope list_scope.
Open Scope Z_scope.

(** Go ranges over all the entries of a map. *)
Record ranges_ok (rangeNodes : gmap string (list Allocation) → list (string * list Allocation))
    (rangeGroups : string → gmap string TaskGroup → list (string * TaskGroup)) : Prop := {
  ro_nodes : ∀ m, rangeNodes m ≡ₚ map_to_list m;
  ro_groups : ∀ id m, rangeGroups id m ≡ₚ map_to_list m
}.

Section props.
Context `{TextLibs} `{StackLibs} `{Planner W}.


(** An evaluation of the system scheduler ends.  When the planner commits progress at
    most [budget] times and hands out sound states, [Process] returns after at most five
    attempts without progress, and as many after each progress. *)
Theorem system_process_ends Hash known rangeNodes rangeGroups uuid elapsed budget eval fuel (s : SystemScheduler W) :
  libs_ok known → classed Hash known → ranges_ok rangeNodes rangeGroups →
  plannerSound known (ev_JobID eval) budget →
  (∃ job nodes allocs, systemState known (ss_state s) (ev_JobID eval) job nodes allocs) → pool_ok (gs_pool (ss_stack s)) →
  (budget (ss_planner s) * 6 + 5 < fuel)%nat →
  ∃ err s', Process rangeNodes rangeGroups uuid elapsed fuel eval s = Some (err, s').
Proof.
  intros [L1 L2 L3] Hcl%classed_ok [R1 R2] Hp Hst Hpool Hf. unfold Process. cbv zeta.
  destruct (handles (ev_TriggeredBy eval)); [|by destruct (finish _ _ _) as [err s'] eqn:E; eexists err, s'].
  assert (is_Some (retryMax fuel maxSystemScheduleAttempts (process rangeNodes rangeGroups uuid elapsed)
    (fun s => progressMade (ss_planResult s)) (s <| ss_eval := eval |>))) as [[res s1] E1].
  { apply (retryLoop_returns maxSystemScheduleAttempts _ _ (attemptable known (ev_JobID eval)) (fun s => budget (ss_planner s)));
      [done| |by split|done|exact Hf].
    intros s1 Hs1. by apply (process_spec L1 L2 known Hcl L3 rangeNodes rangeGroups R1 R2 uuid elapsed). }
  rewrite E1. cbn [mbind option_bind]. destruct res; try (destruct (finish _ _ _) as [err s'] eqn:E); by eexists _, _.
Qed.
End props.

(** ** A job on three nodes *)

#[local] Existing Instance demoText.
#[local] Existing Instance demoLibs.

(** The planner commits every plan, as often as its count says, and logs the statuses of
    the evaluations. *)
#[local] Instance demoPlanner : Planner (nat * list string) := {
  SubmitPlan w p :=
    match w.1 with
    | S n => (Some (mkPlanResult (pl_NodeUpdate p) (pl_NodeAllocation p) None [] 0 0), None, None, (n, w.2))
    | O => (None, None, Some "no leader", w)
    end;
  UpdateEval w e := (None, (w.1, w.2 ++ [ev_Status e]));
  CreateEval w e := (None, w);
  ReblockEval w e := (None, w)
}.

Definition agentTask (image : string) : Task :=
  mkTask "agent" "exec" image [] ∅ None [] [] [] (mkResources 100 64 0 0 []) ∅ 0 false.
Definition agentJob (dc image : string) (index : Z) : Job :=
  mkJob false "global" "agent" "" "agent" JobTypeSystem 50 false [dc] []
    [mkTaskGroup "mon" 1 None [] [agentTask image] (Some (mkEphemeralDisk false 10 false)) ∅] noUpdate None None "" ∅ "" "" false 1 0 1 1 index.
Definition agentAlloc : Allocation :=
  zeroAllocation <| al_ID := "x" |> <| al_NodeID := "a" |> <| al_JobID := "agent" |> <| al_Name := "agent.mon[0]" |>
    <| al_Job := Some (agentJob "dc1" "root" 1) |> <| al_TaskGroup := "mon" |>
    <| al_TaskResources := Some {["agent" := mkResources 100 64 0 0 []]} |>.
Definition agentState (job : Job) : SchedState :=
  mkSchedState (inr demoNodes)
    (fun id => inr (if bool_decide (id = "a") then Some (execNode "a") else if bool_decide (id = "b") then Some (execNode "b")
                    else if bool_decide (id = "c") then Some bareNode else None))
    (fun _ => inr (Some job))
    (fun id _ => inr (if bool_decide (id = "a") then [agentAlloc] else [])) (fun _ _ => inr [agentAlloc]) (fun _ => inr None).
Definition agentEval : Evaluation := zeroEvaluation <| ev_ID := "e" |> <| ev_JobID := "agent" |> <| ev_TriggeredBy := EvalTriggerJobRegister |>.
Definition agentScheduler (job : Job) : SystemScheduler (nat * list string) :=
  (NewSystemScheduler (agentState job) (3%nat, []) 0 []) <| ss_eval := agentEval |>.

Lemma agent_state : systemState demoNodes (agentState (agentJob "dc1" "root" 2)) "agent" (Some (agentJob "dc1" "root" 2)) demoNodes [agentAlloc].
Proof.
  split; try done.
  - intros n Hn. split; [done|]. unfold demoNodes in Hn. rewrite !elem_of_cons, elem_of_nil in Hn.
    by destruct Hn as [->|[->|[->|[]]]].
  - intros a ->%list_elem_of_singleton. exists (Some (execNode "a")). split; [done|]. intros n [= <-].
    split_and!; [unfold demoNodes; solve_in|done|done].
  - apply NoDup_singleton.
  - intros j [= <-] _. split; [apply NoDup_singleton|]. intros tg ->%list_elem_of_singleton. split; [by eexists|apply NoDup_singleton].
  - intros a tg ->%list_elem_of_singleton _ Hr. vm_compute in Hr. injection Hr as <-.
    eexists _, _. split; [done|]. split; [vm_compute; reflexivity|]. intros task ->%list_elem_of_singleton. by eexists.
  - intros j a n [= <-] _ ->%list_elem_of_singleton _ [= <-] _. split; [done|]. left.
Qed.

Lemma agent_ranges : ranges_ok map_to_list (fun _ => map_to_list).
Proof. done. Qed.


Lemma agent_planner : plannerSound demoNodes "agent" (fun w : nat * list string => w.1).
Proof.
  split; [|done]. intros [[|n] l] p result newState err w' [= <- <- <- <-]; simpl; split_and!; try done; lia.
Qed.

Lemma system_process_witness :
  ∃ s', Process map_to_list (fun _ => map_to_list) pretty (fun _ => 1) 30 agentEval (agentScheduler (agentJob "dc1" "root" 2)) = Some (None, s') ∧
    ss_planner s' = (2%nat, [EvalStatusComplete]).
Proof.
  destruct (system_process_ends demoHash demoNodes map_to_list (fun _ => map_to_list) pretty (fun _ => 1) _ agentEval 30
    (agentScheduler (agentJob "dc1" "root" 2)) demo_libs demo_classed agent_ranges agent_planner
    ltac:(by eexists _, _, _; apply agent_state) ltac:(constructor) ltac:(simpl; lia)) as (err & s' & E).
  assert (option_map (fun r => (r.1, ss_planner r.2))
    (Process map_to_list (fun _ => map_to_list) pretty (fun _ => 1) 30 agentEval (agentScheduler (agentJob "dc1" "root" 2)))
    = Some (None, (2%nat, [EvalStatusComplete]))) as Hv by (vm_compute; reflexivity).
  rewrite E in Hv. cbn [option_map fst snd] in Hv. injection Hv as -> Hp. exists s'. split; [exact E|exact Hp].
Defined.

(** A system job that leaves the datacenter of a running allocation cannot be evaluated.
    The allocation is still required by its name and its node is not tainted, so that the
    destructive update evicts it and places it on its node again, which is not among the
    ready nodes: the evaluation ends with an error, is not updated, and no plan is
    submitted. *)
Theorem moved_system_job_fails :
  ∃ s', Process map_to_list (fun _ => map_to_list) pretty (fun _ => 1) 30 agentEval (agentScheduler (agentJob "dc2" "nobody" 2)) =
    Some (Some (couldNotFind "a"), s') ∧ ss_planner s' = (3%nat, []).
Proof.
  assert (option_map (fun r => (r.1, ss_planner r.2))
    (Process map_to_list (fun _ => map_to_list) pretty (fun _ => 1) 30 agentEval (agentScheduler (agentJob "dc2" "nobody" 2)))
    = Some (Some (couldNotFind "a"), (3%nat, []))) as Hv by (vm_compute; reflexivity).
  destruct (Process _ _ _ _ _ _ _) as [[err s']|]; [|discriminate Hv]. cbn [option_map fst snd] in Hv.
  injection Hv as -> Hp. by exists s'.
Qed.
