(* ===== verification/GenericSched.v ===== *)
(** * The generic scheduler (src/scheduler/generic_sched.go)

    It schedules service and batch jobs: the reconciler says what to stop, to update and
    to place, the stack selects the nodes.  The plan and the context of an attempt are
    those of the stack, as in the code, where they are shared pointers.  Results are
    errors or values, and [None] where the Go code panics.

    The deployment is a shared object too.  A deployment that the reconciler creates is
    the plan's and the scheduler's; one that is read from the state is the state's and
    the scheduler's, and the store's behind the planner, so that the canaries that are
    added to it change the store ([shareDeployment]). *)

From stdpp Require Import base gmap strings list.
From Stdlib Require Import ZArith Lia.
From S2P Require Import Prelude GoText GoHeap Bitmap Structs Resources Jobs Allocs Network NetworkAssign NetworkAssignProps Fit Plans AllocSets NameIndex Reconcile ReconcileSpec ReconcileGroup ReconcileJob SchedContext Feasible Stack StackSpec StackPack StackSelect SchedUtil SchedUtilSpec SystemSpec.
Open Scope string_scope.
Open Scope list_scope.
Open Scope Z_scope.

Definition maxServiceScheduleAttempts : Z := 5.
Definition maxBatchScheduleAttempts : Z := 2.
Definition blockedEvalMaxPlanDesc : string := "created due to placement conflicts".
Definition blockedEvalFailedPlacements : string := "created to place remaining allocations".

(** [gn_clock] counts the selections, [gn_uuids] the generated identifiers. *)
Record GenericScheduler `{TextLibs} (W : Type) := mkGenericScheduler {
  gn_state : SchedState;
  gn_planner : W;
  gn_batch : bool;
  gn_eval : Evaluation;
  gn_job : option Job;
  gn_planResult : option PlanResult;
  gn_stack : GenericStack;
  gn_followupEvalWait : Z;
  gn_nextEval : option Evaluation;
  gn_deployment : option Deployment;
  gn_blocked : option Evaluation;
  gn_failedTGAllocs : gmap string AllocMetric;
  gn_queuedAllocs : option (gmap string Z);
  gn_clock : nat;
  gn_uuids : nat
}.
Arguments mkGenericScheduler {_ _}.
Arguments gn_state {_ _}.
Arguments gn_planner {_ _}.
Arguments gn_batch {_ _}.
Arguments gn_eval {_ _}.
Arguments gn_job {_ _}.
Arguments gn_planResult {_ _}.
Arguments gn_stack {_ _}.
Arguments gn_followupEvalWait {_ _}.
Arguments gn_nextEval {_ _}.
Arguments gn_deployment {_ _}.
Arguments gn_blocked {_ _}.
Arguments gn_failedTGAllocs {_ _}.
Arguments gn_queuedAllocs {_ _}.
Arguments gn_clock {_ _}.
Arguments gn_uuids {_ _}.

(** The error of [Process]: one, or those of a multierror. *)
Inductive processError := OneError (err : string) | ManyErrors (errs : list string).

(** ** Completed allocations *)

(** The allocations that are terminal and to be replaced. *)
Definition isComplete (batch : bool) (a : Allocation) : bool :=
  if batch then
    if bool_decide (al_DesiredStatus a = AllocDesiredStatusStop) || bool_decide (al_DesiredStatus a = AllocDesiredStatusEvict)
    then negb (RanSuccessfully a)
    else bool_decide (al_ClientStatus a = AllocClientStatusFailed)
  else AllocTerminal a.

(** Of a batch job only the newest allocation of each name is left, in the order of Go's
    range over the names. *)
Definition filterCompleteAllocs (rangeNames : gmap string Allocation → list (string * Allocation)) (batch : bool)
    (allocs : list Allocation) : list Allocation * gmap string Allocation :=
  let '(filtered, terminalAllocsByName) := swapDelete (isComplete batch) recordTerminal (length allocs) allocs 0 ∅ in
  if batch then ((rangeNames (foldl recordTerminal ∅ filtered)).*2, terminalAllocsByName)
  else (filtered, terminalAllocsByName).

Section generic.
Context `{TextLibs} `{StackLibs} `{Planner W}.

#[export] Instance eta_GenericScheduler : Eta (GenericScheduler W) := fun r =>
  mkGenericScheduler (gn_state r) (gn_planner r) (gn_batch r) (gn_eval r) (gn_job r) (gn_planResult r) (gn_stack r)
    (gn_followupEvalWait r) (gn_nextEval r) (gn_deployment r) (gn_blocked r) (gn_failedTGAllocs r) (gn_queuedAllocs r)
    (gn_clock r) (gn_uuids r).

(** The orders of the maps, the identifiers and the times of the selections. *)
Variable rangeNames : gmap string Allocation → list (string * Allocation).
Variable rangeSet : allocSet → list (string * Allocation).
Variable rangeMatrix : allocMatrix → list (string * allocSet).
Variable uuid : nat → string.
Variable elapsed : nat → Z.

(** The server when the deployment it shares with the scheduler is changed in place. *)
Variable shareDeployment : W → Deployment → W.

(** The stack is replaced before it is used; the random source and the pool of bitmaps
    belong to the process. *)
Definition newGenericScheduler (batch : bool) (state : SchedState) (planner : W) (rand : nat) (pool : list Bitmap)
    : GenericScheduler W :=
  mkGenericScheduler state planner batch zeroEvaluation None None (NewGenericStack batch (NewEvalContext state zeroPlan) rand pool)
    0 None None None ∅ None 0 0.
Definition NewServiceScheduler := newGenericScheduler false.
Definition NewBatchScheduler := newGenericScheduler true.

Definition planOf (s : GenericScheduler W) : Plan := ec_plan (gs_ctx (gn_stack s)).
Definition metricsOf (s : GenericScheduler W) : AllocMetric := ec_metrics (gs_ctx (gn_stack s)).
Definition changePlan (f : Plan → Plan) (s : GenericScheduler W) : GenericScheduler W := s <| gn_stack ::= onPlan f |>.

(** ** Placements *)

(** [None] is the nil dereference of a node that the state does not have. *)
Definition findPreferredNode (s : GenericScheduler W) (place : allocPlaceResult) : option (option Node) :=
  match ap_previousAlloc place with
  | Some prev =>
      disk ← tg_EphemeralDisk (ap_taskGroup place);
      if ed_Sticky disk then
        match sc_NodeByID (gn_state s) (al_NodeID prev) with
        | inr (Some node) => Some (if NodeReady node then Some node else None)
        | _ => None
        end
      else Some None
  | None => Some None
  end.

Definition newAlloc (s : GenericScheduler W) (missing : allocPlaceResult) (disk : EphemeralDisk) (job : Job)
    (deploymentID : string) (opt : RankedNode) : Allocation :=
  zeroAllocation <| al_ID := uuid (gn_uuids s) |> <| al_EvalID := ev_ID (gn_eval s) |> <| al_Name := ap_name missing |>
    <| al_JobID := jb_ID job |> <| al_TaskGroup := tg_Name (ap_taskGroup missing) |> <| al_Metrics := Some (metricsOf s) |>
    <| al_NodeID := nd_ID (rn_Node opt) |> <| al_DeploymentID := deploymentID |>
    <| al_TaskResources := Some (rn_TaskResources opt) |>
    <| al_DesiredStatus := AllocDesiredStatusRun |> <| al_ClientStatus := AllocClientStatusPending |>
    <| al_SharedResources := Some (zeroResources <| r_DiskMB := ed_SizeMB disk |>) |>
    <| al_PreviousAllocation := from_option al_ID "" (ap_previousAlloc missing) |>.

(** The deployment that is read from the state is changed there as well. *)
Definition storeDeployment (jobID : string) (d : Deployment) (state : SchedState) : SchedState :=
  mkSchedState (sc_Nodes state) (sc_NodeByID state) (sc_JobByID state) (sc_AllocsByNodeTerminal state) (sc_AllocsByJob state)
    (fun id => if bool_decide (id = jobID) then inr (Some d) else sc_LatestDeploymentByJobID state id).

(** A canary is added to the state of its group in the deployment, wherever the object is
    shared. *)
Definition addCanary (group allocID : string) (s : GenericScheduler W) : option (GenericScheduler W) :=
  d ← gn_deployment s;
  match d_TaskGroups d !! group with
  | None => Some s
  | Some state =>
      let d := d <| d_TaskGroups ::= <[group := state <| ds_PlacedCanaries ::= fun l => l ++ [allocID] |>]> |> in
      let s := s <| gn_deployment := Some d |> in
      Some (match pl_Deployment (planOf s) with
            | Some _ => changePlan (fun p => p <| pl_Deployment := Some d |>) s
            | None =>
                if gn_batch s then s
                else s <| gn_state ::= storeDeployment (ev_JobID (gn_eval s)) d |>
                       <| gn_planner ::= fun w => shareDeployment w d |>
            end)
  end.

(** The body of the loop of [computePlacements]. *)
Definition placeMissing (job : Job) (byDC : gmap string Z) (deploymentID : string) (missing : allocPlaceResult)
    (s : GenericScheduler W) : option (GenericScheduler W) :=
  let tg := ap_taskGroup missing in
  match gn_failedTGAllocs s !! tg_Name tg with
  | Some metric =>
      Some (s <| gn_failedTGAllocs ::= <[tg_Name tg := metric <| am_CoalescedFailures ::= Z.add 1 |>]> |>)
  | None =>
      preferredNode ← findPreferredNode s missing;
      r ← (match preferredNode with
           | Some node => SelectPreferringNodes tg [node] (elapsed (gn_clock s)) (gn_stack s)
           | None => Select tg (elapsed (gn_clock s)) (gn_stack s)
           end);
      let '(opt, _, stack) := r in
      let s := s <| gn_stack := onMetrics (fun m => m <| am_NodesAvailable := byDC |>) stack |> <| gn_clock ::= S |> in
      match opt with
      | Some opt =>
          disk ← tg_EphemeralDisk tg;
          let alloc := newAlloc s missing disk job deploymentID opt in
          let s := s <| gn_uuids ::= S |> in
          s ← (if ap_canary missing then addCanary (tg_Name tg) (al_ID alloc) s else Some s);
          Some (changePlan (fun p => AppendAlloc p alloc) s)
      | None => Some (s <| gn_failedTGAllocs ::= <[tg_Name tg := metricsOf s]> |>)
      end
  end.

Fixpoint placeAllMissing (job : Job) (byDC : gmap string Z) (deploymentID : string) (place : list allocPlaceResult)
    (s : GenericScheduler W) : option (GenericScheduler W) :=
  match place with
  | [] => Some s
  | missing :: place =>
      s ← placeMissing job byDC deploymentID missing s;
      placeAllMissing job byDC deploymentID place s
  end.

Definition computePlacements (place : list allocPlaceResult) (s : GenericScheduler W)
    : option (option string * GenericScheduler W) :=
  job ← gn_job s;
  match readyNodesInDCs (gn_state s) (jb_Datacenters job) with
  | inl err => Some (Some err, s)
  | inr (nodes, byDC) =>
      let s := s <| gn_stack ::= SetNodes nodes |> in
      s ← placeAllMissing job byDC (GetID (gn_deployment s)) place s;
      Some (None, s)
  end.

(** ** The allocations of the job *)

(** The callback of the reconciler.  It works on the stack and counts the selections;
    [None] is the panic of a call, after which the answers do not matter. *)
Definition updateFn (evalID : string) (u : option (nat * GenericStack)) (existing : Allocation) (newJob : Job) (newTG : TaskGroup)
    : (bool * bool * option Allocation) * option (nat * GenericStack) :=
  match u ≫= (fun cs => genericAllocUpdateFn elapsed evalID existing newJob newTG cs.1 cs.2) with
  | Some (ignore, destructive, updated, clock, stack) => (ignore, destructive, updated, Some (clock, stack))
  | None => (true, false, None, None)
  end.

(** An update in place joins the deployment of the scheduler. *)
Definition joinDeployment (deploymentID : string) (update : Allocation) : Allocation :=
  if bool_decide (al_DeploymentID update ≠ deploymentID)
  then update <| al_DeploymentID := deploymentID |> <| al_DeploymentStatus := None |>
  else update.

Definition stopResults (stops : list allocStopResult) (p : Plan) : Plan :=
  foldl (fun p stop => AppendUpdate p (as_alloc stop) AllocDesiredStatusStop (as_statusDescription stop) (as_clientStatus stop))
    p stops.

(** A nil update is dereferenced. *)
Definition updateResults (deploymentID : string) (updates : list (option Allocation)) (p : Plan) : option Plan :=
  updates ← mapM id updates;
  Some (foldl (fun p update => AppendAlloc p (joinDeployment deploymentID update)) p updates).

Definition bumpQueued (q : gmap string Z) (place : allocPlaceResult) : gmap string Z :=
  let name := tg_Name (ap_taskGroup place) in <[name := default 0 (q !! name) + 1]> q.

(** The results of the reconciler go to the plan, and what is to be placed is placed. *)
Definition applyResults (results : reconcileResults) (s : GenericScheduler W) : option (option string * GenericScheduler W) :=
  let s := if ev_AnnotatePlan (gn_eval s)
           then changePlan (fun p => p <| pl_Annotations := Some (rr_desiredTGUpdates results) |>) s else s in
  let s := changePlan (fun p => p <| pl_Deployment := rr_deployment results |>
                                  <| pl_DeploymentUpdates := rr_deploymentUpdates results |>) s in
  let s := s <| gn_followupEvalWait := rr_followupEvalWait results |> in
  let s := match rr_deployment results with Some d => s <| gn_deployment := Some d |> | None => s end in
  let s := changePlan (stopResults (rr_stop results)) s in
  p ← updateResults (GetID (gn_deployment s)) (rr_inplaceUpdate results) (planOf s);
  let s := changePlan (fun _ => p) s in
  if (length (rr_place results) =? 0)%nat then
    let groups := match gn_job s with Some job => if Stopped (gn_job s) then [] else jb_TaskGroups job | None => [] end in
    Some (None, s <| gn_queuedAllocs ::= option_map (fun q => foldl (fun q tg => <[tg_Name tg := 0]> q) q groups) |>)
  else
    computePlacements (rr_place results)
      (s <| gn_queuedAllocs ::= option_map (fun q => foldl bumpQueued q (rr_place results)) |>).

Definition computeJobAllocs (s : GenericScheduler W) : option (option string * GenericScheduler W) :=
  let jobID := ev_JobID (gn_eval s) in
  match sc_AllocsByJob (gn_state s) jobID true with
  | inl err => Some (Some ("failed to get allocs for job '" +:+ jobID +:+ "': " +:+ err), s)
  | inr allocs =>
      r ← taintedNodes (gn_state s) ∅ allocs;
      match r with
      | inl err => Some (Some ("failed to get tainted nodes for job '" +:+ jobID +:+ "': " +:+ err), s)
      | inr tainted =>
          let s := changePlan (fun p => updateNonTerminalAllocsToLost p tainted allocs) s in
          let '(allocs, _) := filterCompleteAllocs rangeNames (gn_batch s) allocs in
          let reconciler := NewAllocReconciler (Some (gn_clock s, gn_stack s)) (gn_batch s) jobID (gn_job s)
                              (gn_deployment s) allocs tainted in
          r ← Compute_ rangeSet (updateFn (ev_ID (gn_eval s))) (uuid (gn_uuids s)) rangeMatrix reconciler;
          let '(results, u) := r in
          u ← u;
          applyResults results (s <| gn_clock := u.1 |> <| gn_stack := u.2 |> <| gn_uuids ::= S |>)
      end
  end.

(** ** An attempt *)

Definition createBlockedEval (planFailure : bool) (s : GenericScheduler W) : option string * GenericScheduler W :=
  let e := ec_eligibility (gs_ctx (gn_stack s)) in
  let escaped := HasEscaped e in
  let classEligibility := if escaped then ∅ else GetClasses e in
  let blocked := CreateBlockedEval (uuid (gn_uuids s)) (gn_eval s) classEligibility escaped in
  let blocked := if planFailure
    then blocked <| ev_TriggeredBy := EvalTriggerMaxPlans |> <| ev_StatusDescription := blockedEvalMaxPlanDesc |>
    else blocked <| ev_StatusDescription := blockedEvalFailedPlacements |> in
  let '(err, w) := CreateEval (gn_planner s) blocked in
  (err, s <| gn_blocked := Some blocked |> <| gn_uuids ::= S |> <| gn_planner := w |>).

(** The job and its latest deployment are looked up; the plan and the stack are new. *)
Definition beginAttempt (s : GenericScheduler W) : option string * GenericScheduler W :=
  let jobID := ev_JobID (gn_eval s) in
  match sc_JobByID (gn_state s) jobID with
  | inl err => (Some ("failed to get job " +:+ quoted jobID +:+ ": " +:+ err), s <| gn_job := None |>)
  | inr job =>
      let s := s <| gn_job := job |> <| gn_queuedAllocs := Some ∅ |> in
      let deployment := if gn_batch s then inr (gn_deployment s) else sc_LatestDeploymentByJobID (gn_state s) jobID in
      match deployment with
      | inl err => (Some ("failed to get job deployment " +:+ quoted jobID +:+ ": " +:+ err), s <| gn_deployment := None |>)
      | inr deployment =>
          let ctx := NewEvalContext (gn_state s) (MakePlan (gn_eval s) job) in
          let stack := NewGenericStack (gn_batch s) ctx (gs_rand (gn_stack s)) (gs_pool (gn_stack s)) in
          let stack := match job with
                       | Some j => if Stopped job then stack else SetJob j stack
                       | None => stack
                       end in
          (None, s <| gn_deployment := deployment |> <| gn_failedTGAllocs := ∅ |> <| gn_stack := stack |>)
      end
  end.

(** What could not be placed is left to a blocked evaluation, unless this is one or one has
    been created. *)
Definition blockFailed (s : GenericScheduler W) : option string * GenericScheduler W :=
  if bool_decide (ev_Status (gn_eval s) ≠ EvalStatusBlocked) && negb (size (gn_failedTGAllocs s) =? 0)%nat &&
     bool_decide (gn_blocked s = None)
  then createBlockedEval false s
  else (None, s).

Definition followUp (s : GenericScheduler W) : option string * GenericScheduler W :=
  if negb (gn_followupEvalWait s =? 0) && bool_decide (gn_nextEval s = None) then
    let next := NextRollingEval (uuid (gn_uuids s)) (gn_eval s) (gn_followupEvalWait s) in
    let '(err, w) := CreateEval (gn_planner s) next in
    (err, s <| gn_nextEval := Some next |> <| gn_uuids ::= S |> <| gn_planner := w |>)
  else (None, s).

(** The plan is submitted; a partial commit comes with a new state. *)
Definition submit (s : GenericScheduler W) : option ((string + bool) * GenericScheduler W) :=
  let '(result, newState, err, w) := SubmitPlan (gn_planner s) (planOf s) in
  let s := s <| gn_planner := w |> <| gn_planResult := result |> in
  match err with
  | Some err => Some (inl err, s)
  | None =>
      let s := s <| gn_queuedAllocs ::= option_map (adjustQueuedAllocations rangePlan result) |> in
      match newState with
      | Some state => Some (inr false, s <| gn_state := state |>)
      | None =>
          fullCommit ← committed result (planOf s);
          if (fullCommit : bool) then Some (inr true, s)
          else Some (inl "missing state refresh after partial commit", s)
      end
  end.

Definition process (s : GenericScheduler W) : option ((string + bool) * GenericScheduler W) :=
  match beginAttempt s with
  | (Some err, s) => Some (inl err, s)
  | (None, s) =>
      r ← computeJobAllocs s;
      let '(err, s) := r in
      match err with
      | Some err => Some (inl err, s)
      | None =>
          match blockFailed s with
          | (Some err, s) => Some (inl err, s)
          | (None, s) =>
              if PlanIsNoOp (planOf s) && negb (ev_AnnotatePlan (gn_eval s)) then Some (inr true, s)
              else
                match followUp s with
                | (Some err, s) => Some (inl err, s)
                | (None, s) => submit s
                end
          end
      end
  end.

(** ** An evaluation *)

Definition handles (trigger : string) : bool :=
  bool_decide (trigger ∈ [EvalTriggerJobRegister; EvalTriggerNodeUpdate; EvalTriggerJobDeregister;
                          EvalTriggerRollingUpdate; EvalTriggerPeriodicJob; EvalTriggerMaxPlans;
                          EvalTriggerDeploymentWatcher]).

Definition finish (status desc : string) (s : GenericScheduler W) : option string * GenericScheduler W :=
  let '(err, w) := setStatus (gn_planner s) (gn_eval s) (gn_nextEval s) (gn_blocked s) (gn_failedTGAllocs s) status desc
                     (gn_queuedAllocs s) (GetID (gn_deployment s)) in
  (err, s <| gn_planner := w |>).

Definition attemptLimit (s : GenericScheduler W) : Z :=
  if gn_batch s then maxBatchScheduleAttempts else maxServiceScheduleAttempts.

(** The attempts made no progress: the evaluation fails, and a blocked one is created. *)
Definition giveUp (s : GenericScheduler W) : option processError * GenericScheduler W :=
  let '(err1, s) := createBlockedEval true s in
  let '(err2, s) := finish EvalStatusFailed ("maximum attempts reached (" +:+ formatInt (attemptLimit s) +:+ ")") s in
  (match option_list err1 ++ option_list err2 with
   | [] => None
   | errs => Some (ManyErrors errs)
   end, s).

(** A blocked evaluation that could not place everything is blocked again; others are
    complete. *)
Definition conclude (s : GenericScheduler W) : option string * GenericScheduler W :=
  if bool_decide (ev_Status (gn_eval s) = EvalStatusBlocked) && negb (size (gn_failedTGAllocs s) =? 0)%nat then
    let e := ec_eligibility (gs_ctx (gn_stack s)) in
    let newEval := (gn_eval s) <| ev_EscapedComputedClass := HasEscaped e |> <| ev_ClassEligibility := GetClasses e |> in
    let '(err, w) := ReblockEval (gn_planner s) newEval in
    (err, s <| gn_planner := w |>)
  else finish EvalStatusComplete "" s.

(** [fuel] bounds the attempts, which the code does not. *)
Definition Process (fuel : nat) (eval : Evaluation) (s : GenericScheduler W)
    : option (option processError * GenericScheduler W) :=
  let s := s <| gn_eval := eval |> in
  if handles (ev_TriggeredBy eval) then
    r ← retryMax fuel (attemptLimit s) process (fun s => progressMade (gn_planResult s)) s;
    let '(res, s) := r in
    Some (match res with
          | RetryDone => let '(err, s) := conclude s in (option_map OneError err, s)
          | RetryError err => (Some (OneError err), s)
          | RetryExhausted => giveUp s
          end)
  else
    let '(err, s) := finish EvalStatusFailed ("scheduler cannot handle '" +:+ ev_TriggeredBy eval +:+ "' evaluation reason") s in
    Some (option_map OneError err, s).
End generic.

(** * What the generic stack selects, and what it leaves of the plan

    Selections with and without a preferred node, and the callback of the reconciler,
    which tries updates in place and takes back what it did to the plan. *)

Section select.
Context `{TextLibs} `{StackLibs}.
Context (rangeTasks_perm : ∀ m, rangeTasks m ≡ₚ vals m).
Context (intn_range : ∀ k n, 0 < n → 0 ≤ intn k n < n).
Context (job : Job) (known : list Node).
Context (classes : classes_ok known) (names : NoDup (tg_Name <$> jb_TaskGroups job)).
Context (known_walkable : ∀ n net, n ∈ known → net ∈ r_Networks (nd_Resources n) → walkable ParseCIDR net).

Lemma given_eq s s' : given s' = given s →
  si_nodes (gs_source s') = si_nodes (gs_source s) ∧ ec_state (gs_ctx s') = ec_state (gs_ctx s) ∧ ec_plan (gs_ctx s') = ec_plan (gs_ctx s).
Proof. by intros [= ? ? ?]. Qed.

Lemma ready_plan f s : ready job known s → ready job known (onPlan f s).
Proof. by intros [[] ? ? ? ?]. Qed.

Lemma ready_metrics f s : ready job known s → ready job known (onMetrics f s).
Proof. intros [HI ? ? ? ?]. split; [by apply Inv_metrics|done..]. Qed.

(** What a selection for the nodes [nodes] answers, on the state and the plan of [s]: a
    node that is eligible and has room for the group, or nothing when every node is passed
    over. *)
Definition picks (tg : TaskGroup) (nodes : list Node) (s : GenericStack) (r : option RankedNode) : Prop :=
  ∃ ref, ec_state (gs_ctx ref) = ec_state (gs_ctx s) ∧ ec_plan (gs_ctx ref) = ec_plan (gs_ctx s) ∧
    match r with
    | Some opt => rn_Node opt ∈ nodes ∧ eligibleNode job tg ref (rn_Node opt) ∧ packed tg ref opt
    | None => ∀ n, n ∈ nodes → passedOver job tg ref n
    end.

Lemma Select_picks tg elapsed s :
  ready job known s → group_ok job tg →
  ∃ r size s', Select tg elapsed s = Some (r, size, s') ∧ ready job known s' ∧ given s' = given s ∧
    picks tg (si_nodes (gs_source s)) s r.
Proof.
  intros Hs Htg. destruct (Select_spec rangeTasks_perm intn_range job known classes names known_walkable tg elapsed s Hs Htg)
    as (ref & r & size & s' & cands & _ & Es & Hs' & Er & Hlen & Hin & Hall & Gref & Gs').
  exists r, size, s'. split_and!; try done. unfold given in Gref. injection Gref as _ E1 E2. exists ref. split_and!; try done.
  destruct r as [best|]; symmetry in Er.
  - apply Hin. by apply better_in.
  - apply better_some in Er as ->. intros n Hn. pose proof (rd_limit job known s Hs) as Hl.
    destruct (Hall Hl n Hn) as [?%elem_of_nil|?]; done.
Qed.

Lemma SelectPreferring_picks tg node elapsed s :
  ready job known s → group_ok job tg → node ∈ known →
  ∃ r size s', SelectPreferringNodes tg [node] elapsed s = Some (r, size, s') ∧ ready job known s' ∧ given s' = given s ∧
    ((∃ opt, r = Some opt ∧ picks tg [node] s r) ∨ picks tg (si_nodes (gs_source s)) s r).
Proof.
  intros Hs Htg Hn. unfold SelectPreferringNodes. set (orig := si_nodes (gs_source s)).
  assert (ready job known (StaticSetNodes [node] s)) as Hs1.
  { apply ready_source; [|done]. by intros n ->%list_elem_of_singleton. }
  destruct (Select_picks tg elapsed _ Hs1 Htg) as (r & size & s1 & -> & Hr1 & Hg1 & Hp1). cbn [mbind option_bind].
  unfold given in Hg1. injection Hg1 as _ G2 G3. simpl in G2, G3.
  assert (ready job known (StaticSetNodes orig s1)) as Hs2.
  { apply ready_source; [|done]. apply (in_known _ _ _ (rd_inv _ _ _ Hs)). }
  destruct r as [opt|].
  - eexists _, _, _. split; [done|]. split; [done|]. split; [unfold given; simpl; unfold orig; by rewrite G2, G3|]. left. by exists opt.
  - destruct (Select_picks tg elapsed _ Hs2 Htg) as (r & size' & s2 & -> & Hr2 & Hg2 & Hp2).
    eexists _, _, _. split; [done|]. split; [done|]. unfold given in *. injection Hg2 as G4 G5 G6. simpl in G4, G5, G6.
    split; [by rewrite G4, G5, G6, G2, G3|]. right. destruct Hp2 as (ref & E1 & E2 & Hp2). exists ref. simpl in E1, E2, Hp2. split_and!; [congruence..|done].
Qed.

(** ** Updates in place *)

Variable elapsed : nat → Z.

(** A stack in the reconciler: it has its job, and the state and the plan are [st] and [p]. *)
Definition onPlanOf (st : SchedState) (p : Plan) (s : GenericStack) : Prop :=
  ready job known s ∧ ec_state (gs_ctx s) = st ∧ ec_plan (gs_ctx s) = p.

Lemma undone p a desc : plan_wf p → is_Some (pl_Job p) → PopUpdate (AppendUpdate p a AllocDesiredStatusStop desc "") a = p.
Proof.
  intros Hwf [j Hj]. pose proof (PopUpdate_AppendUpdate p a AllocDesiredStatusStop desc "" Hwf) as E.
  destruct p as [f1 f2 f3 f4 f5 f6 f7 f8 f9 f10]. simpl in Hj. subst f5. unfold AppendUpdate in *. simpl in *.
  unfold PopUpdate in *. simpl in *. destruct (last _) as [l|]; [|simpl in E; by rewrite E].
  case_bool_decide; [|simpl in E; by rewrite E]. destruct (_ <? _)%nat; simpl in E |- *; by rewrite E.
Qed.

(** The allocation that updates [a] in place. *)
Definition renews (evalID : string) (a u : Allocation) : Prop :=
  al_ID u = al_ID a ∧ al_Name u = al_Name a ∧ al_NodeID u = al_NodeID a ∧ al_TaskGroup u = al_TaskGroup a ∧ al_EvalID u = evalID.

Lemma selectInPlace_generic evalID a tg n clock st p s :
  onPlanOf st p s → plan_wf p → is_Some (pl_Job p) → n ∈ known → group_ok job tg →
  (∀ task, task ∈ tg_Tasks tg → is_Some (default ∅ (al_TaskResources a) !! tk_Name task)) →
  ∃ r s', selectInPlace elapsed genericOps evalID a tg n clock s = Some (r, s') ∧ onPlanOf st p s' ∧
    ∀ u, r = Some u → renews evalID a u.
Proof.
  intros (Hs & Est & Epl) Hwf Hj Hn Htg Htasks. unfold selectInPlace. cbv zeta. cbn [so_SetNodes so_Select genericOps].
  set (s1 := onPlan _ (SetNodes [n] s)).
  assert (ready job known s1 ∧ ec_state (gs_ctx s1) = st ∧ ec_plan (gs_ctx s1) = AppendUpdate p a AllocDesiredStatusStop allocInPlace "")
    as (Hs1 & E1 & E2).
  { split; [apply ready_plan, ready_nodes; [done|by intros ? ->%list_elem_of_singleton|done]|].
    unfold s1, SetNodes. destruct (shuffleNodes _ _). simpl. by rewrite Est, Epl. }
  destruct (Select_picks tg (elapsed clock) s1 Hs1 Htg) as (r & size & s2 & -> & Hs2 & Hg & ref & _ & _ & Hr). cbn [mbind option_bind].
  apply given_eq in Hg as (_ & G1 & G2). set (s3 := onPlan (fun p => PopUpdate p a) s2).
  assert (onPlanOf st p s3) as Hs3.
  { split; [by apply ready_plan|]. split; [simpl; congruence|].
    change (ec_plan (gs_ctx s3)) with (PopUpdate (ec_plan (gs_ctx s2)) a). rewrite G2, E2. by apply undone. }
  destruct r as [opt|]; [|by eexists None, s3]. destruct Hr as (_ & _ & proposed & granted & _ & _ & _ & Et & _).
  destruct (restoreNetworks_spec (al_TaskResources a) (rn_TaskResources opt)) as [res ->].
  { rewrite Et. intros name (task & -> & Hin)%taskResources_dom%list_elem_of_fmap. by apply Htasks. }
  cbn [mbind option_bind]. eexists (Some _), s3. split; [done|]. split; [done|]. by intros u [= <-].
Qed.

(** An allocation of the group: it has its job with the group, resources for the tasks of
    its version, and a known node. *)
Definition versioned (st : SchedState) (tg : TaskGroup) (a : Allocation) : Prop :=
  ∃ ej old, al_Job a = Some ej ∧ LookupTaskGroup ej (tg_Name tg) = Some old ∧
    (∀ task, task ∈ tg_Tasks old → is_Some (default ∅ (al_TaskResources a) !! tk_Name task)) ∧
    (∀ n, sc_NodeByID st (al_NodeID a) = inr (Some n) → n ∈ known).

Lemma genericAllocUpdateFn_spec evalID a tg clock st p s :
  onPlanOf st p s → plan_wf p → is_Some (pl_Job p) → group_ok job tg → versioned st tg a →
  ∃ ignore destructive r clock' s', genericAllocUpdateFn elapsed evalID a job tg clock s = Some (ignore, destructive, r, clock', s') ∧
    onPlanOf st p s' ∧ (ignore = false → destructive = false → ∃ u, r = Some u ∧ renews evalID a u).
Proof.
  intros Hs Hwf Hj Hg (ej & old & Ej & Eold & Hres & Hn). pose proof (proj1 Hg) as Htg. unfold genericAllocUpdateFn. rewrite Ej.
  cbn [mbind option_bind]. case_bool_decide; [by eexists true, false, None, clock, s|].
  destruct (tasksUpdated job ej (tg_Name tg)) as [updated|] eqn:Eu.
  2:{ unfold tasksUpdated in Eu. by rewrite (LookupTaskGroup_own job names tg Htg), Eold in Eu. }
  cbn [mbind option_bind]. destruct updated; [by eexists false, true, None, clock, s|].
  destruct (AllocTerminal a); [by eexists true, false, None, clock, s|].
  replace (ec_state (gs_ctx s)) with st by (symmetry; apply Hs).
  destruct (sc_NodeByID st (al_NodeID a)) as [err|[n|]] eqn:En;
    [by eexists true, false, None, clock, s| |by eexists false, true, None, clock, s].
  destruct (selectInPlace_generic evalID a tg n clock st p s Hs Hwf Hj (Hn n eq_refl) Hg) as (r & s1 & -> & Hs1 & Hr).
  { intros task Htask. destruct (tasks_kept job names ej tg old Htg Eold Eu task Htask) as (task' & Hin & <-). by apply Hres. }
  cbn [mbind option_bind]. destruct r as [u|]; [|by eexists false, true, None, (S clock), s1].
  eexists false, false, (Some u), (S clock), s1. split; [done|]. split; [done|]. intros _ _. exists u. split; [done|]. by apply Hr.
Qed.

(** The callback of the reconciler neither panics nor changes the plan. *)
Definition calm (st : SchedState) (p : Plan) (u : option (nat * GenericStack)) : Prop :=
  ∃ clock s, u = Some (clock, s) ∧ onPlanOf st p s.
Definition fair (evalID : string) (a : Allocation) (r : bool * bool * option Allocation) : Prop :=
  ∀ o, r = (false, false, o) → ∃ u, o = Some u ∧ renews evalID a u.

Lemma updateFn_fair evalID tg st p l :
  plan_wf p → is_Some (pl_Job p) → group_ok job tg → (∀ a, a ∈ l → versioned st tg a) →
  answers_well (updateFn elapsed evalID) (calm st p) (fair evalID) job tg l.
Proof.
  intros Hwf Hj Hg Hl u a (clock & s & -> & Hs) Ha. unfold updateFn. cbn [mbind option_bind fst snd].
  destruct (genericAllocUpdateFn_spec evalID a tg clock st p s Hs Hwf Hj Hg (Hl a Ha))
    as (ig & de & r & clock' & s' & -> & Hs' & Hr). split; [by exists clock', s'|]. intros o [= -> -> ->]. by apply Hr.
Qed.
End select.
