(* ===== verification/GenericAttempt.v ===== *)
(** * An attempt of the generic scheduler

    The placements one after the other, each on the plan that the earlier ones have left,
    and that an attempt returns with the results of the reconciler carried out. *)

From stdpp Require Import base gmap strings list.
From Stdlib Require Import ZArith Lia.
From S2P Require Import Prelude GoText GoHeap Bitmap Structs Resources Jobs Allocs Network NetworkAssign NetworkAssignProps Fit Plans AllocSets NameIndex Reconcile ReconcileSpec ReconcileGroup ReconcileJob SchedContext Feasible Stack StackSpec StackPack StackSelect SchedUtil SchedUtilSpec SystemSpec GenericSched.
Open Scope string_scope.
Open Scope list_scope.
Open Scope Z_scope.

(** ** Plans *)

Definition placeAllocs (p : Plan) (l : list Allocation) : Plan := foldl AppendAlloc p l.

Lemma placeAllocs_allocs l : ∀ p n, allocsOf (placeAllocs p l) n = allocsOf p n ++ filter (fun a => al_NodeID a = n) l.
Proof.
  induction l as [|a l IH]; intros p n; [by rewrite app_nil_r|]. unfold placeAllocs in *. cbn [foldl]. rewrite IH, filter_cons.
  unfold allocsOf at 1, AppendAlloc. simpl. case_decide as E.
  - rewrite E, lookup_insert_eq. simpl. by rewrite <- app_assoc.
  - by rewrite lookup_insert_ne.
Qed.

Lemma placeAllocs_updates l : ∀ p, pl_NodeUpdate (placeAllocs p l) = pl_NodeUpdate p.
Proof. induction l as [|a l IH]; intros p; [done|]. unfold placeAllocs in *. cbn [foldl]. by rewrite IH. Qed.

Lemma stopResults_stops stops : ∀ p, stopsMore (as_alloc <$> stops) p (stopResults stops p).
Proof.
  unfold stopResults. induction stops as [|x stops IH]; intros p; [apply stopsMore_nil|]. cbn [foldl]. rewrite fmap_cons.
  eapply (stopsMore_app [as_alloc x]); [apply AppendUpdate_stops|apply IH].
Qed.

Lemma lost_wf tainted l : ∀ p, plan_wf p → plan_wf (updateNonTerminalAllocsToLost p tainted l).
Proof.
  unfold updateNonTerminalAllocsToLost. induction l as [|a l IH]; intros p Hp; [done|]. cbn [foldl]. apply IH.
  destruct (_ && _ && _); [by apply AppendUpdate_wf|done].
Qed.

Lemma updateResults_spec deploymentID us p :
  updateResults deploymentID (Some <$> us) p = Some (placeAllocs p (joinDeployment deploymentID <$> us)).
Proof.
  unfold updateResults. assert (mapM id (Some <$> us) = Some us) as ->.
  { induction us as [|u us IH]; [done|]. rewrite fmap_cons. simpl. by rewrite IH. }
  cbn [mbind option_bind]. f_equal. unfold placeAllocs. revert p. induction us as [|u us IH]; intros p; [done|]. simpl. apply IH.
Qed.

Lemma joinDeployment_renews evalID deploymentID a u : renews evalID a u → renews evalID a (joinDeployment deploymentID u).
Proof. unfold joinDeployment. by case_bool_decide. Qed.

(** The queue counts the placements of each group. *)
Lemma bumpQueued_count place g : ∀ q : gmap string Z,
  default 0 (foldl bumpQueued q place !! g) =
  default 0 (q !! g) + Z.of_nat (length (filter (fun p => tg_Name (ap_taskGroup p) = g) place)).
Proof.
  induction place as [|p place IH]; intros q; [simpl; lia|]. cbn [foldl]. rewrite IH, filter_cons. unfold bumpQueued.
  case_decide as E; [rewrite E, lookup_insert_eq; simpl; lia|]. by rewrite lookup_insert_ne.
Qed.

Section attempt.
Context `{TextLibs} `{StackLibs} `{Planner W}.
Context (rangeTasks_perm : ∀ m, rangeTasks m ≡ₚ vals m).
Context (intn_range : ∀ k n, 0 < n → 0 ≤ intn k n < n).
Context (known : list Node) (classes : classes_ok known).
Context (known_walkable : ∀ n net, n ∈ known → net ∈ r_Networks (nd_Resources n) → walkable ParseCIDR net).
Context (rangeNames : gmap string Allocation → list (string * Allocation)).
Context (rangeSet : allocSet → list (string * Allocation)) (rangeSet_perm : ∀ s, rangeSet s ≡ₚ map_to_list s).
Context (rangeMatrix : allocMatrix → list (string * allocSet)) (rangeMatrix_perm : ∀ m, rangeMatrix m ≡ₚ map_to_list m).
Context (uuid : nat → string) (elapsed : nat → Z) (shareDeployment : W → Deployment → W).
Implicit Type s : GenericScheduler W.

(** The parts of a scheduler that the placements of a job without canaries do not touch. *)
Definition frame s :=
  (gn_state s, gn_planner s, gn_batch s, gn_eval s, gn_job s, gn_planResult s, gn_followupEvalWait s, gn_nextEval s,
   gn_deployment s, gn_blocked s, gn_queuedAllocs s).

Section job.
Context (job : Job) (names : NoDup (tg_Name <$> jb_TaskGroups job)).
Context (st : SchedState) (nodes : list Node).

Definition groupOf (missing : allocPlaceResult) : string := tg_Name (ap_taskGroup missing).

(** The node of a placement: one of the nodes of the attempt, or the ready node of the
    allocation that is replaced. *)
Definition mayTake (missing : allocPlaceResult) (n : Node) : Prop :=
  n ∈ nodes ∨ ∃ prev, ap_previousAlloc missing = Some prev ∧ nd_ID n = al_NodeID prev ∧ n ∈ known ∧ NodeReady n = true.

(** A placement on the plan [p]: the allocation that was asked for, on a node that is
    eligible and has room for it beside what [p] proposes. *)
Record placement (evalID deploymentID : string) (p : Plan) (missing : allocPlaceResult) (a : Allocation) : Prop := {
  pc_alloc : al_Name a = ap_name missing ∧ al_TaskGroup a = groupOf missing ∧ al_JobID a = jb_ID job ∧ al_EvalID a = evalID ∧
    al_DeploymentID a = deploymentID ∧ al_PreviousAllocation a = from_option al_ID "" (ap_previousAlloc missing) ∧
    al_DesiredStatus a = AllocDesiredStatusRun ∧ al_ClientStatus a = AllocClientStatusPending;
  pc_node : ∃ ref opt, ec_state (gs_ctx ref) = st ∧ ec_plan (gs_ctx ref) = p ∧ mayTake missing (rn_Node opt) ∧
    al_NodeID a = nd_ID (rn_Node opt) ∧ al_TaskResources a = Some (rn_TaskResources opt) ∧
    eligibleNode job (ap_taskGroup missing) ref (rn_Node opt) ∧ packed (ap_taskGroup missing) ref opt
}.

(** No node of the attempt can take the group on the plan [p]. *)
Definition noNode (p : Plan) (tg : TaskGroup) : Prop :=
  ∃ ref, ec_state (gs_ctx ref) = st ∧ ec_plan (gs_ctx ref) = p ∧ ∀ n, n ∈ nodes → passedOver job tg ref n.

(** A scheduler in the loop of the placements. *)
Record loops s : Prop := {
  lp_state : gn_state s = st;
  lp_ready : ready job known (gn_stack s);
  lp_context : ec_state (gs_ctx (gn_stack s)) = st;
  lp_nodes : si_nodes (gs_source (gn_stack s)) ≡ₚ nodes
}.

(** A placement that can be tried: no canary, of a group of the job, and the node of the
    allocation it replaces is there. *)
Definition askable (missing : allocPlaceResult) : Prop :=
  group_ok job (ap_taskGroup missing) ∧ ap_canary missing = false ∧
  ∀ prev, ap_previousAlloc missing = Some prev →
    ∃ n, sc_NodeByID st (al_NodeID prev) = inr (Some n) ∧ n ∈ known ∧ nd_ID n = al_NodeID prev.

Lemma findPreferredNode_spec s missing :
  gn_state s = st → askable missing →
  ∃ preferred, findPreferredNode s missing = Some preferred ∧
    ∀ n, preferred = Some n → n ∈ known ∧ mayTake missing n.
Proof.
  intros Est ((_ & [disk Hd] & _) & _ & Hprev). unfold findPreferredNode. rewrite Est.
  destruct (ap_previousAlloc missing) as [prev|] eqn:Ep; [|by exists None]. rewrite Hd. cbn [mbind option_bind].
  destruct (ed_Sticky disk); [|by exists None]. destruct (Hprev prev eq_refl) as (n & -> & Hn & Eid).
  eexists. split; [done|]. intros n'. destruct (NodeReady n) eqn:Er; [|done]. intros [= <-]. split; [done|].
  right. by exists prev.
Qed.

(** What the selection of a placement answers. *)
Lemma select_missing s missing preferred time :
  loops s → askable missing → (∀ n, preferred = Some n → n ∈ known ∧ mayTake missing n) →
  ∃ r size stack, match preferred with
      | Some node => SelectPreferringNodes (ap_taskGroup missing) [node] time (gn_stack s)
      | None => Select (ap_taskGroup missing) time (gn_stack s)
      end = Some (r, size, stack) ∧ ready job known stack ∧ given stack = given (gn_stack s) ∧
    match r with
    | Some opt => ∃ ref, ec_state (gs_ctx ref) = st ∧ ec_plan (gs_ctx ref) = planOf s ∧ mayTake missing (rn_Node opt) ∧
        eligibleNode job (ap_taskGroup missing) ref (rn_Node opt) ∧ packed (ap_taskGroup missing) ref opt
    | None => noNode (planOf s) (ap_taskGroup missing)
    end.
Proof.
  intros [L1 L2 L3 L4] (Hg & _ & _) Hpref.
  assert (∀ r, picks job (ap_taskGroup missing) (si_nodes (gs_source (gn_stack s))) (gn_stack s) r →
    match r with
    | Some opt => ∃ ref, ec_state (gs_ctx ref) = st ∧ ec_plan (gs_ctx ref) = planOf s ∧ mayTake missing (rn_Node opt) ∧
        eligibleNode job (ap_taskGroup missing) ref (rn_Node opt) ∧ packed (ap_taskGroup missing) ref opt
    | None => noNode (planOf s) (ap_taskGroup missing)
    end) as Hall.
  { intros r (ref & E1 & E2 & Hr). destruct r as [opt|]; exists ref; (split; [congruence|]; split; [done|]).
    - rewrite L4 in Hr. destruct Hr as (Hn & He & Hp). split; [by left|]. by split.
    - intros n Hn. apply Hr. by rewrite L4. }
  destruct preferred as [node|].
  - destruct (Hpref node eq_refl) as [Hn Hmay].
    destruct (SelectPreferring_picks rangeTasks_perm intn_range job known classes names known_walkable
      (ap_taskGroup missing) node time (gn_stack s) L2 Hg Hn) as (r & size & stack & E & Hr & Hgv & Hp).
    exists r, size, stack. split_and!; try done. destruct Hp as [(opt & -> & ref & E1 & E2 & Hin & He & Hpk)|Hp]; [|by apply Hall].
    exists ref. apply list_elem_of_singleton in Hin. rewrite Hin in *. split_and!; try done. congruence.
  - destruct (Select_picks rangeTasks_perm intn_range job known classes names known_walkable
      (ap_taskGroup missing) time (gn_stack s) L2 Hg) as (r & size & stack & E & Hr & Hgv & Hp).
    exists r, size, stack. split_and!; try done. by apply Hall.
Qed.

(** ** One placement *)

Record tried (deploymentID : string) missing s s' : Prop := {
  td_frame : frame s' = frame s;
  td_loops : loops s';
  td_outcome :
    (∃ a, planOf s' = AppendAlloc (planOf s) a ∧ al_ID a = uuid (gn_uuids s) ∧ gn_uuids s' = S (gn_uuids s) ∧
       gn_failedTGAllocs s' = gn_failedTGAllocs s ∧ gn_failedTGAllocs s !! groupOf missing = None ∧
       placement (ev_ID (gn_eval s)) deploymentID (planOf s) missing a) ∨
    (planOf s' = planOf s ∧ gn_uuids s' = gn_uuids s ∧
       (∃ m, gn_failedTGAllocs s' = <[groupOf missing := m]> (gn_failedTGAllocs s)) ∧
       (is_Some (gn_failedTGAllocs s !! groupOf missing) ∨ noNode (planOf s) (ap_taskGroup missing)))
}.

Lemma placeMissing_spec byDC deploymentID missing s :
  loops s → askable missing →
  ∃ s', placeMissing uuid elapsed shareDeployment job byDC deploymentID missing s = Some s' ∧ tried deploymentID missing s s'.
Proof.
  intros Hs Hm. unfold placeMissing. cbv zeta. fold (groupOf missing).
  destruct (gn_failedTGAllocs s !! groupOf missing) as [metric|] eqn:Ef.
  { eexists. split; [done|]. split; [done|by destruct Hs|]. right. split; [done|]. split; [done|]. split; [by eexists|]. left. by eexists. }
  destruct (findPreferredNode_spec s missing (lp_state s Hs) Hm) as (preferred & -> & Hpref). cbn [mbind option_bind].
  destruct (select_missing s missing preferred (elapsed (gn_clock s)) Hs Hm Hpref) as (r & size & stack & -> & Hr & Hg & Hp).
  cbn [mbind option_bind]. apply given_eq in Hg as (G1 & G2 & G3).
  set (s1 := s <| gn_stack := _ |> <| gn_clock ::= S |>).
  assert (loops s1 ∧ planOf s1 = planOf s ∧ frame s1 = frame s) as (Hs1 & Epl & Efr).
  { split; [|done]. destruct Hs as [L1 L2 L3 L4]. split; simpl; [done|by apply ready_metrics|congruence|by rewrite G1]. }
  destruct r as [opt|].
  - destruct Hm as ((_ & [disk Hd] & _) & Hc & _). rewrite Hd, Hc. cbn [mbind option_bind].
    eexists. split; [done|]. set (a := newAlloc uuid s1 missing disk job deploymentID opt). split.
    + exact Efr.
    + destruct Hs1. split; simpl; try done. by apply ready_plan.
    + left. exists a. split; [unfold planOf in *; simpl; by rewrite <- Epl|]. split_and!; try done.
      destruct Hp as (ref & E1 & E2 & Hn & He & Hpk). split; [done|]. exists ref, opt. by split_and!.
  - eexists. split; [done|]. split; [exact Efr|by destruct Hs1|]. right. split; [exact Epl|]. split; [done|].
    split; [by eexists|]. by right.
Qed.

(** ** The placements one after the other *)

Record ran (deploymentID : string) (place : list allocPlaceResult) (placed : list (allocPlaceResult * Allocation))
    (failed : list allocPlaceResult) s s' : Prop := {
  rn_frame : frame s' = frame s;
  rn_loops : loops s';
  rn_all : place ≡ₚ placed.*1 ++ failed;
  rn_plan : planOf s' = placeAllocs (planOf s) placed.*2;
  rn_ids : al_ID <$> placed.*2 = uuid <$> seq (gn_uuids s) (length placed);
  rn_uuids : gn_uuids s' = (gn_uuids s + length placed)%nat;
  rn_placed : ∀ before missing a after, placed = before ++ (missing, a) :: after →
    placement (ev_ID (gn_eval s)) deploymentID (placeAllocs (planOf s) before.*2) missing a;
  rn_failed : ∀ missing, missing ∈ failed → is_Some (gn_failedTGAllocs s !! groupOf missing) ∨
    ∃ before after, placed = before ++ after ∧ noNode (placeAllocs (planOf s) before.*2) (ap_taskGroup missing);
  rn_dom : ∀ g, is_Some (gn_failedTGAllocs s' !! g) ↔ is_Some (gn_failedTGAllocs s !! g) ∨ g ∈ groupOf <$> failed
}.

Lemma noNode_group p missing missing' :
  askable missing → askable missing' → groupOf missing = groupOf missing' → noNode p (ap_taskGroup missing) →
  noNode p (ap_taskGroup missing').
Proof.
  intros ((Hg & _) & _) ((Hg' & _) & _) E. by rewrite (group_eq job names (ap_taskGroup missing) (ap_taskGroup missing')).
Qed.

Lemma ran_placed deploymentID missing a place placed failed s s1 s' :
  frame s1 = frame s → planOf s1 = AppendAlloc (planOf s) a → al_ID a = uuid (gn_uuids s) → gn_uuids s1 = S (gn_uuids s) →
  gn_failedTGAllocs s1 = gn_failedTGAllocs s → placement (ev_ID (gn_eval s)) deploymentID (planOf s) missing a →
  ran deploymentID place placed failed s1 s' → ran deploymentID (missing :: place) ((missing, a) :: placed) failed s s'.
Proof.
  intros Hf Hp Hid Hu Hfm Hpl [R1 R2 R3 R4 R5 R6 R7 R8 R9]. unfold frame in Hf. injection Hf as F1 F2 F3 F4 F5 F6 F7 F8 F9 F10 F11.
  split; try done.
  - rewrite R1. unfold frame. congruence.
  - simpl. by rewrite R3.
  - by rewrite R4, Hp.
  - rewrite !fmap_cons. cbn [snd length seq]. by rewrite fmap_cons, Hid, R5, Hu.
  - rewrite R6, Hu. simpl. lia.
  - intros [|[m b] before] m' a' after E; simpl in E; injection E as -> -> E; [done|]. subst placed.
    specialize (R7 before m' a' after eq_refl). by rewrite F4, Hp in R7.
  - intros m Hm. rewrite <- Hfm. destruct (R8 m Hm) as [?|(before & after & -> & Hn)]; [by left|]. right.
    exists ((missing, a) :: before), after. split; [done|]. simpl. by rewrite <- Hp.
  - intros g. by rewrite R9, Hfm.
Qed.

Lemma ran_failed deploymentID missing place placed failed s s1 s' m :
  (∀ x, x ∈ missing :: place → askable x) →
  frame s1 = frame s → planOf s1 = planOf s → gn_uuids s1 = gn_uuids s →
  gn_failedTGAllocs s1 = <[groupOf missing := m]> (gn_failedTGAllocs s) →
  (is_Some (gn_failedTGAllocs s !! groupOf missing) ∨ noNode (planOf s) (ap_taskGroup missing)) →
  ran deploymentID place placed failed s1 s' → ran deploymentID (missing :: place) placed (missing :: failed) s s'.
Proof.
  intros Hask Hf Hp Hu Hfm Hwhy [R1 R2 R3 R4 R5 R6 R7 R8 R9]. unfold frame in Hf. injection Hf as F1 F2 F3 F4 F5 F6 F7 F8 F9 F10 F11.
  split; try done.
  - rewrite R1. unfold frame. congruence.
  - rewrite R3. by rewrite <- Permutation_middle.
  - by rewrite R4, Hp.
  - by rewrite R5, Hu.
  - by rewrite R6, Hu.
  - intros before x a after E. specialize (R7 before x a after E). by rewrite F4, Hp in R7.
  - assert (∀ x, x ∈ missing :: place → groupOf x = groupOf missing → is_Some (gn_failedTGAllocs s !! groupOf x) ∨
      ∃ before after, placed = before ++ after ∧ noNode (placeAllocs (planOf s) before.*2) (ap_taskGroup x)) as Hfirst.
    { intros x Hx E. rewrite E. destruct Hwhy as [?|Hn]; [by left|]. right. exists [], placed. split; [done|].
      eapply (noNode_group _ missing); [apply Hask; left|by apply Hask|done|done]. }
    intros x [->|Hx]%elem_of_cons; [apply Hfirst; [left|done]|].
    assert (x ∈ missing :: place) as Hin by (right; rewrite R3; solve_in).
    destruct (R8 x Hx) as [Hsome|(before & after & -> & Hn)]; [|right; exists before, after; by rewrite <- Hp].
    destruct (decide (groupOf x = groupOf missing)) as [E|Hne]; [by apply Hfirst|]. left.
    by rewrite Hfm, lookup_insert_ne in Hsome.
  - intros g. rewrite R9, Hfm, lookup_insert_is_Some', fmap_cons, elem_of_cons. naive_solver.
Qed.

Lemma placeAllMissing_spec byDC deploymentID place : ∀ s,
  loops s → (∀ x, x ∈ place → askable x) →
  ∃ s' placed failed, placeAllMissing uuid elapsed shareDeployment job byDC deploymentID place s = Some s' ∧
    ran deploymentID place placed failed s s'.
Proof.
  induction place as [|missing place IH]; intros s Hs Hask.
  { exists s, [], []. split; [done|]. split; try done.
    - intros [|? before] ? ? ? E; discriminate E.
    - by intros ? ?%elem_of_nil.
    - intros g. rewrite elem_of_nil. tauto. }
  destruct (placeMissing_spec byDC deploymentID missing s Hs) as (s1 & E & [T1 T2 T3]); [apply Hask; left|].
  cbn [placeAllMissing]. rewrite E. cbn [mbind option_bind].
  destruct (IH s1 T2) as (s' & placed & failed & -> & Hran); [intros x Hx; apply Hask; by right|].
  destruct T3 as [(a & P1 & P2 & P3 & P4 & _ & P5)|(P1 & P2 & [m P3] & P4)].
  - exists s', ((missing, a) :: placed), failed. split; [done|]. by eapply ran_placed.
  - exists s', placed, (missing :: failed). split; [done|]. by eapply ran_failed.
Qed.
End job.

(** ** The state of a service job *)

Definition liveOf (allocs : list Allocation) : list Allocation := filter (fun a => AllocTerminal a = false) allocs.
Definition readyFor (job : Job) (n : Node) : Prop := NodeReady n = true ∧ nd_Datacenter n ∈ jb_Datacenters job.

(** The job is registered and runs; the state knows its nodes; the live allocations are
    those of the job, with resources for the tasks of their versions; no group has or wants
    canaries. *)
Record serviceState (st : SchedState) (id : string) (job : Job) (deployment : option Deployment) (nodes : list Node)
    (allocs : list Allocation) : Prop := {
  sv_job : sc_JobByID st id = inr (Some job);
  sv_runs : jb_Stop job = false;
  sv_latest : sc_LatestDeploymentByJobID st id = inr deployment;
  sv_nodes : sc_Nodes st = inr nodes;
  sv_allocs : sc_AllocsByJob st id true = inr allocs;
  sv_known : ∀ n, n ∈ nodes → n ∈ known;
  sv_lookup : ∀ a, a ∈ allocs → ∃ node, sc_NodeByID st (al_NodeID a) = inr node ∧
    ∀ n, node = Some n → n ∈ known ∧ nd_ID n = al_NodeID a ∧ ValidNodeStatus (nd_Status n) = true;
  sv_names : NoDup (tg_Name <$> jb_TaskGroups job);
  sv_groups : ∀ tg, tg ∈ jb_TaskGroups job → is_Some (tg_EphemeralDisk tg) ∧ NoDup (tk_Name <$> tg_Tasks tg);
  sv_live : allocs_ok id job (liveOf allocs);
  sv_steady : steady job deployment (liveOf allocs);
  sv_version : ∀ a tg, a ∈ liveOf allocs → LookupTaskGroup job (al_TaskGroup a) = Some tg →
    ∃ ej old, al_Job a = Some ej ∧ LookupTaskGroup ej (tg_Name tg) = Some old ∧
      ∀ task, task ∈ tg_Tasks old → is_Some (default ∅ (al_TaskResources a) !! tk_Name task);
  sv_service : ∀ a ej, a ∈ liveOf allocs → al_Job a = Some ej → jb_Type ej ≠ JobTypeBatch
}.

(** A node that is gone or down. *)
Definition downOf (st : SchedState) (a : Allocation) : Prop :=
  sc_NodeByID st (al_NodeID a) = inr None ∨
  ∃ n, sc_NodeByID st (al_NodeID a) = inr (Some n) ∧ nd_Status n = NodeStatusDown.

(** What an attempt comes to: the live allocations are stopped or kept, some of them
    renewed; of what is missing, some is placed and some has failed. *)
Record attempted (st : SchedState) (job : Job) (nodes : list Node) (allocs : list Allocation) (evalID : string)
    (stopped kept renewed renewals : list Allocation) (placed : list (allocPlaceResult * Allocation))
    (failed : list allocPlaceResult) s : Prop := {
  tt_parts : liveOf allocs ≡ₚ stopped ++ kept;
  tt_stops : ∃ gone, (∀ a, a ∈ gone → a ∈ allocs ∧ AllocTerminal a = true) ∧
    ∀ n, stopsOn (planOf s) n = al_ID <$> filter (fun a => al_NodeID a = n) (gone ++ stopped);
  tt_desired : ∀ n u, u ∈ updatesOf (planOf s) n → al_DesiredStatus u = AllocDesiredStatusStop;
  tt_allocs : ∀ n, allocsOf (planOf s) n = filter (fun a => al_NodeID a = n) (renewals ++ placed.*2);
  tt_renewed : Forall2 (renews evalID) renewed renewals ∧ renewed ⊆+ kept;
  tt_down : ∀ a, a ∈ liveOf allocs → downOf st a → a ∈ stopped;
  tt_groups : ∀ a, a ∈ kept → is_Some (LookupTaskGroup job (al_TaskGroup a));
  tt_placed : ∀ before missing a after, placed = before ++ (missing, a) :: after →
    LookupTaskGroup job (groupOf missing) = Some (ap_taskGroup missing) ∧
    ∃ p, (∀ n, updatesOf p n = updatesOf (planOf s) n ∧ allocsOf p n = filter (fun a => al_NodeID a = n) (renewals ++ before.*2)) ∧
      placement job st (filter (readyFor job) nodes) evalID (GetID (gn_deployment s)) p missing a;
  tt_failed : ∀ missing, missing ∈ failed → is_Some (gn_failedTGAllocs s !! groupOf missing) ∧
    LookupTaskGroup job (groupOf missing) = Some (ap_taskGroup missing) ∧
    ∃ p before after, placed = before ++ after ∧
      (∀ n, updatesOf p n = updatesOf (planOf s) n ∧ allocsOf p n = filter (fun a => al_NodeID a = n) (renewals ++ before.*2)) ∧
      noNode job st (filter (readyFor job) nodes) p (ap_taskGroup missing);
  tt_reported : ∀ g, is_Some (gn_failedTGAllocs s !! g) → g ∈ groupOf <$> failed;
  tt_count : ∀ tg, tg ∈ jb_TaskGroups job →
    let k := filter (fun x => al_TaskGroup x = tg_Name tg) kept in
    let pl := filter (fun x => al_TaskGroup x = tg_Name tg) placed.*2 in
    let fl := filter (fun x => groupOf x = tg_Name tg) failed in
    Z.of_nat (length k + length pl + length fl) = tg_Count tg ∧
    NoDup ((al_Name <$> k) ++ (al_Name <$> pl) ++ (ap_name <$> fl)) ∧
    ∃ q, gn_queuedAllocs s = Some q ∧ default 0 (q !! tg_Name tg) = Z.of_nat (length pl + length fl);
  tt_ids : ∃ k, al_ID <$> placed.*2 = uuid <$> seq k (length placed)
}.

Section state.
Context (st : SchedState) (id : string) (job : Job) (deployment : option Deployment) (nodes : list Node) (allocs : list Allocation).
Context (Hst : serviceState st id job deployment nodes allocs).

Lemma filterCompleteAllocs_live : (filterCompleteAllocs rangeNames false allocs).1 ≡ₚ liveOf allocs.
Proof.
  rewrite <- (FilterTerminalAllocs_live allocs). unfold filterCompleteAllocs, FilterTerminalAllocs.
  change (swapDelete (isComplete false) recordTerminal) with (swapDelete AllocTerminal recordTerminal).
  by destruct (swapDelete AllocTerminal _ _ _ _ _).
Qed.

(** *** Tainted nodes *)

Section taint.
Context (taint : gmap string (option Node)).
Context (Htaint : ∀ id, taint !! id = if decide (id ∈ al_NodeID <$> allocs) then
                          match sc_NodeByID st id with inr node => SchedUtilSpec.taintOf node | inl _ => None end else None).

Lemma live_in a : a ∈ liveOf allocs → a ∈ allocs.
Proof. by intros [_ ?]%list_elem_of_filter. Qed.

Lemma taint_live a :
  a ∈ liveOf allocs →
  ∃ node, sc_NodeByID st (al_NodeID a) = inr node ∧ taint !! al_NodeID a = SchedUtilSpec.taintOf node ∧
    (∀ n, node = Some n → n ∈ known ∧ nd_ID n = al_NodeID a) ∧
    from_option (fun j => bool_decide (jb_Type j = JobTypeBatch)) false (al_Job a) = false.
Proof.
  intros Ha. pose proof (live_in a Ha) as Hin. destruct (sv_lookup _ _ _ _ _ _ Hst a Hin) as (node & E & Hn).
  exists node. split; [done|]. rewrite Htaint, decide_True, E by (by apply list_elem_of_fmap_2). split; [done|].
  split; [intros n En; by destruct (Hn n En) as (? & ? & _)|].
  destruct (al_Job a) as [ej|] eqn:Ej; [|done]. simpl. apply bool_decide_eq_false_2. by eapply (sv_service _ _ _ _ _ _ Hst).
Qed.

Lemma down_lost a : a ∈ liveOf allocs → downOf st a → AllocSets.taintOf taint a = Lost.
Proof.
  intros Ha Hd. destruct (taint_live a Ha) as (node & E & Et & _ & Eb). unfold AllocSets.taintOf. rewrite Et, Eb. cbn [andb].
  destruct Hd as [E'|(n & E' & Hs)]; rewrite E in E'; injection E' as ->; simpl; [done|].
  unfold drains. rewrite bool_decide_eq_true_2 by done. simpl. unfold NodeTerminal. by rewrite bool_decide_eq_true_2.
Qed.

Lemma unlost_node a : a ∈ liveOf allocs → AllocSets.taintOf taint a ≠ Lost →
  ∃ n, sc_NodeByID st (al_NodeID a) = inr (Some n) ∧ n ∈ known ∧ nd_ID n = al_NodeID a.
Proof.
  intros Ha. destruct (taint_live a Ha) as (node & E & Et & Hn & Eb). unfold AllocSets.taintOf. rewrite Et, Eb.
  destruct node as [n|]; [|simpl; done]. intros _. exists n. by destruct (Hn n eq_refl).
Qed.
End taint.

(** *** The beginning of an attempt *)

Record begun s0 s : Prop := {
  be_fixed : (gn_state s, gn_planner s, gn_batch s, gn_eval s, gn_job s, gn_planResult s, gn_nextEval s, gn_deployment s,
              gn_blocked s, gn_failedTGAllocs s, gn_queuedAllocs s, gn_uuids s) =
             (st, gn_planner s0, false, gn_eval s0, Some job, gn_planResult s0, gn_nextEval s0, deployment,
              gn_blocked s0, ∅, Some ∅, gn_uuids s0);
  be_plan : planOf s = MakePlan (gn_eval s0) (Some job);
  be_stack : ready job known (gn_stack s) ∧ ec_state (gs_ctx (gn_stack s)) = st
}.

Lemma beginAttempt_service s0 :
  gn_state s0 = st → ev_JobID (gn_eval s0) = id → gn_batch s0 = false → pool_ok (gs_pool (gn_stack s0)) →
  ∃ s, beginAttempt s0 = (None, s) ∧ begun s0 s.
Proof.
  intros Est Eid Eb Hpool. unfold beginAttempt. cbv zeta. rewrite Est, Eid, (sv_job _ _ _ _ _ _ Hst).
  change (gn_batch (s0 <| gn_job := Some job |> <| gn_queuedAllocs := Some ∅ |>)) with (gn_batch s0). rewrite Eb.
  change (gn_state (s0 <| gn_job := Some job |> <| gn_queuedAllocs := Some ∅ |>)) with (gn_state s0).
  rewrite Est, (sv_latest _ _ _ _ _ _ Hst). unfold Stopped. rewrite (sv_runs _ _ _ _ _ _ Hst).
  eexists. split; [reflexivity|]. split; [simpl; by rewrite Est, Eb|done|]. split; [|done]. apply ready_new; [apply Hst|done].
Qed.

(** *** Carrying out the results *)

Lemma computePlacements_service place s :
  gn_job s = Some job → gn_state s = st → ready job known (gn_stack s) → ec_state (gs_ctx (gn_stack s)) = st →
  (∀ x, x ∈ place → askable job st x) →
  ∃ s1 s' placed failed, computePlacements uuid elapsed shareDeployment place s = Some (None, s') ∧
    frame s1 = frame s ∧ planOf s1 = planOf s ∧ gn_uuids s1 = gn_uuids s ∧ gn_failedTGAllocs s1 = gn_failedTGAllocs s ∧
    ran job st (filter (readyFor job) nodes) (GetID (gn_deployment s)) place placed failed s1 s'.
Proof.
  intros Ej Est Hr Ec Hask. unfold computePlacements. rewrite Ej, Est. cbn [mbind option_bind].
  destruct (readyNodesInDCs_spec st nodes (jb_Datacenters job) (sv_nodes _ _ _ _ _ _ Hst)) as (out & byDC & -> & Eout).
  set (s1 := s <| gn_stack ::= SetNodes out |>). set (ns := filter (readyFor job) nodes).
  assert (out = ns) as Eo by exact Eout.
  assert (frame s1 = frame s ∧ planOf s1 = planOf s ∧ ec_state (gs_ctx (gn_stack s1)) = st ∧
    si_nodes (gs_source (gn_stack s1)) ≡ₚ ns) as (F1 & F2 & F3 & F4).
  { unfold planOf, s1, SetNodes. simpl. pose proof (shuffleNodes_perm intn_range (gs_rand (gn_stack s)) out) as Hp.
    destruct (shuffleNodes _ out) as [rand out']. simpl in Hp |- *. split_and!; try done. by rewrite Hp, Eo. }
  destruct (placeAllMissing_spec job (sv_names _ _ _ _ _ _ Hst) st ns byDC (GetID (gn_deployment s)) place s1) as (s' & placed & failed & E & Hran).
  - split; [done| |done|done]. apply ready_nodes; [done| |done]. rewrite Eo. intros n [_ Hn]%list_elem_of_filter.
    by apply (sv_known _ _ _ _ _ _ Hst).
  - done.
  - exists s1, s', placed, failed. change (gn_deployment s1) with (gn_deployment s). rewrite E. by split_and!.
Qed.

Lemma fair_updates evalID renewed (os : list (option Allocation)) :
  Forall2 (fun x o => fair evalID x (false, false, o)) renewed os →
  ∃ us, os = Some <$> us ∧ Forall2 (renews evalID) renewed us.
Proof.
  induction 1 as [|x o renewed os Hx _ (us & -> & IH)]; [by exists []|].
  destruct (Hx o eq_refl) as (u & -> & Hu). exists (u :: us). split; [done|]. by constructor.
Qed.

Lemma placed_names g (placed : list (allocPlaceResult * Allocation)) :
  (∀ missing a, (missing, a) ∈ placed → al_Name a = ap_name missing ∧ al_TaskGroup a = groupOf missing) →
  al_Name <$> filter (fun x => al_TaskGroup x = g) placed.*2 = ap_name <$> filter (fun x => groupOf x = g) placed.*1.
Proof.
  induction placed as [|[missing a] placed IH]; intros Hp; [done|]. rewrite !fmap_cons, !filter_cons. cbn [fst snd].
  destruct (Hp missing a ltac:(left)) as [En ->]. specialize (IH (fun m b Hin => Hp m b (list_elem_of_further _ _ _ Hin))).
  case_decide; [|done]. by rewrite !fmap_cons, En, IH.
Qed.

(** The plan of the attempt is made of the stops, the renewals and the placements. *)
Lemma planned_parts p1 renewals l n :
  (∀ n, allocsOf p1 n = []) →
  updatesOf (placeAllocs (placeAllocs p1 renewals) l) n = updatesOf p1 n ∧
  allocsOf (placeAllocs (placeAllocs p1 renewals) l) n = filter (fun a => al_NodeID a = n) (renewals ++ l).
Proof.
  intros Hnone. unfold updatesOf at 1. rewrite !placeAllocs_updates, !placeAllocs_allocs, Hnone, filter_app. done.
Qed.

Lemma attempted_intro evalID live taint results kept renewed renewals gone p1 placed failed s q :
  live ≡ₚ liveOf allocs → (∀ a, a ∈ liveOf allocs → downOf st a → AllocSets.taintOf taint a = Lost) →
  reconciled (fair evalID) job live taint results kept renewed → Forall2 (renews evalID) renewed renewals →
  (∀ a, a ∈ gone → a ∈ allocs ∧ AllocTerminal a = true) →
  (∀ n, stopsOn p1 n = al_ID <$> filter (fun a => al_NodeID a = n) (gone ++ (as_alloc <$> rr_stop results))) →
  (∀ n u, u ∈ updatesOf p1 n → al_DesiredStatus u = AllocDesiredStatusStop) → (∀ n, allocsOf p1 n = []) →
  let p2 := placeAllocs p1 renewals in
  planOf s = placeAllocs p2 placed.*2 → rr_place results ≡ₚ placed.*1 ++ failed →
  (∀ before missing a after, placed = before ++ (missing, a) :: after →
     placement job st (filter (readyFor job) nodes) evalID (GetID (gn_deployment s)) (placeAllocs p2 before.*2) missing a) →
  (∀ missing, missing ∈ failed → ∃ before after, placed = before ++ after ∧
     noNode job st (filter (readyFor job) nodes) (placeAllocs p2 before.*2) (ap_taskGroup missing)) →
  (∀ g, is_Some (gn_failedTGAllocs s !! g) ↔ g ∈ groupOf <$> failed) →
  (∃ k, al_ID <$> placed.*2 = uuid <$> seq k (length placed)) →
  gn_queuedAllocs s = Some q → (∀ tg, tg ∈ jb_TaskGroups job → default 0 (q !! tg_Name tg) =
    Z.of_nat (length (filter (fun p => groupOf p = tg_Name tg) (rr_place results)))) →
  attempted st job nodes allocs evalID (as_alloc <$> rr_stop results) kept renewed renewals placed failed s.
Proof.
  intros Hlive Hdown Hrec Hren Hgone Hstops Hdes Hnone p2 Hplan Hplace Hpl Hfl Hdom Hids Hq Hqn.
  assert (∀ missing a, (missing, a) ∈ placed → al_Name a = ap_name missing ∧ al_TaskGroup a = groupOf missing) as Hnames.
  { intros missing a (before & after & E)%list_elem_of_split. destruct (pc_alloc _ _ _ _ _ _ _ _ (Hpl _ _ _ _ E)) as (? & ? & _). done. }
  assert (∀ missing, missing ∈ placed.*1 ++ failed → LookupTaskGroup job (groupOf missing) = Some (ap_taskGroup missing)) as Hgrp.
  { intros missing Hin. rewrite <- Hplace in Hin. by destruct (rc_place _ _ _ _ _ _ _ Hrec missing Hin). }
  assert (∀ before n, updatesOf (placeAllocs p2 before) n = updatesOf (planOf s) n ∧
    allocsOf (placeAllocs p2 before) n = filter (fun a => al_NodeID a = n) (renewals ++ before)) as Hparts.
  { intros before n. rewrite Hplan. unfold p2. destruct (planned_parts p1 renewals placed.*2 n Hnone) as [-> _].
    by apply planned_parts. }
  split.
  - rewrite <- Hlive. apply Hrec.
  - exists gone. split; [done|]. intros n. rewrite <- Hstops. unfold stopsOn. rewrite Hplan. f_equal. by apply planned_parts.
  - intros n u. rewrite Hplan. unfold p2. destruct (planned_parts p1 renewals placed.*2 n Hnone) as [-> _]. apply Hdes.
  - intros n. rewrite Hplan. by apply planned_parts.
  - split; [done|]. apply Hrec.
  - intros a Ha Hd. assert (mkAllocStopResult a AllocClientStatusLost allocLost ∈ rr_stop results) as Hin.
    { apply (rc_lost _ _ _ _ _ _ _ Hrec); [by rewrite Hlive|by apply Hdown]. }
    by apply (list_elem_of_fmap_2 as_alloc) in Hin.
  - apply Hrec.
  - intros before missing a after E. split; [apply Hgrp; rewrite E, fmap_app, fmap_cons; solve_in|].
    exists (placeAllocs p2 before.*2). split; [intros n; apply Hparts|]. by eapply Hpl.
  - intros missing Hin. split; [by apply Hdom, list_elem_of_fmap_2|]. split; [apply Hgrp; solve_in|].
    destruct (Hfl missing Hin) as (before & after & E & Hn). exists (placeAllocs p2 before.*2), before, after.
    split; [done|]. split; [intros n; apply Hparts|done].
  - intros g. apply Hdom.
  - intros tg Htg k pl fl. pose proof (LookupTaskGroup_own job (sv_names _ _ _ _ _ _ Hst) tg Htg) as Hlk.
    set (ps := filter (fun p => groupOf p = tg_Name tg) (rr_place results)).
    assert (Z.of_nat (length k + length ps) = tg_Count tg ∧ NoDup ((al_Name <$> k) ++ (ap_name <$> ps))) as [Hc Hnd]
      by exact (rc_count _ _ _ _ _ _ _ Hrec tg Hlk).
    assert (ps ≡ₚ filter (fun x => groupOf x = tg_Name tg) placed.*1 ++ fl) as Hps by (unfold ps, fl; by rewrite Hplace, filter_app).
    pose proof (placed_names (tg_Name tg) placed Hnames) as Hpn. fold pl in Hpn.
    assert (length pl = length (filter (fun x => groupOf x = tg_Name tg) placed.*1)) as El.
    { apply (f_equal length) in Hpn. by rewrite !length_fmap in Hpn. }
    split_and!.
    + rewrite Hps, length_app in Hc. lia.
    + rewrite Hps, fmap_app in Hnd. by rewrite Hpn.
    + exists q. split; [done|]. rewrite Hqn by done. fold ps. rewrite Hps, length_app. lia.
  - done.
Qed.

(** What an attempt leaves as it is. *)
Definition fixed s := (gn_state s, gn_planner s, gn_batch s, gn_eval s, gn_job s, gn_planResult s, gn_nextEval s, gn_blocked s).

Lemma frame_fixed s s' : frame s' = frame s → fixed s' = fixed s ∧ gn_deployment s' = gn_deployment s ∧ gn_queuedAllocs s' = gn_queuedAllocs s.
Proof. unfold frame, fixed. intros [= E1 E2 E3 E4 E5 E6 E7 E8 E9 E10 E11]. split_and!; congruence. Qed.

(** A scheduler whose reconciler has answered. *)
Record answered (evalID : string) (live : list Allocation) (taint : gmap string (option Node)) (results : reconcileResults)
    (kept renewed gone : list Allocation) s : Prop := {
  aw_job : gn_job s = Some job ∧ gn_state s = st ∧ ev_ID (gn_eval s) = evalID;
  aw_stack : ready job known (gn_stack s) ∧ ec_state (gs_ctx (gn_stack s)) = st;
  aw_fresh : gn_failedTGAllocs s = ∅ ∧ gn_queuedAllocs s = Some ∅;
  aw_live : live ≡ₚ liveOf allocs;
  aw_down : ∀ a, a ∈ liveOf allocs → downOf st a → AllocSets.taintOf taint a = Lost;
  aw_node : ∀ a, a ∈ liveOf allocs → AllocSets.taintOf taint a ≠ Lost →
    ∃ n, sc_NodeByID st (al_NodeID a) = inr (Some n) ∧ n ∈ known ∧ nd_ID n = al_NodeID a;
  aw_results : reconciled (fair evalID) job live taint results kept renewed;
  aw_gone : ∀ a, a ∈ gone → a ∈ allocs ∧ AllocTerminal a = true;
  aw_plan : (∀ n, stopsOn (planOf s) n = al_ID <$> filter (fun a => al_NodeID a = n) gone) ∧
    (∀ n u, u ∈ updatesOf (planOf s) n → al_DesiredStatus u = AllocDesiredStatusStop) ∧ ∀ n, allocsOf (planOf s) n = []
}.

Lemma answered_askable evalID live taint results kept renewed gone s x :
  answered evalID live taint results kept renewed gone s → x ∈ rr_place results → askable job st x.
Proof.
  intros Ha Hx. destruct (rc_place _ _ _ _ _ _ _ (aw_results _ _ _ _ _ _ _ _ Ha) x Hx) as (Hlk & Hc & Hprev).
  apply LookupTaskGroup_Some in Hlk as [Htg _]. split; [|split; [done|]].
  - by split; [|apply (sv_groups _ _ _ _ _ _ Hst)].
  - intros prev Ep. destruct (Hprev prev Ep) as [Hin Ht]. apply (aw_node _ _ _ _ _ _ _ _ Ha); [|done].
    by rewrite <- (aw_live _ _ _ _ _ _ _ _ Ha).
Qed.

(** The scheduler after the stops and the updates in place. *)
Lemma applied_plan evalID live taint results kept renewed gone s :
  answered evalID live taint results kept renewed gone s →
  ∃ renewals p1 s2, Forall2 (renews evalID) renewed renewals ∧
    (∀ n, stopsOn p1 n = al_ID <$> filter (fun a => al_NodeID a = n) (gone ++ (as_alloc <$> rr_stop results))) ∧
    (∀ n u, u ∈ updatesOf p1 n → al_DesiredStatus u = AllocDesiredStatusStop) ∧ (∀ n, allocsOf p1 n = []) ∧
    planOf s2 = placeAllocs p1 renewals ∧ fixed s2 = fixed s ∧ gn_uuids s2 = gn_uuids s ∧
    gn_failedTGAllocs s2 = ∅ ∧ gn_queuedAllocs s2 = Some ∅ ∧ ready job known (gn_stack s2) ∧ ec_state (gs_ctx (gn_stack s2)) = st ∧
    applyResults uuid elapsed shareDeployment results s =
      if (length (rr_place results) =? 0)%nat then
        Some (None, s2 <| gn_queuedAllocs := Some (foldl (fun q tg => <[tg_Name tg := 0]> q) ∅ (jb_TaskGroups job)) |>)
      else computePlacements uuid elapsed shareDeployment (rr_place results)
             (s2 <| gn_queuedAllocs := Some (foldl bumpQueued ∅ (rr_place results)) |>).
Proof.
  intros [[A1 [A2 A3]] [A4 A5] [A6 A7] _ _ _ Hrec _ (A8 & A9 & A10)].
  destruct (fair_updates evalID renewed _ (rc_updates _ _ _ _ _ _ _ Hrec)) as (us & Eus & Hus).
  unfold applyResults. cbv zeta. set (sa := if ev_AnnotatePlan (gn_eval s) then _ else s).
  set (sb := changePlan _ sa). set (sc := sb <| gn_followupEvalWait := _ |>).
  set (sd := match rr_deployment results with Some d => sc <| gn_deployment := Some d |> | None => sc end).
  set (se := changePlan (stopResults (rr_stop results)) sd).
  assert (pl_NodeUpdate (planOf sd) = pl_NodeUpdate (planOf s) ∧ pl_NodeAllocation (planOf sd) = pl_NodeAllocation (planOf s)) as [B1 B2]
    by (unfold sd, sc, sb, sa; destruct (rr_deployment results), (ev_AnnotatePlan (gn_eval s)); done).
  assert (fixed sd = fixed s ∧ gn_uuids sd = gn_uuids s ∧ gn_failedTGAllocs sd = gn_failedTGAllocs s ∧
    gn_queuedAllocs sd = gn_queuedAllocs s ∧ ready job known (gn_stack sd) ∧ ec_state (gs_ctx (gn_stack sd)) = st)
    as (B3 & B4 & B5 & B6 & B7 & B8).
  { unfold sd, sc, sb, sa. destruct (rr_deployment results), (ev_AnnotatePlan (gn_eval s)); split_and!; try done;
      simpl; repeat apply ready_plan; done. }
  set (p1 := stopResults (rr_stop results) (planOf sd)).
  pose proof (stopResults_stops (rr_stop results) (planOf sd)) as [M1 M2 M3 _ _]. fold p1 in M1, M2, M3.
  rewrite Eus. change (planOf se) with p1.
  change (gn_deployment se) with (gn_deployment sd). rewrite updateResults_spec. cbn [mbind option_bind].
  set (renewals := joinDeployment (GetID (gn_deployment sd)) <$> us).
  set (s2 := changePlan (fun _ => placeAllocs p1 renewals) se).
  exists renewals, p1, s2. split_and!.
  - apply Forall2_fmap_r. eapply Forall2_impl; [exact Hus|]. intros x u. apply joinDeployment_renews.
  - intros n. rewrite M1, filter_app, fmap_app. f_equal. rewrite <- A8. unfold stopsOn, updatesOf. by rewrite B1.
  - intros n u [Hu|?]%M2; [|done]. apply (A9 n). unfold updatesOf in *. by rewrite <- B1.
  - intros n. unfold allocsOf. rewrite M3, B2. apply A10.
  - done.
  - exact B3.
  - exact B4.
  - by rewrite <- A6.
  - by rewrite <- A7.
  - by repeat apply ready_plan.
  - done.
  - assert (gn_job s2 = Some job ∧ gn_queuedAllocs s2 = Some ∅) as [C1 C2].
    { split; [|by rewrite <- A7]. unfold fixed in B3. injection B3 as _ _ _ _ E _ _ _. by rewrite <- A1. }
    rewrite C1. unfold Stopped. rewrite (sv_runs _ _ _ _ _ _ Hst).
    destruct s2 as [f1 f2 f3 f4 f5 f6 f7 f8 f9 f10 f11 f12 f13 f14 f15]. simpl in C1, C2. subst f5 f13. done.
Qed.

Lemma zero_queue tgs g : ∀ q : gmap string Z, default 0 (q !! g) = 0 → default 0 (foldl (fun q tg => <[tg_Name tg := 0]> q) q tgs !! g) = 0.
Proof.
  induction tgs as [|tg tgs IH]; intros q Hq; [done|]. cbn [foldl]. apply IH.
  destruct (decide (tg_Name tg = g)) as [->|]; [by rewrite lookup_insert_eq|by rewrite lookup_insert_ne].
Qed.

Lemma applyResults_service evalID live taint results kept renewed gone s :
  answered evalID live taint results kept renewed gone s →
  ∃ s' renewals placed failed, applyResults uuid elapsed shareDeployment results s = Some (None, s') ∧ fixed s' = fixed s ∧
    ready job known (gn_stack s') ∧
    attempted st job nodes allocs evalID (as_alloc <$> rr_stop results) kept renewed renewals placed failed s'.
Proof.
  intros Ha. destruct (applied_plan _ _ _ _ _ _ _ _ Ha)
    as (renewals & p1 & s2 & Hren & P1 & P2 & P3 & Epl & Efix & Eid & Ef & Eq & Hr & Ec & ->).
  assert (gn_job s2 = Some job ∧ gn_state s2 = st ∧ gn_eval s2 = gn_eval s) as (Ej & Est & Eev).
  { destruct (aw_job _ _ _ _ _ _ _ _ Ha) as (A1 & A2 & _). unfold fixed in Efix. injection Efix as E1 _ _ E2 E3 _ _ _.
    split_and!; congruence. }
  pose proof (proj2 (proj2 (aw_job _ _ _ _ _ _ _ _ Ha))) as Eeval.
  destruct (Nat.eqb_spec (length (rr_place results)) 0) as [E0|Hne].
  - apply nil_length_inv in E0. eexists _, renewals, [], []. split; [reflexivity|]. split; [exact Efix|]. split; [done|].
    eapply (attempted_intro evalID live taint results kept renewed renewals gone p1); try eassumption; try apply Ha.
    + by rewrite E0.
    + intros [|? before] ? ? ? E; discriminate E.
    + by intros ? ?%elem_of_nil.
    + intros g. simpl. rewrite Ef, lookup_empty, elem_of_nil. split; [by intros []|done].
    + by exists 0%nat.
    + reflexivity.
    + intros tg _. rewrite E0. by apply zero_queue.
  - set (s3 := s2 <| gn_queuedAllocs := _ |>).
    destruct (computePlacements_service (rr_place results) s3 Ej Est Hr Ec)
      as (s4 & s' & placed & failed & -> & F1 & F2 & F3 & F4 & Hran); [intros x; by eapply answered_askable|].
    destruct (frame_fixed _ _ (rn_frame _ _ _ _ _ _ _ _ _ Hran)) as (G1 & G2 & G3).
    destruct (frame_fixed _ _ F1) as (K1 & K2 & K3).
    exists s', renewals, placed, failed. split; [done|]. split; [by rewrite G1, K1|].
    split; [apply (lp_ready _ _ _ _ (rn_loops _ _ _ _ _ _ _ _ _ Hran))|].
    assert (planOf s4 = placeAllocs p1 renewals) as Ep4 by (rewrite F2; exact Epl).
    assert (ev_ID (gn_eval s4) = evalID) as Ee4.
    { unfold fixed in K1. injection K1 as _ _ _ K1 _ _ _ _. rewrite K1. change (gn_eval s3) with (gn_eval s2). by rewrite Eev. }
    assert (gn_failedTGAllocs s4 = ∅) as Ef4 by (rewrite F4; exact Ef).
    eapply (attempted_intro evalID live taint results kept renewed renewals gone p1); try eassumption; try apply Ha.
    + rewrite <- Ep4. apply (rn_plan _ _ _ _ _ _ _ _ _ Hran).
    + apply (rn_all _ _ _ _ _ _ _ _ _ Hran).
    + intros before missing a after E. pose proof (rn_placed _ _ _ _ _ _ _ _ _ Hran _ _ _ _ E) as Hp.
      rewrite Ee4, Ep4 in Hp. by rewrite G2, K2.
    + intros missing Hin. destruct (rn_failed _ _ _ _ _ _ _ _ _ Hran missing Hin) as [[x Hx]|Hn].
      * by rewrite Ef4, lookup_empty in Hx.
      * by rewrite Ep4 in Hn.
    + intros g. rewrite (rn_dom _ _ _ _ _ _ _ _ _ Hran g), Ef4, lookup_empty. split; [by intros [[]|?]|by right].
    + exists (gn_uuids s4). apply (rn_ids _ _ _ _ _ _ _ _ _ Hran).
    + rewrite G3, K3. reflexivity.
    + intros tg _. by rewrite bumpQueued_count, lookup_empty.
Qed.

(** The generated identifiers are new. *)
Definition fresh : Prop := ∀ k a, a ∈ allocs → al_DeploymentID a ≠ uuid k.

Lemma computeJobAllocs_service s0 s :
  begun s0 s → ev_JobID (gn_eval s0) = id → fresh →
  ∃ s' stopped kept renewed renewals placed failed,
    computeJobAllocs rangeNames rangeSet rangeMatrix uuid elapsed shareDeployment s = Some (None, s') ∧
    fixed s' = fixed s ∧ ready job known (gn_stack s') ∧
    attempted st job nodes allocs (ev_ID (gn_eval s0)) stopped kept renewed renewals placed failed s'.
Proof.
  intros [Bfix Bplan [Bready Bstate]] Eid Hfresh. injection Bfix as Est _ Eb Eeval Ejob _ _ Edep _ Ef Eq _.
  unfold computeJobAllocs. cbv zeta. rewrite Est, Eeval, Eid, (sv_allocs _ _ _ _ _ _ Hst).
  destruct (taintedNodes_spec st allocs ∅) as (taint & -> & Htaint).
  { intros a Ha. destruct (sv_lookup _ _ _ _ _ _ Hst a Ha) as (node & E & Hn). exists node. split; [done|].
    intros n En. by destruct (Hn n En) as (_ & _ & ?). }
  cbn [mbind option_bind].
  assert (∀ nodeID, taint !! nodeID = if decide (nodeID ∈ al_NodeID <$> allocs) then
    match sc_NodeByID st nodeID with inr node => SchedUtilSpec.taintOf node | inl _ => None end else None) as Ht by exact Htaint.
  set (s1 := changePlan _ s). change (gn_batch s1) with (gn_batch s). rewrite Eb.
  pose proof filterCompleteAllocs_live as Hlive. destruct (filterCompleteAllocs rangeNames false allocs) as [live terminal].
  cbn [fst] in Hlive.
  destruct (updateNonTerminalAllocsToLost_stops taint allocs (planOf s)) as (gone & [M1 M2 M3 _ M4] & Hgone).
  change (updateNonTerminalAllocsToLost (planOf s) taint allocs) with (planOf s1) in M1, M2, M3, M4.
  assert (plan_wf (planOf s1)) as Hwf.
  { change (planOf s1) with (updateNonTerminalAllocsToLost (planOf s) taint allocs). apply lost_wf. rewrite Bplan. by intros n l. }
  assert (is_Some (pl_Job (planOf s1))) as Hj by (rewrite M4; rewrite Bplan; by eexists).
  assert (calm job known st (planOf s1) (Some (gn_clock s1, gn_stack s1))) as Hcalm.
  { exists (gn_clock s1), (gn_stack s1). split; [done|]. split; [by apply ready_plan|]. by split. }
  change (gn_job s1) with (gn_job s). change (gn_deployment s1) with (gn_deployment s). rewrite Ejob, Edep.
  change (gn_eval s1) with (gn_eval s). rewrite Eeval.
  destruct (Compute_job rangeSet rangeSet_perm rangeMatrix rangeMatrix_perm (updateFn elapsed (ev_ID (gn_eval s0))) (uuid (gn_uuids s1))
    (calm job known st (planOf s1)) (fair (ev_ID (gn_eval s0))) id job deployment live taint)
    with (u := Some (gn_clock s1, gn_stack s1)) (batch := false)
    as (results & u' & kept & renewed & -> & Hu' & Hrec).
  - eapply allocs_ok_perm; [symmetry; exact Hlive|]. apply Hst.
  - eapply steady_perm; [symmetry; exact Hlive|]. apply Hst.
  - intros x. rewrite Hlive. intros Hx%live_in. by apply Hfresh.
  - intros tg Htg. pose proof (sv_names _ _ _ _ _ _ Hst) as Hnd. eapply updateFn_fair; try done.
    { by split; [|apply (sv_groups _ _ _ _ _ _ Hst)]. }
    intros a [Eg Ha]%list_elem_of_filter. rewrite Hlive in Ha.
    pose proof (LookupTaskGroup_own job Hnd tg Htg) as Hlk. rewrite <- Eg in Hlk.
    destruct (sv_version _ _ _ _ _ _ Hst a tg Ha Hlk) as (ej & old & E1 & E2 & E3). exists ej, old. split_and!; try done.
    intros n En. destruct (sv_lookup _ _ _ _ _ _ Hst a (live_in a Ha)) as (node & E & Hn).
    assert (node = Some n) as -> by congruence. by destruct (Hn n eq_refl).
  - done.
  - unfold Stopped. apply Hst.
  - cbn [mbind option_bind]. destruct Hu' as (clock & stack & -> & Hstack & Ec & Ep). cbn [mbind option_bind fst snd].
    set (s2 := s1 <| gn_clock := clock |> <| gn_stack := stack |> <| gn_uuids ::= S |>).
    destruct (applyResults_service (ev_ID (gn_eval s0)) live taint results kept renewed gone s2)
      as (s' & renewals & placed & failed & E & Hfix & Hr & Hatt).
    + assert (planOf s2 = planOf s1) as Epl by exact Ep.
      split; [|by split|by split|done| | |done|done|].
      * split; [done|]. split; [done|]. change (gn_eval s2) with (gn_eval s). by rewrite Eeval.
      * intros a. by eapply down_lost.
      * intros a. by eapply unlost_node.
      * rewrite Epl. split_and!.
        { intros n. rewrite M1, Bplan. done. }
        { intros n u [Hu|?]%M2; [|done]. rewrite Bplan in Hu. by apply elem_of_nil in Hu. }
        { intros n. unfold allocsOf. by rewrite M3, Bplan. }
    + exists s', (as_alloc <$> rr_stop results), kept, renewed, renewals, placed, failed. by split_and!.
Qed.
End state.

(** ** The attempts of an evaluation *)

(** The planner: it commits progress only so often, the states it hands out are those of a
    service job, and a plan it accepts without a new state has a result. *)
Record plannerServes (id : string) (budget : W → nat) : Prop := {
  pv_submit : ∀ w p result newState err w', SubmitPlan w p = (result, newState, err, w') →
    (budget w' ≤ budget w)%nat ∧ (progressMade result = true → (budget w' < budget w)%nat) ∧
    (∀ st, newState = Some st → ∃ job deployment nodes allocs, serviceState st id job deployment nodes allocs ∧ fresh allocs) ∧
    (err = None → newState = None → is_Some result);
  pv_create : ∀ w e, (budget (CreateEval w e).2 ≤ budget w)%nat
}.

Record serviceable (id : string) s : Prop := {
  sb_state : ∃ job deployment nodes allocs, serviceState (gn_state s) id job deployment nodes allocs ∧ fresh allocs;
  sb_eval : ev_JobID (gn_eval s) = id;
  sb_batch : gn_batch s = false;
  sb_pool : pool_ok (gs_pool (gn_stack s))
}.

(** The parts that decide how an evaluation goes on. *)
Definition course s := (gn_state s, gn_batch s, gn_eval s, gn_stack s).

Lemma blockFailed_course s : course (blockFailed uuid s).2 = course s ∧
  (gn_planner (blockFailed uuid s).2 = gn_planner s ∨ ∃ e, gn_planner (blockFailed uuid s).2 = (CreateEval (gn_planner s) e).2).
Proof.
  unfold blockFailed. destruct (_ && _ && _); [|by split; [|left]]. unfold createBlockedEval. cbv zeta.
  match goal with |- context [CreateEval (gn_planner s) ?b] => set (e := b) end.
  destruct (CreateEval (gn_planner s) e) as [err w] eqn:E. split; [done|]. right. exists e. by rewrite E.
Qed.

Lemma followUp_course s : course (followUp uuid s).2 = course s ∧
  (gn_planner (followUp uuid s).2 = gn_planner s ∨ ∃ e, gn_planner (followUp uuid s).2 = (CreateEval (gn_planner s) e).2).
Proof.
  unfold followUp. destruct (_ && _); [|by split; [|left]]. cbv zeta.
  match goal with |- context [CreateEval (gn_planner s) ?b] => set (e := b) end.
  destruct (CreateEval (gn_planner s) e) as [err w] eqn:E. split; [done|]. right. exists e. by rewrite E.
Qed.

Lemma submit_service id budget s :
  plannerServes id budget → serviceable id s →
  ∃ r s', submit s = Some (r, s') ∧ (budget (gn_planner s') ≤ budget (gn_planner s))%nat ∧
    (progressMade (gn_planResult s') = true → (budget (gn_planner s') < budget (gn_planner s))%nat) ∧ serviceable id s'.
Proof.
  intros [Hsub _] [Hst Hev Hb Hpool]. unfold submit.
  destruct (SubmitPlan (gn_planner s) (planOf s)) as [[[result newState] err] w] eqn:E.
  destruct (Hsub _ _ _ _ _ _ E) as (Hle & Hlt & Hns & Hres). destruct err as [err|].
  { eexists _, _. split; [done|]. by split_and!. }
  destruct newState as [st|].
  { eexists _, _. split; [done|]. split_and!; [done..|]. split; [by apply Hns|done..]. }
  destruct (Hres eq_refl eq_refl) as [r ->]. cbn [committed mbind option_bind].
  destruct (FullCommit r _).1.1; eexists _, _; (split; [done|]; by split_and!).
Qed.

Lemma process_service id budget s :
  plannerServes id budget → serviceable id s →
  ∃ r s', process rangeNames rangeSet rangeMatrix uuid elapsed shareDeployment s = Some (r, s') ∧
    (r = inr false → serviceable id s' ∧ (budget (gn_planner s') ≤ budget (gn_planner s))%nat ∧
       (progressMade (gn_planResult s') = true → (budget (gn_planner s') < budget (gn_planner s))%nat)).
Proof.
  intros Hp [(job & deployment & nodes & allocs & Hst & Hfresh) Hev Hb Hpool]. unfold process.
  destruct (beginAttempt_service _ _ _ _ _ _ Hst s eq_refl Hev Hb Hpool) as (s1 & -> & Hbeg).
  destruct (computeJobAllocs_service _ _ _ _ _ _ Hst s s1 Hbeg Hev Hfresh)
    as (s2 & stopped & kept & renewed & renewals & placed & failed & -> & Hfix & Hr & _). cbn [mbind option_bind].
  destruct Hbeg as [Bfix _ _]. injection Bfix as E1 E2 E3 E4 _ _ _ _ _ _ _ _. unfold fixed in Hfix. injection Hfix as F1 F2 F3 F4 _ _ _ _.
  destruct (blockFailed_course s2) as [C1 C2]. destruct (blockFailed uuid s2) as [err s3]. simpl in C1, C2.
  destruct err as [err|]; [by eexists _, _|]. destruct (PlanIsNoOp (planOf s3) && _); [by eexists _, _|].
  destruct (followUp_course s3) as [D1 D2]. destruct (followUp uuid s3) as [err s4]. simpl in D1, D2.
  destruct err as [err|]; [by eexists _, _|].
  unfold course in C1, D1. injection C1 as C11 C12 C13 C14. injection D1 as D11 D12 D13 D14.
  destruct (submit_service id budget s4 Hp) as (r & s5 & -> & Hle & Hlt & Hat).
  { split; [|congruence|congruence|].
    - exists job, deployment, nodes, allocs. by rewrite D11, C11, F1, E1.
    - rewrite D14, C14. apply (in_pool _ _ _ (rd_inv _ _ _ Hr)). }
  assert (budget (gn_planner s3) ≤ budget (gn_planner s))%nat as B3.
  { rewrite <- E2, <- F2. destruct C2 as [->|[e ->]]; [done|]. apply (pv_create id budget Hp). }
  assert (budget (gn_planner s4) ≤ budget (gn_planner s3))%nat as B4.
  { destruct D2 as [->|[e ->]]; [done|]. apply (pv_create id budget Hp). }
  exists r, s5. split; [done|]. intros _. split; [done|]. split; [lia|]. intros Hpr. specialize (Hlt Hpr). lia.
Qed.
End attempt.
