(* ===== verification/GenericLog.v ===== *)
(** * What the generic scheduler asks of its planner

    The calls of an evaluation, logged: whatever the state, an evaluation that ends without
    an error has been blocked again or updated, and what it could not place is left to a
    blocked evaluation. *)

From stdpp Require Import base gmap strings list.
From Stdlib Require Import ZArith Lia.
From S2P Require Import Prelude GoText GoHeap Bitmap Structs Resources Jobs Allocs Network NetworkAssign Fit Plans AllocSets Reconcile SchedContext Feasible Stack SchedUtil GenericSched.
Open Scope string_scope.
Open Scope list_scope.
Open Scope Z_scope.

(** ** The retries keep an invariant *)

Lemma retryLoop_invariant {S} (cb : S → option ((string + bool) * S)) (reset : S → bool) (I Q : S → Prop) (max : Z) fuel : ∀ attempts s res s',
  (∀ s r s', I s → cb s = Some (r, s') → match r with inl _ => True | inr b => I s' ∧ (b = true → Q s') end) →
  I s → retryLoop fuel max attempts cb reset s = Some (res, s') →
  match res with RetryDone => I s' ∧ Q s' | RetryExhausted => I s' | RetryError _ => True end.
Proof.
  induction fuel as [|fuel IH]; intros attempts s res s' Hcb Hs; cbn [retryLoop]; [done|].
  destruct (attempts <? max); [|by intros [= <- <-]].
  destruct (cb s) as [[r s1]|] eqn:E; cbn [mbind option_bind]; [|done]. specialize (Hcb s r s1 Hs E) as Hr.
  destruct r as [err|[]]; [by intros [= <- <-]| |].
  - intros [= <- <-]. destruct Hr. auto.
  - destruct Hr as [Hs1 _]. intros E'. by eapply IH.
Qed.

Section frames.
Context `{TextLibs} `{StackLibs} `{Planner W}.
Context (rangeNames : gmap string Allocation → list (string * Allocation)).
Context (rangeSet : allocSet → list (string * Allocation)) (rangeMatrix : allocMatrix → list (string * allocSet)).
Context (uuid : nat → string) (elapsed : nat → Z) (shareDeployment : W → Deployment → W).
Context (R : relation W) `{!PreOrder R} (R_share : ∀ w d, R w (shareDeployment w d)).
Implicit Type s : GenericScheduler W.

(** Before an attempt has computed the allocations, it does not touch the evaluation and
    its blocked evaluation, and changes the planner only where it shares a deployment. *)
Definition kin s s' : Prop :=
  gn_eval s' = gn_eval s ∧ gn_blocked s' = gn_blocked s ∧ R (gn_planner s) (gn_planner s').

Lemma kin_refl s : kin s s.
Proof. done. Qed.
Lemma kin_trans a b c : kin a b → kin b c → kin a c.
Proof. intros (A1 & A2 & A3) (B1 & B2 & B3). split; [congruence|]. split; [congruence|]. by etrans. Qed.

Lemma addCanary_kin g id s s' : addCanary shareDeployment g id s = Some s' → kin s s'.
Proof.
  unfold addCanary. destruct (gn_deployment s) as [d|]; cbn [mbind option_bind]; [|done].
  destruct (d_TaskGroups d !! g); [|by intros [= <-]]. cbv zeta. intros [= <-].
  destruct (pl_Deployment _); [done|]. destruct (gn_batch _); [done|]. split; [done|]. split; [done|]. apply R_share.
Qed.

Lemma placeMissing_kin job byDC dep missing s s' :
  placeMissing uuid elapsed shareDeployment job byDC dep missing s = Some s' → kin s s'.
Proof.
  unfold placeMissing. cbv zeta. destruct (gn_failedTGAllocs s !! _); [by intros [= <-]|].
  destruct (findPreferredNode s missing) as [pref|]; cbn [mbind option_bind]; [|done].
  destruct (match pref with Some node => _ | None => _ end) as [[[opt sz] stack]|]; cbn [mbind option_bind]; [|done].
  destruct opt as [opt|]; [|by intros [= <-]].
  destruct (tg_EphemeralDisk _) as [disk|]; cbn [mbind option_bind]; [|done].
  destruct (ap_canary missing); [|by intros [= <-]].
  set (s1 := _ <| gn_uuids ::= S |>). destruct (addCanary shareDeployment _ _ s1) as [s2|] eqn:E; cbn [mbind option_bind]; [|done].
  intros [= <-]. apply addCanary_kin in E. eapply kin_trans; [|eapply kin_trans; [exact E|done]]. done.
Qed.

Lemma placeAllMissing_kin job byDC dep place : ∀ s s',
  placeAllMissing uuid elapsed shareDeployment job byDC dep place s = Some s' → kin s s'.
Proof.
  induction place as [|m place IH]; intros s s'; cbn [placeAllMissing]; [by intros [= <-]|].
  destruct (placeMissing _ _ _ _ _ _ m s) as [s1|] eqn:E; cbn [mbind option_bind]; [|done].
  intros E'. eapply kin_trans; [by eapply placeMissing_kin|by apply IH].
Qed.

Lemma computePlacements_kin place s err s' : computePlacements uuid elapsed shareDeployment place s = Some (err, s') → kin s s'.
Proof.
  unfold computePlacements. destruct (gn_job s) as [job|]; cbn [mbind option_bind]; [|done].
  destruct (readyNodesInDCs _ _) as [e|[nodes byDC]]; [by intros [= <- <-]|].
  destruct (placeAllMissing _ _ _ _ _ _ _ _) as [s1|] eqn:E; cbn [mbind option_bind]; [|done]. intros [= <- <-].
  apply placeAllMissing_kin in E. eapply kin_trans; [|exact E]. done.
Qed.

Lemma applyResults_kin results s err s' : applyResults uuid elapsed shareDeployment results s = Some (err, s') → kin s s'.
Proof.
  unfold applyResults. cbv zeta. set (sa := if ev_AnnotatePlan (gn_eval s) then _ else s).
  set (sb := changePlan _ sa). set (sc := sb <| gn_followupEvalWait := _ |>).
  set (sd := match rr_deployment results with Some d => _ | None => _ end). set (se := changePlan (stopResults _) sd).
  assert (kin s se) as Hse by (unfold se, sd, sc, sb, sa; destruct (rr_deployment results), (ev_AnnotatePlan (gn_eval s)); done).
  destruct (updateResults _ _ _) as [p|]; cbn [mbind option_bind]; [|done].
  destruct (_ =? _)%nat; [intros [= <- <-]; by eapply kin_trans|]. intros E%computePlacements_kin.
  eapply kin_trans; [exact Hse|]. eapply kin_trans; [|exact E]. done.
Qed.

Lemma computeJobAllocs_kin s err s' :
  computeJobAllocs rangeNames rangeSet rangeMatrix uuid elapsed shareDeployment s = Some (err, s') → kin s s'.
Proof.
  unfold computeJobAllocs. cbv zeta. destruct (sc_AllocsByJob _ _ _) as [e|allocs]; [by intros [= <- <-]|].
  destruct (taintedNodes _ _ _) as [[e|tainted]|]; cbn [mbind option_bind]; [by intros [= <- <-]| |done].
  destruct (filterCompleteAllocs _ _ _) as [live terminal].
  destruct (Compute_ _ _ _ _ _) as [[results [u|]]|]; cbn [mbind option_bind]; [|done..].
  intros E%applyResults_kin. eapply kin_trans; [|exact E]. done.
Qed.

Lemma beginAttempt_kin s err s' : beginAttempt s = (err, s') → kin s s'.
Proof.
  unfold beginAttempt. cbv zeta. destruct (sc_JobByID _ _) as [e|job]; [by intros [= <- <-]|].
  destruct (if gn_batch _ then _ else _) as [e|d]; [by intros [= <- <-]|]. by intros [= <- <-].
Qed.
End frames.

(** ** The log *)

Inductive plannerCall :=
  | CallSubmit (p : Plan)
  | CallUpdate (e : Evaluation)
  | CallCreate (e : Evaluation)
  | CallReblock (e : Evaluation).

(** A call, and the error it was answered with. *)
Definition logEntry : Type := plannerCall * option string.

Section log.
Context `{TextLibs} `{StackLibs} `{Planner W}.

(** The planner [W] with a log. *)
#[export] Instance loggedPlanner : Planner (W * list logEntry) := {
  SubmitPlan w p := let '(r, st, err, w') := SubmitPlan w.1 p in (r, st, err, (w', w.2 ++ [(CallSubmit p, err)]));
  UpdateEval w e := let '(err, w') := UpdateEval w.1 e in (err, (w', w.2 ++ [(CallUpdate e, err)]));
  CreateEval w e := let '(err, w') := CreateEval w.1 e in (err, (w', w.2 ++ [(CallCreate e, err)]));
  ReblockEval w e := let '(err, w') := ReblockEval w.1 e in (err, (w', w.2 ++ [(CallReblock e, err)]))
}.
Definition loggedShare (share : W → Deployment → W) (w : W * list logEntry) (d : Deployment) : W * list logEntry := (share w.1 d, w.2).

Context (rangeNames : gmap string Allocation → list (string * Allocation)).
Context (rangeSet : allocSet → list (string * Allocation)) (rangeMatrix : allocMatrix → list (string * allocSet)).
Context (uuid : nat → string) (elapsed : nat → Z) (share : W → Deployment → W).
Context (eval : Evaluation).
Implicit Type s : GenericScheduler (W * list logEntry).

(** A blocked evaluation that takes over from [eval]. *)
Definition takesOver (b : Evaluation) : Prop :=
  ev_Status b = EvalStatusBlocked ∧ ev_PreviousEval b = ev_ID eval ∧ ev_JobID b = ev_JobID eval ∧ ev_Type b = ev_Type eval.

(** The evaluation is the one that is processed, and its blocked evaluation has been
    created. *)
Definition tracked s : Prop :=
  gn_eval s = eval ∧ ∀ b, gn_blocked s = Some b → (CallCreate b, None) ∈ (gn_planner s).2 ∧ takesOver b.

(** The log is the same. *)
Definition sameLog (w w' : W * list logEntry) : Prop := w'.2 = w.2.
#[local] Instance sameLog_preorder : PreOrder sameLog.
Proof. split; [done|]. intros a b c. unfold sameLog. congruence. Qed.

Lemma tracked_kin s s' : kin sameLog s s' → tracked s → tracked s'.
Proof. intros (E1 & E2 & E3) [Te Tb]. split; [congruence|]. rewrite E2, E3. done. Qed.

Lemma tracked_log s s' l : gn_eval s' = gn_eval s → gn_blocked s' = gn_blocked s → (gn_planner s').2 = (gn_planner s).2 ++ l →
  tracked s → tracked s'.
Proof.
  intros E1 E2 E3 [Te Tb]. split; [congruence|]. intros b. rewrite E2, E3. intros [Hb Ht]%Tb. split; [apply elem_of_app; by left|done].
Qed.

Lemma createBlockedEval_tracked failure s s' :
  gn_eval s = eval → createBlockedEval uuid failure s = (None, s') → tracked s' ∧ is_Some (gn_blocked s').
Proof.
  intros Ee. unfold createBlockedEval. cbv zeta. set (b := if failure then _ else _). simpl.
  destruct (CreateEval (gn_planner s).1 b) as [err w]. intros [= -> <-]. split; [|by eexists]. split; [done|].
  intros b' [= <-]. split; [apply elem_of_app; right; left|]. unfold takesOver. rewrite <- Ee. by destruct failure.
Qed.

(** When an attempt is done, what has failed is covered by a blocked evaluation. *)
Definition covered s : Prop :=
  gn_failedTGAllocs s ≠ ∅ → ev_Status eval ≠ EvalStatusBlocked → is_Some (gn_blocked s).

Lemma blockFailed_tracked s s' : tracked s → blockFailed uuid s = (None, s') → tracked s' ∧ covered s'.
Proof.
  intros Ht. unfold blockFailed. destruct (_ && _ && _) eqn:E.
  { intros E'%createBlockedEval_tracked; [|apply Ht]. destruct E' as [? ?]. split; [done|]. by intros _ _. }
  intros [= <-]. split; [done|]. intros Hf Hs. destruct Ht as [Te _]. rewrite Te in E.
  apply andb_false_iff in E as [[E|E]%andb_false_iff|E].
  - by apply bool_decide_eq_false_1 in E.
  - apply negb_false_iff, Nat.eqb_eq in E. by apply map_size_empty_inv in E.
  - apply bool_decide_eq_false_1 in E. by destruct (gn_blocked s); [eexists|].
Qed.

Lemma followUp_tracked s s' : tracked s → covered s → followUp uuid s = (None, s') → tracked s' ∧ covered s'.
Proof.
  intros Ht Hc. unfold followUp. destruct (_ && _); [|by intros [= <-]]. cbv zeta. set (next := NextRollingEval _ _ _). simpl.
  destruct (CreateEval (gn_planner s).1 next) as [err w]. intros [= -> <-]. split; [|exact Hc].
  by apply (tracked_log s _ [(CallCreate next, None)]).
Qed.

Lemma submit_tracked s r s' : tracked s → covered s → submit s = Some (r, s') → tracked s' ∧ covered s'.
Proof.
  intros Ht Hc. unfold submit. simpl. destruct (SubmitPlan (gn_planner s).1 (planOf s)) as [[[result newState] err] w].
  destruct err as [err|]; [intros [= <- <-]; split; [eapply (tracked_log s); [reflexivity..|exact Ht]|exact Hc]|].
  destruct newState as [st|]; [intros [= <- <-]; split; [eapply (tracked_log s); [reflexivity..|exact Ht]|exact Hc]|].
  destruct (committed result _) as [[]|]; cbn [mbind option_bind]; [intros [= <- <-]; split; [eapply (tracked_log s); [reflexivity..|exact Ht]|exact Hc]..|done].
Qed.

Lemma process_tracked s r s' :
  tracked s → process rangeNames rangeSet rangeMatrix uuid elapsed (loggedShare share) s = Some (r, s') →
  match r with inl _ => True | inr b => tracked s' ∧ (b = true → covered s') end.
Proof.
  intros Ht. unfold process. destruct (beginAttempt s) as [err s1] eqn:E1.
  apply (beginAttempt_kin sameLog) in E1. destruct err as [err|]; [by intros [= <- <-]|].
  destruct (computeJobAllocs _ _ _ _ _ _ s1) as [[err s2]|] eqn:E2; cbn [mbind option_bind]; [|done].
  apply (computeJobAllocs_kin _ _ _ _ _ _ sameLog) in E2; [|done]. destruct err as [err|]; [by intros [= <- <-]|].
  assert (tracked s2) as H2 by (eapply tracked_kin; [exact E2|]; by eapply tracked_kin).
  destruct (blockFailed uuid s2) as [err s3] eqn:E3. destruct err as [err|]; [by intros [= <- <-]|].
  destruct (blockFailed_tracked _ _ H2 E3) as [H3 C3].
  destruct (PlanIsNoOp _ && _); [by intros [= <- <-]|].
  destruct (followUp uuid s3) as [err s4] eqn:E4. destruct err as [err|]; [by intros [= <- <-]|].
  destruct (followUp_tracked _ _ H3 C3 E4) as [H4 C4]. intros E5. destruct (submit_tracked _ _ _ H4 C4 E5) as [H5 C5].
  destruct r; [done|]. by split.
Qed.

(** ** The end of an evaluation *)

Definition blockedLeft (e : Evaluation) (calls : list logEntry) : Prop :=
  ∃ b, (CallCreate b, None) ∈ calls ∧ ev_BlockedEval e = ev_ID b ∧ takesOver b.

(** The last call blocks the evaluation again, or updates it with what has failed: if
    something has, or the attempts were used up, a blocked evaluation has been created. *)
Definition concluded (calls : list logEntry) : Prop :=
  (∃ e, last calls = Some (CallReblock e, None) ∧ ev_ID e = ev_ID eval ∧ ev_Status e = EvalStatusBlocked) ∨
  (∃ e, last calls = Some (CallUpdate e, None) ∧ ev_ID e = ev_ID eval ∧
     (ev_FailedTGAllocs e ≠ ∅ ∨ handles (ev_TriggeredBy eval) = true ∧ ev_Status e = EvalStatusFailed → blockedLeft e calls)).

(** The evaluation as [setStatus] updates it. *)
Lemma finish_call status desc s s' :
  finish status desc s = (None, s') →
  ∃ e, (gn_planner s').2 = (gn_planner s).2 ++ [(CallUpdate e, None)] ∧ ev_ID e = ev_ID (gn_eval s) ∧ ev_Status e = status ∧
    ev_FailedTGAllocs e = gn_failedTGAllocs s ∧ ∀ b, gn_blocked s = Some b → ev_BlockedEval e = ev_ID b.
Proof.
  unfold finish, setStatus. cbv zeta. set (e := match gn_queuedAllocs s with Some _ => _ | None => _ end).
  simpl. destruct (UpdateEval (gn_planner s).1 e) as [err w]. intros [= -> <-]. exists e. split; [done|].
  unfold e. destruct (gn_queuedAllocs s), (gn_nextEval s), (gn_blocked s); split_and!; try done; by intros b [= <-].
Qed.

Lemma finish_concluded status desc s s' :
  tracked s → finish status desc s = (None, s') → gn_eval s = eval →
  (gn_failedTGAllocs s ≠ ∅ ∨ handles (ev_TriggeredBy eval) = true ∧ status = EvalStatusFailed → is_Some (gn_blocked s)) →
  concluded (gn_planner s').2.
Proof.
  intros Ht E Ee Hc. destruct (finish_call _ _ _ _ E) as (e & Ecalls & E1 & E2 & E3 & E4). right. exists e.
  rewrite Ecalls. split; [by rewrite last_snoc|]. split; [by rewrite E1, Ee|]. rewrite E3, E2. intros [b Hb]%Hc.
  exists b. destruct Ht as [_ Ht]. destruct (Ht b Hb). split; [apply elem_of_app; by left|]. by rewrite (E4 b Hb).
Qed.

Lemma Process_concluded batch state w rand pool fuel s' :
  Process rangeNames rangeSet rangeMatrix uuid elapsed (loggedShare share) fuel eval
    (newGenericScheduler batch state (w, []) rand pool) = Some (None, s') → concluded (gn_planner s').2.
Proof.
  unfold Process. cbv zeta. set (s0 := _ <| gn_eval := eval |>). assert (tracked s0) as Hs0 by done.
  destruct (handles (ev_TriggeredBy eval)) eqn:Eh.
  2:{ destruct (finish _ _ s0) as [[err|] s1] eqn:E; [done|]. intros [= <-]. eapply finish_concluded; [done|exact E|done|].
      rewrite Eh. by intros [?|[? _]]. }
  destruct (retryMax _ _ _ _ s0) as [[res s1]|] eqn:E; cbn [mbind option_bind]; [|done].
  apply (retryLoop_invariant _ _ tracked covered) in E; [|apply process_tracked|done]. destruct res as [|err|]; [|done|].
  - destruct E as [Ht Hc]. destruct (conclude s1) as [[err|] s2] eqn:E; [done|]. intros [= <-]. unfold conclude in E.
    rewrite (proj1 Ht) in E. destruct (bool_decide _ && _) eqn:Eb.
    + simpl in E. set (e := eval <| ev_EscapedComputedClass := _ |> <| ev_ClassEligibility := _ |>) in E.
      destruct (ReblockEval (gn_planner s1).1 e) as [err w'] eqn:Er. injection E as -> <-. left. exists e. simpl.
      split; [by rewrite last_snoc|]. apply andb_true_iff in Eb as [Eb%bool_decide_eq_true _]. done.
    + eapply finish_concluded; [exact Ht|exact E|apply Ht|]. intros [Hf|[_ ?]]; [|done]. apply Hc; [done|].
      intros Hs. rewrite bool_decide_eq_true_2 in Eb by done. cbn [andb] in Eb. apply negb_false_iff, Nat.eqb_eq in Eb.
      by apply map_size_empty_inv in Eb.
  - destruct (giveUp uuid s1) as [err s2] eqn:Eg. intros [= -> <-]. unfold giveUp in Eg.
    destruct (createBlockedEval uuid true s1) as [err1 s3] eqn:E1. destruct (finish _ _ s3) as [err2 s4] eqn:E2.
    destruct err1, err2; simpl in Eg; try discriminate Eg. injection Eg as <-.
    destruct (createBlockedEval_tracked true s1 s3 (proj1 E) E1) as [Ht Hb]. by eapply finish_concluded; [|exact E2|apply Ht|].
Qed.
End log.
