(* ===== verification/GenericProps.v ===== *)
(** * The properties of the generic scheduler

    An attempt carries out what the reconciler decides and accounts for every placement,
    an evaluation ends, and what could not be placed is left to a blocked evaluation.  The
    last section has runs in which the scheduler does not do what it means to. *)

From stdpp Require Import base gmap strings list pretty.
From Stdlib Require Import ZArith Lia.
From S2P Require Import Prelude GoText GoHeap Bitmap Structs Resources Jobs Allocs Network NetworkAssign NetworkAssignProps Fit Plans AllocSets NameIndex Reconcile ReconcileSpec ReconcileGroup ReconcileJob SchedContext Feasible Stack StackSpec StackPack StackSelect StackProps SchedUtil SchedUtilSpec SystemSpec GenericSched GenericAttempt GenericLog.
Open Scope string_scope.
Open Scope list_scope.
Open Scope Z_scope.

(** Go ranges over all the entries of a map. *)
Record sets_ok (rangeSet : allocSet → list (string * Allocation)) (rangeMatrix : allocMatrix → list (string * allocSet)) : Prop := {
  so_set : ∀ s, rangeSet s ≡ₚ map_to_list s;
  so_matrix : ∀ m, rangeMatrix m ≡ₚ map_to_list m
}.

Section props.
Context `{TextLibs} `{StackLibs} `{Planner W}.



(** C37. Nothing that could not be placed is forgotten, for service and batch jobs, whatever
    the state and the answers of the planner.  When an evaluation ends without an error, its
    last call of the planner blocks it again, or updates it: if it reports groups that could
    not be placed, or it failed for having used up its attempts, a blocked evaluation of the
    same job has been created before, successor of this one, and the update refers to it. *)
Theorem failures_leave_blocked rangeNames rangeSet rangeMatrix uuid elapsed share eval batch state (w : W) rand pool fuel s' :
  Process rangeNames rangeSet rangeMatrix uuid elapsed (loggedShare share) fuel eval
    (newGenericScheduler batch state (w, []) rand pool) = Some (None, s') → concluded eval (gn_planner s').2.
Proof. apply Process_concluded. Qed.
End props.

(** ** A job on three nodes

    The job wants three allocations on distinct hosts; one runs on a, one is on a node that
    is gone, and c has no driver. *)

#[local] Existing Instance demoText.
#[local] Existing Instance demoLibs.

#[local] Instance commitAll : Planner nat := {
  SubmitPlan w p :=
    match w with
    | S n => (Some (mkPlanResult (pl_NodeUpdate p) (pl_NodeAllocation p) None [] 0 0), None, None, n)
    | O => (None, None, Some "no leader", O)
    end;
  UpdateEval w e := (None, w);
  CreateEval w e := (None, w);
  ReblockEval w e := (None, w)
}.

Definition shopJob : Job := webJob <| jb_TaskGroups := [webGroup <| tg_Count := 3 |>] |>.
Definition shopAlloc (id node : string) (i : Z) : Allocation :=
  runningWeb <| al_ID := id |> <| al_NodeID := node |> <| al_Name := AllocName "web" "web" i |> <| al_Job := Some shopJob |>
    <| al_TaskResources := Some {["server" := mkResources 500 256 0 0 []]} |>.
Definition shopAllocs : list Allocation := [shopAlloc "x" "a" 0; shopAlloc "y" "gone" 1].
Definition shopState : SchedState :=
  mkSchedState (inr demoNodes)
    (fun id => inr (if bool_decide (id = "a") then Some (execNode "a") else if bool_decide (id = "b") then Some (execNode "b")
                    else if bool_decide (id = "c") then Some bareNode else None))
    (fun _ => inr (Some shopJob))
    (fun id _ => inr (if bool_decide (id = "a") then [shopAlloc "x" "a" 0] else [])) (fun _ _ => inr shopAllocs) (fun _ => inr None).
Definition shopEval : Evaluation := zeroEvaluation <| ev_ID := "e" |> <| ev_JobID := "web" |> <| ev_TriggeredBy := EvalTriggerNodeUpdate |>.
Definition shopScheduler {W} `{Planner W} (w : W) : GenericScheduler W :=
  (NewServiceScheduler shopState w 0 []) <| gn_eval := shopEval |>.
Definition shopID (k : nat) : string := "id" +:+ pretty k.

Lemma shop_all (P : Allocation → Prop) : P (shopAlloc "x" "a" 0) → P (shopAlloc "y" "gone" 1) → ∀ a, a ∈ shopAllocs → P a.
Proof. intros Hx Hy a. unfold shopAllocs. rewrite !elem_of_cons, elem_of_nil. by intros [->|[->|[]]]. Qed.

Lemma shop_live : liveOf shopAllocs = shopAllocs.
Proof. vm_compute. reflexivity. Qed.

Lemma shop_names a : a ∈ shopAllocs → LookupTaskGroup shopJob (al_TaskGroup a) = Some (webGroup <| tg_Count := 3 |>).
Proof. revert a. by apply shop_all. Qed.

Lemma shop_service : serviceState demoNodes shopState "web" shopJob None demoNodes shopAllocs.
Proof.
  split; rewrite ?shop_live; try done.
  - apply shop_all; [exists (Some (execNode "a"))|exists None]; (split; [done|]); [|done]. intros n [= <-].
    split_and!; [unfold demoNodes; solve_in|done|done].
  - apply NoDup_singleton.
  - intros tg ->%list_elem_of_singleton. split; [by eexists|apply NoDup_singleton].
  - split.
    + apply (bool_decide_unpack (NoDup (al_ID <$> shopAllocs))). by vm_compute.
    + apply shop_all; by eexists.
    + intros x tg Hx E. rewrite (shop_names x Hx) in E. injection E as <-. revert x Hx. apply shop_all; (split; [vm_compute; reflexivity|]);
        (split; [|left]; by vm_compute).
    + intros x y Hx Hy _. revert x Hx y Hy. apply (shop_all (fun x => ∀ y, y ∈ shopAllocs → Index x = Index y → al_ID x = al_ID y));
        refine (shop_all _ _ _); try done; vm_compute; discriminate.
    + done.
    + intros tg ->%list_elem_of_singleton. vm_compute. split; [discriminate|done].
  - split; try done. by intros tg u ->%list_elem_of_singleton.
  - intros a tg Ha E. rewrite (shop_names a Ha) in E. injection E as <-. exists shopJob, (webGroup <| tg_Count := 3 |>). revert a Ha.
    apply shop_all; (split; [done|]); (split; [vm_compute; reflexivity|]); intros task ->%list_elem_of_singleton; by eexists.
  - intros a ej Ha. revert a Ha. by refine (shop_all _ _ _); intros [= <-].
Qed.

Lemma shop_fresh : fresh shopID shopAllocs.
Proof. intros k. by apply shop_all. Qed.

Lemma shop_sets : sets_ok map_to_list map_to_list.
Proof. done. Qed.


Lemma shop_planner : plannerServes demoNodes shopID "web" (fun w : nat => w).
Proof. split; [|done]. intros [|n] p result newState err w' [= <- <- <- <-]; simpl; split_and!; try done; lia. Qed.


(** The kind of a call, with the status of its evaluation. *)
Definition callKind (c : logEntry) : string * string :=
  match c.1 with
  | CallSubmit p => ("plan", "")
  | CallUpdate e => ("update", ev_Status e)
  | CallCreate e => ("create", ev_Status e)
  | CallReblock e => ("reblock", ev_Status e)
  end.

Lemma failures_leave_blocked_witness :
  ∃ s', Process map_to_list map_to_list map_to_list shopID (fun _ => 1) (loggedShare (fun w _ => w)) 30 shopEval
      (newGenericScheduler false shopState (3%nat, []) 0 []) = Some (None, s') ∧ concluded shopEval (gn_planner s').2 ∧
    callKind <$> (gn_planner s').2 = [("create", EvalStatusBlocked); ("plan", ""); ("update", EvalStatusComplete)].
Proof.
  assert (option_map (fun r => (r.1, callKind <$> (gn_planner r.2).2))
    (Process map_to_list map_to_list map_to_list shopID (fun _ => 1) (loggedShare (fun w _ => w)) 30 shopEval
      (newGenericScheduler false shopState (3%nat, []) 0 []))
    = Some (None, [("create", EvalStatusBlocked); ("plan", ""); ("update", EvalStatusComplete)])) as Hv by (vm_compute; reflexivity).
  destruct (Process _ _ _ _ _ _ _ _ _) as [[err s']|] eqn:E; [|discriminate Hv]. cbn [option_map fst snd] in Hv.
  injection Hv as -> Hp. exists s'. split; [reflexivity|]. split; [|exact Hp]. exact (failures_leave_blocked _ _ _ _ _ _ _ _ _ _ _ _ _ _ E).
Defined.
