(* ===== verification/PlanQueue.v ===== *)
(** * The plan queue (src/nomad/plan_queue.go)

    The leader's queue of plans that wait for the plan applier: a heap by priority
    and time, and for each plan a future that its submitter waits on.

    A [pendingPlan] is an address, with what never changes in the record and the
    result and the channel of capacity one in the store of the queue's futures.
    Every method holds the lock for its body, except [Dequeue], which is a scan
    under the lock followed by a wait, and [SetEnabled], which takes the lock twice;
    their parts are the steps of the transition system. *)

From stdpp Require Import base gmap strings list.
From Stdlib Require Import ZArith Lia.
From S2P Require Import Prelude GoHeap Structs Resources Jobs Allocs Plans.
Open Scope string_scope.
Open Scope list_scope.
Open Scope Z_scope.

Definition planQueueFlushed : string := "plan queue flushed".
Definition planQueueDisabled : string := "plan queue is disabled".

Record pendingPlan := mkPendingPlan {
  pp_addr : nat;
  pp_plan : Plan;
  pp_enqueueTime : Z
}.

(** [errCh] is the buffered error, nil or not. *)
Record planFuture := mkPlanFuture {
  pf_result : option PlanResult;
  pf_errCh : option (option string)
}.

Record PlanQueue := mkPlanQueue {
  pq_enabled : bool;
  pq_Depth : Z;
  pq_ready : list pendingPlan;
  pq_waitCh : bool;
  pq_futures : gmap nat planFuture;
  pq_next : nat
}.
#[export] Instance eta_PlanQueue : Eta PlanQueue := fun r =>
  mkPlanQueue (pq_enabled r) (pq_Depth r) (pq_ready r) (pq_waitCh r) (pq_futures r) (pq_next r).

Definition NewPlanQueue : PlanQueue := mkPlanQueue false 0 [] false ∅ 0.

(** [PendingPlans.Less] on two entries. *)
Definition planLess (x y : pendingPlan) : bool :=
  if negb (pl_Priority (pp_plan x) =? pl_Priority (pp_plan y))
  then negb (pl_Priority (pp_plan x) <? pl_Priority (pp_plan y))
  else pp_enqueueTime x <? pp_enqueueTime y.

(** [respond]: [None] when the channel is full, where the sender would block. *)
Definition respond (fs : gmap nat planFuture) (p : nat) (result : option PlanResult) (err : option string)
    : option (gmap nat planFuture) :=
  f ← fs !! p;
  match pf_errCh f with
  | Some _ => None
  | None => Some (<[p := mkPlanFuture result (Some err)]> fs)
  end.

(** [Wait]: [None] while there is nothing to receive.  The future is gone after its
    submitter received the answer. *)
Definition Wait (fs : gmap nat planFuture) (p : nat)
    : option (gmap nat planFuture * (option PlanResult * option string)) :=
  f ← fs !! p;
  err ← pf_errCh f;
  Some (delete p fs, (pf_result f, err)).

Definition Enqueue (q : PlanQueue) (plan : Plan) (now : Z) : PlanQueue * (string + nat) :=
  if negb (pq_enabled q) then (q, inl planQueueDisabled)
  else
    let p := pq_next q in
    (q <| pq_ready ::= push planLess (mkPendingPlan p plan now) |>
       <| pq_futures ::= <[p := mkPlanFuture None None]> |>
       <| pq_next ::= S |>
       <| pq_Depth ::= Z.add 1 |>
       <| pq_waitCh := true |>, inr p).

Inductive scanResult :=
  | ScanDisabled
  | ScanPlan (p : pendingPlan)
  | ScanWait.

(** The part of [Dequeue] under the lock. *)
Definition Dequeue (q : PlanQueue) : PlanQueue * scanResult :=
  if negb (pq_enabled q) then (q, ScanDisabled)
  else
    match pop planLess (pq_ready q) with
    | Some (p, ready) => (q <| pq_ready := ready |> <| pq_Depth ::= fun n => n - 1 |>, ScanPlan p)
    | None => (q, ScanWait)
    end.

(** The loop of [Flush] over the slice. *)
Fixpoint respondAll (fs : gmap nat planFuture) (l : list pendingPlan) : option (gmap nat planFuture) :=
  match l with
  | [] => Some fs
  | p :: l => fs ← respond fs (pp_addr p) None (Some planQueueFlushed); respondAll fs l
  end.

Definition PlanQueueFlush (q : PlanQueue) : option PlanQueue :=
  fs ← respondAll (pq_futures q) (pq_ready q);
  Some (q <| pq_futures := fs |> <| pq_Depth := 0 |> <| pq_ready := [] |> <| pq_waitCh := true |>).

Definition QueueStats (q : PlanQueue) : Z := pq_Depth q.

(** ** The queue, its consumer and the submitters *)

Inductive consumer := Idle | Waiting.

(** [flushes] counts the calls of [SetEnabled(false)] between their two parts;
    [held] are the plans that the applier dequeued and has not answered. *)
Record planSystem := mkPlanSystem {
  py_queue : PlanQueue;
  py_consumer : consumer;
  py_held : list pendingPlan;
  py_flushes : nat
}.

Inductive pq_step (s : planSystem) : planSystem → Prop :=
  | PEnqueue plan now q r :
      Enqueue (py_queue s) plan now = (q, r) →
      pq_step s (mkPlanSystem q (py_consumer s) (py_held s) (py_flushes s))
  | PScanDisabled q :
      py_consumer s = Idle → Dequeue (py_queue s) = (q, ScanDisabled) →
      pq_step s (mkPlanSystem q Idle (py_held s) (py_flushes s))
  | PScanPlan q p :
      py_consumer s = Idle → Dequeue (py_queue s) = (q, ScanPlan p) →
      pq_step s (mkPlanSystem q Idle (p :: py_held s) (py_flushes s))
  | PScanWait q :
      py_consumer s = Idle → Dequeue (py_queue s) = (q, ScanWait) →
      pq_step s (mkPlanSystem q Waiting (py_held s) (py_flushes s))
  | PWake :
      py_consumer s = Waiting → pq_waitCh (py_queue s) = true →
      pq_step s (mkPlanSystem ((py_queue s) <| pq_waitCh := false |>) Idle (py_held s) (py_flushes s))
  | PTimeout :
      py_consumer s = Waiting →
      pq_step s (mkPlanSystem (py_queue s) Idle (py_held s) (py_flushes s))
  | PRespond p held result err fs :
      py_held s ≡ₚ p :: held → respond (pq_futures (py_queue s)) (pp_addr p) result err = Some fs →
      pq_step s (mkPlanSystem ((py_queue s) <| pq_futures := fs |>) (py_consumer s) held (py_flushes s))
  | PWait p fs r :
      Wait (pq_futures (py_queue s)) p = Some (fs, r) →
      pq_step s (mkPlanSystem ((py_queue s) <| pq_futures := fs |>) (py_consumer s) (py_held s) (py_flushes s))
  | PEnable :
      pq_step s (mkPlanSystem ((py_queue s) <| pq_enabled := true |>) (py_consumer s) (py_held s) (py_flushes s))
  | PDisable :
      pq_step s (mkPlanSystem ((py_queue s) <| pq_enabled := false |>) (py_consumer s) (py_held s) (S (py_flushes s)))
  | PFlush q n :
      py_flushes s = S n → PlanQueueFlush (py_queue s) = Some q →
      pq_step s (mkPlanSystem q (py_consumer s) (py_held s) n).

Definition pq_reachable : planSystem → Prop :=
  rtc pq_step (mkPlanSystem NewPlanQueue Idle [] 0).

(** ** The invariant *)

(** The plans whose submitters wait: in the queue or with the applier. *)
Definition open_plans (s : planSystem) : list nat := pp_addr <$> pq_ready (py_queue s) ++ py_held s.

Record PInv (s : planSystem) : Prop := {
  pi_heap : is_heap planLess (pq_ready (py_queue s));
  pi_depth : pq_Depth (py_queue s) = Z.of_nat (length (pq_ready (py_queue s)));
  pi_distinct : NoDup (open_plans s);
  pi_fresh : ∀ p, p ∈ open_plans s → (p < pq_next (py_queue s))%nat;
  pi_futures : ∀ p f, pq_futures (py_queue s) !! p = Some f → (p < pq_next (py_queue s))%nat ∧ (pf_errCh f = None → p ∈ open_plans s);
  pi_open : ∀ p, p ∈ open_plans s → pq_futures (py_queue s) !! p = Some (mkPlanFuture None None);
  pi_wake : py_consumer s = Waiting → pq_waitCh (py_queue s) = false →
    pq_ready (py_queue s) = [] ∧ (pq_enabled (py_queue s) = true ∨ py_flushes s ≠ 0%nat)
}.

Lemma planLess_ordered l : ordered_on planLess l.
Proof.
  split.
  - intros x y _ _. unfold planLess. rewrite (Z.eqb_sym (pl_Priority (pp_plan y))).
    destruct (Z.eqb_spec (pl_Priority (pp_plan x)) (pl_Priority (pp_plan y))); simpl; rewrite ?negb_true_iff, ?negb_false_iff, ?Z.ltb_lt, ?Z.ltb_ge; lia.
  - intros x y z _ _ _. unfold le, planLess.
    destruct (Z.eqb_spec (pl_Priority (pp_plan y)) (pl_Priority (pp_plan x))), (Z.eqb_spec (pl_Priority (pp_plan z)) (pl_Priority (pp_plan y))),
      (Z.eqb_spec (pl_Priority (pp_plan z)) (pl_Priority (pp_plan x))); simpl;
      rewrite ?negb_false_iff, ?Z.ltb_lt, ?Z.ltb_ge; lia.
Qed.

Lemma respond_open fs p result err :
  fs !! p = Some (mkPlanFuture None None) → respond fs p result err = Some (<[p := mkPlanFuture result (Some err)]> fs).
Proof. intros H. unfold respond. by rewrite H. Qed.

Lemma respondAll_spec l : ∀ fs,
  NoDup (pp_addr <$> l) → (∀ p, p ∈ pp_addr <$> l → fs !! p = Some (mkPlanFuture None None)) →
  ∃ fs', respondAll fs l = Some fs' ∧
    (∀ p, p ∈ pp_addr <$> l → fs' !! p = Some (mkPlanFuture None (Some (Some planQueueFlushed)))) ∧
    (∀ p, p ∉ pp_addr <$> l → fs' !! p = fs !! p).
Proof.
  induction l as [|x l IH]; intros fs Hnd Hopen; [exists fs; split_and!; [done|by intros ? ?%not_elem_of_nil|done]|].
  cbn [respondAll fmap list_fmap] in *. apply NoDup_cons in Hnd as [Hx Hnd]. rewrite respond_open by (apply Hopen; left).
  cbn [mbind option_bind]. destruct (IH (<[pp_addr x := mkPlanFuture None (Some (Some planQueueFlushed))]> fs) Hnd)
    as (fs' & E & H1 & H2).
  { intros p Hp. rewrite lookup_insert_ne by (by intros <-). apply Hopen. by right. }
  exists fs'. split_and!; [done| |].
  - intros p [->|Hp]%elem_of_cons; [|by apply H1]. rewrite H2 by done. by rewrite lookup_insert_eq.
  - intros p [Hne Hp]%not_elem_of_cons. rewrite H2 by done. by rewrite lookup_insert_ne.
Qed.

Lemma flush_spec s :
  PInv s → ∃ q, PlanQueueFlush (py_queue s) = Some q ∧ pq_ready q = [] ∧ pq_Depth q = 0 ∧ pq_waitCh q = true ∧
    pq_enabled q = pq_enabled (py_queue s) ∧ pq_next q = pq_next (py_queue s) ∧
    (∀ p, p ∈ pp_addr <$> pq_ready (py_queue s) → pq_futures q !! p = Some (mkPlanFuture None (Some (Some planQueueFlushed)))) ∧
    (∀ p, p ∉ pp_addr <$> pq_ready (py_queue s) → pq_futures q !! p = pq_futures (py_queue s) !! p).
Proof.
  intros [_ _ Hnd _ _ Hopen _]. unfold open_plans in *. rewrite fmap_app in *. unfold PlanQueueFlush.
  destruct (respondAll_spec (pq_ready (py_queue s)) (pq_futures (py_queue s))) as (fs & -> & H1 & H2).
  - by apply NoDup_app in Hnd as (? & _).
  - intros p Hp. apply Hopen, elem_of_app. by left.
  - eexists. by split_and!.
Qed.

Lemma PInv_init : PInv (mkPlanSystem NewPlanQueue Idle [] 0).
Proof. split; simpl; try done; try apply NoDup_nil_2; try (by intros ? ?%not_elem_of_nil). Qed.

(** A step that keeps the plans, their futures and the signal keeps the invariant. *)
Lemma PInv_frame s q c held n :
  PInv s → pq_ready q = pq_ready (py_queue s) → pq_Depth q = pq_Depth (py_queue s) →
  pq_futures q = pq_futures (py_queue s) → pq_next q = pq_next (py_queue s) → held = py_held s →
  (c = Waiting → pq_waitCh q = false → pq_ready q = [] ∧ (pq_enabled q = true ∨ n ≠ 0%nat)) →
  PInv (mkPlanSystem q c held n).
Proof.
  intros [H1 H2 H3 H4 H5 H6 H7] E1 E2 E3 E4 -> Hw. unfold open_plans in *.
  split; unfold open_plans; simpl; rewrite ?E1, ?E2, ?E3, ?E4; try done. by rewrite <- E1.
Qed.

Lemma enqueue_inv s plan now q r :
  PInv s → Enqueue (py_queue s) plan now = (q, r) → PInv (mkPlanSystem q (py_consumer s) (py_held s) (py_flushes s)).
Proof.
  intros Hs. unfold Enqueue. destruct (pq_enabled (py_queue s)) eqn:He; simpl; intros [= <- <-].
  2: { apply PInv_frame with s; try done. apply Hs. }
  destruct Hs as [H1 H2 H3 H4 H5 H6 H7]. set (p := pq_next (py_queue s)). set (x := mkPendingPlan p plan now).
  assert (open_plans (mkPlanSystem ((py_queue s) <| pq_ready ::= push planLess x |>) Idle (py_held s) 0) ≡ₚ p :: open_plans s) as Hop.
  { unfold open_plans. simpl. by rewrite push_perm. }
  assert (p ∉ open_plans s) as Hp by (intros ?%H4; unfold p in *; lia).
  unfold open_plans in *. simpl in Hop. split; unfold open_plans; simpl.
  - apply push_heap; [apply planLess_ordered|done].
  - rewrite push_perm. simpl. lia.
  - rewrite Hop. by constructor.
  - intros p'. rewrite Hop. intros [->|Hp'%H4]%elem_of_cons; unfold p; lia.
  - intros p' f. rewrite Hop, elem_of_cons. intros [[<- <-]|[Hne Hf]]%lookup_insert_Some.
    + unfold p. split; [lia|by left].
    + destruct (H5 p' f Hf). split; [lia|]. intros ?. right. auto.
  - intros p'. rewrite Hop. intros [->|Hp']%elem_of_cons; [by rewrite lookup_insert_eq|].
    rewrite lookup_insert_ne by (by intros <-). by apply H6.
  - done.
Qed.

Lemma dequeue_inv s q p :
  PInv s → Dequeue (py_queue s) = (q, ScanPlan p) →
  PInv (mkPlanSystem q Idle (p :: py_held s) (py_flushes s)).
Proof.
  intros [H1 H2 H3 H4 H5 H6 H7]. unfold Dequeue. destruct (negb _); [done|].
  destruct (pop planLess (pq_ready (py_queue s))) as [[x l]|] eqn:Ep; [|done]. intros [= <- <-].
  pose proof (pop_perm _ _ _ _ Ep) as Hperm.
  assert (pp_addr <$> l ++ x :: py_held s ≡ₚ open_plans s) as Hop.
  { unfold open_plans. rewrite Hperm. simpl. rewrite <- Permutation_middle. done. }
  unfold open_plans in *. split; unfold open_plans; simpl.
  - eapply pop_heap; [apply planLess_ordered|exact H1|done].
  - rewrite H2, Hperm. simpl. lia.
  - by rewrite Hop.
  - intros p'. rewrite Hop. apply H4.
  - intros p' f. rewrite Hop. apply H5.
  - intros p'. rewrite Hop. apply H6.
  - done.
Qed.

Lemma answer_inv s p held result err fs :
  PInv s → py_held s ≡ₚ p :: held → respond (pq_futures (py_queue s)) (pp_addr p) result err = Some fs →
  PInv (mkPlanSystem ((py_queue s) <| pq_futures := fs |>) (py_consumer s) held (py_flushes s)).
Proof.
  intros [H1 H2 H3 H4 H5 H6 H7] Hh.
  assert (open_plans s ≡ₚ pp_addr p :: (pp_addr <$> pq_ready (py_queue s) ++ held)) as Hop.
  { unfold open_plans. rewrite Hh, <- Permutation_middle. done. }
  rewrite respond_open; [|apply H6; rewrite Hop; left]. intros [= <-]. rewrite Hop in H3. apply NoDup_cons in H3 as [Hp Hnd].
  split; unfold open_plans; simpl; try done.
  - intros p' Hp'. apply H4. rewrite Hop. by right.
  - intros p' f [[<- <-]|[Hne Hf]]%lookup_insert_Some.
    + split; [|done]. apply H4. rewrite Hop. left.
    + destruct (H5 p' f Hf) as [? Hin]. split; [done|]. intros E. specialize (Hin E). rewrite Hop in Hin.
      apply elem_of_cons in Hin as [->|?]; done.
  - intros p' Hp'. rewrite lookup_insert_ne by (by intros <-). apply H6. rewrite Hop. by right.
Qed.

Lemma received_inv s p fs r :
  PInv s → Wait (pq_futures (py_queue s)) p = Some (fs, r) →
  PInv (mkPlanSystem ((py_queue s) <| pq_futures := fs |>) (py_consumer s) (py_held s) (py_flushes s)).
Proof.
  intros [H1 H2 H3 H4 H5 H6 H7]. unfold Wait. destruct (pq_futures (py_queue s) !! p) as [f|] eqn:Ef; [|done].
  cbn [mbind option_bind]. destruct (pf_errCh f) as [err|] eqn:Ee; [|done]. cbn [mbind option_bind]. intros [= <- <-].

  unfold open_plans in *. split; unfold open_plans; simpl; try done.
  - intros p' f' [_ Hf]%lookup_delete_Some. by apply H5.
  - intros p' Hp'. rewrite lookup_delete_ne; [by apply H6|]. intros ->. specialize (H6 _ Hp'). simplify_eq/=.
Qed.

Lemma flush_inv s q n :
  PInv s → PlanQueueFlush (py_queue s) = Some q → PInv (mkPlanSystem q (py_consumer s) (py_held s) n).
Proof.
  intros Hs E. destruct (flush_spec s Hs) as (q' & E' & F1 & F2 & F3 & F4 & F5 & F6 & F7).
  rewrite E in E'. injection E' as <-. destruct Hs as [H1 H2 H3 H4 H5 H6 H7]. unfold open_plans in *.
  rewrite fmap_app in *. split; unfold open_plans; simpl; rewrite ?F1, ?F2, ?F5; try done.
  - by apply NoDup_app in H3 as (_ & _ & ?).
  - intros p Hp. apply H4, elem_of_app. by right.
  - intros p f Hf. destruct (decide (p ∈ pp_addr <$> pq_ready (py_queue s))) as [Hin|Hin].
    + rewrite F6 in Hf by done. injection Hf as <-. split; [|done]. apply H4, elem_of_app. by left.
    + rewrite F7 in Hf by done. destruct (H5 p f Hf) as [? Hop]. split; [done|]. intros He.
      specialize (Hop He). apply elem_of_app in Hop as [Hop|Hop]; [by destruct (Hin Hop)|exact Hop].
  - intros p Hp. apply NoDup_app in H3 as (_ & Hd & _). rewrite F7; [apply H6, elem_of_app; by right|].
    intros Hin. by apply (Hd p).
  - congruence.
Qed.

Lemma pq_step_inv s s' : PInv s → pq_step s s' → PInv s'.
Proof.
  intros Hs Hstep. destruct Hstep as [| q Hc E | | q Hc E | Hc Hw | Hc | | | | |].
  - by eapply enqueue_inv.
  - unfold Dequeue in E. destruct (negb _); [|by destruct (pop _ _) as [[]|]]. injection E as <-. by apply PInv_frame with s.
  - by eapply dequeue_inv.
  - unfold Dequeue in E. destruct (pq_enabled (py_queue s)) eqn:He; [|done]. simpl in E.
    destruct (pop planLess _) as [[]|] eqn:Ep; [done|]. injection E as <-. apply pop_None in Ep.
    apply PInv_frame with s; try done. intros _ _. split; [done|by left].
  - by apply PInv_frame with s.
  - by apply PInv_frame with s.
  - by eapply answer_inv.
  - by eapply received_inv.
  - apply PInv_frame with s; try done. intros Hc Hw. destruct (pi_wake s Hs Hc Hw). split; [done|by left].
  - apply PInv_frame with s; try done. intros Hc Hw. destruct (pi_wake s Hs Hc Hw). split; [done|by right].
  - by eapply flush_inv.
Qed.

Lemma pq_reachable_inv s : pq_reachable s → PInv s.
Proof.
  intros Hr.
  assert (∀ s0, PInv s0 → rtc pq_step s0 s → PInv s) as Hind.
  { intros s1 Hi Hrtc. induction Hrtc as [|x y z Hxy _ IH]; [done|]. by eapply IH, pq_step_inv. }
  eapply Hind; [apply PInv_init|exact Hr].
Qed.

(** ** Properties *)

(** C32. No submitter waits in vain.  A plan whose submitter has no answer yet is in
    the queue or with the applier, and in one of them only; the applier can always
    answer without blocking; [Flush] always completes, empties the queue and answers
    every queued plan with an error; and a consumer that sleeps has been signalled
    whenever there is a plan to take or the queue has been disabled and flushed. *)
Theorem plan_queue_answers s :
  pq_reachable s →
  (NoDup (open_plans s) ∧ ∀ p f, pq_futures (py_queue s) !! p = Some f → pf_errCh f = None → p ∈ open_plans s) ∧
  (∀ p result err, p ∈ py_held s → is_Some (respond (pq_futures (py_queue s)) (pp_addr p) result err)) ∧
  (∃ q, PlanQueueFlush (py_queue s) = Some q ∧ pq_ready q = [] ∧
     ∀ p, p ∈ pq_ready (py_queue s) → ∃ fs,
       Wait (pq_futures q) (pp_addr p) = Some (fs, (None, Some planQueueFlushed))) ∧
  (py_consumer s = Waiting →
     pq_ready (py_queue s) ≠ [] ∨ (pq_enabled (py_queue s) = false ∧ py_flushes s = 0%nat) →
     pq_waitCh (py_queue s) = true).
Proof.
  intros Hs%pq_reachable_inv. split_and!.
  - apply Hs.
  - intros p f Hf He. by eapply (pi_futures s Hs).
  - intros p result err Hp. rewrite respond_open; [by eexists|]. apply (pi_open s Hs). unfold open_plans.
    apply list_elem_of_fmap_2, elem_of_app. by right.
  - destruct (flush_spec s Hs) as (q & E & F1 & _ & _ & _ & _ & F6 & _). exists q. split_and!; [done..|].
    intros p Hp. unfold Wait. rewrite F6 by (by apply list_elem_of_fmap_2). by eexists.
  - intros Hc Hor. destruct (pq_waitCh (py_queue s)) eqn:Hw; [done|].
    destruct (pi_wake s Hs Hc Hw) as [? [?|?]]; destruct Hor as [?|[? ?]]; congruence.
Qed.

(** Plans are taken by priority and then by age.  From an enabled queue that is
    not empty [Dequeue] takes a plan such that no queued plan has a higher priority,
    or the same priority and an earlier time, and leaves the others; the depth that is
    reported is the number of queued plans. *)
Theorem plan_queue_order s :
  pq_reachable s → pq_enabled (py_queue s) = true → pq_ready (py_queue s) ≠ [] →
  ∃ q p, Dequeue (py_queue s) = (q, ScanPlan p) ∧ pq_ready (py_queue s) ≡ₚ p :: pq_ready q ∧
    (∀ p', p' ∈ pq_ready q →
       pl_Priority (pp_plan p') < pl_Priority (pp_plan p) ∨
       (pl_Priority (pp_plan p') = pl_Priority (pp_plan p) ∧ pp_enqueueTime p ≤ pp_enqueueTime p')) ∧
    QueueStats q = Z.of_nat (length (pq_ready q)).
Proof.
  intros Hs%pq_reachable_inv He Hne. unfold Dequeue. rewrite He. cbn [negb].
  destruct (pop planLess (pq_ready (py_queue s))) as [[p l]|] eqn:Ep; [|by apply pop_None in Ep].
  eexists _, p. split; [reflexivity|]. simpl. pose proof (pop_perm _ _ _ _ Ep) as Hperm. split_and!; [done| |].
  - intros p' Hp'. assert (planLess p' p = false) as Hl.
    { eapply pop_min; [apply planLess_ordered|apply (pi_heap s Hs)|exact Ep|]. rewrite Hperm. by right. }
    unfold planLess in Hl. destruct (Z.eqb_spec (pl_Priority (pp_plan p')) (pl_Priority (pp_plan p))) as [E|E]; simpl in Hl.
    + right. apply Z.ltb_ge in Hl. lia.
    + left. apply negb_false_iff, Z.ltb_lt in Hl. lia.
  - unfold QueueStats. simpl. rewrite (pi_depth s Hs), Hperm. simpl. lia.
Qed.

(** A queue with two plans whose consumer sleeps. *)
Definition demoPlans : planSystem :=
  let q := NewPlanQueue <| pq_enabled := true |> in
  let q := (Enqueue q (zeroPlan <| pl_Priority := 20 |>) 1).1 in
  let q := (Enqueue q (zeroPlan <| pl_Priority := 70 |>) 2).1 in
  mkPlanSystem q Waiting [] 0.

Lemma demoPlans_reachable : pq_reachable demoPlans.
Proof.
  unfold pq_reachable, demoPlans. eapply rtc_l; [apply PEnable|]. simpl.
  eapply rtc_l; [eapply PScanWait; reflexivity|]. simpl.
  eapply rtc_l; [by eapply (PEnqueue _ (zeroPlan <| pl_Priority := 20 |>) 1)|].
  eapply rtc_l; [by eapply (PEnqueue _ (zeroPlan <| pl_Priority := 70 |>) 2)|]. apply rtc_refl.
Qed.

Lemma plan_queue_answers_witness : pq_waitCh (py_queue demoPlans) = true.
Proof. apply (plan_queue_answers demoPlans demoPlans_reachable); [reflexivity|left; discriminate]. Defined.

Lemma plan_queue_order_witness :
  ∃ q p, Dequeue (py_queue demoPlans) = (q, ScanPlan p) ∧ pq_ready (py_queue demoPlans) ≡ₚ p :: pq_ready q.
Proof.
  destruct (plan_queue_order demoPlans demoPlans_reachable) as (q & p & H1 & H2 & _); [reflexivity|discriminate|].
  exists q, p. split; assumption.
Defined.
