(* ===== verification/MemDB.v ===== *)
(** * The in-memory database of the state store (src/vendor/github.com/hashicorp/go-memdb)

    A table holds one radix tree per index, from byte keys to the objects themselves; a
    byte slice is a [string].  A tree of [go-immutable-radix] is what it documents: a
    finite map with iteration in the order of the keys.  The indexers build the keys:
    strings are terminated by a zero byte, UUIDs are decoded from hexadecimal, unsigned
    integers are written as variable-length integers into eight bytes.  The reflection on field
    names is the projection of the field.  [strings.ToLower] on Unicode is an argument. *)

From stdpp Require Import base gmap strings list sorting.
From Stdlib Require Import ZArith Lia Ascii.
From S2P Require Import Prelude GoText.
Open Scope string_scope.
Open Scope list_scope.
Open Scope Z_scope.

(** ** Errors

    [fmt.Errorf] with its format, its arguments that are strings and the error it wraps;
    a panic ends the transaction in the same way and is not wrapped. *)

Inductive GoError :=
  | Errorf (format : string) (args : list string)
  | Wrapped (format : string) (args : list string) (err : GoError)
  | GoPanic.

Definition errorf (format : string) : GoError := Errorf format [].
Definition wrapErr (format : string) (args : list string) (err : GoError) : GoError :=
  match err with GoPanic => GoPanic | _ => Wrapped format args err end.

(** [strings.ToLower]. *)
Class CaseLib := ToLower : string → string.

(** ** Indexers (index.go) *)

Definition NUL : ascii := Ascii.zero.
Definition byteOf (n : Z) : ascii := Ascii.ascii_of_N (Z.to_N n).
Definition bytes1 (n : Z) : string := String (byteOf n) "".

(** [binary.PutUvarint] into a buffer of [n] bytes; [None] is its panic when the value
    needs more. *)
Fixpoint PutUvarint (n : nat) (x : Z) : option string :=
  match n with
  | O => None
  | S n =>
      if x <? 128 then Some (String (byteOf x) (String.string_of_list_ascii (replicate n NUL)))
      else rest ← PutUvarint n (Z.shiftr x 7); Some (String (byteOf (Z.lor (Z.land x 127) 128)) rest)
  end.

Definition hexVal (c : ascii) : option Z :=
  let n := Z.of_N (Ascii.N_of_ascii c) in
  if (48 <=? n) && (n <=? 57) then Some (n - 48)
  else if (97 <=? n) && (n <=? 102) then Some (n - 97 + 10)
  else if (65 <=? n) && (n <=? 70) then Some (n - 65 + 10)
  else None.

(** [hex.DecodeString]. *)
Fixpoint hexDecode (s : string) : option string :=
  match s with
  | EmptyString => Some ""
  | String a (String b s) =>
      hi ← hexVal a; lo ← hexVal b; rest ← hexDecode s; Some (String (byteOf (16 * hi + lo)) rest)
  | String _ EmptyString => None
  end.

Fixpoint withoutHyphens (s : string) : string :=
  match s with
  | EmptyString => ""
  | String c s => if bool_decide (c = "-"%char) then withoutHyphens s else String c (withoutHyphens s)
  end.

Definition parseString (s : string) (enforceLength : bool) : GoError + string :=
  let l := String.length s in
  if enforceLength && negb (l =? 36)%nat then inl (errorf "UUID must be 36 characters")
  else if (36 <? l)%nat then inl (errorf "Invalid UUID length. UUID have 36 characters; got %d")
  else
    let sanitized := withoutHyphens s in
    if (4 <? l - String.length sanitized)%nat then inl (errorf "UUID should have maximum of 4 hyphens; got %d")
    else if Nat.odd (String.length sanitized) then inl (errorf "Input (without hyphens) must be even length")
    else match hexDecode sanitized with
         | None => inl (errorf "Invalid UUID: %v")
         | Some dec => inr dec
         end.

#[global] Arguments PutUvarint : simpl never.
#[global] Arguments parseString : simpl never.

(** The arguments of queries. *)
Inductive Arg := AString (s : string) | AUint (n : Z) | ABool (b : bool).

(** The indexers of one field, and compound indexes of them ([AllowMissing] is false in
    every schema of the state store). *)
Inductive FieldIndex (V : Type) :=
  | StringFieldIndex (field : V → string) (lowercase : bool)
  | UintFieldIndex (field : V → Z)
  | UUIDFieldIndex (field : V → string)
  | ConditionalIndex (conditional : V → bool).
Arguments StringFieldIndex {V}.
Arguments UintFieldIndex {V}.
Arguments UUIDFieldIndex {V}.
Arguments ConditionalIndex {V}.

Inductive Indexer (V : Type) :=
  | Single (f : FieldIndex V)
  | CompoundIndex (indexes : list (FieldIndex V)).
Arguments Single {V}.
Arguments CompoundIndex {V}.

Record IndexSchema (V : Type) := mkIndexSchema {
  is_Name : string;
  is_AllowMissing : bool;
  is_Unique : bool;
  is_Indexer : Indexer V
}.
Arguments mkIndexSchema {V}.
Arguments is_Name {V}.
Arguments is_AllowMissing {V}.
Arguments is_Unique {V}.
Arguments is_Indexer {V}.

(** A validated schema has an index "id" that is unique; the others follow. *)
Record TableSchema (V : Type) := mkTableSchema { ts_id : Indexer V; ts_others : list (IndexSchema V) }.
Arguments mkTableSchema {V}.
Arguments ts_id {V}.
Arguments ts_others {V}.

Definition ts_Indexes {V} (s : TableSchema V) : list (IndexSchema V) :=
  mkIndexSchema "id" false true (ts_id s) :: ts_others s.

(** A table: the tree of each index by its name. *)
Abbreviation Table V := (gmap string (gmap string V)).

Section memdb.
Context `{CaseLib} {V : Type}.
Implicit Types (f : FieldIndex V) (idx : Indexer V) (ix : IndexSchema V) (sch : TableSchema V) (t : Table V) (obj : V).

Definition terminated (s : string) (lowercase : bool) : string :=
  (if lowercase then ToLower s else s) +:+ String NUL "".

(** [FromObject] of an indexer: an error, no value, or the bytes. *)
Definition FieldFromObject f obj : GoError + option string :=
  match f with
  | StringFieldIndex field lowercase =>
      let val := field obj in
      if bool_decide (val = "") then inr None else inr (Some (terminated val lowercase))
  | UintFieldIndex field =>
      match PutUvarint 8 (field obj) with Some buf => inr (Some buf) | None => inl GoPanic end
  | UUIDFieldIndex field =>
      let val := field obj in
      if bool_decide (val = "") then inr None
      else match parseString val true with inl err => inl err | inr buf => inr (Some buf) end
  | ConditionalIndex conditional => inr (Some (bytes1 (if conditional obj then 1 else 0)))
  end.

Fixpoint CompoundFromObject (l : list (FieldIndex V)) obj : GoError + option string :=
  match l with
  | [] => inr (Some "")
  | f :: l =>
      match FieldFromObject f obj with
      | inl err => inl (wrapErr "sub-index %d error: %v" [] err)
      | inr None => inr None
      | inr (Some val) =>
          match CompoundFromObject l obj with inr (Some out) => inr (Some (val +:+ out)) | r => r end
      end
  end.

Definition FromObject idx obj : GoError + option string :=
  match idx with
  | Single f => FieldFromObject f obj
  | CompoundIndex l => CompoundFromObject l obj
  end.

Definition argErr (what : string) : GoError + string := inl (errorf what).

(** [FromArgs] of the indexers of one field. *)
Definition FieldFromArgs f (args : list Arg) : GoError + string :=
  match f, args with
  | StringFieldIndex _ lowercase, [AString s] => inr (terminated s lowercase)
  | StringFieldIndex _ _, [_] => argErr "argument must be a string: %#v"
  | UintFieldIndex _, [AUint n] =>
      match PutUvarint 8 n with Some buf => inr buf | None => inl GoPanic end
  | UintFieldIndex _, [_] => argErr "arg is of type %v; want a uint"
  | UUIDFieldIndex _, [AString s] => parseString s true
  | UUIDFieldIndex _, [_] => argErr "argument must be a string or byte slice: %#v"
  | ConditionalIndex _, [ABool b] => inr (bytes1 (if b then 1 else 0))
  | ConditionalIndex _, [_] => argErr "argument must be a boolean type: %#v"
  | _, _ => argErr "must provide only a single argument"
  end.

Fixpoint CompoundFromArgs (l : list (FieldIndex V)) (args : list Arg) : GoError + string :=
  match l, args with
  | f :: l, arg :: args =>
      match FieldFromArgs f [arg] with
      | inl err => inl (wrapErr "sub-index %d error: %v" [] err)
      | inr val => match CompoundFromArgs l args with inr out => inr (val +:+ out) | r => r end
      end
  | _, _ => inr ""
  end.

Definition FromArgs idx (args : list Arg) : GoError + string :=
  match idx with
  | Single f => FieldFromArgs f args
  | CompoundIndex l =>
      if negb (length args =? length l)%nat then argErr "less arguments than index fields" else CompoundFromArgs l args
  end.

(** [PrefixFromArgs]; integers and conditions do not support prefixes. *)
Definition FieldPrefixFromArgs f (args : list Arg) : GoError + string :=
  match f, args with
  | StringFieldIndex _ lowercase, [AString s] => inr (if lowercase then ToLower s else s)
  | StringFieldIndex _ _, [_] => argErr "argument must be a string: %#v"
  | UUIDFieldIndex _, [AString s] => parseString s false
  | UUIDFieldIndex _, [_] => argErr "argument must be a string or byte slice: %#v"
  | UintFieldIndex _, _ | ConditionalIndex _, _ => argErr "index '%s' does not support prefix scanning"
  | _, _ => argErr "must provide only a single argument"
  end.

(** All arguments but the last are matched exactly. *)
Fixpoint CompoundPrefixFromArgs (l : list (FieldIndex V)) (args : list Arg) : GoError + string :=
  match l, args with
  | f :: _, [arg] =>
      match FieldPrefixFromArgs f [arg] with
      | inl err => inl (wrapErr "sub-index %d error: %v" [] err)
      | inr val => inr val
      end
  | f :: l, arg :: args =>
      match FieldFromArgs f [arg] with
      | inl err => inl (wrapErr "sub-index %d error: %v" [] err)
      | inr val => match CompoundPrefixFromArgs l args with inr out => inr (val +:+ out) | r => r end
      end
  | _, _ => inr ""
  end.

Definition PrefixFromArgs idx (args : list Arg) : GoError + string :=
  match idx with
  | Single f => FieldPrefixFromArgs f args
  | CompoundIndex l =>
      if (length l <? length args)%nat then argErr "more arguments than index fields" else CompoundPrefixFromArgs l args
  end.

(** ** Transactions on a table (txn.go) *)

Definition tree t (name : string) : gmap string V := default ∅ (t !! name).
Definition setTree t (name : string) (m : gmap string V) : Table V := <[name := m]> t.

(** The key of an object in an index: a key of a non-unique index ends with the
    primary key. *)
Definition indexKey (idVal : string) ix obj : GoError + option string :=
  match FromObject (is_Indexer ix) obj with
  | inl err => inl (wrapErr "failed to build index '%s': %v" [is_Name ix] err)
  | inr None => inr None
  | inr (Some val) => inr (Some (if is_Unique ix then val else val +:+ idVal))
  end.

(** One turn of the loop of [Insert] over the indexes. *)
Definition insertIndex (idVal : string) (existing : option V) obj ix t : (GoError + unit) * Table V :=
  match indexKey idVal ix obj with
  | inl err => (inl err, t)
  | inr new =>
      match from_option (indexKey idVal ix) (inr None) existing with
      | inl err => (inl err, t)
      | inr old =>
          let t := match old with
                   | Some k => if bool_decide (k = default "" new) then t
                               else setTree t (is_Name ix) (delete k (tree t (is_Name ix)))
                   | None => t
                   end in
          match new with
          | None =>
              if is_AllowMissing ix then (inr tt, t)
              else (inl (Errorf "missing value for index '%s'" [is_Name ix]), t)
          | Some k => (inr tt, setTree t (is_Name ix) (<[k := obj]> (tree t (is_Name ix))))
          end
      end
  end.

(** A loop over the indexes, in the order of the schema, until the first error. *)
Fixpoint overIndexes (turn : IndexSchema V → Table V → (GoError + unit) * Table V)
    (l : list (IndexSchema V)) t : (GoError + unit) * Table V :=
  match l with
  | [] => (inr tt, t)
  | ix :: l => match turn ix t with (inl err, t) => (inl err, t) | (inr _, t) => overIndexes turn l t end
  end.

Definition primaryKey sch obj : GoError + string :=
  match FromObject (ts_id sch) obj with
  | inl err => inl (wrapErr "failed to build primary index: %v" [] err)
  | inr None => inl (errorf "object missing primary index")
  | inr (Some idVal) => inr idVal
  end.

Definition Insert sch obj t : (GoError + unit) * Table V :=
  match primaryKey sch obj with
  | inl err => (inl err, t)
  | inr idVal => overIndexes (insertIndex idVal (tree t "id" !! idVal) obj) (ts_Indexes sch) t
  end.

Definition deleteIndex (idVal : string) (existing : V) ix t : (GoError + unit) * Table V :=
  match indexKey idVal ix existing with
  | inl err => (inl err, t)
  | inr None => (inr tt, t)
  | inr (Some k) => (inr tt, setTree t (is_Name ix) (delete k (tree t (is_Name ix))))
  end.

Definition Delete sch obj t : (GoError + unit) * Table V :=
  match primaryKey sch obj with
  | inl err => (inl err, t)
  | inr idVal =>
      match tree t "id" !! idVal with
      | None => (inl (errorf "not found"), t)
      | Some existing => overIndexes (deleteIndex idVal existing) (ts_Indexes sch) t
      end
  end.

(** The index a query names, whether it is a prefix scan, and the bytes to look for;
    no bytes when there are no arguments. *)
Definition getIndexValue sch (index : string) (args : list Arg) : GoError + (IndexSchema V * option string) :=
  let prefixScan := HasSuffix index "_prefix" in
  let name := TrimSuffix index "_prefix" in
  match list_find (fun ix => is_Name ix = name) (ts_Indexes sch) with
  | None => inl (Errorf "invalid index '%s'" [name])
  | Some (_, ix) =>
      if (length args =? 0)%nat then inr (ix, None)
      else match (if prefixScan then PrefixFromArgs else FromArgs) (is_Indexer ix) args with
           | inl err => inl (wrapErr "index error: %v" [] err)
           | inr val => inr (ix, Some val)
           end
  end.

Definition keyLe (a b : string * V) : Prop := str_le a.1 b.1 = true.
#[global] Instance keyLe_dec a b : Decision (keyLe a b) := decide (str_le a.1 b.1 = true).

(** [SeekPrefix] and [Next] until the end: the entries below a prefix in key order. *)
Definition entries (prefix : string) (m : gmap string V) : list (string * V) :=
  merge_sort keyLe (filter (fun kv => HasPrefix kv.1 prefix = true) (map_to_list m)).
Definition scan (prefix : string) (m : gmap string V) : list V := (entries prefix m).*2.

Definition Get sch t (index : string) (args : list Arg) : GoError + list V :=
  match getIndexValue sch index args with
  | inl err => inl err
  | inr (ix, val) => inr (scan (default "" val) (tree t (is_Name ix)))
  end.

Definition First sch t (index : string) (args : list Arg) : GoError + option V :=
  match getIndexValue sch index args with
  | inl err => inl err
  | inr (ix, val) =>
      match val with
      | Some k =>
          if is_Unique ix && bool_decide (is_Name ix = index) then inr (tree t (is_Name ix) !! k)
          else inr (head (scan k (tree t (is_Name ix))))
      | None => inr (head (scan "" (tree t (is_Name ix))))
      end
  end.

Fixpoint deleteObjs sch (objs : list V) t : (GoError + unit) * Table V :=
  match objs with
  | [] => (inr tt, t)
  | obj :: objs => match Delete sch obj t with (inl err, t) => (inl err, t) | (inr _, t) => deleteObjs sch objs t end
  end.

Definition DeleteAll sch (index : string) (args : list Arg) t : (GoError + unit) * Table V :=
  match Get sch t index args with
  | inl err => (inl err, t)
  | inr objs => deleteObjs sch objs t
  end.
End memdb.
