(* ===== verification/MemDBSpec.v ===== *)
(** * What a table of the database promises

    The keys of an index are a prefix-free code followed by the primary key, so an entry
    of an index belongs to one row ([indexKey_inj]).  [table_wf] says that every index of
    a table holds exactly the rows of the primary index; [Insert] and [Delete] keep it and
    are an insertion and a deletion of a row ([Insert_spec], [Delete_spec]), and a query returns
    the rows whose field has the value asked for, without duplicates ([Get_exact]). *)

From stdpp Require Import base gmap strings list sorting.
From Stdlib Require Import ZArith Lia Ascii.
From S2P Require Import Prelude GoText MemDB.
Open Scope string_scope.
Open Scope list_scope.
Open Scope Z_scope.

(** ** Byte strings *)

Definition nulFree (s : string) : Prop := NUL ∉ String.list_ascii_of_string s.

#[export] Instance nulFree_dec s : Decision (nulFree s).
Proof. unfold nulFree. apply _. Defined.

Lemma app_String c (s r : string) : String c s +:+ r = String c (s +:+ r).
Proof. done. Qed.

Lemma app_empty (s : string) : s +:+ "" = s.
Proof. induction s as [|c s IH]; [done|]. by rewrite app_String, IH. Qed.

Lemma app_assoc_str (s r q : string) : (s +:+ r) +:+ q = s +:+ (r +:+ q).
Proof. induction s as [|c s IH]; [done|]. by rewrite !app_String, IH. Qed.

Lemma app_inj_length (a b r q : string) :
  String.length a = String.length b → a +:+ r = b +:+ q → a = b ∧ r = q.
Proof.
  revert b. induction a as [|c a IH]; intros [|d b]; simpl; try done.
  intros [= Hl]. rewrite !app_String. intros [= -> E]. by destruct (IH b Hl E) as [-> ->].
Qed.

Lemma app_inj_nul (a b r q : string) :
  nulFree a → nulFree b → a +:+ String NUL r = b +:+ String NUL q → a = b ∧ r = q.
Proof.
  unfold nulFree. revert b. induction a as [|c a IH]; intros [|d b] Ha Hb; simpl in *.
  - by intros [= ->].
  - rewrite app_String. intros E. destruct Hb. apply elem_of_cons. left. by injection E.
  - rewrite app_String. intros E. destruct Ha. apply elem_of_cons. left. by injection E.
  - rewrite !app_String. intros [= -> E]. apply not_elem_of_cons in Ha as [_ Ha], Hb as [_ Hb].
    by destruct (IH b Ha Hb E) as [-> ->].
Qed.

Lemma prefix_app_iff (p s : string) : HasPrefix s p = true ↔ ∃ r, s = p +:+ r.
Proof.
  unfold HasPrefix. revert s. induction p as [|c p IH]; intros s; simpl.
  - split; [by exists s|]. by destruct s.
  - destruct s as [|d s].
    + split; [done|]. intros [r E]. by rewrite app_String in E.
    + cbn [String.prefix]. destruct (ascii_dec c d) as [->|Hne].
      * rewrite IH. split; intros [r E]; exists r; [by rewrite E, app_String|].
        rewrite app_String in E. by injection E.
      * split; [done|]. intros [r E]. rewrite app_String in E. congruence.
Qed.

Lemma length_string_of_list (l : list ascii) : String.length (String.string_of_list_ascii l) = length l.
Proof. by induction l as [|c l IH]; simpl; [|rewrite IH]. Qed.

Lemma PutUvarint_S n x :
  PutUvarint (S n) x =
    if x <? 128 then Some (String (byteOf x) (String.string_of_list_ascii (replicate n NUL)))
    else rest ← PutUvarint n (Z.shiftr x 7); Some (String (byteOf (Z.lor (Z.land x 127) 128)) rest).
Proof. done. Qed.

Lemma PutUvarint_length n x s : PutUvarint n x = Some s → String.length s = n.
Proof.
  revert x s. induction n as [|n IH]; intros x s; [done|]. rewrite PutUvarint_S. destruct (x <? 128).
  - intros [= <-]. simpl. by rewrite length_string_of_list, length_replicate.
  - destruct (PutUvarint n (Z.shiftr x 7)) as [r|] eqn:E; simpl; [|done]. intros [= <-]. simpl. by rewrite (IH _ _ E).
Qed.

Lemma hexDecode_length s d : hexDecode s = Some d → (String.length s = 2 * String.length d)%nat.
Proof.
  revert d. assert (∀ n s d, (String.length s ≤ n)%nat → hexDecode s = Some d → (String.length s = 2 * String.length d)%nat) as Hgo.
  { induction n as [|n IH]; intros [|a [|b s']] d; simpl; try lia; try done; try (intros _ [= <-]; done).
    intros Hn. destruct (hexVal a), (hexVal b), (hexDecode s') as [r|] eqn:E; simpl; try done. intros [= <-]. simpl.
    rewrite (IH s' r) by (done || lia). lia. }
  intros d. by apply (Hgo (String.length s)).
Qed.

(** A property of all entries of a list, which computes on a closed list. *)
Fixpoint every {A} (P : A → Prop) (l : list A) : Prop :=
  match l with [] => True | x :: l => P x ∧ every P l end.

Lemma every_spec {A} (P : A → Prop) l : every P l ↔ ∀ x, x ∈ l → P x.
Proof.
  induction l as [|y l IH]; simpl.
  - split; [|done]. by intros _ x Hx%not_elem_of_nil.
  - rewrite IH. split.
    + intros [Hy Hl] x [->|Hx]%elem_of_cons; auto.
    + intros Hl. split; [apply Hl; left|]. intros x Hx. apply Hl. by right.
Qed.

(** ** Codes *)

Section spec.
Context `{CaseLib} {V : Type}.
Implicit Types (f : FieldIndex V) (idx : Indexer V) (ix : IndexSchema V) (sch : TableSchema V) (t : Table V) (obj v : V).

(** The values an indexer is meant for: strings without zero byte, and UUIDs with their
    four hyphens. *)
Definition properString (lowercase : bool) (s : string) : Prop := nulFree (if lowercase then ToLower s else s).
Definition properUUID (s : string) : Prop := String.length (withoutHyphens s) = 32%nat.

Definition properField f obj : Prop :=
  match f with
  | StringFieldIndex field lowercase => properString lowercase (field obj)
  | UUIDFieldIndex field => field obj = "" ∨ properUUID (field obj)
  | UintFieldIndex _ | ConditionalIndex _ => True
  end.

Definition properArg f (arg : Arg) : Prop :=
  match f, arg with
  | StringFieldIndex _ lowercase, AString s => properString lowercase s
  | UUIDFieldIndex _, AString s => properUUID s
  | _, _ => True
  end.

Definition fieldsOf idx : list (FieldIndex V) := match idx with Single f => [f] | CompoundIndex l => l end.
Definition proper idx obj : Prop := every (fun f => properField f obj) (fieldsOf idx).

Definition fieldCode f (a : string) : Prop :=
  match f with
  | StringFieldIndex _ _ => ∃ s, a = s +:+ String NUL "" ∧ nulFree s
  | UintFieldIndex _ => String.length a = 8%nat
  | UUIDFieldIndex _ => String.length a = 16%nat
  | ConditionalIndex _ => String.length a = 1%nat
  end.

Lemma fieldCode_prefix_free f a b r q : fieldCode f a → fieldCode f b → a +:+ r = b +:+ q → a = b ∧ r = q.
Proof.
  destruct f; simpl.
  - intros (s & -> & Hs) (s' & -> & Hs'). rewrite !app_assoc_str, !app_String. change ("" +:+ r) with r. change ("" +:+ q) with q.
    intros E. by destruct (app_inj_nul _ _ _ _ Hs Hs' E) as [-> ->].
  - intros Ha Hb. apply app_inj_length. congruence.
  - intros Ha Hb. apply app_inj_length. congruence.
  - intros Ha Hb. apply app_inj_length. congruence.
Qed.

Fixpoint codes (l : list (FieldIndex V)) (a : string) : Prop :=
  match l with
  | [] => a = ""
  | f :: l => ∃ b c, a = b +:+ c ∧ fieldCode f b ∧ codes l c
  end.
Definition code idx : string → Prop := codes (fieldsOf idx).

Lemma codes_prefix_free l a b r q : codes l a → codes l b → a +:+ r = b +:+ q → a = b ∧ r = q.
Proof.
  revert a b. induction l as [|f l IH]; intros a b; simpl.
  - by intros -> ->.
  - intros (a1 & a2 & -> & Ha1 & Ha2) (b1 & b2 & -> & Hb1 & Hb2). rewrite !app_assoc_str. intros E.
    destruct (fieldCode_prefix_free f _ _ _ _ Ha1 Hb1 E) as [-> E2]. by destruct (IH _ _ Ha2 Hb2 E2) as [-> ->].
Qed.

Lemma parseString_length s a : properUUID s → parseString s true = inr a → String.length a = 16%nat.
Proof.
  unfold properUUID, parseString. intros Hp.
  repeat match goal with |- context [if ?b then _ else _] => destruct b; [done|] end.
  destruct (hexDecode (withoutHyphens s)) as [d|] eqn:E; [|done]. intros [= <-]. apply hexDecode_length in E. lia.
Qed.

Lemma FieldFromObject_code f obj a : properField f obj → FieldFromObject f obj = inr (Some a) → fieldCode f a.
Proof.
  destruct f as [field lc|field|field|c]; simpl.
  - intros Hp. case_bool_decide; [done|]. intros [= <-]. unfold terminated. eexists. by split.
  - intros _. destruct (PutUvarint 8 (field obj)) eqn:E; [|done]. intros [= <-]. by eapply PutUvarint_length.
  - intros Hp. case_bool_decide; [done|]. destruct (parseString (field obj) true) eqn:E; [done|]. intros [= <-].
    destruct Hp; [done|]. by eapply parseString_length.
  - intros _. by intros [= <-].
Qed.

Lemma FieldFromArgs_code f arg a : properArg f arg → FieldFromArgs f [arg] = inr a → fieldCode f a.
Proof.
  destruct f as [field lc|field|field|c], arg as [s|n|b]; simpl; try done.
  - intros Hp [= <-]. unfold terminated. eexists. by split.
  - intros _. destruct (PutUvarint 8 n) eqn:E; [|done]. intros [= <-]. by eapply PutUvarint_length.
  - apply parseString_length.
  - intros _. by intros [= <-].
Qed.

Lemma FromObject_code idx obj a : proper idx obj → FromObject idx obj = inr (Some a) → code idx a.
Proof.
  unfold proper, code. destruct idx as [f|l]; simpl.
  - intros [Hp _] E. exists a, "". rewrite app_empty. split_and!; [done|by apply (FieldFromObject_code f obj)|done].
  - revert a. induction l as [|f l IH]; intros a; simpl; [by intros _ [= <-]|]. intros [Hf Hl].
    destruct (FieldFromObject f obj) as [|[b|]] eqn:E; try done.
    destruct (CompoundFromObject l obj) as [|[c|]] eqn:E2; try done. intros [= <-].
    exists b, c. split_and!; [done|by apply (FieldFromObject_code f obj)|by apply IH].
Qed.

Lemma FromArgs_code idx args a : Forall2 properArg (fieldsOf idx) args → FromArgs idx args = inr a → code idx a.
Proof.
  unfold code. destruct idx as [f|l]; simpl.
  - intros (arg & ? & Hp & ->%Forall2_nil_inv_l & ->)%Forall2_cons_inv_l E. exists a, "". rewrite app_empty.
    split_and!; [done|by apply (FieldFromArgs_code f arg)|done].
  - intros Hp. case_match; [done|]. clear H0. revert a. induction Hp as [|f arg l args Hf Hl IH]; intros a; [by intros [= <-]|].
    cbn [CompoundFromArgs codes]. destruct (FieldFromArgs f [arg]) as [|b] eqn:E; [done|].
    destruct (CompoundFromArgs l args) as [|c] eqn:E2; [done|]. intros [= <-].
    exists b, c. split_and!; [done|by apply (FieldFromArgs_code f arg)|by apply IH].
Qed.

Lemma code_nonempty idx a : fieldsOf idx ≠ [] → code idx a → a ≠ "".
Proof.
  unfold code. destruct (fieldsOf idx) as [|f l]; [done|]. intros _ (b & c & -> & Hb & _) E.
  assert (b = "") as -> by (by destruct b). destruct f; simpl in Hb; try done.
  destruct Hb as (s & E2 & _). by destruct s.
Qed.

(** ** Tables *)

Definition rows t : gmap string V := tree t "id".

(** The schemas of the store: indexes with different names, the others than "id" not
    unique and of at least one field. *)
Record schema_ok sch : Prop := {
  so_names : NoDup (is_Name <$> ts_Indexes sch);
  so_others : ∀ ix, ix ∈ ts_others sch → is_Unique ix = false ∧ fieldsOf (is_Indexer ix) ≠ []
}.

Definition properRow sch obj : Prop :=
  proper (ts_id sch) obj ∧ every (fun ix => proper (is_Indexer ix) obj) (ts_others sch).

(** An object that [Insert] accepts. *)
Definition indexable sch obj : Prop :=
  (∃ k, primaryKey sch obj = inr k) ∧
  every (fun ix => ∃ o, FromObject (is_Indexer ix) obj = inr o ∧ (o = None → is_AllowMissing ix = true)) (ts_others sch).

Lemma properRow_other sch obj ix : properRow sch obj → ix ∈ ts_others sch → proper (is_Indexer ix) obj.
Proof. intros [_ Hp]. rewrite every_spec in Hp. apply Hp. Qed.

(** Every row is stored under its primary key, and every other index has exactly the
    entries of the rows. *)
Record table_wf sch t : Prop := {
  tw_rows : ∀ k v, rows t !! k = Some v → primaryKey sch v = inr k ∧ indexable sch v ∧ properRow sch v;
  tw_index : ∀ ix, ix ∈ ts_others sch → ∀ key v,
    tree t (is_Name ix) !! key = Some v ↔ ∃ k, rows t !! k = Some v ∧ indexKey k ix v = inr (Some key)
}.

Lemma indexKey_inj ix k k' v v' key :
  is_Unique ix = false → proper (is_Indexer ix) v → proper (is_Indexer ix) v' →
  indexKey k ix v = inr (Some key) → indexKey k' ix v' = inr (Some key) → k = k'.
Proof.
  unfold indexKey. intros -> Hp Hp'.
  destruct (FromObject (is_Indexer ix) v) as [|[a|]] eqn:E; try done.
  destruct (FromObject (is_Indexer ix) v') as [|[b|]] eqn:E'; try done. intros [= <-] [= Eq].
  apply (FromObject_code _ _ _ Hp) in E. apply (FromObject_code _ _ _ Hp') in E'.
  by destruct (codes_prefix_free _ _ _ _ _ E' E Eq).
Qed.

Lemma indexKey_nonempty ix k v key :
  is_Unique ix = false → fieldsOf (is_Indexer ix) ≠ [] → proper (is_Indexer ix) v →
  indexKey k ix v = inr (Some key) → key ≠ "".
Proof.
  unfold indexKey. intros -> Hne Hp. destruct (FromObject (is_Indexer ix) v) as [|[a|]] eqn:E; try done. intros [= <-] E2.
  apply (FromObject_code _ _ _ Hp), (code_nonempty _ _ Hne) in E. by destruct a.
Qed.

Lemma indexable_key sch k v ix : indexable sch v → ix ∈ ts_others sch →
  ∃ o, indexKey k ix v = inr o ∧ (o = None → is_AllowMissing ix = true).
Proof.
  intros [_ Hi] Hix. rewrite every_spec in Hi. destruct (Hi ix Hix) as (o & E & Hm). unfold indexKey. rewrite E.
  destruct o as [a|]; eexists; split; [done|done|done|]. auto.
Qed.

(** *** Loops over the indexes: each turn changes the tree of its index only. *)

Lemma tree_setTree t n m n' : tree (setTree t n m) n' = if decide (n = n') then m else tree t n'.
Proof. unfold tree, setTree. rewrite lookup_insert. by case_decide. Qed.

Section loop.
Variable turn : IndexSchema V → Table V → (GoError + unit) * Table V.
Variable after : IndexSchema V → gmap string V → gmap string V.
Hypothesis turn_tree : ∀ ix t t', turn ix t = (inr tt, t') →
  ∀ n, tree t' n = if decide (is_Name ix = n) then after ix (tree t n) else tree t n.

Lemma overIndexes_trees l t t' : NoDup (is_Name <$> l) → overIndexes turn l t = (inr tt, t') →
  (∀ ix, ix ∈ l → tree t' (is_Name ix) = after ix (tree t (is_Name ix))) ∧
  (∀ n, n ∉ is_Name <$> l → tree t' n = tree t n).
Proof.
  revert t. induction l as [|ix l IH]; intros t Hnd; simpl.
  - intros [= <-]. split; [by intros ix Hix%not_elem_of_nil|done].
  - simpl in Hnd. apply NoDup_cons in Hnd as [Hix Hnd]. destruct (turn ix t) as [[e|[]] t1] eqn:E; [done|]. intros E1.
    destruct (IH t1 Hnd E1) as [Hin Hout]. pose proof (turn_tree ix t t1 E) as Ht. split.
    + intros iy [->|Hiy]%elem_of_cons.
      * rewrite Hout by done. rewrite Ht. by rewrite decide_True by done.
      * rewrite Hin by done. rewrite Ht. rewrite decide_False; [done|]. intros Eq. apply Hix. rewrite Eq. by apply list_elem_of_fmap_2.
    + intros n [Hne Hn]%not_elem_of_cons. rewrite Hout by done. rewrite Ht. by rewrite decide_False by done.
Qed.
End loop.

Lemma overIndexes_ok (turn : IndexSchema V → Table V → (GoError + unit) * Table V) l t :
  (∀ ix t, ix ∈ l → (turn ix t).1 = inr tt) → (overIndexes turn l t).1 = inr tt.
Proof.
  revert t. induction l as [|ix l IH]; intros t Hl; simpl; [done|].
  pose proof (Hl ix t ltac:(left)) as E. destruct (turn ix t) as [[?|?] t1]; simplify_eq/=. apply IH. intros iy t2 Hiy. apply Hl. by right.
Qed.

(** *** Insertion *)

Definition treeAfter (k : string) (old : option V) obj ix (m : gmap string V) : gmap string V :=
  let new := match indexKey k ix obj with inr o => o | inl _ => None end in
  let m := match from_option (indexKey k ix) (inr None) old with
           | inr (Some ko) => if bool_decide (ko = default "" new) then m else delete ko m
           | _ => m
           end in
  match new with Some kn => <[kn := obj]> m | None => m end.

Lemma insertIndex_tree k old obj ix t t' : insertIndex k old obj ix t = (inr tt, t') →
  ∀ n, tree t' n = if decide (is_Name ix = n) then treeAfter k old obj ix (tree t n) else tree t n.
Proof.
  unfold insertIndex, treeAfter. destruct (indexKey k ix obj) as [|new]; [done|].
  destruct (from_option (indexKey k ix) (inr None) old) as [|[ko|]]; [done| |].
  - case_bool_decide; destruct new as [kn|]; try (destruct (is_AllowMissing ix); [|done]); intros [= <-] n;
      rewrite ?tree_setTree; repeat case_decide; congruence || done.
  - destruct new as [kn|]; try (destruct (is_AllowMissing ix); [|done]); intros [= <-] n;
      rewrite ?tree_setTree; repeat case_decide; congruence || done.
Qed.

Lemma insertIndex_ok k old obj ix t o oo :
  indexKey k ix obj = inr o → (o = None → is_AllowMissing ix = true) →
  from_option (indexKey k ix) (inr None) old = inr oo → (insertIndex k old obj ix t).1 = inr tt.
Proof. unfold insertIndex. intros -> Hm ->. destruct o; simpl; [done|]. by rewrite Hm. Qed.

Section table.
Variable sch : TableSchema V.
Hypothesis Hsch : schema_ok sch.

Lemma other_name ix : ix ∈ ts_others sch → is_Name ix ≠ "id".
Proof.
  intros Hix E. pose proof (so_names sch Hsch) as Hnd. simpl in Hnd. apply NoDup_cons in Hnd as [Hn _].
  apply Hn. rewrite <- E. by apply list_elem_of_fmap_2.
Qed.

Lemma primary_index k obj : primaryKey sch obj = inr k →
  indexKey k (mkIndexSchema "id" false true (ts_id sch)) obj = inr (Some k).
Proof. unfold primaryKey, indexKey. simpl. by destruct (FromObject (ts_id sch) obj) as [|[a|]]; intros [= ->]. Qed.

(** The entries of one index after an insertion. *)
Lemma treeAfter_spec t k obj ix : table_wf sch t → ix ∈ ts_others sch → primaryKey sch obj = inr k →
  indexable sch obj → properRow sch obj → ∀ key v,
  treeAfter k (rows t !! k) obj ix (tree t (is_Name ix)) !! key = Some v ↔
  ∃ k', <[k := obj]> (rows t) !! k' = Some v ∧ indexKey k' ix v = inr (Some key).
Proof.
  intros Hwf Hix Hk Hi Hp key v. destruct (so_others sch Hsch ix Hix) as [Hu Hne].
  destruct (indexable_key sch k obj ix Hi Hix) as (new & En & _). unfold treeAfter. rewrite En.
  pose proof (tw_index sch t Hwf ix Hix) as Hidx.
  assert (∀ k1 v1 k2 v2 key, (rows t !! k1 = Some v1 ∨ v1 = obj) → (rows t !! k2 = Some v2 ∨ v2 = obj) →
    indexKey k1 ix v1 = inr (Some key) → indexKey k2 ix v2 = inr (Some key) → k1 = k2) as Hinj.
  { intros k1 v1 k2 v2 key' H1 H2. apply indexKey_inj; [done| |].
    - destruct H1 as [H1| ->]; [|by eapply properRow_other]. eapply properRow_other; [|done]. by apply (tw_rows sch t Hwf k1 v1 H1).
    - destruct H2 as [H2| ->]; [|by eapply properRow_other]. eapply properRow_other; [|done]. by apply (tw_rows sch t Hwf k2 v2 H2). }
  set (m1 := match from_option _ _ (rows t !! k) with inl _ => _ | inr _ => _ end).
  assert (∀ key v, new ≠ Some key → m1 !! key = Some v ↔ ∃ k', k' ≠ k ∧ rows t !! k' = Some v ∧ indexKey k' ix v = inr (Some key)) as Hm1.
  { intros key' v' Hnew. unfold m1. destruct (rows t !! k) as [old|] eqn:Eold; simpl.
    - destruct (tw_rows sch t Hwf k old Eold) as (_ & Hio & Hpo). destruct (indexable_key sch k old ix Hio Hix) as (oo & Eo & _).
      rewrite Eo. assert (∀ k' v', rows t !! k' = Some v' → indexKey k' ix v' = inr (Some key') → k' = k → oo = Some key') as Hsame.
      { intros k' v2 Hv2 E2 ->. rewrite Eold in Hv2. simplify_eq. congruence. }
      destruct oo as [ko|].
      + assert (ko ≠ "") as Hko by (eapply indexKey_nonempty; [exact Hu|exact Hne|by eapply properRow_other|exact Eo]).
        case_bool_decide as Ed.
        * rewrite Hidx. split; [intros (k' & Hk' & E')|naive_solver]. exists k'. split_and!; [|done..].
          intros ->. rewrite Eold in Hk'. injection Hk' as <-. destruct new; simpl in *; congruence.
        * rewrite lookup_delete_Some, Hidx. split.
          -- intros (Hneq & k' & Hk' & E'). exists k'. split_and!; [|done..]. intros ->. rewrite Eold in Hk'. injection Hk' as <-. congruence.
          -- intros (k' & Hne' & Hk' & E'). split; [|eauto]. intros ->. apply Hne'. by eapply Hinj; [left|left|exact E'|exact Eo].
      + rewrite Hidx. split; [|naive_solver]. intros (k' & Hk' & E'). exists k'. split_and!; [|done..]. intros Ek. by pose proof (Hsame _ _ Hk' E' Ek).
    - rewrite Hidx. split; [|naive_solver]. intros (k' & Hk' & E'). exists k'. split_and!; [congruence|done..]. }
  assert (∀ key, new ≠ Some key → m1 !! key = Some v ↔
    ∃ k', <[k := obj]> (rows t) !! k' = Some v ∧ indexKey k' ix v = inr (Some key)) as Hm2.
  { intros key' Hnew. rewrite Hm1 by done. split.
    - intros (k' & ? & ? & ?). exists k'. by rewrite lookup_insert_ne.
    - intros (k' & Hl & E'). exists k'. apply lookup_insert_Some in Hl as [[-> ->]|[? ?]]; [congruence|done]. }
  destruct new as [kn|]; [|by apply Hm2]. destruct (decide (key = kn)) as [->|Hkn].
  - rewrite lookup_insert_eq. split.
    + intros [= <-]. exists k. by rewrite lookup_insert_eq.
    + intros (k' & Hl & E'). apply lookup_insert_Some in Hl as [[_ ->]|[Hne' Hl]]; [done|]. destruct Hne'.
      symmetry. by eapply Hinj; [left|right|exact E'|exact En].
  - rewrite lookup_insert_ne by done. apply Hm2. congruence.
Qed.

Lemma Insert_inv t t' obj k : table_wf sch t → properRow sch obj → primaryKey sch obj = inr k → Insert sch obj t = (inr tt, t') →
  indexable sch obj → rows t' = <[k := obj]> (rows t) ∧ table_wf sch t'.
Proof.
  intros Hwf Hp Hk E Hi. unfold Insert in E. rewrite Hk in E. change (tree t "id") with (rows t) in E.
  destruct (overIndexes_trees _ (treeAfter k (rows t !! k) obj) (insertIndex_tree k (rows t !! k) obj) _ _ _ (so_names sch Hsch) E) as [Hin _].
  assert (rows t' = <[k := obj]> (rows t)) as Er.
  { unfold rows. pose proof (Hin (mkIndexSchema "id" false true (ts_id sch)) ltac:(by left)) as Eid. cbn [is_Name] in Eid. rewrite Eid.
    unfold treeAfter. rewrite (primary_index k obj Hk). destruct (rows t !! k) as [old|] eqn:Eold; cbn [from_option]; [|done].
    destruct (tw_rows sch t Hwf k old Eold) as (Hko & _). rewrite (primary_index k old Hko). by rewrite bool_decide_true. }
  split; [done|]. split.
  - intros k' v. rewrite Er, lookup_insert_Some. intros [[<- <-]|[_ Hv]]; [done|by apply (tw_rows sch t Hwf)].
  - intros ix Hix key v. rewrite Hin by (by apply list_elem_of_further). rewrite Er. by apply treeAfter_spec.
Qed.

Lemma Insert_total t obj k : table_wf sch t → primaryKey sch obj = inr k → indexable sch obj → (Insert sch obj t).1 = inr tt.
Proof.
  intros Hwf Hk Hi. unfold Insert. rewrite Hk. apply overIndexes_ok. intros ix t1 Hix. change (tree t "id") with (rows t).
  assert (∃ oo, from_option (indexKey k ix) (inr None) (rows t !! k) = inr oo) as [oo Eo].
  { destruct (rows t !! k) as [old|] eqn:Eold; simpl; [|by eexists]. destruct (tw_rows sch t Hwf k old Eold) as (Hko & Hio & _).
    apply elem_of_cons in Hix as [->|Hix]; [rewrite (primary_index k old Hko); by eexists|].
    destruct (indexable_key sch k old ix Hio Hix) as (oo & -> & _). by eexists. }
  apply elem_of_cons in Hix as [->|Hix].
  - by apply (insertIndex_ok k _ obj _ t1 (Some k) oo); [apply primary_index| |].
  - destruct (indexable_key sch k obj ix Hi Hix) as (o & E & Hm). by apply (insertIndex_ok k _ obj ix t1 o oo).
Qed.

(** A successful insertion was of an object that has all its indexes. *)
Lemma Insert_indexable t t' obj : Insert sch obj t = (inr tt, t') → indexable sch obj.
Proof.
  unfold Insert. destruct (primaryKey sch obj) as [|k] eqn:Hk; [done|]. intros E. split; [by eexists|]. apply every_spec. intros ix Hix.
  set (old := tree t "id" !! k) in E. clearbody old. cbn [ts_Indexes overIndexes] in E.
  destruct (insertIndex _ _ _ _ t) as [[?|[]] t1]; [done|]. clear t. revert t1 E Hix.
  induction (ts_others sch) as [|iy l IH]; intros t1 E Hix; [by apply not_elem_of_nil in Hix|]. simpl in E.
  destruct (insertIndex k old obj iy t1) as [[?|[]] t2] eqn:E1; [done|]. apply elem_of_cons in Hix as [->|Hix]; [|by eapply IH].
  unfold insertIndex, indexKey in E1. destruct (FromObject (is_Indexer iy) obj) as [|[a|]]; [done|by eexists|].
  exists None. split; [done|]. intros _. repeat case_match; done.
Qed.

(** [Insert] succeeds exactly on objects that have their indexes, and then it is the
    insertion of a row. *)
Lemma Insert_spec t obj : table_wf sch t → properRow sch obj →
  match Insert sch obj t with
  | (inl _, _) => ¬ indexable sch obj
  | (inr _, t') => indexable sch obj ∧ table_wf sch t' ∧ ∃ k, primaryKey sch obj = inr k ∧ rows t' = <[k := obj]> (rows t)
  end.
Proof.
  intros Hwf Hp. destruct (Insert sch obj t) as [[e|[]] t'] eqn:E.
  - intros Hi. pose proof Hi as [[k Hk] _]. pose proof (Insert_total t obj k Hwf Hk Hi) as E1. by rewrite E in E1.
  - pose proof (Insert_indexable t t' obj E) as Hi. pose proof Hi as [[k Hk] _].
    destruct (Insert_inv t t' obj k Hwf Hp Hk E Hi) as [Er Hw]. eauto 6.
Qed.

(** *** Deletion *)

Definition treeDeleted (k : string) (old : V) ix (m : gmap string V) : gmap string V :=
  match indexKey k ix old with inr (Some ko) => delete ko m | _ => m end.

Lemma deleteIndex_tree k old ix t t' : deleteIndex k old ix t = (inr tt, t') →
  ∀ n, tree t' n = if decide (is_Name ix = n) then treeDeleted k old ix (tree t n) else tree t n.
Proof.
  unfold deleteIndex, treeDeleted. destruct (indexKey k ix old) as [|[ko|]]; [done| |]; intros [= <-] n;
    rewrite ?tree_setTree; repeat case_decide; congruence || done.
Qed.

(** [Delete] of an object whose primary key has a row is the deletion of that row. *)
Lemma Delete_spec t obj k old : table_wf sch t → primaryKey sch obj = inr k → rows t !! k = Some old →
  ∃ t', Delete sch obj t = (inr tt, t') ∧ table_wf sch t' ∧ rows t' = delete k (rows t).
Proof.
  intros Hwf Hk Hold. destruct (tw_rows sch t Hwf k old Hold) as (Hko & Hio & Hpo).
  unfold Delete. rewrite Hk. change (tree t "id" !! k) with (rows t !! k). rewrite Hold.
  destruct (overIndexes (deleteIndex k old) (ts_Indexes sch) t) as [r t'] eqn:E.
  assert (r = inr tt) as ->.
  { change r with (r, t').1. rewrite <- E. apply overIndexes_ok. intros ix t1 Hix. unfold deleteIndex.
    apply elem_of_cons in Hix as [->|Hix]; [by rewrite (primary_index k old Hko)|].
    destruct (indexable_key sch k old ix Hio Hix) as (o & -> & _). by destruct o. }
  exists t'. split; [done|].
  destruct (overIndexes_trees _ (treeDeleted k old) (deleteIndex_tree k old) _ _ _ (so_names sch Hsch) E) as [Hin _].
  assert (rows t' = delete k (rows t)) as Er.
  { unfold rows. pose proof (Hin (mkIndexSchema "id" false true (ts_id sch)) ltac:(apply list_elem_of_here)) as Eid.
    cbn [is_Name] in Eid. rewrite Eid. unfold treeDeleted. by rewrite (primary_index k old Hko). }
  split; [|done]. split.
  - intros k' v. rewrite Er, lookup_delete_Some. intros [_ Hv]. by apply (tw_rows sch t Hwf).
  - intros ix Hix key v. rewrite Hin by (by apply list_elem_of_further). rewrite Er.
    destruct (so_others sch Hsch ix Hix) as [Hu _]. destruct (indexable_key sch k old ix Hio Hix) as (o & Eo & _).
    pose proof (tw_index sch t Hwf ix Hix) as Hidx. unfold treeDeleted. rewrite Eo.
    setoid_rewrite lookup_delete_Some. destruct o as [ko|]; [rewrite lookup_delete_Some|]; rewrite Hidx; split.
    + intros (Hne & k' & Hk' & E'). exists k'. split_and!; [|done..]. intros ->. congruence.
    + intros (k' & [Hne Hk'] & E'). split; [|eauto]. intros ->. apply Hne.
      eapply indexKey_inj; [exact Hu|by eapply properRow_other| |exact Eo|exact E'].
      eapply properRow_other; [|done]. by apply (tw_rows sch t Hwf k' v Hk').
    + intros (k' & Hk' & E'). exists k'. split_and!; [|done..]. intros ->. congruence.
    + intros (k' & [Hne Hk'] & E'). eauto.
Qed.

Lemma Delete_missing t obj k : primaryKey sch obj = inr k → rows t !! k = None →
  Delete sch obj t = (inl (errorf "not found"), t).
Proof. intros Hk Hold. unfold Delete. rewrite Hk. change (tree t "id" !! k) with (rows t !! k). by rewrite Hold. Qed.

(** *** Queries *)

Lemma elem_of_entries p (m : gmap string V) k v : (k, v) ∈ entries p m ↔ m !! k = Some v ∧ HasPrefix k p = true.
Proof. unfold entries. rewrite merge_sort_Permutation, list_elem_of_filter, elem_of_map_to_list. simpl. tauto. Qed.

Lemma elem_of_scan p (m : gmap string V) v : v ∈ scan p m ↔ ∃ k, m !! k = Some v ∧ HasPrefix k p = true.
Proof.
  unfold scan. rewrite list_elem_of_fmap. split.
  - intros ([k w] & -> & Hin%elem_of_entries). eauto.
  - intros (k & Hk). exists (k, v). split; [done|]. by apply elem_of_entries.
Qed.

(** The entries of a scan are in the order of their keys. *)
Lemma entries_sorted p (m : gmap string V) : Sorted keyLe (entries p m).
Proof.
  apply Sorted_merge_sort. intros a b. unfold keyLe, str_le. by destruct (String.leb_total a.1 b.1); auto.
Qed.

Lemma entries_NoDup p (m : gmap string V) : NoDup (entries p m).*1.
Proof.
  unfold entries. rewrite merge_sort_Permutation. apply NoDup_fmap_2_strong.
  - intros [k v] [k' v'] [_ Hk]%list_elem_of_filter [_ Hk']%list_elem_of_filter. simpl. intros <-.
    apply elem_of_map_to_list in Hk, Hk'. congruence.
  - apply NoDup_filter, NoDup_map_to_list.
Qed.

Lemma scan_NoDup p (m : gmap string V) :
  (∀ k k' v, m !! k = Some v → m !! k' = Some v → k = k') → NoDup (scan p m).
Proof.
  intros Hinj. unfold scan. apply NoDup_fmap_2_strong.
  - intros [k v] [k' v'] Hk%elem_of_entries Hk'%elem_of_entries. simpl. intros <-. f_equal. by eapply Hinj; [apply Hk|apply Hk'].
  - eapply NoDup_fmap_1, entries_NoDup.
Qed.

(** The rows of an exact query on an index: those whose fields have the value. *)
Lemma scan_exact t ix val : table_wf sch t → ix ∈ ts_others sch → code (is_Indexer ix) val →
  NoDup (scan val (tree t (is_Name ix))) ∧
  ∀ v, v ∈ scan val (tree t (is_Name ix)) ↔ ∃ k, rows t !! k = Some v ∧ FromObject (is_Indexer ix) v = inr (Some val).
Proof.
  intros Hwf Hix Hc. destruct (so_others sch Hsch ix Hix) as [Hu _].
  pose proof (tw_index sch t Hwf ix Hix) as Hidx. split.
  - apply scan_NoDup. intros key key' v (k & Hk & E)%Hidx (k' & Hk' & E')%Hidx.
    destruct (tw_rows sch t Hwf k v Hk) as [Ek _], (tw_rows sch t Hwf k' v Hk') as [Ek' _]. congruence.
  - intros v. rewrite elem_of_scan. setoid_rewrite Hidx. split.
    + intros (key & (k & Hk & E) & [r Hr]%prefix_app_iff). exists k. split; [done|].
      unfold indexKey in E. rewrite Hu in E. destruct (FromObject (is_Indexer ix) v) as [|[a|]] eqn:Ea; try done.
      injection E as <-. assert (code (is_Indexer ix) a) as Ha.
      { eapply FromObject_code; [|exact Ea]. eapply properRow_other; [|done]. by apply (tw_rows sch t Hwf k v Hk). }
      by destruct (codes_prefix_free _ _ _ _ _ Ha Hc Hr) as [-> _].
    + intros (k & Hk & E). exists (val +:+ k). split; [|apply prefix_app_iff; eauto].
      exists k. split; [done|]. unfold indexKey. by rewrite E, Hu.
Qed.

(** The rows of the whole table. *)
Lemma scan_all t : table_wf sch t → NoDup (scan "" (rows t)) ∧ ∀ v, v ∈ scan "" (rows t) ↔ ∃ k, rows t !! k = Some v.
Proof.
  intros Hwf. split.
  - apply scan_NoDup. intros k k' v Hk Hk'.
    destruct (tw_rows sch t Hwf k v Hk) as [Ek _], (tw_rows sch t Hwf k' v Hk') as [Ek' _]. congruence.
  - intros v. rewrite elem_of_scan. split; [naive_solver|]. intros [k Hk]. exists k. split; [done|].
    apply prefix_app_iff. by exists k.
Qed.
End table.
End spec.
