(* ===== verification/StateStore.v ===== *)
(** * The state store (src/nomad/state/state_store.go, schema.go)

    The tables of the server's state and every operation on them.  A write transaction
    passes the tables along ([Txn]); an error leaves the tables as they are at that
    point, and the operation then aborts, which gives back the tables it started with
    ([commit]).  Watch channels and log lines are left out.  A job that is registered has
    resources for each of its tasks.  Objects are values: the code stores the pointers it
    is given and never changes a stored object, except that a job is normalized after it
    went into the version table, which is the same job. *)

From stdpp Require Import base gmap strings list.
From Stdlib Require Import ZArith Lia Ascii.
From S2P Require Import Prelude GoText Structs Resources Jobs Allocs Plans MemDB.
Open Scope string_scope.
Open Scope list_scope.
Open Scope Z_scope.

(** ** The objects of the tables (nomad/structs/structs.go) *)

Record IndexEntry := mkIndexEntry { ie_Key : string; ie_Value : Z }.

Record TaskGroupSummary := mkTaskGroupSummary {
  tgs_Queued : Z;
  tgs_Complete : Z;
  tgs_Failed : Z;
  tgs_Running : Z;
  tgs_Starting : Z;
  tgs_Lost : Z
}.
#[export] Instance eta_TaskGroupSummary : Eta TaskGroupSummary := fun r =>
  mkTaskGroupSummary (tgs_Queued r) (tgs_Complete r) (tgs_Failed r) (tgs_Running r) (tgs_Starting r) (tgs_Lost r).
Definition zeroTaskGroupSummary : TaskGroupSummary := mkTaskGroupSummary 0 0 0 0 0 0.

Record JobChildrenSummary := mkJobChildrenSummary { jc_Pending : Z; jc_Running : Z; jc_Dead : Z }.
#[export] Instance eta_JobChildrenSummary : Eta JobChildrenSummary := fun r =>
  mkJobChildrenSummary (jc_Pending r) (jc_Running r) (jc_Dead r).

Record JobSummary := mkJobSummary {
  js_JobID : string;
  js_Summary : gmap string TaskGroupSummary;
  js_Children : option JobChildrenSummary;
  js_CreateIndex : Z;
  js_ModifyIndex : Z
}.
#[export] Instance eta_JobSummary : Eta JobSummary := fun r =>
  mkJobSummary (js_JobID r) (js_Summary r) (js_Children r) (js_CreateIndex r) (js_ModifyIndex r).

Record PeriodicLaunch := mkPeriodicLaunch { pn_ID : string; pn_Launch : Z; pn_CreateIndex : Z; pn_ModifyIndex : Z }.
#[export] Instance eta_PeriodicLaunch : Eta PeriodicLaunch := fun r =>
  mkPeriodicLaunch (pn_ID r) (pn_Launch r) (pn_CreateIndex r) (pn_ModifyIndex r).

Record VaultAccessor := mkVaultAccessor {
  vac_AllocID : string;
  vac_Task : string;
  vac_NodeID : string;
  vac_Accessor : string;
  vac_CreationTTL : Z;
  vac_CreateIndex : Z
}.
#[export] Instance eta_VaultAccessor : Eta VaultAccessor := fun r =>
  mkVaultAccessor (vac_AllocID r) (vac_Task r) (vac_NodeID r) (vac_Accessor r) (vac_CreationTTL r) (vac_CreateIndex r).

Record DeploymentStatusUpdateRequest := mkDeploymentStatusUpdateRequest {
  dr_Eval : option Evaluation;
  dr_DeploymentUpdate : DeploymentStatusUpdate;
  dr_Job : option Job
}.

Record ApplyDeploymentPromoteRequest := mkApplyDeploymentPromoteRequest {
  dp_DeploymentID : string;
  dp_All : bool;
  dp_Groups : list string;
  dp_Eval : option Evaluation
}.

Record ApplyDeploymentAllocHealthRequest := mkApplyDeploymentAllocHealthRequest {
  dh_DeploymentID : string;
  dh_HealthyAllocationIDs : list string;
  dh_UnhealthyAllocationIDs : list string;
  dh_DeploymentUpdate : option DeploymentStatusUpdate;
  dh_Job : option Job;
  dh_Eval : option Evaluation
}.

Definition JobTrackedVersions : nat := 6.

(** ** The schema (schema.go) *)

Definition jobIsGCable (j : Job) : bool :=
  let periodic := match jb_Periodic j with Some p => pc_Enabled p | None => false end in
  if periodic || IsParameterized j then jb_Stop j
  else if bool_decide (jb_Status j ≠ JobStatusDead) then false
  else if jb_Stop j then true
  else bool_decide (jb_Type j = JobTypeBatch).

Definition jobIsPeriodic (j : Job) : bool :=
  match jb_Periodic j with Some p => pc_Enabled p | None => false end.

Definition indexOn {V} (name : string) (allowMissing : bool) (indexer : Indexer V) : IndexSchema V :=
  mkIndexSchema name allowMissing false indexer.

Definition indexTableSchema : TableSchema IndexEntry := mkTableSchema (Single (StringFieldIndex ie_Key true)) [].
Definition nodeTableSchema : TableSchema Node := mkTableSchema (Single (UUIDFieldIndex nd_ID)) [].
Definition jobTableSchema : TableSchema Job := mkTableSchema (Single (StringFieldIndex jb_ID true))
  [indexOn "type" false (Single (StringFieldIndex jb_Type false));
   indexOn "gc" false (Single (ConditionalIndex jobIsGCable));
   indexOn "periodic" false (Single (ConditionalIndex jobIsPeriodic))].
Definition jobSummarySchema : TableSchema JobSummary := mkTableSchema (Single (StringFieldIndex js_JobID true)) [].
Definition jobVersionSchema : TableSchema Job :=
  mkTableSchema (CompoundIndex [StringFieldIndex jb_ID true; UintFieldIndex jb_Version]) [].
Definition deploymentSchema : TableSchema Deployment := mkTableSchema (Single (UUIDFieldIndex d_ID))
  [indexOn "job" false (Single (StringFieldIndex d_JobID true))].
Definition periodicLaunchTableSchema : TableSchema PeriodicLaunch := mkTableSchema (Single (StringFieldIndex pn_ID true)) [].
Definition evalTableSchema : TableSchema Evaluation := mkTableSchema (Single (UUIDFieldIndex ev_ID))
  [indexOn "job" false (CompoundIndex [StringFieldIndex ev_JobID true; StringFieldIndex ev_Status true])].
Definition allocTableSchema : TableSchema Allocation := mkTableSchema (Single (UUIDFieldIndex al_ID))
  [indexOn "node" true (CompoundIndex [StringFieldIndex al_NodeID true; ConditionalIndex AllocTerminal]);
   indexOn "job" false (Single (StringFieldIndex al_JobID true));
   indexOn "eval" false (Single (UUIDFieldIndex al_EvalID));
   indexOn "deployment" true (Single (UUIDFieldIndex al_DeploymentID))].
Definition vaultAccessorTableSchema : TableSchema VaultAccessor := mkTableSchema (Single (StringFieldIndex vac_Accessor false))
  [indexOn "alloc_id" false (Single (StringFieldIndex vac_AllocID false));
   indexOn "node_id" false (Single (StringFieldIndex vac_NodeID false))].

(** ** The store and its transactions *)

Record StateStore := mkStateStore {
  st_index : Table IndexEntry;
  st_nodes : Table Node;
  st_jobs : Table Job;
  st_job_summary : Table JobSummary;
  st_job_version : Table Job;
  st_deployment : Table Deployment;
  st_periodic_launch : Table PeriodicLaunch;
  st_evals : Table Evaluation;
  st_allocs : Table Allocation;
  st_vault_accessors : Table VaultAccessor
}.
#[export] Instance eta_StateStore : Eta StateStore := fun r =>
  mkStateStore (st_index r) (st_nodes r) (st_jobs r) (st_job_summary r) (st_job_version r) (st_deployment r)
    (st_periodic_launch r) (st_evals r) (st_allocs r) (st_vault_accessors r).

Definition NewStateStore : StateStore := mkStateStore ∅ ∅ ∅ ∅ ∅ ∅ ∅ ∅ ∅ ∅.

(** A table of the store by its name in the schema. *)
Record TableRef (V : Type) := mkTableRef {
  tr_schema : TableSchema V;
  tr_get : StateStore → Table V;
  tr_set : Table V → StateStore → StateStore
}.
Arguments mkTableRef {V}.
Arguments tr_schema {V}.
Arguments tr_get {V}.
Arguments tr_set {V}.

Definition indexes : TableRef IndexEntry := mkTableRef indexTableSchema st_index (fun t s => s <| st_index := t |>).
Definition nodes : TableRef Node := mkTableRef nodeTableSchema st_nodes (fun t s => s <| st_nodes := t |>).
Definition jobs : TableRef Job := mkTableRef jobTableSchema st_jobs (fun t s => s <| st_jobs := t |>).
Definition job_summary : TableRef JobSummary := mkTableRef jobSummarySchema st_job_summary (fun t s => s <| st_job_summary := t |>).
Definition job_version : TableRef Job := mkTableRef jobVersionSchema st_job_version (fun t s => s <| st_job_version := t |>).
Definition deployment : TableRef Deployment := mkTableRef deploymentSchema st_deployment (fun t s => s <| st_deployment := t |>).
Definition periodic_launch : TableRef PeriodicLaunch :=
  mkTableRef periodicLaunchTableSchema st_periodic_launch (fun t s => s <| st_periodic_launch := t |>).
Definition evals : TableRef Evaluation := mkTableRef evalTableSchema st_evals (fun t s => s <| st_evals := t |>).
Definition allocs : TableRef Allocation := mkTableRef allocTableSchema st_allocs (fun t s => s <| st_allocs := t |>).
Definition vault_accessors : TableRef VaultAccessor :=
  mkTableRef vaultAccessorTableSchema st_vault_accessors (fun t s => s <| st_vault_accessors := t |>).

Definition Txn (A : Type) : Type := StateStore → (GoError + A) * StateStore.
#[export] Instance Txn_ret : MRet Txn := fun A a s => (inr a, s).
#[export] Instance Txn_bind : MBind Txn := fun A B k m s =>
  match m s with (inl err, s) => (inl err, s) | (inr a, s) => k a s end.

Definition fail {A} (err : GoError) : Txn A := fun s => (inl err, s).
Definition lift {A} (r : GoError + A) : Txn A := fun s => (r, s).

(** [if err != nil { return fmt.Errorf(format, args, err) }] *)
Definition wrap {A} (format : string) (args : list string) (m : Txn A) : Txn A := fun s =>
  match m s with (inl err, s) => (inl (wrapErr format args err), s) | r => r end.

(** A loop that ends at the first error. *)
Fixpoint forEach {A} (l : list A) (body : A → Txn unit) : Txn unit :=
  match l with [] => mret tt | x :: l => body x ≫= fun _ => forEach l body end.

(** A write transaction of an exported operation: deferred abort, commit at the end. *)
Definition commit (m : Txn unit) (s : StateStore) : (GoError + unit) * StateStore :=
  match m s with (inl err, _) => (inl err, s) | r => r end.

(** The order in which [range] visits a map with string keys. *)
Class RangeOrder := {
  range {A} : gmap string A → list (string * A);
  range_perm {A} (m : gmap string A) : range m ≡ₚ map_to_list m
}.

Section store.
Context `{CaseLib} `{RangeOrder}.
Implicit Types (index : Z) (s : StateStore).

Definition txnInsert {V} (r : TableRef V) (obj : V) : Txn unit := fun s =>
  let '(res, t) := Insert (tr_schema r) obj (tr_get r s) in (res, tr_set r t s).
Definition txnDelete {V} (r : TableRef V) (obj : V) : Txn unit := fun s =>
  let '(res, t) := Delete (tr_schema r) obj (tr_get r s) in (res, tr_set r t s).
Definition txnDeleteAll {V} (r : TableRef V) (name : string) (args : list Arg) : Txn unit := fun s =>
  let '(res, t) := DeleteAll (tr_schema r) name args (tr_get r s) in (res, tr_set r t s).

(** Reads, of a transaction that is in progress or of the store. *)
Definition queryFirst {V} (r : TableRef V) s (name : string) (args : list Arg) : GoError + option V :=
  First (tr_schema r) (tr_get r s) name args.
Definition queryGet {V} (r : TableRef V) s (name : string) (args : list Arg) : GoError + list V :=
  Get (tr_schema r) (tr_get r s) name args.
Definition txnFirst {V} (r : TableRef V) (name : string) (args : list Arg) : Txn (option V) := fun s => (queryFirst r s name args, s).
Definition txnGet {V} (r : TableRef V) (name : string) (args : list Arg) : Txn (list V) := fun s => (queryGet r s name args, s).

Definition firstByID {V} (r : TableRef V) (id : string) : Txn (option V) := txnFirst r "id" [AString id].

(** [txn.Insert("index", &IndexEntry{name, index})] *)
Definition setIndex (name : string) index : Txn unit :=
  wrap "index update failed: %v" [] (txnInsert indexes (mkIndexEntry name index)).

(** ** Job status *)

Definition getJobStatus (job : Job) (evalDelete : bool) : Txn string :=
  als ← txnGet allocs "job" [AString (jb_ID job)];
  if existsb (fun a => negb (AllocTerminal a)) als then mret JobStatusRunning
  else
    evs ← txnGet evals "job_prefix" [AString (jb_ID job)];
    let evs := filter (fun e => ev_JobID e = jb_ID job) evs in
    if existsb (fun e => negb (TerminalStatus e)) evs then mret JobStatusPending
    else if bool_decide (jb_Type job = JobTypeSystem) then
      mret (if jb_Stop job then JobStatusDead else JobStatusRunning)
    else if evalDelete || negb (length evs =? 0)%nat || negb (length als =? 0)%nat then mret JobStatusDead
    else if IsPeriodic job || IsParameterized job then
      mret (if jb_Stop job then JobStatusDead else JobStatusRunning)
    else mret JobStatusPending.

(** The counter of the children with a status, changed by [d]. *)
Definition countChild (format status : string) (d : Z) (c : JobChildrenSummary) : GoError + JobChildrenSummary :=
  if bool_decide (status = JobStatusPending) then inr (c <| jc_Pending := wrap64 (jc_Pending c + d) |>)
  else if bool_decide (status = JobStatusRunning) then inr (c <| jc_Running := wrap64 (jc_Running c + d) |>)
  else if bool_decide (status = JobStatusDead) then inr (c <| jc_Dead := wrap64 (jc_Dead c + d) |>)
  else inl (Errorf format [status]).

Definition updateChildren index (updated : Job) (oldStatus newStatus : string) : Txn unit :=
  if bool_decide (jb_ParentID updated = "") then mret tt
  else
    summaryRaw ← wrap "unable to retrieve summary for parent job: %v" [] (firstByID job_summary (jb_ParentID updated));
    match summaryRaw with
    | None => mret tt
    | Some pSummary =>
        let children := default (mkJobChildrenSummary 0 0 0) (js_Children pSummary) in
        children ← (if bool_decide (oldStatus = "") then mret children
                    else lift (countChild "unknown old job status %q" oldStatus (-1) children));
        children ← lift (countChild "unknown new job status %q" newStatus 1 children);
        let pSummary := pSummary <| js_Children := Some children |> <| js_ModifyIndex := index |> in
        wrap "job summary insert failed: %v" [] (txnInsert job_summary pSummary) ≫= fun _ =>
        setIndex "job_summary" index
    end.

Definition setJobStatus index (job : Job) (evalDelete : bool) (forceStatus : string) : Txn unit :=
  let oldStatus := if index =? jb_CreateIndex job then "" else jb_Status job in
  newStatus ← (if bool_decide (forceStatus = "") then getJobStatus job evalDelete else mret forceStatus);
  if bool_decide (oldStatus = newStatus) then mret tt
  else
    let updated := job <| jb_Status := newStatus |> <| jb_ModifyIndex := index |> in
    wrap "job insert failed: %v" [] (txnInsert jobs updated) ≫= fun _ =>
    setIndex "jobs" index ≫= fun _ =>
    updateChildren index updated oldStatus newStatus.

Definition setJobStatuses index (js : gmap string string) (evalDelete : bool) : Txn unit :=
  forEach (range js) (fun '(job, forceStatus) =>
    existing ← wrap "job lookup failed: %v" [] (firstByID jobs job);
    match existing with
    | None => mret tt
    | Some job => setJobStatus index job evalDelete forceStatus
    end).

(** ** Jobs *)

Definition updateSummaryWithJob index (job : Job) : Txn unit :=
  summaryRaw ← wrap "job summary lookup failed: %v" [] (firstByID job_summary (jb_ID job));
  let '(summary, changed) :=
    match summaryRaw with
    | Some summary => (summary, false)
    | None => (mkJobSummary (jb_ID job) ∅ (Some (mkJobChildrenSummary 0 0 0)) index 0, true)
    end in
  let '(summary, changed) :=
    foldl (fun (sc : JobSummary * bool) tg =>
        match js_Summary sc.1 !! tg_Name tg with
        | Some _ => sc
        | None => (sc.1 <| js_Summary ::= insert (tg_Name tg) zeroTaskGroupSummary |>, true)
        end) (summary, changed) (jb_TaskGroups job) in
  if changed then
    setIndex "job_summary" index ≫= fun _ => txnInsert job_summary (summary <| js_ModifyIndex := index |>)
  else mret tt.

(** The tracked versions, in the reverse order of their keys. *)
Definition jobVersionByID (id : string) : Txn (list Job) :=
  all ← txnGet job_version "id_prefix" [AString id];
  mret (reverse (filter (fun j => jb_ID j = id) all)).

Definition upsertJobVersion index (job : Job) : Txn unit :=
  wrap "failed to insert job into job_version table: %v" [] (txnInsert job_version job) ≫= fun _ =>
  setIndex "job_version" index ≫= fun _ =>
  all ← wrap "failed to look up job versions for %q: %v" [jb_ID job] (jobVersionByID (jb_ID job));
  if (length all <=? JobTrackedVersions)%nat then mret tt
  else
    let max := JobTrackedVersions in
    let stableIdx := fst <$> list_find (fun j => jb_Stable j = true) all in
    let all := if bool_decide (stableIdx = Some max)
               then match all !! max, all !! (max - 1)%nat with
                    | Some x, Some y => <[(max - 1)%nat := x]> (<[max := y]> all)
                    | _, _ => all
                    end
               else all in
    match all !! max with
    | None => fail GoPanic
    | Some d => wrap "failed to delete job %v (%d) from job_version" [jb_ID d] (txnDelete job_version d)
    end.

(** [addEphemeralDiskToTaskGroups] of the store: the disk of the tasks moves to the group. *)
Definition taskDisk (tg : TaskGroup) : Z := foldl (fun mb t => wrap64 (mb + r_DiskMB (tk_Resources t))) 0 (tg_Tasks tg).
Definition withoutTaskDisk (tg : TaskGroup) : TaskGroup :=
  tg <| tg_Tasks ::= fmap (fun t => t <| tk_Resources ::= fun r => r <| r_DiskMB := 0 |> |>) |>.

Definition addEphemeralDiskToTaskGroups (job : Job) : Job :=
  job <| jb_TaskGroups ::= fmap (fun tg =>
    let diskMB := taskDisk tg in
    let tg := withoutTaskDisk tg in
    match tg_EphemeralDisk tg with
    | Some _ => tg
    | None => tg <| tg_EphemeralDisk := Some (mkEphemeralDisk false diskMB false) |>
    end) |>.

(** The indexes, the version and the status of a job that is being registered. *)
Definition prepareJob index (job : Job) (keepVersion : bool) (existing : option Job) : Txn Job :=
  match existing with
  | Some ex =>
      let job := job <| jb_CreateIndex := jb_CreateIndex ex |> <| jb_ModifyIndex := index |> in
      let job := if keepVersion then job
                 else job <| jb_JobModifyIndex := index |> <| jb_Version := (jb_Version ex + 1) mod 2 ^ 64 |> in
      status ← wrap "setting job status for %q failed: %v" [jb_ID job] (getJobStatus job false);
      mret (job <| jb_Status := status |>)
  | None =>
      let job := job <| jb_CreateIndex := index |> <| jb_ModifyIndex := index |>
                     <| jb_JobModifyIndex := index |> <| jb_Version := 0 |> in
      wrap "setting job status for %q failed: %v" [jb_ID job] (setJobStatus index job false "") ≫= fun _ =>
      updated ← wrap "job lookup failed: %v" [] (firstByID jobs (jb_ID job));
      mret (default job updated)
  end.

(** The job that goes into the version table is the one that is then normalized. *)
Definition upsertJobImpl index (job : Job) (keepVersion : bool) : Txn unit :=
  existing ← wrap "job lookup failed: %v" [] (firstByID jobs (jb_ID job));
  job ← prepareJob index job keepVersion existing;
  wrap "unable to create job summary: %v" [] (updateSummaryWithJob index job) ≫= fun _ =>
  let job := addEphemeralDiskToTaskGroups job in
  wrap "unable to upsert job into job_version table: %v" [] (upsertJobVersion index job) ≫= fun _ =>
  wrap "job insert failed: %v" [] (txnInsert jobs job) ≫= fun _ =>
  setIndex "jobs" index.

Definition UpsertJob index (job : Job) : StateStore → (GoError + unit) * StateStore := commit (upsertJobImpl index job false).

(** Each tracked version of the job deletes the version that is registered. *)
Definition deleteJobVersions index (job : Job) : Txn unit :=
  all ← txnGet job_version "id_prefix" [AString (jb_ID job)];
  forEach (filter (fun j => jb_ID j = jb_ID job) all) (fun _ =>
    wrap "deleting job versions failed: %v" []
      (txnDeleteAll job_version "id" [AString (jb_ID job); AUint (jb_Version job)])) ≫= fun _ =>
  setIndex "job_summary" index.

(** A job that is removed counts as dead in the summary of its parent. *)
Definition countDeleted index (job : Job) : Txn unit :=
  if bool_decide (jb_ParentID job = "") then mret tt
  else
    summaryRaw ← wrap "unable to retrieve summary for parent job: %v" [] (firstByID job_summary (jb_ParentID job));
    match summaryRaw with
    | None => mret tt
    | Some pSummary =>
        match js_Children pSummary with
        | None => mret tt
        | Some children =>
            let dead c := c <| jc_Dead := wrap64 (jc_Dead c + 1) |> in
            let modified :=
              if bool_decide (jb_Status job = JobStatusPending)
              then inr (Some (dead (children <| jc_Pending := wrap64 (jc_Pending children - 1) |>)))
              else if bool_decide (jb_Status job = JobStatusRunning)
              then inr (Some (dead (children <| jc_Running := wrap64 (jc_Running children - 1) |>)))
              else if bool_decide (jb_Status job = JobStatusDead) then inr None
              else inl (Errorf "unknown old job status %q" [jb_Status job]) in
            modified ← lift modified;
            match modified with
            | None => mret tt
            | Some children =>
                wrap "job summary insert failed: %v" []
                  (txnInsert job_summary (pSummary <| js_Children := Some children |> <| js_ModifyIndex := index |>)) ≫= fun _ =>
                setIndex "job_summary" index
            end
        end
    end.

Definition DeleteJob index (jobID : string) : StateStore → (GoError + unit) * StateStore :=
  commit (
    existing ← wrap "job lookup failed: %v" [] (firstByID jobs jobID);
    match existing with
    | None => fail (errorf "job not found")
    | Some job =>
        countDeleted index job ≫= fun _ =>
        wrap "job delete failed: %v" [] (txnDelete jobs job) ≫= fun _ =>
        setIndex "jobs" index ≫= fun _ =>
        deleteJobVersions index job ≫= fun _ =>
        wrap "deleing job summary failed: %v" [] (txnDeleteAll job_summary "id" [AString jobID]) ≫= fun _ =>
        setIndex "job_summary" index
    end).

(** ** Job summaries *)

Definition UpsertJobSummary index (jobSummary : JobSummary) : StateStore → (GoError + unit) * StateStore :=
  commit (
    existing ← wrap "job summary lookup failed: %v" [] (firstByID job_summary (js_JobID jobSummary));
    let jobSummary := jobSummary <| js_CreateIndex := from_option js_CreateIndex index existing |>
                                 <| js_ModifyIndex := index |> in
    txnInsert job_summary jobSummary ≫= fun _ => setIndex "job_summary" index).

Definition DeleteJobSummary index (id : string) : StateStore → (GoError + unit) * StateStore :=
  commit (wrap "deleting job summary failed: %v" [] (txnDeleteAll job_summary "id" [AString id]) ≫= fun _ =>
          setIndex "job_summary" index).

(** The count of the allocations with a client status, changed by [d]; other statuses are
    not counted. *)
Definition countStatus (status : string) (d : Z) (tg : TaskGroupSummary) : TaskGroupSummary :=
  if bool_decide (status = AllocClientStatusRunning) then tg <| tgs_Running := wrap64 (tgs_Running tg + d) |>
  else if bool_decide (status = AllocClientStatusFailed) then tg <| tgs_Failed := wrap64 (tgs_Failed tg + d) |>
  else if bool_decide (status = AllocClientStatusPending) then tg <| tgs_Starting := wrap64 (tgs_Starting tg + d) |>
  else if bool_decide (status = AllocClientStatusComplete) then tg <| tgs_Complete := wrap64 (tgs_Complete tg + d) |>
  else if bool_decide (status = AllocClientStatusLost) then tg <| tgs_Lost := wrap64 (tgs_Lost tg + d) |>
  else tg.

(** The bin an allocation leaves: failed and complete allocations stay counted. *)
Definition leaveStatus (status : string) (tg : TaskGroupSummary) : TaskGroupSummary :=
  if bool_decide (status = AllocClientStatusFailed) || bool_decide (status = AllocClientStatusComplete) then tg
  else countStatus status (-1) tg.

(** The summary of a group for a new or a changed allocation, if it changes. *)
Definition summarize (alloc : Allocation) (existing : option Allocation) (tg : TaskGroupSummary) : option TaskGroupSummary :=
  match existing with
  | None =>
      if bool_decide (al_ClientStatus alloc = AllocClientStatusPending) then
        let tg := tg <| tgs_Starting := wrap64 (tgs_Starting tg + 1) |> in
        Some (if 0 <? tgs_Queued tg then tg <| tgs_Queued := tgs_Queued tg - 1 |> else tg)
      else None
  | Some ex =>
      if bool_decide (al_ClientStatus ex ≠ al_ClientStatus alloc)
      then Some (leaveStatus (al_ClientStatus ex) (countStatus (al_ClientStatus alloc) 1 tg))
      else None
  end.

Definition updateSummaryWithAlloc index (alloc : Allocation) (existing : option Allocation) : Txn unit :=
  match al_Job alloc with
  | None => mret tt
  | Some job =>
      summaryRaw ← wrap "unable to lookup job summary for job id %q: %v" [al_JobID alloc] (firstByID job_summary (al_JobID alloc));
      match summaryRaw with
      | None =>
          rawJob ← wrap "unable to query job: %v" [] (firstByID jobs (al_JobID alloc));
          match rawJob with
          | None => mret tt
          | Some _ => fail (Errorf "job summary for job %q is not present" [al_JobID alloc])
          end
      | Some jobSummary =>
          if negb (js_CreateIndex jobSummary =? jb_CreateIndex job) then mret tt
          else match js_Summary jobSummary !! al_TaskGroup alloc with
               | None => fail (Errorf "unable to find task group in the job summary: %v" [al_TaskGroup alloc])
               | Some tgSummary =>
                   match summarize alloc existing tgSummary with
                   | None => mret tt
                   | Some tgSummary =>
                       setIndex "job_summary" index ≫= fun _ =>
                       wrap "updating job summary failed: %v" []
                         (txnInsert job_summary (jobSummary <| js_Summary ::= insert (al_TaskGroup alloc) tgSummary |>
                                                            <| js_ModifyIndex := index |>))
                   end
               end
      end
  end.

(** One allocation in the reconciliation of a summary. *)
Definition countAlloc (job : Job) (summary : gmap string TaskGroupSummary) (alloc : Allocation) : gmap string TaskGroupSummary :=
  match al_Job alloc with
  | Some j =>
      if negb (jb_CreateIndex j =? jb_CreateIndex job) then summary
      else
        let tg := default zeroTaskGroupSummary (summary !! al_TaskGroup alloc) in
        <[al_TaskGroup alloc := countStatus (al_ClientStatus alloc) 1 tg]> summary
  | None => summary
  end.

Definition ReconcileJobSummaries index : StateStore → (GoError + unit) * StateStore :=
  commit (
    js ← txnGet jobs "id" [];
    forEach js (fun job =>
      als ← txnGet allocs "job" [AString (jb_ID job)];
      let empty := foldl (fun m tg => <[tg_Name tg := zeroTaskGroupSummary]> m) ∅ (jb_TaskGroups job) in
      wrap "error inserting job summary: %v" []
        (txnInsert job_summary
           (mkJobSummary (jb_ID job) (foldl (countAlloc job) empty als) None (jb_CreateIndex job) index))) ≫= fun _ =>
    setIndex "job_summary" index).

(** ** Deployments and the stability of jobs *)

Definition jobByIDAndVersionImpl (id : string) (version : Z) : Txn (option Job) :=
  txnFirst job_version "id" [AString id; AUint version].

Definition updateJobStabilityImpl index (jobID : string) (jobVersion : Z) (stable : bool) : Txn unit :=
  job ← jobByIDAndVersionImpl jobID jobVersion;
  match job with
  | None => mret tt
  | Some job =>
      if bool_decide (jb_Stable job = stable) then mret tt
      else upsertJobImpl index (job <| jb_Stable := stable |>) true
  end.

Definition UpdateJobStability index (jobID : string) (jobVersion : Z) (stable : bool) : StateStore → (GoError + unit) * StateStore :=
  commit (updateJobStabilityImpl index jobID jobVersion stable).

Definition markStable index (d : Deployment) : Txn unit :=
  if bool_decide (d_Status d = DeploymentStatusSuccessful) then
    wrap "failed to update job stability: %v" [] (updateJobStabilityImpl index (d_JobID d) (d_JobVersion d) true)
  else mret tt.

Definition upsertDeploymentImpl index (d : Deployment) : Txn unit :=
  existing ← wrap "deployment lookup failed: %v" [] (firstByID deployment (d_ID d));
  let d := d <| d_CreateIndex := from_option d_CreateIndex index existing |> <| d_ModifyIndex := index |> in
  txnInsert deployment d ≫= fun _ =>
  setIndex "deployment" index ≫= fun _ =>
  markStable index d.

Definition UpsertDeployment index (d : Deployment) : StateStore → (GoError + unit) * StateStore :=
  commit (upsertDeploymentImpl index d).

Definition deploymentByIDImpl (id : string) : Txn (option Deployment) :=
  wrap "deployment lookup failed: %v" [] (firstByID deployment id).

(** The deployment an update names, if it is active. *)
Definition activeDeployment (id : string) : Txn Deployment :=
  d ← deploymentByIDImpl id;
  match d with
  | None => fail (Errorf "Deployment ID %q couldn't be updated as it does not exist" [id])
  | Some d => if Active d then mret d else fail (Errorf "Deployment %q has terminal status %q:" [d_ID d; d_Status d])
  end.

Definition updateDeploymentStatusImpl index (u : DeploymentStatusUpdate) : Txn unit :=
  d ← activeDeployment (du_DeploymentID u);
  let copy := d <| d_Status := du_Status u |> <| d_StatusDescription := du_StatusDescription u |> <| d_ModifyIndex := index |> in
  txnInsert deployment copy ≫= fun _ =>
  setIndex "deployment" index ≫= fun _ =>
  markStable index copy.

Definition upsertDeploymentUpdates index (updates : list DeploymentStatusUpdate) : Txn unit :=
  forEach updates (updateDeploymentStatusImpl index).

Fixpoint deleteDeployments (ids : list string) : Txn unit :=
  match ids with
  | [] => mret tt
  | id :: ids =>
      existing ← wrap "deployment lookup failed: %v" [] (firstByID deployment id);
      match existing with
      | None => fail (errorf "deployment not found")
      | Some d => wrap "deployment delete failed: %v" [] (txnDelete deployment d) ≫= fun _ => deleteDeployments ids
      end
  end.

Definition DeleteDeployment index (deploymentIDs : list string) (s : StateStore) : (GoError + unit) * StateStore :=
  if (length deploymentIDs =? 0)%nat then (inr tt, s)
  else commit (deleteDeployments deploymentIDs ≫= fun _ => setIndex "deployment" index) s.

(** How the counts of a deployment change with an allocation: placed, healthy, unhealthy. *)
Definition healthOf (a : Allocation) : option bool := al_DeploymentStatus a ≫= ads_Healthy.

Definition deploymentDelta (alloc : Allocation) (existing : option Allocation) : Z * Z * Z :=
  match existing with
  | None => (1, 0, 0)
  | Some ex =>
      if bool_decide (al_DeploymentID ex ≠ al_DeploymentID alloc) then (1, 0, 0)
      else match healthOf ex, healthOf alloc with
           | None, Some h => if h then (0, 1, 0) else (0, 0, 1)
           | Some true, Some false => (0, -1, 1)
           | _, _ => (0, 0, 0)
           end
  end.

(** The allocation comes back with the index at which its health was set. *)
Definition updateDeploymentWithAlloc index (alloc : Allocation) (existing : option Allocation) : Txn Allocation :=
  if bool_decide (al_DeploymentID alloc = "") then mret alloc
  else
    d ← deploymentByIDImpl (al_DeploymentID alloc);
    match d with
    | None => fail (Errorf "allocation %q references unknown deployment %q" [al_ID alloc; al_DeploymentID alloc])
    | Some d =>
        match d_TaskGroups d !! al_TaskGroup alloc with
        | None => mret alloc
        | Some state =>
            let '(placed, healthy, unhealthy) := deploymentDelta alloc existing in
            if (placed =? 0) && (healthy =? 0) && (unhealthy =? 0) then mret alloc
            else
              let alloc := if healthy + unhealthy =? 0 then alloc
                           else alloc <| al_DeploymentStatus ::= fmap (fun ds => mkAllocDeploymentStatus (ads_Healthy ds) index) |> in
              let state := state <| ds_PlacedAllocs := wrap64 (ds_PlacedAllocs state + placed) |>
                                 <| ds_HealthyAllocs := wrap64 (ds_HealthyAllocs state + healthy) |>
                                 <| ds_UnhealthyAllocs := wrap64 (ds_UnhealthyAllocs state + unhealthy) |> in
              let copy := d <| d_ModifyIndex := index |> <| d_TaskGroups ::= insert (al_TaskGroup alloc) state |> in
              upsertDeploymentImpl index copy ≫= fun _ => mret alloc
        end
    end.

(** ** Nodes *)

Definition UpsertNode index (node : Node) : StateStore → (GoError + unit) * StateStore :=
  commit (
    existing ← wrap "node lookup failed: %v" [] (firstByID nodes (nd_ID node));
    let node := match existing with
                | Some ex => node <| nd_CreateIndex := nd_CreateIndex ex |> <| nd_ModifyIndex := index |> <| nd_Drain := nd_Drain ex |>
                | None => node <| nd_CreateIndex := index |> <| nd_ModifyIndex := index |>
                end in
    wrap "node insert failed: %v" [] (txnInsert nodes node) ≫= fun _ => setIndex "nodes" index).

Definition existingNode (nodeID : string) : Txn Node :=
  existing ← wrap "node lookup failed: %v" [] (firstByID nodes nodeID);
  match existing with None => fail (errorf "node not found") | Some n => mret n end.

Definition DeleteNode index (nodeID : string) : StateStore → (GoError + unit) * StateStore :=
  commit (
    existing ← existingNode nodeID;
    wrap "node delete failed: %v" [] (txnDelete nodes existing) ≫= fun _ => setIndex "nodes" index).

Definition UpdateNodeStatus index (nodeID status : string) : StateStore → (GoError + unit) * StateStore :=
  commit (
    existing ← existingNode nodeID;
    let copyNode := existing <| nd_Status := status |> <| nd_ModifyIndex := index |> in
    wrap "node update failed: %v" [] (txnInsert nodes copyNode) ≫= fun _ => setIndex "nodes" index).

Definition UpdateNodeDrain index (nodeID : string) (drain : bool) : StateStore → (GoError + unit) * StateStore :=
  commit (
    existing ← existingNode nodeID;
    let copyNode := existing <| nd_Drain := drain |> <| nd_ModifyIndex := index |> in
    wrap "node update failed: %v" [] (txnInsert nodes copyNode) ≫= fun _ => setIndex "nodes" index).

(** ** Periodic launches *)

Definition UpsertPeriodicLaunch index (launch : PeriodicLaunch) : StateStore → (GoError + unit) * StateStore :=
  commit (
    existing ← wrap "periodic launch lookup failed: %v" [] (firstByID periodic_launch (pn_ID launch));
    let launch := launch <| pn_CreateIndex := from_option pn_CreateIndex index existing |> <| pn_ModifyIndex := index |> in
    wrap "launch insert failed: %v" [] (txnInsert periodic_launch launch) ≫= fun _ => setIndex "periodic_launch" index).

Definition DeletePeriodicLaunch index (jobID : string) : StateStore → (GoError + unit) * StateStore :=
  commit (
    existing ← wrap "launch lookup failed: %v" [] (firstByID periodic_launch jobID);
    match existing with
    | None => fail (errorf "launch not found")
    | Some launch =>
        wrap "launch delete failed: %v" [] (txnDelete periodic_launch launch) ≫= fun _ => setIndex "periodic_launch" index
    end).

(** ** Evaluations *)

(** The queued allocations of an evaluation, for the groups of the summary. *)
Definition setQueued (sc : JobSummary * bool) (tgnum : string * Z) : JobSummary * bool :=
  match js_Summary sc.1 !! tgnum.1 with
  | Some summary =>
      if tgs_Queued summary =? tgnum.2 then sc
      else (sc.1 <| js_Summary ::= insert tgnum.1 (summary <| tgs_Queued := tgnum.2 |>) |>, true)
  | None => sc
  end.

Definition updateQueued index (eval : Evaluation) : Txn unit :=
  summaryRaw ← wrap "job summary lookup failed: %v" [] (firstByID job_summary (ev_JobID eval));
  match summaryRaw with
  | None => mret tt
  | Some js =>
      let '(js, changed) := foldl setQueued (js, false) (range (ev_QueuedAllocations eval)) in
      if changed then
        wrap "job summary insert failed: %v" [] (txnInsert job_summary (js <| js_ModifyIndex := index |>)) ≫= fun _ =>
        setIndex "job_summary" index
      else mret tt
  end.

(** Go's [%q] of an identifier. *)
Definition quoted (s : string) : string := let q := String "034"%char "" in q +:+ s +:+ q.

(** An evaluation that placed everything cancels the blocked evaluations of its job. *)
Definition cancelBlocked index (eval : Evaluation) : Txn unit :=
  if bool_decide (ev_Status eval = EvalStatusComplete) && (size (ev_FailedTGAllocs eval) =? 0)%nat then
    blocked ← wrap "failed to get blocked evals for job %q: %v" [ev_JobID eval]
                (txnGet evals "job" [AString (ev_JobID eval); AString EvalStatusBlocked]);
    forEach blocked (fun e =>
      wrap "eval insert failed: %v" []
        (txnInsert evals (e <| ev_Status := EvalStatusCancelled |>
                            <| ev_StatusDescription := "evaluation " +:+ quoted (ev_ID e) +:+ " successful" |>
                            <| ev_ModifyIndex := index |>)))
  else mret tt.

Definition nestedUpsertEval index (eval : Evaluation) : Txn unit :=
  existing ← wrap "eval lookup failed: %v" [] (firstByID evals (ev_ID eval));
  let eval := eval <| ev_CreateIndex := from_option ev_CreateIndex index existing |> <| ev_ModifyIndex := index |> in
  updateQueued index eval ≫= fun _ =>
  cancelBlocked index eval ≫= fun _ =>
  wrap "eval insert failed: %v" [] (txnInsert evals eval) ≫= fun _ =>
  setIndex "evals" index.

Definition UpsertEvals index (evs : list Evaluation) : StateStore → (GoError + unit) * StateStore :=
  commit (
    forEach evs (nestedUpsertEval index) ≫= fun _ =>
    let js := foldl (fun m e => <[ev_JobID e := ""]> m) ∅ evs in
    wrap "setting job status failed: %v" [] (setJobStatuses index js false)).

(** The jobs of the evaluations that existed. *)
Fixpoint deleteEvals (ids : list string) (js : gmap string string) : Txn (gmap string string) :=
  match ids with
  | [] => mret js
  | id :: ids =>
      existing ← wrap "eval lookup failed: %v" [] (firstByID evals id);
      match existing with
      | None => deleteEvals ids js
      | Some e =>
          wrap "eval delete failed: %v" [] (txnDelete evals e) ≫= fun _ => deleteEvals ids (<[ev_JobID e := ""]> js)
      end
  end.

Definition deleteAllocs (ids : list string) : Txn unit :=
  forEach ids (fun id =>
    existing ← wrap "alloc lookup failed: %v" [] (firstByID allocs id);
    match existing with
    | None => mret tt
    | Some a => wrap "alloc delete failed: %v" [] (txnDelete allocs a)
    end).

Definition DeleteEval index (evs als : list string) : StateStore → (GoError + unit) * StateStore :=
  commit (
    js ← deleteEvals evs ∅;
    deleteAllocs als ≫= fun _ =>
    setIndex "evals" index ≫= fun _ =>
    setIndex "allocs" index ≫= fun _ =>
    wrap "setting job status failed: %v" [] (setJobStatuses index js true)).

(** ** Allocations *)

Definition forceStatusOf (alloc : Allocation) : string := if AllocTerminal alloc then "" else JobStatusRunning.

Definition nestedUpdateAllocFromClient index (alloc : Allocation) : Txn unit :=
  existing ← wrap "alloc lookup failed: %v" [] (firstByID allocs (al_ID alloc));
  match existing with
  | None => mret tt
  | Some exist_ =>
      let copyAlloc := exist_ <| al_ClientStatus := al_ClientStatus alloc |> <| al_ClientDescription := al_ClientDescription alloc |>
                              <| al_TaskStates := al_TaskStates alloc |> <| al_DeploymentStatus := al_DeploymentStatus alloc |>
                              <| al_ModifyIndex := index |> in
      copyAlloc ← wrap "error updating deployment: %v" [] (updateDeploymentWithAlloc index copyAlloc (Some exist_));
      wrap "error updating job summary: %v" [] (updateSummaryWithAlloc index copyAlloc (Some exist_)) ≫= fun _ =>
      wrap "alloc insert failed: %v" [] (txnInsert allocs copyAlloc) ≫= fun _ =>
      wrap "setting job status failed: %v" [] (setJobStatuses index {[ al_JobID exist_ := forceStatusOf copyAlloc ]} false)
  end.

Definition UpdateAllocsFromClient index (als : list Allocation) : StateStore → (GoError + unit) * StateStore :=
  commit (forEach als (nestedUpdateAllocFromClient index) ≫= fun _ => setIndex "allocs" index).

(** What is kept of an existing allocation when the scheduler writes it again; a new
    allocation must have its job. *)
Definition mergeAlloc index (alloc : Allocation) (existing : option Allocation) : GoError + Allocation :=
  match existing with
  | None =>
      match al_Job alloc with
      | None => inl (Errorf "attempting to upsert allocation %q without a job" [al_ID alloc])
      | Some _ => inr (alloc <| al_CreateIndex := index |> <| al_ModifyIndex := index |> <| al_AllocModifyIndex := index |>)
      end
  | Some ex =>
      let alloc := alloc <| al_CreateIndex := al_CreateIndex ex |> <| al_ModifyIndex := index |>
                         <| al_AllocModifyIndex := index |> <| al_TaskStates := al_TaskStates ex |> in
      let alloc := if bool_decide (al_ClientStatus alloc = AllocClientStatusLost) then alloc
                   else alloc <| al_ClientStatus := al_ClientStatus ex |> <| al_ClientDescription := al_ClientDescription ex |> in
      inr (match al_Job alloc with None => alloc <| al_Job := al_Job ex |> | Some _ => alloc end)
  end.

Definition upsertAlloc index (alloc : Allocation) : Txn Allocation :=
  existing ← wrap "alloc lookup failed: %v" [] (firstByID allocs (al_ID alloc));
  alloc ← lift (mergeAlloc index alloc existing);
  alloc ← wrap "error updating deployment: %v" [] (updateDeploymentWithAlloc index alloc existing);
  wrap "error updating job summary: %v" [] (updateSummaryWithAlloc index alloc existing) ≫= fun _ =>
  let alloc := alloc <| al_Job ::= fmap addEphemeralDiskToTaskGroups |> in
  wrap "alloc insert failed: %v" [] (txnInsert allocs alloc) ≫= fun _ =>
  mret alloc.

(** The loop of [upsertAllocsImpl]: the jobs with the status to force. *)
Fixpoint upsertAllocsLoop index (als : list Allocation) (js : gmap string string) : Txn (gmap string string) :=
  match als with
  | [] => mret js
  | alloc :: als =>
      alloc ← upsertAlloc index alloc;
      upsertAllocsLoop index als (<[al_JobID alloc := forceStatusOf alloc]> js)
  end.

Definition upsertAllocsImpl index (als : list Allocation) : Txn unit :=
  js ← upsertAllocsLoop index als ∅;
  setIndex "allocs" index ≫= fun _ =>
  wrap "setting job status failed: %v" [] (setJobStatuses index js false).

Definition UpsertAllocs index (als : list Allocation) : StateStore → (GoError + unit) * StateStore :=
  commit (upsertAllocsImpl index als).

(** ** Plan results *)

Definition DenormalizeAllocationJobs (job : option Job) (als : list Allocation) : list Allocation :=
  match job with
  | None => als
  | Some _ => fmap (fun a => match al_Job a with
                             | None => if AllocTerminal a then a else a <| al_Job := job |>
                             | Some _ => a
                             end) als
  end.

(** The total of the resources of the tasks and of the shared ones, if it is missing. *)
Definition totalResources (alloc : Allocation) : Allocation :=
  match al_Resources alloc with
  | Some _ => alloc
  | None =>
      let sum := foldl (fun r (kr : string * Resources) => Add r (Some kr.2)) zeroResources (range (default ∅ (al_TaskResources alloc))) in
      alloc <| al_Resources := Some (Add sum (al_SharedResources alloc)) |>
  end.

(** The error of the status updates is dropped. *)
Definition ignoreErr (m : Txn unit) : Txn unit := fun s =>
  match m s with (inl GoPanic, s) => (inl GoPanic, s) | (_, s) => (inr tt, s) end.

Definition UpsertPlanResults index (results : ApplyPlanResultsRequest) : StateStore → (GoError + unit) * StateStore :=
  commit (
    (match ap_Deployment results with
     | Some d => upsertDeploymentImpl index d
     | None => mret tt
     end) ≫= fun _ =>
    (if (length (ap_DeploymentUpdates results) =? 0)%nat then mret tt
     else ignoreErr (upsertDeploymentUpdates index (ap_DeploymentUpdates results))) ≫= fun _ =>
    let als := DenormalizeAllocationJobs (ap_Job results) (ap_Alloc results) in
    upsertAllocsImpl index (totalResources <$> als)).

(** ** Deployment requests *)

Definition upsertOptionalEval index (eval : option Evaluation) : Txn unit :=
  match eval with Some e => nestedUpsertEval index e | None => mret tt end.
Definition upsertOptionalJob index (job : option Job) : Txn unit :=
  match job with Some j => upsertJobImpl index j false | None => mret tt end.

Definition UpdateDeploymentStatus index (req : DeploymentStatusUpdateRequest) : StateStore → (GoError + unit) * StateStore :=
  commit (
    updateDeploymentStatusImpl index (dr_DeploymentUpdate req) ≫= fun _ =>
    upsertOptionalJob index (dr_Job req) ≫= fun _ =>
    upsertOptionalEval index (dr_Eval req)).

(** The canaries of the groups being promoted that are not healthy. *)
Definition unhealthyCanaries (d : Deployment) (all : bool) (groups : list string) (als : list Allocation) : list Allocation :=
  let canaries := concat (ds_PlacedCanaries <$> vals (d_TaskGroups d)) in
  filter (fun a => bool_decide (al_ID a ∈ canaries) && (all || bool_decide (al_TaskGroup a ∈ groups)) &&
                   negb (IsHealthy (al_DeploymentStatus a)) = true) als.

Definition promote (d : Deployment) (all : bool) (groups : list string) index : Deployment :=
  let copy := d <| d_ModifyIndex := index |>
                <| d_TaskGroups ::= map_imap (fun tg st =>
                     Some (if all || bool_decide (tg ∈ groups) then st <| ds_Promoted := true |> else st)) |> in
  if negb (RequiresPromotion (Some copy)) && bool_decide (d_Status copy = DeploymentStatusRunning)
  then copy <| d_StatusDescription := DescriptionRunning |> else copy.

Definition UpdateDeploymentPromotion index (req : ApplyDeploymentPromoteRequest) : StateStore → (GoError + unit) * StateStore :=
  commit (
    d ← activeDeployment (dp_DeploymentID req);
    als ← txnGet allocs "deployment" [AString (dp_DeploymentID req)];
    let unhealthy := unhealthyCanaries d (dp_All req) (dp_Groups req) als in
    if negb (length unhealthy =? 0)%nat then
      fail (Errorf "Canary allocation %q for group %q is not healthy" (al_ID <$> unhealthy))
    else
      upsertDeploymentImpl index (promote d (dp_All req) (dp_Groups req) index) ≫= fun _ =>
      upsertOptionalEval index (dp_Eval req)).

Definition setAllocHealth index (deploymentID : string) (healthy : bool) (id : string) : Txn unit :=
  existing ← wrap "alloc %q lookup failed: %v" [id] (firstByID allocs id);
  match existing with
  | None => fail (Errorf "unknown alloc %q" [id])
  | Some old =>
      if bool_decide (al_DeploymentID old ≠ deploymentID)
      then fail (Errorf "alloc %q is not part of deployment %q" [id; deploymentID])
      else
        let copy := old <| al_DeploymentStatus := Some (mkAllocDeploymentStatus (Some healthy) index) |> in
        copy ← wrap "error updating deployment: %v" [] (updateDeploymentWithAlloc index copy (Some old));
        wrap "alloc insert failed: %v" [] (txnInsert allocs copy)
  end.

Definition UpdateDeploymentAllocHealth index (req : ApplyDeploymentAllocHealthRequest) : StateStore → (GoError + unit) * StateStore :=
  commit (
    _ ← activeDeployment (dh_DeploymentID req);
    (if (length (dh_HealthyAllocationIDs req) + length (dh_UnhealthyAllocationIDs req) =? 0)%nat then mret tt
     else
       forEach (dh_HealthyAllocationIDs req) (setAllocHealth index (dh_DeploymentID req) true) ≫= fun _ =>
       forEach (dh_UnhealthyAllocationIDs req) (setAllocHealth index (dh_DeploymentID req) false) ≫= fun _ =>
       setIndex "allocs" index) ≫= fun _ =>
    (match dh_DeploymentUpdate req with
     | Some u => updateDeploymentStatusImpl index u
     | None => mret tt
     end) ≫= fun _ =>
    upsertOptionalJob index (dh_Job req) ≫= fun _ =>
    upsertOptionalEval index (dh_Eval req)).

(** ** Vault accessors *)

Definition UpsertVaultAccessor index (accessors : list VaultAccessor) : StateStore → (GoError + unit) * StateStore :=
  commit (
    forEach accessors (fun a =>
      wrap "accessor insert failed: %v" [] (txnInsert vault_accessors (a <| vac_CreateIndex := index |>))) ≫= fun _ =>
    setIndex "vault_accessors" index).

Definition DeleteVaultAccessors index (accessors : list VaultAccessor) : StateStore → (GoError + unit) * StateStore :=
  commit (
    forEach accessors (fun a => wrap "accessor delete failed: %v" [] (txnDelete vault_accessors a)) ≫= fun _ =>
    setIndex "vault_accessors" index).

(** ** Indexes *)

Definition Index s (name : string) : GoError + Z :=
  match queryFirst indexes s "id" [AString name] with
  | inl err => inl err
  | inr out => inr (from_option ie_Value 0 out)
  end.

Definition LatestIndex s : GoError + Z :=
  match queryGet indexes s "id" [] with
  | inl err => inl err
  | inr idxs => inr (foldl (fun max idx => if max <? ie_Value idx then ie_Value idx else max) 0 idxs)
  end.

Definition RemoveIndex (name : string) : StateStore → (GoError + unit) * StateStore :=
  commit (txnDeleteAll indexes "id" [AString name]).

(** ** Queries

    The iterators of the code are lists. *)

Definition NodeByID s (id : string) : GoError + option Node := queryFirst nodes s "id" [AString id].
Definition Nodes s : GoError + list Node := queryGet nodes s "id" [].
Definition JobByID s (id : string) : GoError + option Job := queryFirst jobs s "id" [AString id].
Definition Jobs s : GoError + list Job := queryGet jobs s "id" [].
Definition JobsByPeriodic s (periodic : bool) : GoError + list Job := queryGet jobs s "periodic" [ABool periodic].
Definition JobsByScheduler s (schedulerType : string) : GoError + list Job := queryGet jobs s "type" [AString schedulerType].
Definition JobsByGC s (gc : bool) : GoError + list Job := queryGet jobs s "gc" [ABool gc].
Definition JobSummaryByID s (id : string) : GoError + option JobSummary := queryFirst job_summary s "id" [AString id].
Definition JobVersionsByID s (id : string) : GoError + list Job := (jobVersionByID id s).1.
Definition JobByIDAndVersion s (id : string) (version : Z) : GoError + option Job := (jobByIDAndVersionImpl id version s).1.
Definition DeploymentByID s (id : string) : GoError + option Deployment := queryFirst deployment s "id" [AString id].
Definition DeploymentsByJobID s (jobID : string) : GoError + list Deployment := queryGet deployment s "job" [AString jobID].
Definition PeriodicLaunchByID s (id : string) : GoError + option PeriodicLaunch := queryFirst periodic_launch s "id" [AString id].
Definition EvalByID s (id : string) : GoError + option Evaluation := queryFirst evals s "id" [AString id].
Definition AllocByID s (id : string) : GoError + option Allocation := queryFirst allocs s "id" [AString id].
Definition AllocsByNode s (node : string) : GoError + list Allocation := queryGet allocs s "node_prefix" [AString node].
Definition AllocsByNodeTerminal s (node : string) (terminal : bool) : GoError + list Allocation :=
  queryGet allocs s "node" [AString node; ABool terminal].
Definition AllocsByEval s (evalID : string) : GoError + list Allocation := queryGet allocs s "eval" [AString evalID].
Definition AllocsByDeployment s (id : string) : GoError + list Allocation := queryGet allocs s "deployment" [AString id].
Definition VaultAccessorsByAlloc s (id : string) : GoError + list VaultAccessor := queryGet vault_accessors s "alloc_id" [AString id].
Definition VaultAccessorsByNode s (id : string) : GoError + list VaultAccessor := queryGet vault_accessors s "node_id" [AString id].

(** The whole tables, as a snapshot reads them. *)
Definition Indexes s : GoError + list IndexEntry := queryGet indexes s "id" [].
Definition JobSummaries s : GoError + list JobSummary := queryGet job_summary s "id" [].
Definition JobVersions s : GoError + list Job := queryGet job_version s "id" [].
Definition Deployments s : GoError + list Deployment := queryGet deployment s "id" [].
Definition PeriodicLaunches s : GoError + list PeriodicLaunch := queryGet periodic_launch s "id" [].
Definition Evals s : GoError + list Evaluation := queryGet evals s "id" [].
Definition Allocs s : GoError + list Allocation := queryGet allocs s "id" [].
Definition VaultAccessors s : GoError + list VaultAccessor := queryGet vault_accessors s "id" [].

Definition LatestDeploymentByJobID s (jobID : string) : GoError + option Deployment :=
  match queryGet deployment s "job" [AString jobID] with
  | inl err => inl err
  | inr ds => inr (foldl (fun out d => match out with
                                       | None => Some d
                                       | Some o => if d_CreateIndex o <? d_CreateIndex d then Some d else out
                                       end) None ds)
  end.

Definition EvalsByJob s (jobID : string) : GoError + list Evaluation :=
  match queryGet evals s "job_prefix" [AString jobID] with
  | inl err => inl err
  | inr out => inr (filter (fun e => ev_JobID e = jobID) out)
  end.

(** Unless all are asked for, allocations of an earlier job with the same ID are left
    out; an allocation without job is then a panic. *)
Definition AllocsByJob s (jobID : string) (all : bool) : GoError + list Allocation :=
  match JobByID s jobID, queryGet allocs s "job" [AString jobID] with
  | inl err, _ | _, inl err => inl err
  | inr job, inr out =>
      match job with
      | Some job =>
          if all then inr out
          else if existsb (fun a => bool_decide (al_Job a = None)) out then inl GoPanic
          else inr (filter (fun a => from_option jb_CreateIndex 0 (al_Job a) = jb_CreateIndex job) out)
      | None => inr out
      end
  end.

(** ** Restoring from a snapshot: one transaction of plain insertions *)

Definition restoreEphemeralDisk (job : Job) : Job :=
  job <| jb_TaskGroups ::= fmap (fun tg =>
    match tg_EphemeralDisk tg with
    | Some _ => tg
    | None => (withoutTaskDisk tg) <| tg_EphemeralDisk := Some (mkEphemeralDisk false (taskDisk tg) false) |>
    end) |>.

Definition NodeRestore (node : Node) : Txn unit := wrap "node insert failed: %v" [] (txnInsert nodes node).
Definition JobRestore (job : Job) : Txn unit := wrap "job insert failed: %v" [] (txnInsert jobs (restoreEphemeralDisk job)).
Definition EvalRestore (eval : Evaluation) : Txn unit := wrap "eval insert failed: %v" [] (txnInsert evals eval).
Definition AllocRestore (alloc : Allocation) : Txn unit :=
  alloc ← (match al_SharedResources alloc, al_Resources alloc with
           | Some _, _ => mret alloc
           | None, Some r => mret (alloc <| al_SharedResources := Some (zeroResources <| r_DiskMB := r_DiskMB r |>) |>)
           | None, None => fail GoPanic
           end);
  wrap "alloc insert failed: %v" [] (txnInsert allocs (alloc <| al_Job ::= fmap restoreEphemeralDisk |>)).
Definition IndexRestore (idx : IndexEntry) : Txn unit := wrap "index insert failed: %v" [] (txnInsert indexes idx).
Definition PeriodicLaunchRestore (launch : PeriodicLaunch) : Txn unit :=
  wrap "periodic launch insert failed: %v" [] (txnInsert periodic_launch launch).
Definition JobSummaryRestore (jobSummary : JobSummary) : Txn unit :=
  wrap "job summary insert failed: %v" [] (txnInsert job_summary jobSummary).
Definition JobVersionRestore (version : Job) : Txn unit := wrap "job version insert failed: %v" [] (txnInsert job_version version).
Definition DeploymentRestore (d : Deployment) : Txn unit := wrap "deployment insert failed: %v" [] (txnInsert deployment d).
Definition VaultAccessorRestore (accessor : VaultAccessor) : Txn unit :=
  wrap "vault accessor insert failed: %v" [] (txnInsert vault_accessors accessor).
End store.
