(* ===== verification/StoreSpec.v ===== *)
(** * The tables of the store as maps, and triples for its transactions

    [triple P m Q E] says that the transaction [m], started in a state with [P], ends with
    a result and a state that satisfy [Q], or with an error in a state that satisfies
    [E].  [store_ok] is the well-formedness of the store: every table agrees with its
    indexes, and the tracked versions are jobs that can be registered.  The rules of this
    file carry it through the transactions. *)

From stdpp Require Import base gmap strings list.
From Stdlib Require Import ZArith Lia.
From S2P Require Import Prelude GoText Structs Resources Jobs Allocs Plans MemDB MemDBSpec StateStore.
Open Scope string_scope.
Open Scope list_scope.
Open Scope Z_scope.

(** ** Triples *)

Definition triple {A} (P : StateStore → Prop) (m : Txn A) (Q : A → StateStore → Prop) (E : StateStore → Prop) : Prop :=
  ∀ s, P s → match m s with (inr a, s') => Q a s' | (inl _, s') => E s' end.

Section triples.
Context {A B : Type}.
Implicit Types (P E : StateStore → Prop).

Lemma triple_ret P (Q : A → StateStore → Prop) E a : (∀ s, P s → Q a s) → triple P (mret a) Q E.
Proof. intros Hq s Hs. simpl. auto. Qed.

Lemma triple_bind P (m : Txn A) (k : A → Txn B) R Q E :
  triple P m R E → (∀ a, triple (R a) (k a) Q E) → triple P (m ≫= k) Q E.
Proof.
  intros Hm Hk s Hs. unfold mbind, Txn_bind. specialize (Hm s Hs). destruct (m s) as [[e|a] s1]; [done|]. by apply Hk.
Qed.

Lemma triple_wrap P (m : Txn A) Q E f args : triple P m Q E → triple P (wrap f args m) Q E.
Proof. intros Hm s Hs. unfold wrap. specialize (Hm s Hs). by destruct (m s) as [[e|a] s1]. Qed.

Lemma triple_fail P (Q : A → StateStore → Prop) E e : (∀ s, P s → E s) → triple P (fail e) Q E.
Proof. intros He s Hs. simpl. auto. Qed.

Lemma triple_lift P (r : GoError + A) Q E :
  (∀ a s, r = inr a → P s → Q a s) → (∀ s, P s → E s) → triple P (lift r) Q E.
Proof. intros Hq He s Hs. unfold lift. destruct r; auto. Qed.

Lemma triple_weaken P P' (m : Txn A) Q Q' E :
  triple P' m Q' E → (∀ s, P s → P' s) → (∀ a s, Q' a s → Q a s) → triple P m Q E.
Proof. intros Hm Hp Hq s Hs. specialize (Hm s (Hp s Hs)). destruct (m s) as [[e|a] s1]; auto. Qed.
End triples.

Lemma triple_forEach {A} P E (l : list A) (body : A → Txn unit) :
  (∀ x, x ∈ l → triple P (body x) (fun _ => P) E) → triple P (forEach l body) (fun _ => P) E.
Proof.
  induction l as [|x l IH]; intros Hb; [by apply triple_ret|]. simpl. eapply triple_bind; [apply Hb; left|].
  intros u. apply IH. intros y Hy. apply Hb. by right.
Qed.

(** The outcome of a committed transaction. *)
Lemma commit_triple (P : StateStore → Prop) (m : Txn unit) s : triple P m (fun _ => P) (fun _ => True) → P s → P (commit m s).2.
Proof. intros Hm Hs. unfold commit. specialize (Hm s Hs). by destruct (m s) as [[e|a] s1]. Qed.

(** ** Results of transactions, step by step *)

Lemma bind_inr {A B} (m : Txn A) (k : A → Txn B) s b s' :
  (m ≫= k) s = (inr b, s') ↔ ∃ a s1, m s = (inr a, s1) ∧ k a s1 = (inr b, s').
Proof.
  unfold mbind, Txn_bind. destruct (m s) as [[e|a] s1]; split; try naive_solver.
Qed.

Lemma wrap_inr {A} f args (m : Txn A) s b s' : wrap f args m s = (inr b, s') ↔ m s = (inr b, s').
Proof. unfold wrap. destruct (m s) as [[e|a] s1]; split; try done; naive_solver. Qed.

Lemma commit_inr (m : Txn unit) s u s' : commit m s = (inr u, s') ↔ m s = (inr u, s').
Proof. unfold commit. destruct (m s) as [[e|a] s1]; split; try done; naive_solver. Qed.

(** Takes a successful run apart. *)
Ltac txn_step H :=
  match type of H with
  | (_ ≫= _) _ = (inr _, _) => apply bind_inr in H as (? & ? & ? & H)
  | wrap _ _ _ _ = (inr _, _) => apply wrap_inr in H
  | mret _ _ = (inr _, _) => injection H as ? ?
  | fail _ _ = (inr _, _) => discriminate H
  | lift _ _ = (inr _, _) => injection H as ? ?
  end.

(** ** Lookups by primary key *)

Section keys.
Context `{CaseLib}.
Implicit Types (s : StateStore).

Definition keyOf {V} (r : TableRef V) (id : string) : GoError + string := FromArgs (ts_id (tr_schema r)) [AString id].
Definition table {V} (r : TableRef V) s : gmap string V := rows (tr_get r s).

Lemma firstByID_eq {V} (r : TableRef V) id s :
  firstByID r id s =
    (match keyOf r id with inl err => inl (wrapErr "index error: %v" [] err) | inr k => inr (table r s !! k) end, s).
Proof.
  unfold firstByID, txnFirst, queryFirst, First, getIndexValue, keyOf.
  change (HasSuffix "id" "_prefix") with false. change (TrimSuffix "id" "_prefix") with "id". cbn [ts_Indexes list_find].
  rewrite decide_True by done. cbn. by destruct (FromArgs (ts_id (tr_schema r)) [AString id]).
Qed.

(** Tables whose primary key is a string are keyed by its lower case. *)
Definition lowerKey (id : string) : string := terminated id true.

Lemma keyOf_jobs id : keyOf jobs id = inr (lowerKey id).
Proof. done. Qed.
Lemma keyOf_job_summary id : keyOf job_summary id = inr (lowerKey id).
Proof. done. Qed.

Lemma terminated_inj a b lc : terminated a lc = terminated b lc ↔ (if lc then ToLower a else a) = (if lc then ToLower b else b).
Proof.
  unfold terminated. split; [|by intros ->]. intros E.
  assert (∀ x y : string, String.length x = String.length y → x +:+ String NUL "" = y +:+ String NUL "" → x = y) as Hgo.
  { intros x y Hl E'. by destruct (app_inj_length x y _ _ Hl E'). }
  apply Hgo; [|done]. apply (f_equal String.length) in E.
  assert (∀ x : string, String.length (x +:+ String NUL "") = S (String.length x)) as Hlen.
  { induction x as [|c x IH]; [done|]. rewrite app_String. simpl. by rewrite IH. }
  rewrite !Hlen in E. lia.
Qed.

Lemma lowerKey_inj a b : lowerKey a = lowerKey b ↔ ToLower a = ToLower b.
Proof. apply (terminated_inj a b true). Qed.
End keys.

(** ** Well-formed stores *)

Section wellformed.
Context `{CaseLib}.
Implicit Types (s : StateStore).

(** Jobs that can be registered: with an identifier and a type. *)
Definition job_ok (j : Job) : Prop :=
  jb_ID j ≠ "" ∧ properString true (jb_ID j) ∧ jb_Type j ≠ "" ∧ properString false (jb_Type j).

(** A version number that fits the eight bytes of the index. *)
Definition version_ok (j : Job) : Prop := is_Some (PutUvarint 8 (jb_Version j)).

Definition anyRow {V} (v : V) : Prop := True.

(** A table that agrees with its indexes and whose rows satisfy [inv]. *)
Definition tbl_ok {V} (sch : TableSchema V) (inv : V → Prop) (t : Table V) : Prop :=
  table_wf sch t ∧ ∀ k v, rows t !! k = Some v → inv v.

Record store_ok s : Prop := {
  ok_index : tbl_ok indexTableSchema anyRow (st_index s);
  ok_nodes : tbl_ok nodeTableSchema anyRow (st_nodes s);
  ok_jobs : tbl_ok jobTableSchema version_ok (st_jobs s);
  ok_job_summary : tbl_ok jobSummarySchema anyRow (st_job_summary s);
  ok_job_version : tbl_ok jobVersionSchema job_ok (st_job_version s);
  ok_deployment : tbl_ok deploymentSchema anyRow (st_deployment s);
  ok_periodic_launch : tbl_ok periodicLaunchTableSchema anyRow (st_periodic_launch s);
  ok_evals : tbl_ok evalTableSchema anyRow (st_evals s);
  ok_allocs : tbl_ok allocTableSchema anyRow (st_allocs s);
  ok_vault_accessors : tbl_ok vaultAccessorTableSchema anyRow (st_vault_accessors s)
}.

(** What the transactions need to know of a table of the store. *)
Class Ref {V} (r : TableRef V) := {
  ref_inv : V → Prop;
  ref_schema : schema_ok (tr_schema r);
  ref_get_set : ∀ t s, tr_get r (tr_set r t s) = t;
  ref_ok_get : ∀ s, store_ok s → tbl_ok (tr_schema r) ref_inv (tr_get r s);
  ref_ok_set : ∀ s t, store_ok s → tbl_ok (tr_schema r) ref_inv t → store_ok (tr_set r t s)
}.

Ltac solve_ref :=
  unshelve econstructor;
  [ match goal with |- Job → Prop => exact job_ok | |- _ → Prop => exact anyRow end
  | split; [apply (bool_decide_unpack _); vm_compute; done|];
    intros ix Hix; cbn in Hix;
    repeat (apply elem_of_cons in Hix as [->|Hix]; [by split|]); by apply not_elem_of_nil in Hix
  | done
  | by intros s []
  | by intros s t [] Ht; split ].

#[export] Instance ref_indexes : Ref indexes.
Proof. solve_ref. Defined.
#[export] Instance ref_nodes : Ref nodes.
Proof. solve_ref. Defined.
#[export] Instance ref_job_summary : Ref job_summary.
Proof. solve_ref. Defined.
#[export] Instance ref_job_version : Ref job_version.
Proof. solve_ref. Defined.
#[export] Instance ref_deployment : Ref deployment.
Proof. solve_ref. Defined.
#[export] Instance ref_periodic_launch : Ref periodic_launch.
Proof. solve_ref. Defined.
#[export] Instance ref_evals : Ref evals.
Proof. solve_ref. Defined.
#[export] Instance ref_allocs : Ref allocs.
Proof. solve_ref. Defined.
#[export] Instance ref_vault_accessors : Ref vault_accessors.
Proof. solve_ref. Defined.
#[export] Instance ref_jobs : Ref jobs.
Proof.
  unshelve econstructor; [exact version_ok| |done|by intros s []|by intros s t [] Ht; split].
  split; [apply (bool_decide_unpack _); vm_compute; done|].
  intros ix Hix; cbn in Hix; repeat (apply elem_of_cons in Hix as [->|Hix]; [by split|]); by apply not_elem_of_nil in Hix.
Defined.

Lemma new_store_ok : store_ok NewStateStore.
Proof.
  assert (∀ V n k, tree (∅ : Table V) n !! k = None) as Hn.
  { intros V n k. unfold tree. by rewrite lookup_empty. }
  assert (∀ V (sch : TableSchema V) inv, tbl_ok sch inv ∅) as He.
  { intros V sch inv. unfold tbl_ok, rows. split; [split|].
    - intros k v. unfold rows. by rewrite Hn.
    - intros ix _ key v. unfold rows. rewrite Hn. split; [done|]. intros (k & Hk & _). by rewrite Hn in Hk.
    - intros k v. by rewrite Hn. }
  split; apply He.
Qed.
End wellformed.

(** ** Transactions that keep the store well formed *)

Section keeping.
Context `{CaseLib}.
Implicit Types (s : StateStore).

(** [strings.ToLower] maps no other byte to the zero byte. *)
Class CaseLaws := lower_nulFree : ∀ x : string, nulFree x → nulFree (ToLower x).

(** [m] keeps [store_ok] and its result satisfies [φ]; with [strict], it also keeps it
    when it ends with an error. *)
Definition keeps {A} (strict : Prop) (m : Txn A) (φ : A → Prop) : Prop :=
  triple store_ok m (fun a s => store_ok s ∧ φ a) (fun s => strict → store_ok s).

Section rules.
Context (strict : Prop) {A B : Type}.

Lemma keeps_ret (φ : A → Prop) a : φ a → keeps strict (mret a) φ.
Proof. intros Ha. by apply triple_ret. Qed.

Lemma keeps_fail (φ : A → Prop) e : keeps strict (fail e) φ.
Proof. by apply triple_fail. Qed.

Lemma keeps_lift (φ : A → Prop) r : (∀ a, r = inr a → φ a) → keeps strict (lift r) φ.
Proof. intros Hr. apply triple_lift; [|done]. eauto. Qed.

Lemma keeps_bind (m : Txn A) (k : A → Txn B) φ ψ :
  keeps strict m φ → (∀ a, φ a → keeps strict (k a) ψ) → keeps strict (m ≫= k) ψ.
Proof.
  intros Hm Hk. eapply triple_bind; [exact Hm|]. intros a s [Hs Ha]. by apply Hk.
Qed.

Lemma keeps_wrap (m : Txn A) φ f args : keeps strict m φ → keeps strict (wrap f args m) φ.
Proof. apply triple_wrap. Qed.

Lemma keeps_weaken (m : Txn A) (φ ψ : A → Prop) : keeps strict m φ → (∀ a, φ a → ψ a) → keeps strict m ψ.
Proof. intros Hm Hq. eapply triple_weaken; [exact Hm|done|]. simpl. intros a s [? ?]. auto. Qed.
End rules.

Lemma keeps_forEach {A} strict (l : list A) (body : A → Txn unit) :
  (∀ x, x ∈ l → keeps strict (body x) anyRow) → keeps strict (forEach l body) anyRow.
Proof.
  intros Hb. eapply (triple_weaken store_ok store_ok); [apply triple_forEach|done|].
  - intros x Hx. eapply triple_weaken; [by apply Hb|done|]. by intros a s [? ?].
  - done.
Qed.

(** A stored object. *)
Definition good {V} (r : TableRef V) `{!Ref r} (v : V) : Prop :=
  properRow (tr_schema r) v ∧ indexable (tr_schema r) v ∧ ref_inv v.

Section leaves.
Context {V : Type} (r : TableRef V) `{!Ref r}.

Lemma tree_rows t ix key v : table_wf (tr_schema r) t → ix ∈ ts_Indexes (tr_schema r) →
  tree t (is_Name ix) !! key = Some v → ∃ k, rows t !! k = Some v.
Proof.
  intros Hwf Hix Hv. apply elem_of_cons in Hix as [->|Hix]; [by exists key|].
  apply (tw_index _ _ Hwf ix Hix) in Hv as (k & Hk & _). eauto.
Qed.

Lemma row_good s k v : store_ok s → table r s !! k = Some v → good r v.
Proof.
  intros Hs Hv. destruct (ref_ok_get (r := r) s Hs) as [Hwf Hinv]. destruct (tw_rows _ _ Hwf k v Hv) as (_ & Hi & Hp).
  split_and!; [done|done|]. by eapply Hinv.
Qed.

Lemma keeps_insert strict obj :
  properRow (tr_schema r) obj → (indexable (tr_schema r) obj → ref_inv obj) → (strict → indexable (tr_schema r) obj) →
  keeps strict (txnInsert r obj) (fun _ => indexable (tr_schema r) obj).
Proof.
  intros Hp Hinv Hst s Hs. destruct (ref_ok_get (r := r) s Hs) as [Hwf Hrows].
  pose proof (Insert_spec (tr_schema r) ref_schema (tr_get r s) obj Hwf Hp) as Hins.
  unfold txnInsert. destruct (Insert (tr_schema r) obj (tr_get r s)) as [[e|u] t]; [tauto|].
  destruct Hins as (Hi & Hwf' & k & Hk & Er). split; [|done]. apply (ref_ok_set (r := r)); [done|]. split; [done|].
  intros k' v. rewrite Er, lookup_insert_Some. intros [[_ <-]|[_ Hv]]; [auto|by eapply Hrows].
Qed.

Lemma delete_ok s t obj : tbl_ok (tr_schema r) ref_inv t → tbl_ok (tr_schema r) ref_inv (Delete (tr_schema r) obj t).2.
Proof.
  intros [Hwf Hrows]. destruct (primaryKey (tr_schema r) obj) as [e|k] eqn:Hk.
  - unfold Delete. rewrite Hk. by split.
  - destruct (rows t !! k) as [old|] eqn:Eo; [|rewrite (Delete_missing _ t obj k Hk Eo); by split].
    destruct (Delete_spec (tr_schema r) ref_schema t obj k old Hwf Hk Eo) as (t' & -> & Hwf' & Er).
    split; [done|]. intros k' v. simpl. rewrite Er, lookup_delete_Some. intros [_ Hv]. by eapply Hrows.
Qed.

Lemma keeps_safe {A} strict (m : Txn A) φ :
  (∀ s, store_ok s → store_ok (m s).2 ∧ ∀ a, (m s).1 = inr a → φ a) → keeps strict m φ.
Proof. intros Hm s Hs. destruct (Hm s Hs) as [H1 H2]. destruct (m s) as [[e|a] s']; simpl in *; auto. Qed.

Lemma keeps_delete strict obj : keeps strict (txnDelete r obj) anyRow.
Proof.
  apply keeps_safe. intros s Hs. split; [|done]. pose proof (delete_ok s (tr_get r s) obj (ref_ok_get (r := r) s Hs)) as Hd.
  unfold txnDelete. destruct (Delete (tr_schema r) obj (tr_get r s)) as [res t]. by apply (ref_ok_set (r := r)).
Qed.

Lemma keeps_deleteAll strict name args : keeps strict (txnDeleteAll r name args) anyRow.
Proof.
  apply keeps_safe. intros s Hs. split; [|done].
  assert (tbl_ok (tr_schema r) ref_inv (DeleteAll (tr_schema r) name args (tr_get r s)).2) as Hd.
  { unfold DeleteAll. destruct (Get _ _ _ _) as [e|objs]; [by apply (ref_ok_get (r := r))|].
    pose proof (ref_ok_get (r := r) s Hs) as Ht. revert Ht. generalize (tr_get r s). induction objs as [|o objs IH]; intros t Ht; [done|].
    simpl. pose proof (delete_ok s t o Ht) as Hd. destruct (Delete (tr_schema r) o t) as [[?|?] t1]; [done|]. by apply IH. }
  unfold txnDeleteAll. destruct (DeleteAll (tr_schema r) name args (tr_get r s)) as [res t]. by apply (ref_ok_set (r := r)).
Qed.

Lemma getIndexValue_in sch name args (ix : IndexSchema V) val : getIndexValue sch name args = inr (ix, val) → ix ∈ ts_Indexes sch.
Proof.
  unfold getIndexValue. destruct (list_find _ _) as [[i iy]|] eqn:Ef; [|done].
  apply list_find_Some in Ef as (Hl & _ & _). apply list_elem_of_lookup_2 in Hl.
  repeat case_match; intros [= <- _]; done.
Qed.

Lemma keeps_get strict name args : keeps strict (txnGet r name args) (Forall (good r)).
Proof.
  apply keeps_safe. intros s Hs. split; [done|]. intros l. unfold txnGet, queryGet, Get. simpl.
  destruct (getIndexValue _ _ _) as [e|[ix val]] eqn:E; [done|]. intros [= <-]. apply Forall_forall. intros v Hv.
  apply elem_of_scan in Hv as (key & Hkey & _). apply getIndexValue_in in E.
  destruct (tree_rows _ ix key v (proj1 (ref_ok_get (r := r) s Hs)) E Hkey) as [k Hk]. by apply (row_good s k).
Qed.

Lemma keeps_first strict name args : keeps strict (txnFirst r name args) (fun o => ∀ v, o = Some v → good r v).
Proof.
  apply keeps_safe. intros s Hs. split; [done|]. intros o. unfold txnFirst, queryFirst, First. simpl.
  destruct (getIndexValue _ _ _) as [e|[ix val]] eqn:E; [done|]. apply getIndexValue_in in E.
  assert (∀ p v, head (scan p (tree (tr_get r s) (is_Name ix))) = Some v → good r v) as Hscan.
  { intros p v Hh. apply head_Some_elem_of, elem_of_scan in Hh as (key & Hkey & _).
    destruct (tree_rows _ ix key v (proj1 (ref_ok_get (r := r) s Hs)) E Hkey) as [k Hk]. by apply (row_good s k). }
  destruct val as [k|]; [case_match|]; intros [= <-] v Hv; try by eapply Hscan.
  destruct (tree_rows _ ix k v (proj1 (ref_ok_get (r := r) s Hs)) E Hv) as [k' Hk]. by apply (row_good s k').
Qed.

Lemma keeps_firstByID strict id : keeps strict (firstByID r id) (fun o => ∀ v, o = Some v → good r v).
Proof. apply keeps_first. Qed.
End leaves.
End keeping.
