(* ===== verification/StoreInv.v ===== *)
(** * Every operation of the state store keeps its tables consistent

    One lemma per function of the store that writes: it keeps [store_ok].  The objects of
    requests are [proper]: identifiers without zero byte, UUIDs with four hyphens; the
    jobs of requests have an identifier and a type, as the validation of jobs demands. *)

From stdpp Require Import base gmap strings list.
From Stdlib Require Import ZArith Lia.
From S2P Require Import Prelude GoText Structs Resources Jobs Allocs Plans MemDB MemDBSpec StateStore StoreSpec.
Open Scope string_scope.
Open Scope list_scope.
Open Scope Z_scope.

Create HintDb store.

Section inv.
Context `{CaseLib} `{!CaseLaws} `{RangeOrder}.
Implicit Types (index : Z) (s : StateStore).

(** ** What the schemas ask of the objects *)

Lemma indexable_single {V} (sch : TableSchema V) obj :
  ts_others sch = [] → indexable sch obj ↔ ∃ k, primaryKey sch obj = inr k.
Proof. intros E. unfold indexable. rewrite E. simpl. tauto. Qed.

Lemma string_field {V} (f : V → string) lc obj : f obj ≠ "" → FieldFromObject (StringFieldIndex f lc) obj = inr (Some (terminated (f obj) lc)).
Proof. intros Hf. simpl. by rewrite bool_decide_false. Qed.

Lemma indexable_job j : indexable jobTableSchema j ↔ jb_ID j ≠ "" ∧ jb_Type j ≠ "".
Proof.
  split.
  - intros [[k Hk] [(o & Eo & Hm) _]]. unfold primaryKey in Hk. simpl in Hk, Eo.
    destruct (decide (jb_ID j = "")) as [E|E]; [by rewrite bool_decide_true in Hk by done|]. split; [done|].
    intros Et. rewrite bool_decide_true in Eo by done. injection Eo as <-. by specialize (Hm eq_refl).
  - intros [Hi Ht]. split.
    + exists (lowerKey (jb_ID j)). unfold primaryKey. simpl. by rewrite bool_decide_false.
    + simpl. rewrite bool_decide_false by done. split_and!; try done; by eexists.
Qed.

Lemma job_ok_iff j : job_ok j ↔ properRow jobTableSchema j ∧ indexable jobTableSchema j.
Proof.
  rewrite indexable_job. unfold job_ok, properRow, proper. simpl. tauto.
Qed.

Lemma good_job j : good jobs j ↔ job_ok j ∧ version_ok j.
Proof. unfold good. cbn [tr_schema jobs ref_inv ref_jobs]. rewrite job_ok_iff. tauto. Qed.

Lemma version_proper j : job_ok j → properRow jobVersionSchema j.
Proof. intros (_ & Hp & _). by repeat split. Qed.

Lemma version_indexable j : indexable jobVersionSchema j ↔ jb_ID j ≠ "" ∧ version_ok j.
Proof.
  rewrite indexable_single by done. unfold primaryKey, version_ok. simpl. case_bool_decide as E; simpl.
  - split; [by intros [k Hk]|by intros [? _]].
  - destruct (PutUvarint 8 (jb_Version j)); simpl; split; naive_solver.
Qed.

Lemma summary_proper (sm : JobSummary) : properString true (js_JobID sm) → properRow jobSummarySchema sm.
Proof. intros Hp. by repeat split. Qed.

Lemma summary_indexable (sm : JobSummary) : indexable jobSummarySchema sm ↔ js_JobID sm ≠ "".
Proof.
  rewrite indexable_single by done. unfold primaryKey. simpl. case_bool_decide; simpl; split; naive_solver.
Qed.

(** ** Leaves *)

Lemma keeps_any {A} strict (a : A) : keeps strict (mret a) anyRow.
Proof. by apply keeps_ret. Qed.
Lemma keeps_lift_any {A} strict (r : GoError + A) : keeps strict (lift r) anyRow.
Proof. by apply keeps_lift. Qed.

Lemma keeps_setIndex strict name index : nulFree name → name ≠ "" → keeps strict (setIndex name index) anyRow.
Proof.
  intros Hn Hne. apply keeps_wrap. eapply keeps_weaken; [apply (keeps_insert indexes)|done].
  - repeat split. by apply lower_nulFree.
  - done.
  - intros _. apply indexable_single; [done|]. unfold primaryKey. simpl. rewrite bool_decide_false by done. by eexists.
Qed.

Lemma keeps_insert_summary strict sm : properString true (js_JobID sm) → js_JobID sm ≠ "" → keeps strict (txnInsert job_summary sm) anyRow.
Proof.
  intros Hp Hne. eapply keeps_weaken; [apply (keeps_insert job_summary)|done]; [by apply summary_proper|done|]. intros _. by apply summary_indexable.
Qed.

Lemma good_summary sm : good job_summary sm → properString true (js_JobID sm) ∧ js_JobID sm ≠ "".
Proof. intros (Hp & Hi & _). apply summary_indexable in Hi. split; [|done]. apply Hp. Qed.

Lemma keeps_insert_job strict j : job_ok j → version_ok j → keeps strict (txnInsert jobs j) anyRow.
Proof.
  intros [Hp Hi]%job_ok_iff Hv. eapply keeps_weaken; [by apply (keeps_insert jobs)|done].
Qed.
End inv.

#[export] Hint Extern 1 (nulFree _) => (apply (bool_decide_unpack _); vm_compute; exact I) : store.
#[export] Hint Extern 1 (_ ≠ "") => discriminate : store.

(** Applies the rules of [keeps] to the shape of the transaction. *)
Ltac keep :=
  repeat first
    [ progress intros
    | apply keeps_setIndex; [solve [auto with store]|done]
    | apply keeps_wrap
    | apply keeps_fail
    | apply keeps_any
    | match goal with |- keeps _ (match ?x with _ => _ end) _ => destruct x eqn:? end ].

(** ** Jobs *)

Section jobs_inv.
Context `{CaseLib} `{!CaseLaws} `{RangeOrder}.
Implicit Types (index : Z) (s : StateStore) (strict : Prop).

Lemma keeps_getJobStatus strict job ed : keeps strict (getJobStatus job ed) anyRow.
Proof.
  unfold getJobStatus. eapply keeps_bind; [apply (keeps_get allocs)|]. keep.
  eapply keeps_bind; [apply (keeps_get evals)|]. keep.
Qed.

Lemma keeps_updateChildren strict index updated old new : keeps strict (updateChildren index updated old new) anyRow.
Proof.
  unfold updateChildren. case_match; [apply keeps_any|].
  eapply keeps_bind; [apply keeps_wrap, (keeps_firstByID job_summary)|]. intros [sm|] Hsm; [|apply keeps_any].
  destruct (good_summary sm (Hsm sm eq_refl)) as [Hp Hne].
  eapply keeps_bind; [instantiate (1 := anyRow); case_match; [apply keeps_any|apply keeps_lift_any]|]. intros c1 _.
  eapply keeps_bind; [apply keeps_lift_any|]. intros c2 _.
  eapply keeps_bind; [apply keeps_wrap; by apply keeps_insert_summary|]. keep.
Qed.

Lemma keeps_setJobStatus strict index job ed force : job_ok job → version_ok job → keeps strict (setJobStatus index job ed force) anyRow.
Proof.
  intros Hj Hv. unfold setJobStatus.
  eapply keeps_bind; [instantiate (1 := anyRow); case_match; [apply keeps_getJobStatus|apply keeps_any]|]. intros new _.
  case_match; [apply keeps_any|].
  eapply keeps_bind; [apply keeps_wrap; by apply keeps_insert_job|]. intros _ _.
  eapply keeps_bind; [apply keeps_setIndex; auto with store|]. intros _ _. apply keeps_updateChildren.
Qed.

Lemma keeps_setJobStatuses strict index js ed : keeps strict (setJobStatuses index js ed) anyRow.
Proof.
  apply keeps_forEach. intros [id force] _. eapply keeps_bind; [apply keeps_wrap, (keeps_firstByID jobs)|].
  intros [job|] Hj; [|apply keeps_any]. destruct (proj1 (good_job job) (Hj job eq_refl)). by apply keeps_setJobStatus.
Qed.

Lemma foldl_summary (f : JobSummary * bool → TaskGroup → JobSummary * bool) l sc :
  (∀ sc tg, js_JobID (f sc tg).1 = js_JobID sc.1) → js_JobID (foldl f sc l).1 = js_JobID sc.1.
Proof. intros Hf. revert sc. induction l as [|tg l IH]; intros sc; [done|]. simpl. by rewrite IH, Hf. Qed.

Lemma keeps_updateSummaryWithJob strict index job : job_ok job → keeps strict (updateSummaryWithJob index job) anyRow.
Proof.
  intros (Hne & Hp & _). unfold updateSummaryWithJob.
  eapply keeps_bind; [apply keeps_wrap, (keeps_firstByID job_summary)|]. intros o Ho.
  set (start := match o with Some _ => _ | None => _ end).
  assert (properString true (js_JobID start.1) ∧ js_JobID start.1 ≠ "") as [Hp1 Hne1].
  { unfold start. destruct o as [sm|]; [by apply good_summary, Ho|done]. }
  destruct start as [sm0 c0] eqn:Es. cbn [fst] in *. clear Es.
  set (f := fun (sc : JobSummary * bool) tg => _).
  assert (js_JobID (foldl f (sm0, c0) (jb_TaskGroups job)).1 = js_JobID sm0) as E.
  { rewrite foldl_summary; [done|]. intros sc tg. unfold f. by destruct (js_Summary sc.1 !! tg_Name tg). }
  destruct (foldl f (sm0, c0) (jb_TaskGroups job)) as [sm1 c1]. cbn [fst] in E. destruct c1; [|apply keeps_any].
  eapply keeps_bind; [apply keeps_setIndex; auto with store|]. intros _ _.
  apply keeps_insert_summary; cbn; by rewrite E.
Qed.

Lemma keeps_upsertJobVersion strict index job : job_ok job → (strict → version_ok job) →
  keeps strict (upsertJobVersion index job) (fun _ => version_ok job).
Proof.
  intros Hj Hv. unfold upsertJobVersion. eapply keeps_bind; [apply keeps_wrap, (keeps_insert job_version)|].
  - by apply version_proper.
  - done.
  - intros Hst. apply version_indexable. split; [apply Hj|auto].
  - intros _ [_ Hvo]%version_indexable. eapply keeps_bind; [apply keeps_setIndex; auto with store|]. intros _ _.
    eapply keeps_bind.
    { apply keeps_wrap. unfold jobVersionByID. eapply keeps_bind; [apply (keeps_get job_version)|]. intros l _.
      apply keeps_any. }
    intros all _. case_match; [by apply keeps_ret|]. case_match; [|apply keeps_fail].
    apply keeps_wrap. eapply keeps_weaken; [apply (keeps_delete job_version)|done].
Qed.

Lemma keeps_prepareJob strict index job keepVersion existing :
  job_ok job → (strict → keepVersion = true ∧ version_ok job) → (∀ ex, existing = Some ex → good jobs ex) →
  keeps strict (prepareJob index job keepVersion existing) (fun j => job_ok j ∧ (strict → version_ok j)).
Proof.
  intros Hj Hst Hex. unfold prepareJob. destruct existing as [ex|].
  - eapply keeps_bind; [apply keeps_wrap, keeps_getJobStatus|]. intros st _. apply keeps_ret. split; [by destruct keepVersion|].
    intros [-> Hv]%Hst. done.
  - set (j0 := job <| jb_CreateIndex := _ |> <| jb_ModifyIndex := _ |> <| jb_JobModifyIndex := _ |> <| jb_Version := _ |>).
    assert (version_ok j0) as Hv0 by (by eexists). assert (job_ok j0) as Hj0 by done.
    eapply keeps_bind; [apply keeps_wrap; by apply keeps_setJobStatus|]. intros _ _.
    eapply keeps_bind; [apply keeps_wrap, (keeps_firstByID jobs)|]. intros o Ho. apply keeps_ret.
    destruct o as [j|]; cbn [default]; [|done]. by destruct (proj1 (good_job j) (Ho j eq_refl)).
Qed.

Lemma keeps_upsertJobImpl strict index job keepVersion :
  job_ok job → (strict → keepVersion = true ∧ version_ok job) → keeps strict (upsertJobImpl index job keepVersion) anyRow.
Proof.
  intros Hj Hst. unfold upsertJobImpl.
  eapply keeps_bind; [apply keeps_wrap, (keeps_firstByID jobs)|]. intros ex Hex.
  eapply keeps_bind; [by apply keeps_prepareJob|]. intros j [Hj1 Hv1].
  eapply keeps_bind; [apply keeps_wrap; by apply keeps_updateSummaryWithJob|]. intros _ _.
  eapply keeps_bind; [apply keeps_wrap; by apply keeps_upsertJobVersion|]. cbv beta. intros _ Hv2.
  eapply keeps_bind; [apply keeps_wrap; by apply keeps_insert_job|]. keep.
Qed.

Lemma keeps_countDeleted strict index job : keeps strict (countDeleted index job) anyRow.
Proof.
  unfold countDeleted. case_match; [apply keeps_any|].
  eapply keeps_bind; [apply keeps_wrap, (keeps_firstByID job_summary)|]. intros [sm|] Hsm; [|apply keeps_any].
  destruct (good_summary sm (Hsm sm eq_refl)) as [Hp Hne]. case_match; [|apply keeps_any].
  eapply keeps_bind; [apply keeps_lift_any|]. intros [c|] _; [|apply keeps_any].
  eapply keeps_bind; [apply keeps_wrap; by apply keeps_insert_summary|]. keep.
Qed.

Lemma keeps_deleteJobVersions strict index job : keeps strict (deleteJobVersions index job) anyRow.
Proof.
  unfold deleteJobVersions. eapply keeps_bind; [apply (keeps_get job_version)|]. intros l _.
  eapply keeps_bind; [apply keeps_forEach|]; keep. apply (keeps_deleteAll job_version).
Qed.
End jobs_inv.

(** ** Summaries, deployments, evaluations and allocations *)

Section objects_inv.
Context `{CaseLib} `{!CaseLaws} `{RangeOrder}.
Implicit Types (index : Z) (s : StateStore) (strict : Prop).

Lemma keeps_updateSummaryWithAlloc strict index alloc existing : keeps strict (updateSummaryWithAlloc index alloc existing) anyRow.
Proof.
  unfold updateSummaryWithAlloc. destruct (al_Job alloc) as [job|]; [|apply keeps_any].
  eapply keeps_bind; [apply keeps_wrap, (keeps_firstByID job_summary)|]. intros [sm|] Hsm.
  - destruct (good_summary sm (Hsm sm eq_refl)) as [Hp Hne]. keep. eapply keeps_bind; [keep|]. keep. by apply keeps_insert_summary.
  - eapply keeps_bind; [apply keeps_wrap, (keeps_firstByID jobs)|]. keep.
Qed.

Lemma keeps_updateJobStabilityImpl strict index id version stable : keeps strict (updateJobStabilityImpl index id version stable) anyRow.
Proof.
  unfold updateJobStabilityImpl, jobByIDAndVersionImpl. eapply keeps_bind; [apply (keeps_first job_version)|].
  intros [job|] Hj; [|apply keeps_any]. case_match; [apply keeps_any|].
  destruct (Hj job eq_refl) as (_ & Hi & Hok). apply version_indexable in Hi as [_ Hv]. by apply keeps_upsertJobImpl.
Qed.

Lemma keeps_markStable strict index d : keeps strict (markStable index d) anyRow.
Proof. unfold markStable. keep. apply keeps_updateJobStabilityImpl. Qed.

Lemma keeps_upsertDeploymentImpl strict index d :
  properRow deploymentSchema d → (strict → indexable deploymentSchema d) → keeps strict (upsertDeploymentImpl index d) anyRow.
Proof.
  intros Hp Hi. unfold upsertDeploymentImpl. eapply keeps_bind; [apply keeps_wrap, (keeps_firstByID deployment)|]. intros o _.
  eapply keeps_bind; [by apply (keeps_insert deployment)|]. intros _ _.
  eapply keeps_bind; [keep|]. intros _ _. apply keeps_markStable.
Qed.

Lemma keeps_activeDeployment strict id : keeps strict (activeDeployment id) (good deployment).
Proof.
  unfold activeDeployment, deploymentByIDImpl. eapply keeps_bind; [apply keeps_wrap, (keeps_firstByID deployment)|].
  intros [d|] Hd; [|apply keeps_fail]. case_match; [|apply keeps_fail]. apply keeps_ret. by apply Hd.
Qed.

Lemma keeps_updateDeploymentStatusImpl strict index u : keeps strict (updateDeploymentStatusImpl index u) anyRow.
Proof.
  unfold updateDeploymentStatusImpl. eapply keeps_bind; [apply keeps_activeDeployment|]. intros d (Hp & Hi & _).
  eapply keeps_bind; [by apply (keeps_insert deployment)|]. intros _ _.
  eapply keeps_bind; [keep|]. intros _ _. apply keeps_markStable.
Qed.

Lemma keeps_updateDeploymentWithAlloc strict index alloc existing : properRow allocTableSchema alloc →
  keeps strict (updateDeploymentWithAlloc index alloc existing) (properRow allocTableSchema).
Proof.
  intros Hp. unfold updateDeploymentWithAlloc, deploymentByIDImpl. case_match; [by apply keeps_ret|].
  eapply keeps_bind; [apply keeps_wrap, (keeps_firstByID deployment)|]. intros [d|] Hd; [|apply keeps_fail].
  destruct (Hd d eq_refl) as (Hpd & Hid & _).
  case_match; [|by apply keeps_ret]. destruct (deploymentDelta alloc existing) as [[p h] u]. case_match; [by apply keeps_ret|].
  eapply keeps_bind; [by apply keeps_upsertDeploymentImpl|]. intros _ _. apply keeps_ret. by case_match.
Qed.

Lemma setQueued_JobID l sc : js_JobID (foldl setQueued sc l).1 = js_JobID sc.1.
Proof.
  revert sc. induction l as [|[tg n] l IH]; intros sc; [done|]. simpl. rewrite IH. unfold setQueued.
  by repeat case_match.
Qed.

Lemma keeps_updateQueued strict index eval : keeps strict (updateQueued index eval) anyRow.
Proof.
  unfold updateQueued. eapply keeps_bind; [apply keeps_wrap, (keeps_firstByID job_summary)|].
  intros [sm|] Hsm; [|apply keeps_any]. destruct (good_summary sm (Hsm sm eq_refl)) as [Hp Hne].
  pose proof (setQueued_JobID (range (ev_QueuedAllocations eval)) (sm, false)) as E.
  destruct (foldl setQueued (sm, false) _) as [sm1 c]. cbn [fst] in E. destruct c; [|apply keeps_any].
  eapply keeps_bind; [apply keeps_wrap; apply keeps_insert_summary; cbn; by rewrite E|]. keep.
Qed.

Lemma eval_status_proper (e e' : Evaluation) : properRow evalTableSchema e → ev_ID e' = ev_ID e → ev_JobID e' = ev_JobID e →
  nulFree (ev_Status e') → properRow evalTableSchema e'.
Proof.
  intros [[Hid _] [[Hj _] _]] E1 E2 Hn. cbn in Hid, Hj. repeat split; cbn; rewrite ?E1, ?E2; [done|done|]. by apply lower_nulFree.
Qed.

Lemma keeps_cancelBlocked index eval : keeps False (cancelBlocked index eval) anyRow.
Proof.
  unfold cancelBlocked. case_match; [|apply keeps_any].
  eapply keeps_bind; [apply keeps_wrap, (keeps_get evals)|]. intros l Hl. apply keeps_forEach. intros e He.
  rewrite Forall_forall in Hl. destruct (Hl e He) as (Hp & _ & _). apply keeps_wrap.
  eapply keeps_weaken; [apply (keeps_insert evals)|done]; [|done|done].
  eapply eval_status_proper; [exact Hp|done|done|]. cbn. auto with store.
Qed.

Lemma keeps_nestedUpsertEval index eval : properRow evalTableSchema eval → keeps False (nestedUpsertEval index eval) anyRow.
Proof.
  intros Hp. unfold nestedUpsertEval. eapply keeps_bind; [apply keeps_wrap, (keeps_firstByID evals)|]. intros o _.
  eapply keeps_bind; [apply keeps_updateQueued|]. intros _ _. eapply keeps_bind; [apply keeps_cancelBlocked|]. intros _ _.
  eapply keeps_bind; [apply keeps_wrap; by apply (keeps_insert evals)|]. keep.
Qed.

Lemma keeps_deleteEvals strict ids js : keeps strict (deleteEvals ids js) anyRow.
Proof.
  revert js. induction ids as [|id ids IH]; intros js; simpl; [apply keeps_any|].
  eapply keeps_bind; [apply keeps_wrap, (keeps_firstByID evals)|]. intros [e|] _; [|apply IH].
  eapply keeps_bind; [apply keeps_wrap, (keeps_delete evals)|]. intros _ _. apply IH.
Qed.

Lemma keeps_deleteAllocs strict ids : keeps strict (deleteAllocs ids) anyRow.
Proof.
  apply keeps_forEach. intros id _. eapply keeps_bind; [apply keeps_wrap, (keeps_firstByID allocs)|]. keep. apply (keeps_delete allocs).
Qed.

Lemma keeps_nestedUpdateAllocFromClient index alloc : keeps False (nestedUpdateAllocFromClient index alloc) anyRow.
Proof.
  unfold nestedUpdateAllocFromClient. eapply keeps_bind; [apply keeps_wrap, (keeps_firstByID allocs)|].
  intros [ex|] Hex; [|apply keeps_any]. destruct (Hex ex eq_refl) as (Hp & _ & _).
  eapply keeps_bind; [apply keeps_wrap; by apply keeps_updateDeploymentWithAlloc|]. intros a Ha.
  eapply keeps_bind; [apply keeps_wrap, keeps_updateSummaryWithAlloc|]. intros _ _.
  eapply keeps_bind; [apply keeps_wrap; by apply (keeps_insert allocs)|]. intros _ _. apply keeps_wrap, keeps_setJobStatuses.
Qed.

Lemma keeps_upsertAlloc index alloc : properRow allocTableSchema alloc → keeps False (upsertAlloc index alloc) anyRow.
Proof.
  intros Hp. unfold upsertAlloc. eapply keeps_bind; [apply keeps_wrap, (keeps_firstByID allocs)|]. intros o _.
  eapply keeps_bind.
  { apply (keeps_lift _ (properRow allocTableSchema)). unfold mergeAlloc. intros a. destruct o as [ex|].
    - intros [= <-]. by repeat case_match.
    - destruct (al_Job alloc); [|done]. by intros [= <-]. }
  intros a Ha. eapply keeps_bind; [apply keeps_wrap; by apply keeps_updateDeploymentWithAlloc|]. intros b Hb.
  eapply keeps_bind; [apply keeps_wrap, keeps_updateSummaryWithAlloc|]. intros _ _.
  eapply keeps_bind; [apply keeps_wrap; by apply (keeps_insert allocs)|]. keep.
Qed.

Lemma keeps_upsertAllocsImpl index als : Forall (properRow allocTableSchema) als → keeps False (upsertAllocsImpl index als) anyRow.
Proof.
  intros Hp. unfold upsertAllocsImpl. eapply (keeps_bind _ _ _ anyRow).
  - generalize (∅ : gmap string string). induction Hp as [|a als Ha Hals IH]; intros js; simpl; [apply keeps_any|].
    eapply keeps_bind; [by apply keeps_upsertAlloc|]. intros b _. apply IH.
  - intros js _. eapply keeps_bind; [keep|]. intros _ _. apply keeps_wrap, keeps_setJobStatuses.
Qed.

Lemma keeps_setAllocHealth index did h id : keeps False (setAllocHealth index did h id) anyRow.
Proof.
  unfold setAllocHealth. eapply keeps_bind; [apply keeps_wrap, (keeps_firstByID allocs)|]. intros [old|] Ho; [|apply keeps_fail].
  destruct (Ho old eq_refl) as (Hp & _ & _). case_match; [apply keeps_fail|].
  eapply keeps_bind; [apply keeps_wrap; by apply keeps_updateDeploymentWithAlloc|]. intros a Ha.
  apply keeps_wrap. eapply keeps_weaken; [by apply (keeps_insert allocs)|done].
Qed.
End objects_inv.

(** ** All operations *)

(** The write operations of the store. *)
Inductive StoreOp :=
  | OpPlanResults (results : ApplyPlanResultsRequest)
  | OpUpsertJobSummary (summary : JobSummary)
  | OpDeleteJobSummary (id : string)
  | OpUpsertDeployment (d : Deployment)
  | OpDeleteDeployment (ids : list string)
  | OpUpsertNode (node : Node)
  | OpDeleteNode (id : string)
  | OpUpdateNodeStatus (id status : string)
  | OpUpdateNodeDrain (id : string) (drain : bool)
  | OpUpsertJob (job : Job)
  | OpDeleteJob (id : string)
  | OpUpsertPeriodicLaunch (launch : PeriodicLaunch)
  | OpDeletePeriodicLaunch (id : string)
  | OpUpsertEvals (evs : list Evaluation)
  | OpDeleteEval (evs als : list string)
  | OpUpdateAllocsFromClient (als : list Allocation)
  | OpUpsertAllocs (als : list Allocation)
  | OpUpsertVaultAccessor (accessors : list VaultAccessor)
  | OpDeleteVaultAccessors (accessors : list VaultAccessor)
  | OpUpdateDeploymentStatus (req : DeploymentStatusUpdateRequest)
  | OpUpdateJobStability (id : string) (version : Z) (stable : bool)
  | OpUpdateDeploymentPromotion (req : ApplyDeploymentPromoteRequest)
  | OpUpdateDeploymentAllocHealth (req : ApplyDeploymentAllocHealthRequest)
  | OpRemoveIndex (name : string)
  | OpReconcileJobSummaries.

Section ops.
Context `{CaseLib} `{!CaseLaws} `{RangeOrder}.
Implicit Types (index : Z) (s : StateStore).

Definition applyOp index (op : StoreOp) : StateStore → (GoError + unit) * StateStore :=
  match op with
  | OpPlanResults results => UpsertPlanResults index results
  | OpUpsertJobSummary summary => UpsertJobSummary index summary
  | OpDeleteJobSummary id => DeleteJobSummary index id
  | OpUpsertDeployment d => UpsertDeployment index d
  | OpDeleteDeployment ids => DeleteDeployment index ids
  | OpUpsertNode node => UpsertNode index node
  | OpDeleteNode id => DeleteNode index id
  | OpUpdateNodeStatus id status => UpdateNodeStatus index id status
  | OpUpdateNodeDrain id drain => UpdateNodeDrain index id drain
  | OpUpsertJob job => UpsertJob index job
  | OpDeleteJob id => DeleteJob index id
  | OpUpsertPeriodicLaunch launch => UpsertPeriodicLaunch index launch
  | OpDeletePeriodicLaunch id => DeletePeriodicLaunch index id
  | OpUpsertEvals evs => UpsertEvals index evs
  | OpDeleteEval evs als => DeleteEval index evs als
  | OpUpdateAllocsFromClient als => UpdateAllocsFromClient index als
  | OpUpsertAllocs als => UpsertAllocs index als
  | OpUpsertVaultAccessor accessors => UpsertVaultAccessor index accessors
  | OpDeleteVaultAccessors accessors => DeleteVaultAccessors index accessors
  | OpUpdateDeploymentStatus req => UpdateDeploymentStatus index req
  | OpUpdateJobStability id version stable => UpdateJobStability index id version stable
  | OpUpdateDeploymentPromotion req => UpdateDeploymentPromotion index req
  | OpUpdateDeploymentAllocHealth req => UpdateDeploymentAllocHealth index req
  | OpRemoveIndex name => RemoveIndex name
  | OpReconcileJobSummaries => ReconcileJobSummaries index
  end.

Definition optional {A} (P : A → Prop) (o : option A) : Prop := match o with Some a => P a | None => True end.

(** The objects of a request are proper, its jobs can be registered. *)
Definition proper_op (op : StoreOp) : Prop :=
  match op with
  | OpPlanResults results =>
      Forall (properRow allocTableSchema) (ap_Alloc results) ∧ optional (properRow deploymentSchema) (ap_Deployment results)
  | OpUpsertJobSummary summary => properRow jobSummarySchema summary
  | OpUpsertDeployment d => properRow deploymentSchema d
  | OpUpsertNode node => properRow nodeTableSchema node
  | OpUpsertJob job => job_ok job
  | OpUpsertPeriodicLaunch launch => properRow periodicLaunchTableSchema launch
  | OpUpsertEvals evs => Forall (properRow evalTableSchema) evs
  | OpUpsertAllocs als => Forall (properRow allocTableSchema) als
  | OpUpsertVaultAccessor accessors => Forall (properRow vaultAccessorTableSchema) accessors
  | OpUpdateDeploymentStatus req => optional job_ok (dr_Job req) ∧ optional (properRow evalTableSchema) (dr_Eval req)
  | OpUpdateDeploymentPromotion req => optional (properRow evalTableSchema) (dp_Eval req)
  | OpUpdateDeploymentAllocHealth req => optional job_ok (dh_Job req) ∧ optional (properRow evalTableSchema) (dh_Eval req)
  | _ => True
  end.

Lemma commit_keeps (m : Txn unit) φ s : keeps False m φ → store_ok s → store_ok (commit m s).2.
Proof. intros Hm. apply commit_triple. intros s' Hs'. specialize (Hm s' Hs'). destruct (m s') as [[e|u] s1]; [done|]. by destruct Hm. Qed.

Lemma keeps_optionalEval index o : optional (properRow evalTableSchema) o → keeps False (upsertOptionalEval index o) anyRow.
Proof. destruct o; simpl; [apply keeps_nestedUpsertEval|intros _; apply keeps_any]. Qed.
Lemma keeps_optionalJob index o : optional job_ok o → keeps False (upsertOptionalJob index o) anyRow.
Proof. destruct o; simpl; [|intros _; apply keeps_any]. intros Hj. by apply keeps_upsertJobImpl. Qed.

Lemma denormalized_proper job als : Forall (properRow allocTableSchema) als →
  Forall (properRow allocTableSchema) (totalResources <$> DenormalizeAllocationJobs job als).
Proof.
  intros Hp. apply Forall_fmap. unfold DenormalizeAllocationJobs. destruct job as [j|]; [apply Forall_fmap|];
    (eapply Forall_impl; [exact Hp|]); intros a Ha; unfold totalResources; simpl; by repeat case_match.
Qed.

Lemma keeps_ignore (m : Txn unit) : keeps True m anyRow → keeps False (ignoreErr m) anyRow.
Proof.
  intros Hm s Hs. unfold ignoreErr. specialize (Hm s Hs). destruct (m s) as [[[]|u] s1]; try done.
  - split; [by apply Hm|done].
  - split; [by apply Hm|done].
Qed.

Lemma planResults_ok index results s : proper_op (OpPlanResults results) → store_ok s → store_ok (UpsertPlanResults index results s).2.
Proof.
  intros [Ha Hd]. eapply commit_keeps, (keeps_bind _ _ _ anyRow); [|intros _ _; apply (keeps_bind _ _ _ anyRow); [|intros _ _]].
  - destruct (ap_Deployment results); [by apply keeps_upsertDeploymentImpl|apply keeps_any].
  - case_match; [apply keeps_any|]. apply keeps_ignore, keeps_forEach. intros u _. apply keeps_updateDeploymentStatusImpl.
  - by apply keeps_upsertAllocsImpl, denormalized_proper.
Qed.

(** One object of a simple table: lookup, insertion, index. *)
Lemma keeps_simple {V} (r : TableRef V) `{!Ref r} index name f g (id : string) (obj : option V → V) :
  nulFree name → name ≠ "" → (∀ o, properRow (tr_schema r) (obj o)) → (∀ v, ref_inv v) →
  keeps False (x ← wrap f [] (firstByID r id); (wrap g [] (txnInsert r (obj x)) ≫= fun _ => setIndex name index)) anyRow.
Proof.
  intros Hn Hne Hp Hinv. eapply keeps_bind; [apply keeps_wrap, (keeps_firstByID r)|]. intros o _.
  eapply keeps_bind; [apply keeps_wrap; by apply (keeps_insert r)|]. intros _ _. by apply keeps_setIndex.
Qed.

Lemma keeps_existingNode id : keeps False (existingNode id) (properRow nodeTableSchema).
Proof.
  eapply keeps_bind; [apply keeps_wrap, (keeps_firstByID nodes)|]. intros [n|] Hn; [|apply keeps_fail].
  apply keeps_ret. by destruct (Hn n eq_refl).
Qed.

Lemma keeps_updateNode index id f g : (∀ n, properRow nodeTableSchema n → properRow nodeTableSchema (f n)) →
  keeps False (n ← existingNode id; (wrap g [] (txnInsert nodes (f n)) ≫= fun _ => setIndex "nodes" index)) anyRow.
Proof.
  intros Hf. eapply keeps_bind; [apply keeps_existingNode|]. intros n Hn.
  eapply keeps_bind; [apply keeps_wrap; by apply (keeps_insert nodes); [apply Hf| |]|]. keep.
Qed.

Lemma keeps_deleteDeployments ids : keeps False (deleteDeployments ids) anyRow.
Proof.
  induction ids as [|id ids IH]; simpl; [apply keeps_any|]. eapply keeps_bind; [apply keeps_wrap, (keeps_firstByID deployment)|].
  intros [d|] _; [|apply keeps_fail]. eapply keeps_bind; [apply keeps_wrap, (keeps_delete deployment)|]. intros _ _. apply IH.
Qed.

Lemma keeps_deletePeriodic index id :
  keeps False (
    existing ← wrap "launch lookup failed: %v" [] (firstByID periodic_launch id);
    match existing with
    | None => fail (errorf "launch not found")
    | Some launch =>
        wrap "launch delete failed: %v" [] (txnDelete periodic_launch launch) ≫= fun _ => setIndex "periodic_launch" index
    end) anyRow.
Proof.
  eapply keeps_bind; [apply keeps_wrap, (keeps_firstByID periodic_launch)|]. intros [l|] _; [|apply keeps_fail].
  eapply keeps_bind; [apply keeps_wrap, (keeps_delete periodic_launch)|]. keep.
Qed.

Lemma reconcile_ok index s : store_ok s → store_ok (ReconcileJobSummaries index s).2.
Proof.
  eapply commit_keeps, keeps_bind; [apply (keeps_get jobs)|]. intros l Hl. rewrite Forall_forall in Hl.
  eapply keeps_bind; [apply keeps_forEach|keep]. intros job Hj. destruct (proj1 (good_job job) (Hl job Hj)) as [(Hne & Hp & _) _].
  eapply keeps_bind; [apply (keeps_get allocs)|]. intros als _. apply keeps_wrap. by apply keeps_insert_summary.
Qed.

Lemma promotion_ok index req s : proper_op (OpUpdateDeploymentPromotion req) → store_ok s → store_ok (UpdateDeploymentPromotion index req s).2.
Proof.
  intros He. eapply commit_keeps, keeps_bind; [apply keeps_activeDeployment|]. intros d (Hp & _ & _).
  eapply keeps_bind; [apply (keeps_get allocs)|]. intros als _. cbv zeta. case_match; [apply keeps_fail|].
  eapply keeps_bind; [apply keeps_upsertDeploymentImpl; [|done]|intros _ _; by apply keeps_optionalEval].
  unfold promote. cbv zeta. by case_match.
Qed.

Lemma allocHealth_ok index req s : proper_op (OpUpdateDeploymentAllocHealth req) → store_ok s → store_ok (UpdateDeploymentAllocHealth index req s).2.
Proof.
  intros [Hj He]. eapply commit_keeps, keeps_bind; [apply keeps_activeDeployment|]. intros d _.
  eapply (keeps_bind _ _ _ anyRow).
  { case_match; [apply keeps_any|]. eapply keeps_bind; [apply keeps_forEach; intros id _; apply keeps_setAllocHealth|]. intros _ _.
    eapply keeps_bind; [apply keeps_forEach; intros id _; apply keeps_setAllocHealth|]. keep. }
  intros _ _. eapply (keeps_bind _ _ _ anyRow); [case_match; [apply keeps_updateDeploymentStatusImpl|apply keeps_any]|]. intros _ _.
  eapply keeps_bind; [by apply keeps_optionalJob|]. intros _ _. by apply keeps_optionalEval.
Qed.

Lemma deleteJob_ok index id s : store_ok s → store_ok (DeleteJob index id s).2.
Proof.
  eapply commit_keeps, keeps_bind; [apply keeps_wrap, (keeps_firstByID jobs)|]. intros [job|] _; [|apply keeps_fail].
  eapply keeps_bind; [apply keeps_countDeleted|]. intros _ _. eapply keeps_bind; [apply keeps_wrap, (keeps_delete jobs)|]. intros _ _.
  eapply keeps_bind; [keep|]. intros _ _. eapply keeps_bind; [apply keeps_deleteJobVersions|]. intros _ _.
  eapply keeps_bind; [apply keeps_wrap, (keeps_deleteAll job_summary)|]. keep.
Qed.

Lemma deleteEval_ok index evs als s : store_ok s → store_ok (DeleteEval index evs als s).2.
Proof.
  eapply commit_keeps, keeps_bind; [apply keeps_deleteEvals|]. intros js _. eapply keeps_bind; [apply keeps_deleteAllocs|]. intros _ _.
  eapply keeps_bind; [keep|]. intros _ _. eapply keeps_bind; [keep|]. intros _ _. apply keeps_wrap, keeps_setJobStatuses.
Qed.

(** Every operation keeps the store well formed, whether it succeeds or fails. *)
Lemma applyOp_ok index op s : proper_op op → store_ok s → store_ok (applyOp index op s).2.
Proof.
  destruct op as [results|summary|id|d|ids|node|id|id status|id drain|job|id|launch|id|evs|evs als|als|als|acs|acs|req|id version stable|req|req|name|];
    simpl; intros Hp.
  - by apply planResults_ok.
  - eapply commit_keeps, keeps_bind; [apply keeps_wrap, (keeps_firstByID job_summary)|]. intros o _.
    eapply keeps_bind; [by apply (keeps_insert job_summary)|]. keep.
  - eapply commit_keeps, keeps_bind; [apply keeps_wrap, (keeps_deleteAll job_summary)|]. keep.
  - eapply commit_keeps. by apply keeps_upsertDeploymentImpl.
  - unfold DeleteDeployment. case_match; [done|]. eapply commit_keeps, keeps_bind; [apply keeps_deleteDeployments|]. keep.
  - eapply commit_keeps, (keeps_simple nodes); [auto with store|done| |done]. intros o. by destruct o.
  - eapply commit_keeps, keeps_bind; [apply keeps_existingNode|]. intros n _.
    eapply keeps_bind; [apply keeps_wrap, (keeps_delete nodes)|]. keep.
  - eapply commit_keeps, (keeps_updateNode index id (fun n => n <| nd_Status := status |> <| nd_ModifyIndex := index |>)). done.
  - eapply commit_keeps, (keeps_updateNode index id (fun n => n <| nd_Drain := drain |> <| nd_ModifyIndex := index |>)). done.
  - eapply commit_keeps. by apply keeps_upsertJobImpl.
  - apply deleteJob_ok.
  - eapply commit_keeps, (keeps_simple periodic_launch); [auto with store|done|done|done].
  - eapply commit_keeps. apply keeps_deletePeriodic.
  - eapply commit_keeps, keeps_bind; [apply keeps_forEach|intros _ _; apply keeps_wrap, keeps_setJobStatuses].
    rewrite Forall_forall in Hp. intros e He. by apply keeps_nestedUpsertEval, Hp.
  - apply deleteEval_ok.
  - eapply commit_keeps, keeps_bind; [apply keeps_forEach|keep]. intros a _. apply keeps_nestedUpdateAllocFromClient.
  - eapply commit_keeps. by apply keeps_upsertAllocsImpl.
  - eapply commit_keeps, keeps_bind; [apply keeps_forEach|keep]. rewrite Forall_forall in Hp. intros a Ha.
    apply keeps_wrap. eapply keeps_weaken; [apply (keeps_insert vault_accessors); [by apply (Hp a Ha)|done|done]|done].
  - eapply commit_keeps, keeps_bind; [apply keeps_forEach|keep]. intros a _. apply keeps_wrap, (keeps_delete vault_accessors).
  - destruct Hp as [Hj He]. eapply commit_keeps, keeps_bind; [apply keeps_updateDeploymentStatusImpl|]. intros _ _.
    eapply keeps_bind; [by apply keeps_optionalJob|]. intros _ _. by apply keeps_optionalEval.
  - eapply commit_keeps, keeps_updateJobStabilityImpl.
  - by apply promotion_ok.
  - by apply allocHealth_ok.
  - eapply commit_keeps, (keeps_deleteAll indexes).
  - apply reconcile_ok.
Qed.
End ops.
