(* ===== verification/StoreQuery.v ===== *)
(** * What the queries of the state store return

    In a well-formed store, a query by an index returns each stored object whose indexed
    fields are those asked for, once, and nothing else.  Identifiers of jobs and nodes are
    compared in lower case, UUIDs by the bytes they decode to. *)

From stdpp Require Import base gmap strings list.
From Stdlib Require Import ZArith Lia Ascii.
From S2P Require Import Prelude GoText Structs Resources Jobs Allocs Plans Feasible MemDB MemDBSpec StateStore StoreSpec.
Open Scope string_scope.
Open Scope list_scope.
Open Scope Z_scope.

Section queries.
Context `{CaseLib}.
Implicit Types (s : StateStore).

Definition sameID (a b : string) : Prop := ToLower a = ToLower b.
Definition sameUUID (a b : string) : Prop := parseString a true = parseString b true.

Definition stored {V} (r : TableRef V) s (v : V) : Prop := ∃ k, table r s !! k = Some v.

(** The rows of a query, when the value of the index of a row is [val] exactly for the
    rows with [P]. *)
Lemma exact_query {V} (r : TableRef V) `{!Ref r} s ix val (P : V → Prop) :
  store_ok s → ix ∈ ts_others (tr_schema r) → code (is_Indexer ix) val →
  (∀ v, good r v → FromObject (is_Indexer ix) v = inr (Some val) ↔ P v) →
  let l := scan val (tree (tr_get r s) (is_Name ix)) in NoDup l ∧ ∀ v, v ∈ l ↔ stored r s v ∧ P v.
Proof.
  intros Hs Hix Hc HP. destruct (ref_ok_get (r := r) s Hs) as [Hwf _].
  destruct (scan_exact (tr_schema r) ref_schema (tr_get r s) ix val Hwf Hix Hc) as [Hnd Hin]. split; [done|]. intros v.
  rewrite Hin. split.
  - intros (k & Hk & E). split; [by exists k|]. apply HP; [by apply (row_good r s k)|done].
  - intros [[k Hk] Hv]. exists k. split; [done|]. apply HP; [by apply (row_good r s k)|done].
Qed.

Lemma allocs_by_job s id : store_ok s → properString true id →
  ∃ l, queryGet allocs s "job" [AString id] = inr l ∧ NoDup l ∧ ∀ a, a ∈ l ↔ stored allocs s a ∧ sameID (al_JobID a) id.
Proof.
  intros Hs Hp. eexists. split; [reflexivity|]. set (ix := indexOn "job" false (Single (StringFieldIndex al_JobID true))).
  apply (exact_query allocs s ix (terminated id true) (fun a => sameID (al_JobID a) id)); [done|by right; left| |].
  - apply (FromArgs_code _ [AString id]); [by repeat constructor|done].
  - intros a (_ & [_ (_ & (o & Eo & Hm) & _)] & _). simpl in Eo |- *. case_bool_decide as E; [injection Eo as <-; by specialize (Hm eq_refl)|].
    split.
    + intros [= E1]. by apply terminated_inj in E1.
    + intros E1. do 2 f_equal. by apply (terminated_inj _ _ true).
Qed.

Lemma allocs_by_node s node b : store_ok s → properString true node →
  ∃ l, AllocsByNodeTerminal s node b = inr l ∧ NoDup l ∧
  ∀ a, a ∈ l ↔ stored allocs s a ∧ al_NodeID a ≠ "" ∧ sameID (al_NodeID a) node ∧ AllocTerminal a = b.
Proof.
  intros Hs Hp. eexists. split; [reflexivity|].
  set (ix := indexOn "node" true (CompoundIndex [StringFieldIndex al_NodeID true; ConditionalIndex AllocTerminal])).
  apply (exact_query allocs s ix _ (fun a => al_NodeID a ≠ "" ∧ sameID (al_NodeID a) node ∧ AllocTerminal a = b)); [done|left| |].
  - apply (FromArgs_code _ [AString node; ABool b]); [by repeat constructor|done].
  - intros a (Hpr & _ & _). destruct Hpr as [_ [[Hpa _] _]]. simpl in Hpa |- *. case_bool_decide as E.
    + split; [done|]. by intros [? _].
    + split.
      * intros [= E1]. rewrite !app_empty in E1.
        assert (terminated (al_NodeID a) true = terminated node true ∧
                bytes1 (if AllocTerminal a then 1 else 0) = bytes1 (if b then 1 else 0)) as [E2 E3].
        { eapply (fieldCode_prefix_free (StringFieldIndex al_NodeID true)); [by eexists|by eexists|done]. }
        split_and!; [done|by apply terminated_inj in E2|]. by destruct (AllocTerminal a), b.
      * intros (_ & E1 & ->). do 2 f_equal. f_equal. by apply (terminated_inj _ _ true).
Qed.

(** A query by a UUID: an error if it does not parse. *)
Lemma uuid_query (name : string) (field : Allocation → string) missing s id :
  store_ok s → properUUID id →
  let ix := indexOn name missing (Single (UUIDFieldIndex field)) in
  ix ∈ ts_others allocTableSchema →
  match parseString id true with
  | inl _ => True
  | inr val => let l := scan val (tree (st_allocs s) name) in
               NoDup l ∧ ∀ a, a ∈ l ↔ stored allocs s a ∧ field a ≠ "" ∧ sameUUID (field a) id
  end.
Proof.
  intros Hs Hp ix Hix. destruct (parseString id true) as [|val] eqn:E; [done|].
  apply (exact_query allocs s ix val (fun a => field a ≠ "" ∧ sameUUID (field a) id)); [done|done| |].
  - apply (FromArgs_code _ [AString id]); [by repeat constructor|done].
  - intros a _. unfold sameUUID. rewrite E. simpl. case_bool_decide as En; [naive_solver|].
    destruct (parseString (field a) true); naive_solver.
Qed.

(** The evaluations of a job. *)
Lemma evals_by_job s id : store_ok s →
  ∃ l, queryGet evals s "job_prefix" [AString id] = inr l ∧
  ∀ e, e ∈ filter (fun e => ev_JobID e = id) l ↔ stored evals s e ∧ ev_JobID e = id.
Proof.
  intros Hs. eexists. split; [reflexivity|]. intros e. rewrite list_elem_of_filter.
  destruct (ref_ok_get (r := evals) s Hs) as [Hwf _].
  set (ix := indexOn "job" false (CompoundIndex [StringFieldIndex ev_JobID true; StringFieldIndex ev_Status true])).
  assert (ix ∈ ts_others evalTableSchema) as Hix by left.
  split; intros [H1 H2]; (split; [try done|try done]).
  - apply elem_of_scan in H2 as (key & Hkey & _). apply (tw_index _ _ Hwf ix Hix) in Hkey as (k & Hk & _). by exists k.
  - subst. destruct H1 as [k Hk]. apply elem_of_scan. destruct (tw_rows _ _ Hwf k e Hk) as (_ & Hi & _).
    destruct (indexable_key _ k e ix Hi Hix) as (o & Eo & Hm). destruct o as [key|]; [|by specialize (Hm eq_refl)].
    exists key. split; [apply (tw_index _ _ Hwf ix Hix); eauto|]. unfold indexKey in Eo. simpl in Eo.
    repeat case_bool_decide; try done. injection Eo as <-. apply prefix_app_iff. unfold terminated. rewrite !app_assoc_str. by eexists.
Qed.

(** All rows of a table. *)
Lemma all_rows {V} (r : TableRef V) `{!Ref r} s : store_ok s →
  ∃ l, queryGet r s "id" [] = inr l ∧ NoDup l ∧ ∀ v, v ∈ l ↔ stored r s v.
Proof.
  intros Hs. exists (scan "" (rows (tr_get r s))). destruct (ref_ok_get (r := r) s Hs) as [Hwf _].
  split; [|by apply (scan_all (tr_schema r))]. unfold queryGet, Get, getIndexValue.
  change (HasSuffix "id" "_prefix") with false. change (TrimSuffix "id" "_prefix") with "id". cbn [ts_Indexes list_find].
  by rewrite decide_True by done.
Qed.
End queries.

(** * More queries of the state store

    The lookups that the leader and the endpoints of the server use: what they return, in
    terms of the stored rows. *)

Section lookups.
Context `{CaseLib}.
Implicit Types (s : StateStore).

(** A row whose identifier is a UUID is under the bytes of that UUID. *)
Lemma uuid_row {V} (r : TableRef V) `{!Ref r} (field : V → string) s k v : ts_id (tr_schema r) = Single (UUIDFieldIndex field) →
  store_ok s → table r s !! k = Some v → field v ≠ "" ∧ properUUID (field v) ∧ parseString (field v) true = inr k.
Proof.
  intros Hid Hs Hk. destruct (ref_ok_get (r := r) s Hs) as [Hwf _]. destruct (tw_rows _ _ Hwf k v Hk) as (Hp & _ & [Hproper _]).
  unfold proper in Hproper. rewrite Hid in Hproper. destruct Hproper as [Hproper _]. unfold primaryKey in Hp. rewrite Hid in Hp. simpl in Hp, Hproper.
  case_bool_decide as E; [done|]. destruct (parseString (field v) true) as [|a]; [done|]. injection Hp as <-. destruct Hproper as [?|Hproper]; [done|]. by split_and!.
Qed.

(** The characters of a UUID are hyphens and hexadecimal digits. *)
Lemma hexDecode_nulFree (s : string) : ∀ d, hexDecode s = Some d → nulFree s.
Proof.
  unfold nulFree. assert (∀ n (s : string) d, (String.length s ≤ n)%nat → hexDecode s = Some d → NUL ∉ String.list_ascii_of_string s) as Hgo.
  { induction n as [|n IH]; intros [|a [|b s']] d; simpl; try lia; try done; try (intros _ _; by apply not_elem_of_nil).
    intros Hn. destruct (hexVal a) eqn:Ea, (hexVal b) eqn:Eb, (hexDecode s') as [r|] eqn:E; simpl; try done. intros _.
    rewrite !not_elem_of_cons. split_and!; [by intros <-|by intros <-|]. apply (IH s' r); [lia|done]. }
  intros d. by apply (Hgo (String.length s)).
Qed.

Lemma withoutHyphens_nulFree (s : string) : nulFree (withoutHyphens s) → nulFree s.
Proof.
  unfold nulFree. induction s as [|c s IH]; [done|]. simpl. rewrite not_elem_of_cons. case_bool_decide as E; simpl; [subst; intros Hs; split; [done|auto]|].
  rewrite not_elem_of_cons. intros [? ?]. split; auto.
Qed.

Lemma uuid_nulFree (s : string) k : parseString s true = inr k → nulFree s.
Proof.
  unfold parseString. repeat (case_match; [done|]). destruct (hexDecode (withoutHyphens s)) as [d|] eqn:E; [|done]. intros _.
  by eapply withoutHyphens_nulFree, hexDecode_nulFree.
Qed.

(** The allocations of an evaluation. *)
Definition belongs (a : Allocation) (e : Evaluation) : Prop := al_EvalID a ≠ "" ∧ sameUUID (al_EvalID a) (ev_ID e).

Lemma allocs_by_eval s e : store_ok s → stored evals s e →
  ∃ l, AllocsByEval s (ev_ID e) = inr l ∧ NoDup l ∧ ∀ a, a ∈ l ↔ stored allocs s a ∧ belongs a e.
Proof.
  intros Hs [k Hk]. destruct (uuid_row evals ev_ID s k e eq_refl Hs Hk) as (_ & Hp & Ek).
  pose proof (uuid_query "eval" al_EvalID false s (ev_ID e) Hs Hp ltac:(by right; right; left)) as Hq. rewrite Ek in Hq. cbv zeta in Hq.
  eexists. split; [|exact Hq]. unfold AllocsByEval, queryGet, Get, getIndexValue. cbn.
  repeat first [rewrite decide_True by done|rewrite decide_False by done]. cbn. by rewrite Ek.
Qed.

(** The jobs that may be collected, that are periodic. *)
Lemma jobs_by_condition name (cond : Job → bool) s (b : bool) : store_ok s →
  indexOn name false (Single (ConditionalIndex cond)) ∈ ts_others jobTableSchema →
  let l := scan (bytes1 (if b then 1 else 0)) (tree (st_jobs s) name) in
  NoDup l ∧ ∀ j, j ∈ l ↔ stored jobs s j ∧ cond j = b.
Proof.
  intros Hs Hix. apply (exact_query jobs s (indexOn name false (Single (ConditionalIndex cond))) _ (fun j => cond j = b)); [done|done| |].
  - apply (FromArgs_code _ [ABool b]); [by repeat constructor|done].
  - intros j _. simpl. split; [|by intros ->]. intros [= E]. destruct (cond j), b; done.
Qed.

Lemma jobs_by_gc s b : store_ok s →
  ∃ l, JobsByGC s b = inr l ∧ NoDup l ∧ ∀ j, j ∈ l ↔ stored jobs s j ∧ jobIsGCable j = b.
Proof. intros Hs. eexists. split; [reflexivity|]. apply (jobs_by_condition "gc" jobIsGCable s b Hs). by right; left. Qed.

Lemma jobs_by_periodic s b : store_ok s →
  ∃ l, JobsByPeriodic s b = inr l ∧ NoDup l ∧ ∀ j, j ∈ l ↔ stored jobs s j ∧ jobIsPeriodic j = b.
Proof. intros Hs. eexists. split; [reflexivity|]. apply (jobs_by_condition "periodic" jobIsPeriodic s b Hs). by right; right; left. Qed.

Lemma jobs_by_scheduler s type : store_ok s → nulFree type →
  ∃ l, JobsByScheduler s type = inr l ∧ NoDup l ∧ ∀ j, j ∈ l ↔ stored jobs s j ∧ jb_Type j = type.
Proof.
  intros Hs Hp. eexists. split; [reflexivity|]. set (ix := indexOn "type" false (Single (StringFieldIndex jb_Type false))).
  apply (exact_query jobs s ix (terminated type false) (fun j => jb_Type j = type)); [done|left| |].
  - apply (FromArgs_code _ [AString type]); [by repeat constructor|done].
  - intros j (_ & [_ ((o & Eo & Hm) & _)] & _). simpl in Eo |- *. case_bool_decide as E; [injection Eo as <-; by specialize (Hm eq_refl)|].
    split; [|by intros ->]. intros [= E1]. by apply terminated_inj in E1.
Qed.

(** A prefix without NUL of a terminated string is a prefix of the string. *)
Lemma prefix_before_nul p x r : nulFree p → HasPrefix (x +:+ String NUL r) p = HasPrefix x p.
Proof.
  unfold nulFree, HasPrefix. revert x. induction p as [|c p IH]; intros [|d x] Hp; simpl in Hp; try done; apply not_elem_of_cons in Hp as [Hc Hp].
  - simpl. destruct (Ascii.ascii_dec c NUL) as [->|]; done.
  - rewrite app_String. simpl. destruct (Ascii.ascii_dec c d); [by apply IH|done].
Qed.

(** The query by a node matches every node whose identifier starts with the one asked for. *)
Definition onNode (a : Allocation) (id : string) : Prop := al_NodeID a ≠ "" ∧ HasPrefix (ToLower (al_NodeID a)) (ToLower id) = true.

Lemma allocs_by_node_prefix s id : store_ok s → properString true id →
  ∃ l, AllocsByNode s id = inr l ∧ ∀ a, a ∈ l ↔ stored allocs s a ∧ onNode a id.
Proof.
  intros Hs Hp. eexists. split; [reflexivity|]. intros a. destruct (ref_ok_get (r := allocs) s Hs) as [Hwf _].
  set (ix := indexOn "node" true (CompoundIndex [StringFieldIndex al_NodeID true; ConditionalIndex AllocTerminal])).
  assert (ix ∈ ts_others allocTableSchema) as Hix by left. rewrite elem_of_scan.
  assert (∀ k key, indexKey k ix a = inr (Some key) ↔
    al_NodeID a ≠ "" ∧ key = ToLower (al_NodeID a) +:+ String NUL (bytes1 (if AllocTerminal a then 1 else 0) +:+ k)) as Hkey.
  { intros k key. unfold indexKey. simpl. case_bool_decide as E; [naive_solver|]. unfold terminated. rewrite app_empty, !app_assoc_str. naive_solver. }
  split.
  - intros (key & Hin & Hpre). apply (tw_index _ _ Hwf ix Hix) in Hin as (k & Hk & [Hne ->]%Hkey). split; [by exists k|]. split; [done|].
    simpl in Hpre. by rewrite prefix_before_nul in Hpre.
  - intros [[k Hk] [Hne Hpre]]. eexists. split; [apply (tw_index _ _ Hwf ix Hix); exists k; split; [done|by apply Hkey]|].
    simpl. by rewrite prefix_before_nul.
Qed.
End lookups.
