(* ===== verification/StoreStatus.v ===== *)
(** * The status of jobs

    [status_right] says what the status of a job should be, given the stored allocations
    and evaluations.  The operations that write allocations or evaluations leave the jobs
    of these with the right status, whichever status they force. *)

From stdpp Require Import base gmap strings list.
From Stdlib Require Import ZArith Lia.
From S2P Require Import Prelude GoText Structs Resources Jobs Allocs Plans MemDB MemDBSpec StateStore StoreSpec StoreInv StoreQuery.
Open Scope string_scope.
Open Scope list_scope.
Open Scope Z_scope.

(** ** Frames: what a transaction does not touch *)

Definition frame {A X} (p : StateStore → X) (m : Txn A) : Prop := ∀ s, p (m s).2 = p s.

Section frames.
Context {X : Type} (p : StateStore → X).

Lemma frame_ret {A} (a : A) : frame p (mret a).
Proof. done. Qed.
Lemma frame_fail {A} e : frame p (fail (A := A) e).
Proof. done. Qed.
Lemma frame_lift {A} (r : GoError + A) : frame p (lift r).
Proof. done. Qed.
Lemma frame_bind {A B} (m : Txn A) (k : A → Txn B) : frame p m → (∀ a, frame p (k a)) → frame p (m ≫= k).
Proof.
  intros Hm Hk s. unfold mbind, Txn_bind. specialize (Hm s). destruct (m s) as [[e|a] s1]; simpl in *; [done|]. by rewrite (Hk a s1).
Qed.
Lemma frame_wrap {A} f args (m : Txn A) : frame p m → frame p (wrap f args m).
Proof. intros Hm s. unfold wrap. specialize (Hm s). by destruct (m s) as [[e|a] s1]. Qed.
Lemma frame_forEach {A} (l : list A) (body : A → Txn unit) : (∀ x, frame p (body x)) → frame p (forEach l body).
Proof. intros Hb. induction l as [|x l IH]; simpl; [done|]. apply frame_bind; auto. Qed.
Lemma frame_insert `{CaseLib} {V} (r : TableRef V) obj : (∀ t s, p (tr_set r t s) = p s) → frame p (txnInsert r obj).
Proof. intros Hr s. unfold txnInsert. destruct (Insert (tr_schema r) obj (tr_get r s)). apply Hr. Qed.
Lemma frame_delete `{CaseLib} {V} (r : TableRef V) obj : (∀ t s, p (tr_set r t s) = p s) → frame p (txnDelete r obj).
Proof. intros Hr s. unfold txnDelete. destruct (Delete (tr_schema r) obj (tr_get r s)). apply Hr. Qed.
Lemma frame_deleteAll `{CaseLib} {V} (r : TableRef V) n args : (∀ t s, p (tr_set r t s) = p s) → frame p (txnDeleteAll r n args).
Proof. intros Hr s. unfold txnDeleteAll. destruct (DeleteAll (tr_schema r) n args (tr_get r s)). apply Hr. Qed.
Lemma frame_first `{CaseLib} {V} (r : TableRef V) n args : frame p (txnFirst r n args).
Proof. done. Qed.
Lemma frame_get `{CaseLib} {V} (r : TableRef V) n args : frame p (txnGet r n args).
Proof. done. Qed.
Lemma frame_at {A} (m : Txn A) s r s' : frame p m → m s = (r, s') → p s' = p s.
Proof. intros Hm E. specialize (Hm s). by rewrite E in Hm. Qed.
End frames.

(** Applies the rules of [frame] to the shape of the transaction. *)
Ltac solve_frame :=
  repeat first
    [ progress intros
    | progress cbv zeta
    | apply frame_bind
    | apply frame_forEach
    | apply frame_wrap
    | apply frame_insert; done
    | apply frame_delete; done
    | apply frame_deleteAll; done
    | apply frame_first
    | apply frame_get
    | apply frame_ret
    | apply frame_fail
    | apply frame_lift
    | assumption
    | match goal with |- frame _ (match ?x with _ => _ end) => destruct x end
    | match goal with |- frame _ (let '(_, _) := ?x in _) => destruct x end ].

Section status.
Context `{CaseLib} `{!CaseLaws} `{RangeOrder}.
Implicit Types (index : Z) (s : StateStore).

Lemma keeps_inr {A} strict (m : Txn A) φ s a s' : keeps strict m φ → store_ok s → m s = (inr a, s') → store_ok s' ∧ φ a.
Proof. intros Hm Hs E. specialize (Hm s Hs). by rewrite E in Hm. Qed.

(** The outcome of a successful insertion. *)
Lemma insert_inr {V} (r : TableRef V) `{!Ref r} obj s u s' :
  store_ok s → properRow (tr_schema r) obj → txnInsert r obj s = (inr u, s') →
  indexable (tr_schema r) obj ∧ ∃ k, primaryKey (tr_schema r) obj = inr k ∧ table r s' = <[k := obj]> (table r s).
Proof.
  intros Hs Hp E. destruct (ref_ok_get (r := r) s Hs) as [Hwf _].
  pose proof (Insert_spec (tr_schema r) ref_schema (tr_get r s) obj Hwf Hp) as Hi. unfold txnInsert in E.
  destruct (Insert (tr_schema r) obj (tr_get r s)) as [[e|u'] t]; simplify_eq/=. destruct Hi as (Hi & _ & k & Hk & Er).
  split; [done|]. exists k. split; [done|]. unfold table. by rewrite ref_get_set.
Qed.

Lemma job_primary j : job_ok j → primaryKey jobTableSchema j = inr (lowerKey (jb_ID j)).
Proof. intros (Hne & _). unfold primaryKey. simpl. by rewrite bool_decide_false. Qed.

(** A registered job is found under its identifier. *)
Lemma job_row s k j : store_ok s → table jobs s !! k = Some j → k = lowerKey (jb_ID j) ∧ job_ok j ∧ version_ok j.
Proof.
  intros Hs Hj. destruct (proj1 (good_job j) (row_good jobs s k j Hs Hj)) as [Hok Hv]. split; [|done].
  destruct (ref_ok_get (r := jobs) s Hs) as [Hwf _]. destruct (tw_rows _ _ Hwf k j Hj) as [Hk _].
  change (primaryKey jobTableSchema j = inr k) in Hk. rewrite (job_primary j Hok) in Hk. by injection Hk.
Qed.

(** ** The status a job should have *)

Definition jobAlloc s (job : Job) (a : Allocation) : Prop := stored allocs s a ∧ sameID (al_JobID a) (jb_ID job).
Definition jobEval s (job : Job) (e : Evaluation) : Prop := stored evals s e ∧ ev_JobID e = jb_ID job.

Definition hasLive s job : Prop := ∃ a, jobAlloc s job a ∧ AllocTerminal a = false.
Definition unfinished s job : Prop := ∃ e, jobEval s job e ∧ TerminalStatus e = false.

Definition status_right s (job : Job) (evalDelete : bool) (st : string) : Prop :=
  (hasLive s job → st = JobStatusRunning) ∧
  (¬ hasLive s job → unfinished s job → st = JobStatusPending) ∧
  (¬ hasLive s job → ¬ unfinished s job →
     let byStop := if jb_Stop job then JobStatusDead else JobStatusRunning in
     (jb_Type job = JobTypeSystem → st = byStop) ∧
     (jb_Type job ≠ JobTypeSystem →
        (evalDelete = true ∨ (∃ e, jobEval s job e) ∨ (∃ a, jobAlloc s job a) → st = JobStatusDead) ∧
        (evalDelete = false → (∀ e, ¬ jobEval s job e) → (∀ a, ¬ jobAlloc s job a) →
           st = if IsPeriodic job || IsParameterized job then byStop else JobStatusPending))).

Lemma existsb_false {A} (f : A → bool) l : existsb f l = false ↔ ∀ x, x ∈ l → f x = false.
Proof.
  induction l as [|y l IH]; simpl.
  - split; [|done]. by intros _ x Hx%not_elem_of_nil.
  - rewrite orb_false_iff, IH. split.
    + intros [Hy Hl] x [->|Hx]%elem_of_cons; auto.
    + intros Hl. split; [apply Hl; left|]. intros x Hx. apply Hl. by right.
Qed.

Lemma existsb_true {A} (f : A → bool) l : existsb f l = true ↔ ∃ x, x ∈ l ∧ f x = true.
Proof. rewrite existsb_exists. by setoid_rewrite list_elem_of_In. Qed.

Lemma nil_length {A} (l : list A) : (length l =? 0)%nat = true ↔ ∀ x, x ∉ l.
Proof.
  destruct l as [|y l]; simpl; split; try done.
  - intros _ x Hx. by apply not_elem_of_nil in Hx.
  - intros Hl. destruct (Hl y). left.
Qed.

(** The computed status is the right one, and never empty. *)
Lemma getJobStatus_right s job ed : store_ok s → properString true (jb_ID job) →
  ∃ st, getJobStatus job ed s = (inr st, s) ∧ status_right s job ed st ∧ st ≠ "".
Proof.
  intros Hs Hp. destruct (allocs_by_job s (jb_ID job) Hs Hp) as (als & Ea & _ & Hals).
  destruct (evals_by_job s (jb_ID job) Hs) as (evs & Ee & Hevs).
  set (es := filter (fun e => ev_JobID e = jb_ID job) evs) in Hevs.
  assert (∀ a, a ∈ als ↔ jobAlloc s job a) as HA by done. assert (∀ e, e ∈ es ↔ jobEval s job e) as HE by done. clear Hals Hevs.
  unfold getJobStatus, mbind, Txn_bind, txnGet. rewrite Ea. destruct (existsb (fun a => negb (AllocTerminal a)) als) eqn:El.
  { apply existsb_true in El as (a & Hin & Hn). apply negb_true_iff in Hn. rewrite HA in Hin.
    assert (hasLive s job) as Hl by (by exists a). eexists. split; [reflexivity|]. split; [|done]. by split_and!. }
  rewrite existsb_false in El. assert (¬ hasLive s job) as Hl.
  { intros (a & Ha & Ht). rewrite <- HA in Ha. specialize (El a Ha). rewrite Ht in El. done. }
  rewrite Ee. fold es. destruct (existsb (fun e => negb (TerminalStatus e)) es) eqn:Eu.
  { apply existsb_true in Eu as (e & Hin & Hn). apply negb_true_iff in Hn. rewrite HE in Hin.
    assert (unfinished s job) as Hu by (by exists e). eexists. split; [reflexivity|]. split; [|done]. by split_and!. }
  rewrite existsb_false in Eu. assert (¬ unfinished s job) as Hu.
  { intros (e & He & Ht). rewrite <- HE in He. specialize (Eu e He). rewrite Ht in Eu. done. }
  case_bool_decide as Et.
  { eexists. split; [reflexivity|]. split; [|by destruct (jb_Stop job)]. by split_and!. }
  destruct (ed || negb (length es =? 0)%nat || negb (length als =? 0)%nat) eqn:Ed.
  { eexists. split; [reflexivity|]. split; [|done]. split_and!; [done..|]. intros _ _. split; [done|]. intros _. split; [done|].
    intros -> He Ha. exfalso. assert ((length es =? 0)%nat = true) as E1 by (apply nil_length; intros e; rewrite HE; apply He).
    assert ((length als =? 0)%nat = true) as E2 by (apply nil_length; intros a; rewrite HA; apply Ha). by rewrite E1, E2 in Ed. }
  apply orb_false_iff in Ed as [[-> E1]%orb_false_iff E2]. apply negb_false_iff in E1, E2. rewrite nil_length in E1. rewrite nil_length in E2.
  setoid_rewrite HE in E1. setoid_rewrite HA in E2.
  exists (if IsPeriodic job || IsParameterized job then if jb_Stop job then JobStatusDead else JobStatusRunning else JobStatusPending).
  split; [by destruct (IsPeriodic job || IsParameterized job)|]. split; [|by destruct (IsPeriodic job || IsParameterized job), (jb_Stop job)].
  split_and!; [done..|]. intros _ _. split; [done|]. intros _. split; [|done].
  intros [?|[[e He]|[a Ha]]]; [done|by apply E1 in He|by apply E2 in Ha].
Qed.

(** What the status depends on. *)
Definition statusView s : Table Allocation * Table Evaluation := (st_allocs s, st_evals s).

Definition statusFields (j : Job) := (jb_ID j, jb_Type j, jb_Stop j, jb_Periodic j, jb_ParameterizedJob j).

Lemma status_right_ext s s' j j' ed st :
  statusView s = statusView s' → statusFields j = statusFields j' → status_right s j ed st → status_right s' j' ed st.
Proof.
  intros [= Ea Ee] [= E1 E2 E3 E4 E5].
  unfold status_right, hasLive, unfinished, jobAlloc, jobEval, stored, table, IsPeriodic, IsParameterized. cbn [tr_get allocs evals].
  by rewrite Ea, Ee, E1, E2, E3, E4, E5.
Qed.

Lemma frame_updateChildren {X} (p : StateStore → X) index j old new :
  (∀ t s, p (tr_set job_summary t s) = p s) → (∀ t s, p (tr_set indexes t s) = p s) → frame p (updateChildren index j old new).
Proof. intros Hx Hy. unfold updateChildren, setIndex, firstByID. solve_frame. Qed.

Lemma frame_getJobStatus {X} (p : StateStore → X) j ed : frame p (getJobStatus j ed).
Proof. unfold getJobStatus. solve_frame. Qed.

Lemma setJobStatus_view index j ed f : frame statusView (setJobStatus index j ed f).
Proof.
  unfold setJobStatus, setIndex. solve_frame; try apply frame_getJobStatus; try (by apply frame_updateChildren).
Qed.

(** One job after its status is set: right, if the forced status is; other jobs do not
    change. *)
Lemma setJobStatus_effect index k j ed force s u s' :
  store_ok s → table jobs s !! k = Some j → (force = "" ∨ status_right s j ed force) →
  setJobStatus index j ed force s = (inr u, s') →
  ∃ j', table jobs s' = <[k := j']> (table jobs s) ∧ statusFields j' = statusFields j ∧ status_right s' j' ed (jb_Status j').
Proof.
  intros Hs Hj Hf E. pose proof (frame_at statusView _ _ _ _ (setJobStatus_view index j ed force) E) as Ev.
  destruct (job_row s k j Hs Hj) as (Ek & Hok & Hv). unfold setJobStatus in E.
  apply bind_inr in E as (new & s1 & En & E).
  assert (s1 = s ∧ status_right s j ed new ∧ new ≠ "") as (-> & Hnew & Hne).
  { clear E. case_bool_decide as Eforce.
    - destruct (getJobStatus_right s j ed Hs) as (st & Est & Hr & Hn); [apply Hok|]. rewrite Est in En. by simplify_eq.
    - injection En as <- <-. destruct Hf as [?|Hf]; [done|]. done. }
  clear En. case_bool_decide as Eold.
  - injection E as _ <-. exists j. rewrite insert_id by done. split_and!; [done|done|].
    assert (jb_Status j = new) as ->; [|done]. destruct (index =? jb_CreateIndex j); congruence.
  - set (j' := j <| jb_Status := new |> <| jb_ModifyIndex := index |>) in E.
    apply bind_inr in E as ([] & s1 & E1 & E). apply wrap_inr in E1.
    assert (properRow jobTableSchema j') as Hp by (by apply job_ok_iff).
    destruct (insert_inr jobs j' s tt s1 Hs Hp E1) as (_ & k' & Hk' & Et).
    assert (k' = k) as -> by (change (primaryKey jobTableSchema j' = inr k') in Hk'; rewrite job_primary in Hk' by done; simpl in Hk'; congruence).
    exists j'. split_and!; [|done|].
    + rewrite <- Et. apply bind_inr in E as ([] & s2 & E2 & E).
      assert (st_jobs s2 = st_jobs s1) as Ea by (eapply (frame_at st_jobs); [|exact E2]; unfold setIndex; solve_frame).
      assert (st_jobs s' = st_jobs s2) as Eb by (eapply (frame_at st_jobs); [|exact E]; by apply frame_updateChildren).
      unfold table. cbn [tr_get jobs]. by rewrite Eb, Ea.
    + by eapply status_right_ext; [symmetry; exact Ev| |exact Hnew].
Qed.

(** ** Setting the status of several jobs *)

(** Every status to force is empty or right for the job. *)
Definition forcesRight s ed (id f : string) : Prop :=
  f = "" ∨ ∀ j, table jobs s !! lowerKey id = Some j → status_right s j ed f.

Definition jobRight s ed (id : string) : Prop := ∀ j, table jobs s !! lowerKey id = Some j → status_right s j ed (jb_Status j).

(** One job of the map. *)
Lemma setOne index ed id f s u s' : store_ok s → forcesRight s ed id f →
  (existing ← wrap "job lookup failed: %v" [] (firstByID jobs id);
   match existing with None => mret tt | Some job => setJobStatus index job ed f end) s = (inr u, s') →
  store_ok s' ∧ statusView s' = statusView s ∧ jobRight s' ed id ∧
  (∀ id', jobRight s ed id' → jobRight s' ed id') ∧ (∀ id' f', forcesRight s ed id' f' → forcesRight s' ed id' f').
Proof.
  intros Hs Hf E. apply bind_inr in E as (o & s1 & E1 & E). apply wrap_inr in E1. rewrite firstByID_eq, keyOf_jobs in E1.
  injection E1 as <- <-. destruct (table jobs s !! lowerKey id) as [j|] eqn:Ej.
  - destruct (job_row s _ j Hs Ej) as (_ & Hok & Hv).
    destruct (keeps_inr False _ anyRow s u s' (keeps_setJobStatus False index j ed f Hok Hv) Hs E) as [Hs' _].
    pose proof (frame_at statusView _ _ _ _ (setJobStatus_view index j ed f) E) as Ev.
    destruct (setJobStatus_effect index _ j ed f s u s' Hs Ej) as (j' & Et & Ef & Hr); [|done|].
    { destruct Hf as [?|Hf]; [by left|right]. by apply Hf. }
    split_and!; [done|done| | |].
    + intros jj. rewrite Et, lookup_insert_eq. by intros [= <-].
    + intros id' Hid' jj. rewrite Et, lookup_insert_Some. intros [[_ <-]|[_ Hjj]]; [done|].
      eapply status_right_ext; [symmetry; exact Ev|done|]. by apply Hid'.
    + intros id' f' [?|Hf']; [by left|right]. intros jj. rewrite Et, lookup_insert_Some. intros [[Ek <-]|[_ Hjj]].
      * eapply status_right_ext; [symmetry; exact Ev|symmetry; exact Ef|]. apply Hf'. by rewrite <- Ek.
      * eapply status_right_ext; [symmetry; exact Ev|done|]. by apply Hf'.
  - injection E as _ <-. split_and!; [done|done| |done|done]. intros jj Hjj. congruence.
Qed.

Lemma setJobStatuses_right index js ed s u s' : store_ok s → (∀ id f, js !! id = Some f → forcesRight s ed id f) →
  setJobStatuses index js ed s = (inr u, s') →
  store_ok s' ∧ statusView s' = statusView s ∧ (∀ id f, js !! id = Some f → jobRight s' ed id) ∧
  (∀ id, jobRight s ed id → jobRight s' ed id).
Proof.
  intros Hs Hjs E.
  assert (∀ id f, (id, f) ∈ range js ↔ js !! id = Some f) as Hin by (intros id f; by rewrite range_perm, elem_of_map_to_list).
  setoid_rewrite <- Hin. setoid_rewrite <- Hin in Hjs. clear Hin. unfold setJobStatuses in E.
  revert s Hs Hjs E. induction (range js) as [|[id f] l IH]; intros s Hs Hjs E; simpl in E.
  - injection E as _ <-. split_and!; [done|done| |done]. by intros id f Hx%not_elem_of_nil.
  - apply bind_inr in E as ([] & s1 & E1 & E).
    destruct (setOne index ed id f s tt s1 Hs (Hjs id f ltac:(left)) E1) as (Hs1 & Ev1 & Hr1 & Hk1 & Hf1).
    destruct (IH s1 Hs1) as (Hs' & Ev' & Hr' & Hk'); [|done|].
    { intros id' f' Hx. apply Hf1, Hjs. by right. }
    split_and!; [done|congruence| |by auto]. intros id' f' [[= -> ->]|Hx]%elem_of_cons; [by apply Hk'|by eapply Hr'].
Qed.
End status.
