(* ===== verification/StoreAllocs.v ===== *)
(** * Writing allocations

    The table of allocations after the scheduler or a client has written some, and the
    status of their jobs. *)

From stdpp Require Import base gmap strings list.
From Stdlib Require Import ZArith Lia.
From S2P Require Import Prelude GoText Structs Resources Jobs Allocs Plans MemDB MemDBSpec StateStore StoreSpec StoreInv StoreQuery StoreStatus.
Open Scope string_scope.
Open Scope list_scope.
Open Scope Z_scope.

Section allocs_spec.
Context `{CaseLib} `{!CaseLaws} `{RangeOrder}.
Implicit Types (index : Z) (s : StateStore).

(** ** Jobs, deployments and summaries are other tables *)

Section other_tables.
Context {X : Type} (p : StateStore → X).
Hypothesis p_index : ∀ t s, p (tr_set indexes t s) = p s.
Hypothesis p_summary : ∀ t s, p (tr_set job_summary t s) = p s.

Lemma frame_lookup {V} (r : TableRef V) f args id : frame p (wrap f args (firstByID r id)).
Proof. by apply frame_wrap. Qed.

Lemma frame_setIndex name index : frame p (setIndex name index).
Proof. unfold setIndex. solve_frame. Qed.

Lemma frame_updateSummaryWithAlloc index a ex : frame p (updateSummaryWithAlloc index a ex).
Proof. unfold updateSummaryWithAlloc, firstByID. solve_frame; apply frame_setIndex. Qed.

Hypothesis p_jobs : ∀ t s, p (tr_set jobs t s) = p s.

Lemma frame_setJobStatus index j ed f : frame p (setJobStatus index j ed f).
Proof.
  unfold setJobStatus. solve_frame; try apply frame_getJobStatus; try apply frame_setIndex; try (by apply frame_updateChildren).
Qed.

Lemma frame_setJobStatuses index js ed : frame p (setJobStatuses index js ed).
Proof.
  apply frame_forEach. intros [id f]. apply frame_bind; [by apply frame_wrap|]. intros [j|]; [apply frame_setJobStatus|done].
Qed.

Hypothesis p_version : ∀ t s, p (tr_set job_version t s) = p s.

Lemma frame_upsertJobImpl index j keep : frame p (upsertJobImpl index j keep).
Proof.
  unfold upsertJobImpl. apply frame_bind; [apply frame_lookup|]. intros ex. apply frame_bind.
  { unfold prepareJob. destruct ex as [ex|].
    - apply frame_bind; [apply frame_wrap, frame_getJobStatus|]. intros st. solve_frame.
    - apply frame_bind; [apply frame_wrap, frame_setJobStatus|]. intros []. unfold firstByID. solve_frame. }
  intros j1. apply frame_bind; [apply frame_wrap|].
  { unfold updateSummaryWithJob, firstByID. solve_frame; try apply frame_setIndex. }
  intros _. cbv zeta. apply frame_bind; [apply frame_wrap|].
  { unfold upsertJobVersion, jobVersionByID. solve_frame; try apply frame_setIndex. }
  intros _. solve_frame; try apply frame_setIndex.
Qed.

Lemma frame_updateJobStability index id v b : frame p (updateJobStabilityImpl index id v b).
Proof.
  unfold updateJobStabilityImpl, jobByIDAndVersionImpl. apply frame_bind; [done|]. intros [j|]; [|done].
  case_match; [done|]. apply frame_upsertJobImpl.
Qed.

Lemma frame_markStable index d : frame p (markStable index d).
Proof. unfold markStable. case_match; [|done]. apply frame_wrap, frame_updateJobStability. Qed.

Hypothesis p_deployment : ∀ t s, p (tr_set deployment t s) = p s.

Lemma frame_upsertDeploymentImpl index d : frame p (upsertDeploymentImpl index d).
Proof.
  unfold upsertDeploymentImpl. apply frame_bind; [apply frame_lookup|]. intros o. cbv zeta.
  apply frame_bind; [by apply frame_insert|]. intros _. apply frame_bind; [apply frame_setIndex|]. intros _. apply frame_markStable.
Qed.

Lemma frame_updateDeploymentWithAlloc index a ex : frame p (updateDeploymentWithAlloc index a ex).
Proof.
  unfold updateDeploymentWithAlloc, deploymentByIDImpl. case_match; [done|]. apply frame_bind; [apply frame_lookup|]. intros [d|]; [|done].
  case_match; [|done]. destruct (deploymentDelta a ex) as [[x y] z]. case_match; [done|]. cbv zeta.
  apply frame_bind; [apply frame_upsertDeploymentImpl|done].
Qed.

Lemma frame_updateDeploymentStatus index u : frame p (updateDeploymentStatusImpl index u).
Proof.
  unfold updateDeploymentStatusImpl, activeDeployment, deploymentByIDImpl. apply frame_bind.
  { apply frame_bind; [apply frame_lookup|]. intros [d|]; [by case_match|done]. }
  intros d. cbv zeta. apply frame_bind; [by apply frame_insert|]. intros _. apply frame_bind; [apply frame_setIndex|]. intros _. apply frame_markStable.
Qed.
End other_tables.

(** ** One allocation *)

(** The deployment status is all that [updateDeploymentWithAlloc] changes. *)
Definition withHealth (a : Allocation) (ds : option AllocDeploymentStatus) : Allocation := a <| al_DeploymentStatus := ds |>.

Lemma updateDeploymentWithAlloc_result index a ex s b s' :
  updateDeploymentWithAlloc index a ex s = (inr b, s') → ∃ ds, b = withHealth a ds.
Proof.
  assert (a = withHealth a (al_DeploymentStatus a)) as Hid by (by destruct a).
  unfold updateDeploymentWithAlloc. case_match; [intros [= <- _]; by eexists|]. intros (d & s1 & _ & E)%bind_inr. destruct d as [d|]; [|done].
  revert E. case_match; [|intros [= <- _]; by eexists]. destruct (deploymentDelta a ex) as [[x y] z].
  case_match; [intros [= <- _]; by eexists|]. cbv zeta. intros (u & s2 & _ & E)%bind_inr. injection E as <- _.
  case_match; [by eexists|]. by eexists.
Qed.

(** The allocation as it is stored. *)
Definition storedAlloc (m : Allocation) (ds : option AllocDeploymentStatus) : Allocation :=
  (withHealth m ds) <| al_Job ::= fmap addEphemeralDiskToTaskGroups |>.

Lemma alloc_key a k : primaryKey allocTableSchema a = inr k ↔ al_ID a ≠ "" ∧ parseString (al_ID a) true = inr k.
Proof.
  unfold primaryKey. simpl. case_bool_decide; [naive_solver|]. destruct (parseString (al_ID a) true); naive_solver.
Qed.

Lemma upsertAlloc_effect index alloc s a s' : store_ok s → properRow allocTableSchema alloc →
  upsertAlloc index alloc s = (inr a, s') →
  store_ok s' ∧ st_evals s' = st_evals s ∧
  ∃ k m ds, primaryKey allocTableSchema a = inr k ∧ mergeAlloc index alloc (table allocs s !! k) = inr m ∧ a = storedAlloc m ds ∧
    table allocs s' = <[k := a]> (table allocs s).
Proof.
  intros Hs Hp E. destruct (keeps_inr False _ anyRow s a s' (keeps_upsertAlloc index alloc Hp) Hs E) as [Hs' _]. split; [done|].
  unfold upsertAlloc in E. apply bind_inr in E as (o & s0 & Eo & E). apply wrap_inr in Eo. rewrite firstByID_eq in Eo.
  destruct (keyOf allocs (al_ID alloc)) as [|k] eqn:Ek; [done|]. injection Eo as <- <-.
  apply bind_inr in E as (m & s0 & Em & E). unfold lift in Em. injection Em as Em <-.
  assert (properRow allocTableSchema m ∧ al_ID m = al_ID alloc) as [Hpm Hidm].
  { unfold mergeAlloc in Em. destruct (table allocs s !! k); [|destruct (al_Job alloc); [|done]];
      injection Em as <-; repeat case_match; done. }
  apply bind_inr in E as (b & s1 & Eb & E). apply wrap_inr in Eb.
  destruct (updateDeploymentWithAlloc_result _ _ _ _ _ _ Eb) as [ds ->].
  assert (statusView s1 = statusView s) as Ev1 by (eapply frame_at; [|exact Eb]; by apply frame_updateDeploymentWithAlloc).
  destruct (keeps_inr False _ _ _ _ _ (keeps_wrap False _ _ "" [] (keeps_updateDeploymentWithAlloc False index m (table allocs s !! k) Hpm)) Hs
    (proj2 (wrap_inr _ _ _ _ _ _) Eb)) as [Hs1 _].
  apply bind_inr in E as ([] & s2 & E2 & E). apply wrap_inr in E2.
  assert (statusView s2 = statusView s1) as Ev2 by (eapply frame_at; [|exact E2]; by apply frame_updateSummaryWithAlloc).
  destruct (keeps_inr False _ _ _ _ _ (keeps_updateSummaryWithAlloc False index (withHealth m ds) (table allocs s !! k)) Hs1 E2) as [Hs2 _].
  cbv zeta in E. apply bind_inr in E as ([] & s3 & E3 & E). apply wrap_inr in E3. injection E as <- <-.
  change (_ <| al_Job ::= _ |>) with (storedAlloc m ds) in E3 |- *.
  assert (properRow allocTableSchema (storedAlloc m ds)) as Hpa by done.
  destruct (insert_inr allocs (storedAlloc m ds) s2 tt s3 Hs2 Hpa E3) as (_ & k' & Hk' & Et).
  assert (k' = k) as ->.
  { change (primaryKey allocTableSchema (storedAlloc m ds) = inr k') in Hk'. apply alloc_key in Hk' as [_ Hk'].
    cbn in Hk'. rewrite Hidm in Hk'. unfold keyOf in Ek. simpl in Ek. congruence. }
  injection Ev1 as Ea1 Ee1. injection Ev2 as Ea2 Ee2. split.
  - rewrite <- Ee1, <- Ee2. eapply (frame_at st_evals); [|exact E3]. by apply frame_insert.
  - exists k, m, ds. split_and!; [done|done|done|]. rewrite Et. unfold table. cbn [tr_get allocs]. by rewrite Ea2, Ea1.
Qed.

(** ** Several allocations *)

(** The table [t] becomes [t'] by writing the allocations of a request, which are stored
    as [out]. *)
Inductive writes index : list Allocation → gmap string Allocation → gmap string Allocation → list Allocation → Prop :=
  | writes_nil t : writes index [] t t []
  | writes_cons alloc als t k m ds t' out :
      mergeAlloc index alloc (t !! k) = inr m → primaryKey allocTableSchema (storedAlloc m ds) = inr k →
      writes index als (<[k := storedAlloc m ds]> t) t' out →
      writes index (alloc :: als) t t' (storedAlloc m ds :: out).

Definition forced (js : gmap string string) (out : list Allocation) : gmap string string :=
  foldl (fun js a => <[al_JobID a := forceStatusOf a]> js) js out.

Lemma upsertAllocsLoop_effect index als js s js' s' : store_ok s → Forall (properRow allocTableSchema) als →
  upsertAllocsLoop index als js s = (inr js', s') →
  store_ok s' ∧ st_evals s' = st_evals s ∧ ∃ out, writes index als (table allocs s) (table allocs s') out ∧ js' = forced js out.
Proof.
  intros Hs Hp. revert js s Hs. induction Hp as [|alloc als Ha Hp IH]; intros js s Hs E; cbn [upsertAllocsLoop] in E.
  - injection E as <- <-. split_and!; [done|done|]. exists []. split; [constructor|done].
  - apply bind_inr in E as (a & s1 & E1 & E).
    destruct (upsertAlloc_effect index alloc s a s1 Hs Ha E1) as (Hs1 & Ee1 & k & m & ds & Hk & Hm & -> & Et).
    destruct (IH _ s1 Hs1 E) as (Hs' & Ee' & out & Hw & ->). split_and!; [done|congruence|].
    exists (storedAlloc m ds :: out). split; [|done]. econstructor; [exact Hm|exact Hk|]. by rewrite <- Et.
Qed.

Lemma merge_keeps index alloc ex m : mergeAlloc index alloc ex = inr m →
  al_ID m = al_ID alloc ∧ al_JobID m = al_JobID alloc ∧ al_NodeID m = al_NodeID alloc ∧ al_DesiredStatus m = al_DesiredStatus alloc ∧
  al_Resources m = al_Resources alloc ∧ al_SharedResources m = al_SharedResources alloc ∧ al_TaskResources m = al_TaskResources alloc.
Proof. unfold mergeAlloc. repeat case_match; intros [= <-]; done. Qed.

(** Each stored allocation belongs to one of the request. *)
Lemma writes_related index als t t' out : writes index als t t' out →
  Forall2 (fun a b => al_ID b = al_ID a ∧ al_JobID b = al_JobID a ∧ al_NodeID b = al_NodeID a) als out.
Proof.
  induction 1 as [|alloc als t k m ds t' out Hm Hk _ IH]; constructor; [|done]. by apply merge_keeps in Hm as (? & ? & ? & _).
Qed.

(** A written allocation is in the table at the end, unless it is written again. *)
Lemma writes_last index als t t' out : writes index als t t' out → ∀ pre a post, out = pre ++ a :: post →
  (∀ b, b ∈ post → primaryKey allocTableSchema b ≠ primaryKey allocTableSchema a) →
  ∃ k, primaryKey allocTableSchema a = inr k ∧ t' !! k = Some a.
Proof.
  assert (∀ als t t' out, writes index als t t' out → ∀ k, (∀ b, b ∈ out → primaryKey allocTableSchema b ≠ inr k) → t' !! k = t !! k) as Hold.
  { induction 1 as [|alloc als0 t0 k m ds t0' out0 Hm Hk _ IH]; intros k' Hk'; [done|].
    rewrite IH by (intros b Hb; apply Hk'; by right). apply lookup_insert_ne. intros ->. by destruct (Hk' (storedAlloc m ds) ltac:(left)). }
  induction 1 as [|alloc als0 t0 k m ds t0' out0 Hm Hk Hw IH]; intros pre a post E Hpost; [by destruct pre|].
  destruct pre as [|c pre]; simplify_eq/=; [|by eapply IH].
  exists k. split; [done|]. rewrite (Hold _ _ _ _ Hw k), lookup_insert_eq; [done|]. intros b Hb. rewrite <- Hk. by apply Hpost.
Qed.

(** The status that is forced for a job is that of its last allocation. *)
Lemma forced_last out js id f : forced js out !! id = Some f →
  js !! id = Some f ∨ ∃ pre a post, out = pre ++ a :: post ∧ al_JobID a = id ∧ f = forceStatusOf a ∧ ∀ b, b ∈ post → al_JobID b ≠ id.
Proof.
  induction out as [|a out IH] using rev_ind; [by left|]. unfold forced. rewrite foldl_app. simpl.
  rewrite lookup_insert_Some. intros [[Hid Hf]|[Hid Hf]].
  - right. exists out, a, []. split_and!; [done|done|done|]. by intros b Hb%not_elem_of_nil.
  - apply IH in Hf as [Hf|(pre & b & post & -> & Hb & Hfb & Hpost)]; [by left|right].
    exists pre, b, (post ++ [a]). rewrite <- app_assoc. split_and!; [done|done|done|].
    intros c [Hc| ->%list_elem_of_singleton]%elem_of_app; [by apply Hpost|done].
Qed.

(** Allocations of a request with the same identifier belong to the same job. *)
Definition consistent (als : list Allocation) : Prop :=
  ∀ a b, a ∈ als → b ∈ als → sameUUID (al_ID a) (al_ID b) → al_JobID a = al_JobID b.

Lemma writes_key index als t t' out a : writes index als t t' out → a ∈ out → ∃ k, primaryKey allocTableSchema a = inr k.
Proof.
  induction 1 as [|alloc als0 t0 k m ds t0' out0 Hm Hk Hw IH]; [by intros Hx%not_elem_of_nil|].
  intros [->|Hx]%elem_of_cons; [by exists k|by apply IH].
Qed.

(** A status is forced only for a job with a live allocation. *)
Lemma forced_live index als s s' out id f : writes index als (table allocs s) (table allocs s') out → consistent als →
  forced ∅ out !! id = Some f → f = "" ∨ f = JobStatusRunning ∧ ∃ a, stored allocs s' a ∧ al_JobID a = id ∧ AllocTerminal a = false.
Proof.
  intros Hw Hc Hf. apply forced_last in Hf as [Hf|(pre & a & post & Eout & Hid & -> & Hpost)]; [by rewrite lookup_empty in Hf|].
  unfold forceStatusOf. destruct (AllocTerminal a) eqn:Et; [by left|right]. split; [done|]. exists a. split_and!; [|done|done].
  destruct (writes_last _ _ _ _ _ Hw pre a post Eout) as (k & _ & Hk); [|by exists k].
  intros b Hb Eb. apply (Hpost b Hb). rewrite <- Hid.
  pose proof (writes_related _ _ _ _ _ Hw) as Hr.
  assert (∀ x, x ∈ out → ∃ y, y ∈ als ∧ al_ID x = al_ID y ∧ al_JobID x = al_JobID y) as Hback.
  { intros x [i Hi]%list_elem_of_lookup. destruct (Forall2_lookup_r _ _ _ _ _ Hr Hi) as (y & Hy & ? & ? & _).
    exists y. split; [by eapply list_elem_of_lookup_2|done]. }
  assert (a ∈ out ∧ b ∈ out) as [Ha Hb'] by (rewrite Eout; split; solve_in).
  destruct (Hback a Ha) as (ya & Hya & Ia & Ja), (Hback b Hb') as (yb & Hyb & Ib & Jb). rewrite Ja, Jb.
  apply Hc; [done..|]. unfold sameUUID. rewrite <- Ia, <- Ib.
  destruct (writes_key _ _ _ _ _ a Hw Ha) as [ka Ka]. rewrite Ka in Eb. apply alloc_key in Ka as [_ Ka], Eb as [_ Kb]. congruence.
Qed.

Lemma live_running s id a : stored allocs s a → al_JobID a = id → AllocTerminal a = false → store_ok s →
  forcesRight s false id JobStatusRunning.
Proof.
  intros Ha Hid Ht Hs. right. intros j Hj. destruct (job_row s _ j Hs Hj) as (Ek & _).
  assert (hasLive s j) as Hl. { exists a. split; [|done]. split; [done|]. rewrite Hid. by apply lowerKey_inj. }
  by split_and!.
Qed.

Lemma forced_dom out js id : is_Some (js !! id) ∨ (∃ a, a ∈ out ∧ al_JobID a = id) → is_Some (forced js out !! id).
Proof.
  revert js. induction out as [|a out IH]; intros js [Hj|(b & Hb & E)]; simpl.
  - done.
  - by apply not_elem_of_nil in Hb.
  - apply IH. left. rewrite lookup_insert. case_decide; [by eexists|done].
  - apply IH. apply elem_of_cons in Hb as [->|Hb]; [|right; eauto]. left. rewrite E, lookup_insert_eq. by eexists.
Qed.

(** After the allocations of a request are written, their jobs have the right status. *)
Lemma upsertAllocsImpl_spec index als s u s' : store_ok s → Forall (properRow allocTableSchema) als → consistent als →
  upsertAllocsImpl index als s = (inr u, s') →
  store_ok s' ∧ st_evals s' = st_evals s ∧ (∃ out, writes index als (table allocs s) (table allocs s') out) ∧
  ∀ a, a ∈ als → jobRight s' false (al_JobID a).
Proof.
  intros Hs Hp Hc E. unfold upsertAllocsImpl in E. apply bind_inr in E as (js & s1 & E1 & E).
  destruct (upsertAllocsLoop_effect index als ∅ s js s1 Hs Hp E1) as (Hs1 & Ee1 & out & Hw & ->).
  apply bind_inr in E as ([] & s2 & E2 & E). apply wrap_inr in E.
  assert (statusView s2 = statusView s1 ∧ st_jobs s2 = st_jobs s1) as [Ev2 Ej2].
  { split; (eapply frame_at; [|exact E2]; by apply frame_setIndex). }
  assert (store_ok s2) as Hs2.
  { refine (proj1 (keeps_inr False _ anyRow _ _ _ _ Hs1 E2)). apply keeps_setIndex; auto with store. }
  assert (st_allocs s2 = st_allocs s1 ∧ st_evals s2 = st_evals s1) as [Ea2 Ee2] by (by injection Ev2).
  destruct (setJobStatuses_right index (forced ∅ out) false s2 u s' Hs2) as (Hs' & Ev' & Hr & _); [|done|].
  { intros id f Hf. destruct (forced_live index als s s1 out id f Hw Hc Hf) as [->|(-> & a & [k Ha] & Hid & Ht)]; [by left|].
    apply (live_running s2 id a); [|done|done|done]. exists k. unfold table in *. cbn [tr_get allocs] in *. by rewrite Ea2. }
  injection Ev' as Ea' Ee'. split_and!; [done|congruence| |].
  - exists out. unfold table in *. cbn [tr_get allocs] in *. by rewrite Ea', Ea2.
  - intros a Ha. pose proof (writes_related _ _ _ _ _ Hw) as Hrel.
    apply list_elem_of_lookup in Ha as [i Hi]. destruct (Forall2_lookup_l _ _ _ _ _ Hrel Hi) as (b & Hb & _ & Ej & _).
    destruct (forced_dom out ∅ (al_JobID a)) as [f Hf]; [|by eapply Hr].
    right. exists b. split; [by eapply list_elem_of_lookup_2|done].
Qed.

(** ** Updates from clients *)

(** The stored allocation with what the client reports. *)
Definition fromClient index (ex alloc : Allocation) : Allocation :=
  ex <| al_ClientStatus := al_ClientStatus alloc |> <| al_ClientDescription := al_ClientDescription alloc |>
     <| al_TaskStates := al_TaskStates alloc |> <| al_DeploymentStatus := al_DeploymentStatus alloc |>
     <| al_ModifyIndex := index |>.

(** The status of a job is right after an allocation of another job has changed. *)
Lemma jobRight_other s s' k a ex ed id : table allocs s !! k = Some ex → al_JobID a = al_JobID ex →
  table allocs s' = <[k := a]> (table allocs s) → st_evals s' = st_evals s → table jobs s' !! lowerKey id = table jobs s !! lowerKey id →
  store_ok s → ¬ sameID (al_JobID a) id → jobRight s ed id → jobRight s' ed id.
Proof.
  intros Hex Ej Ea Ee Et Hs Hne Hr j Hj. rewrite Et in Hj. specialize (Hr j Hj). destruct (job_row s _ j Hs Hj) as (Ek & _).
  rewrite lowerKey_inj in Ek. assert (∀ b, jobAlloc s' j b ↔ jobAlloc s j b) as HA.
  { intros b. unfold jobAlloc, stored, sameID. rewrite Ea. rewrite <- Ek. split; intros [[k' Hk'] Hb]; (split; [|done]).
    - apply lookup_insert_Some in Hk' as [[_ <-]|[_ Hk']]; [done|by exists k'].
    - exists k'. rewrite lookup_insert_ne; [done|]. intros ->. rewrite Hex in Hk'. injection Hk' as ->. by rewrite Ej in Hne. }
  assert (∀ e, jobEval s' j e ↔ jobEval s j e) as HE. { intros e. unfold jobEval, stored, table. cbn [tr_get evals]. by rewrite Ee. }
  unfold status_right, hasLive, unfinished in *. setoid_rewrite HA. by setoid_rewrite HE.
Qed.

Lemma fromClient_proper index ex alloc ds : properRow allocTableSchema ex →
  properRow allocTableSchema (fromClient index ex alloc) ∧ properRow allocTableSchema (withHealth (fromClient index ex alloc) ds).
Proof. intros Hp. split; exact Hp. Qed.

Lemma fromClient_key index ex alloc ds :
  primaryKey allocTableSchema (withHealth (fromClient index ex alloc) ds) = primaryKey allocTableSchema ex.
Proof. done. Qed.

Lemma nestedUpdate_effect index alloc s u s' : store_ok s → nestedUpdateAllocFromClient index alloc s = (inr u, s') →
  store_ok s' ∧ st_evals s' = st_evals s ∧
  match parseString (al_ID alloc) true with
  | inr k =>
      match table allocs s !! k with
      | None => s' = s
      | Some ex => ∃ ds, let a := withHealth (fromClient index ex alloc) ds in
          table allocs s' = <[k := a]> (table allocs s) ∧ jobRight s' false (al_JobID ex)
      end
  | inl _ => False
  end.
Proof.
  intros Hs E. destruct (keeps_inr False _ anyRow s u s' (keeps_nestedUpdateAllocFromClient index alloc) Hs E) as [Hs' _]. split; [done|].
  unfold nestedUpdateAllocFromClient in E. apply bind_inr in E as (o & s0 & Eo & E). apply wrap_inr in Eo. rewrite firstByID_eq in Eo.
  unfold keyOf in Eo. simpl in Eo. destruct (parseString (al_ID alloc) true) as [|k]; [done|]. injection Eo as <- <-.
  destruct (table allocs s !! k) as [ex|] eqn:Ex; [|by injection E as _ <-]. cbv zeta in E. fold (fromClient index ex alloc) in E.
  destruct (row_good allocs s k ex Hs Ex) as (Hp & _). destruct (ref_ok_get (r := allocs) s Hs) as [Hwf _].
  destruct (tw_rows _ _ Hwf k ex Ex) as (Hkey & _).
  destruct (fromClient_proper index ex alloc None Hp) as [Hpc _].
  apply bind_inr in E as (b & s1 & Eb & E). apply wrap_inr in Eb. destruct (updateDeploymentWithAlloc_result _ _ _ _ _ _ Eb) as [ds ->].
  assert (statusView s1 = statusView s) as Ev1 by (eapply frame_at; [|exact Eb]; by apply frame_updateDeploymentWithAlloc).
  destruct (keeps_inr False _ _ _ _ _ (keeps_updateDeploymentWithAlloc False index _ (Some ex) Hpc) Hs Eb) as [Hs1 _].
  apply bind_inr in E as ([] & s2 & E2 & E). apply wrap_inr in E2.
  assert (statusView s2 = statusView s1) as Ev2 by (eapply frame_at; [|exact E2]; by apply frame_updateSummaryWithAlloc).
  destruct (fromClient_proper index ex alloc ds Hp) as [_ Hpa]. pose proof (fromClient_key index ex alloc ds) as Hka.
  assert (al_JobID (withHealth (fromClient index ex alloc) ds) = al_JobID ex) as Hja by done.
  remember (withHealth (fromClient index ex alloc) ds) as a eqn:Ea in *.
  destruct (keeps_inr False _ _ _ _ _ (keeps_updateSummaryWithAlloc False index a (Some ex)) Hs1 E2) as [Hs2 _].
  apply bind_inr in E as ([] & s3 & E3 & E). apply wrap_inr in E3. apply wrap_inr in E.
  destruct (insert_inr allocs a s2 tt s3 Hs2 Hpa E3) as (_ & k' & Hk' & Et).
  assert (k' = k) as -> by (cbn [tr_schema allocs] in Hkey, Hk'; congruence).
  assert (keeps False (txnInsert allocs a) (fun _ => indexable allocTableSchema a)) as Hk3 by (by apply (keeps_insert allocs)).
  destruct (keeps_inr False _ _ _ _ _ Hk3 Hs2 E3) as [Hs3 _].
  assert (st_evals s3 = st_evals s2) as Ee3 by (eapply (frame_at st_evals); [|exact E3]; by apply frame_insert).
  destruct (setJobStatuses_right index {[ al_JobID ex := forceStatusOf a ]} false s3 u s' Hs3) as (_ & Ev' & Hr & _); [|exact E|].
  { intros id f Hf. apply lookup_singleton_Some in Hf as [<- <-]. unfold forceStatusOf. destruct (AllocTerminal a) eqn:Eterm; [by left|].
    apply (live_running s3 _ a); [exists k; by rewrite Et, lookup_insert_eq|done|done|done]. }
  assert (st_allocs s' = st_allocs s3 ∧ st_evals s' = st_evals s3) as [Ea' Ee'] by (by injection Ev').
  assert (st_allocs s2 = st_allocs s ∧ st_evals s2 = st_evals s) as [Ea2 Ee2] by (split; congruence || (injection Ev1; injection Ev2; congruence)).
  split; [congruence|]. exists ds. cbv zeta. rewrite <- Ea. split.
  - unfold table in *. cbn [tr_get allocs] in *. by rewrite Ea', Et, Ea2.
  - eapply Hr. apply lookup_singleton_eq.
Qed.
End allocs_spec.
