(* ===== verification/StoreVersions.v ===== *)
(** * Registering jobs

    What [upsertJobImpl] leaves in the tables of jobs and of job versions. *)

From stdpp Require Import base gmap strings list sorting.
From Stdlib Require Import ZArith Lia Ascii.
From S2P Require Import Prelude GoText Structs Resources Jobs Allocs Plans MemDB MemDBSpec StateStore StoreSpec StoreInv StoreQuery StoreStatus StoreAllocs.
Open Scope string_scope.
Open Scope list_scope.
Open Scope Z_scope.

Section jobs_spec.
Context `{CaseLib} `{!CaseLaws} `{RangeOrder}.
Implicit Types (index : Z) (s : StateStore).

(** The job as it is registered with status [st]. *)
Definition registered index (job : Job) (keepVersion : bool) (existing : option Job) (st : string) : Job :=
  let job := match existing with
             | Some ex =>
                 let job := job <| jb_CreateIndex := jb_CreateIndex ex |> <| jb_ModifyIndex := index |> in
                 if keepVersion then job
                 else job <| jb_JobModifyIndex := index |> <| jb_Version := (jb_Version ex + 1) mod 2 ^ 64 |>
             | None => job <| jb_CreateIndex := index |> <| jb_ModifyIndex := index |>
                           <| jb_JobModifyIndex := index |> <| jb_Version := 0 |>
             end in
  addEphemeralDiskToTaskGroups (job <| jb_Status := st |>).

Lemma prepareJob_effect index job keep s j s' : store_ok s → job_ok job →
  prepareJob index job keep (table jobs s !! lowerKey (jb_ID job)) s = (inr j, s') →
  store_ok s' ∧ statusView s' = statusView s ∧ st_job_version s' = st_job_version s ∧
  (∃ st, addEphemeralDiskToTaskGroups j = registered index job keep (table jobs s !! lowerKey (jb_ID job)) st ∧ status_right s j false st) ∧
  ∀ j', <[lowerKey (jb_ID job) := j']> (table jobs s') = <[lowerKey (jb_ID job) := j']> (table jobs s).
Proof.
  intros Hs Hj E. set (k := lowerKey (jb_ID job)) in *.
  assert (keeps False (prepareJob index job keep (table jobs s !! k)) (fun j => job_ok j ∧ (False → version_ok j))) as Hk.
  { apply keeps_prepareJob; [done|done|]. intros ex Hex. by apply (row_good jobs s k). }
  destruct (keeps_inr False _ _ s j s' Hk Hs E) as [Hs' _]. clear Hk. split; [done|].
  unfold prepareJob in E. destruct (table jobs s !! k) as [ex|] eqn:Ex.
  - apply bind_inr in E as (st & s1 & Est & E). apply wrap_inr in Est.
    set (job1 := if keep then _ else _) in *.
    destruct (getJobStatus_right s job1 false Hs) as (st' & Est' & Hr & _); [unfold job1; destruct keep; apply Hj|].
    rewrite Est' in Est. injection Est as <- <-. injection E as <- <-. split_and!; [done|done| |done].
    exists st'. split; [|eapply status_right_ext; [reflexivity|reflexivity|exact Hr]]. unfold registered, job1. by destruct keep.
  - set (job0 := job <| jb_CreateIndex := _ |> <| jb_ModifyIndex := _ |> <| jb_JobModifyIndex := _ |> <| jb_Version := _ |>) in *.
    apply bind_inr in E as ([] & s1 & E1 & E). apply wrap_inr in E1.
    assert (statusView s1 = statusView s) as Ev by (eapply frame_at; [|exact E1]; by apply frame_setJobStatus).
    assert (st_job_version s1 = st_job_version s) as Evv by (eapply frame_at; [|exact E1]; by apply frame_setJobStatus).
    unfold setJobStatus in E1. apply bind_inr in E1 as (st & s2 & Est & E1).
    destruct (getJobStatus_right s job0 false Hs) as (st' & Est' & Hr & Hne); [apply Hj|].
    rewrite bool_decide_true in Est by done. rewrite Est' in Est. injection Est as <- <-.
    replace (index =? jb_CreateIndex job0) with true in E1 by (symmetry; apply Z.eqb_refl).
    rewrite bool_decide_false in E1 by done. apply bind_inr in E1 as ([] & s2 & E2 & E1). apply wrap_inr in E2.
    set (job1 := job0 <| jb_Status := st' |> <| jb_ModifyIndex := index |>) in *.
    assert (properRow jobTableSchema job1) as Hp1 by (by apply job_ok_iff).
    destruct (insert_inr jobs job1 s tt s2 Hs Hp1 E2) as (_ & k' & Hk' & Et).
    assert (k' = k) as ->.
    { change (primaryKey jobTableSchema job1 = inr k') in Hk'. rewrite job_primary in Hk' by done. by injection Hk' as <-. }
    apply bind_inr in E1 as ([] & s3 & E3 & E1).
    assert (st_jobs s1 = st_jobs s2) as Ej.
    { transitivity (st_jobs s3); eapply (frame_at st_jobs); [|exact E1| |exact E3]; [by apply frame_updateChildren|by apply frame_setIndex]. }
    assert (table jobs s1 = <[k := job1]> (table jobs s)) as Et1 by (rewrite <- Et; unfold table; cbn [tr_get jobs]; by rewrite Ej).
    apply bind_inr in E as (o & s4 & Eo & E). apply wrap_inr in Eo. rewrite firstByID_eq, keyOf_jobs in Eo. injection Eo as <- <-.
    change (lowerKey (jb_ID job0)) with k in E. rewrite Et1, lookup_insert_eq in E. injection E as <- <-.
    split_and!; [done|done| |].
    + exists st'. split; [unfold registered; f_equal; reflexivity|]. eapply status_right_ext; [reflexivity|reflexivity|exact Hr].
    + intros j'. by rewrite Et1, insert_insert_eq.
Qed.

(** [upsertJobImpl] registers the job with the right status. *)
Lemma upsertJobImpl_effect index job keep s u s' : store_ok s → job_ok job → upsertJobImpl index job keep s = (inr u, s') →
  store_ok s' ∧ statusView s' = statusView s ∧
  ∃ st s1 s2, let j := registered index job keep (table jobs s !! lowerKey (jb_ID job)) st in
    table jobs s' = <[lowerKey (jb_ID job) := j]> (table jobs s) ∧ status_right s' j false st ∧
    store_ok s1 ∧ st_job_version s1 = st_job_version s ∧ upsertJobVersion index j s1 = (inr tt, s2) ∧ st_job_version s' = st_job_version s2.
Proof.
  intros Hs Hj E. assert (keeps False (upsertJobImpl index job keep) anyRow) as Hk by (by apply keeps_upsertJobImpl).
  destruct (keeps_inr False _ _ s u s' Hk Hs E) as [Hs' _]. clear Hk.
  assert (statusView s' = statusView s) as Ev by (eapply frame_at; [|exact E]; by apply frame_upsertJobImpl).
  split_and!; [done|done|]. unfold upsertJobImpl in E.
  apply bind_inr in E as (o & s0 & Eo & E). apply wrap_inr in Eo. rewrite firstByID_eq, keyOf_jobs in Eo. injection Eo as <- <-.
  apply bind_inr in E as (j & s1 & E1 & E).
  destruct (prepareJob_effect index job keep s j s1 Hs Hj E1) as (Hs1 & Ev1 & Evv1 & (st & Ereg & Hr) & Hins).
  apply bind_inr in E as ([] & s2 & E2 & E). apply wrap_inr in E2.
  assert (keeps False (prepareJob index job keep (table jobs s !! lowerKey (jb_ID job))) (fun j => job_ok j ∧ (False → version_ok j))) as Hk.
  { apply keeps_prepareJob; [done|done|]. intros ex Hex. by apply (row_good jobs s _ _ Hs Hex). }
  destruct (keeps_inr False _ _ s j s1 Hk Hs E1) as [_ [Hjj _]]. clear Hk.
  destruct (keeps_inr False _ _ s1 tt s2 (keeps_updateSummaryWithJob False index j Hjj) Hs1 E2) as [Hs2 _].
  assert (st_jobs s2 = st_jobs s1 ∧ st_job_version s2 = st_job_version s1) as [Ej2 Ev2].
  { unfold updateSummaryWithJob, firstByID in E2. split; (eapply frame_at; [|exact E2]; solve_frame; by apply frame_setIndex). }
  cbv zeta in E. set (jn := addEphemeralDiskToTaskGroups j) in *. assert (job_ok jn) as Hjn by exact Hjj.
  apply bind_inr in E as ([] & s3 & E3 & E). apply wrap_inr in E3.
  assert (st_jobs s3 = st_jobs s2) as Ej3.
  { eapply frame_at; [|exact E3]. unfold upsertJobVersion, jobVersionByID. solve_frame; by apply frame_setIndex. }
  destruct (keeps_inr False _ _ s2 tt s3 (keeps_upsertJobVersion False index jn Hjn (fun f => match f with end)) Hs2 E3) as [Hs3 _].
  apply bind_inr in E as ([] & s4 & E4 & E). apply wrap_inr in E4.
  destruct (insert_inr jobs jn s3 tt s4 Hs3 (proj1 (proj1 (job_ok_iff jn) Hjn)) E4) as (_ & k' & Hk' & Et).
  assert (jb_ID j = jb_ID job) as Eid.
  { apply (f_equal jb_ID) in Ereg. unfold registered in Ereg. destruct (table jobs s !! _), keep; exact Ereg. }
  assert (k' = lowerKey (jb_ID job)) as ->.
  { change (primaryKey jobTableSchema jn = inr k') in Hk'. rewrite job_primary in Hk' by done. change (jb_ID jn) with (jb_ID j) in Hk'.
    rewrite Eid in Hk'. by injection Hk' as <-. }
  assert (st_jobs s' = st_jobs s4 ∧ st_job_version s' = st_job_version s4) as [Ej' Ev'].
  { split; (eapply frame_at; [|exact E]; by apply frame_setIndex). }
  assert (st_job_version s4 = st_job_version s3) as Ev4 by (eapply frame_at; [|exact E4]; by apply frame_insert).
  exists st, s2, s3. cbv zeta. rewrite <- Ereg. split_and!; [|by eapply status_right_ext; [symmetry; exact Ev| |exact Hr]|done|congruence|done|congruence].
  rewrite <- Hins. unfold table in Et |- *. cbn [tr_get jobs] in Et |- *. by rewrite Ej', Et, Ej3, Ej2.
Qed.
End jobs_spec.

(** * The tracked versions of a job

    The version table is walked in the order of its keys.  For versions below 256 this is
    the order of the versions, and then registering a job keeps the new version and the
    newest stable one.  The variable-length encoding of larger versions has another order. *)

(** ** The order of the keys *)

Lemma compare_app p a b : String.compare (p +:+ a) (p +:+ b) = String.compare a b.
Proof.
  induction p as [|c p IH]; [done|]. rewrite !app_String. cbn [String.compare].
  replace (Ascii.compare c c) with Eq; [done|]. unfold Ascii.compare. by rewrite N.compare_refl.
Qed.

(** A byte with its high bit set is its low seven bits with the continuation bit. *)
Lemma setHighBit v : 128 ≤ v < 256 → Z.lor (Z.land v 127) 128 = v.
Proof.
  intros Hv. change 127 with (Z.ones 7). change 128 with (Z.shiftl 1 7) at 1. apply Z.bits_inj'. intros n Hn.
  rewrite Z.lor_spec, Z.land_spec, Z.testbit_ones_nonneg, Z.shiftl_spec by lia. destruct (Z.ltb_spec n 7).
  - rewrite (Z.testbit_neg_r 1) by lia. rewrite andb_true_r, orb_false_r. reflexivity.
  - rewrite andb_false_r. simpl. rewrite <- (Z.sub_add 7 n) at 2. rewrite <- Z.shiftr_spec by lia.
    f_equal. rewrite Z.shiftr_div_pow2 by lia. apply Z.div_unique with (v - 128); lia.
Qed.

(** The first byte of a version below 256. *)
Lemma PutUvarint_small v : 0 ≤ v < 256 → ∃ rest, PutUvarint 8 v = Some (String (byteOf v) rest).
Proof.
  intros Hv. rewrite PutUvarint_S. destruct (Z.ltb_spec v 128); [by eexists|].
  rewrite PutUvarint_S. replace (Z.shiftr v 7) with 1.
  - assert (Z.lor (Z.land v 127) 128 = v) as ->; [|by eexists]. apply setHighBit. lia.
  - rewrite Z.shiftr_div_pow2 by lia. apply Z.div_unique with (v - 128); lia.
Qed.

Lemma byteOf_compare v w : 0 ≤ v < 256 → 0 ≤ w < 256 → Ascii.compare (byteOf v) (byteOf w) = (v ?= w).
Proof.
  intros Hv Hw. unfold Ascii.compare, byteOf. rewrite !Ascii.N_ascii_embedding by lia. rewrite <- Z2N.inj_compare by lia. done.
Qed.

(** The encoding is injective. *)
Lemma byteOf_inj v w : 0 ≤ v < 256 → 0 ≤ w < 256 → byteOf v = byteOf w → v = w.
Proof.
  intros Hv Hw E. pose proof (byteOf_compare v w Hv Hw) as Hc. rewrite E, byteOf_compare, Z.compare_refl in Hc by done.
  by apply Z.compare_eq.
Qed.

Lemma contByte x : 0 ≤ x → Z.lor (Z.land x 127) 128 = x mod 128 + 128.
Proof.
  intros Hx. change 127 with (Z.ones 7). rewrite Z.land_ones by lia. change (2 ^ 7) with 128.
  pose proof (Z.mod_pos_bound x 128 ltac:(lia)). rewrite <- (setHighBit (x mod 128 + 128)) by lia. f_equal.
  change 127 with (Z.ones 7). rewrite Z.land_ones by lia. change (2 ^ 7) with 128.
  apply Z.mod_unique with 1; lia.
Qed.

Lemma PutUvarint_inj n x y b : 0 ≤ x → 0 ≤ y → PutUvarint n x = Some b → PutUvarint n y = Some b → x = y.
Proof.
  revert x y b. induction n as [|n IH]; intros x y b Hx Hy; [done|]. rewrite !PutUvarint_S, !contByte by done.
  pose proof (Z.mod_pos_bound x 128 ltac:(lia)). pose proof (Z.mod_pos_bound y 128 ltac:(lia)).
  destruct (Z.ltb_spec x 128), (Z.ltb_spec y 128).
  - intros [= <-] [= E]. by apply byteOf_inj in E; lia.
  - destruct (PutUvarint n (Z.shiftr y 7)); [|done]. intros [= <-] [= E _]. apply byteOf_inj in E; lia.
  - destruct (PutUvarint n (Z.shiftr x 7)); [|done]. intros [= <-] [= E _]. apply byteOf_inj in E; lia.
  - destruct (PutUvarint n (Z.shiftr x 7)) as [bx|] eqn:Ex; [|done]. destruct (PutUvarint n (Z.shiftr y 7)) as [byy|] eqn:Ey; [|done].
    intros [= <-] [= Em ->]. apply byteOf_inj in Em; [|lia..].
    assert (Z.shiftr x 7 = Z.shiftr y 7) as Es by (eapply IH; [by apply Z.shiftr_nonneg|by apply Z.shiftr_nonneg|done|done]).
    rewrite !Z.shiftr_div_pow2 in Es by lia. change (2 ^ 7) with 128 in Es.
    rewrite (Z.div_mod x 128), (Z.div_mod y 128) by lia. lia.
Qed.

Section versions.
Context `{CaseLib} `{!CaseLaws} `{RangeOrder}.
Implicit Types (index : Z) (s : StateStore).

Lemma version_key j k : primaryKey jobVersionSchema j = inr k →
  ∃ buf, PutUvarint 8 (jb_Version j) = Some buf ∧ k = lowerKey (jb_ID j) +:+ buf.
Proof.
  unfold primaryKey. simpl. case_bool_decide; [done|]. destruct (PutUvarint 8 (jb_Version j)) as [buf|]; [|done].
  intros [= <-]. exists buf. split; [done|]. by rewrite app_empty.
Qed.

(** Keys of two versions of a job compare like the versions. *)
Lemma version_key_le j j' k k' : primaryKey jobVersionSchema j = inr k → primaryKey jobVersionSchema j' = inr k' →
  jb_ID j = jb_ID j' → 0 ≤ jb_Version j < 256 → 0 ≤ jb_Version j' < 256 → str_le k k' = true → jb_Version j ≤ jb_Version j'.
Proof.
  intros (b & Eb & ->)%version_key (b' & Eb' & ->)%version_key Eid Hv Hv'.
  destruct (PutUvarint_small _ Hv) as [r Er], (PutUvarint_small _ Hv') as [r' Er']. rewrite Er in Eb. rewrite Er' in Eb'. simplify_eq.
  unfold str_le, String.leb. rewrite Eid, compare_app. cbn [String.compare]. rewrite byteOf_compare by done.
  destruct (Z.compare_spec (jb_Version j) (jb_Version j')); [lia|lia|done].
Qed.

(** The tracked versions of a job, as the code lists them. *)
Definition tracked (t : gmap string Job) (id : string) : list Job :=
  reverse (filter (fun j => jb_ID j = id) (scan (ToLower id) t)).

Lemma jobVersionByID_eq id s : jobVersionByID id s = (inr (tracked (table job_version s) id), s).
Proof. done. Qed.

Definition keyed (t : gmap string Job) : Prop := ∀ k j, t !! k = Some j → primaryKey jobVersionSchema j = inr k.

Lemma keyed_store s : store_ok s → keyed (table job_version s).
Proof.
  intros Hs k j Hj. destruct (ref_ok_get (r := job_version) s Hs) as [Hwf _]. by apply (tw_rows _ _ Hwf k j Hj).
Qed.

Lemma elem_of_tracked t id j : keyed t → j ∈ tracked t id ↔ (∃ k, t !! k = Some j) ∧ jb_ID j = id.
Proof.
  intros Hk. unfold tracked. rewrite elem_of_reverse, list_elem_of_filter, elem_of_scan. split.
  - intros (Hid & k & Hj & _). eauto.
  - intros ((k & Hj) & <-). split; [done|]. exists k. split; [done|]. apply prefix_app_iff.
    destruct (version_key j k (Hk k j Hj)) as (buf & _ & ->). unfold lowerKey, terminated. rewrite app_assoc_str. by eexists.
Qed.

Lemma tracked_NoDup t id : keyed t → NoDup (tracked t id).
Proof.
  intros Hk. unfold tracked. rewrite reverse_Permutation. apply NoDup_filter, scan_NoDup. intros k k' j Hj Hj'. apply Hk in Hj, Hj'. congruence.
Qed.

(** Versions below 256 come highest first. *)
Definition small (t : gmap string Job) (id : string) : Prop := ∀ k j, t !! k = Some j → jb_ID j = id → 0 ≤ jb_Version j < 256.

Lemma Sorted_fst_snd {A B} (R : relation A) (l : list (A * B)) :
  Sorted (fun x y => R x.1 y.1) l → Transitive R → StronglySorted (fun x y => R x.1 y.1) l.
Proof. intros Hs Ht. apply Sorted_StronglySorted; [|done]. intros x y z Hx Hy. by transitivity (y.1). Qed.

Lemma tracked_sorted t id : keyed t → small t id → StronglySorted (fun j j' => jb_Version j' ≤ jb_Version j) (tracked t id).
Proof.
  intros Hk Hsm. unfold tracked, scan.
  assert (StronglySorted (fun x y => str_le x.1 y.1 = true) (entries (ToLower id) t)) as Hss.
  { apply (Sorted_fst_snd (fun a b => str_le a b = true)); [apply entries_sorted|].
    intros a b c Hab Hbc. apply Is_true_true. apply Is_true_true in Hab, Hbc. exact (transitivity (R := String.le) Hab Hbc). }
  assert (∀ kj, kj ∈ entries (ToLower id) t → t !! kj.1 = Some kj.2) as Hin by (intros [k j] Hx%elem_of_entries; apply Hx).
  set (P := fun j => jb_ID j = id). induction Hss as [|[k j] l Hl IH Hx]; [constructor|]. cbn [fmap list_fmap snd].
  specialize (IH (fun kj H => Hin kj (list_elem_of_further _ _ _ H))).
  rewrite filter_cons. case_decide as Hid; [|done]. rewrite reverse_cons.
  apply StronglySorted_app. split_and!; [|done|by repeat constructor].
  intros j1 j2 Hj1 ->%list_elem_of_singleton. rewrite elem_of_reverse, list_elem_of_filter, list_elem_of_fmap in Hj1.
  destruct Hj1 as (Hid1 & [k1 j1'] & -> & Hin1). cbn [snd] in *. rewrite Forall_forall in Hx. specialize (Hx _ Hin1). cbn [fst] in Hx.
  pose proof (Hin (k, j) ltac:(left)) as Hj. pose proof (Hin (k1, j1') ltac:(by right)) as Hj1. cbn [fst snd] in Hj, Hj1.
  eapply version_key_le; [by apply Hk|by apply Hk|congruence|by eapply Hsm|by eapply Hsm|done].
Qed.

(** ** Tracking a version *)

(** The outcome of the deletion of a stored row. *)
Lemma delete_stored {V} (r : TableRef V) `{!Ref r} obj k s u s' :
  store_ok s → table r s !! k = Some obj → txnDelete r obj s = (inr u, s') → table r s' = delete k (table r s).
Proof.
  intros Hs Hk E. destruct (ref_ok_get (r := r) s Hs) as [Hwf _]. destruct (tw_rows _ _ Hwf k obj Hk) as (Hp & _ & _).
  destruct (Delete_spec (tr_schema r) ref_schema (tr_get r s) obj k obj Hwf Hp Hk) as (t' & Ed & _ & Er).
  unfold txnDelete in E. rewrite Ed in E. injection E as _ <-. unfold table. by rewrite ref_get_set.
Qed.

(** The version that makes room for a new one: the last, or the one before it when the
    last is the newest stable one. *)
Definition evicted (all : list Job) : option Job :=
  if (length all <=? JobTrackedVersions)%nat then None
  else all !! (if bool_decide (fst <$> list_find (fun j => jb_Stable j = true) all = Some JobTrackedVersions)
               then JobTrackedVersions - 1 else JobTrackedVersions)%nat.

Lemma evicted_swap (all : list Job) (b : bool) : (JobTrackedVersions < length all)%nat →
  (if b then match all !! JobTrackedVersions, all !! (JobTrackedVersions - 1)%nat with
             | Some x, Some y => <[(JobTrackedVersions - 1)%nat := x]> (<[JobTrackedVersions := y]> all)
             | _, _ => all
             end else all) !! JobTrackedVersions
  = all !! (if b then JobTrackedVersions - 1 else JobTrackedVersions)%nat.
Proof.
  intros Hl. destruct b; [|done].
  destruct (lookup_lt_is_Some_2 all JobTrackedVersions Hl) as [x Ex]. rewrite Ex.
  destruct (lookup_lt_is_Some_2 all (JobTrackedVersions - 1)%nat) as [y Ey]; [lia|]. rewrite Ey.
  rewrite list_lookup_insert_ne by done. by apply list_lookup_insert_eq.
Qed.

Lemma upsertJobVersion_effect index j s s' : store_ok s → job_ok j → upsertJobVersion index j s = (inr tt, s') →
  ∃ k, let t := <[k := j]> (table job_version s) in
    primaryKey jobVersionSchema j = inr k ∧ keyed t ∧
    match evicted (tracked t (jb_ID j)) with
    | None => table job_version s' = t
    | Some d => ∃ kd, t !! kd = Some d ∧ jb_ID d = jb_ID j ∧ table job_version s' = delete kd t
    end.
Proof.
  intros Hs Hj E. unfold upsertJobVersion in E. apply bind_inr in E as ([] & s1 & E1 & E). apply wrap_inr in E1.
  destruct (insert_inr job_version j s tt s1 Hs (version_proper j Hj) E1) as (Hidx & k & Hk & Et).
  assert (store_ok s1) as Hs1.
  { refine (proj1 (keeps_inr False _ _ s tt s1 _ Hs E1)). apply (keeps_insert job_version); [by apply version_proper|done|done]. }
  apply bind_inr in E as ([] & s2 & E2 & E).
  assert (store_ok s2) as Hs2.
  { refine (proj1 (keeps_inr False _ anyRow _ _ _ _ Hs1 E2)). apply keeps_setIndex; auto with store. }
  assert (st_job_version s2 = st_job_version s1) as Ev2 by (eapply frame_at; [|exact E2]; by apply frame_setIndex).
  assert (table job_version s2 = <[k := j]> (table job_version s)) as Et2 by (rewrite <- Et; unfold table; cbn [tr_get job_version]; by rewrite Ev2).
  apply bind_inr in E as (all & s3 & E3 & E). apply wrap_inr in E3. rewrite jobVersionByID_eq, Et2 in E3. injection E3 as <- <-.
  exists k. cbv zeta. set (t := <[k := j]> (table job_version s)) in *.
  assert (keyed t) as Hkt by (rewrite <- Et2; by apply keyed_store). split_and!; [done|done|].
  unfold evicted. destruct (Nat.leb_spec (length (tracked t (jb_ID j))) JobTrackedVersions) as [|Hlen]; [injection E as <-; congruence|].
  cbv zeta in E. rewrite bool_decide_decide in E. rewrite evicted_swap in E by done. rewrite bool_decide_decide.
  destruct (tracked t (jb_ID j) !! _) as [d|] eqn:Ed; [|done]. apply wrap_inr in E.
  destruct (proj1 (elem_of_tracked t (jb_ID j) d Hkt) (list_elem_of_lookup_2 _ _ _ Ed)) as [(kd & Hkd) Hid].
  exists kd. split_and!; [done|done|]. rewrite <- Et2. eapply (delete_stored job_version); [done|by rewrite Et2|done].
Qed.

(** What is evicted is neither the newest version nor the newest stable one. *)
Lemma evicted_spec (R : relation Job) all d : StronglySorted R all → NoDup all → evicted all = Some d →
  (JobTrackedVersions < length all)%nat ∧ d ∈ all ∧ head all ≠ Some d ∧
  ∀ v, v ∈ all → jb_Stable v = true → ∃ x, x ∈ all ∧ jb_Stable x = true ∧ x ≠ d ∧ (x = v ∨ R x v).
Proof.
  intros Hss Hnd. unfold evicted. destruct (Nat.leb_spec (length all) JobTrackedVersions) as [|Hlen]; [done|].
  set (i := if bool_decide _ then _ else _). intros Hd. split_and!; [done|by eapply list_elem_of_lookup_2| |].
  - rewrite head_lookup. intros Hh. pose proof (NoDup_lookup _ _ _ _ Hnd Hh Hd) as Ei. revert Ei. unfold i. by case_bool_decide.
  - intros v Hv Hst. destruct (list_find_elem_of (fun j => jb_Stable j = true) all v Hv Hst) as [[ix x] Hf].
    pose proof Hf as (Hx & Hsx & Hmin)%list_find_Some. exists x. split_and!; [by eapply list_elem_of_lookup_2|done| |].
    + intros ->. pose proof (NoDup_lookup _ _ _ _ Hnd Hx Hd) as Ei. revert Ei. unfold i. rewrite Hf. cbn [fmap option_fmap option_map fst].
      case_bool_decide as Hix; [injection Hix as ->; done|]. intros ->. by apply Hix.
    + apply list_elem_of_lookup in Hv as [iv Hiv]. destruct (decide (iv = ix)) as [->|Hne]; [left; congruence|right].
      assert (ix < iv)%nat as Hlt.
      { destruct (decide (iv < ix)%nat) as [Hl|]; [|lia]. exfalso. exact (Hmin iv v Hiv Hl Hst). }
      rewrite <- (take_drop_middle all ix x Hx) in Hss. apply StronglySorted_app in Hss as (_ & _ & Hss).
      inversion_clear Hss as [|? ? _ Hall]. rewrite Forall_forall in Hall. apply Hall.
      apply list_elem_of_lookup. exists (iv - S ix)%nat. rewrite lookup_drop. by replace (S ix + (iv - S ix))%nat with iv by lia.
Qed.

Lemma tracked_delete t id kd d : keyed t → t !! kd = Some d → jb_ID d = id → tracked t id ≡ₚ d :: tracked (delete kd t) id.
Proof.
  intros Hk Hd Hid. assert (keyed (delete kd t)) as Hk' by (intros k v [_ ?]%lookup_delete_Some; by apply Hk).
  apply NoDup_Permutation; [by apply tracked_NoDup| |].
  - constructor; [|by apply tracked_NoDup]. rewrite elem_of_tracked by done. intros [(k & [Hne Hk1]%lookup_delete_Some) _].
    apply Hk in Hk1, Hd. congruence.
  - intros v. rewrite elem_of_cons, !elem_of_tracked by done. setoid_rewrite lookup_delete_Some. split.
    + intros [(k & Hv) Hvid]. destruct (decide (kd = k)) as [->|]; [left; congruence|right]. eauto.
    + intros [->|[(k & _ & Hv) Hvid]]; eauto.
Qed.

Lemma tracked_insert t k j : keyed t → keyed (<[k := j]> t) → (∀ w, t !! k = Some w → jb_ID w ≠ jb_ID j) →
  tracked (<[k := j]> t) (jb_ID j) ≡ₚ j :: tracked t (jb_ID j).
Proof.
  intros Hk Hk' Hold. rewrite (tracked_delete _ (jb_ID j) k j Hk') by (by rewrite ?lookup_insert_eq). constructor.
  apply NoDup_Permutation; [apply tracked_NoDup|by apply tracked_NoDup|].
  { intros k1 v [_ Hv]%lookup_delete_Some. by apply Hk'. }
  intros v. rewrite !elem_of_tracked; [|done|intros k1 w [_ Hw]%lookup_delete_Some; by apply Hk'].
  setoid_rewrite lookup_delete_Some. setoid_rewrite lookup_insert_Some. split; [naive_solver|].
  intros [(k1 & Hv) Hid]. split; [|done]. exists k1. assert (k ≠ k1) by (intros <-; by eapply Hold). auto.
Qed.

Lemma newest_head l j : StronglySorted (fun v w => jb_Version w ≤ jb_Version v) l → j ∈ l →
  (∀ v, v ∈ l → v = j ∨ jb_Version v < jb_Version j) → head l = Some j.
Proof.
  intros Hss Hj Hmax. destruct Hss as [|x l _ Hx]; [by apply elem_of_nil in Hj|]. simpl.
  destruct (Hmax x ltac:(left)) as [->|Hlt]; [done|]. apply elem_of_cons in Hj as [->|Hj]; [done|].
  rewrite Forall_forall in Hx. specialize (Hx j Hj). lia.
Qed.

(** Tracking a version that is newer than those tracked. *)
Lemma upsertJobVersion_tracks index j s s' (before := tracked (table job_version s) (jb_ID j)) (l := tracked (table job_version s') (jb_ID j)) :
  store_ok s → job_ok j → upsertJobVersion index j s = (inr tt, s') → 0 ≤ jb_Version j < 256 →
  (∀ v, v ∈ before → 0 ≤ jb_Version v < jb_Version j) → (length before ≤ JobTrackedVersions)%nat →
  head l = Some j ∧ length l = Nat.min JobTrackedVersions (S (length before)) ∧
  StronglySorted (fun v w => jb_Version w ≤ jb_Version v) l ∧ (∀ v, v ∈ l → v = j ∨ v ∈ before) ∧
  ∀ v, v ∈ before → jb_Stable v = true → ∃ x, x ∈ l ∧ jb_Stable x = true ∧ jb_Version v ≤ jb_Version x.
Proof.
  intros Hs Hj E Hv Hnew Hlen. destruct (upsertJobVersion_effect index j s s' Hs Hj E) as (k & Hk & Hkt & Eff).
  pose proof (keyed_store s Hs) as Hks. set (t0 := table job_version s) in *. set (t := <[k := j]> t0) in *.
  assert (tracked t (jb_ID j) ≡ₚ j :: before) as Hp.
  { apply tracked_insert; [done|done|]. intros w Hw Hid.
    assert (w ∈ before) as Hb by (apply elem_of_tracked; eauto). specialize (Hnew w Hb).
    assert (jb_Version j ≤ jb_Version w); [|lia]. eapply version_key_le; [exact Hk|by apply Hks|done|done|lia|].
    unfold str_le. by destruct (String.leb_total k k). }
  assert (∀ v, v ∈ tracked t (jb_ID j) → 0 ≤ jb_Version v < 256) as Hsmt.
  { intros v. rewrite Hp, elem_of_cons. intros [->|Hb]; [done|]. specialize (Hnew v Hb). lia. }
  assert (small t (jb_ID j)) as Hsm by (intros k' v Ht Hid; apply Hsmt, elem_of_tracked; eauto).
  pose proof (tracked_sorted t (jb_ID j) Hkt Hsm) as Hss. pose proof (tracked_NoDup t (jb_ID j) Hkt) as Hnd.
  assert (∀ v, v ∈ tracked t (jb_ID j) → v = j ∨ jb_Version v < jb_Version j) as Hmax.
  { intros v. rewrite Hp, elem_of_cons. intros [->|Hb]; [by left|right]. by apply Hnew. }
  assert (head (tracked t (jb_ID j)) = Some j) as Hhd by (apply newest_head; [done|by rewrite Hp; left|done]).
  pose proof (Permutation_length Hp) as Hpl. cbn [length] in Hpl. unfold l.
  destruct (evicted (tracked t (jb_ID j))) as [d|] eqn:Ed.
  - destruct Eff as (kd & Hkd & Hidd & ->). destruct (evicted_spec _ _ d Hss Hnd Ed) as (Hlt & _ & Hnh & Hstab).
    pose proof (tracked_delete t (jb_ID j) kd d Hkt Hkd Hidd) as Hpd. pose proof (Permutation_length Hpd) as Hdl. cbn [length] in Hdl.
    assert (∀ v, v ∈ tracked t (jb_ID j) → v ≠ d → v ∈ tracked (delete kd t) (jb_ID j)) as Hin.
    { intros v. rewrite Hpd, elem_of_cons. by intros [->|?]. }
    assert (∀ v, v ∈ tracked (delete kd t) (jb_ID j) → v ∈ tracked t (jb_ID j)) as Hsub by (intros v ?; rewrite Hpd; by right).
    assert (keyed (delete kd t)) as Hkd' by (intros ?? [_ ?]%lookup_delete_Some; by apply Hkt).
    assert (small (delete kd t) (jb_ID j)) as Hsd by (intros ?? [_ ?]%lookup_delete_Some; by eapply Hsm).
    pose proof (tracked_sorted _ _ Hkd' Hsd) as Hss'. split_and!; [| |done| |].
    + apply newest_head; [done| |auto]. apply Hin; [rewrite Hp; by left|]. congruence.
    + unfold JobTrackedVersions in *. lia.
    + intros v Hvl. specialize (Hsub v Hvl). rewrite Hp, elem_of_cons in Hsub. done.
    + intros v Hb Hst. destruct (Hstab v) as (x & Hx & Hsx & Hne & Hxv); [rewrite Hp; by right|done|].
      exists x. split_and!; [by apply Hin|done|]. destruct Hxv as [->|]; [lia|done].
  - rewrite Eff. split_and!; [done| |done| |].
    + unfold evicted in Ed. destruct (Nat.leb_spec (length (tracked t (jb_ID j))) JobTrackedVersions) as [Hle|Hle]; [unfold JobTrackedVersions in *; lia|].
      apply lookup_ge_None in Ed. unfold JobTrackedVersions in *. destruct (bool_decide _); lia.
    + intros v. by rewrite Hp, elem_of_cons.
    + intros v Hb Hst. exists v. split_and!; [rewrite Hp; by right|done|lia].
Qed.

(** ** Removing a job *)

Lemma deleteAll_leaves {V} (r : TableRef V) `{!Ref r} args s u s' k v :
  (∀ key, FromArgs (ts_id (tr_schema r)) args = inr key → HasPrefix k key = false) → args ≠ [] →
  store_ok s → table r s !! k = Some v → txnDeleteAll r "id" args s = (inr u, s') → table r s' !! k = Some v.
Proof.
  intros Hpre Hargs Hs Hk. unfold txnDeleteAll, DeleteAll, Get, getIndexValue.
  change (HasSuffix "id" "_prefix") with false. change (TrimSuffix "id" "_prefix") with "id". cbn [ts_Indexes list_find].
  rewrite decide_True by done. destruct args as [|a args]; [done|]. cbn -[FromArgs Delete scan deleteObjs tree].
  destruct (FromArgs _ _) as [e|key] eqn:Hkey; [done|]. specialize (Hpre key eq_refl).
  cbn -[FromArgs Delete scan deleteObjs tree]. set (objs := scan key (tree (tr_get r s) "id")).
  assert (∀ o, o ∈ objs → primaryKey (tr_schema r) o ≠ inr k) as Hobjs.
  { intros o (ko & Hko & Hp)%elem_of_scan. destruct (ref_ok_get (r := r) s Hs) as [Hwf _].
    destruct (tw_rows _ _ Hwf ko o Hko) as (-> & _ & _). intros [= ->]. congruence. }
  destruct (deleteObjs (tr_schema r) objs (tr_get r s)) as [res t] eqn:E. intros [= _ <-]. unfold table. rewrite ref_get_set.
  unfold table in Hk. pose proof (ref_ok_get (r := r) s Hs) as Ht. clear Hs. revert Ht Hk E. generalize (tr_get r s). clearbody objs.
  induction objs as [|o objs IH]; intros t0 Ht Hk; cbn [deleteObjs]; [by intros [= _ <-]|].
  pose proof (delete_ok r s t0 o Ht) as Hd.
  assert (rows (Delete (tr_schema r) o t0).2 !! k = Some v) as Hk1.
  { destruct (primaryKey (tr_schema r) o) as [e|ko] eqn:Hko; [unfold Delete; by rewrite Hko|].
    destruct (rows t0 !! ko) as [old|] eqn:Eo; [|by rewrite (Delete_missing _ t0 o ko Hko Eo)].
    destruct (Delete_spec (tr_schema r) ref_schema t0 o ko old (proj1 Ht) Hko Eo) as (t' & -> & _ & Er). simpl. rewrite Er.
    rewrite lookup_delete_ne; [done|]. intros ->. by apply (Hobjs o ltac:(left)). }
  destruct (Delete (tr_schema r) o t0) as [[e|u0] t1]; [intros [= _ <-]; exact Hk1|].
  apply IH; [|done|done]. intros o' Ho'. apply Hobjs. by right.
Qed.

Lemma deleteJobVersions_leaves index job s u s' k v : store_ok s → deleteJobVersions index job s = (inr u, s') →
  table job_version s !! k = Some v → jb_ID v = jb_ID job → 0 ≤ jb_Version v → 0 ≤ jb_Version job → jb_Version v ≠ jb_Version job →
  table job_version s' !! k = Some v.
Proof.
  intros Hs E Hk Hid Hv Hj Hne. unfold deleteJobVersions in E. apply bind_inr in E as (all & s1 & E1 & E).
  injection E1 as _ <-. apply bind_inr in E as ([] & s2 & E2 & E).
  assert (st_job_version s' = st_job_version s2) as Ev by (eapply frame_at; [|exact E]; by apply frame_setIndex).
  unfold table. cbn [tr_get job_version]. rewrite Ev. change (table job_version s2 !! k = Some v). clear Ev E s'.
  destruct (version_key v k (keyed_store s Hs k v Hk)) as (bv & Hbv & Ek).
  revert s Hs Hk E2. induction (filter _ all) as [|x l IH]; intros s Hs Hk E2; cbn [forEach] in E2; [by injection E2 as <-|].
  apply bind_inr in E2 as ([] & s1 & E1 & E2). apply wrap_inr in E1.
  destruct (keeps_inr False _ anyRow s tt s1 (keeps_deleteAll job_version False "id" _) Hs E1) as [Hs1 _].
  apply (IH s1 Hs1); [|done]. eapply (deleteAll_leaves job_version); [| |exact Hs|exact Hk|exact E1]; [|done].
  intros key. cbn. destruct (PutUvarint 8 (jb_Version job)) as [bj|] eqn:Hbj; [|done]. intros [= <-].
  apply not_true_iff_false. intros (r & Er)%prefix_app_iff. rewrite Ek, Hid, app_empty, app_assoc_str in Er. unfold lowerKey in Er.
  apply app_inj_length in Er as [_ Er]; [|done].
  rewrite <- (app_empty bv) in Er. apply app_inj_length in Er as [Er _]; [|by rewrite (PutUvarint_length _ _ _ Hbv), (PutUvarint_length _ _ _ Hbj)].
  subst bj. apply Hne. by eapply PutUvarint_inj.
Qed.

Lemma frame_countDeleted {X} (p : StateStore → X) index job : (∀ t s, p (tr_set job_summary t s) = p s) → (∀ t s, p (tr_set indexes t s) = p s) →
  frame p (countDeleted index job).
Proof. intros Hsm Hi. unfold countDeleted, firstByID. solve_frame; by apply frame_setIndex. Qed.

Lemma DeleteJob_effect index id s s' job : store_ok s → table jobs s !! lowerKey id = Some job → DeleteJob index id s = (inr tt, s') →
  store_ok s' ∧ table jobs s' = delete (lowerKey id) (table jobs s) ∧
  ∀ k v, table job_version s !! k = Some v → jb_ID v = jb_ID job → 0 ≤ jb_Version v → 0 ≤ jb_Version job → jb_Version v ≠ jb_Version job →
    table job_version s' !! k = Some v.
Proof.
  intros Hs Hjob E. split; [change s' with (inr tt : GoError + unit, s').2; rewrite <- E; by apply (applyOp_ok index (OpDeleteJob id))|].
  apply (proj1 (commit_inr _ _ _ _)) in E. apply bind_inr in E as (o & s0 & Eo & E). apply wrap_inr in Eo.
  rewrite firstByID_eq, keyOf_jobs, Hjob in Eo. injection Eo as <- <-.
  apply bind_inr in E as ([] & s1 & E1 & E). apply bind_inr in E as ([] & s2 & E2 & E). apply wrap_inr in E2.
  apply bind_inr in E as ([] & s3 & E3 & E). apply bind_inr in E as ([] & s4 & E4 & E).
  apply bind_inr in E as ([] & s5 & E5 & E). apply wrap_inr in E5.
  destruct (keeps_inr False _ anyRow s tt s1 (keeps_countDeleted False index job) Hs E1) as [Hs1 _].
  destruct (keeps_inr False _ anyRow s1 tt s2 (keeps_delete jobs False job) Hs1 E2) as [Hs2 _].
  assert (store_ok s3) as Hs3.
  { refine (proj1 (keeps_inr False _ anyRow _ _ _ _ Hs2 E3)). apply keeps_setIndex; auto with store. }
  assert (table jobs s1 = table jobs s) as Ej1 by (eapply frame_at; [|exact E1]; by apply frame_countDeleted).
  assert (table job_version s3 = table job_version s) as Ev3.
  { transitivity (table job_version s2); [eapply frame_at; [|exact E3]; by apply frame_setIndex|].
    transitivity (table job_version s1); [eapply frame_at; [|exact E2]; by apply frame_delete|].
    eapply frame_at; [|exact E1]; by apply frame_countDeleted. }
  assert (table job_version s' = table job_version s4) as Ev'.
  { transitivity (table job_version s5); [eapply frame_at; [|exact E]; by apply frame_setIndex|].
    eapply frame_at; [|exact E5]; by apply frame_deleteAll. }
  assert (table jobs s' = table jobs s2) as Ej'.
  { transitivity (table jobs s5); [eapply frame_at; [|exact E]; by apply frame_setIndex|].
    transitivity (table jobs s4); [eapply frame_at; [|exact E5]; by apply frame_deleteAll|].
    transitivity (table jobs s3); [eapply frame_at; [|exact E4]|eapply frame_at; [|exact E3]; by apply frame_setIndex].
    unfold deleteJobVersions. solve_frame; by apply frame_setIndex. }
  split; [rewrite Ej', <- Ej1; eapply (delete_stored jobs); [done|by rewrite Ej1|done]|].
  intros k v Hk Hid Hv Hpos Hne. rewrite Ev'. eapply deleteJobVersions_leaves; [exact Hs3|exact E4|by rewrite Ev3|done..].
Qed.

(** A version that a lookup finds belongs to the job asked for. *)
Lemma version_lookup s id v w : store_ok s → properString true id → (jobByIDAndVersionImpl id v s).1 = inr (Some w) →
  job_ok w ∧ lowerKey (jb_ID w) = lowerKey id.
Proof.
  intros Hs Hp. unfold jobByIDAndVersionImpl, txnFirst, queryFirst, First, getIndexValue. cbn. rewrite decide_True by done. cbn.
  destruct (PutUvarint 8 v) as [b|]; [|done]. cbn. intros [= Hw]. change (table job_version s !! (terminated id true +:+ (b +:+ "")) = Some w) in Hw.
  destruct (row_good job_version s _ w Hs Hw) as (Hpw & _ & Hok). split; [done|].
  destruct (version_key w _ (keyed_store s Hs _ w Hw)) as (bw & _ & Ek). unfold lowerKey, terminated in *. rewrite !app_assoc_str in Ek.
  apply app_inj_nul in Ek as [Ek _]; [by rewrite Ek|done|apply Hok].
Qed.
End versions.
