(* ===== verification/StoreProps.v ===== *)
(** * Properties of the state store

    The claims about the tables, the queries, the status of jobs and the tracked versions,
    with their witnesses on small stores. *)

From stdpp Require Import base gmap strings list sorting.
From Stdlib Require Import ZArith Lia Ascii.
From S2P Require Import Prelude GoText Structs Resources Jobs Allocs Plans MemDB MemDBSpec StateStore StoreSpec StoreInv StoreQuery StoreStatus StoreAllocs StoreVersions.
Open Scope string_scope.
Open Scope list_scope.
Open Scope Z_scope.

Section props.
Context `{CaseLib} `{!CaseLaws} `{RangeOrder}.
Implicit Types (index : Z) (s : StateStore).

(** A store after a sequence of transactions, each with its index. *)
Definition run (ops : list (Z * StoreOp)) : StateStore := foldl (fun s io => (applyOp io.1 io.2 s).2) NewStateStore ops.

Lemma run_ok ops : Forall (fun io => proper_op io.2) ops → store_ok (run ops).
Proof.
  unfold run. generalize new_store_ok. generalize NewStateStore. induction ops as [|[i op] ops IH]; intros s Hs Hp; [done|].
  inversion_clear Hp. apply IH; [|done]. by apply applyOp_ok.
Qed.

Lemma JobByID_eq s id : JobByID s id = inr (table jobs s !! lowerKey id).
Proof. change (JobByID s id) with (firstByID jobs id s).1. by rewrite firstByID_eq, keyOf_jobs. Qed.

(** The jobs of a list of evaluations, none with a status to force. *)
Lemma evalJobs_empty (evs : list Evaluation) (js : gmap string string) id f :
  foldl (fun m e => <[ev_JobID e := ""]> m) js evs !! id = Some f → f = "" ∨ js !! id = Some f.
Proof.
  revert js. induction evs as [|e evs IH]; intros js; [by right|]. simpl. intros [->|Hf]%IH; [by left|].
  apply lookup_insert_Some in Hf as [[_ <-]|[_ ?]]; [by left|by right].
Qed.
Lemma evalJobs_dom (evs : list Evaluation) (js : gmap string string) e : e ∈ evs →
  is_Some (foldl (fun m e => <[ev_JobID e := ""]> m) js evs !! ev_JobID e).
Proof.
  assert (∀ l (m : gmap string string) id, is_Some (m !! id) → is_Some (foldl (fun m e => <[ev_JobID e := ""]> m) m l !! id)) as Hmono.
  { induction l as [|x l IH]; intros m id Hm; [done|]. apply IH. rewrite lookup_insert. by case_decide. }
  revert js. induction evs as [|x evs IH]; intros js; [by intros ?%not_elem_of_nil|]. intros [->|He]%elem_of_cons; simpl; [|by apply IH].
  apply Hmono. by rewrite lookup_insert_eq.
Qed.

(** C6. In every store that the transactions reach, from the empty one and whichever of
    them fail, all tables agree with their indexes: each row is stored under its primary
    key, each index holds exactly one entry for each row that has its fields, and nothing
    else. *)
Theorem store_consistent ops : Forall (fun io => proper_op io.2) ops → store_ok (run ops).
Proof. apply run_ok. Qed.

(** C19. The queries the schedulers use return exactly the stored allocations they are
    asked for, each once: those of a node that are terminal or not, those of a job, and
    those of an evaluation. *)
Theorem store_queries_exact ops node job eval val b :
  Forall (fun io => proper_op io.2) ops → properString true node → properString true job →
  properUUID eval → parseString eval true = inr val →
  let s := run ops in
  (∃ l, AllocsByNodeTerminal s node b = inr l ∧ NoDup l ∧
     ∀ a, a ∈ l ↔ stored allocs s a ∧ al_NodeID a ≠ "" ∧ sameID (al_NodeID a) node ∧ AllocTerminal a = b) ∧
  (∃ l, queryGet allocs s "job" [AString job] = inr l ∧ NoDup l ∧
     ∀ a, a ∈ l ↔ stored allocs s a ∧ sameID (al_JobID a) job) ∧
  (∃ l, AllocsByEval s eval = inr l ∧ NoDup l ∧
     ∀ a, a ∈ l ↔ stored allocs s a ∧ al_EvalID a ≠ "" ∧ sameUUID (al_EvalID a) eval).
Proof.
  intros Hops%run_ok Hn Hj He Hval s. split_and!; [by apply allocs_by_node|by apply allocs_by_job|].
  pose proof (uuid_query "eval" al_EvalID false s eval Hops He ltac:(by right; right; left)) as Hq. rewrite Hval in Hq.
  eexists. split; [|exact Hq]. unfold AllocsByEval, queryGet, Get, getIndexValue. cbn.
  repeat first [rewrite decide_True by done|rewrite decide_False by done]. cbn. by rewrite Hval.
Qed.

(** C21. After a request of allocations is written, each job that has one of them has the
    status its allocations and evaluations call for: running with a live allocation,
    otherwise pending with an unfinished evaluation, otherwise dead (or, for a system job,
    as its stop flag says). *)
Theorem allocs_set_job_status index als s s' j :
  store_ok s → Forall (properRow allocTableSchema) als → consistent als → UpsertAllocs index als s = (inr tt, s') →
  ∀ a, a ∈ als → JobByID s' (al_JobID a) = inr (Some j) → status_right s' j false (jb_Status j).
Proof.
  intros Hs Hp Hc E a Ha Hj. apply (proj1 (commit_inr _ _ _ _)) in E. destruct (upsertAllocsImpl_spec index als s tt s' Hs Hp Hc E) as (_ & _ & _ & Hr).
  apply (Hr a Ha). rewrite JobByID_eq in Hj. by injection Hj.
Qed.

(** After evaluations are written, each job that has one of them has the status that
    its allocations and evaluations call for. *)
Theorem evals_set_job_status index evs s s' j :
  store_ok s → Forall (properRow evalTableSchema) evs → UpsertEvals index evs s = (inr tt, s') →
  ∀ e, e ∈ evs → JobByID s' (ev_JobID e) = inr (Some j) → status_right s' j false (jb_Status j).
Proof.
  intros Hs Hp E e He Hj. apply (proj1 (commit_inr _ _ _ _)), bind_inr in E as ([] & s1 & E1 & E). apply wrap_inr in E.
  assert (keeps False (forEach evs (nestedUpsertEval index)) anyRow) as Hk.
  { apply keeps_forEach. intros x Hx. apply keeps_nestedUpsertEval. by eapply Forall_forall in Hx. }
  destruct (keeps_inr False _ _ s tt s1 Hk Hs E1) as [Hs1 _].
  set (js := foldl _ ∅ evs) in E.
  destruct (setJobStatuses_right index js false s1 tt s' Hs1) as (_ & _ & Hr & _); [|exact E|].
  - intros id f Hf. left. by apply evalJobs_empty in Hf as [?|?].
  - destruct (evalJobs_dom evs ∅ e He) as [f Hf]. apply (Hr _ f Hf). rewrite JobByID_eq in Hj. by injection Hj.
Qed.

(** C35. Registering a job whose tracked versions are at most six, none newer than the
    current one and all below 255, gives the next version.  It is the first of the
    versions that are listed afterwards, which are in descending order, as many as fit,
    and a stable version stays listed unless a newer stable one is. *)
Theorem versions_tracked index job s s' cur before :
  store_ok s → job_ok job → JobByID s (jb_ID job) = inr (Some cur) → JobVersionsByID s (jb_ID job) = inr before →
  (∀ v, v ∈ before → 0 ≤ jb_Version v ≤ jb_Version cur) → 0 ≤ jb_Version cur < 255 → (length before ≤ JobTrackedVersions)%nat →
  UpsertJob index job s = (inr tt, s') →
  ∃ j l, JobByID s' (jb_ID job) = inr (Some j) ∧ jb_Version j = jb_Version cur + 1 ∧
    JobVersionsByID s' (jb_ID job) = inr l ∧ head l = Some j ∧ length l = Nat.min JobTrackedVersions (S (length before)) ∧
    StronglySorted (fun v w => jb_Version w ≤ jb_Version v) l ∧ (∀ v, v ∈ l → v = j ∨ v ∈ before) ∧
    ∀ v, v ∈ before → jb_Stable v = true → ∃ x, x ∈ l ∧ jb_Stable x = true ∧ jb_Version v ≤ jb_Version x.
Proof.
  intros Hs Hj Hcur [= <-] Hb Hc Hlen E. apply (proj1 (commit_inr _ _ _ _)) in E. rewrite JobByID_eq in Hcur. injection Hcur as Hcur.
  destruct (upsertJobImpl_effect index job false s tt s' Hs Hj E) as (_ & _ & st & s1 & s2 & Et & _ & Hs1 & Ev1 & Eup & Ev2).
  rewrite Hcur in Et, Eup. set (j := registered index job false (Some cur) st) in *.
  assert (jb_Version j = jb_Version cur + 1) as Ever by (apply Z.mod_small; lia).
  assert (table job_version s1 = table job_version s ∧ table job_version s' = table job_version s2) as [Et1 Et2].
  { unfold table. cbn [tr_get job_version]. by rewrite Ev1, Ev2. }
  destruct (upsertJobVersion_tracks index j s1 s2 Hs1 Hj Eup) as (Hh & Hl & Hss & Hin & Hst).
  - lia.
  - rewrite Et1. intros v Hv. specialize (Hb v Hv). lia.
  - by rewrite Et1.
  - exists j, (tracked (table job_version s2) (jb_ID job)). rewrite Et1 in *. unfold JobVersionsByID. rewrite JobByID_eq, Et, jobVersionByID_eq, Et2.
    rewrite lookup_insert_eq. by split_and!.
Qed.

(** Removing a job leaves its tracked versions, all but the registered one. *)
Theorem deleted_job_keeps_versions index id s s' job vs :
  store_ok s → JobByID s id = inr (Some job) → JobVersionsByID s (jb_ID job) = inr vs → (∀ v, v ∈ job :: vs → 0 ≤ jb_Version v) →
  DeleteJob index id s = (inr tt, s') →
  JobByID s' id = inr None ∧ ∃ l, JobVersionsByID s' (jb_ID job) = inr l ∧ ∀ v, v ∈ vs → jb_Version v ≠ jb_Version job → v ∈ l.
Proof.
  intros Hs Hjob [= <-] Hpos E. rewrite JobByID_eq in Hjob. injection Hjob as Hjob.
  destruct (DeleteJob_effect index id s s' job Hs Hjob E) as (Hs' & Ej & Hleft).
  split; [by rewrite JobByID_eq, Ej, lookup_delete_eq|]. eexists. split; [reflexivity|]. intros v Hv Hne. pose proof (Hpos v ltac:(by right)).
  pose proof (Hpos job ltac:(left)). apply elem_of_tracked in Hv as [(k & Hk) Hid]; [|by apply keyed_store].
  apply elem_of_tracked; [by apply keyed_store|]. split; [|done]. exists k. by apply Hleft.
Qed.

(** Marking an older version of a job as stable, or no longer stable, registers that
    version in place of the current one. *)
Theorem stabilised_version_registered index id v stable s s' cur w :
  store_ok s → JobByID s id = inr (Some cur) → JobByIDAndVersion s id v = inr (Some w) → properString true id → jb_Stable w ≠ stable →
  UpdateJobStability index id v stable s = (inr tt, s') →
  ∃ j, JobByID s' id = inr (Some j) ∧ jb_Version j = jb_Version w ∧ jb_Stable j = stable ∧
    jb_TaskGroups j = jb_TaskGroups (addEphemeralDiskToTaskGroups w).
Proof.
  intros Hs Hcur Hw Hid Hst E. apply (proj1 (commit_inr _ _ _ _)) in E. unfold updateJobStabilityImpl in E.
  apply bind_inr in E as (o & s0 & Eo & E). unfold JobByIDAndVersion in Hw. rewrite Eo in Hw. injection Hw as ->.
  assert (s0 = s) as -> by (by injection Eo). rewrite bool_decide_false in E by done.
  destruct (version_lookup s id v w Hs Hid ltac:(by rewrite Eo)) as [Hrow Ek].
  rewrite JobByID_eq in Hcur. injection Hcur as Hcur.
  match type of E with upsertJobImpl _ ?x _ _ = _ => set (w' := x) in E end.
  destruct (upsertJobImpl_effect index w' true s tt s' Hs Hrow E) as (_ & _ & st & _ & _ & Et & _).
  change (jb_ID w') with (jb_ID w) in Et. rewrite Ek, Hcur in Et.
  eexists. rewrite JobByID_eq, Et, lookup_insert_eq. by split_and!.
Qed.
End props.

(** ** Small stores *)

Definition lowerByte (c : ascii) : ascii :=
  let n := Ascii.N_of_ascii c in if (65 <=? n)%N && (n <=? 90)%N then Ascii.ascii_of_N (n + 32) else c.
Fixpoint asciiLower (s : string) : string :=
  match s with EmptyString => EmptyString | String c s => String (lowerByte c) (asciiLower s) end.

#[export] Instance demoCase : CaseLib := asciiLower.
#[export] Instance demoRange : RangeOrder := {| range A m := map_to_list m; range_perm A m := reflexivity _ |}.

Lemma lowerByte_NUL c : lowerByte c = NUL → c = NUL.
Proof. destruct c as [[] [] [] [] [] [] [] []]; by vm_compute. Qed.

#[export] Instance demoLaws : CaseLaws.
Proof.
  intros x. unfold nulFree, ToLower, demoCase. induction x as [|c x IH]; [done|]. cbn. rewrite !not_elem_of_cons.
  intros [Hc Hx]. split; [|by apply IH]. intros E. symmetry in E. by apply lowerByte_NUL in E.
Qed.

Definition web : Job :=
  mkJob false "global" "web" "" "web" JobTypeService 50 false ["dc1"] [] [] noUpdate None None "" ∅ "" "" false 0 0 0 0 0.

(** [n] registrations of a job. *)
Definition registrations (n : nat) : list (Z * StoreOp) := (fun i => (Z.of_nat i, OpUpsertJob web)) <$> seq 1 n.

Lemma web_ok : job_ok web.
Proof. split_and!; [done|by apply (bool_decide_unpack _); vm_compute|done|by apply (bool_decide_unpack _); vm_compute]. Qed.

Lemma registrations_ok n : store_ok (run (registrations n)).
Proof. apply run_ok, Forall_fmap, Forall_true. intros i. apply web_ok. Qed.

Definition idOf (n : string) : string := "00000000-0000-0000-0000-0000000000" +:+ n.
Definition webAlloc (n : string) (desired client : string) : Allocation :=
  zeroAllocation <| al_ID := idOf n |> <| al_EvalID := idOf "e0" |> <| al_Name := "web.group[0]" |> <| al_NodeID := "N1" |>
    <| al_JobID := "web" |> <| al_Job := Some web |> <| al_TaskGroup := "group" |>
    <| al_DesiredStatus := desired |> <| al_ClientStatus := client |>.

Definition webAllocs : list Allocation := [webAlloc "a1" AllocDesiredStatusRun AllocClientStatusRunning; webAlloc "a2" AllocDesiredStatusStop AllocClientStatusComplete].
Definition webOps : list (Z * StoreOp) := registrations 3 ++ [(4, OpUpsertAllocs webAllocs)].

Ltac decided := apply (bool_decide_unpack _); vm_compute; exact I.
Ltac proper_rows := repeat first [split|right; reflexivity|decided].

Lemma webAllocs_proper : Forall (properRow allocTableSchema) webAllocs.
Proof. proper_rows. Qed.

Lemma webOps_proper : Forall (fun io => proper_op io.2) webOps.
Proof.
  apply Forall_app. split; [apply Forall_fmap, Forall_true; intros i; apply web_ok|]. constructor; [apply webAllocs_proper|constructor].
Qed.

(** Three registrations and two allocations leave a consistent store, whose query of the
    node gives the live allocation. *)
Lemma store_consistent_witness : store_ok (run webOps) ∧ (al_ID <$> default [] (match AllocsByNodeTerminal (run webOps) "n1" false with inr l => Some l | inl _ => None end)) = [idOf "a1"].
Proof. split; [exact (store_consistent webOps webOps_proper)|vm_compute; reflexivity]. Defined.

Lemma store_queries_exact_witness :
  let s := run webOps in
  ∃ l, AllocsByNodeTerminal s "n1" false = inr l ∧ NoDup l ∧
    ∀ a, a ∈ l ↔ stored allocs s a ∧ al_NodeID a ≠ "" ∧ sameID (al_NodeID a) "n1" ∧ AllocTerminal a = false.
Proof.
  intros s. destruct (parseString (idOf "e0") true) as [e|val] eqn:E; [vm_compute in E; discriminate|].
  destruct (store_queries_exact webOps "n1" "web" (idOf "e0") val false webOps_proper) as [Hq _]; [decided|decided|done|done|exact Hq].
Defined.

Lemma webAllocs_consistent : consistent webAllocs.
Proof. intros a b Ha Hb _. unfold webAllocs in Ha, Hb. repeat first [apply elem_of_cons in Ha as [->|Ha]|by apply not_elem_of_nil in Ha]; repeat first [apply elem_of_cons in Hb as [->|Hb]|by apply not_elem_of_nil in Hb]; done. Qed.

Lemma allocs_set_job_status_witness :
  ∃ j, JobByID (run webOps) "web" = inr (Some j) ∧ jb_Status j = JobStatusRunning ∧ status_right (run webOps) j false (jb_Status j).
Proof.
  destruct (JobByID (run webOps) "web") as [e|[j|]] eqn:Ej; [vm_compute in Ej; discriminate| |vm_compute in Ej; discriminate].
  exists j. split; [done|]. split; [assert (E' := Ej); vm_compute in E'; injection E' as <-; reflexivity|].
  apply (allocs_set_job_status 4 webAllocs (run (registrations 3)) (run webOps) j (registrations_ok 3) webAllocs_proper webAllocs_consistent)
    with (webAlloc "a1" AllocDesiredStatusRun AllocClientStatusRunning).
  - vm_compute. reflexivity.
  - left.
  - exact Ej.
Defined.

Definition webEval : Evaluation := zeroEvaluation <| ev_ID := idOf "e1" |> <| ev_JobID := "web" |> <| ev_Type := JobTypeService |> <| ev_Status := EvalStatusPending |>.

Lemma evals_set_job_status_witness :
  let s' := (UpsertEvals 4 [webEval] (run (registrations 3))).2 in
  ∃ j, JobByID s' "web" = inr (Some j) ∧ jb_Status j = JobStatusPending ∧ status_right s' j false (jb_Status j).
Proof.
  intros s'. destruct (JobByID s' "web") as [e|[j|]] eqn:Ej; [vm_compute in Ej; discriminate| |vm_compute in Ej; discriminate].
  exists j. split; [done|]. split; [assert (E' := Ej); vm_compute in E'; injection E' as <-; reflexivity|].
  apply (evals_set_job_status 4 [webEval] (run (registrations 3)) s' j (registrations_ok 3)) with webEval.
  - proper_rows.
  - vm_compute. reflexivity.
  - left.
  - exact Ej.
Defined.

(** The versions that are listed for a job. *)
Definition listed (s : StateStore) (id : string) : list Job := match JobVersionsByID s id with inr l => l | inl _ => [] end.

Definition registeredJob (s : StateStore) (id : string) : option Job := match JobByID s id with inr o => o | inl _ => None end.

Lemma versions_tracked_witness :
  let s' := (UpsertJob 8 web (run (registrations 7))).2 in
  ∃ j l, JobByID s' "web" = inr (Some j) ∧ JobVersionsByID s' "web" = inr l ∧ head l = Some j ∧ length l = JobTrackedVersions.
Proof.
  intros s'. destruct (JobByID (run (registrations 7)) "web") as [e|[cur|]] eqn:Ej; [vm_compute in Ej; discriminate| |vm_compute in Ej; discriminate].
  assert (jb_Version cur = 6) as Ev by (assert (E' := Ej); vm_compute in E'; injection E' as <-; reflexivity).
  destruct (versions_tracked 8 web (run (registrations 7)) s' cur (listed (run (registrations 7)) "web")) as (j & l & Hj & _ & Hl & Hh & Hn & _).
  - apply registrations_ok.
  - apply web_ok.
  - exact Ej.
  - reflexivity.
  - rewrite Ev. apply Forall_forall. decided.
  - rewrite Ev. lia.
  - apply Nat.leb_le. vm_compute. reflexivity.
  - vm_compute. reflexivity.
  - exists j, l. split_and!; [exact Hj|exact Hl|exact Hh|]. rewrite Hn. vm_compute. reflexivity.
Defined.

Lemma deleted_job_keeps_versions_witness :
  let s' := (DeleteJob 9 "web" (run (registrations 5))).2 in
  JobByID s' "web" = inr None ∧ (jb_Version <$> listed s' "web") = [3; 2; 1; 0].
Proof.
  intros s'. destruct (JobByID (run (registrations 5)) "web") as [e|[cur|]] eqn:Ej; [vm_compute in Ej; discriminate| |vm_compute in Ej; discriminate].
  assert (jb_Version cur = 4 ∧ jb_ID cur = "web") as [Ev Eid] by (assert (E' := Ej); vm_compute in E'; injection E' as <-; by split).
  destruct (deleted_job_keeps_versions 9 "web" (run (registrations 5)) s' cur (listed (run (registrations 5)) "web")) as [Hn _].
  - apply registrations_ok.
  - exact Ej.
  - rewrite Eid. reflexivity.
  - apply Forall_forall. constructor; [rewrite Ev; lia|decided].
  - vm_compute. reflexivity.
  - split; [exact Hn|vm_compute; reflexivity].
Defined.

Lemma stabilised_version_registered_witness :
  let s' := (UpdateJobStability 9 "web" 2 true (run (registrations 5))).2 in
  ∃ j, JobByID s' "web" = inr (Some j) ∧ jb_Version j = 2.
Proof.
  intros s'. destruct (JobByID (run (registrations 5)) "web") as [e|[cur|]] eqn:Ej; [vm_compute in Ej; discriminate| |vm_compute in Ej; discriminate].
  destruct (JobByIDAndVersion (run (registrations 5)) "web" 2) as [e|[w|]] eqn:Ew; [vm_compute in Ew; discriminate| |vm_compute in Ew; discriminate].
  assert (jb_Version w = 2 ∧ jb_Stable w = false) as [Ev Est] by (assert (E' := Ew); vm_compute in E'; injection E' as <-; by split).
  destruct (stabilised_version_registered 9 "web" 2 true (run (registrations 5)) s' cur w) as (j & Hj & Hv & _).
  - apply registrations_ok.
  - exact Ej.
  - exact Ew.
  - decided.
  - rewrite Est. discriminate.
  - vm_compute. reflexivity.
  - exists j. split; [exact Hj|congruence].
Defined.

(** After 257 registrations the current job has version 256, which is not among the
    versions listed for it. *)
Theorem version_256_untracked :
  let s := run (registrations 257) in
  (jb_Version <$> registeredJob s "web", jb_Version <$> listed s "web") = (Some 256, [255; 254; 253; 252; 251; 250]).
Proof. vm_compute. reflexivity. Qed.
