(* ===== verification/StorePlan.v ===== *)
(** * Committing plans to the state store

    The plan applier checks a plan against a snapshot of the store and writes its result
    with [UpsertPlanResults].  Here both run on the same store: the allocations that the
    store lists for a node afterwards fit on it. *)

From stdpp Require Import base gmap strings list.
From Stdlib Require Import ZArith Lia.
From S2P Require Import Prelude GoText Bitmap Structs Resources Jobs Allocs Network Fit Plans PlanApply PlanApplyProps MemDB MemDBSpec StateStore StoreSpec StoreInv StoreQuery StoreStatus StoreAllocs StoreProps.
Open Scope string_scope.
Open Scope list_scope.
Open Scope Z_scope.

Section plan.
Context `{CaseLib} `{!CaseLaws} `{RangeOrder}.
Implicit Types (index : Z) (s : StateStore).

(** The order of Go's ranges over the tasks of an allocation. *)
Definition rangeTasks (m : gmap string Resources) : list Resources := (range m).*2.
Lemma rangeTasks_perm m : rangeTasks m ≡ₚ vals m.
Proof. unfold rangeTasks, vals. by rewrite range_perm. Qed.

(** ** What a stored allocation uses *)

Definition ownUse (a : Allocation) : Prop := ∀ d, - 2 ^ 63 ≤ allocUse d a < 2 ^ 63.

Lemma totalResources_use a : has_resources a → ownUse a → sameUse (totalResources a) a.
Proof.
  intros Hres Hown. unfold totalResources. destruct (al_Resources a) eqn:Er; [done|].
  destruct Hres as [[r Hr]|[tasks Ht]]; [congruence|]. rewrite Ht. cbn [default]. split; [|cbn; congruence]. intros d.
  specialize (Hown d). unfold allocUse in *. cbn. rewrite Er, Ht in *.
  erewrite Add_wrap; [|rewrite <- (foldl_fmap (fun r x => Add r (Some x))); by apply (addTasks_wrap d _ _ 0); destruct d].
  rewrite (sum_perm _ _ _ (rangeTasks_perm tasks)), wrap64_id by lia. lia.
Qed.

(** ** Writing allocations with distinct identifiers *)

Definition uuidKey (a : Allocation) : GoError + string := parseString (al_ID a) true.

(** The allocation [b] is stored for the request's [a], over the table [t]. *)
Definition storedFor index (t t' : gmap string Allocation) (a b : Allocation) : Prop :=
  ∃ k m ds, uuidKey a = inr k ∧ mergeAlloc index a (t !! k) = inr m ∧ b = storedAlloc m ds ∧ t' !! k = Some b.

Lemma writes_distinct index als t t' out : writes index als t t' out → NoDup (uuidKey <$> als) →
  (∀ t0, (∀ k, inr k ∈ uuidKey <$> als → t0 !! k = t !! k) → Forall2 (storedFor index t0 t') als out) ∧
  (∀ k, inr k ∉ uuidKey <$> als → t' !! k = t !! k).
Proof.
  induction 1 as [t|alloc als t k m ds t' out Hm Hk Hw IH]; intros Hnd; [by split; [constructor|]|].
  cbn [fmap list_fmap] in *. apply NoDup_cons in Hnd as [Hnew Hnd]. destruct (IH Hnd) as [Hall Hrest].
  apply alloc_key in Hk as [_ Hk]. assert (uuidKey alloc = inr k) as Ek.
  { unfold uuidKey. apply merge_keeps in Hm as (<- & _). exact Hk. }
  rewrite Ek in Hnew |- *. split.
  - intros t0 Ht0. constructor; [|apply Hall].
    + exists k, m, ds. split_and!; [done| |done|]; [by rewrite Ht0 by left|by rewrite Hrest, lookup_insert_eq].
    + intros k' Hk'. rewrite lookup_insert_ne by congruence. apply Ht0. by right.
  - intros k' Hk'. apply not_elem_of_cons in Hk' as [Hne Hk']. rewrite Hrest by done. apply lookup_insert_ne. congruence.
Qed.

(** ** The request of a plan's result *)

(** The snapshot the plan applier takes; [say] prints the errors. *)
Context (say : GoError → string).
Definition shown {A} (r : GoError + A) : string + A := match r with inl e => inl (say e) | inr a => inr a end.
Definition snapshotOf s : StateSnapshot :=
  mkStateSnapshot (fun id => shown (NodeByID s id)) (fun id b => shown (AllocsByNodeTerminal s id b)) (fun n => shown (Index s n)).

(** What [UpsertPlanResults] makes of the allocations of a request. *)
Definition written (job : option Job) (a : Allocation) : Allocation :=
  totalResources match job with
                 | None => a
                 | Some _ => match al_Job a with
                             | None => if AllocTerminal a then a else a <| al_Job := job |>
                             | Some _ => a
                             end
                 end.

Lemma written_list job als : totalResources <$> DenormalizeAllocationJobs job als = written job <$> als.
Proof. unfold DenormalizeAllocationJobs, written. destruct job; [|done]. by rewrite <- list_fmap_compose. Qed.

Definition stamp (now : Z) (a : Allocation) : Allocation := if al_CreateTime a =? 0 then a <| al_CreateTime := now |> else a.

(** Allocations with the same place, statuses and resources. *)
Definition alike (a b : Allocation) : Prop :=
  al_ID a = al_ID b ∧ al_NodeID a = al_NodeID b ∧ al_DesiredStatus a = al_DesiredStatus b ∧ al_ClientStatus a = al_ClientStatus b ∧
  al_Resources a = al_Resources b ∧ al_SharedResources a = al_SharedResources b ∧ al_TaskResources a = al_TaskResources b.

Lemma alike_use a b : alike a b → sameUse a b ∧ (has_resources b → has_resources a) ∧ (ownUse b → ownUse a).
Proof.
  intros (_ & _ & _ & _ & Er & Es & Et). assert (∀ d, allocUse d a = allocUse d b) as Hu by (intros d; unfold allocUse; by rewrite Er, Es, Et).
  split_and!; [done|unfold has_resources; by rewrite Er, Et|]. intros Hb d. rewrite Hu. apply Hb.
Qed.

(** What is written for an allocation of a plan. *)
Lemma written_fields job now a (b := written job (stamp now a)) :
  al_ID b = al_ID a ∧ al_NodeID b = al_NodeID a ∧ al_DesiredStatus b = al_DesiredStatus a ∧ al_ClientStatus b = al_ClientStatus a ∧
  (has_resources a → ownUse a → sameUse b a).
Proof.
  unfold b, written. set (c := match job with Some _ => _ | None => _ end).
  assert (alike c a) as Hc by (unfold c, stamp; repeat case_match; done).
  assert (∀ x, al_ID (totalResources x) = al_ID x ∧ al_NodeID (totalResources x) = al_NodeID x ∧
    al_DesiredStatus (totalResources x) = al_DesiredStatus x ∧ al_ClientStatus (totalResources x) = al_ClientStatus x) as Ht
    by (intros x; unfold totalResources; by case_match).
  destruct (Ht c) as (-> & -> & -> & ->). pose proof Hc as (-> & -> & -> & -> & _). split_and!; [done..|].
  destruct (alike_use c a Hc) as (Hu & Hres & Hown). intros Ha Hr.
  destruct (totalResources_use c (Hres Ha) (Hown Hr)) as [Hd Hn]. destruct Hu as [Hd' Hn']. split; [|congruence]. intros d. by rewrite Hd.
Qed.

(** What is stored for an allocation, over the existing one. *)
Lemma storedFor_fields index t t' a b : storedFor index t t' a b →
  al_ID b = al_ID a ∧ al_NodeID b = al_NodeID a ∧ al_DesiredStatus b = al_DesiredStatus a ∧ sameUse b a ∧
  ∃ k, uuidKey a = inr k ∧ t' !! k = Some b ∧
  (AllocTerminal a = false → (∀ ex, t !! k = Some ex → AllocTerminal ex = false) → AllocTerminal b = false).
Proof.
  intros (k & m & ds & Ek & Hm & -> & Hb). pose proof (merge_keeps _ _ _ _ Hm) as (E1 & _ & E2 & E3 & E4 & E5 & E6).
  split_and!; [exact E1|exact E2|exact E3| |].
  - split; [|exact E6]. intros d. unfold allocUse. cbn. by rewrite E4, E5, E6.
  - exists k. split_and!; [done|done|]. intros Ha Hex. change (AllocTerminal m = false).
    unfold mergeAlloc in Hm. destruct (t !! k) as [ex|]; [|destruct (al_Job a); [|done]; by injection Hm as <-].
    specialize (Hex ex eq_refl). unfold AllocTerminal in *. rewrite !orb_false_iff, !bool_decide_eq_false in *.
    injection Hm as <-. cbn. case_bool_decide as Hl; cbn in *; repeat case_match; cbn; tauto.
Qed.

Lemma Forall2_choice {A B} (R : A → B → Prop) l : (∀ a, a ∈ l → ∃ b, R a b) → ∃ bs, Forall2 R l bs.
Proof.
  induction l as [|a l IH]; intros Hl; [by exists []|]. destruct (Hl a ltac:(left)) as [b Hb].
  destruct IH as [bs Hbs]; [intros x Hx; apply Hl; by right|]. exists (b :: bs). by constructor.
Qed.

Lemma NoDup_fmap_eq {A B} (f : A → B) l x y : NoDup (f <$> l) → x ∈ l → y ∈ l → f x = f y → x = y.
Proof.
  intros Hnd [i Hi]%list_elem_of_lookup [j Hj]%list_elem_of_lookup E.
  assert (i = j) as ->; [|congruence]. eapply (NoDup_lookup _ _ _ (f x) Hnd); rewrite list_lookup_fmap; [by rewrite Hi|by rewrite Hj, E].
Qed.

(** ** The effect of [UpsertPlanResults] *)

Lemma written_ids job a : al_ID (written job a) = al_ID a ∧ al_JobID (written job a) = al_JobID a.
Proof. unfold written, totalResources. repeat case_match; done. Qed.

Lemma frame_ignore {X} (p : StateStore → X) m : frame p m → frame p (ignoreErr m).
Proof. intros Hm s. unfold ignoreErr. specialize (Hm s). by destruct (m s) as [[[]|u] s1]. Qed.

Lemma UpsertPlanResults_effect index req s s' : store_ok s → Forall (properRow allocTableSchema) (ap_Alloc req) →
  optional (properRow deploymentSchema) (ap_Deployment req) → NoDup (uuidKey <$> ap_Alloc req) →
  UpsertPlanResults index req s = (inr tt, s') →
  store_ok s' ∧ ∃ out, writes index (written (ap_Job req) <$> ap_Alloc req) (table allocs s) (table allocs s') out.
Proof.
  intros Hs Hp Hd Hnd E. apply (proj1 (commit_inr _ _ _ _)) in E.
  apply bind_inr in E as ([] & s1 & E1 & E). apply bind_inr in E as ([] & s2 & E2 & E). cbv zeta in E. rewrite written_list in E.
  assert (store_ok s1 ∧ st_allocs s1 = st_allocs s) as [Hs1 Ea1].
  { destruct (ap_Deployment req) as [d|]; [|by injection E1 as <-].
    split; [|eapply frame_at; [|exact E1]; by apply frame_upsertDeploymentImpl].
    refine (proj1 (keeps_inr False _ anyRow s tt s1 _ Hs E1)). by apply keeps_upsertDeploymentImpl. }
  assert (store_ok s2 ∧ st_allocs s2 = st_allocs s1) as [Hs2 Ea2].
  { destruct (length (ap_DeploymentUpdates req) =? 0)%nat; [by injection E2 as <-|].
    split; [|eapply frame_at; [|exact E2]; apply frame_ignore, frame_forEach; intros u; by apply frame_updateDeploymentStatus].
    refine (proj1 (keeps_inr False _ anyRow s1 tt s2 _ Hs1 E2)). apply keeps_ignore, keeps_forEach.
    intros u _. apply keeps_updateDeploymentStatusImpl. }
  assert (Forall (properRow allocTableSchema) (written (ap_Job req) <$> ap_Alloc req)) as Hp'.
  { rewrite <- written_list. by apply denormalized_proper. }
  destruct (upsertAllocsImpl_spec index _ s2 tt s' Hs2 Hp') as (Hs' & _ & (out & Hw) & _); [|exact E|].
  - intros a b (a0 & -> & Ha)%list_elem_of_fmap (b0 & -> & Hb)%list_elem_of_fmap Hab. unfold sameUUID in Hab.
    rewrite !(proj1 (written_ids _ _)) in Hab. rewrite !(proj2 (written_ids _ _)). f_equal.
    by apply (NoDup_fmap_eq uuidKey (ap_Alloc req)).
  - split; [done|]. exists out. unfold table in *. cbn [tr_get allocs] in *. by rewrite Ea2, Ea1 in Hw.
Qed.

(** ** The allocations of a node after a plan is committed *)

Definition planned (result : PlanResult) : list Allocation := flat (pr_NodeUpdate result) ++ flat (pr_NodeAllocation result).
Definition plannedOn (result : PlanResult) (n : string) : list Allocation :=
  default [] (pr_NodeUpdate result !! n) ++ default [] (pr_NodeAllocation result !! n).

(** A result as the schedulers make them, for the store [s]: each allocation has one entry,
    under its node; the updates stop or evict; the placements are live, and new or in the
    place of a live allocation of the node. *)
Record placeable s (result : PlanResult) : Prop := {
  pb_proper : Forall (properRow allocTableSchema) (planned result);
  pb_ids : NoDup (uuidKey <$> planned result);
  pb_node : ∀ n a, a ∈ plannedOn result n → al_NodeID a = n;
  pb_names : ∀ a b, a ∈ planned result → b ∈ planned result → sameID (al_NodeID a) (al_NodeID b) → al_NodeID a = al_NodeID b;
  pb_nodes : ∀ a, a ∈ planned result → al_NodeID a ≠ "" ∧ properString true (al_NodeID a);
  pb_stop : ∀ a, a ∈ flat (pr_NodeUpdate result) → al_DesiredStatus a = AllocDesiredStatusStop ∨ al_DesiredStatus a = AllocDesiredStatusEvict;
  pb_live : ∀ a, a ∈ flat (pr_NodeAllocation result) → AllocTerminal a = false ∧ ownUse a;
  pb_own : ∀ a ex, a ∈ planned result → stored allocs s ex → sameUUID (al_ID ex) (al_ID a) →
    al_ID ex = al_ID a ∧ sameID (al_NodeID ex) (al_NodeID a) ∧ (a ∈ flat (pr_NodeAllocation result) → AllocTerminal ex = false)
}.

Lemma elem_of_planned result a : a ∈ planned result ↔ ∃ n, a ∈ plannedOn result n.
Proof.
  unfold planned, plannedOn. rewrite elem_of_app, !elem_of_flat. setoid_rewrite elem_of_app. split.
  - intros [(n & l & Hn & Ha)|(n & l & Hn & Ha)]; exists n; rewrite Hn; auto.
  - intros (n & [Ha|Ha]); [left|right]; exists n.
    + destruct (pr_NodeUpdate result !! n); [by eexists|by apply not_elem_of_nil in Ha].
    + destruct (pr_NodeAllocation result !! n); [by eexists|by apply not_elem_of_nil in Ha].
Qed.

Section node_after.
Context index (s s' : StateStore) (result : PlanResult) (f : Allocation → Allocation).
Context (Hs : store_ok s) (Hs' : store_ok s') (Hpb : placeable s result).
Context (f_id : ∀ a, al_ID (f a) = al_ID a) (f_node : ∀ a, al_NodeID (f a) = al_NodeID a).
Context (f_desired : ∀ a, al_DesiredStatus (f a) = al_DesiredStatus a) (f_client : ∀ a, al_ClientStatus (f a) = al_ClientStatus a).
Context (Hst : ∀ a, a ∈ planned result → ∃ b, storedFor index (table allocs s) (table allocs s') (f a) b).
Context (Hrest : ∀ k, (∀ a, a ∈ planned result → uuidKey a ≠ inr k) → table allocs s' !! k = table allocs s !! k).

Lemma row_key s0 k b : store_ok s0 → table allocs s0 !! k = Some b → uuidKey b = inr k.
Proof.
  intros Hs0 Hb. destruct (ref_ok_get (r := allocs) s0 Hs0) as [Hwf _]. destruct (tw_rows _ _ Hwf k b Hb) as [Hk _].
  by apply alloc_key in Hk as [_ ?].
Qed.

(** The entry of the result for a key, if there is one. *)
Lemma planned_key k : (∃ a, a ∈ planned result ∧ uuidKey a = inr k) ∨ (∀ a, a ∈ planned result → uuidKey a ≠ inr k).
Proof.
  generalize (planned result). intros l. induction l as [|x l IH]; [right; by intros a Ha%not_elem_of_nil|].
  assert (uuidKey x = inr k ∨ uuidKey x ≠ inr k) as [Hx|Hx].
  { destruct (uuidKey x) as [|k']; [by right|]. destruct (decide (k' = k)) as [->|]; [by left|right; congruence]. }
  - left. exists x. split; [left|done].
  - destruct IH as [(a & Ha & E)|IH]; [left; exists a; split; [by right|done]|right]. intros a [->|Ha]%elem_of_cons; [done|by apply IH].
Qed.

Lemma stop_terminal a b : a ∈ flat (pr_NodeUpdate result) → al_DesiredStatus b = al_DesiredStatus a → AllocTerminal b = true.
Proof.
  intros Ha E. unfold AllocTerminal. rewrite E. destruct (pb_stop _ _ Hpb a Ha) as [->| ->]; [by rewrite bool_decide_true|].
  rewrite (bool_decide_true (AllocDesiredStatusEvict = AllocDesiredStatusEvict)) by done. by rewrite orb_true_r.
Qed.

Lemma planned_on n a : a ∈ planned result → al_NodeID a = n → a ∈ plannedOn result n.
Proof. intros [n' Ha]%elem_of_planned E. by rewrite <- E, (pb_node _ _ Hpb n' a Ha). Qed.

(** The rows that the node keeps. *)
Lemma kept_rows n b k : (∃ a, a ∈ planned result ∧ al_NodeID a = n) → table allocs s !! k = Some b → sameID (al_NodeID b) n →
  al_ID b ∉ al_ID <$> plannedOn result n → table allocs s' !! k = Some b.
Proof.
  intros (a0 & Ha0 & En) Hb Hn Hid. rewrite Hrest; [done|]. intros a Ha Ek. apply Hid.
  destruct (pb_own _ _ Hpb a b Ha) as (Eid & Enode & _); [by exists k|unfold sameUUID; by rewrite (row_key s k b Hs Hb : parseString _ _ = _)|].
  rewrite Eid. apply list_elem_of_fmap_2, planned_on; [done|]. rewrite <- En. apply (pb_names _ _ Hpb); [done|done|].
  rewrite En. unfold sameID in *. congruence.
Qed.

(** The rows of a node after the commit: those it keeps and those placed on it. *)
Lemma node_rows n b : (∃ a, a ∈ planned result ∧ al_NodeID a = n) →
  (stored allocs s' b ∧ al_NodeID b ≠ "" ∧ sameID (al_NodeID b) n ∧ AllocTerminal b = false) ↔
  ((stored allocs s b ∧ al_NodeID b ≠ "" ∧ sameID (al_NodeID b) n ∧ AllocTerminal b = false) ∧ al_ID b ∉ al_ID <$> plannedOn result n) ∨
  (∃ a, a ∈ default [] (pr_NodeAllocation result !! n) ∧ storedFor index (table allocs s) (table allocs s') (f a) b).
Proof.
  intros Hpn. split.
  - intros ((k & Hb) & Hne & Hn & Hl). destruct (planned_key k) as [(a & Ha & Ek)|Hno].
    + right. destruct (Hst a Ha) as [b' Hb']. pose proof (storedFor_fields _ _ _ _ _ Hb') as (_ & En & Ed & _ & k' & Ek' & Ht & _).
      unfold uuidKey in Ek, Ek'. rewrite f_id, Ek in Ek'. injection Ek' as <-. rewrite Hb in Ht. injection Ht as <-.
      rewrite f_node in En. rewrite f_desired in Ed. exists a. split; [|done].
      assert (al_NodeID a = n) as Ean.
      { destruct Hpn as (a0 & Ha0 & <-). apply (pb_names _ _ Hpb); [done|done|]. by rewrite <- En. }
      destruct (proj1 (elem_of_app _ _ _) (planned_on n a Ha Ean)) as [Hu|Hp]; [|done]. exfalso.
      enough (AllocTerminal b = true) by congruence. apply (stop_terminal a); [|done]. apply elem_of_flat.
      destruct (pr_NodeUpdate result !! n) as [l|] eqn:El; [by exists n, l|by apply not_elem_of_nil in Hu].
    + left. rewrite Hrest in Hb by done. split; [split_and!; [by exists k|done..]|].
      intros (a & Eid & Ha)%list_elem_of_fmap. apply (Hno a); [apply elem_of_planned; by exists n|].
      unfold uuidKey. rewrite <- Eid. by apply (row_key s).
  - intros [[((k & Hb) & Hne & Hn & Hl) Hid]|(a & Ha & Hb)].
    + split_and!; [exists k; by eapply kept_rows|done..].
    + pose proof (storedFor_fields _ _ _ _ _ Hb) as (_ & En & _ & _ & k & Ek & Ht & Hl). rewrite f_node in En.
      assert (a ∈ plannedOn result n) as Hon by (apply elem_of_app; by right).
      assert (a ∈ planned result) as Hpl by (apply elem_of_planned; by exists n).
      assert (a ∈ flat (pr_NodeAllocation result)) as Hfl.
      { apply elem_of_flat. destruct (pr_NodeAllocation result !! n) as [l|] eqn:El; [by exists n, l|by apply not_elem_of_nil in Ha]. }
      rewrite En, (pb_node _ _ Hpb n a Hon). destruct (pb_nodes _ _ Hpb a Hpl) as [Hne _].
      rewrite (pb_node _ _ Hpb n a Hon) in Hne. split_and!; [by exists k|done|done|]. apply Hl.
      * unfold AllocTerminal. rewrite f_desired, f_client. by apply (pb_live _ _ Hpb).
      * intros ex Hex. apply (pb_own _ _ Hpb a ex Hpl); [by exists k| |done]. unfold sameUUID. unfold uuidKey in Ek. rewrite f_id in Ek.
        rewrite Ek. by apply (row_key s).
Qed.
End node_after.

(** The committed allocations of a request, in the order of the request. *)
Lemma planned_perm plan result updates placements now :
  updates ≡ₚ vals (pr_NodeUpdate result) → placements ≡ₚ vals (pr_NodeAllocation result) →
  ap_Alloc (applyRequest plan result updates placements now) ≡ₚ stamp now <$> planned result.
Proof. intros Hu Hp. unfold planned, flat. cbn. by rewrite Hu, Hp. Qed.

(** What is stored for the placements of a node. *)
Lemma placed_rows index s s' result f n placed : placeable s result → (∀ a, al_ID (f a) = al_ID a) →
  (∀ a, a ∈ planned result → ∃ b, storedFor index (table allocs s) (table allocs s') (f a) b) →
  pr_NodeAllocation result !! n = Some placed →
  ∃ bs, Forall2 (fun a b => storedFor index (table allocs s) (table allocs s') (f a) b) placed bs ∧ NoDup bs.
Proof.
  intros Hpb Hf Hst Hn. destruct (Forall2_choice (fun a b => storedFor index (table allocs s) (table allocs s') (f a) b) placed) as [bs Hbs].
  { intros a Ha. apply Hst, elem_of_planned. exists n. unfold plannedOn. rewrite Hn. apply elem_of_app. by right. }
  exists bs. split; [done|]. apply (NoDup_fmap_1 uuidKey).
  assert (uuidKey <$> bs = uuidKey <$> placed) as ->.
  { clear Hn. induction Hbs as [|a b l bs Hab _ IH]; [done|]. cbn [fmap list_fmap]. rewrite IH.
    destruct (storedFor_fields _ _ _ _ _ Hab) as (E & _). assert (uuidKey b = uuidKey a) as ->; [|done]. unfold uuidKey. by rewrite E, Hf. }
  pose proof (pb_ids _ _ Hpb) as Hnd. unfold planned in Hnd. rewrite (flat_delete (pr_NodeAllocation result) n), Hn in Hnd. cbn in Hnd.
  rewrite !fmap_app in Hnd. by apply NoDup_app in Hnd as (_ & _ & (Hnd & _)%NoDup_app).
Qed.

Lemma stored_use index t t' job now placed bs :
  Forall2 (fun a b => storedFor index t t' (written job (stamp now a)) b) placed bs → Forall has_resources placed →
  (∀ a, a ∈ placed → AllocTerminal a = false ∧ ownUse a) → Forall2 sameUse bs placed.
Proof.
  intros Hbs Hres Hown. induction Hbs as [|a b l bs Hab _ IH]; [constructor|]. apply Forall_cons in Hres as [Ha Hres].
  constructor; [|apply IH; [done|]; intros x Hx; apply Hown; by right].
  destruct (storedFor_fields _ _ _ _ _ Hab) as (_ & _ & _ & [Hd Ht] & _).
  destruct (written_fields job now a) as (_ & _ & _ & _ & Hw). destruct (Hw Ha (proj2 (Hown a ltac:(left)))) as [Hd' Ht'].
  split; [intros d; by rewrite Hd|congruence].
Qed.

Lemma placed_ids index t t' job now placed bs :
  Forall2 (fun a b => storedFor index t t' (written job (stamp now a)) b) placed bs → al_ID <$> bs = al_ID <$> placed.
Proof.
  induction 1 as [|a b l bs Hab _ IH]; [done|]. cbn. rewrite IH. f_equal. destruct (storedFor_fields _ _ _ _ _ Hab) as (-> & _).
  apply (written_fields job now a).
Qed.

(** The rows that the store has for the node. *)
Lemma rows_perm index s s' result f n placed existing l bs :
  store_ok s → placeable s result → (∀ a, al_ID (f a) = al_ID a ∧ al_NodeID (f a) = al_NodeID a ∧
    al_DesiredStatus (f a) = al_DesiredStatus a ∧ al_ClientStatus (f a) = al_ClientStatus a) →
  (∀ a, a ∈ planned result → ∃ b, storedFor index (table allocs s) (table allocs s') (f a) b) →
  (∀ k, (∀ a, a ∈ planned result → uuidKey a ≠ inr k) → table allocs s' !! k = table allocs s !! k) →
  pr_NodeAllocation result !! n = Some placed → (∃ a, a ∈ planned result ∧ al_NodeID a = n) →
  NoDup existing → (∀ a, a ∈ existing ↔ stored allocs s a ∧ al_NodeID a ≠ "" ∧ sameID (al_NodeID a) n ∧ AllocTerminal a = false) →
  NoDup l → (∀ a, a ∈ l ↔ stored allocs s' a ∧ al_NodeID a ≠ "" ∧ sameID (al_NodeID a) n ∧ AllocTerminal a = false) →
  Forall2 (fun a b => storedFor index (table allocs s) (table allocs s') (f a) b) placed bs → NoDup bs →
  l ≡ₚ filter (fun a => al_ID a ∉ al_ID <$> plannedOn result n) existing ++ bs.
Proof.
  intros Hs Hpb Hf Hst Hrest Hn Hpn Hnd0 Hl0 Hnd Hl Hbs Hndb. apply NoDup_Permutation; [done| |].
  - apply NoDup_app. split_and!; [by apply NoDup_filter| |done]. intros b [Hid _]%list_elem_of_filter [i Hi]%list_elem_of_lookup. apply Hid.
    destruct (Forall2_lookup_r _ _ _ _ _ Hbs Hi) as (a & Ha & Hab). destruct (storedFor_fields _ _ _ _ _ Hab) as (-> & _).
    rewrite (proj1 (Hf a)). apply list_elem_of_fmap_2. unfold plannedOn. rewrite Hn. apply elem_of_app. right. by eapply list_elem_of_lookup_2.
  - intros b. rewrite Hl, (node_rows index s s' result f Hs Hpb) by (done || apply Hf).
    rewrite elem_of_app, list_elem_of_filter, Hl0, Hn. cbn [default]. split.
    + intros [[Hb Hid]|(a & [i Hi]%list_elem_of_lookup & Hab)]; [by left|right].
      destruct (Forall2_lookup_l _ _ _ _ _ Hbs Hi) as (b' & Hb' & Hab').
      destruct (storedFor_fields _ _ _ _ _ Hab) as (_ & _ & _ & _ & k & Ek & Ht & _).
      destruct (storedFor_fields _ _ _ _ _ Hab') as (_ & _ & _ & _ & k' & Ek' & Ht' & _).
      assert (b = b') as -> by congruence. by eapply list_elem_of_lookup_2.
    + intros [[Hid Hb]|[i Hi]%list_elem_of_lookup]; [by left|right].
      destruct (Forall2_lookup_r _ _ _ _ _ Hbs Hi) as (a & Ha & Hab). exists a. split; [by eapply list_elem_of_lookup_2|done].
Qed.

(** What writing the result leaves in the table of allocations. *)
Lemma commit_effect plan result updates placements now index s s' (f := fun a => written (pl_Job plan) (stamp now a)) :
  store_ok s → placeable s result → optional (properRow deploymentSchema) (pr_Deployment result) →
  updates ≡ₚ vals (pr_NodeUpdate result) → placements ≡ₚ vals (pr_NodeAllocation result) →
  UpsertPlanResults index (applyRequest plan result updates placements now) s = (inr tt, s') →
  store_ok s' ∧ (∀ a, a ∈ planned result → ∃ b, storedFor index (table allocs s) (table allocs s') (f a) b) ∧
  (∀ k, (∀ a, a ∈ planned result → uuidKey a ≠ inr k) → table allocs s' !! k = table allocs s !! k).
Proof.
  intros Hs Hpb Hdep Hu Hpl E. set (req := applyRequest plan result updates placements now) in *.
  pose proof (planned_perm plan result updates placements now Hu Hpl : ap_Alloc req ≡ₚ _) as Hperm.
  assert (∀ a, uuidKey (stamp now a) = uuidKey a) as Hk1 by (intros a; unfold stamp; by case_match).
  assert (∀ a, uuidKey (written (ap_Job req) a) = uuidKey a) as Hk2 by (intros a; unfold uuidKey; by rewrite (proj1 (written_ids _ _))).
  assert (NoDup (uuidKey <$> ap_Alloc req)) as Hnd.
  { rewrite Hperm, <- list_fmap_compose, (list_fmap_ext _ uuidKey) by (intros; apply Hk1). apply (pb_ids _ _ Hpb). }
  destruct (UpsertPlanResults_effect index req s s' Hs) as (Hs' & out & Hw); [|done|done|done|].
  { rewrite Hperm. apply Forall_fmap. eapply Forall_impl; [apply (pb_proper _ _ Hpb)|]. intros a Ha. unfold compose, stamp. by case_match. }
  destruct (writes_distinct _ _ _ _ _ Hw) as [Hst Hrest].
  { by rewrite <- list_fmap_compose, (list_fmap_ext _ uuidKey) by (intros; apply Hk2). }
  specialize (Hst (table allocs s) (fun k _ => eq_refl)). split_and!; [done| |].
  - intros a Ha. assert (f a ∈ written (ap_Job req) <$> ap_Alloc req) as [i Hi]%list_elem_of_lookup.
    { apply (list_elem_of_fmap_2 (written (ap_Job req))). rewrite Hperm. by apply list_elem_of_fmap_2. }
    destruct (Forall2_lookup_l _ _ _ _ _ Hst Hi) as (b & _ & Hb). by exists b.
  - intros k Hk. apply Hrest. rewrite <- list_fmap_compose, (list_fmap_ext _ uuidKey) by (intros; apply Hk2).
    rewrite Hperm, <- list_fmap_compose, (list_fmap_ext _ uuidKey) by (intros; apply Hk1).
    intros (a & Ea & Ha)%list_elem_of_fmap. by apply (Hk a Ha).
Qed.

(** C3. The result of a plan that is checked against the store and then written to it
    overcommits no node: the allocations that the store lists as live on a node with
    placements are the ones it kept and the ones placed, and together they fit on the
    node. *)
Theorem committed_plan_fits pool plan order result updates placements now index s s' :
  store_ok s → (∀ n, pool_ok (pool n)) → order ≡ₚ planNodes plan →
  evaluatePlan rangeTasks pool (snapshotOf s) plan order = Some (result, []) →
  placeable s result → optional (properRow deploymentSchema) (pr_Deployment result) →
  updates ≡ₚ vals (pr_NodeUpdate result) → placements ≡ₚ vals (pr_NodeAllocation result) →
  UpsertPlanResults index (applyRequest plan result updates placements now) s = (inr tt, s') →
  ∀ nodeID placed, pr_NodeAllocation result !! nodeID = Some placed → placed ≠ [] →
  ∃ node l, NodeByID s nodeID = inr (Some node) ∧ NodeReady node = true ∧ AllocsByNodeTerminal s' nodeID false = inr l ∧
    (∀ a, a ∈ placed → al_ID a ∈ al_ID <$> l) ∧ (in_range node l → fits node l).
Proof.
  intros Hs Hpool Hord Hev Hpb Hdep Hu Hpl E nodeID placed Hn Hne.
  destruct (commit_effect plan result updates placements now index s s' Hs Hpb Hdep Hu Hpl E) as (Hs' & Hst & Hrest).
  set (f := fun a => written (pl_Job plan) (stamp now a)) in *.
  destruct (placed_node rangeTasks pool rangeTasks_perm Hpool (snapshotOf s) plan order Hord result nodeID placed Hev Hn)
    as (node & existing & Hnode & Hready & Hex & _ & Egone & Hres & Hfit).
  rewrite <- Egone in Hres, Hfit. replace (default [] (pr_NodeUpdate result !! nodeID) ++ placed) with (plannedOn result nodeID) in Hres, Hfit
    by (unfold plannedOn; by rewrite Hn).
  assert (∀ a, a ∈ placed → a ∈ plannedOn result nodeID) as Hon by (intros a Ha; unfold plannedOn; rewrite Hn; apply elem_of_app; by right).
  destruct placed as [|a0 placed0]; [done|]. set (placed := a0 :: placed0) in *. pose proof (Hon a0 ltac:(left)) as Ha0.
  assert (a0 ∈ planned result) as Hpl0 by (apply elem_of_planned; by exists nodeID).
  pose proof (pb_node _ _ Hpb nodeID a0 Ha0) as En0. destruct (pb_nodes _ _ Hpb a0 Hpl0) as [_ Hprop]. rewrite En0 in Hprop.
  destruct (placed_rows index s s' result f nodeID placed Hpb) as (bs & Hbs & Hndb); [intros a; apply (written_fields (pl_Job plan) now a)|done|done|].
  destruct (allocs_by_node s' nodeID false Hs' Hprop) as (l & El & Hndl & Hl).
  destruct (allocs_by_node s nodeID false Hs Hprop) as (l0 & El0 & Hnd0 & Hl0). cbn in Hex. rewrite El0 in Hex. injection Hex as ->.
  cbn in Hnode. destruct (NodeByID s nodeID) as [|o]; [done|]. injection Hnode as ->.
  assert (l ≡ₚ filter (fun a => al_ID a ∉ al_ID <$> plannedOn result nodeID) existing ++ bs) as Hp.
  { apply (rows_perm index s s' result f nodeID placed); try done; [|by exists a0].
    intros a. destruct (written_fields (pl_Job plan) now a) as (? & ? & ? & ? & _). done. }
  assert (Forall2 sameUse (filter (fun a => al_ID a ∉ al_ID <$> plannedOn result nodeID) existing ++ bs)
            (filter (fun a => al_ID a ∉ al_ID <$> plannedOn result nodeID) existing ++ placed)) as Hsame.
  { apply Forall2_app; [by apply Forall_Forall2_diag, Forall_true|]. apply Forall_app in Hres as [_ Hres].
    eapply stored_use; [exact Hbs|exact Hres|]. intros a Ha. apply (pb_live _ _ Hpb), elem_of_flat. by exists nodeID, placed. }
  exists node, l. split_and!; [done|done|done| |].
  - intros a Ha. rewrite Hp, fmap_app, elem_of_app. right. rewrite (placed_ids _ _ _ _ _ _ _ Hbs). by apply list_elem_of_fmap_2.
  - rewrite Hp, (fits_sameUse node _ _ Hsame), (in_range_sameUse node _ _ Hsame). exact Hfit.
Qed.
End plan.

(** ** A plan at a small store

    A node runs one allocation; the plan stops it and places another one. *)

Definition nodeF1 : Node :=
  mkNode (idOf "f1") "" "dc1" "f1" "" false ∅ (mkResources 4000 8192 10000 100 []) None ∅ ∅ "" "" false NodeStatusReady "" 0 1 1.
Definition onF1 (n : string) (cpu : Z) : Allocation :=
  (webAlloc n AllocDesiredStatusRun AllocClientStatusPending) <| al_NodeID := idOf "f1" |>
    <| al_TaskResources := Some {["web" := mkResources cpu 256 0 0 []]} |>.
Definition storeF1 : StateStore :=
  run [(1, OpUpsertNode nodeF1); (2, OpUpsertJob web); (3, OpUpsertAllocs [onF1 "a1" 3000])].
Definition planF1 : Plan :=
  zeroPlan <| pl_Job := Some web |> <| pl_NodeUpdate := {[idOf "f1" := [(onF1 "a1" 3000) <| al_DesiredStatus := AllocDesiredStatusStop |>]]} |>
    <| pl_NodeAllocation := {[idOf "f1" := [onF1 "a2" 2000]]} |>.
Definition resultF1 : PlanResult := mkPlanResult (pl_NodeUpdate planF1) (pl_NodeAllocation planF1) None [] 0 0.

Lemma storeF1_ok : store_ok storeF1.
Proof.
  apply run_ok. apply Forall_cons_2; [proper_rows|]. apply Forall_cons_2; [apply web_ok|]. apply Forall_cons_2; [|constructor].
  constructor; [proper_rows|constructor].
Qed.

Lemma storeF1_rows ex : stored allocs storeF1 ex → al_ID ex = idOf "a1" ∧ al_NodeID ex = idOf "f1".
Proof.
  intros (k & Hk%elem_of_map_to_list). vm_compute in Hk. apply elem_of_cons in Hk as [E|E]; [|by apply not_elem_of_nil in E].
  injection E as -> ->. by split.
Qed.

Lemma resultF1_placeable : placeable storeF1 resultF1.
Proof.
  set (stop := (onF1 "a1" 3000) <| al_DesiredStatus := AllocDesiredStatusStop |>).
  assert (planned resultF1 = [stop; onF1 "a2" 2000]) as E by (vm_compute; reflexivity).
  assert (flat (pr_NodeUpdate resultF1) = [stop] ∧ flat (pr_NodeAllocation resultF1) = [onF1 "a2" 2000]) as [Eu Ep] by (split; vm_compute; reflexivity).
  assert (∀ a, a ∈ planned resultF1 → a = stop ∨ a = onF1 "a2" 2000) as Hin.
  { intros a. rewrite E, !elem_of_cons, elem_of_nil. tauto. }
  assert (∀ a, a ∈ planned resultF1 → al_NodeID a = idOf "f1") as Hnode by (intros a [->| ->]%Hin; done).
  split.
  - rewrite E. constructor; [proper_rows|constructor; [proper_rows|constructor]].
  - rewrite E. repeat constructor; [intros Hx; vm_compute in Hx; apply elem_of_cons in Hx as [Hx|Hx]; [discriminate|by apply not_elem_of_nil in Hx]|].
    by intros Hx%not_elem_of_nil.
  - intros n a Ha. rewrite (Hnode a) by (apply elem_of_planned; by exists n). destruct (decide (n = idOf "f1")) as [->|Hne]; [done|exfalso].
    assert (pr_NodeUpdate resultF1 !! n = None ∧ pr_NodeAllocation resultF1 !! n = None) as [En Ea] by (by split; apply lookup_singleton_ne).
    unfold plannedOn in Ha. rewrite En, Ea in Ha. by apply not_elem_of_nil in Ha.
  - intros a b Ha Hb _. by rewrite !Hnode.
  - intros a Ha. rewrite Hnode by done. split; [done|decided].
  - rewrite Eu. intros a ->%list_elem_of_singleton. by left.
  - rewrite Ep. intros a ->%list_elem_of_singleton. split; [done|]. intros []; vm_compute; split; congruence.
  - intros a ex Ha Hex Hid. destruct (storeF1_rows ex Hex) as [E1 E2]. rewrite E1, E2 in *. rewrite (Hnode a Ha).
    destruct (Hin a Ha) as [->| ->]; [|vm_compute in Hid; discriminate]. split_and!; [done|done|]. rewrite Ep.
    intros Hx%list_elem_of_singleton. vm_compute in Hx. discriminate.
Qed.

Lemma committed_plan_fits_witness :
  let s' := (UpsertPlanResults 4 (applyRequest planF1 resultF1 (vals (pr_NodeUpdate resultF1)) (vals (pr_NodeAllocation resultF1)) 7) storeF1).2 in
  ∃ l, AllocsByNodeTerminal s' (idOf "f1") false = inr l ∧ (al_ID <$> l) = [idOf "a2"] ∧ (in_range nodeF1 l → fits nodeF1 l).
Proof.
  intros s'.
  destruct (committed_plan_fits (fun _ => "error") (fun _ => []) planF1 [idOf "f1"] resultF1 (vals (pr_NodeUpdate resultF1))
    (vals (pr_NodeAllocation resultF1)) 7 4 storeF1 s') with (nodeID := idOf "f1") (placed := [onF1 "a2" 2000])
    as (node & l & Hn & _ & Hl & _ & Hfit).
  - apply storeF1_ok.
  - intros n. constructor.
  - vm_compute. reflexivity.
  - vm_compute. reflexivity.
  - apply resultF1_placeable.
  - exact I.
  - reflexivity.
  - reflexivity.
  - vm_compute. reflexivity.
  - vm_compute. reflexivity.
  - discriminate.
  - exists l. split_and!; [exact Hl| |].
    + assert (El := Hl). vm_compute in El. injection El as <-. vm_compute. reflexivity.
    + assert (En := Hn). vm_compute in En. injection En as <-. exact Hfit.
Defined.
