(* ===== verification/TimeTable.v ===== *)
(** * The time table (src/nomad/timetable.go)

    It relates Raft indexes to times, so that garbage collection can tell which objects
    are old.  A time is the number of nanoseconds since Go's zero time; the difference of
    two times is a saturated 64-bit duration.  [None] is the panic on an empty slice. *)

From stdpp Require Import base list sorting.
From Stdlib Require Import ZArith Lia.
From S2P Require Import Prelude.
Open Scope list_scope.
Open Scope Z_scope.

(** ** Go's standard library *)

(** [Time.Sub]. *)
Definition Sub (t u : Z) : Z := Z.max (- 2 ^ 63) (Z.min (2 ^ 63 - 1) (t - u)).

(** [sort.Search]; the interval shrinks in every turn. *)
Fixpoint searchLoop (fuel : nat) (f : nat → bool) (i j : nat) : nat :=
  match fuel with
  | O => i
  | S fuel =>
      if (i <? j)%nat then
        let h := (i + (j - i) / 2)%nat in
        if negb (f h) then searchLoop fuel f (S h) j else searchLoop fuel f i h
      else i
  end.
Definition Search (n : nat) (f : nat → bool) : nat := searchLoop n f 0 n.

(** ** The table *)

Record TimeTableEntry := mkTimeTableEntry { te_Index : Z; te_Time : Z }.
Definition zeroEntry : TimeTableEntry := mkTimeTableEntry 0 0.

(** [tb_cap] is the capacity of the slice. *)
Record TimeTable := mkTimeTable {
  tb_granularity : Z;
  tb_limit : Z;
  tb_cap : nat;
  tb_table : list TimeTableEntry
}.
#[export] Instance eta_TimeTable : Eta TimeTable := fun r =>
  mkTimeTable (tb_granularity r) (tb_limit r) (tb_cap r) (tb_table r).

Definition NewTimeTable (granularity limit : Z) : option TimeTable :=
  if granularity =? 0 then None
  else
    let size := limit ÷ granularity in
    let size := if size <? 1 then 1 else size in
    Some (mkTimeTable granularity limit (Z.to_nat size) [zeroEntry]).

Definition Witness (index when : Z) (t : TimeTable) : option TimeTable :=
  match tb_table t with
  | [] => None
  | head :: _ =>
      if index <? te_Index head then Some t
      else if Sub when (te_Time head) <? tb_granularity t then Some t
      else
        let table := if (length (tb_table t) <? tb_cap t)%nat then tb_table t ++ [zeroEntry] else tb_table t in
        Some (t <| tb_table := mkTimeTableEntry index when :: take (length table - 1) table |>)
  end.

(** The encoded value. *)
Definition Serialize (t : TimeTable) : list TimeTableEntry := tb_table t.

(** Witnesses the decoded entries from the oldest to the newest. *)
Fixpoint witnessAll (entries : list TimeTableEntry) (t : TimeTable) : option TimeTable :=
  match entries with
  | [] => Some t
  | e :: entries => t ← Witness (te_Index e) (te_Time e) t; witnessAll entries t
  end.
Definition Deserialize (table : list TimeTableEntry) (t : TimeTable) : option TimeTable := witnessAll (reverse table) t.

Definition NearestIndex (when : Z) (t : TimeTable) : Z :=
  let n := length (tb_table t) in
  let idx := Search n (fun i => match tb_table t !! i with Some e => te_Time e <=? when | None => false end) in
  from_option te_Index 0 (tb_table t !! idx).

Definition NearestTime (index : Z) (t : TimeTable) : Z :=
  let n := length (tb_table t) in
  let idx := Search n (fun i => match tb_table t !! i with Some e => te_Index e <=? index | None => false end) in
  from_option te_Time 0 (tb_table t !! idx).

(** ** Binary search finds the first index *)

Lemma searchLoop_spec f n fuel : ∀ i j, (j - i ≤ fuel)%nat → (i ≤ j ≤ n)%nat →
  (∀ a b, (a ≤ b < n)%nat → f a = true → f b = true) → (∀ a, (a < i)%nat → f a = false) →
  let r := searchLoop fuel f i j in (i ≤ r ≤ j)%nat ∧ (∀ a, (a < r)%nat → f a = false) ∧ (r = j ∨ f r = true).
Proof.
  induction fuel as [|fuel IH]; intros i j Hf Hij Hmono Hlo; cbn [searchLoop].
  { split; [lia|]. split; [done|]. left. lia. }
  destruct (Nat.ltb_spec i j) as [Hlt|]; [|split; [lia|split; [done|left; lia]]].
  pose proof (Nat.div_lt (j - i) 2 ltac:(lia) ltac:(lia)). set (h := (i + (j - i) / 2)%nat) in *.
  assert (i ≤ h < j)%nat as Hh by lia. destruct (f h) eqn:Efh; cbn [negb].
  - destruct (IH i h) as (R1 & R2 & R3); [lia|lia|done|done|].
    split; [lia|]. split; [done|]. destruct R3 as [->|R3]; by right.
  - destruct (IH (S h) j) as (R1 & R2 & R3); [lia|lia|done| |].
    + intros a Ha. destruct (f a) eqn:Ea; [|done]. by rewrite (Hmono a h ltac:(lia) Ea) in Efh.
    + split; [lia|]. by split.
Qed.

Lemma Search_spec n f : (∀ a b, (a ≤ b < n)%nat → f a = true → f b = true) →
  (Search n f ≤ n)%nat ∧ (∀ a, (a < Search n f)%nat → f a = false) ∧ (Search n f = n ∨ f (Search n f) = true).
Proof.
  intros Hmono. destruct (searchLoop_spec f n n 0 n) as (R1 & R2 & R3); [lia|lia|done|intros a; lia|]. fold (Search n f) in *.
  split; [lia|]. by split.
Qed.

(** ** Invariant *)

(** [e] was added after [e'], at least the granularity later. *)
Definition after (g : Z) (e e' : TimeTableEntry) : Prop := te_Index e' ≤ te_Index e ∧ te_Time e' + g ≤ te_Time e.

(** The entries are ordered, and the zero entry of a new table is the oldest until it is
    dropped, which it is when the table is full. *)
Record table_ok (t : TimeTable) : Prop := {
  to_granularity : 0 < tb_granularity t < 2 ^ 63;
  to_length : (0 < length (tb_table t) ≤ tb_cap t)%nat;
  to_sorted : StronglySorted (after (tb_granularity t)) (tb_table t);
  to_zero : last (tb_table t) = Some zeroEntry ∨
            length (tb_table t) = tb_cap t ∧ Forall (fun e => after (tb_granularity t) e zeroEntry) (tb_table t)
}.

Lemma Sub_ltb t u g : 0 < g < 2 ^ 63 → (Sub t u <? g) = (t - u <? g).
Proof.
  intros Hg. unfold Sub. destruct (Z.ltb_spec (t - u) g).
  - apply Z.ltb_lt. lia.
  - apply Z.ltb_ge. lia.
Qed.

Lemma new_table g limit : 0 < g < 2 ^ 63 → ∃ t, NewTimeTable g limit = Some t ∧ table_ok t ∧ tb_granularity t = g ∧
  tb_limit t = limit ∧ tb_table t = [zeroEntry] ∧ limit - g < Z.of_nat (tb_cap t) * g.
Proof.
  intros Hg. unfold NewTimeTable. rewrite (proj2 (Z.eqb_neq _ _)) by lia. eexists. split; [reflexivity|]. cbn.
  assert (0 < Z.to_nat (if limit ÷ g <? 1 then 1 else limit ÷ g)%Z)%nat as Hc by (destruct (Z.ltb_spec (limit ÷ g) 1); lia).
  split; [split; cbn; [done|lia|by repeat constructor|by left]|]. split_and!; try done.
  destruct (Z.ltb_spec (limit ÷ g) 1) as [Hs|Hs].
  - pose proof (Z.quot_rem limit g ltac:(lia)). pose proof (Z.rem_bound_abs limit g ltac:(lia)). nia.
  - rewrite Z2Nat.id by lia. pose proof (Z.quot_rem limit g ltac:(lia)). pose proof (Z.rem_bound_abs limit g ltac:(lia)). nia.
Qed.

(** ** Witnessing *)

(** The table with a new first entry. *)
Definition recorded (e : TimeTableEntry) (t : TimeTable) : list TimeTableEntry :=
  e :: (if (length (tb_table t) <? tb_cap t)%nat then tb_table t else removelast (tb_table t)).

Lemma Witness_eq index when t : table_ok t →
  ∃ head rest, tb_table t = head :: rest ∧
    Witness index when t = Some (if (index <? te_Index head) || (when - te_Time head <? tb_granularity t) then t
                                 else t <| tb_table := recorded (mkTimeTableEntry index when) t |>).
Proof.
  intros Hok. pose proof (to_length t Hok) as Hl. unfold Witness, recorded.
  destruct (tb_table t) as [|head rest] eqn:E; [simpl in Hl; lia|]. exists head, rest. split; [done|].
  rewrite Sub_ltb by apply Hok. destruct (index <? te_Index head); [done|]. destruct (_ <? tb_granularity t); [done|]. cbn [orb].
  do 3 f_equal. destruct (Nat.ltb_spec (length (head :: rest)) (tb_cap t)).
  - rewrite length_app, Nat.add_sub. by rewrite take_app_length.
  - by rewrite removelast_firstn_len, Nat.sub_1_r.
Qed.

Lemma snoc_last {A} (l : list A) : l ≠ [] → ∃ x, l = removelast l ++ [x] ∧ last l = Some x.
Proof. intros Hl. destruct l as [|x l _] using rev_ind; [done|]. exists x. rewrite removelast_last. by rewrite last_snoc. Qed.

Lemma recorded_ok t e head rest : table_ok t → tb_table t = head :: rest → 0 ≤ te_Index e → after (tb_granularity t) e head →
  table_ok (t <| tb_table := recorded e t |>).
Proof.
  intros [Hg Hl Hs Hz] Et Hi He. assert (Forall (after (tb_granularity t) e) (tb_table t)) as Hall.
  { rewrite Et in Hs |- *. apply StronglySorted_cons in Hs as [Hh _]. constructor; [done|].
    eapply Forall_impl; [exact Hh|]. intros x [? ?]. destruct He. split; lia. }
  destruct (snoc_last (tb_table t)) as (x & Ex & El); [by rewrite Et|].
  assert (after (tb_granularity t) e zeroEntry) as Hez.
  { destruct Hz as [Hz|[_ Hz]].
    - rewrite Forall_forall in Hall. apply Hall. rewrite El in Hz. injection Hz as <-. rewrite Ex. solve_in.
    - rewrite Et in Hz. apply Forall_cons in Hz as [[? ?] _]. destruct He. simpl in *. split; simpl; lia. }
  unfold recorded. split; cbn [tb_table tb_granularity tb_cap upd_field].
  - done.
  - simpl. destruct (Nat.ltb_spec (length (tb_table t)) (tb_cap t)); [lia|].
    apply (f_equal length) in Ex. rewrite length_app in Ex. simpl in Ex. lia.
  - simpl. destruct (Nat.ltb_spec (length (tb_table t)) (tb_cap t)); apply StronglySorted_cons; [done|].
    rewrite Ex in Hall, Hs. apply Forall_app in Hall as [? _]. by apply StronglySorted_app_1_l in Hs.
  - simpl. destruct (Nat.ltb_spec (length (tb_table t)) (tb_cap t)) as [Hlt|Hge].
    + left. destruct Hz as [Hz|[? _]]; [|lia]. rewrite Et in *. done.
    + right. split; [apply (f_equal length) in Ex; rewrite length_app in Ex; simpl in Ex; lia|]. constructor; [done|].
      destruct Hz as [Hz|[_ Hz]].
      * rewrite El in Hz. injection Hz as ->. rewrite Ex in Hs. apply Forall_forall. intros y Hy.
        apply (StronglySorted_app_1_elem_of _ _ _ _ _ Hs Hy). solve_in.
      * rewrite Ex in Hz. by apply Forall_app in Hz as [? _].
Qed.

Lemma Witness_ok index when t : table_ok t → 0 ≤ index → ∃ t', Witness index when t = Some t' ∧ table_ok t' ∧
  tb_granularity t' = tb_granularity t ∧ tb_limit t' = tb_limit t ∧ tb_cap t' = tb_cap t.
Proof.
  intros Hok Hi. destruct (Witness_eq index when t Hok) as (head & rest & Et & ->). eexists. split; [reflexivity|].
  destruct (_ || _) eqn:E; [done|]. apply orb_false_iff in E as [E1%Z.ltb_ge E2%Z.ltb_ge].
  split; [|done]. by apply (recorded_ok t _ head rest); [..|split; simpl; lia].
Qed.

(** ** Queries *)

(** The search gives the newest entry with a property that holds from some entry on. *)
Lemma search_entry (f : TimeTableEntry → bool) (l : list TimeTableEntry) :
  (∀ i j e e', (i ≤ j)%nat → l !! i = Some e → l !! j = Some e' → f e = true → f e' = true) →
  let idx := Search (length l) (fun i => from_option f false (l !! i)) in
  match l !! idx with
  | Some e => f e = true ∧ ∀ i e', (i < idx)%nat → l !! i = Some e' → f e' = false
  | None => ∀ e, e ∈ l → f e = false
  end.
Proof.
  intros Hmono idx. destruct (Search_spec (length l) (fun i => from_option f false (l !! i))) as (R1 & R2 & R3).
  { intros a b Hab Ha. destruct (l !! a) as [e|] eqn:Ea; [|done]. destruct (lookup_lt_is_Some_2 l b ltac:(lia)) as [e' Eb].
    rewrite Eb. simpl in *. eapply (Hmono a b e e'); [lia|done..]. }
  fold idx in R1, R2, R3. destruct (l !! idx) as [e|] eqn:E.
  - split; [|intros i e' Hi Ei; specialize (R2 i Hi); by rewrite Ei in R2].
    destruct R3 as [R3|R3]; [apply lookup_lt_Some in E; lia|]. exact R3.
  - apply lookup_ge_None in E. intros e [i Ei]%list_elem_of_lookup. pose proof (lookup_lt_Some _ _ _ Ei).
    specialize (R2 i ltac:(lia)). by rewrite Ei in R2.
Qed.

Lemma sorted_later t i j e e' : table_ok t → (i ≤ j)%nat → tb_table t !! i = Some e → tb_table t !! j = Some e' →
  te_Index e' ≤ te_Index e ∧ te_Time e' ≤ te_Time e.
Proof.
  intros Hok Hij Hi Hj. pose proof (to_granularity t Hok). destruct (decide (i = j)) as [->|].
  { rewrite Hi in Hj. injection Hj as ->. done. }
  assert (after (tb_granularity t) e e') as [? ?]; [|lia].
  rewrite <- (take_drop_middle _ _ _ Hi) in Hj. pose proof (to_sorted t Hok) as Hs. rewrite <- (take_drop_middle _ _ _ Hi) in Hs.
  apply StronglySorted_app_1_r, StronglySorted_cons in Hs as [Hs _]. rewrite Forall_forall in Hs. apply Hs.
  pose proof (lookup_lt_Some _ _ _ Hi).
  rewrite lookup_app_r in Hj by (rewrite length_take; lia). rewrite length_take, Nat.min_l in Hj by lia.
  destruct (j - i)%nat as [|k] eqn:Ek; [lia|]. simpl in Hj. by eapply list_elem_of_lookup_2.
Qed.

(** [NearestIndex] is the index of the newest entry that is not after the time. *)
Lemma NearestIndex_spec when t : table_ok t →
  (∃ e, e ∈ tb_table t ∧ te_Time e ≤ when ∧ NearestIndex when t = te_Index e ∧
     ∀ e', e' ∈ tb_table t → te_Time e' ≤ when → te_Index e' ≤ te_Index e) ∨
  NearestIndex when t = 0 ∧ ∀ e, e ∈ tb_table t → when < te_Time e.
Proof.
  intros Hok. pose proof (search_entry (fun e => te_Time e <=? when) (tb_table t)) as Hs. cbv zeta in Hs. unfold NearestIndex. cbv zeta.
  change (fun i => match tb_table t !! i with Some e => te_Time e <=? when | None => false end)
    with (fun i => from_option (fun e => te_Time e <=? when) false (tb_table t !! i)).
  set (idx := Search _ _) in *. destruct (tb_table t !! idx) as [e|] eqn:E.
  - left. exists e. destruct Hs as [Ht Hb].
    { intros i j x y Hij Hi Hj Hx%Z.leb_le. apply Z.leb_le. destruct (sorted_later t i j x y Hok Hij Hi Hj). lia. }
    split; [by eapply list_elem_of_lookup_2|]. split; [lia|]. split; [done|].
    intros e' [j Hj]%list_elem_of_lookup Ht'. destruct (decide (idx ≤ j)%nat) as [Hij|Hij].
    + by destruct (sorted_later t idx j e e' Hok Hij E Hj).
    + specialize (Hb j e' ltac:(lia) Hj). apply Z.leb_gt in Hb. lia.
  - right. split; [done|]. intros e He. destruct (Z.leb_spec (te_Time e) when) as [Hle|]; [|done]. exfalso.
    specialize (Hs ltac:(intros i j x y Hij Hi Hj Hx%Z.leb_le; apply Z.leb_le; destruct (sorted_later t i j x y Hok Hij Hi Hj); lia) e He).
    apply Z.leb_gt in Hs. lia.
Qed.

(** ** Histories *)

(** The table after the log entries with these indexes and times were applied, in order. *)
Definition replay (g limit : Z) (ws : list TimeTableEntry) : option TimeTable :=
  t ← NewTimeTable g limit; witnessAll ws t.

Lemma witnessAll_app ws ws' t : witnessAll (ws ++ ws') t = (witnessAll ws t ≫= witnessAll ws').
Proof.
  revert t. induction ws as [|e ws IH]; intros t; [done|]. cbn [app witnessAll].
  destruct (Witness _ _ t) as [t'|]; cbn [mbind option_bind]; [apply IH|done].
Qed.

Lemma witnessAll_ok ws : ∀ t, table_ok t → Forall (fun e => 0 ≤ te_Index e) ws →
  ∃ t', witnessAll ws t = Some t' ∧ table_ok t' ∧ tb_granularity t' = tb_granularity t ∧ tb_limit t' = tb_limit t ∧ tb_cap t' = tb_cap t.
Proof.
  induction ws as [|e ws IH]; intros t Hok Hw; cbn [witnessAll]; [by exists t|]. apply Forall_cons in Hw as [He Hw].
  destruct (Witness_ok (te_Index e) (te_Time e) t Hok He) as (t1 & -> & Hok1 & E1 & E2 & E3). cbn [mbind option_bind].
  destruct (IH t1 Hok1 Hw) as (t' & E & Hok' & F1 & F2 & F3). exists t'. split_and!; congruence.
Qed.

(** Raft indexes increase, and the clock does not go back. *)
Definition follows (e' e : TimeTableEntry) : Prop := te_Index e' < te_Index e ∧ te_Time e' ≤ te_Time e.
Definition inOrder (ws : list TimeTableEntry) : Prop := StronglySorted follows (zeroEntry :: ws).

Definition span (t : TimeTable) : Z := Z.of_nat (tb_cap t) * tb_granularity t.

(** Every entry is from the history; every log entry has an entry at most the granularity
    older, which is in the table or older than the table spans. *)
Record remembers (ws : list TimeTableEntry) (t : TimeTable) : Prop := {
  rm_ok : table_ok t;
  rm_entries : ∀ e, e ∈ tb_table t → e ∈ zeroEntry :: ws;
  rm_log : ∀ w, w ∈ zeroEntry :: ws → ∃ e, te_Index e ≤ te_Index w ∧ te_Time w - tb_granularity t < te_Time e ≤ te_Time w ∧
    e ∈ zeroEntry :: ws ∧ (e ∈ tb_table t ∨ ∃ h, head (tb_table t) = Some h ∧ te_Time e + span t ≤ te_Time h)
}.

Lemma sorted_span g l : ∀ h x, StronglySorted (after g) (h :: l) → last (h :: l) = Some x → te_Time x + Z.of_nat (length l) * g ≤ te_Time h.
Proof.
  induction l as [|y l IH]; intros h x Hs Hl; [injection Hl as ->; simpl; lia|].
  apply StronglySorted_cons in Hs as [Hh Hs]. apply Forall_cons in Hh as [[_ Hh] _]. specialize (IH y x Hs Hl). simpl length. lia.
Qed.

Lemma inOrder_snoc ws w e : inOrder (ws ++ [w]) → e ∈ zeroEntry :: ws → follows e w.
Proof. unfold inOrder. intros Ho He. eapply (StronglySorted_app_1_elem_of _ (zeroEntry :: ws) [w]); [exact Ho|done|solve_in]. Qed.

Lemma Witness_remembers ws w t : remembers ws t → inOrder (ws ++ [w]) →
  ∃ t', Witness (te_Index w) (te_Time w) t = Some t' ∧ remembers (ws ++ [w]) t' ∧
    tb_granularity t' = tb_granularity t ∧ tb_limit t' = tb_limit t ∧ tb_cap t' = tb_cap t.
Proof.
  intros [Hok Hents Hlog] Ho. destruct (Witness_eq (te_Index w) (te_Time w) t Hok) as (h & rest & Et & ->).
  assert (∀ e, e ∈ zeroEntry :: ws → e ∈ zeroEntry :: ws ++ [w]) as Hincl by (intros e; rewrite app_comm_cons; solve_in).
  assert (follows h w) as [Hi Ht] by (eapply inOrder_snoc; [done|]; apply Hents; rewrite Et; left).
  assert (0 ≤ te_Index w) as Hw by (destruct (inOrder_snoc ws w zeroEntry Ho ltac:(left)); simpl in *; lia).
  pose proof (to_granularity t Hok) as Hg. pose proof (to_length t Hok) as Hl. eexists. split; [reflexivity|].
  rewrite (proj2 (Z.ltb_ge _ _)) by lia. cbn [orb]. destruct (Z.ltb_spec (te_Time w - te_Time h) (tb_granularity t)) as [Hs|Hs].
  - split; [|done]. split; [done|intros e He; by apply Hincl, Hents|]. intros x. rewrite app_comm_cons, elem_of_app, list_elem_of_singleton.
    intros [Hx| ->].
    + destruct (Hlog x Hx) as (e & ? & ? & ? & ?). exists e. split_and!; try done; try lia. rewrite <- app_comm_cons. by apply Hincl.
    + exists h. split_and!; [lia..| |left; rewrite Et; left]. rewrite <- app_comm_cons. apply Hincl, Hents. rewrite Et. left.
  - split; [|done]. assert (table_ok (t <| tb_table := recorded w t |>)) as Hok'.
    { apply (recorded_ok t w h rest); try done. split; lia. }
    destruct w as [wi wt]. set (w := mkTimeTableEntry wi wt) in *. change (mkTimeTableEntry (te_Index w) (te_Time w)) with w.
    assert (∀ e, e ∈ tb_table t → e ∈ recorded w t ∨ te_Time e + span t ≤ te_Time w) as Hkeep.
    { intros e He. unfold recorded. destruct (Nat.ltb_spec (length (tb_table t)) (tb_cap t)); [left; solve_in|].
      destruct (snoc_last (tb_table t)) as (x & Ex & El); [by rewrite Et|]. rewrite Ex in He.
      apply elem_of_app in He as [He| ->%list_elem_of_singleton]; [left; solve_in|]. right. unfold span.
      pose proof (to_sorted t Hok) as Hsort. rewrite Et in Hsort, El. pose proof (sorted_span _ _ _ _ Hsort El) as Hspan.
      replace (tb_cap t) with (S (length rest)) by (rewrite Et in *; simpl in *; lia). rewrite Nat2Z.inj_succ, Z.mul_succ_l. lia. }
    split; [done| |].
    + intros e. simpl. unfold recorded. rewrite elem_of_cons. intros [->|He]; [right; solve_in|]. apply Hincl, Hents.
      destruct (_ <? _)%nat; [done|]. destruct (snoc_last (tb_table t)) as (x & -> & _); [by rewrite Et|]. solve_in.
    + change (span (t <| tb_table := recorded w t |>)) with (span t).
      change (tb_granularity (t <| tb_table := recorded w t |>)) with (tb_granularity t).
      change (tb_table (t <| tb_table := recorded w t |>)) with (recorded w t).
      intros x. rewrite app_comm_cons, elem_of_app, list_elem_of_singleton. intros [Hx| ->].
      * destruct (Hlog x Hx) as (e & He1 & He2 & He3 & He4). exists e. split_and!; try done; try lia.
        { rewrite <- app_comm_cons. by apply Hincl. }
        destruct He4 as [[He4|He4]%Hkeep|(h' & Eh & He4)]; [by left|right; by exists w|]. right. exists w. split; [done|].
        rewrite Et in Eh. injection Eh as ->. lia.
      * exists w. split_and!; [lia..|solve_in|left; left].
Qed.

Lemma replay_remembers g limit ws : 0 < g < 2 ^ 63 → inOrder ws →
  ∃ t, replay g limit ws = Some t ∧ remembers ws t ∧ tb_granularity t = g ∧ limit - g < span t.
Proof.
  intros Hg. unfold replay. destruct (new_table g limit Hg) as (t0 & -> & Hok & Eg & El & Et & Hc). cbn [mbind option_bind].
  assert (remembers [] t0) as H0.
  { split; [done|by rewrite Et|]. intros w ->%list_elem_of_singleton. exists zeroEntry. rewrite Et. split_and!; simpl; [lia..|left|left; left]. }
  assert (∀ ws' ws t, remembers ws t → inOrder (ws ++ ws') → ∃ t', witnessAll ws' t = Some t' ∧ remembers (ws ++ ws') t' ∧
    tb_granularity t' = tb_granularity t ∧ tb_cap t' = tb_cap t) as Hall.
  { induction ws' as [|w ws' IH]; intros ws1 t Ht Ho; cbn [witnessAll]; [rewrite app_nil_r; by exists t|].
    rewrite cons_middle, app_assoc in Ho |- *. destruct (Witness_remembers ws1 w t Ht) as (t1 & -> & Ht1 & E1 & _ & E3).
    { unfold inOrder in *. rewrite app_comm_cons in Ho. by apply StronglySorted_app_1_l in Ho. }
    cbn [mbind option_bind]. destruct (IH _ t1 Ht1 Ho) as (t' & ? & ? & ? & ?). exists t'. split_and!; congruence. }
  intros Ho. destruct (Hall ws [] t0 H0 Ho) as (t & E & Ht & E1 & E2). exists t. unfold span. rewrite E1, E2, Eg. done.
Qed.

Lemma inOrder_times ws x y : inOrder ws → x ∈ zeroEntry :: ws → y ∈ zeroEntry :: ws → te_Index x ≤ te_Index y → te_Time x ≤ te_Time y.
Proof.
  unfold inOrder. generalize (zeroEntry :: ws). intros l Hs [i Hi]%list_elem_of_lookup [j Hj]%list_elem_of_lookup Hle.
  destruct (Nat.lt_trichotomy i j) as [Hij|[->|Hij]].
  - rewrite <- (take_drop_middle _ _ _ Hj) in Hs. apply (StronglySorted_app_1_elem_of _ _ _ x y) in Hs as [_ ?]; [done| |left].
    apply list_elem_of_lookup. exists i. by rewrite lookup_take_lt.
  - rewrite Hi in Hj. by injection Hj as ->.
  - rewrite <- (take_drop_middle _ _ _ Hi) in Hs. apply (StronglySorted_app_1_elem_of _ _ _ y x) in Hs as [? _]; [lia| |left].
    apply list_elem_of_lookup. exists j. by rewrite lookup_take_lt.
Qed.

Lemma inOrder_zero ws w : inOrder ws → w ∈ ws → follows zeroEntry w.
Proof. intros [Hz _]%StronglySorted_cons Hw. rewrite Forall_forall in Hz. by apply Hz. Qed.

Lemma nearest_old ws when t w : remembers ws t → inOrder ws → w ∈ ws → te_Index w ≤ NearestIndex when t → te_Time w ≤ when.
Proof.
  intros [Hok Hents _] Ho Hw Hle. destruct (inOrder_zero ws w Ho Hw) as [Hz _]. simpl in Hz.
  destruct (NearestIndex_spec when t Hok) as [(e & He & Ht & En & _)|[En _]]; [|lia].
  rewrite En in Hle. pose proof (inOrder_times ws w e Ho ltac:(by right) (Hents e He) Hle). lia.
Qed.

(** ** Serialization *)

Lemma take_recorded e cap (l : list TimeTableEntry) : (0 < cap)%nat → l ≠ [] →
  e :: (if (length (take cap l) <? cap)%nat then take cap l else removelast (take cap l)) = take cap (e :: l).
Proof.
  intros Hc Hl. destruct cap as [|cap]; [lia|]. cbn [take]. f_equal. rewrite length_take.
  destruct (Nat.ltb_spec (Nat.min (S cap) (length l)) (S cap)); [rewrite !take_ge by lia; done|].
  rewrite removelast_firstn_len, length_take, take_take. f_equal. lia.
Qed.

Lemma rebuild t0 l : table_ok t0 → tb_table t0 = [zeroEntry] → StronglySorted (after (tb_granularity t0)) (l ++ [zeroEntry]) →
  witnessAll (reverse l) t0 = Some (t0 <| tb_table := take (tb_cap t0) (l ++ [zeroEntry]) |>).
Proof.
  intros Hok Et. pose proof (to_length t0 Hok) as Hl. rewrite Et in Hl. simpl in Hl.
  induction l as [|e l IH]; intros Hs.
  { rewrite take_ge by (simpl; lia). destruct t0. simpl in *. by subst. }
  cbn [app] in Hs. apply StronglySorted_cons in Hs as [He Hs]. specialize (IH Hs). rewrite reverse_cons, witnessAll_app, IH.
  cbn [mbind option_bind witnessAll]. destruct (witnessAll_ok (reverse l) t0 Hok) as (t & E & Hok1 & _).
  { apply Forall_reverse, Forall_forall. intros x Hx.
    apply (StronglySorted_app_1_elem_of _ _ _ _ zeroEntry Hs) in Hx as [? _]; [done|solve_in]. }
  rewrite IH in E. injection E as <-. set (T := l ++ [zeroEntry]) in *.
  destruct (Witness_eq (te_Index e) (te_Time e) _ Hok1) as (h & rest & Eh & ->). simpl in Eh. cbn [mbind option_bind].
  assert (after (tb_granularity t0) e h) as [Hi Ht].
  { rewrite Forall_forall in He. apply He. rewrite <- (take_drop (tb_cap t0) T), Eh. left. }
  cbn [tb_table tb_granularity upd_field]. rewrite (proj2 (Z.ltb_ge _ _)) by lia.
  replace (_ <? _) with false by (symmetry; apply Z.ltb_ge; simpl; lia). cbn [orb]. f_equal.
  destruct e as [ei et]. cbn [te_Index te_Time]. transitivity (t0 <| tb_table := recorded (mkTimeTableEntry ei et) (t0 <| tb_table := take (tb_cap t0) T |>) |>); [done|].
  f_equal. unfold recorded. simpl. rewrite take_recorded; [done|lia|unfold T; by destruct l].
Qed.

Lemma Deserialize_Serialize t0 t : table_ok t0 → tb_table t0 = [zeroEntry] → table_ok t →
  tb_granularity t = tb_granularity t0 → tb_limit t = tb_limit t0 → tb_cap t = tb_cap t0 → Deserialize (Serialize t) t0 = Some t.
Proof.
  intros Hok0 Et [Hg Hl Hs Hz] Eg El Ec. unfold Deserialize, Serialize.
  assert (t = t0 <| tb_table := tb_table t |>) as Et' by (destruct t, t0; simpl in *; subst; reflexivity). rewrite Et' at 2.
  rewrite Eg in Hs, Hz. rewrite Ec in Hl, Hz. clear Et'.
  destruct Hz as [Hz|[Hlen Hz]].
  - apply last_Some in Hz as [l E]. rewrite E in Hl, Hs |- *. rewrite reverse_snoc. cbn [witnessAll].
    destruct (Witness_eq 0 0 t0 Hok0) as (h & rest & Eh & Ew). rewrite Et in Eh. injection Eh as <- <-.
    change (te_Index zeroEntry) with 0. change (te_Time zeroEntry) with 0. rewrite Ew. cbn [te_Index te_Time zeroEntry].
    change (0 <? 0) with false. cbn [orb]. rewrite (proj2 (Z.ltb_lt _ _)) by lia. cbn [mbind option_bind]. rewrite rebuild by done. by rewrite take_ge by lia.
  - rewrite rebuild; [|done|done|].
    + by rewrite take_app_le, take_ge by lia.
    + apply StronglySorted_app_2; [|done|by repeat constructor]. intros x y Hx ->%list_elem_of_singleton.
      rewrite Forall_forall in Hz. by apply Hz.
Qed.

(** ** The property *)

(** C31. The time table tells ages.  After log entries with increasing indexes were applied
    at times that do not decrease, the index that [NearestIndex] gives for a time is that
    of no log entry applied after the time: whatever is written at or below this index is
    at least that old.  And it does not lag: for every entry applied at or before the time
    and within the limit of the table, the index is at least that of an entry applied less
    than the granularity before it. *)
Theorem time_table_ages g limit ws when :
  0 < g < 2 ^ 63 → inOrder ws →
  ∃ t, replay g limit ws = Some t ∧
    (∀ w, w ∈ ws → te_Index w ≤ NearestIndex when t → te_Time w ≤ when) ∧
    (∀ w, w ∈ ws → te_Time w ≤ when → (∀ w', w' ∈ ws → te_Time w' - te_Time w ≤ limit - 2 * g) →
       ∃ e, e ∈ zeroEntry :: ws ∧ te_Time w - g < te_Time e ≤ te_Time w ∧ te_Index e ≤ NearestIndex when t).
Proof.
  intros Hg Ho. destruct (replay_remembers g limit ws Hg Ho) as (t & E & Hr & Eg & Hspan). exists t. split; [done|].
  split; [intros w; by eapply nearest_old|]. intros w Hw Ht Hlim.
  destruct (rm_log ws t Hr w ltac:(by right)) as (e & Hi & He & Hin & Hwhere). exists e. rewrite Eg in He. split; [done|]. split; [done|].
  assert (0 ≤ te_Time e) as He0 by (apply (inOrder_times ws zeroEntry e Ho ltac:(left) Hin); apply elem_of_cons in Hin as [->|Hin];
    [done|by destruct (inOrder_zero ws e Ho Hin); simpl in *; lia]).
  destruct Hwhere as [Hwhere|(h & Eh & Hh)].
  - destruct (NearestIndex_spec when t (rm_ok ws t Hr)) as [(x & _ & _ & -> & Hx)|[_ Hx]]; [apply Hx; [done|lia]|].
    specialize (Hx e Hwhere). lia.
  - exfalso. assert (h ∈ zeroEntry :: ws) as Hhin by (apply (rm_entries ws t Hr); destruct (tb_table t); [done|injection Eh as ->; left]).
    apply elem_of_cons in Hhin as [->|Hhin].
    + pose proof (to_length t (rm_ok ws t Hr)). unfold span in *. rewrite Eg in *. simpl in Hh. nia.
    + specialize (Hlim h Hhin). lia.
Qed.

(** Three writes in seven minutes, with a granularity of five and a limit of fifteen. *)
Definition minutes (n : Z) : Z := n * 60 * 10 ^ 9.
Definition demoLog : list TimeTableEntry :=
  [mkTimeTableEntry 3 (minutes 10); mkTimeTableEntry 4 (minutes 12); mkTimeTableEntry 7 (minutes 17)].

Lemma time_table_ages_witness :
  ∃ t, replay (minutes 5) (minutes 15) demoLog = Some t ∧ NearestIndex (minutes 16) t = 3 ∧ NearestIndex (minutes 17) t = 7 ∧
    ∀ w, w ∈ demoLog → te_Index w ≤ NearestIndex (minutes 16) t → te_Time w ≤ minutes 16.
Proof.
  assert (inOrder demoLog) as Ho by (repeat constructor; vm_compute; discriminate).
  destruct (time_table_ages (minutes 5) (minutes 15) demoLog (minutes 16) ltac:(split; reflexivity) Ho) as (t & E & Hs & _).
  exists t. split; [exact E|]. assert (option_map (fun t => (NearestIndex (minutes 16) t, NearestIndex (minutes 17) t)) (replay (minutes 5) (minutes 15) demoLog)
    = Some (3, 7)) as Hv by (vm_compute; reflexivity).
  rewrite E in Hv. injection Hv as H1 H2. split; [exact H1|]. split; [exact H2|exact Hs].
Defined.
