(* ===== verification/Periodic.v ===== *)
(** * The dispatcher of periodic jobs (src/nomad/periodic.go)

    It tracks the periodic jobs on the leader, in a map and in a heap ordered by the next
    launch.  A time is the number of nanoseconds since Go's zero time, which is 0.  The
    cron expressions (a vendored package) and the time zones are arguments; the location
    of a periodic job is that of its time zone, and the launch times of a job are in its
    location.  The goroutine [run] is a loop of the steps that it takes: it waits for the
    launch that was next when it looked, until it is stopped or notified of a change.  The
    channels that stop the goroutine and wait for its end are left out, as are log lines. *)

From stdpp Require Import base gmap strings list pretty.
From Stdlib Require Import ZArith Lia Ascii.
From S2P Require Import Prelude GoText GoHeap Structs Resources Jobs Allocs Feasible MemDB.
Open Scope string_scope.
Open Scope list_scope.
Open Scope Z_scope.

(** ** Go's standard library *)

Definition unixEpoch : Z := 62135596800.
Definition second : Z := 10 ^ 9.
Definition TimeUnix (sec : Z) : Z := (sec + unixEpoch) * second.
(** [Time.Unix]. *)
Definition UnixOf (t : Z) : Z := t / second - unixEpoch.
Definition IsZero (t : Z) : bool := t =? 0.

(** [strconv.Atoi], with its error. *)
Definition ParseInt (s : string) : option Z :=
  let '(neg, digits) :=
    match s with
    | String "+"%char s => (false, s)
    | String "-"%char s => (true, s)
    | _ => (false, s)
    end in
  match digits with
  | EmptyString => None
  | _ =>
      match parseUint digits 0 with
      | inl _ => None
      | inr un =>
          if (neg : bool) then if 2 ^ 63 <? un then None else Some (- un)
          else if 2 ^ 63 <=? un then None else Some un
      end
  end.

(** [strings.LastIndex]. *)
Fixpoint LastIndex (s sep : string) : option nat :=
  let here := if HasPrefix s sep then Some O else None in
  match s with
  | EmptyString => here
  | String _ s' => match LastIndex s' sep with Some i => Some (S i) | None => here end
  end.

(** ** Periodic configurations (nomad/structs/structs.go) *)

Definition PeriodicSpecCron : string := "cron".
Definition PeriodicSpecTest : string := "_internal_test".
Definition PeriodicLaunchSuffix : string := "/periodic-".

(** [cronexpr.Parse], the next time that matches an expression in a location, and
    [time.LoadLocation]. *)
Class CronLib := {
  CronExpr : Type;
  Location : Type;
  UTC : Location;
  LoadLocation : string → option Location;
  ParseCron : string → option CronExpr;
  CronNext : CronExpr → Location → Z → Z
}.

(** The next match comes after the time, and is the zero time when there is none. *)
Class CronLaws `{CronLib} := cron_after : ∀ e loc t, CronNext e loc t = 0 ∨ t < CronNext e loc t.

Section config.
Context `{CronLib}.

Definition GetLocation (p : PeriodicConfig) : Location := default UTC (LoadLocation (pc_TimeZone p)).

(** [None] is a syntax error in one of the times. *)
Definition parseTimes (split : list string) : option (list Z) := mapM (fun s => TimeUnix <$> ParseInt s) split.

Definition PeriodicNext (p : PeriodicConfig) (fromTime : Z) : Z :=
  if bool_decide (pc_SpecType p = PeriodicSpecCron) then
    match ParseCron (pc_Spec p) with
    | Some e => CronNext e (GetLocation p) fromTime
    | None => 0
    end
  else if bool_decide (pc_SpecType p = PeriodicSpecTest) then
    let split := Split (pc_Spec p) "," in
    if bool_decide (split = [""]) then 0
    else
      match parseTimes split with
      | Some times => default 0 (snd <$> list_find (fun next => fromTime < next) times)
      | None => 0
      end
  else 0.
End config.

(** ** The heap *)

(** The field index of an entry is its position in the slice, which [Swap], [Push] and
    [Pop] keep up to date; the values of the map are the entries of the slice. *)
Record periodicJob := mkPeriodicJob { pq_job : Job; pq_next : Z }.
Record periodicHeap := mkPeriodicHeap { ph_index : gset string; ph_heap : list periodicJob }.
#[export] Instance eta_periodicHeap : Eta periodicHeap := fun r => mkPeriodicHeap (ph_index r) (ph_heap r).

Definition NewPeriodicHeap : periodicHeap := mkPeriodicHeap ∅ [].

(** Zero times are at the end. *)
Definition periodicLess (x y : periodicJob) : bool :=
  if IsZero (pq_next x) && IsZero (pq_next y) then false
  else if IsZero (pq_next x) then false
  else if IsZero (pq_next y) then true
  else pq_next x <? pq_next y.

Definition idOfEntry (p : periodicJob) : string := jb_ID (pq_job p).
Definition entryIndex (h : periodicHeap) (id : string) : option nat :=
  fst <$> list_find (fun p => idOfEntry p = id) (ph_heap h).

Definition heapPush (h : periodicHeap) (job : Job) (next : Z) : GoError + periodicHeap :=
  if bool_decide (jb_ID job ∈ ph_index h) then inl (Errorf "job %v already exists" [jb_ID job])
  else inr (mkPeriodicHeap ({[jb_ID job]} ∪ ph_index h) (push periodicLess (mkPeriodicJob job next) (ph_heap h))).

Definition heapPop (h : periodicHeap) : option periodicJob * periodicHeap :=
  match pop periodicLess (ph_heap h) with
  | Some (p, l) => (Some p, mkPeriodicHeap (ph_index h ∖ {[idOfEntry p]}) l)
  | None => (None, h)
  end.

Definition heapPeek (h : periodicHeap) : option periodicJob := head (ph_heap h).

(** [None] is the panic of an index out of range. *)
Definition heapUpdate (h : periodicHeap) (job : Job) (next : Z) : option (GoError + periodicHeap) :=
  if bool_decide (jb_ID job ∈ ph_index h) then
    i ← entryIndex h (jb_ID job);
    Some (inr (h <| ph_heap := fix_at periodicLess (<[i := mkPeriodicJob job next]> (ph_heap h)) i |>))
  else Some (inl (Errorf "heap doesn't contain job %v" [jb_ID job])).

Definition heapRemove (h : periodicHeap) (job : Job) : option (GoError + periodicHeap) :=
  if bool_decide (jb_ID job ∈ ph_index h) then
    i ← entryIndex h (jb_ID job);
    r ← remove periodicLess (ph_heap h) i;
    Some (inr (mkPeriodicHeap (ph_index h ∖ {[jb_ID job]}) r.2))
  else Some (inl (Errorf "heap doesn't contain job %v" [jb_ID job])).

(** ** The dispatcher *)

(** [pd_update] says that the channel of updates holds a notification. *)
Record PeriodicDispatch := mkPeriodicDispatch {
  pd_enabled : bool;
  pd_running : bool;
  pd_tracked : gmap string Job;
  pd_heap : periodicHeap;
  pd_update : bool
}.
#[export] Instance eta_PeriodicDispatch : Eta PeriodicDispatch := fun r =>
  mkPeriodicDispatch (pd_enabled r) (pd_running r) (pd_tracked r) (pd_heap r) (pd_update r).

Definition NewPeriodicDispatch : PeriodicDispatch := mkPeriodicDispatch false false ∅ NewPeriodicHeap false.

(** The server: it submits jobs and says whether a job has running children. *)
Class JobEvalDispatcher (W : Type) := {
  DispatchJob : W → Job → (GoError + Evaluation) * W;
  RunningChildren : W → Job → GoError + bool
}.

Implicit Types p : PeriodicDispatch.

Definition PeriodicFlush p : PeriodicDispatch :=
  p <| pd_update := false |> <| pd_tracked := ∅ |> <| pd_heap := NewPeriodicHeap |>.

Definition signalUpdate p : PeriodicDispatch := if pd_running p then p <| pd_update := true |> else p.

(** The dispatcher after an error of the heap is the one with the change that came before. *)
Definition removeLocked p (jobID : string) : option (option GoError * PeriodicDispatch) :=
  if negb (pd_enabled p) then Some (None, p)
  else
    match pd_tracked p !! jobID with
    | None => Some (None, p)
    | Some job =>
        let p := p <| pd_tracked ::= delete jobID |> in
        r ← heapRemove (pd_heap p) job;
        Some (match r with
              | inl err => (Some (wrapErr "failed to remove tracked job %v: %v" [jobID] err), p)
              | inr h => (None, signalUpdate (p <| pd_heap := h |>))
              end)
    end.
Definition Remove p (jobID : string) : option (option GoError * PeriodicDispatch) := removeLocked p jobID.

Section dispatcher.
Context `{CronLib}.

(** [now] is the time of the call. *)
Definition Add (now : Z) p (job : Job) : option (option GoError * PeriodicDispatch) :=
  if negb (pd_enabled p) then Some (None, p)
  else
    let tracked := pd_tracked p !! jb_ID job in
    match jb_Periodic job with
    | Some config =>
        if negb (pc_Enabled config) then
          if bool_decide (is_Some tracked) then r ← removeLocked p (jb_ID job); Some (None, r.2) else Some (None, p)
        else if IsParameterized job then Some (None, p)
        else
          let p := p <| pd_tracked ::= <[jb_ID job := job]> |> in
          let next := PeriodicNext config now in
          r ← (if bool_decide (is_Some tracked) then heapUpdate (pd_heap p) job next else Some (heapPush (pd_heap p) job next));
          Some (match r with
                | inl err => (Some (wrapErr (if bool_decide (is_Some tracked) then "failed to update job %v launch time: %v"
                                             else "failed to add job %v: %v") [jb_ID job] err), p)
                | inr h => (None, signalUpdate (p <| pd_heap := h |>))
                end)
    | None => if bool_decide (is_Some tracked) then r ← removeLocked p (jb_ID job); Some (None, r.2) else Some (None, p)
    end.

Definition nextLaunch p : option (Job * Z) :=
  match heapPeek (pd_heap p) with
  | Some e => Some (pq_job e, pq_next e)
  | None => None
  end.

Definition derivedJobID (periodicJob : Job) (time : Z) : string :=
  jb_ID periodicJob +:+ PeriodicLaunchSuffix +:+ formatInt (UnixOf time).

Definition deriveJob (periodicJob : Job) (time : Z) : Job :=
  let derived := periodicJob <| jb_ParentID := jb_ID periodicJob |> <| jb_ID := derivedJobID periodicJob time |> in
  derived <| jb_Name := jb_ID derived |> <| jb_Periodic := None |>.

Definition LaunchTime (jobID : string) : GoError + Z :=
  let err := Errorf "couldn't parse launch time from eval: %v" [jobID] in
  match LastIndex jobID PeriodicLaunchSuffix with
  | None => inl err
  | Some index =>
      let start := (index + String.length PeriodicLaunchSuffix)%nat in
      match ParseInt (String.substring start (String.length jobID - start) jobID) with
      | None => inl err
      | Some launch => inr (TimeUnix launch)
      end
  end.

Section server.
Context {W : Type} `{JobEvalDispatcher W}.

Definition createEval (w : W) (periodicJob : Job) (time : Z) : (GoError + Evaluation) * W :=
  DispatchJob w (deriveJob periodicJob time).

Definition ForceRun (now : Z) p (w : W) (jobID : string) : (GoError + Evaluation) * W :=
  if negb (pd_enabled p) then (inl (errorf "periodic dispatch disabled"), w)
  else
    match pd_tracked p !! jobID with
    | None => (inl (Errorf "can't force run non-tracked job %v" [jobID]), w)
    | Some job => createEval w job now
    end.

(** The job and the launch time are those that [run] waited for.  [None] is a panic: the
    job has no periodic configuration, or the heap is broken. *)
Definition dispatch p (w : W) (job : Job) (launchTime : Z) : option (PeriodicDispatch * W) :=
  config ← jb_Periodic job;
  r ← heapUpdate (pd_heap p) job (PeriodicNext config launchTime);
  let p := match r with inl _ => p | inr h => p <| pd_heap := h |> end in
  let overlaps := if pc_ProhibitOverlap config then RunningChildren w job else inr false in
  Some (match overlaps with
        | inl _ | inr true => (p, w)
        | inr false => (p, (createEval w job launchTime).2)
        end).
End server.

(** ** The goroutine

    What [run] waits for: nothing yet, a notification, or a launch as well. *)

Inductive waiting := AtTop | Waiting (launch : option (Job * Z)).

(** The top of the loop, while [shouldRun]: a zero time is never launched. *)
Definition runTop p : waiting :=
  Waiting (match nextLaunch p with
           | Some (job, launch) => if IsZero launch then None else Some (job, launch)
           | None => None
           end).
End dispatcher.
