(* ===== verification/PeriodicProps.v ===== *)
(** * The properties of the dispatcher of periodic jobs

    In every interleaving of its methods and its goroutine the heap and the map agree, no
    call fails, and the goroutine waits for the earliest launch; the launch time can be
    read back from the name of a launched job. *)

From stdpp Require Import base gmap strings list pretty.
From Stdlib Require Import ZArith Lia Ascii.
From S2P Require Import Prelude GoText GoHeap Structs Resources Jobs Allocs Feasible MemDB MemDBSpec Periodic.
Open Scope string_scope.
Open Scope list_scope.
Open Scope Z_scope.

(** ** The order of the launches *)

(** [x] may be launched before [y]. *)
Lemma periodicLess_false x y : periodicLess y x = false ↔ pq_next y = 0 ∨ pq_next x ≠ 0 ∧ pq_next x ≤ pq_next y.
Proof.
  unfold periodicLess, IsZero. destruct (Z.eqb_spec (pq_next y) 0), (Z.eqb_spec (pq_next x) 0); cbn [andb]; rewrite ?Z.ltb_ge; split; intros; try done; try lia; auto.
Qed.

Lemma periodic_ordered l : ordered_on periodicLess l.
Proof.
  split.
  - intros x y _ _ Hlt. destruct (periodicLess y x) eqn:E; [|done]. unfold periodicLess, IsZero in *.
    destruct (Z.eqb_spec (pq_next y) 0), (Z.eqb_spec (pq_next x) 0); cbn [andb] in *; try done. apply Z.ltb_lt in Hlt, E. lia.
  - intros x y z _ _ _. unfold le. rewrite !periodicLess_false. lia.
Qed.

(** ** The heap agrees with its map *)

Definition ids (h : periodicHeap) : list string := idOfEntry <$> ph_heap h.

Record heap_ok (h : periodicHeap) : Prop := {
  hp_heap : is_heap periodicLess (ph_heap h);
  hp_distinct : NoDup (ids h);
  hp_index : ∀ id, id ∈ ph_index h ↔ id ∈ ids h
}.

Lemma heapPush_ok h job next : heap_ok h → jb_ID job ∉ ph_index h →
  ∃ h', heapPush h job next = inr h' ∧ heap_ok h' ∧ ph_heap h' ≡ₚ mkPeriodicJob job next :: ph_heap h.
Proof.
  intros [Hh Hd Hi] Hn. unfold heapPush. rewrite bool_decide_eq_false_2 by done. eexists. split; [reflexivity|].
  pose proof (push_perm periodicLess (mkPeriodicJob job next) (ph_heap h)) as Hp. split; [|done]. split; simpl.
  - apply push_heap; [apply periodic_ordered|done].
  - unfold ids. simpl. rewrite Hp, fmap_cons. constructor; [by rewrite <- Hi|done].
  - intros id. unfold ids. simpl. rewrite Hp, fmap_cons, elem_of_cons, elem_of_union, elem_of_singleton, Hi. done.
Qed.

Lemma entryIndex_spec h id : heap_ok h → id ∈ ph_index h →
  ∃ i e, entryIndex h id = Some i ∧ ph_heap h !! i = Some e ∧ idOfEntry e = id.
Proof.
  intros Hok Hid. apply (hp_index h Hok) in Hid. apply list_elem_of_fmap in Hid as (e & -> & He).
  unfold entryIndex. destruct (list_find _ (ph_heap h)) as [[i e']|] eqn:E.
  - apply list_find_Some in E as (Hi & He' & _). by exists i, e'.
  - apply list_find_None in E. rewrite Forall_forall in E. by destruct (E e He).
Qed.

(** The other entries stay. *)
Definition others (h : periodicHeap) (id : string) : list periodicJob := filter (fun e => idOfEntry e ≠ id) (ph_heap h).

Lemma others_not_in l e (rest : list periodicJob) id :
  NoDup (idOfEntry <$> l) → l ≡ₚ e :: rest → idOfEntry e = id → filter (fun e => idOfEntry e ≠ id) l ≡ₚ rest.
Proof.
  intros Hnd Hp He. rewrite Hp in Hnd |- *. rewrite filter_cons_False by (intros Hne; by apply Hne).
  rewrite fmap_cons in Hnd. apply NoDup_cons in Hnd as [Hn _]. rewrite filter_all; [done|]. apply Forall_forall. intros x Hx Heq. apply Hn.
  rewrite He, <- Heq. by apply list_elem_of_fmap_2.
Qed.

Lemma heapUpdate_ok h job next : heap_ok h → jb_ID job ∈ ph_index h →
  ∃ h', heapUpdate h job next = Some (inr h') ∧ heap_ok h' ∧ ph_index h' = ph_index h ∧
    ph_heap h' ≡ₚ mkPeriodicJob job next :: others h (jb_ID job).
Proof.
  intros Hok Hin. unfold heapUpdate. rewrite bool_decide_eq_true_2 by done.
  destruct (entryIndex_spec h _ Hok Hin) as (i & e & -> & Hi & He). cbn [mbind option_bind]. eexists. split; [reflexivity|].
  set (x := mkPeriodicJob job next). pose proof (lookup_lt_Some _ _ _ Hi) as Hlt.
  assert (<[i := x]> (ph_heap h) ≡ₚ x :: others h (jb_ID job)) as Hp.
  { unfold others. rewrite (others_not_in (ph_heap h) e (take i (ph_heap h) ++ drop (S i) (ph_heap h))); [|apply Hok| |done].
    - rewrite insert_take_drop by done. symmetry. apply Permutation_middle.
    - rewrite <- (take_drop_middle _ _ _ Hi) at 1. symmetry. apply Permutation_middle. }
  assert (idOfEntry <$> <[i := x]> (ph_heap h) = ids h) as Hids.
  { unfold ids. rewrite list_fmap_insert. apply list_insert_id. rewrite list_lookup_fmap, Hi. simpl. by rewrite He. }
  split; [|split; [done|simpl; by rewrite fix_perm]]. split; simpl.
  - apply fix_heap; try apply periodic_ordered; [apply Hok|done].
  - unfold ids. simpl. rewrite fix_perm, Hids. apply Hok.
  - intros id. unfold ids. simpl. rewrite fix_perm, Hids. apply Hok.
Qed.

Lemma heapRemove_ok h job : heap_ok h → jb_ID job ∈ ph_index h →
  ∃ h', heapRemove h job = Some (inr h') ∧ heap_ok h' ∧ ph_index h' = ph_index h ∖ {[jb_ID job]} ∧ ph_heap h' ≡ₚ others h (jb_ID job).
Proof.
  intros Hok Hin. unfold heapRemove. rewrite bool_decide_eq_true_2 by done.
  destruct (entryIndex_spec h _ Hok Hin) as (i & e & -> & Hi & He). cbn [mbind option_bind].
  pose proof (lookup_lt_Some _ _ _ Hi) as Hlt. destruct (remove_Some periodicLess (ph_heap h) i Hlt) as (x & l & E). rewrite E.
  destruct (remove_perm _ _ _ _ _ Hlt E) as [Hx Hp]. rewrite Hi in Hx. injection Hx as <-. cbn [mbind option_bind snd].
  eexists. split; [reflexivity|]. unfold others. rewrite (others_not_in (ph_heap h) e l (jb_ID job) (hp_distinct h Hok) Hp He).
  pose proof (hp_distinct h Hok) as Hnd. unfold ids in Hnd. rewrite Hp, fmap_cons in Hnd. apply NoDup_cons in Hnd as [Hn Hnd].
  split; [|done]. split; simpl; [|done|].
  - eapply remove_heap; [apply periodic_ordered|apply Hok|done|exact E].
  - intros id. rewrite elem_of_difference, elem_of_singleton, (hp_index h Hok). unfold ids. rewrite Hp, fmap_cons, elem_of_cons. simpl.
    rewrite He in Hn |- *. split; [tauto|]. intros Hid. split; [by right|]. by intros ->.
Qed.

(** ** The dispatcher *)

Record disp_ok (p : PeriodicDispatch) : Prop := {
  do_heap : heap_ok (pd_heap p);
  do_tracked : ∀ id, id ∈ ph_index (pd_heap p) ↔ is_Some (pd_tracked p !! id);
  do_keys : ∀ id job, pd_tracked p !! id = Some job → jb_ID job = id;
  do_periodic : ∀ e, e ∈ ph_heap (pd_heap p) → is_Some (jb_Periodic (pq_job e))
}.

Lemma signal_ok p : disp_ok p → disp_ok (signalUpdate p).
Proof. unfold signalUpdate. intros [A B C D]. destruct (pd_running p); by split. Qed.

Lemma removeLocked_ok p id : disp_ok p →
  ∃ p', removeLocked p id = Some (None, p') ∧ disp_ok p' ∧
    pd_tracked p' = (if pd_enabled p then delete id (pd_tracked p) else pd_tracked p).
Proof.
  intros Hok. unfold removeLocked. destruct (pd_enabled p); cbn [negb]; [|by exists p].
  destruct (pd_tracked p !! id) as [job|] eqn:Et; [|exists p; split; [done|]; split; [done|]; by rewrite delete_id].
  pose proof (do_keys p Hok _ _ Et) as Hid. change (pd_heap (p <| pd_tracked ::= delete id |>)) with (pd_heap p).
  destruct (heapRemove_ok (pd_heap p) job) as (h' & -> & Hh' & Ei & Hp).
  { apply Hok. }
  { apply (do_tracked p Hok). by rewrite Hid, Et. }
  cbn [mbind option_bind]. eexists. split; [reflexivity|]. rewrite Hid in *.
  split; [|unfold signalUpdate; by destruct (pd_running _)]. apply signal_ok. split; simpl.
  - done.
  - intros id'. rewrite Ei, elem_of_difference, elem_of_singleton, (do_tracked p Hok). destruct (decide (id' = id)) as [->|].
    + rewrite lookup_delete_eq. split; [by intros [_ []]|by intros []].
    + rewrite lookup_delete_ne by done. tauto.
  - intros id' j. rewrite lookup_delete_Some. intros [_ ?]. by apply (do_keys p Hok).
  - intros e. rewrite Hp. intros [_ He]%list_elem_of_filter. by apply (do_periodic p Hok).
Qed.

Section dispatch.
Context `{CronLib}.

Lemma Add_ok now p job : disp_ok p → ∃ p', Add now p job = Some (None, p') ∧ disp_ok p'.
Proof.
  intros Hok. unfold Add. destruct (pd_enabled p) eqn:Ee; cbn [negb]; [|by exists p].
  assert (∃ p', (if bool_decide (is_Some (pd_tracked p !! jb_ID job)) then r ← removeLocked p (jb_ID job); Some (None, r.2) else Some (None, p))
    = Some (@None GoError, p') ∧ disp_ok p') as Hrem.
  { case_bool_decide; [|by exists p]. destruct (removeLocked_ok p (jb_ID job) Hok) as (p' & -> & ? & _). by exists p'. }
  destruct (jb_Periodic job) as [config|] eqn:Ec; [|exact Hrem]. destruct (pc_Enabled config); cbn [negb]; [|exact Hrem]. clear Hrem.
  destruct (IsParameterized job); [by exists p|]. set (next := PeriodicNext config now).
  change (pd_heap (p <| pd_tracked ::= <[jb_ID job := job]> |>)) with (pd_heap p).
  assert (∃ h', (if bool_decide (is_Some (pd_tracked p !! jb_ID job)) then heapUpdate (pd_heap p) job next else Some (heapPush (pd_heap p) job next))
    = Some (inr h') ∧ heap_ok h' ∧ (∀ id, id ∈ ph_index h' ↔ id = jb_ID job ∨ id ∈ ph_index (pd_heap p)) ∧
    ∀ e, e ∈ ph_heap h' → e = mkPeriodicJob job next ∨ e ∈ ph_heap (pd_heap p)) as (h' & -> & Hh' & Hi & He).
  { case_bool_decide as Ht.
    - apply (do_tracked p Hok) in Ht. destruct (heapUpdate_ok (pd_heap p) job next) as (h' & -> & Hh' & Ei & Hp); [apply Hok|done|].
      exists h'. split; [done|]. split; [done|]. split; [rewrite Ei; intros id; split; [by right|by intros [->|?]]|].
      intros e. rewrite Hp, elem_of_cons. intros [?|[_ ?]%list_elem_of_filter]; [by left|by right].
    - rewrite <- (do_tracked p Hok) in Ht. destruct (heapPush_ok (pd_heap p) job next) as (h' & -> & Hh' & Hp); [apply Hok|done|].
      exists h'. split; [done|]. split; [done|]. split.
      + intros id. rewrite (hp_index h' Hh'), (hp_index _ (do_heap p Hok)). unfold ids. by rewrite Hp, fmap_cons, elem_of_cons.
      + intros e. rewrite Hp, elem_of_cons. done. }
  cbn [mbind option_bind]. eexists. split; [reflexivity|]. apply signal_ok. split; simpl.
  - done.
  - intros id. rewrite Hi, (do_tracked p Hok). destruct (decide (jb_ID job = id)) as [<-|].
    + rewrite lookup_insert_eq. split; [by eexists|by left].
    + rewrite lookup_insert_ne by done. split; [by intros [?|?]|by right].
  - intros id j. rewrite lookup_insert_Some. intros [[? <-]|[_ ?]]; [done|by apply (do_keys p Hok)].
  - intros e [->|?]%He; [simpl; rewrite Ec; by eexists|by apply (do_periodic p Hok)].
Qed.

(** A launch comes after the one before, unless there is none. *)
Lemma PeriodicNext_after `{!CronLaws} config t : PeriodicNext config t = 0 ∨ t < PeriodicNext config t.
Proof.
  unfold PeriodicNext. case_bool_decide; [destruct (ParseCron _); [apply cron_after|by left]|].
  case_bool_decide; [|by left]. case_bool_decide; [by left|]. destruct (parseTimes _) as [times|]; [|by left].
  destruct (list_find _ times) as [[i next]|] eqn:E; [|by left]. apply list_find_Some in E as (_ & Hlt & _). by right.
Qed.

Section server.
Context {W : Type} `{!JobEvalDispatcher W}.

Lemma dispatch_ok p (w : W) job t : disp_ok p → is_Some (jb_Periodic job) →
  ∃ p' w', dispatch p w job t = Some (p', w') ∧ disp_ok p' ∧ pd_tracked p' = pd_tracked p.
Proof.
  intros Hok [config Ec]. unfold dispatch. rewrite Ec. cbn [mbind option_bind]. set (next := PeriodicNext config t).
  assert (∃ r, heapUpdate (pd_heap p) job next = Some r ∧
    disp_ok (match r with inl _ => p | inr h => p <| pd_heap := h |> end)) as (r & -> & Hr).
  { destruct (decide (jb_ID job ∈ ph_index (pd_heap p))) as [Hin|Hin].
    - destruct (heapUpdate_ok (pd_heap p) job next) as (h' & -> & Hh' & Ei & Hp); [apply Hok|done|].
      exists (inr h'). split; [done|]. split; simpl; [done|rewrite Ei; apply Hok|apply Hok|].
      intros e. rewrite Hp, elem_of_cons. intros [->|[_ ?]%list_elem_of_filter]; [simpl; rewrite Ec; by eexists|by apply (do_periodic p Hok)].
    - unfold heapUpdate. rewrite bool_decide_eq_false_2 by done. by eexists. }
  cbn [mbind option_bind]. destruct (if pc_ProhibitOverlap config then _ else _) as [?|[]]; eexists _, _; (split; [reflexivity|]); split; try done;
    by destruct r.
Qed.

(** The entry of a launched job is moved to its next launch. *)
Lemma dispatch_later `{!CronLaws} p (w : W) job t p' w' e : disp_ok p → dispatch p w job t = Some (p', w') →
  e ∈ ph_heap (pd_heap p') → idOfEntry e = jb_ID job → pq_next e = 0 ∨ t < pq_next e.
Proof.
  intros Hok. unfold dispatch. destruct (jb_Periodic job) as [config|] eqn:Ec; [|done]. cbn [mbind option_bind].
  pose proof (PeriodicNext_after config t) as Hn. revert Hn. generalize (PeriodicNext config t). intros next Hn.
  destruct (decide (jb_ID job ∈ ph_index (pd_heap p))) as [Hin|Hin].
  - destruct (heapUpdate_ok (pd_heap p) job next) as (h' & -> & _ & _ & Hp); [apply Hok|done|]. cbn [mbind option_bind].
    intros E He Hid. assert (pd_heap p' = h') as Eh by (destruct (if pc_ProhibitOverlap config then _ else _) as [?|[]]; by injection E as <- _).
    rewrite Eh, Hp in He. apply elem_of_cons in He as [->|[Hne _]%list_elem_of_filter]; [done|by destruct Hne].
  - unfold heapUpdate. rewrite bool_decide_eq_false_2 by done. cbn [mbind option_bind]. intros E He Hid. exfalso. apply Hin.
    assert (pd_heap p' = pd_heap p) as Eh by (destruct (if pc_ProhibitOverlap config then _ else _) as [?|[]]; by injection E as <- _).
    rewrite Eh in He. apply (hp_index _ (do_heap p Hok)). rewrite <- Hid. by apply list_elem_of_fmap_2.
Qed.

(** ** Interleavings

    The methods, called in any order, and the steps of the goroutine.  Disabling the
    dispatcher waits for the end of the goroutine before it flushes. *)

Record system := mkSystem { sy_dispatch : PeriodicDispatch; sy_run : waiting; sy_server : W }.

Inductive pstep : system → system → Prop :=
  | StepAdd now p r w job err p' : Add now p job = Some (err, p') → pstep (mkSystem p r w) (mkSystem p' r w)
  | StepRemove p r w id err p' : Remove p id = Some (err, p') → pstep (mkSystem p r w) (mkSystem p' r w)
  | StepForceRun now p r w id res w' : ForceRun now p w id = (res, w') → pstep (mkSystem p r w) (mkSystem p r w')
  | StepEnable p r w : pstep (mkSystem p r w) (mkSystem (p <| pd_enabled := true |>) r w)
  | StepDisable p r w : pstep (mkSystem p r w) (mkSystem (p <| pd_enabled := false |>) r w)
  | StepFlush p r w : pd_enabled p = false →
      pstep (mkSystem p r w) (mkSystem (PeriodicFlush (p <| pd_running := false |>)) AtTop w)
  | StepStart p r w : pstep (mkSystem p r w) (mkSystem (p <| pd_running := true |>) AtTop w)
  | StepTop p w : pd_enabled p && pd_running p = true → pstep (mkSystem p AtTop w) (mkSystem p (runTop p) w)
  | StepNotified p launch w : pd_update p = true →
      pstep (mkSystem p (Waiting launch) w) (mkSystem (p <| pd_update := false |>) AtTop w)
  | StepLaunch p job launch w p' w' : dispatch p w job launch = Some (p', w') →
      pstep (mkSystem p (Waiting (Some (job, launch))) w) (mkSystem p' AtTop w').

Inductive preachable : system → Prop :=
  | pinit w : preachable (mkSystem NewPeriodicDispatch AtTop w)
  | pnext s s' : preachable s → pstep s s' → preachable s'.

Definition waiting_ok (r : waiting) : Prop :=
  match r with Waiting (Some (job, _)) => is_Some (jb_Periodic job) | _ => True end.

Lemma runTop_ok p : disp_ok p → waiting_ok (runTop p).
Proof.
  intros Hok. unfold runTop, nextLaunch, heapPeek. destruct (ph_heap (pd_heap p)) as [|e l] eqn:E; [done|]. simpl.
  destruct (IsZero (pq_next e)); [done|]. apply (do_periodic p Hok). rewrite E. left.
Qed.

Lemma disp_ok_same p p' : pd_heap p' = pd_heap p → pd_tracked p' = pd_tracked p → disp_ok p → disp_ok p'.
Proof. intros E1 E2 [A B C D]. split; rewrite ?E1, ?E2; done. Qed.

Lemma empty_ok p : pd_heap p = NewPeriodicHeap → pd_tracked p = ∅ → disp_ok p.
Proof.
  intros E1 E2. split; rewrite ?E1, ?E2.
  - split; [apply is_heap_nil|apply NoDup_nil_2|]. intros id. simpl. split; [set_solver|]. by intros ?%elem_of_nil.
  - intros id. rewrite lookup_empty. split; [set_solver|by intros []].
  - by intros id job.
  - by intros e ?%elem_of_nil.
Qed.

Lemma preachable_ok s : preachable s → disp_ok (sy_dispatch s) ∧ waiting_ok (sy_run s).
Proof.
  induction 1 as [w|s s' _ [IH1 IH2] Hs].
  { split; [by apply empty_ok|done]. }
  destruct Hs as [now p r w job err p' E|p r w id err p' E|now p r w id res w' E|p r w|p r w|p r w E|p r w|p w E|p launch w E|p job launch w p' w' E];
    simpl in *; try (split; [|done]; by eapply disp_ok_same; [..|exact IH1]); try done.
  - split; [|done]. destruct (Add_ok now p job IH1) as (p1 & E1 & H1). rewrite E1 in E. by injection E as <- <-.
  - split; [|done]. destruct (removeLocked_ok p id IH1) as (p1 & E1 & H1 & _). unfold Remove in E. rewrite E1 in E. by injection E as <- <-.
  - split; [by apply empty_ok|done].
  - split; [done|]. by apply runTop_ok.
  - split; [|done]. destruct (dispatch_ok p w job launch IH1 IH2) as (p1 & w1 & E1 & H1 & _). rewrite E1 in E. by injection E as <- <-.
Qed.

Lemma nextLaunch_earliest p e : disp_ok p → e ∈ ph_heap (pd_heap p) → pq_next e ≠ 0 →
  ∃ job launch, nextLaunch p = Some (job, launch) ∧ launch ≠ 0 ∧ launch ≤ pq_next e.
Proof.
  intros Hok [k Hk]%list_elem_of_lookup Hne. pose proof (hp_heap _ (do_heap p Hok)) as Hh. unfold nextLaunch, heapPeek.
  destruct (ph_heap (pd_heap p)) as [|h l] eqn:E; [done|]. simpl. eexists _, _. split; [reflexivity|].
  pose proof (heap_root periodicLess (h :: l) (length (h :: l)) k (periodic_ordered _) ltac:(lia) Hh (lookup_lt_Some _ _ _ Hk)) as Hr.
  specialize (Hr _ _ Hk eq_refl). apply periodicLess_false in Hr. destruct Hr as [?|?]; [done|lia].
Qed.
End server.
End dispatch.

(** ** Launch times *)

Lemma ParseInt_unsigned d t : (d < 10)%N → ParseInt (String (digit d) t) =
  match parseUint (String (digit d) t) 0 with inl _ => None | inr un => if 2 ^ 63 <=? un then None else Some un end.
Proof.
  intros Hd. assert (∃ k : nat, (k < 10)%nat ∧ d = N.of_nat k) as (k & Hk & ->) by (exists (N.to_nat d); lia).
  do 10 (destruct k as [|k]; [done|]). lia.
Qed.

Lemma ParseInt_formatInt z : - 2 ^ 63 ≤ z < 2 ^ 63 → ParseInt (formatInt z) = Some z.
Proof.
  intros Hz. unfold formatInt. destruct (Z.ltb_spec z 0).
  - pose proof (parseUint_itoa (- z) ltac:(lia)) as Hp. destruct (itoa_digit (- z) ltac:(lia)) as (d & t & _ & E). rewrite E in *.
    change (ParseInt ("-" +:+ String (digit d) t)) with
      (match parseUint (String (digit d) t) 0 with inl _ => None | inr un => if 2 ^ 63 <? un then None else Some (- un) end). rewrite Hp.
    rewrite (proj2 (Z.ltb_ge _ _)) by lia. f_equal. lia.
  - pose proof (parseUint_itoa z ltac:(lia)) as Hp. destruct (itoa_digit z ltac:(lia)) as (d & t & Hd & E). rewrite E in *.
    rewrite ParseInt_unsigned, Hp by done. by rewrite (proj2 (Z.leb_gt _ _)) by lia.
Qed.

Definition noSlash (s : string) : Prop := "/"%char ∉ String.list_ascii_of_string s.

Lemma digits_noSlash n s : noSlash s → noSlash (pretty_N_go n s).
Proof.
  revert s. induction n as [n IH] using (well_founded_induction N.lt_wf_0). intros s Hs.
  destruct (decide (n = 0)%N) as [->|Hn]; [by rewrite pretty_N_go_0|]. rewrite pretty_N_go_step by lia.
  apply IH; [apply N.div_lt; lia|]. unfold noSlash in *. simpl. rewrite elem_of_cons. intros [Hc|?]; [|done].
  assert (n `mod` 10 < 10)%N as Hm by (apply N.mod_lt; lia). revert Hc Hm. generalize (n `mod` 10)%N. intros m Hc Hm.
  assert (∃ k : nat, (k < 10)%nat ∧ m = N.of_nat k) as (k & Hk & ->) by (exists (N.to_nat m); lia).
  do 10 (destruct k as [|k]; [done|]). lia.
Qed.

Lemma itoa_noSlash n : noSlash (itoa n).
Proof. unfold itoa, pretty, pretty_N. case_decide; [|apply digits_noSlash]; unfold noSlash; simpl; rewrite ?list_elem_of_singleton; [done|apply not_elem_of_nil]. Qed.

Lemma formatInt_noSlash z : noSlash (formatInt z).
Proof.
  unfold formatInt. destruct (z <? 0); [|apply itoa_noSlash]. unfold noSlash. simpl. rewrite elem_of_cons. intros [?|?]; [done|].
  by eapply itoa_noSlash.
Qed.

Lemma LastIndex_none s : noSlash s → LastIndex s PeriodicLaunchSuffix = None.
Proof.
  unfold noSlash. induction s as [|c s IH]; [done|]. intros Hs. cbn [LastIndex]. simpl in Hs. rewrite elem_of_cons in Hs.
  rewrite IH by tauto. unfold HasPrefix, PeriodicLaunchSuffix. cbn [String.prefix]. destruct (ascii_dec "/" c) as [<-|]; [tauto|done].
Qed.

Lemma LastIndex_suffix p t : noSlash t → LastIndex (p +:+ PeriodicLaunchSuffix +:+ t) PeriodicLaunchSuffix = Some (String.length p).
Proof.
  intros Ht. induction p as [|c p IH]; [|rewrite app_String; cbn [LastIndex String.length]; by rewrite IH].
  change ("" +:+ PeriodicLaunchSuffix +:+ t) with (PeriodicLaunchSuffix +:+ t). assert (noSlash ("periodic-" +:+ t)) as Ht'.
  { unfold noSlash in *. simpl. rewrite !elem_of_cons. intros Hin. repeat (destruct Hin as [Hin|Hin]; [discriminate Hin|]). done. }
  change (PeriodicLaunchSuffix +:+ t) with (String "/" ("periodic-" +:+ t)). cbn [LastIndex]. rewrite (LastIndex_none _ Ht').
  assert (HasPrefix (String "/" ("periodic-" +:+ t)) PeriodicLaunchSuffix = true) as ->; [|done].
  unfold HasPrefix, PeriodicLaunchSuffix. destruct t; reflexivity.
Qed.

Lemma LaunchTime_derived job t : - 2 ^ 63 ≤ UnixOf t < 2 ^ 63 → LaunchTime (derivedJobID job t) = inr (TimeUnix (UnixOf t)).
Proof.
  intros Ht. unfold LaunchTime, derivedJobID. rewrite LastIndex_suffix by apply formatInt_noSlash.
  set (p := jb_ID job). set (f := formatInt (UnixOf t)).
  rewrite <- app_assoc_str. set (q := p +:+ PeriodicLaunchSuffix).
  assert (String.length p + String.length PeriodicLaunchSuffix = String.length q)%nat as -> by (symmetry; apply string_length_app).
  rewrite string_length_app, Nat.add_comm, Nat.add_sub.
  pose proof (substring_app q f "") as Hsub. rewrite app_empty in Hsub. rewrite Hsub. unfold f. by rewrite ParseInt_formatInt.
Qed.

(** ** The properties *)

(** C30. The dispatcher of periodic jobs keeps its records together.  In every interleaving
    of its methods with its goroutine, the heap holds exactly the tracked jobs, each once;
    adding and removing a job never panics and never reports an error, and neither does a
    launch the goroutine waits for; the launch that the dispatcher would wait for is the
    earliest of the launches of all tracked jobs; and after a launch the next one of the
    same job, if it is tracked and has one, is later. *)
Theorem periodic_dispatcher_sound `{CronLib} `{!CronLaws} {W} `{!JobEvalDispatcher W} (s : system (W := W)) :
  preachable s →
  let p := sy_dispatch s in
  (∀ id, is_Some (pd_tracked p !! id) ↔ ∃ e, e ∈ ph_heap (pd_heap p) ∧ idOfEntry e = id) ∧ NoDup (ids (pd_heap p)) ∧
  (∀ now job, ∃ p', Add now p job = Some (None, p')) ∧ (∀ id, ∃ p', Remove p id = Some (None, p')) ∧
  (∀ e, e ∈ ph_heap (pd_heap p) → pq_next e ≠ 0 → ∃ job launch, nextLaunch p = Some (job, launch) ∧ launch ≠ 0 ∧ launch ≤ pq_next e) ∧
  (∀ job launch, sy_run s = Waiting (Some (job, launch)) →
     ∃ p' w', dispatch p (sy_server s) job launch = Some (p', w') ∧ pd_tracked p' = pd_tracked p ∧
       ∀ e, e ∈ ph_heap (pd_heap p') → idOfEntry e = jb_ID job → pq_next e = 0 ∨ launch < pq_next e).
Proof.
  intros Hs. destruct (preachable_ok s Hs) as [Hok Hr]. cbv zeta. split_and!.
  - intros id. rewrite <- (do_tracked _ Hok), (hp_index _ (do_heap _ Hok)). unfold ids. rewrite list_elem_of_fmap. naive_solver.
  - apply Hok.
  - intros now job. destruct (Add_ok now _ job Hok) as (p' & E & _). by exists p'.
  - intros id. destruct (removeLocked_ok _ id Hok) as (p' & E & _). by exists p'.
  - intros e. by apply nextLaunch_earliest.
  - intros job launch Er. rewrite Er in Hr. destruct (dispatch_ok _ (sy_server s) job launch Hok Hr) as (p' & w' & E & _ & Et).
    exists p', w'. split; [done|]. split; [done|]. intros e. eapply dispatch_later; [exact Hok|exact E].
Qed.

(** The launch time can be read back from the ID of a launched job: [LaunchTime] gives,
    to the second, the time that [deriveJob] was given, whatever the ID of the periodic job
    contains. *)
Theorem launch_time_roundtrip `{CronLib} job t :
  - 2 ^ 63 ≤ UnixOf t < 2 ^ 63 →
  ∃ t', LaunchTime (jb_ID (deriveJob job t)) = inr t' ∧ t' ≤ t < t' + second ∧ jb_ParentID (deriveJob job t) = jb_ID job.
Proof.
  intros Ht. exists (TimeUnix (UnixOf t)). split; [by apply LaunchTime_derived|]. split; [|done].
  unfold TimeUnix, UnixOf. rewrite Z.sub_add. pose proof (Z.mul_div_le t second ltac:(done)).
  pose proof (Z.mul_succ_div_gt t second ltac:(done)). lia.
Qed.

(** ** A job that runs every hour *)

#[local] Instance hourly : CronLib :=
  Build_CronLib positive unit tt (fun _ => Some tt) (fun s => if bool_decide (s = "@hourly") then Some (Z.to_pos (3600 * second)) else None)
    (fun period _ t => (Z.max 0 (t / Zpos period) + 1) * Zpos period).
#[local] Instance hourly_laws : CronLaws.
Proof. intros e loc t. right. simpl in *. pose proof (Z.mul_succ_div_gt t (Zpos e) ltac:(lia)). nia. Qed.

(** A server that collects the jobs it is given. *)
#[local] Instance collector : JobEvalDispatcher (list Job) :=
  Build_JobEvalDispatcher (list Job) (fun w job => (inr zeroEvaluation, w ++ [job])) (fun _ _ => inr false).

Definition report : Job :=
  mkJob false "global" "report" "" "report" JobTypeBatch 50 false ["dc1"] [] [] noUpdate
    (Some (mkPeriodicConfig true "@hourly" PeriodicSpecCron false "")) None "" ∅ "" "" false 0 0 1 1 1.
Definition noon : Z := TimeUnix 1500292800.
Definition reportEntry : periodicJob := mkPeriodicJob report (noon + 3600 * second).
Definition tracking : PeriodicDispatch :=
  mkPeriodicDispatch true true {["report" := report]} (mkPeriodicHeap {["report"]} [reportEntry]) true.
Definition waitingFor : waiting := Waiting (Some (report, noon + 3600 * second)).

(** The dispatcher is enabled and started, and the job added. *)
Lemma tracking_reachable : preachable (mkSystem tracking waitingFor []).
Proof.
  eapply pnext; [eapply pnext; [eapply pnext; [eapply pnext; [apply pinit|apply StepEnable]|apply StepStart]|]|].
  - apply (StepAdd noon _ _ _ report None tracking). vm_compute. reflexivity.
  - apply (StepTop tracking). reflexivity.
Qed.

Lemma periodic_dispatcher_witness :
  ∃ p' w', dispatch tracking [] report (noon + 3600 * second) = Some (p', w') ∧
    (jb_ID <$> w') = ["report/periodic-1500296400"] ∧ (pq_next <$> ph_heap (pd_heap p')) = [noon + 7200 * second].
Proof.
  destruct (periodic_dispatcher_sound (mkSystem tracking waitingFor []) tracking_reachable) as (_ & _ & _ & _ & _ & Hd).
  destruct (Hd report (noon + 3600 * second) eq_refl) as (p' & w' & E & _). exists p', w'. split; [exact E|].
  assert (option_map (fun r => (jb_ID <$> r.2, pq_next <$> ph_heap (pd_heap r.1))) (dispatch tracking [] report (noon + 3600 * second))
    = Some (["report/periodic-1500296400"], [noon + 7200 * second])) as Hv by (vm_compute; reflexivity).
  simpl in E. rewrite E in Hv. injection Hv as V1 V2. by split.
Defined.

Lemma launch_time_witness : LaunchTime (jb_ID (deriveJob report (noon + 7))) = inr noon.
Proof.
  destruct (launch_time_roundtrip report (noon + 7) ltac:(vm_compute; split; [discriminate|reflexivity])) as (t' & E & _).
  vm_compute. reflexivity.
Defined.

(** A periodic job can be launched after it was removed.  The goroutine waits without
    the lock; when the launch is due and the job is removed at the same time, it may take
    the launch, and [dispatch] only logs that the heap does not have the job. *)
Theorem removed_job_launches :
  ∃ s s', preachable s ∧ pstep s s' ∧ pd_tracked (sy_dispatch s) = ∅ ∧ sy_server s = [] ∧
    (jb_ID <$> sy_server s') = ["report/periodic-1500296400"].
Proof.
  set (removed := tracking <| pd_tracked := ∅ |> <| pd_heap := NewPeriodicHeap |>).
  exists (mkSystem removed waitingFor []), (mkSystem removed AtTop [deriveJob report (noon + 3600 * second)]).
  split_and!; try (vm_compute; reflexivity).
  - eapply pnext; [apply tracking_reachable|]. apply (StepRemove _ _ _ "report" None removed). vm_compute. reflexivity.
  - apply StepLaunch. vm_compute. reflexivity.
Qed.
