(* ===== verification/JobCanon.v ===== *)
(** * The canonical form of a job (src/nomad/structs/structs.go, the Canonicalize methods)

    A job is canonicalized when it is registered and when it is restored from a snapshot.
    The fields that the records of jobs leave out (services, restart policies) and the
    location of a periodic job have no counterpart here; a task has resources, and an
    empty slice or map is nil.  [strings.ToUpper] is an argument. *)

From stdpp Require Import base gmap strings list.
From Stdlib Require Import ZArith Lia SpecFloat.
From S2P Require Import Prelude GoText Structs Resources Jobs StateStore.
Open Scope string_scope.
Open Scope list_scope.
Open Scope Z_scope.

(** [strings.ToUpper]; a string in upper case stays as it is. *)
Class UpperLib := ToUpper : string → string.
Class UpperLaws `{UpperLib} := upper_idem : ∀ s, ToUpper (ToUpper s) = ToUpper s.

#[export] Instance eta_Vault : Eta Vault := fun r => mkVault (va_Policies r) (va_Env r) (va_ChangeMode r) (va_ChangeSignal r).
#[export] Instance eta_Template : Eta Template := fun r =>
  mkTemplate (te_SourcePath r) (te_DestPath r) (te_EmbeddedTmpl r) (te_ChangeMode r) (te_ChangeSignal r) (te_Splay r)
    (te_Perms r) (te_LeftDelim r) (te_RightDelim r) (te_Envvars r).
#[export] Instance eta_EphemeralDisk : Eta EphemeralDisk := fun r => mkEphemeralDisk (ed_Sticky r) (ed_SizeMB r) (ed_Migrate r).
#[export] Instance eta_ParameterizedJobConfig : Eta ParameterizedJobConfig := fun r =>
  mkParameterizedJobConfig (pj_Payload r) (pj_MetaRequired r) (pj_MetaOptional r).

Definition DefaultKillTimeout : Z := 5 * 10 ^ 9.
Definition DefaultEphemeralDisk : EphemeralDisk := mkEphemeralDisk false 300 false.
Definition DispatchPayloadForbidden : string := "forbidden".
Definition DispatchPayloadOptional : string := "optional".
Definition DispatchPayloadRequired : string := "required".
Definition UpdateStrategyHealthCheck_Checks : string := "checks".

Definition DefaultUpdateStrategy : UpdateStrategy :=
  mkUpdateStrategy (30 * 10 ^ 9) 0 UpdateStrategyHealthCheck_Checks (10 * 10 ^ 9) (300 * 10 ^ 9) false 0.

(** Go's conversion of a [float64] to an [int]: towards zero. *)
Definition f_toInt (x : float64) : Z :=
  match x with
  | S754_finite s m e =>
      let a := if 0 <=? e then Zpos m * 2 ^ e else Zpos m / 2 ^ (- e) in
      if s then - a else a
  | _ => 0
  end.
Definition tenth : float64 := f_div (f64 1) (f64 10).
Definition half : float64 := f_div (f64 1) (f64 2).

Section canon.
Context `{UpperLib}.

Definition VaultCanonicalize (v : Vault) : Vault :=
  if bool_decide (va_ChangeSignal v ≠ "") then v <| va_ChangeSignal ::= ToUpper |> else v.

Definition TemplateCanonicalize (t : Template) : Template :=
  if bool_decide (te_ChangeSignal t ≠ "") then t <| te_ChangeSignal ::= ToUpper |> else t.

Definition TaskCanonicalize (t : Task) : Task :=
  let t := if tk_KillTimeout t =? 0 then t <| tk_KillTimeout := DefaultKillTimeout |> else t in
  t <| tk_Vault ::= fmap VaultCanonicalize |> <| tk_Templates ::= fmap TemplateCanonicalize |>.

Definition TaskGroupCanonicalize (tg : TaskGroup) : TaskGroup :=
  let disk := default DefaultEphemeralDisk (tg_EphemeralDisk tg) in
  let tg := tg <| tg_Tasks ::= fmap TaskCanonicalize |> in
  let diskMB := taskDisk tg in
  tg <| tg_EphemeralDisk := Some (if 0 <? diskMB then disk <| ed_SizeMB := diskMB |> else disk) |>.

Definition ParameterizedCanonicalize (d : ParameterizedJobConfig) : ParameterizedJobConfig :=
  if bool_decide (pj_Payload d = "") then d <| pj_Payload := DispatchPayloadOptional |> else d.

(** The update block of a group with the new syntax. *)
Definition newSyntax (u : option UpdateStrategy) : bool :=
  match u with
  | Some u => (0 <? us_Stagger u) && (0 <? us_MaxParallel u) && bool_decide (us_HealthCheck u ≠ "") &&
              (0 <? us_MinHealthyTime u) && (0 <? us_HealthyDeadline u)
  | None => false
  end.

(** The update block that a group gets from the block of the job. *)
Definition groupUpdate (base : UpdateStrategy) (single : bool) (tg : TaskGroup) : UpdateStrategy :=
  let tgu := if single then base
             else base <| us_MaxParallel := f_toInt (f_add (f_mul (f64 (tg_Count tg)) tenth) half) |> in
  if us_MaxParallel tgu =? 0 then tgu <| us_MaxParallel := 1 |>
  else if tg_Count tg <? us_MaxParallel tgu then tgu <| us_MaxParallel := tg_Count tg |>
  else tgu.

Definition upgradeGroup (base : UpdateStrategy) (single : bool) (tg : TaskGroup) : TaskGroup :=
  if newSyntax (tg_Update tg) then tg else tg <| tg_Update := Some (groupUpdate base single tg) |>.

Definition upgradeWarning : string :=
  "A best effort conversion to new update stanza introduced in v0.6.0 applied. Please update upgrade stanza before v0.7.0.".
Definition batchWarning : string :=
  "Update stanza is disallowed for batch jobs since v0.6.0. The update block has automatically been removed".

(** The job and the warnings. *)
Definition JobCanonicalize (j : Job) : Job * list string :=
  let j := j <| jb_TaskGroups ::= fmap TaskGroupCanonicalize |> <| jb_ParameterizedJob ::= fmap ParameterizedCanonicalize |> in
  let jobHasOldUpdate := (0 <? us_Stagger (jb_Update j)) && (0 <? us_MaxParallel (jb_Update j)) in
  let '(j, w1) :=
    if jobHasOldUpdate && bool_decide (jb_Type j ≠ JobTypeBatch) then
      let base := DefaultUpdateStrategy <| us_MaxParallel := us_MaxParallel (jb_Update j) |>
                    <| us_MinHealthyTime := us_Stagger (jb_Update j) |> in
      let single := (length (jb_TaskGroups j) =? 1)%nat in
      (j <| jb_TaskGroups ::= fmap (upgradeGroup base single) |>,
       if forallb (fun tg => newSyntax (tg_Update tg)) (jb_TaskGroups j) then [] else [upgradeWarning])
    else (j, []) in
  if bool_decide (jb_Type j = JobTypeBatch) then
    (j <| jb_Update := noUpdate |> <| jb_TaskGroups ::= fmap (fun tg => tg <| tg_Update := None |>) |>,
     w1 ++ if jobHasOldUpdate || existsb (fun tg => bool_decide (is_Some (tg_Update tg))) (jb_TaskGroups j) then [batchWarning] else [])
  else (j, w1).

(** ** Canonical jobs stay as they are *)

Lemma fmap_idem {A} (f : A → A) (l : list A) : (∀ x, f (f x) = f x) → f <$> (f <$> l) = f <$> l.
Proof. intros Hf. rewrite <- list_fmap_compose. apply list_fmap_ext. intros i x _. apply Hf. Qed.

Section idempotent.
Context `{!UpperLaws}.

Lemma VaultCanonicalize_idem v : VaultCanonicalize (VaultCanonicalize v) = VaultCanonicalize v.
Proof.
  unfold VaultCanonicalize at 2 3. case_bool_decide as Hv; unfold VaultCanonicalize; case_bool_decide; try done.
  destruct v. simpl. unfold upd_field. simpl. by rewrite upper_idem.
Qed.
Lemma TemplateCanonicalize_idem t : TemplateCanonicalize (TemplateCanonicalize t) = TemplateCanonicalize t.
Proof.
  unfold TemplateCanonicalize at 2 3. case_bool_decide as Hv; unfold TemplateCanonicalize; case_bool_decide; try done.
  destruct t. simpl. unfold upd_field. simpl. by rewrite upper_idem.
Qed.

Lemma TaskCanonicalize_idem t : TaskCanonicalize (TaskCanonicalize t) = TaskCanonicalize t.
Proof.
  destruct t as [f1 f2 f3 f4 f5 v ts f8 f9 f10 f11 k f13]. unfold TaskCanonicalize.
  assert ((VaultCanonicalize <$> (VaultCanonicalize <$> v)) = VaultCanonicalize <$> v) as Hv
    by (destruct v; simpl; [by rewrite VaultCanonicalize_idem|done]).
  cbn -[Z.eqb fmap]. destruct (Z.eqb_spec k 0) as [->|Hk]; cbn -[Z.eqb fmap]; [change (DefaultKillTimeout =? 0) with false|rewrite (proj2 (Z.eqb_neq k 0)) by done];
    unfold upd_field; cbn -[fmap]; by rewrite Hv, (fmap_idem _ _ TemplateCanonicalize_idem).
Qed.

Lemma TaskGroupCanonicalize_update u tg : TaskGroupCanonicalize (tg <| tg_Update := u |>) = (TaskGroupCanonicalize tg) <| tg_Update := u |>.
Proof. by destruct tg. Qed.

Lemma TaskGroupCanonicalize_idem tg : TaskGroupCanonicalize (TaskGroupCanonicalize tg) = TaskGroupCanonicalize tg.
Proof.
  destruct tg as [name count update constraints tasks disk meta]. unfold TaskGroupCanonicalize.
  assert (∀ d, taskDisk (mkTaskGroup name count update constraints (TaskCanonicalize <$> (TaskCanonicalize <$> tasks)) d meta) =
    taskDisk (mkTaskGroup name count update constraints (TaskCanonicalize <$> tasks) disk meta)) as Hd
    by (intros d; rewrite (fmap_idem _ _ TaskCanonicalize_idem); done).
  unfold upd_field. cbn -[fmap Z.ltb taskDisk]. rewrite Hd, (fmap_idem _ _ TaskCanonicalize_idem). f_equal. f_equal.
  generalize (taskDisk (mkTaskGroup name count update constraints (TaskCanonicalize <$> tasks) disk meta)). intros mb.
  by destruct (0 <? mb).
Qed.

Lemma upgradeGroup_idem base single tg : upgradeGroup base single (upgradeGroup base single tg) = upgradeGroup base single tg.
Proof.
  unfold upgradeGroup at 2 3. destruct (newSyntax (tg_Update tg)) eqn:E; unfold upgradeGroup; [by rewrite E|].
  case_match; [done|]. by destruct tg.
Qed.

Lemma canonical_groups (f : TaskGroup → TaskGroup) (l : list TaskGroup) :
  (∀ tg, TaskGroupCanonicalize (f tg) = f (TaskGroupCanonicalize tg)) → (∀ tg, f (f tg) = f tg) →
  f <$> (TaskGroupCanonicalize <$> (f <$> (TaskGroupCanonicalize <$> l))) = f <$> (TaskGroupCanonicalize <$> l).
Proof.
  intros Hc Hi. rewrite <- !list_fmap_compose. apply list_fmap_ext. intros i tg _. simpl. by rewrite Hc, TaskGroupCanonicalize_idem, Hi.
Qed.

Lemma upgradeGroup_commutes base single tg :
  TaskGroupCanonicalize (upgradeGroup base single tg) = upgradeGroup base single (TaskGroupCanonicalize tg).
Proof. unfold upgradeGroup. by destruct tg as [name count update]; simpl; destruct (newSyntax update). Qed.

Lemma ParameterizedCanonicalize_idem d : ParameterizedCanonicalize (ParameterizedCanonicalize d) = ParameterizedCanonicalize d.
Proof. unfold ParameterizedCanonicalize at 2 3. case_bool_decide as E; [done|]. unfold ParameterizedCanonicalize. by rewrite bool_decide_eq_false_2. Qed.

(** The canonical job by its groups. *)
Definition clearUpdate (tg : TaskGroup) : TaskGroup := tg <| tg_Update := None |>.
Definition hasOldUpdate (u : UpdateStrategy) : bool := (0 <? us_Stagger u) && (0 <? us_MaxParallel u).
Definition baseUpdate (u : UpdateStrategy) : UpdateStrategy :=
  DefaultUpdateStrategy <| us_MaxParallel := us_MaxParallel u |> <| us_MinHealthyTime := us_Stagger u |>.
Definition changeGroups (j : Job) : TaskGroup → TaskGroup :=
  if bool_decide (jb_Type j = JobTypeBatch) then clearUpdate
  else if hasOldUpdate (jb_Update j) then upgradeGroup (baseUpdate (jb_Update j)) (length (jb_TaskGroups j) =? 1)%nat
  else id.

Lemma JobCanonicalize_eq j : (JobCanonicalize j).1 =
  j <| jb_TaskGroups := changeGroups j <$> (TaskGroupCanonicalize <$> jb_TaskGroups j) |>
    <| jb_ParameterizedJob ::= fmap ParameterizedCanonicalize |>
    <| jb_Update := if bool_decide (jb_Type j = JobTypeBatch) then noUpdate else jb_Update j |>.
Proof.
  destruct j as [stop region ID parent name type prio once dcs cons groups update periodic param payload meta status desc stable version submit create modify jobModify].
  unfold JobCanonicalize, changeGroups, upd_field. cbn -[fmap Z.ltb length Nat.eqb]. fold (hasOldUpdate update). fold (baseUpdate update).
  destruct (bool_decide_reflect (type = JobTypeBatch)) as [Hb|Hb].
  - rewrite (bool_decide_eq_false_2 (type ≠ JobTypeBatch)) by tauto. rewrite andb_false_r. cbn -[fmap length Nat.eqb]. by rewrite (bool_decide_eq_true_2 _ Hb).
  - rewrite (bool_decide_eq_true_2 (type ≠ JobTypeBatch)) by done. rewrite andb_true_r.
    destruct (hasOldUpdate update); cbn -[fmap length Nat.eqb]; rewrite (bool_decide_eq_false_2 _ Hb); cbn -[fmap length Nat.eqb].
    + by rewrite length_fmap.
    + by rewrite list_fmap_id.
Qed.

Lemma changeGroups_commutes j tg : TaskGroupCanonicalize (changeGroups j tg) = changeGroups j (TaskGroupCanonicalize tg).
Proof. unfold changeGroups. case_bool_decide; [by destruct tg|]. destruct (hasOldUpdate _); [apply upgradeGroup_commutes|done]. Qed.
Lemma changeGroups_idem j tg : changeGroups j (changeGroups j tg) = changeGroups j tg.
Proof. unfold changeGroups. case_bool_decide; [by destruct tg|]. destruct (hasOldUpdate _); [apply upgradeGroup_idem|done]. Qed.

Lemma job_same j gs f u : gs = jb_TaskGroups j → f (jb_ParameterizedJob j) = jb_ParameterizedJob j → u = jb_Update j →
  j <| jb_TaskGroups := gs |> <| jb_ParameterizedJob ::= f |> <| jb_Update := u |> = j.
Proof. intros -> Hf ->. destruct j. simpl in Hf. unfold upd_field. simpl. by rewrite Hf. Qed.

Lemma JobCanonicalize_idem j : (JobCanonicalize (JobCanonicalize j).1).1 = (JobCanonicalize j).1.
Proof.
  rewrite (JobCanonicalize_eq (JobCanonicalize j).1). rewrite JobCanonicalize_eq.
  set (gs := changeGroups j <$> (TaskGroupCanonicalize <$> jb_TaskGroups j)). set (u := if bool_decide (jb_Type j = JobTypeBatch) then _ else _).
  set (j' := j <| jb_TaskGroups := gs |> <| jb_ParameterizedJob ::= fmap ParameterizedCanonicalize |> <| jb_Update := u |>).
  assert (jb_Type j' = jb_Type j ∧ jb_TaskGroups j' = gs ∧ jb_Update j' = u ∧
    jb_ParameterizedJob j' = ParameterizedCanonicalize <$> jb_ParameterizedJob j) as (E1 & E2 & E3 & E4) by done.
  assert (changeGroups j' = changeGroups j) as Hc.
  { unfold changeGroups. rewrite E1, E2, E3. unfold u, gs. rewrite !length_fmap. by case_bool_decide. }
  apply job_same.
  - rewrite Hc, E2. apply canonical_groups; [apply changeGroups_commutes|apply changeGroups_idem].
  - rewrite E4. destruct (jb_ParameterizedJob j); simpl; [by rewrite ParameterizedCanonicalize_idem|done].
  - rewrite E1, E3. unfold u. by case_bool_decide.
Qed.
End idempotent.
End canon.
