(* ===== verification/Harness.v ===== *)
(** * Schedulers on a state store (src/scheduler/scheduler.go, testing.go; src/nomad/fsm.go)

    A scheduler reads the state store through the interface [State].  The harness is a
    planner that applies every plan to a store of its own; the state machine of the server
    uses it to find out how many allocations of each job are queued.  The times of the
    selections, the identifiers and the random source are arguments, as is the text of an
    error. *)

From stdpp Require Import base gmap strings list.
From Stdlib Require Import ZArith Lia.
From S2P Require Import Prelude GoText GoHeap Bitmap Structs Resources Jobs Allocs Network NetworkAssign Fit Plans AllocSets Reconcile SchedContext Feasible Stack SchedUtil SystemSched GenericSched MemDB StateStore.
Open Scope string_scope.
Open Scope list_scope.
Open Scope Z_scope.

#[export] Instance TaskGroupSummary_eq : EqDecision TaskGroupSummary.
Proof. solve_decision. Defined.
#[export] Instance JobChildrenSummary_eq : EqDecision JobChildrenSummary.
Proof. solve_decision. Defined.
#[export] Instance JobSummary_eq : EqDecision JobSummary.
Proof. solve_decision. Defined.

(** What the schedulers and the clock of the process provide: orders of maps, identifiers,
    the time of a selection, the random source with its pool of bitmaps, the wall clock and
    the text of an error. *)
Class SchedEnv := {
  env_names : gmap string Allocation → list (string * Allocation);
  env_set : allocSet → list (string * Allocation);
  env_matrix : allocMatrix → list (string * allocSet);
  env_nodes : gmap string (list Allocation) → list (string * list Allocation);
  env_groups : string → gmap string TaskGroup → list (string * TaskGroup);
  env_uuid : string → nat → string;
  env_elapsed : nat → Z;
  env_rand : nat;
  env_now : Z;
  errorText : GoError → string
}.

Section harness.
Context `{CaseLib} `{RangeOrder} `{TextLibs} `{StackLibs} `{SchedEnv}.

(** ** The store as the state of a scheduler *)

Definition textual {A} (r : GoError + A) : string + A :=
  match r with inl err => inl (errorText err) | inr a => inr a end.

Definition schedState (s : StateStore) : SchedState :=
  mkSchedState (textual (Nodes s)) (fun id => textual (NodeByID s id)) (fun id => textual (JobByID s id))
    (fun id terminal => textual (AllocsByNodeTerminal s id terminal)) (fun id all => textual (AllocsByJob s id all))
    (fun id => textual (LatestDeploymentByJobID s id)).

(** ** The harness (testing.go), without a custom planner *)

(** [hs_Live] is the store of the server, of which [hs_State] is a snapshot: as long as a
    deployment is the same in both, they share the object. *)
Record Harness := mkHarness {
  hs_State : StateStore;
  hs_Live : StateStore;
  hs_Plans : list Plan;
  hs_Evals : list Evaluation;
  hs_CreateEvals : list Evaluation;
  hs_ReblockEvals : list Evaluation;
  hs_nextIndex : Z
}.
#[global] Instance eta_Harness : Eta Harness := fun r =>
  mkHarness (hs_State r) (hs_Live r) (hs_Plans r) (hs_Evals r) (hs_CreateEvals r) (hs_ReblockEvals r) (hs_nextIndex r).

Definition HarnessSubmitPlan (h : Harness) (plan : Plan) : (option PlanResult * option SchedState * option string) * Harness :=
  let index := hs_nextIndex h in
  let h := h <| hs_Plans ::= fun l => l ++ [plan] |> <| hs_nextIndex := index + 1 |> in
  let result := mkPlanResult (pl_NodeUpdate plan) (pl_NodeAllocation plan) None [] 0 index in
  let allocs := concat (range (pl_NodeUpdate plan)).*2 ++ concat (range (pl_NodeAllocation plan)).*2 in
  let allocs := (fun a => if al_CreateTime a =? 0 then a <| al_CreateTime := env_now |> else a) <$> allocs in
  let req := mkApplyPlanResultsRequest (pl_Job plan) allocs (pl_Deployment plan) (pl_DeploymentUpdates plan) in
  let '(res, s) := UpsertPlanResults index req (hs_State h) in
  (Some result, None, match res with inl err => Some (errorText err) | inr _ => None end, h <| hs_State := s |>).

Definition HarnessReblockEval (h : Harness) (eval : Evaluation) : option string * Harness :=
  match EvalByID (hs_State h) (ev_ID eval) with
  | inl err => (Some (errorText err), h)
  | inr None => (Some "evaluation does not exist to be reblocked", h)
  | inr (Some old) =>
      if bool_decide (ev_Status old ≠ EvalStatusBlocked)
      then (Some (errorText (Errorf "evaluation %q is not already in a blocked state" [ev_ID old])), h)
      else (None, h <| hs_ReblockEvals ::= fun l => l ++ [eval] |>)
  end.

#[global] Instance HarnessPlanner : Planner Harness := {
  SubmitPlan := HarnessSubmitPlan;
  UpdateEval h e := (None, h <| hs_Evals ::= fun l => l ++ [e] |>);
  CreateEval h e := (None, h <| hs_CreateEvals ::= fun l => l ++ [e] |>);
  ReblockEval := HarnessReblockEval
}.

(** The placed canaries of a deployment are changed in place, in every store that holds
    the object. *)
Definition putGroups (d x : Deployment) : Deployment :=
  if bool_decide (d_ID x = d_ID d) then x <| d_TaskGroups := d_TaskGroups d |> else x.
Definition putDeployment (d : Deployment) (s : StateStore) : StateStore :=
  s <| st_deployment ::= fun t : gmap string (gmap string Deployment) => fmap (M := gmap string) (fmap (M := gmap string) (putGroups d)) t |>.

(** A deployment of the snapshot is the object of the server until one of them replaces
    it, which changes its index. *)
Definition sameDeployment (a b : Deployment) : bool :=
  bool_decide (d_CreateIndex a = d_CreateIndex b) && bool_decide (d_ModifyIndex a = d_ModifyIndex b).

Definition shareCanaries (h : Harness) (d : Deployment) : Harness :=
  let live := match DeploymentByID (hs_Live h) (d_ID d) with
              | inr (Some x) => if sameDeployment x d then putDeployment d (hs_Live h) else hs_Live h
              | _ => hs_Live h
              end in
  h <| hs_State ::= putDeployment d |> <| hs_Live := live |>.

(** ** Running a scheduler (scheduler.go) *)

(** The harness commits every plan, so that one attempt is all there is, and the scheduler
    reads nothing after its plan: the state it is given can be the store at the start. *)
Definition harnessFuel : nat := 10.

Definition processText (e : processError) : GoError :=
  match e with OneError err => Errorf "%v" [err] | ManyErrors errs => Errorf "%v" errs end.

(** [NewScheduler] and [Process]; [None] is a panic. *)
Definition runScheduler (eval : Evaluation) (h : Harness) : option (option GoError * Harness) :=
  let uuid := env_uuid (ev_ID eval) in
  let generic (s : GenericScheduler Harness) : option (option GoError * Harness) :=
    r ← GenericSched.Process env_names env_set env_matrix uuid env_elapsed shareCanaries harnessFuel eval s;
    Some (option_map processText r.1, gn_planner r.2) in
  if bool_decide (ev_Type eval = JobTypeService) then generic (NewServiceScheduler (schedState (hs_State h)) h env_rand [])
  else if bool_decide (ev_Type eval = JobTypeBatch) then generic (NewBatchScheduler (schedState (hs_State h)) h env_rand [])
  else if bool_decide (ev_Type eval = JobTypeSystem) then
    r ← SystemSched.Process env_nodes env_groups uuid env_elapsed harnessFuel eval
          (NewSystemScheduler (schedState (hs_State h)) h env_rand []);
    Some (option_map (fun err => Errorf "%v" [err]) r.1, ss_planner r.2)
  else Some (Some (Errorf "unknown scheduler '%s'" [ev_Type eval]), h).

(** ** Queued allocations (nomad/fsm.go) *)

Definition countQueued (tg : string) (n : Z) (summary : JobSummary) : GoError + JobSummary :=
  match js_Summary summary !! tg with
  | None => inl (Errorf "task group %q not found while updating queued count" [tg])
  | Some t => inr (summary <| js_Summary ::= <[tg := t <| tgs_Queued ::= fun q => wrap64 (q + n) |>]> |>)
  end.

Fixpoint countAllQueued (l : list (string * Z)) (summary : JobSummary) : GoError + JobSummary :=
  match l with
  | [] => inr summary
  | (tg, n) :: l => match countQueued tg n summary with inl err => inl err | inr summary => countAllQueued l summary end
  end.

Definition registerEval (id : string) (job : Job) : Evaluation :=
  zeroEvaluation <| ev_ID := id |> <| ev_Priority := jb_Priority job |> <| ev_Type := jb_Type job |>
    <| ev_TriggeredBy := EvalTriggerJobRegister |> <| ev_JobID := jb_ID job |> <| ev_JobModifyIndex := jb_JobModifyIndex job + 1 |>
    <| ev_Status := EvalStatusPending |> <| ev_AnnotatePlan := true |>.

(** The summary after a run: what the scheduler has placed, and what it counts as queued. *)
Definition queuedSummary (h : Harness) (summary : JobSummary) : GoError + JobSummary :=
  match hs_Plans h, hs_Evals h with
  | [plan], evals =>
      match countAllQueued ((fun a => (al_TaskGroup a, 1)) <$> concat (range (pl_NodeAllocation plan)).*2) summary with
      | inl err => inl err
      | inr summary =>
          match evals with
          | [eval] => countAllQueued (range (ev_QueuedAllocations eval)) summary
          | _ => inl (errorf "unexpected number of evals during restore %d. Please file an issue including the logs")
          end
      end
  | _, _ => inl (errorf "unexpected number of plans during restore %d. Please file an issue including the logs")
  end.

(** One job: the snapshot [snap] is shared by all runs, [live] is the store of the server. *)
Definition reconcileJob (index : Z) (id : string) (job : Job) (snap live : StateStore) : option ((GoError + unit) * StateStore * StateStore) :=
  r ← runScheduler (registerEval id job) (mkHarness snap live [] [] [] [] 0);
  let '(err, h) := r in
  let snap := hs_State h in
  let live := hs_Live h in
  match err with
  | Some err => Some (inl err, snap, live)
  | None =>
      match JobSummaryByID live (jb_ID job) with
      | inl err => Some (inl err, snap, live)
      | inr None => None
      | inr (Some original) =>
          match queuedSummary h original with
          | inl err => Some (inl err, snap, live)
          | inr summary =>
              if bool_decide (summary ≠ original) then
                let '(res, live) := UpsertJobSummary index (summary <| js_ModifyIndex := index |>) live in
                Some (res, snap, live)
              else Some (inr tt, snap, live)
          end
      end
  end.

Fixpoint reconcileJobs (index : Z) (ids : nat → string) (k : nat) (js : list Job) (snap live : StateStore)
    : option ((GoError + unit) * StateStore) :=
  match js with
  | [] => Some (inr tt, live)
  | job :: js =>
      r ← reconcileJob index (ids k) job snap live;
      match r with
      | (inl err, _, live) => Some (inl err, live)
      | (inr _, snap, live) => reconcileJobs index ids (S k) js snap live
      end
  end.

Definition reconcileQueuedAllocations (index : Z) (s : StateStore) : option ((GoError + unit) * StateStore) :=
  match Jobs s with
  | inl err => Some (inl err, s)
  | inr js => reconcileJobs index (env_uuid "") 0 js s s
  end.
End harness.
