(* ===== verification/HarnessSpec.v ===== *)
(** * Tables that cannot be told apart

    Tables of the database with the same trees for the indexes of their schema: no query
    distinguishes them.  The rows determine the other indexes, so a table that is filled
    again from its rows is the same, also when the rows are changed without a change of
    their keys. *)

From stdpp Require Import base gmap strings list.
From Stdlib Require Import ZArith Lia.
From S2P Require Import Prelude GoText GoHeap Bitmap Structs Resources Jobs Allocs Network NetworkAssign Fit Plans AllocSets Reconcile SchedContext Feasible Stack SchedUtil SystemSched GenericSched GenericLog MemDB MemDBSpec StateStore StoreSpec StoreInv Harness.
Open Scope string_scope.
Open Scope list_scope.
Open Scope Z_scope.

Section tables.
Context `{CaseLib} {V : Type} (sch : TableSchema V).
Implicit Types (t : Table V) (v : V).

(** The trees of the indexes of the schema are the same. *)
Definition sameTable t t' : Prop := ∀ ix, ix ∈ ts_Indexes sch → tree t (is_Name ix) = tree t' (is_Name ix).

#[export] Instance sameTable_equiv : Equivalence sameTable.
Proof.
  split; [by intros t ix|by intros t t' E ix Hix; rewrite E|]. intros a b c E E' ix Hix. by rewrite E, E'.
Qed.

#[export] Instance Get_same : Proper (sameTable ==> eq ==> eq ==> eq) (Get sch).
Proof.
  intros t t' E name _ <- args _ <-. unfold Get. destruct (getIndexValue sch name args) as [|[ix val]] eqn:Ei; [done|].
  apply getIndexValue_in in Ei. by rewrite (E ix Ei).
Qed.

#[export] Instance First_same : Proper (sameTable ==> eq ==> eq ==> eq) (First sch).
Proof.
  intros t t' E name _ <- args _ <-. unfold First. destruct (getIndexValue sch name args) as [|[ix val]] eqn:Ei; [done|].
  apply getIndexValue_in in Ei. by rewrite (E ix Ei).
Qed.

(** The rows determine the other indexes. *)
Lemma rows_same t t' : table_wf sch t → table_wf sch t' → rows t = rows t' → sameTable t t'.
Proof.
  intros [_ Hi] [_ Hi'] E ix [->|Hix]%elem_of_cons; [exact E|]. apply map_eq. intros key. apply option_eq. intros v.
  rewrite (Hi ix Hix key v), (Hi' ix Hix key v). by rewrite E.
Qed.

(** *** Rows that are changed without a change of their keys *)

Record sameKeys v v' : Prop := {
  sk_from : ∀ ix, ix ∈ ts_Indexes sch → FromObject (is_Indexer ix) v' = FromObject (is_Indexer ix) v;
  sk_proper : ∀ ix, ix ∈ ts_Indexes sch → proper (is_Indexer ix) v → proper (is_Indexer ix) v'
}.

Lemma sameKeys_row v v' : sameKeys v v' →
  primaryKey sch v' = primaryKey sch v ∧ (indexable sch v → indexable sch v') ∧ (properRow sch v → properRow sch v').
Proof.
  intros [Hf Hp]. assert (primaryKey sch v' = primaryKey sch v) as E.
  { pose proof (Hf (mkIndexSchema "id" false true (ts_id sch)) ltac:(by left)) as E. cbn [is_Indexer] in E. unfold primaryKey. by rewrite E. }
  split; [done|]. split.
  - intros [Hk Ho]. split; [by rewrite E|]. rewrite every_spec in Ho |- *. intros ix Hix.
    rewrite Hf by (by right). by apply Ho.
  - intros [Hi Ho]. split; [by apply (Hp (mkIndexSchema "id" false true (ts_id sch))); [left|]|].
    rewrite every_spec in Ho |- *. intros ix Hix. apply Hp; [by right|]. by apply Ho.
Qed.

Lemma fmap_wf (f : V → V) t t' : (∀ v, sameKeys v (f v)) → table_wf sch t →
  (∀ ix, ix ∈ ts_Indexes sch → tree t' (is_Name ix) = f <$> tree t (is_Name ix)) → table_wf sch t'.
Proof.
  intros Hf [Hr Hi] E. assert (rows t' = f <$> rows t) as Er by exact (E (mkIndexSchema "id" false true (ts_id sch)) ltac:(by left)). split.
  - intros k v. rewrite Er, lookup_fmap. intros (w & Hw & ->)%fmap_Some. destruct (Hr k w Hw) as (A & B & C).
    destruct (sameKeys_row w (f w) (Hf w)) as (Ek & Hx & Hp). rewrite Ek. auto.
  - intros ix Hix key v. rewrite (E ix) by (by right). rewrite lookup_fmap, fmap_Some. rewrite Er. split.
    + intros (w & (k & Hk & Hkey)%(Hi ix Hix) & ->). exists k. split; [apply lookup_fmap_Some; by exists w|].
      unfold indexKey in *. by rewrite (sk_from _ _ (Hf w)) by (by right).
    + intros (k & (w & <- & Hw)%lookup_fmap_Some & Hkey). exists w. split; [|done]. apply (Hi ix Hix). exists k. split; [done|].
      unfold indexKey in *. by rewrite (sk_from _ _ (Hf w)) in Hkey by (by right).
Qed.

(** The table with its rows changed. *)
Definition onRows (f : V → V) t : Table V := fmap (M := gmap string) (fmap (M := gmap string) f) t.

Lemma tree_onRows f t name : tree (onRows f t) name = f <$> tree t name.
Proof. unfold tree, onRows. rewrite lookup_fmap. destruct (t !! name); simpl; [done|]. by rewrite fmap_empty. Qed.

(** *** Refilling a table *)

Context (Hsch : schema_ok sch).

Fixpoint insertAll (l : list V) t : (GoError + unit) * Table V :=
  match l with
  | [] => (inr tt, t)
  | v :: l => match Insert sch v t with (inl err, t) => (inl err, t) | (inr _, t) => insertAll l t end
  end.

Lemma insertAll_spec (f : V → V) es : (∀ v, sameKeys v (f v)) → ∀ t, table_wf sch t →
  (∀ k v, (k, v) ∈ es → primaryKey sch v = inr k ∧ indexable sch v ∧ properRow sch v) →
  ∃ t', insertAll (f <$> es.*2) t = (inr tt, t') ∧ table_wf sch t' ∧
    rows t' = foldl (fun m kv => <[kv.1 := f kv.2]> m) (rows t) es.
Proof.
  intros Hf. induction es as [|[k v] es IH]; intros t Hwf Hes; [by exists t|]. cbn.
  destruct (Hes k v ltac:(by left)) as (Hk & Hi & Hp). destruct (sameKeys_row v (f v) (Hf v)) as (Ek & Hx & Hpr).
  pose proof (Insert_spec sch Hsch t (f v) Hwf (Hpr Hp)) as Hs. destruct (Insert sch (f v) t) as [[err|[]] t1]; [by destruct Hs; auto|].
  destruct Hs as (_ & Hwf1 & k' & Ek' & Er). rewrite Ek, Hk in Ek'. injection Ek' as <-.
  destruct (IH t1 Hwf1) as (t' & E & Hwf' & Er'); [intros k' v' Hin; apply Hes; by right|].
  exists t'. split; [done|]. split; [done|]. by rewrite Er', Er.
Qed.

Lemma fold_insert (f : V → V) es : NoDup es.*1 → ∀ m : gmap string V, (∀ k, k ∈ es.*1 → m !! k = None) →
  ∀ k, foldl (fun m kv => <[kv.1 := f kv.2]> m) m es !! k =
       match list_to_map (M := gmap string V) es !! k with Some v => Some (f v) | None => m !! k end.
Proof.
  induction es as [|[k0 v] es IH]; intros Hnd m Hm k; cbn; [by rewrite lookup_empty|].
  apply NoDup_cons in Hnd as [Hk0 Hnd]. rewrite IH; [|done|].
  - destruct (decide (k = k0)) as [->|Hne].
    + rewrite lookup_insert_eq. rewrite not_elem_of_list_to_map_1 by done. by rewrite lookup_insert_eq.
    + by rewrite !lookup_insert_ne by done.
  - intros k' Hk'. rewrite lookup_insert_ne; [apply Hm; by right|]. by intros <-.
Qed.

Lemma entries_all (m : gmap string V) : list_to_map (entries "" m) = m.
Proof.
  apply map_eq. intros k. apply option_eq. intros v. rewrite <- elem_of_list_to_map by apply entries_NoDup.
  rewrite elem_of_entries. split; [by intros []|]. intros Hk. split; [done|]. apply prefix_app_iff. by exists k.
Qed.

(** The rows of a table, in the order of a scan, inserted into an empty one. *)
Lemma refill (f : V → V) t : (∀ v, sameKeys v (f v)) → table_wf sch t →
  ∃ t', insertAll (f <$> scan "" (rows t)) ∅ = (inr tt, t') ∧ sameTable t' (onRows f t).
Proof.
  intros Hf Hwf. assert (table_wf sch ∅) as H0.
  { assert (∀ name, tree (V := V) ∅ name = ∅) as E0 by (intros name; unfold tree; by rewrite lookup_empty).
    split; [intros k v; unfold rows; rewrite E0; by rewrite lookup_empty|].
    intros ix _ key v. unfold rows. rewrite !E0. setoid_rewrite lookup_empty. naive_solver. }
  destruct (insertAll_spec f (entries "" (rows t)) Hf ∅ H0) as (t' & E & Hwf' & Er).
  { intros k v [Hk _]%elem_of_entries. by apply (tw_rows _ _ Hwf). }
  exists t'. split; [done|]. apply rows_same; [done|apply (fmap_wf f t); auto using tree_onRows|].
  rewrite Er. unfold rows at 3. rewrite tree_onRows. apply map_eq. intros k.
  rewrite fold_insert; [|apply entries_NoDup|by intros]. rewrite entries_all, lookup_fmap. fold (rows t). by destruct (rows t !! k).
Qed.
End tables.

(** * What a scheduler changes

    A scheduler changes its planner only through the calls of the interface, and, where it
    places canaries, the deployment it shares with the server.  So a run of a scheduler on a
    snapshot leaves the store of the server well formed, and the same up to the canaries
    that are counted in place. *)

Lemma retryLoop_keeps {S W} (f : S → W) (R : relation W) `{!PreOrder R} (cb : S → option ((string + bool) * S)) (reset : S → bool) :
  (∀ s r s', cb s = Some (r, s') → R (f s) (f s')) →
  ∀ max fuel attempts s res s', retryLoop fuel max attempts cb reset s = Some (res, s') → R (f s) (f s').
Proof.
  intros Hcb max. induction fuel as [|fuel IH]; intros attempts s res s'; cbn [retryLoop]; [done|].
  destruct (attempts <? max); [|by intros [= _ <-]]. destruct (cb s) as [[r s1]|] eqn:E; cbn [mbind option_bind]; [|done].
  apply Hcb in E. destruct r as [err|[]]; [by intros [= _ <-]|by intros [= _ <-]|]. intros E'. apply IH in E'. by etrans.
Qed.

(** ** The system scheduler *)

Section system.
Context `{TextLibs} `{StackLibs} `{Planner W}.
Context (rangeNodes : gmap string (list Allocation) → list (string * list Allocation)).
Context (rangeGroups : string → gmap string TaskGroup → list (string * TaskGroup)).
Context (uuid : nat → string) (elapsed : nat → Z).
Implicit Type s : SystemScheduler W.

Lemma dequeueFiltered_planner name s s' : dequeueFiltered name s = Some s' → ss_planner s' = ss_planner s.
Proof. unfold dequeueFiltered. intros E. repeat case_match; simplify_option_eq; done. Qed.

Lemma placeOne_planner m node s s' : placeOne uuid elapsed m node s = Some s' → ss_planner s' = ss_planner s.
Proof.
  unfold placeOne. destruct (at_TaskGroup m) as [tg|]; cbn [mbind option_bind]; [|done].
  destruct (SystemSelect _ _ _) as [[[opt sz] stack]|]; cbn [mbind option_bind]; [|done]. destruct opt as [opt|].
  - destruct (tg_EphemeralDisk tg); cbn [mbind option_bind]; [|done]. destruct (ss_job _); cbn [mbind option_bind]; [|done]. by intros [= <-].
  - destruct (dequeueFiltered _ _) as [s1|] eqn:E; cbn [mbind option_bind]; [|done]. apply dequeueFiltered_planner in E.
    intros [= <-]. by case_match.
Qed.

Lemma placeAll_planner byID place : ∀ s err s', placeAll uuid elapsed byID place s = Some (err, s') → ss_planner s' = ss_planner s.
Proof.
  induction place as [|m place IH]; intros s err s'; cbn [placeAll]; [by intros [= _ <-]|].
  destruct (at_Alloc m) as [a|]; cbn [mbind option_bind]; [|done]. destruct (byID !! al_NodeID a) as [node|]; [|by intros [= _ <-]].
  destruct (placeOne _ _ m node s) as [s1|] eqn:E; cbn [mbind option_bind]; [|done]. intros E'.
  apply placeOne_planner in E. apply IH in E'. congruence.
Qed.

Lemma fold_addQueued_planner names : ∀ s, ss_planner (foldl (fun s name => addQueued name 1 s) s names) = ss_planner s.
Proof. induction names as [|name names IH]; intros s; [done|]. cbn [foldl]. by rewrite IH. Qed.

Lemma applySystemDiff_planner diff s err s' : applySystemDiff uuid elapsed diff s = Some (err, s') → ss_planner s' = ss_planner s.
Proof.
  unfold applySystemDiff. destruct (stopTuples _ _ _ _) as [p1|]; cbn [mbind option_bind]; [|done].
  destruct (stopTuples _ _ _ _) as [p2|]; cbn [mbind option_bind]; [|done].
  destruct (inplaceUpdate _ _ _ _ _ _ _) as [[[[de ip] clock] stack]|]; cbn [mbind option_bind]; [|done].
  unfold annotatePlan. set (s1 := _ <| ss_clock := clock |>).
  destruct (if ev_AnnotatePlan (ss_eval s1) then _ else _) as [s2|] eqn:E2; cbn [mbind option_bind]; [|done].
  assert (ss_planner s2 = ss_planner s) as Es2.
  { destruct (ev_AnnotatePlan (ss_eval s1)); [|by injection E2 as <-].
    destruct (desiredUpdates _ _ _); cbn [mbind option_bind] in E2; [|done]. by injection E2 as <-. }
  destruct (evictAndPlace _ _ _ _ _) as [[[[lr lim] d'] p3]|]; cbn [mbind option_bind]; [|done].
  clear E2. unfold placeDiff. destruct (length (dr_place d') =? 0)%nat; [intros [= _ <-]; exact Es2|].
  destruct (groupNames _) as [names|]; cbn [mbind option_bind]; [|done]. unfold computeSystemPlacements. intros E.
  apply placeAll_planner in E. rewrite fold_addQueued_planner in E. by rewrite E.
Qed.

Lemma computeJobAllocs_planner s err s' :
  SystemSched.computeJobAllocs rangeNodes rangeGroups uuid elapsed s = Some (err, s') → ss_planner s' = ss_planner s.
Proof.
  unfold SystemSched.computeJobAllocs. destruct (sc_AllocsByJob _ _ _) as [e|allocs]; [by intros [= _ <-]|].
  destruct (taintedNodes _ _ _) as [[e|tainted]|]; cbn [mbind option_bind]; [by intros [= _ <-]| |done].
  destruct (FilterTerminalAllocs allocs) as [live term]. destruct (diffSystemAllocs _ _ _ _ _ _ _) as [diff|]; cbn [mbind option_bind]; [|done].
  intros E. apply applySystemDiff_planner in E. by rewrite E.
Qed.

(** A relation that every call of the planner respects. *)
Context (R : relation W) `{!PreOrder R}.
Record respected : Prop := {
  re_submit : ∀ w p, R w (SubmitPlan w p).2;
  re_update : ∀ w e, R w (UpdateEval w e).2;
  re_create : ∀ w e, R w (CreateEval w e).2;
  re_reblock : ∀ w e, R w (ReblockEval w e).2
}.
Context (HR : respected).

Lemma beginAttempt_planner s : ss_planner (SystemSched.beginAttempt s).2 = ss_planner s.
Proof.
  unfold SystemSched.beginAttempt. destruct (sc_JobByID _ _) as [e|job]; [done|]. cbv zeta. destruct (match job with Some j => _ | None => _ end) as [e|[nodes byDC]]; done.
Qed.

Lemma followUpSystem_R s err s' : SystemSched.followUp uuid s = Some (err, s') → R (ss_planner s) (ss_planner s').
Proof.
  unfold SystemSched.followUp. case_match; [|by intros [= _ <-]]. destruct (ss_job s) as [job|]; cbn [mbind option_bind]; [|done].
  cbv zeta. match goal with |- context [CreateEval ?w ?e] => pose proof (re_create HR w e) as Hc; destruct (CreateEval w e) as [er w'] end.
  intros [= _ <-]. exact Hc.
Qed.

Lemma submitSystem_R s r s' : SystemSched.submit s = Some (r, s') → R (ss_planner s) (ss_planner s').
Proof.
  unfold SystemSched.submit. pose proof (re_submit HR (ss_planner s) (plan_of s)) as Hsub.
  destruct (SubmitPlan (ss_planner s) (plan_of s)) as [[[res st] e] w]. cbn [snd] in Hsub.
  destruct e as [e|]; [by intros [= _ <-]|]. destruct st as [st|]; [by intros [= _ <-]|].
  destruct (committed _ _) as [b|]; cbn [mbind option_bind]; [by intros [= _ <-]|done].
Qed.

Lemma process_R s r s' : SystemSched.process rangeNodes rangeGroups uuid elapsed s = Some (r, s') → R (ss_planner s) (ss_planner s').
Proof.
  unfold SystemSched.process. pose proof (beginAttempt_planner s) as Eb. destruct (SystemSched.beginAttempt s) as [[err|] s1]; cbn [snd] in Eb;
    rewrite <- Eb; [by intros [= _ <-]|].
  destruct (SystemSched.computeJobAllocs _ _ _ _ s1) as [[err s2]|] eqn:E2; cbn [mbind option_bind]; [|done].
  apply computeJobAllocs_planner in E2. rewrite <- E2. destruct err as [err|]; [by intros [= _ <-]|]. case_match; [by intros [= _ <-]|].
  destruct (SystemSched.followUp uuid s2) as [[err s3]|] eqn:E3; cbn [mbind option_bind]; [|done]. apply followUpSystem_R in E3.
  destruct err as [err|]; [by intros [= _ <-]|]. intros E4%submitSystem_R. by etrans.
Qed.

Lemma finish_R status desc s : R (ss_planner s) (ss_planner (SystemSched.finish status desc s).2).
Proof.
  unfold SystemSched.finish, setStatus. cbv zeta.
  match goal with |- context [UpdateEval ?w ?e] => pose proof (re_update HR w e) as Hu; destruct (UpdateEval w e) as [er w'] end. exact Hu.
Qed.

Lemma SystemProcess_R fuel eval s r s' :
  SystemSched.Process rangeNodes rangeGroups uuid elapsed fuel eval s = Some (r, s') → R (ss_planner s) (ss_planner s').
Proof.
  unfold SystemSched.Process. set (s0 := s <| ss_eval := eval |>). change (ss_planner s) with (ss_planner s0).
  assert (∀ st d x e x', SystemSched.finish st d x = (e, x') → R (ss_planner x) (ss_planner x')) as Hf
    by (intros st d x e x' E; pose proof (finish_R st d x) as Hx; by rewrite E in Hx).
  destruct (SystemSched.handles _); [|intros [= E]; by apply Hf in E].
  destruct (retryMax _ _ _ _ s0) as [[res s1]|] eqn:E1; cbn [mbind option_bind]; [|done].
  apply (retryLoop_keeps ss_planner R _ _ process_R) in E1.
  destruct res; [intros [= E]; apply Hf in E; by etrans|by intros [= _ <-]|]. intros [= E]. apply Hf in E. by etrans.
Qed.
End system.

(** ** The generic scheduler *)

Section generic.
Context `{TextLibs} `{StackLibs} `{Planner W}.
Context (rangeNames : gmap string Allocation → list (string * Allocation)).
Context (rangeSet : allocSet → list (string * Allocation)) (rangeMatrix : allocMatrix → list (string * allocSet)).
Context (uuid : nat → string) (elapsed : nat → Z) (shareDeployment : W → Deployment → W).
Context (R : relation W) `{!PreOrder R} (R_share : ∀ w d, R w (shareDeployment w d)) (HR : respected R).
Implicit Type s : GenericScheduler W.

Lemma createBlockedEval_R failure s : R (gn_planner s) (gn_planner (createBlockedEval uuid failure s).2).
Proof.
  unfold createBlockedEval. cbv zeta.
  match goal with |- context [CreateEval ?w ?e] => pose proof (re_create R HR w e) as Hc; destruct (CreateEval w e) as [er w'] end. exact Hc.
Qed.

Lemma genericFinish_R status desc s : R (gn_planner s) (gn_planner (GenericSched.finish status desc s).2).
Proof.
  unfold GenericSched.finish, setStatus. cbv zeta.
  match goal with |- context [UpdateEval ?w ?e] => pose proof (re_update R HR w e) as Hu; destruct (UpdateEval w e) as [er w'] end. exact Hu.
Qed.

Lemma blockFailed_R s : R (gn_planner s) (gn_planner (blockFailed uuid s).2).
Proof. unfold blockFailed. case_match; [apply createBlockedEval_R|done]. Qed.

Lemma followUp_R s : R (gn_planner s) (gn_planner (GenericSched.followUp uuid s).2).
Proof.
  unfold GenericSched.followUp. case_match; [|done]. cbv zeta.
  match goal with |- context [CreateEval ?w ?e] => pose proof (re_create R HR w e) as Hc; destruct (CreateEval w e) as [er w'] end. exact Hc.
Qed.

Lemma genericProcess_R s r s' :
  GenericSched.process rangeNames rangeSet rangeMatrix uuid elapsed shareDeployment s = Some (r, s') → R (gn_planner s) (gn_planner s').
Proof.
  unfold GenericSched.process. destruct (GenericSched.beginAttempt s) as [err s1] eqn:E1.
  apply (beginAttempt_kin R) in E1 as (_ & _ & E1). destruct err as [err|]; [by intros [= _ <-]|].
  destruct (GenericSched.computeJobAllocs _ _ _ _ _ _ s1) as [[err s2]|] eqn:E2; cbn [mbind option_bind]; [|done].
  apply (computeJobAllocs_kin _ _ _ _ _ _ R R_share) in E2 as (_ & _ & E2). rewrite E2 in E1. destruct err as [err|]; [by intros [= _ <-]|].
  pose proof (blockFailed_R s2) as E3. destruct (blockFailed uuid s2) as [[err|] s3]; cbn [snd] in E3; rewrite E3 in E1; [by intros [= _ <-]|].
  case_match; [by intros [= _ <-]|]. pose proof (followUp_R s3) as E4.
  destruct (GenericSched.followUp uuid s3) as [[err|] s4]; cbn [snd] in E4; rewrite E4 in E1; [by intros [= _ <-]|].
  unfold GenericSched.submit. pose proof (re_submit R HR (gn_planner s4) (planOf s4)) as Hsub.
  destruct (SubmitPlan (gn_planner s4) (planOf s4)) as [[[res st] e] w]. cbn [snd] in Hsub. rewrite Hsub in E1.
  destruct e as [e|]; [by intros [= _ <-]|]. destruct st as [st|]; [by intros [= _ <-]|].
  destruct (committed _ _) as [[]|]; cbn [mbind option_bind]; [by intros [= _ <-]..|done].
Qed.

Lemma conclude_R s : R (gn_planner s) (gn_planner (conclude s).2).
Proof.
  unfold conclude. case_match; [|apply genericFinish_R]. cbv zeta.
  match goal with |- context [ReblockEval ?w ?e] => pose proof (re_reblock R HR w e) as Hc; destruct (ReblockEval w e) as [er w'] end. exact Hc.
Qed.

Lemma giveUp_R s : R (gn_planner s) (gn_planner (giveUp uuid s).2).
Proof.
  unfold giveUp. pose proof (createBlockedEval_R true s) as E1. destruct (createBlockedEval uuid true s) as [e1 s1]. cbn [snd] in E1.
  pose proof (genericFinish_R EvalStatusFailed ("maximum attempts reached (" +:+ formatInt (attemptLimit s1) +:+ ")") s1) as E2.
  destruct (GenericSched.finish _ _ s1) as [e2 s2]. cbn [snd] in *. by etrans.
Qed.

Lemma GenericProcess_R fuel eval s r s' :
  GenericSched.Process rangeNames rangeSet rangeMatrix uuid elapsed shareDeployment fuel eval s = Some (r, s') → R (gn_planner s) (gn_planner s').
Proof.
  unfold GenericSched.Process. set (s0 := s <| gn_eval := eval |>). change (gn_planner s) with (gn_planner s0). destruct (GenericSched.handles _).
  - destruct (retryMax _ _ _ _ s0) as [[res s1]|] eqn:E1; cbn [mbind option_bind]; [|done].
    apply (retryLoop_keeps gn_planner R _ _ genericProcess_R) in E1. destruct res; [|by intros [= _ <-]|].
    + pose proof (conclude_R s1) as E2. destruct (conclude s1) as [e s2]. intros [= _ <-]. by etrans.
    + pose proof (giveUp_R s1) as E2. destruct (giveUp uuid s1) as [e s2]. intros [= _ <-]. by etrans.
  - match goal with |- context [GenericSched.finish ?st ?d s0] => pose proof (genericFinish_R st d s0) as E2; destruct (GenericSched.finish st d s0) as [e s2] end.
    intros [= _ <-]. exact E2.
Qed.
End generic.

(** ** The harness *)

Section harness.
Context `{CaseLib} `{!CaseLaws} `{RangeOrder} `{TextLibs} `{StackLibs} `{SchedEnv}.
Implicit Type h : Harness.

Lemma putGroups_keys d x : sameKeys deploymentSchema x (putGroups d x).
Proof.
  assert (d_ID (putGroups d x) = d_ID x ∧ d_JobID (putGroups d x) = d_JobID x) as [E1 E2] by (unfold putGroups; by case_bool_decide).
  split; intros ix Hix; cbn in Hix; repeat (apply elem_of_cons in Hix as [->|Hix]); try (by apply elem_of_nil in Hix).
  all: cbn -[putGroups]; by rewrite ?E1, ?E2.
Qed.

Lemma putDeployment_ok d s : store_ok s → store_ok (putDeployment d s).
Proof.
  intros Hs. apply (ref_ok_set (r := deployment) s (onRows (putGroups d) (st_deployment s)) Hs). destruct (ok_deployment s Hs) as [Hwf _].
  split; [|done]. apply (fmap_wf deploymentSchema (putGroups d) (st_deployment s)); [apply putGroups_keys|done|]. intros ix _. apply tree_onRows.
Qed.

(** The store of the server stays well formed. *)
Definition liveKept h h' : Prop := store_ok (hs_Live h) → store_ok (hs_Live h').
#[export] Instance liveKept_preorder : PreOrder liveKept.
Proof. split; [intros h Hh; exact Hh|]. intros a b c Hab Hbc Ha. auto. Qed.

Lemma harness_respected : respected liveKept.
Proof.
  assert (∀ h h', hs_Live h' = hs_Live h → liveKept h h') as Hl by (intros h h' E; unfold liveKept; by rewrite E).
  split; intros h x; apply Hl; cbn; [|done..|].
  - unfold HarnessSubmitPlan. cbv zeta. by destruct (UpsertPlanResults _ _ _) as [[err|[]] s].
  - unfold HarnessReblockEval. repeat case_match; done.
Qed.

Lemma shareCanaries_live h d : liveKept h (shareCanaries h d).
Proof. intros Hs. unfold shareCanaries. cbn. repeat case_match; auto using putDeployment_ok. Qed.

Lemma runScheduler_live eval h err h' : runScheduler eval h = Some (err, h') → store_ok (hs_Live h) → store_ok (hs_Live h').
Proof.
  unfold runScheduler. cbv zeta. pose proof harness_respected as HR. pose proof shareCanaries_live as Hsh. repeat case_bool_decide.
  - destruct (GenericSched.Process _ _ _ _ _ _ _ _ _) as [[r s']|] eqn:E; cbn [mbind option_bind]; [|done].
    apply (GenericProcess_R _ _ _ _ _ _ liveKept Hsh HR) in E. intros [= _ <-]. exact E.
  - destruct (GenericSched.Process _ _ _ _ _ _ _ _ _) as [[r s']|] eqn:E; cbn [mbind option_bind]; [|done].
    apply (GenericProcess_R _ _ _ _ _ _ liveKept Hsh HR) in E. intros [= _ <-]. exact E.
  - destruct (SystemSched.Process _ _ _ _ _ _ _) as [[r s']|] eqn:E; cbn [mbind option_bind]; [|done].
    apply (SystemProcess_R _ _ _ _ liveKept HR) in E. intros [= _ <-]. exact E.
  - by intros [= _ <-].
Qed.

(** *** One attempt is enough *)

Lemma FullCommit_all r (plan : Plan) : pr_NodeAllocation r = pl_NodeAllocation plan → (FullCommit r plan).1.1 = true.
Proof.
  intros E. unfold FullCommit. rewrite E. set (m := pl_NodeAllocation plan).
  assert (∀ l ea, (∀ kl, kl ∈ l → m !! kl.1 = Some kl.2) → ea.1 = ea.2 →
    let ea' := foldl (fun (ea : Z * Z) (kl : string * list Allocation) =>
      (wrap64 (ea.1 + Z.of_nat (length kl.2)), wrap64 (ea.2 + Z.of_nat (length (default [] (m !! kl.1)))))) ea l in ea'.1 = ea'.2) as Hf.
  { induction l as [|kl l IH]; intros ea Hl He; [done|]. cbn [foldl]. apply IH; [intros kl' Hin; apply Hl; by right|].
    cbn [fst snd]. rewrite (Hl kl ltac:(by left)). cbn [default]. by rewrite He. }
  specialize (Hf (map_to_list m) (0, 0)). destruct (foldl _ _ _) as [a b]. cbn in *. apply Z.eqb_eq. symmetry. apply Hf; [|done].
  intros [k l] Hin. by apply elem_of_map_to_list in Hin.
Qed.

Lemma retryLoop_once {S} (cb : S → option ((string + bool) * S)) (reset : S → bool) max s fuel fuel' :
  (∀ s r s', cb s = Some (r, s') → r ≠ inr false) → (0 < fuel)%nat → (0 < fuel')%nat →
  retryMax fuel max cb reset s = retryMax fuel' max cb reset s.
Proof.
  intros Hcb Hf Hf'. destruct fuel as [|fuel], fuel' as [|fuel']; [lia..|]. unfold retryMax. cbn [retryLoop]. destruct (0 <? max); [|done].
  destruct (cb s) as [[[err|[]] s1]|] eqn:E; try done. by apply Hcb in E.
Qed.

Lemma harness_system_once (s : SystemScheduler Harness) r s' : SystemSched.submit s = Some (r, s') → r ≠ inr false.
Proof.
  unfold SystemSched.submit. cbn [SubmitPlan HarnessPlanner]. unfold HarnessSubmitPlan. cbv zeta.
  destruct (UpsertPlanResults _ _ _) as [res st]. set (result := mkPlanResult _ _ _ _ _ _).
  destruct (match res with inl err => _ | inr _ => _ end); [by intros [= <- _]|]. cbn [committed mbind option_bind].
  rewrite FullCommit_all by done. by intros [= <- _].
Qed.

Lemma harness_generic_once (s : GenericScheduler Harness) r s' : GenericSched.submit s = Some (r, s') → r ≠ inr false.
Proof.
  unfold GenericSched.submit. cbn [SubmitPlan HarnessPlanner]. unfold HarnessSubmitPlan. cbv zeta.
  destruct (UpsertPlanResults _ _ _) as [res st]. set (result := mkPlanResult _ _ _ _ _ _).
  destruct (match res with inl err => _ | inr _ => _ end); [by intros [= <- _]|]. cbn [committed mbind option_bind].
  rewrite FullCommit_all by done. by intros [= <- _].
Qed.

(** The fuel of the harness does not matter: an evaluation ends after one attempt. *)
Lemma system_fuel uuid fuel eval (s : SystemScheduler Harness) : (0 < fuel)%nat →
  SystemSched.Process env_nodes env_groups uuid env_elapsed fuel eval s =
  SystemSched.Process env_nodes env_groups uuid env_elapsed harnessFuel eval s.
Proof.
  intros Hf. unfold SystemSched.Process. cbv zeta. destruct (SystemSched.handles _); [|done].
  rewrite (retryLoop_once _ _ _ _ fuel harnessFuel); [done| |done|unfold harnessFuel; lia].
  intros x r x'. unfold SystemSched.process. destruct (SystemSched.beginAttempt x) as [[err|] s1]; [by intros [= <- _]|].
  destruct (SystemSched.computeJobAllocs _ _ _ _ s1) as [[[err|] s2]|]; cbn [mbind option_bind]; [by intros [= <- _]| |done].
  case_match; [by intros [= <- _]|]. destruct (SystemSched.followUp uuid s2) as [[[err|] s3]|]; cbn [mbind option_bind]; [by intros [= <- _]| |done].
  apply harness_system_once.
Qed.

Lemma generic_fuel uuid fuel eval (s : GenericScheduler Harness) : (0 < fuel)%nat →
  GenericSched.Process env_names env_set env_matrix uuid env_elapsed shareCanaries fuel eval s =
  GenericSched.Process env_names env_set env_matrix uuid env_elapsed shareCanaries harnessFuel eval s.
Proof.
  intros Hf. unfold GenericSched.Process. cbv zeta. destruct (GenericSched.handles _); [|done].
  rewrite (retryLoop_once _ _ _ _ fuel harnessFuel); [done| |done|unfold harnessFuel; lia].
  intros x r x'. unfold GenericSched.process. destruct (GenericSched.beginAttempt x) as [[err|] s1]; [by intros [= <- _]|].
  destruct (GenericSched.computeJobAllocs _ _ _ _ _ _ s1) as [[[err|] s2]|]; cbn [mbind option_bind]; [by intros [= <- _]| |done].
  destruct (blockFailed uuid s2) as [[err|] s3]; [by intros [= <- _]|]. case_match; [by intros [= <- _]|].
  destruct (GenericSched.followUp uuid s3) as [[err|] s4]; [by intros [= <- _]|]. apply harness_generic_once.
Qed.

(** *** The queued allocations *)

Lemma countQueued_id tg n summary summary' : countQueued tg n summary = inr summary' → js_JobID summary' = js_JobID summary.
Proof. unfold countQueued. case_match; [|done]. by intros [= <-]. Qed.

Lemma countAllQueued_id l : ∀ summary summary', countAllQueued l summary = inr summary' → js_JobID summary' = js_JobID summary.
Proof.
  induction l as [|[tg n] l IH]; intros summary summary'; cbn [countAllQueued]; [by intros [= <-]|].
  destruct (countQueued tg n summary) as [e|s1] eqn:E; [done|]. apply countQueued_id in E. intros E'%IH. congruence.
Qed.

Lemma queuedSummary_id h summary summary' : queuedSummary h summary = inr summary' → js_JobID summary' = js_JobID summary.
Proof.
  unfold queuedSummary. destruct (hs_Plans h) as [|plan [|]]; [done| |done].
  destruct (countAllQueued _ summary) as [e|s1] eqn:E; [done|]. apply countAllQueued_id in E.
  destruct (hs_Evals h) as [|eval [|]]; [done| |done]. intros E'%countAllQueued_id. congruence.
Qed.

Lemma reconcileJob_ok index id job snap live res snap' live' :
  reconcileJob index id job snap live = Some (res, snap', live') → store_ok live → store_ok live'.
Proof.
  unfold reconcileJob. destruct (runScheduler _ _) as [[err h]|] eqn:E; cbn [mbind option_bind]; [|done].
  intros E' Hs. pose proof (runScheduler_live _ _ _ _ E Hs) as Hl. clear E Hs.
  destruct err as [err|]; [by injection E' as _ _ <-|].
  destruct (JobSummaryByID (hs_Live h) (jb_ID job)) as [e|[original|]] eqn:Eo; [by injection E' as _ _ <-| |done].
  destruct (queuedSummary h original) as [e|summary] eqn:Eq; [by injection E' as _ _ <-|]. case_bool_decide; [|by injection E' as _ _ <-].
  assert (good job_summary original) as [Hp _].
  { pose proof (keeps_firstByID job_summary False (jb_ID job) (hs_Live h) Hl) as Hk. unfold firstByID, txnFirst in Hk.
    change (queryFirst job_summary (hs_Live h) "id" [AString (jb_ID job)]) with (JobSummaryByID (hs_Live h) (jb_ID job)) in Hk.
    rewrite Eo in Hk. by apply Hk. }
  assert (properRow jobSummarySchema (summary <| js_ModifyIndex := index |>)) as Hps.
  { apply queuedSummary_id in Eq. revert Hp. unfold properRow, proper. cbn -[properString]. by rewrite Eq. }
  pose proof (applyOp_ok index (OpUpsertJobSummary (summary <| js_ModifyIndex := index |>)) (hs_Live h) Hps Hl) as Hok. cbn [applyOp] in Hok.
  destruct (UpsertJobSummary _ _ _) as [r live2]. by injection E' as _ _ <-.
Qed.

Lemma reconcileQueuedAllocations_ok index s res s' :
  reconcileQueuedAllocations index s = Some (res, s') → store_ok s → store_ok s'.
Proof.
  unfold reconcileQueuedAllocations. destruct (Jobs s) as [e|js]; [by intros [= _ <-]|].
  assert (∀ js k snap live, reconcileJobs index (env_uuid "") k js snap live = Some (res, s') → store_ok live → store_ok s') as Hj; [|apply Hj].
  clear js. induction js as [|job js IH]; intros k snap live; cbn [reconcileJobs]; [by intros [= _ <-]|].
  destruct (reconcileJob _ _ job snap live) as [[[r snap'] live']|] eqn:E; cbn [mbind option_bind]; [|done].
  intros E' Hs. apply reconcileJob_ok in E; [|done]. destruct r; [by injection E' as _ <-|]. by eapply IH.
Qed.
End harness.
