(* ===== verification/Fsm.v ===== *)
(** * The replicated state machine (src/nomad/fsm.go)

    The handlers of the log, the snapshot and its restoration.  The encoding of the
    messages (msgpack) is a parameter, as is the clock.  A handler is a computation over the
    state machine that can fail with an error or panic ([None]).

    The broker is the one that the tracker of the blocked evaluations holds.  A request is
    decoded into objects that the store takes over and writes to: [stampedEval] and
    [registeredJob] are those objects after the store has changed them. *)

From stdpp Require Import base gmap strings list.
From Stdlib Require Import ZArith Lia.
From S2P Require Import Prelude GoText GoHeap Timers Structs EvalBroker BlockedEvals BlockedEvalsProps Bitmap Resources Jobs Allocs Network NetworkAssign Fit Plans SchedContext Feasible Stack SchedUtil MemDB StateStore TimeTable Periodic JobCanon Harness.
Open Scope string_scope.
Open Scope list_scope.
Open Scope Z_scope.

(** ** Requests (structs.go), without the region, which is not read here *)

Record NodeRegisterRequest := mkNodeRegisterRequest { nr_Node : option Node }.
Record NodeDeregisterRequest := mkNodeDeregisterRequest { ndr_NodeID : string }.
Record NodeUpdateStatusRequest := mkNodeUpdateStatusRequest { nus_NodeID : string; nus_Status : string }.
Record NodeUpdateDrainRequest := mkNodeUpdateDrainRequest { nud_NodeID : string; nud_Drain : bool }.
Record JobRegisterRequest := mkJobRegisterRequest { jrr_Job : option Job; jrr_EnforceIndex : bool; jrr_JobModifyIndex : Z }.
Record JobDeregisterRequest := mkJobDeregisterRequest { jdr_JobID : string; jdr_Purge : bool }.
Record EvalUpdateRequest := mkEvalUpdateRequest { eu_Evals : list Evaluation; eu_EvalToken : string }.
Record EvalDeleteRequest := mkEvalDeleteRequest { ed_Evals : list string; ed_Allocs : list string }.
Record AllocUpdateRequest := mkAllocUpdateRequest { au_Alloc : list Allocation; au_Job : option Job }.
Record VaultAccessorsRequest := mkVaultAccessorsRequest { va_Accessors : list VaultAccessor }.
Record DeploymentDeleteRequest := mkDeploymentDeleteRequest { dd_Deployments : list string }.
Record JobStabilityRequest := mkJobStabilityRequest { jst_JobID : string; jst_JobVersion : Z; jst_Stable : bool }.

Definition NodeRegisterRequestType : Z := 0.
Definition NodeDeregisterRequestType : Z := 1.
Definition NodeUpdateStatusRequestType : Z := 2.
Definition NodeUpdateDrainRequestType : Z := 3.
Definition JobRegisterRequestType : Z := 4.
Definition JobDeregisterRequestType : Z := 5.
Definition EvalUpdateRequestType : Z := 6.
Definition EvalDeleteRequestType : Z := 7.
Definition AllocUpdateRequestType : Z := 8.
Definition AllocClientUpdateRequestType : Z := 9.
Definition ReconcileJobSummariesRequestType : Z := 10.
Definition VaultAccessorRegisterRequestType : Z := 11.
Definition VaultAccessorDegisterRequestType : Z := 12.
Definition ApplyPlanResultsRequestType : Z := 13.
Definition DeploymentStatusUpdateRequestType : Z := 14.
Definition DeploymentPromoteRequestType : Z := 15.
Definition DeploymentAllocHealthRequestType : Z := 16.
Definition DeploymentDeleteRequestType : Z := 17.
Definition JobStabilityRequestType : Z := 18.
Definition IgnoreUnknownTypeFlag : Z := 128.

Record snapshotHeader := mkSnapshotHeader {}.

(** ** The encoding *)

(** [decode] reads one object from the front of the bytes and gives back the rest. *)
Class Codec (A : Type) := {
  encode : A → string;
  decode : string → GoError + (A * string)
}.

(** What is known of the encoding: an object whose fields are in the range of their types
    is read back and the decoder stops at its last byte; a decoder never gives back more
    than it was given. *)
Class CodecLaws (A : Type) `{Codec A} := {
  encodable : A → Prop;
  decode_encode x rest : encodable x → decode (encode x +:+ rest) = inr (x, rest);
  decode_length s x rest : decode s = inr (x, rest) → (String.length rest ≤ String.length s)%nat
}.

(** The objects of a snapshot. *)
Class SnapshotCodec := {
  sc_header :: Codec snapshotHeader;
  sc_timetable :: Codec (list TimeTableEntry);
  sc_node :: Codec Node;
  sc_job :: Codec Job;
  sc_index :: Codec IndexEntry;
  sc_eval :: Codec Evaluation;
  sc_alloc :: Codec Allocation;
  sc_launch :: Codec PeriodicLaunch;
  sc_summary :: Codec JobSummary;
  sc_accessor :: Codec VaultAccessor;
  sc_deployment :: Codec Deployment
}.

(** The messages of the log. *)
Class RequestCodec := {
  rc_node_register :: Codec NodeRegisterRequest;
  rc_node_deregister :: Codec NodeDeregisterRequest;
  rc_node_status :: Codec NodeUpdateStatusRequest;
  rc_node_drain :: Codec NodeUpdateDrainRequest;
  rc_job_register :: Codec JobRegisterRequest;
  rc_job_deregister :: Codec JobDeregisterRequest;
  rc_eval_update :: Codec EvalUpdateRequest;
  rc_eval_delete :: Codec EvalDeleteRequest;
  rc_alloc_update :: Codec AllocUpdateRequest;
  rc_accessors :: Codec VaultAccessorsRequest;
  rc_plan_results :: Codec ApplyPlanResultsRequest;
  rc_deployment_status :: Codec DeploymentStatusUpdateRequest;
  rc_deployment_promote :: Codec ApplyDeploymentPromoteRequest;
  rc_deployment_health :: Codec ApplyDeploymentAllocHealthRequest;
  rc_deployment_delete :: Codec DeploymentDeleteRequest;
  rc_job_stability :: Codec JobStabilityRequest
}.

(** ** The state machine *)

Record nomadFSM := mkNomadFSM {
  fs_blockedEvals : BlockedEvals EvalBroker;
  fs_periodicDispatcher : PeriodicDispatch;
  fs_state : StateStore;
  fs_timetable : TimeTable
}.
#[export] Instance eta_nomadFSM : Eta nomadFSM := fun r =>
  mkNomadFSM (fs_blockedEvals r) (fs_periodicDispatcher r) (fs_state r) (fs_timetable r).

Definition timeTableGranularity : Z := 5 * 60 * 10 ^ 9.
Definition timeTableLimit : Z := 72 * 3600 * 10 ^ 9.

Definition NewFSM (periodic : PeriodicDispatch) (blocked : BlockedEvals EvalBroker) : option nomadFSM :=
  t ← NewTimeTable timeTableGranularity timeTableLimit;
  Some (mkNomadFSM blocked periodic NewStateStore t).

(** A computation over the state machine. *)
Definition FSM (A : Type) : Type := nomadFSM → option ((GoError + A) * nomadFSM).
#[export] Instance FSM_ret : MRet FSM := fun A a n => Some (inr a, n).
#[export] Instance FSM_bind : MBind FSM := fun A B k m n =>
  match m n with
  | None => None
  | Some (inl err, n) => Some (inl err, n)
  | Some (inr a, n) => k a n
  end.

Definition panics {A} : FSM A := fun _ => None.
Definition returnErr {A} (err : GoError) : FSM A := fun n => match err with GoPanic => None | _ => Some (inl err, n) end.
Definition orErr {A} (r : GoError + A) : FSM A := match r with inl err => returnErr err | inr a => mret a end.
Definition orPanic {A} (o : option A) : FSM A := match o with Some a => mret a | None => panics end.

(** [n.state] read, and changed by an operation of the store. *)
Definition onState {A} (q : StateStore → GoError + A) : FSM A := fun n => orErr (q (fs_state n)) n.
Definition currentState : FSM StateStore := fun n => Some (inr (fs_state n), n).
Definition storeOp (op : StateStore → (GoError + unit) * StateStore) : FSM unit := fun n =>
  let '(res, s) := op (fs_state n) in orErr res (n <| fs_state := s |>).

Definition storeTry (op : StateStore → option ((GoError + unit) * StateStore)) : FSM unit := fun n =>
  match op (fs_state n) with
  | None => None
  | Some (res, s) => orErr res (n <| fs_state := s |>)
  end.

Definition onBlocked (f : BlockedEvals EvalBroker → BlockedEvals EvalBroker) : FSM unit := fun n =>
  Some (inr tt, n <| fs_blockedEvals ::= f |>).
Definition onBroker (f : EvalBroker → EvalBroker) : FSM unit := onBlocked (fun b => b <| BlockedEvals.evalBroker ::= f |>).
Definition onPeriodic (f : PeriodicDispatch → option (option GoError * PeriodicDispatch)) : FSM unit := fun n =>
  match f (fs_periodicDispatcher n) with
  | None => None
  | Some (err, p) => match err with
                     | Some err => returnErr err (n <| fs_periodicDispatcher := p |>)
                     | None => Some (inr tt, n <| fs_periodicDispatcher := p |>)
                     end
  end.

Fixpoint eachDo {A} (l : list A) (body : A → FSM unit) : FSM unit :=
  match l with [] => mret tt | x :: l => body x ≫= fun _ => eachDo l body end.

(** [structs.Decode]; the handlers panic when it fails. *)
Definition decodeRequest {A} `{Codec A} (buf : string) : FSM A :=
  match decode buf with inr (req, _) => mret req | inl _ => panics end.

Section fsm.
Context `{CaseLib} `{RangeOrder} `{TextLibs} `{StackLibs} `{SchedEnv} `{UpperLib} `{CronLib}.
Context `{RequestCodec} `{SnapshotCodec}.
Implicit Types (buf : string) (index : Z).

(** ** The objects of a request after the store has taken them *)

(** [nestedUpsertEval] writes the indexes into the evaluation. *)
Definition stampedEval index (after : StateStore) (eval : Evaluation) : Evaluation :=
  let existing := match EvalByID after (ev_ID eval) with inr o => o | inl _ => None end in
  eval <| ev_CreateIndex := from_option ev_CreateIndex index existing |> <| ev_ModifyIndex := index |>.

(** [upsertJobImpl] inserts the very job if there was one before; otherwise it has written
    the indexes into the job, and inserts a copy that has the status. *)
Definition registeredJob index (before after : StateStore) (job : Job) : Job :=
  match JobByID before (jb_ID job), JobByID after (jb_ID job) with
  | inr (Some _), inr (Some stored) => stored
  | _, _ => job <| jb_CreateIndex := index |> <| jb_ModifyIndex := index |>
                <| jb_JobModifyIndex := index |> <| jb_Version := 0 |>
  end.

(** ** Nodes *)

Definition applyUpsertNode buf index : FSM unit :=
  req ← decodeRequest (A := NodeRegisterRequest) buf;
  node ← orPanic (nr_Node req);
  storeOp (UpsertNode index node) ≫= fun _ =>
  if bool_decide (nd_Status node = NodeStatusReady) then onBlocked (fun b => Unblock b (nd_ComputedClass node) index)
  else mret tt.

Definition applyDeregisterNode buf index : FSM unit :=
  req ← decodeRequest (A := NodeDeregisterRequest) buf;
  storeOp (DeleteNode index (ndr_NodeID req)).

Definition applyStatusUpdate buf index : FSM unit :=
  req ← decodeRequest (A := NodeUpdateStatusRequest) buf;
  storeOp (UpdateNodeStatus index (nus_NodeID req) (nus_Status req)) ≫= fun _ =>
  if bool_decide (nus_Status req = NodeStatusReady) then
    node ← onState (fun s => NodeByID s (nus_NodeID req));
    node ← orPanic node;
    onBlocked (fun b => Unblock b (nd_ComputedClass node) index)
  else mret tt.

Definition applyDrainUpdate buf index : FSM unit :=
  req ← decodeRequest (A := NodeUpdateDrainRequest) buf;
  storeOp (UpdateNodeDrain index (nud_NodeID req) (nud_Drain req)).

(** ** Jobs *)

(** The insertion of a periodic job counts as its first launch; [now] is the time. *)
Definition recordInsertion (now : Z) (job : Job) index : FSM unit :=
  if IsPeriodic job then
    prevLaunch ← onState (fun s => PeriodicLaunchByID s (jb_ID job));
    match prevLaunch with
    | None => storeOp (UpsertPeriodicLaunch index (mkPeriodicLaunch (jb_ID job) now 0 0))
    | Some _ => mret tt
    end
  else mret tt.

(** A child of a periodic job records the launch of its parent. *)
Definition recordLaunch (job : Job) index : FSM unit :=
  if bool_decide (jb_ParentID job = "") then mret tt
  else
    parent ← onState (fun s => JobByID s (jb_ParentID job));
    match parent with
    | None => mret tt
    | Some parent =>
        if IsPeriodic parent && negb (IsParameterized parent) then
          t ← orErr (LaunchTime (jb_ID job));
          storeOp (UpsertPeriodicLaunch index (mkPeriodicLaunch (jb_ParentID job) t 0 0))
        else mret tt
    end.

Definition registerJob index (job : Job) : FSM Job :=
  before ← currentState;
  storeOp (UpsertJob index job) ≫= fun _ =>
  after ← currentState;
  mret (registeredJob index before after job).

Definition applyUpsertJob (now : nat → Z) buf index : FSM unit :=
  req ← decodeRequest (A := JobRegisterRequest) buf;
  job ← orPanic (jrr_Job req);
  job ← registerJob index (JobCanonicalize job).1;
  onPeriodic (fun p => Add (now 1%nat) p job) ≫= fun _ =>
  recordInsertion (now 2%nat) job index ≫= fun _ =>
  recordLaunch job index.

Definition applyDeregisterJob buf index : FSM unit :=
  req ← decodeRequest (A := JobDeregisterRequest) buf;
  onPeriodic (fun p => Remove p (jdr_JobID req)) ≫= fun _ =>
  if jdr_Purge req then
    storeOp (DeleteJob index (jdr_JobID req)) ≫= fun _ =>
    storeOp (ignoreErr (DeletePeriodicLaunch index (jdr_JobID req)))
  else
    current ← onState (fun s => JobByID s (jdr_JobID req));
    match current with
    | None => returnErr (Errorf "job %q doesn't exist to be deregistered" [jdr_JobID req])
    | Some current => storeOp (UpsertJob index (current <| jb_Stop := true |>))
    end.

Definition applyJobStability buf index : FSM unit :=
  req ← decodeRequest (A := JobStabilityRequest) buf;
  storeOp (UpdateJobStability index (jst_JobID req) (jst_JobVersion req) (jst_Stable req)).

(** ** Evaluations *)

Definition handOn (eval : Evaluation) : FSM unit :=
  enqueue ← orPanic (ShouldEnqueue eval);
  if (enqueue : bool) then onBroker (fun b => Enqueue b eval)
  else
    block ← orPanic (ShouldBlock eval);
    if (block : bool) then onBlocked (fun b => Block b eval)
    else if bool_decide (ev_Status eval = EvalStatusComplete) && (size (ev_FailedTGAllocs eval) =? 0)%nat
    then onBlocked (fun b => Untrack b (ev_JobID eval))
    else mret tt.

Definition applyUpdateEval buf index : FSM unit :=
  req ← decodeRequest (A := EvalUpdateRequest) buf;
  storeOp (UpsertEvals index (eu_Evals req)) ≫= fun _ =>
  after ← currentState;
  eachDo (stampedEval index after <$> eu_Evals req) handOn.

Definition applyDeleteEval buf index : FSM unit :=
  req ← decodeRequest (A := EvalDeleteRequest) buf;
  storeOp (DeleteEval index (ed_Evals req) (ed_Allocs req)).

(** ** Allocations *)

Definition denormalized (alloc : Allocation) : Allocation :=
  match al_Resources alloc, al_SharedResources alloc with
  | Some r, None => alloc <| al_SharedResources := Some (zeroResources <| r_DiskMB := r_DiskMB r |>) |>
  | _, _ => totalResources alloc
  end.

Definition applyAllocUpdate buf index : FSM unit :=
  req ← decodeRequest (A := AllocUpdateRequest) buf;
  storeOp (UpsertAllocs index (denormalized <$> DenormalizeAllocationJobs (au_Job req) (au_Alloc req))).

Definition knownAlloc (s : StateStore) (alloc : Allocation) : Allocation :=
  match AllocByID s (al_ID alloc) with
  | inr (Some existing) => alloc <| al_JobID := al_JobID existing |> <| al_TaskGroup := al_TaskGroup existing |>
  | _ => alloc
  end.

(** The loop over the allocations that have finished returns at the first node that is not
    found. *)
Fixpoint unblockFinished index (als : list Allocation) : FSM unit :=
  match als with
  | [] => mret tt
  | alloc :: als =>
      if bool_decide (al_ClientStatus alloc = AllocClientStatusComplete) || bool_decide (al_ClientStatus alloc = AllocClientStatusFailed) then
        node ← onState (fun s => NodeByID s (al_NodeID alloc));
        match node with
        | None => mret tt
        | Some node => onBlocked (fun b => Unblock b (nd_ComputedClass node) index) ≫= fun _ => unblockFinished index als
        end
      else unblockFinished index als
  end.

Definition applyAllocClientUpdate buf index : FSM unit :=
  req ← decodeRequest (A := AllocUpdateRequest) buf;
  if (length (au_Alloc req) =? 0)%nat then mret tt
  else
    s ← currentState;
    let als := knownAlloc s <$> au_Alloc req in
    storeOp (UpdateAllocsFromClient index als) ≫= fun _ => unblockFinished index als.

Definition applyReconcileSummaries buf index : FSM unit :=
  storeOp (ReconcileJobSummaries index) ≫= fun _ => storeTry (reconcileQueuedAllocations index).

(** ** Vault accessors, plans and deployments *)

Definition applyUpsertVaultAccessor buf index : FSM unit :=
  req ← decodeRequest (A := VaultAccessorsRequest) buf;
  storeOp (UpsertVaultAccessor index (va_Accessors req)).

Definition applyDeregisterVaultAccessor buf index : FSM unit :=
  req ← decodeRequest (A := VaultAccessorsRequest) buf;
  storeOp (DeleteVaultAccessors index (va_Accessors req)).

Definition applyPlanResults buf index : FSM unit :=
  req ← decodeRequest (A := ApplyPlanResultsRequest) buf;
  storeOp (UpsertPlanResults index req).

(** [if req.Eval != nil && req.Eval.ShouldEnqueue()] *)
Definition enqueueIfPending index (eval : option Evaluation) : FSM unit :=
  match eval with
  | None => mret tt
  | Some eval =>
      after ← currentState;
      let eval := stampedEval index after eval in
      enqueue ← orPanic (ShouldEnqueue eval);
      if (enqueue : bool) then onBroker (fun b => Enqueue b eval) else mret tt
  end.

Definition applyDeploymentStatusUpdate buf index : FSM unit :=
  req ← decodeRequest (A := DeploymentStatusUpdateRequest) buf;
  storeOp (UpdateDeploymentStatus index req) ≫= fun _ => enqueueIfPending index (dr_Eval req).

Definition applyDeploymentPromotion buf index : FSM unit :=
  req ← decodeRequest (A := ApplyDeploymentPromoteRequest) buf;
  storeOp (UpdateDeploymentPromotion index req) ≫= fun _ => enqueueIfPending index (dp_Eval req).

Definition applyDeploymentAllocHealth buf index : FSM unit :=
  req ← decodeRequest (A := ApplyDeploymentAllocHealthRequest) buf;
  storeOp (UpdateDeploymentAllocHealth index req) ≫= fun _ => enqueueIfPending index (dh_Eval req).

Definition applyDeploymentDelete buf index : FSM unit :=
  req ← decodeRequest (A := DeploymentDeleteRequest) buf;
  storeOp (DeleteDeployment index (dd_Deployments req)).

(** ** The log *)

Record RaftLog := mkRaftLog { log_Index : Z; log_Data : string }.

Definition witness (index when : Z) : FSM unit := fun n =>
  t ← Witness index when (fs_timetable n);
  Some (inr tt, n <| fs_timetable := t |>).

(** The handler of a type of message. *)
Definition handler (now : nat → Z) (msgType : Z) : option (string → Z → FSM unit) :=
  if msgType =? NodeRegisterRequestType then Some applyUpsertNode
  else if msgType =? NodeDeregisterRequestType then Some applyDeregisterNode
  else if msgType =? NodeUpdateStatusRequestType then Some applyStatusUpdate
  else if msgType =? NodeUpdateDrainRequestType then Some applyDrainUpdate
  else if msgType =? JobRegisterRequestType then Some (applyUpsertJob now)
  else if msgType =? JobDeregisterRequestType then Some applyDeregisterJob
  else if msgType =? EvalUpdateRequestType then Some applyUpdateEval
  else if msgType =? EvalDeleteRequestType then Some applyDeleteEval
  else if msgType =? AllocUpdateRequestType then Some applyAllocUpdate
  else if msgType =? AllocClientUpdateRequestType then Some applyAllocClientUpdate
  else if msgType =? ReconcileJobSummariesRequestType then Some applyReconcileSummaries
  else if msgType =? VaultAccessorRegisterRequestType then Some applyUpsertVaultAccessor
  else if msgType =? VaultAccessorDegisterRequestType then Some applyDeregisterVaultAccessor
  else if msgType =? ApplyPlanResultsRequestType then Some applyPlanResults
  else if msgType =? DeploymentStatusUpdateRequestType then Some applyDeploymentStatusUpdate
  else if msgType =? DeploymentPromoteRequestType then Some applyDeploymentPromotion
  else if msgType =? DeploymentAllocHealthRequestType then Some applyDeploymentAllocHealth
  else if msgType =? DeploymentDeleteRequestType then Some applyDeploymentDelete
  else if msgType =? JobStabilityRequestType then Some applyJobStability
  else None.

(** [now] lists the readings of the clock; the message is empty in the first case of the
    match, which panics. *)
Definition Apply (now : nat → Z) (log : RaftLog) : FSM unit :=
  match log_Data log with
  | EmptyString => panics
  | String c buf =>
      let msgType := Z.of_N (Ascii.N_of_ascii c) in
      witness (log_Index log) (now 0%nat) ≫= fun _ =>
      let ignoreUnknown := Z.land msgType IgnoreUnknownTypeFlag =? IgnoreUnknownTypeFlag in
      let msgType := if ignoreUnknown then Z.ldiff msgType IgnoreUnknownTypeFlag else msgType in
      match handler now msgType with
      | Some apply => apply buf (log_Index log)
      | None => if ignoreUnknown then mret tt else panics
      end
  end.

(** ** Snapshots *)

Definition TimeTableSnapshot : Z := 5.
Definition NodeSnapshot : Z := 0.
Definition JobSnapshot : Z := 1.
Definition IndexSnapshot : Z := 2.
Definition EvalSnapshot : Z := 3.
Definition AllocSnapshot : Z := 4.
Definition PeriodicLaunchSnapshot : Z := 6.
Definition JobSummarySnapshot : Z := 7.
Definition VaultAccessorSnapshot : Z := 8.
Definition JobVersionSnapshot : Z := 9.
Definition DeploymentSnapshot : Z := 10.

(** The time table is the one of the state machine, not a copy: it is written as it is
    when the snapshot is. *)
Record nomadSnapshot := mkNomadSnapshot { sn_snap : StateStore; sn_timetable : TimeTable }.
Definition Snapshot (n : nomadFSM) : nomadSnapshot := mkNomadSnapshot (fs_state n) (fs_timetable n).

Definition record {A} `{Codec A} (type : Z) (x : A) : string := bytes1 type +:+ encode x.

(** The loops of [persistIndexes], [persistNodes] and the others. *)
Definition persistAll {A} `{Codec A} (type : Z) (objs : GoError + list A) : GoError + string :=
  match objs with
  | inl err => inl err
  | inr l => inr (foldr (fun x bytes => record type x +:+ bytes) "" l)
  end.

Definition persistIndexes (s : StateStore) : GoError + string := persistAll IndexSnapshot (Indexes s).
Definition persistNodes (s : StateStore) : GoError + string := persistAll NodeSnapshot (Nodes s).
Definition persistJobs (s : StateStore) : GoError + string := persistAll JobSnapshot (Jobs s).
Definition persistEvals (s : StateStore) : GoError + string := persistAll EvalSnapshot (Evals s).
Definition persistAllocs (s : StateStore) : GoError + string := persistAll AllocSnapshot (Allocs s).
Definition persistPeriodicLaunches (s : StateStore) : GoError + string := persistAll PeriodicLaunchSnapshot (PeriodicLaunches s).
Definition persistJobSummaries (s : StateStore) : GoError + string := persistAll JobSummarySnapshot (JobSummaries s).
Definition persistVaultAccessors (s : StateStore) : GoError + string := persistAll VaultAccessorSnapshot (VaultAccessors s).
Definition persistJobVersions (s : StateStore) : GoError + string := persistAll JobVersionSnapshot (JobVersions s).
Definition persistDeployments (s : StateStore) : GoError + string := persistAll DeploymentSnapshot (Deployments s).

(** What the steps write, up to the first that fails. *)
Fixpoint writeAll (steps : list (GoError + string)) : GoError + string :=
  match steps with
  | [] => inr ""
  | inl err :: _ => inl err
  | inr bytes :: steps => match writeAll steps with inl err => inl err | inr rest => inr (bytes +:+ rest) end
  end.

(** The content of the sink, which is cancelled when there is an error. *)
Definition Persist (sn : nomadSnapshot) : GoError + string :=
  let s := sn_snap sn in
  writeAll [inr (encode mkSnapshotHeader); inr (record TimeTableSnapshot (Serialize (sn_timetable sn)));
            persistIndexes s; persistNodes s; persistJobs s; persistEvals s; persistAllocs s; persistPeriodicLaunches s;
            persistJobSummaries s; persistVaultAccessors s; persistJobVersions s; persistDeployments s].

(** ** Restoration *)

(** The rest of the bytes and the transaction that fills the new store. *)
Definition restoring : Type := string * StateStore.

Definition restoreObj {A} `{Codec A} (insert : A → Txn unit) (r : restoring) : FSM restoring :=
  x ← orErr (decode r.1);
  let '(obj, rest) := x in
  match insert obj r.2 with
  | (inl err, _) => returnErr err
  | (inr _, s) => mret (rest, s)
  end.

Definition restoreTimeTable (r : restoring) : FSM restoring := fun n =>
  match decode r.1 with
  | inl err => returnErr (wrapErr "time table deserialize failed: %v" [] err) n
  | inr (table, rest) => t ← Deserialize table (fs_timetable n); Some (inr (rest, r.2), n <| fs_timetable := t |>)
  end.

Definition restoreRecord (type : Z) (r : restoring) : FSM restoring :=
  if type =? TimeTableSnapshot then restoreTimeTable r
  else if type =? NodeSnapshot then restoreObj NodeRestore r
  else if type =? JobSnapshot then restoreObj (fun job => JobRestore (JobCanonicalize job).1) r
  else if type =? EvalSnapshot then restoreObj EvalRestore r
  else if type =? AllocSnapshot then restoreObj AllocRestore r
  else if type =? IndexSnapshot then restoreObj IndexRestore r
  else if type =? PeriodicLaunchSnapshot then restoreObj PeriodicLaunchRestore r
  else if type =? JobSummarySnapshot then restoreObj JobSummaryRestore r
  else if type =? VaultAccessorSnapshot then restoreObj VaultAccessorRestore r
  else if type =? JobVersionSnapshot then restoreObj JobVersionRestore r
  else if type =? DeploymentSnapshot then restoreObj DeploymentRestore r
  else returnErr (Errorf "Unrecognized snapshot type: %v" [formatInt type]).

(** The loop over the records; every turn reads a byte at least. *)
Fixpoint restoreLoop (fuel : nat) (r : restoring) : FSM StateStore :=
  match r.1 with
  | EmptyString => mret r.2
  | String c rest =>
      match fuel with
      | O => panics
      | S fuel => r ← restoreRecord (Z.of_N (Ascii.N_of_ascii c)) (rest, r.2); restoreLoop fuel r
      end
  end.

(** Snapshots of version 0.4 have no summaries. *)
Definition withSummaries (s : StateStore) : FSM StateStore :=
  match Index s "job_summary" with
  | inl err => returnErr (wrapErr "couldn't fetch index of job summary table: %v" [] err)
  | inr index =>
      if index =? 0 then
        match LatestIndex s with
        | inl _ => returnErr (Errorf "unable to query latest index: %v" [formatInt index])
        | inr latest =>
            match ReconcileJobSummaries latest s with
            | (inl err, _) => returnErr (wrapErr "error reconciling summaries: %v" [] err)
            | (inr _, s) => mret s
            end
        end
      else mret s
  end.

Definition setState (s : StateStore) : FSM unit := fun n => Some (inr tt, n <| fs_state := s |>).

Definition Restore (old : string) : FSM unit :=
  header ← orErr (decode (A := snapshotHeader) old);
  s ← restoreLoop (String.length header.2) (header.2, NewStateStore);
  s ← withSummaries s;
  setState s.
End fsm.
