(* ===== verification/FsmRestore.v ===== *)
(** * Snapshots of the state machine are restored (src/nomad/fsm.go)

    What [Persist] writes, [Restore] reads back: every table of the restored store answers
    every query as the original does, except that jobs and allocations have been through
    the upgrades that are applied when they are read. *)

From stdpp Require Import base gmap strings list.
From Stdlib Require Import ZArith Lia.
From S2P Require Import Prelude GoText GoHeap Timers Structs EvalBroker BlockedEvals BlockedEvalsProps Bitmap Resources Jobs Allocs Network NetworkAssign Fit Plans SchedContext Feasible Stack SchedUtil MemDB MemDBSpec StateStore StoreSpec HarnessSpec TimeTable Periodic JobCanon Harness Fsm.
Open Scope string_scope.
Open Scope list_scope.
Open Scope Z_scope.

(** ** Objects as they are after a restoration *)

Section upgraded.
Context `{CaseLib} `{UpperLib}.

Definition restoredJob (j : Job) : Job := restoreEphemeralDisk (JobCanonicalize j).1.

Definition restoredAlloc (a : Allocation) : Allocation :=
  let a := match al_SharedResources a, al_Resources a with
           | None, Some r => a <| al_SharedResources := Some (zeroResources <| r_DiskMB := r_DiskMB r |>) |>
           | _, _ => a
           end in
  a <| al_Job ::= fmap restoreEphemeralDisk |>.

(** An allocation with neither kind of resources makes the restoration panic. *)
Definition restorable (a : Allocation) : Prop := is_Some (al_SharedResources a) ∨ is_Some (al_Resources a).

Lemma restoredJob_fields j : jb_ID (restoredJob j) = jb_ID j ∧ jb_Type (restoredJob j) = jb_Type j ∧
  jb_Periodic (restoredJob j) = jb_Periodic j ∧ jb_Stop (restoredJob j) = jb_Stop j ∧ jb_Status (restoredJob j) = jb_Status j ∧
  IsParameterized (restoredJob j) = IsParameterized j.
Proof.
  unfold restoredJob, restoreEphemeralDisk. rewrite JobCanonicalize_eq. repeat (split; [done|]). unfold IsParameterized. cbn.
  by destruct (jb_ParameterizedJob j).
Qed.

Lemma restoredJob_keys j : sameKeys jobTableSchema j (restoredJob j).
Proof.
  destruct (restoredJob_fields j) as (E1 & E2 & E3 & E4 & E5 & E6).
  assert (jobIsGCable (restoredJob j) = jobIsGCable j) as Eg by (unfold jobIsGCable; by rewrite E2, E3, E4, E5, E6).
  assert (jobIsPeriodic (restoredJob j) = jobIsPeriodic j) as Ep by (unfold jobIsPeriodic; by rewrite E3).
  split; intros ix Hix; cbn in Hix; repeat (apply elem_of_cons in Hix as [->|Hix]); try (by apply elem_of_nil in Hix).
  all: cbn -[bytes1 restoredJob]; by rewrite ?E1, ?E2, ?Eg, ?Ep.
Qed.

Lemma restoredAlloc_keys a : sameKeys allocTableSchema a (restoredAlloc a).
Proof.
  split; intros ix Hix; cbn in Hix; repeat (apply elem_of_cons in Hix as [->|Hix]); try (by apply elem_of_nil in Hix).
  all: unfold restoredAlloc; by destruct a as [??????? [?|] [?|]].
Qed.

Lemma id_keys {V} (sch : TableSchema V) v : sameKeys sch v (id v).
Proof. by split. Qed.

(** *** Jobs that have been registered come back as they are *)

Definition diskless (t : Task) : Task := t <| tk_Resources ::= fun r => r <| r_DiskMB := 0 |> |>.

Lemma taskDisk_diskless name count update constraints tasks disk meta :
  taskDisk (mkTaskGroup name count update constraints (diskless <$> tasks) disk meta) = 0.
Proof. unfold taskDisk. cbn. induction tasks as [|t tasks IH]; [done|exact IH]. Qed.

Lemma diskless_canonical t : TaskCanonicalize (diskless t) = diskless (TaskCanonicalize t).
Proof. unfold TaskCanonicalize, diskless. destruct t. cbn. by case_match. Qed.

Lemma canonical_without `{!UpperLaws} tg : TaskGroupCanonicalize tg = tg → TaskGroupCanonicalize (withoutTaskDisk tg) = withoutTaskDisk tg.
Proof.
  intros Ec. pose proof (f_equal tg_Tasks Ec) as Et. pose proof (f_equal tg_EphemeralDisk Ec) as Ed.
  destruct tg as [name count update constraints tasks disk meta]. destruct disk as [d|]; [|done]. clear Ec Ed. cbn in Et.
  change (withoutTaskDisk _) with (mkTaskGroup name count update constraints (diskless <$> tasks) (Some d) meta).
  assert (TaskCanonicalize <$> (diskless <$> tasks) = diskless <$> tasks) as E.
  { rewrite <- Et at 2. rewrite <- !list_fmap_compose. apply list_fmap_ext. intros i t _. apply diskless_canonical. }
  unfold TaskGroupCanonicalize, upd_field. cbn -[fmap Z.ltb taskDisk]. by rewrite E, taskDisk_diskless.
Qed.

Lemma changeGroups_without j tg : changeGroups j (withoutTaskDisk tg) = withoutTaskDisk (changeGroups j tg).
Proof.
  unfold changeGroups. case_bool_decide; [done|]. destruct (hasOldUpdate _); [|done]. unfold upgradeGroup.
  destruct tg as [name count update]. cbn. by destruct (newSyntax update).
Qed.

Lemma groups_same (j : Job) f : f (jb_TaskGroups j) = jb_TaskGroups j → j <| jb_TaskGroups ::= f |> = j.
Proof. destruct j. cbn. intros E. unfold upd_field. cbn. by rewrite E. Qed.

(** The form in which a job is registered: canonical, with the disk of its tasks in the
    ephemeral disks. *)
Lemma registered_restored `{!UpperLaws} j0 :
  let j := addEphemeralDiskToTaskGroups (JobCanonicalize j0).1 in restoredJob j = j.
Proof.
  set (J := (JobCanonicalize j0).1). set (gs := jb_TaskGroups J). intros j.
  assert (Forall (fun g => TaskGroupCanonicalize g = g ∧ changeGroups j0 g = g) gs) as Hgs.
  { unfold gs, J. rewrite JobCanonicalize_eq. apply Forall_fmap, Forall_fmap, Forall_true. intros x. cbn.
    by rewrite changeGroups_commutes, TaskGroupCanonicalize_idem, changeGroups_idem. }
  assert (jb_TaskGroups j = withoutTaskDisk <$> gs) as Ej.
  { unfold j, addEphemeralDiskToTaskGroups. cbn. apply list_fmap_ext. intros i g Hg.
    destruct (proj1 (Forall_lookup _ _) Hgs i g Hg) as [Eg _]. apply (f_equal tg_EphemeralDisk) in Eg. by destruct g as [????? [d|]]. }
  assert (changeGroups j = changeGroups j0) as Ec.
  { unfold changeGroups. rewrite Ej. unfold j, addEphemeralDiskToTaskGroups, gs, J. rewrite JobCanonicalize_eq. cbn. rewrite !length_fmap. by case_bool_decide. }
  assert (jb_Type j = jb_Type J ∧ jb_Update j = jb_Update J ∧ jb_ParameterizedJob j = jb_ParameterizedJob J) as (E1 & E2 & E3) by done.
  pose proof (JobCanonicalize_eq j0) as EJ. fold J in EJ. unfold restoredJob. assert ((JobCanonicalize j).1 = j) as ->.
  - rewrite JobCanonicalize_eq. apply job_same.
    + rewrite Ec, Ej, <- !list_fmap_compose. apply list_fmap_ext. intros i g Hg. cbn.
      destruct (proj1 (Forall_lookup _ _) Hgs i g Hg) as [Eg Eg']. by rewrite canonical_without, changeGroups_without, Eg'.
    + rewrite E3, EJ. cbn. destruct (jb_ParameterizedJob j0); cbn; [by rewrite ParameterizedCanonicalize_idem|done].
    + rewrite E1, E2, EJ. cbn. by case_bool_decide.
  - unfold restoreEphemeralDisk. apply groups_same. rewrite Ej. rewrite <- list_fmap_compose. apply list_fmap_ext. intros i g Hg. cbn.
    destruct (proj1 (Forall_lookup _ _) Hgs i g Hg) as [Eg _]. apply (f_equal tg_EphemeralDisk) in Eg. by destruct g as [????? [d|]].
Qed.
End upgraded.


(** ** Reading back what was written *)

(** The laws of the encodings of the objects of a snapshot. *)
Class SnapshotLaws `{SnapshotCodec} := {
  sl_header :: CodecLaws snapshotHeader;
  sl_timetable :: CodecLaws (list TimeTableEntry);
  sl_node :: CodecLaws Node;
  sl_job :: CodecLaws Job;
  sl_index :: CodecLaws IndexEntry;
  sl_eval :: CodecLaws Evaluation;
  sl_alloc :: CodecLaws Allocation;
  sl_launch :: CodecLaws PeriodicLaunch;
  sl_summary :: CodecLaws JobSummary;
  sl_accessor :: CodecLaws VaultAccessor;
  sl_deployment :: CodecLaws Deployment
}.

Section loop.
Context `{CaseLib} `{UpperLib} `{SnapshotLaws}.

(** The loop reads [bytes], which takes the store from [s] to [s']. *)
Definition reads (bytes : string) (s s' : StateStore) : Prop :=
  ∀ fuel rest n, (String.length (bytes +:+ rest) ≤ fuel)%nat →
  ∃ fuel', (String.length rest ≤ fuel')%nat ∧ restoreLoop fuel (bytes +:+ rest, s) n = restoreLoop fuel' (rest, s') n.

Lemma reads_nil s : reads "" s s.
Proof. intros fuel rest n Hf. by exists fuel. Qed.

Lemma reads_app b b' s s1 s2 : reads b s s1 → reads b' s1 s2 → reads (b +:+ b') s s2.
Proof.
  intros Hb Hb' fuel rest n Hf. rewrite app_assoc_str in Hf |- *. destruct (Hb fuel (b' +:+ rest) n Hf) as (f1 & Hf1 & ->). by apply Hb'.
Qed.

Lemma length_app_str (a b : string) : String.length (a +:+ b) = (String.length a + String.length b)%nat.
Proof. induction a as [|c a IH]; [done|]. rewrite app_String. cbn. by rewrite IH. Qed.

Section records.
Context {A : Type} `{CodecLaws A} (type : Z) (ins : A → Txn unit).
Context (Htype : 0 ≤ type < 256) (Hrec : ∀ r, restoreRecord type r = restoreObj ins r).

Lemma reads_record x s s' : encodable x → ins x s = (inr tt, s') → reads (record type x) s s'.
Proof.
  intros Hx Hi fuel rest n. assert (record type x +:+ rest = String (byteOf type) (encode x +:+ rest)) as -> by (unfold record; by rewrite app_assoc_str).
  intros Hf. cbn [String.length] in Hf. rewrite length_app_str in Hf. destruct fuel as [|fuel]; [lia|]. cbn [restoreLoop fst snd].
  exists fuel. split; [lia|].
  assert (Z.of_N (Ascii.N_of_ascii (byteOf type)) = type) as ->.
  { unfold byteOf. rewrite Ascii.N_ascii_embedding by lia. lia. }
  rewrite Hrec. unfold restoreObj, mbind, FSM_bind. cbn [fst snd]. rewrite (decode_encode x rest Hx). cbn. by rewrite Hi.
Qed.

Lemma reads_all l : Forall encodable l → ∀ s s', forEach l ins s = (inr tt, s') →
  reads (foldr (fun x bytes => record type x +:+ bytes) "" l) s s'.
Proof.
  induction 1 as [|x l Hx Hl IH]; intros s s'; cbn [forEach foldr]; [by intros [= <-]; apply reads_nil|].
  intros ([] & s1 & E1 & E2)%bind_inr. eapply reads_app; [by apply reads_record|by apply IH].
Qed.
End records.
End loop.

(** *** One table *)

Section tableback.
Context `{CaseLib} `{UpperLib} `{SnapshotLaws} {V : Type} (r : TableRef V) `{!Ref r} `{CodecLaws V}.
Context (type : Z) (ins : V → Txn unit) (format : string) (f : V → V).
Context (Htype : 0 ≤ type < 256) (Hrec : ∀ x, restoreRecord type x = restoreObj ins x).
Context (Hset : ∀ t t' s, tr_set r t (tr_set r t' s) = tr_set r t s) (Hget : ∀ s, tr_set r (tr_get r s) s = s).
Context (Hkeys : ∀ v, sameKeys (tr_schema r) v (f v)).

Definition inserts (v : V) : Prop := ∀ s, ins v s = wrap format [] (txnInsert r (f v)) s.

Lemma forEach_insertAll l : Forall inserts l → ∀ s t',
  insertAll (tr_schema r) (f <$> l) (tr_get r s) = (inr tt, t') → forEach l ins s = (inr tt, tr_set r t' s).
Proof.
  induction 1 as [|v l Hv Hl IH]; intros s t'; cbn [forEach fmap list_fmap insertAll]; [intros [= <-]; unfold mret, Txn_ret; by rewrite Hget|].
  destruct (Insert (tr_schema r) (f v) (tr_get r s)) as [[err|[]] t1] eqn:E; [done|]. intros Ei.
  apply bind_inr. exists tt, (tr_set r t1 s). split; [rewrite Hv; apply wrap_inr; unfold txnInsert; by rewrite E|].
  rewrite (IH (tr_set r t1 s) t'); [by rewrite Hset|]. by rewrite ref_get_set.
Qed.

Lemma whole_table s : queryGet r s "id" [] = inr (scan "" (table r s)).
Proof. unfold queryGet, Get, getIndexValue. cbn. done. Qed.

Lemma table_back orig s : store_ok orig → tr_get r s = ∅ →
  (∀ k v, table r orig !! k = Some v → encodable v ∧ inserts v) →
  ∃ t' bytes, persistAll type (queryGet r orig "id" []) = inr bytes ∧ reads bytes s (tr_set r t' s) ∧
    sameTable (tr_schema r) t' (onRows f (tr_get r orig)).
Proof.
  intros Hok Hs Hrows. destruct (ref_ok_get orig Hok) as [Hwf _].
  destruct (refill (tr_schema r) ref_schema f (tr_get r orig) Hkeys Hwf) as (t' & E & Hsame).
  assert (Forall (fun v => encodable v ∧ inserts v) (scan "" (table r orig))) as Hall.
  { apply Forall_forall. intros v (k & Hk & _)%elem_of_scan. by apply (Hrows k). }
  exists t'. rewrite whole_table. eexists. split; [done|]. split; [|done].
  apply (reads_all type ins Htype Hrec); [by eapply Forall_impl; [exact Hall|intros v []]|].
  apply forEach_insertAll; [by eapply Forall_impl; [exact Hall|intros v []]|]. by rewrite Hs.
Qed.
End tableback.

(** ** The round trip *)

Record sameStore `{CaseLib} (s s' : StateStore) : Prop := {
  same_index : sameTable indexTableSchema (st_index s) (st_index s');
  same_nodes : sameTable nodeTableSchema (st_nodes s) (st_nodes s');
  same_jobs : sameTable jobTableSchema (st_jobs s) (st_jobs s');
  same_job_summary : sameTable jobSummarySchema (st_job_summary s) (st_job_summary s');
  same_job_version : sameTable jobVersionSchema (st_job_version s) (st_job_version s');
  same_deployment : sameTable deploymentSchema (st_deployment s) (st_deployment s');
  same_periodic_launch : sameTable periodicLaunchTableSchema (st_periodic_launch s) (st_periodic_launch s');
  same_evals : sameTable evalTableSchema (st_evals s) (st_evals s');
  same_allocs : sameTable allocTableSchema (st_allocs s) (st_allocs s');
  same_vault_accessors : sameTable vaultAccessorTableSchema (st_vault_accessors s) (st_vault_accessors s')
}.

Section roundtrip.
Context `{CaseLib} `{RangeOrder} `{UpperLib} `{SnapshotLaws}.
Implicit Type s : StateStore.

Definition restoredStore s : StateStore := s <| st_jobs ::= onRows restoredJob |> <| st_allocs ::= onRows restoredAlloc |>.

(** The objects of the store are in the range of their types; a restored allocation needs
    resources. *)
Record snapshotable s : Prop := {
  sb_index : ∀ k v, table indexes s !! k = Some v → encodable v;
  sb_nodes : ∀ k v, table nodes s !! k = Some v → encodable v;
  sb_jobs : ∀ k v, table jobs s !! k = Some v → encodable v;
  sb_job_summary : ∀ k v, table job_summary s !! k = Some v → encodable v;
  sb_job_version : ∀ k v, table job_version s !! k = Some v → encodable v;
  sb_deployment : ∀ k v, table deployment s !! k = Some v → encodable v;
  sb_periodic_launch : ∀ k v, table periodic_launch s !! k = Some v → encodable v;
  sb_evals : ∀ k v, table evals s !! k = Some v → encodable v;
  sb_allocs : ∀ k v, table allocs s !! k = Some v → encodable v ∧ restorable v;
  sb_vault_accessors : ∀ k v, table vault_accessors s !! k = Some v → encodable v
}.

(** The time table of a server: whatever it holds, it was made by [NewFSM]. *)
Definition serverTable (t : TimeTable) : Prop :=
  table_ok t ∧ NewTimeTable timeTableGranularity timeTableLimit = Some (t <| tb_table := [zeroEntry] |>).

Lemma AllocRestore_inserts a : restorable a → inserts allocs AllocRestore "alloc insert failed: %v" restoredAlloc a.
Proof.
  unfold restorable. intros Ha s. unfold AllocRestore, restoredAlloc.
  destruct (al_SharedResources a), (al_Resources a); [done|done|done|]. by destruct Ha as [[? ?]|[? ?]].
Qed.

Lemma onRows_id {V} sch (t t' : Table V) : sameTable sch t' (onRows id t) → sameTable sch t' t.
Proof. intros Hs ix Hix. rewrite (Hs ix Hix), tree_onRows. apply map_fmap_id. Qed.

Lemma Index_same s s' name : sameTable indexTableSchema (st_index s) (st_index s') → Index s name = Index s' name.
Proof. intros E. unfold Index, queryFirst. cbn [tr_schema tr_get indexes]. by rewrite E. Qed.

(** The next table, into the store [s0] where it is still empty. *)
Local Ltac back r type ins format f keys s s0 rows t b E R S :=
  destruct (table_back r type ins format f ltac:(done) ltac:(done) ltac:(done) ltac:(by intros []) keys s s0
    ltac:(assumption) eq_refl ltac:(intros k v Hk; split; [by eapply rows|first [done|by eapply AllocRestore_inserts, rows]])) as (t & b & E & R & S).

(** The tables that the snapshot holds, read into an empty store. *)
Lemma tables_back s : store_ok s → snapshotable s → ∃ bytes s',
  writeAll [persistIndexes s; persistNodes s; persistJobs s; persistEvals s; persistAllocs s; persistPeriodicLaunches s;
            persistJobSummaries s; persistVaultAccessors s; persistJobVersions s; persistDeployments s] = inr bytes ∧
  reads bytes NewStateStore s' ∧ sameStore s' (restoredStore s).
Proof.
  intros Hok [B1 B2 B3 B4 B5 B6 B7 B8 B9 B10].
  back indexes IndexSnapshot IndexRestore "index insert failed: %v" (@id IndexEntry) (id_keys indexTableSchema)
    s NewStateStore B1 t1 b1 E1 R1 S1. set (s1 := tr_set indexes t1 NewStateStore) in *.
  back nodes NodeSnapshot NodeRestore "node insert failed: %v" (@id Node) (id_keys nodeTableSchema)
    s s1 B2 t2 b2 E2 R2 S2. set (s2 := tr_set nodes t2 s1) in *.
  back jobs JobSnapshot (fun j => JobRestore (JobCanonicalize j).1) "job insert failed: %v" restoredJob restoredJob_keys
    s s2 B3 t3 b3 E3 R3 S3. set (s3 := tr_set jobs t3 s2) in *.
  back evals EvalSnapshot EvalRestore "eval insert failed: %v" (@id Evaluation) (id_keys evalTableSchema)
    s s3 B8 t4 b4 E4 R4 S4. set (s4 := tr_set evals t4 s3) in *.
  back allocs AllocSnapshot AllocRestore "alloc insert failed: %v" restoredAlloc restoredAlloc_keys
    s s4 B9 t5 b5 E5 R5 S5. set (s5 := tr_set allocs t5 s4) in *.
  back periodic_launch PeriodicLaunchSnapshot PeriodicLaunchRestore "periodic launch insert failed: %v" (@id PeriodicLaunch)
    (id_keys periodicLaunchTableSchema) s s5 B7 t6 b6 E6 R6 S6. set (s6 := tr_set periodic_launch t6 s5) in *.
  back job_summary JobSummarySnapshot JobSummaryRestore "job summary insert failed: %v" (@id JobSummary)
    (id_keys jobSummarySchema) s s6 B4 t7 b7 E7 R7 S7. set (s7 := tr_set job_summary t7 s6) in *.
  back vault_accessors VaultAccessorSnapshot VaultAccessorRestore "vault accessor insert failed: %v" (@id VaultAccessor)
    (id_keys vaultAccessorTableSchema) s s7 B10 t8 b8 E8 R8 S8. set (s8 := tr_set vault_accessors t8 s7) in *.
  back job_version JobVersionSnapshot JobVersionRestore "job version insert failed: %v" (@id Job)
    (id_keys jobVersionSchema) s s8 B5 t9 b9 E9 R9 S9. set (s9 := tr_set job_version t9 s8) in *.
  back deployment DeploymentSnapshot DeploymentRestore "deployment insert failed: %v" (@id Deployment)
    (id_keys deploymentSchema) s s9 B6 t10 b10 E10 R10 S10. set (s10 := tr_set deployment t10 s9) in *.
  exists (foldr (fun b bytes => b +:+ bytes) "" [b1; b2; b3; b4; b5; b6; b7; b8; b9; b10]), s10. split; [|split].
  - change (persistIndexes s) with (persistAll IndexSnapshot (queryGet indexes s "id" [])). rewrite E1.
    unfold persistNodes, Nodes. rewrite E2. unfold persistJobs, Jobs. rewrite E3. unfold persistEvals, Evals. rewrite E4.
    unfold persistAllocs, Allocs. rewrite E5. unfold persistPeriodicLaunches, PeriodicLaunches. rewrite E6.
    unfold persistJobSummaries, JobSummaries. rewrite E7. unfold persistVaultAccessors, VaultAccessors. rewrite E8.
    unfold persistJobVersions, JobVersions. rewrite E9. unfold persistDeployments, Deployments. rewrite E10. done.
  - cbn [foldr]. repeat (eapply reads_app; [eassumption|]). apply reads_nil.
  - split; [apply onRows_id in S1|apply onRows_id in S2| |apply onRows_id in S7|apply onRows_id in S9|apply onRows_id in S10
           |apply onRows_id in S6|apply onRows_id in S4| |apply onRows_id in S8]; assumption.
Qed.

Lemma restoreLoop_end fuel s n : restoreLoop fuel ("", s) n = Some (inr s, n).
Proof. by destruct fuel. Qed.

Lemma emptied_ok t : table_ok t → table_ok (t <| tb_table := [zeroEntry] |>).
Proof.
  destruct t as [g l c tab]. intros [Hg Hl _ _]. cbn in *. split; [done|cbn; lia| |by left]. by repeat constructor.
Qed.

Lemma reads_timetable t s n fuel rest : serverTable t → encodable (tb_table t) →
  NewTimeTable timeTableGranularity timeTableLimit = Some (fs_timetable n) →
  (String.length (record TimeTableSnapshot (Serialize t) +:+ rest) ≤ fuel)%nat →
  ∃ fuel', (String.length rest ≤ fuel')%nat ∧
    restoreLoop fuel (record TimeTableSnapshot (Serialize t) +:+ rest, s) n = restoreLoop fuel' (rest, s) (n <| fs_timetable := t |>).
Proof.
  intros [Hok Ht] He Hn. set (c := byteOf TimeTableSnapshot).
  assert (record TimeTableSnapshot (Serialize t) +:+ rest = String c (encode (tb_table t) +:+ rest)) as -> by (unfold record; by rewrite app_assoc_str).
  intros Hf. cbn [String.length] in Hf. rewrite length_app_str in Hf. destruct fuel as [|fuel]; [lia|]. exists fuel. split; [lia|].
  cbn [restoreLoop fst snd]. change (Z.of_N (Ascii.N_of_ascii c)) with TimeTableSnapshot.
  unfold mbind at 1, FSM_bind, restoreRecord. rewrite Z.eqb_refl. unfold restoreTimeTable. cbn [fst snd].
  rewrite (decode_encode (tb_table t) rest He). rewrite Hn in Ht. injection Ht as Ht.
  replace (Deserialize (tb_table t) (fs_timetable n)) with (Some t); [done|]. symmetry.
  apply (Deserialize_Serialize (fs_timetable n) t); rewrite ?Ht; try done.
  by apply emptied_ok.
Qed.

(** C7. A snapshot is restored.  Let the store of a server be well formed, its objects in
    the range of their types and its allocations with resources, and let it have job
    summaries.  Then the snapshot is written without an error, and a new state machine that
    restores it ends without an error and has the time table of the server, its own broker,
    tracker and dispatcher, and a store whose indexes are, table by table, those of the
    server, with the jobs and the allocations in the form to which restoring upgrades
    them. *)
Theorem snapshot_roundtrip n n0 periodic blocked i :
  store_ok (fs_state n) → snapshotable (fs_state n) → Index (fs_state n) "job_summary" = inr i → i ≠ 0 →
  serverTable (fs_timetable n) → encodable (tb_table (fs_timetable n)) → encodable mkSnapshotHeader →
  NewFSM periodic blocked = Some n0 →
  ∃ bytes s', Persist (Snapshot n) = inr bytes ∧ sameStore s' (restoredStore (fs_state n)) ∧
    Restore bytes n0 = Some (inr tt, mkNomadFSM blocked periodic s' (fs_timetable n)).
Proof.
  intros Hok Hsb Hi Hi0 Ht He Hh Hn. destruct (tables_back _ Hok Hsb) as (bytes & s' & Ew & Hr & Hs).
  set (t := fs_timetable n) in *. exists (encode mkSnapshotHeader +:+ (record TimeTableSnapshot (Serialize t) +:+ bytes)), s'.
  split; [|split; [done|]].
  { unfold Persist. cbn [sn_snap sn_timetable Snapshot]. cbn [writeAll] in Ew |- *. fold t. by rewrite Ew. }
  unfold NewFSM in Hn. destruct (NewTimeTable _ _) as [t0|] eqn:Et; [|done]. injection Hn as <-.
  set (n0 := mkNomadFSM blocked periodic NewStateStore t0).
  unfold Restore. unfold mbind, FSM_bind. rewrite decode_encode by done. cbn [orErr mret FSM_ret snd].
  edestruct (reads_timetable t NewStateStore n0) as (f1 & Hf1 & E1); [done|done|exact Et|done|]. rewrite E1.
  rewrite <- (app_empty bytes) in Hf1 |- *. destruct (Hr f1 "" (n0 <| fs_timetable := t |>) Hf1) as (f2 & _ & E2). rewrite E2.
  assert (Index s' "job_summary" = inr i) as Es' by (rewrite (Index_same s' (fs_state n)); [done|by destruct Hs]).
  rewrite restoreLoop_end. unfold withSummaries. rewrite Es', (proj2 (Z.eqb_neq i 0) Hi0). done.
Qed.
End roundtrip.
