(* ===== verification/FsmSpec.v ===== *)
(** * The invariant of the state machine

    Every message of the log keeps the store, the broker, the tracker of the blocked
    evaluations, the periodic dispatcher and the time table well formed. *)

From stdpp Require Import base gmap strings list.
From Stdlib Require Import ZArith Lia.
From S2P Require Import Prelude GoText GoHeap Timers Structs EvalBroker EvalBrokerCore EvalBrokerInv BlockedEvals BlockedEvalsProps Bitmap Resources Jobs Allocs Network NetworkAssign Fit Plans SchedContext Feasible Stack SchedUtil MemDB MemDBSpec StateStore StoreSpec StoreInv StoreQuery StoreStatus StoreAllocs StoreVersions StoreProps TimeTable Periodic PeriodicProps JobCanon Harness HarnessSpec Fsm FsmRestore.
Open Scope string_scope.
Open Scope list_scope.
Open Scope Z_scope.

(** ** The invariant *)

Section invariant.
Context `{CaseLib} `{!CaseLaws} `{RangeOrder} `{TextLibs} `{StackLibs} `{SchedEnv} `{UpperLib} `{CronLib}.
Context `{RequestCodec}.

(** [owner] is the job of the evaluations of an identifier, [en] whether the broker is
    enabled, which it is on the leader. *)
Context (owner : string → string) (en : bool).

(** The tracker and its broker. *)
Record tracker_ok (b : BlockedEvals EvalBroker) : Prop := {
  tk_broker : Inv (evalBroker b);
  tk_enabled : enabled (evalBroker b) = en;
  tk_tracker : BInv b;
  tk_owner : ∀ id w, blockedAt b id w → ev_JobID (we_eval w) = owner id
}.

Record fsm_ok (n : nomadFSM) : Prop := {
  fo_store : store_ok (fs_state n);
  fo_tracker : tracker_ok (fs_blockedEvals n);
  fo_periodic : disp_ok (fs_periodicDispatcher n);
  fo_timetable : serverTable (fs_timetable n)
}.

(** An evaluation of a message: it has an identifier, which belongs to its job; a broker
    that is not enabled is not handed one that has to wait. *)
Record proper_eval (e : Evaluation) : Prop := {
  pe_row : properRow evalTableSchema e;
  pe_id : ev_ID e ≠ "";
  pe_wait : en = true ∨ ev_Wait e ≤ 0;
  pe_snapshot : 0 ≤ ev_SnapshotIndex e;
  pe_owner : ev_JobID e = owner (ev_ID e)
}.

(** *** The tracker *)

Lemma Enqueue_tracker b e : tracker_ok b → proper_eval e → tracker_ok (b <| BlockedEvals.evalBroker ::= fun br => Enqueue br e |>).
Proof.
  intros [Hi He Hb Ho] [_ Hid Hw _ _]. split; cbn.
  - apply processEnqueue_inv; [done|done|]. by rewrite He.
  - rewrite <- He. apply (EnqueueAll_enabled_ok (evalBroker b) [(e, "")] Hi). constructor; [|done]. split; [done|]. by rewrite He.
  - destruct Hb. by split.
  - exact Ho.
Qed.

Lemma Unblock_tracker b class index : tracker_ok b → tracker_ok (Unblock b class index).
Proof.
  intros [Hi He Hb Ho]. pose proof (Unblock_BInv b class index Hb) as Hb'. revert Hb'. unfold Unblock. destruct (be_enabled b); cbn; by split.
Qed.

Lemma Block_tracker b e : tracker_ok b → proper_eval e → tracker_ok (Block b e).
Proof.
  intros [Hi He Hb Ho] [_ Hid Hw Hs Hj].
  assert (BInv (Block b e)) as Hb' by (apply processBlock_BInv; [done|done|]; intros w Hw'; by rewrite (Ho _ _ Hw'), Hj).
  revert Hb'. unfold Block, processBlock. destruct (be_enabled b); cbn; [|by split]. destruct (BlockedEvals.jobs b !! ev_JobID e); [by split|].
  destruct (missedUnblock b e).
  - intros Hb'. assert (Forall (fun et => enqueue_ok (evalBroker b) et.1) [(e, "")]) as Hok by (constructor; [|done]; split; [done|by rewrite He]).
    destruct (EnqueueAll_enabled_ok _ _ Hi Hok) as [Hi' He']. split; [exact Hi'|by rewrite <- He|done|exact Ho].
  - intros Hb'. destruct (ev_EscapedComputedClass e); split; try done; intros id w [Hc|Hc]; cbn in Hc.
    all: try (apply lookup_insert_Some in Hc as [[<- <-]|[_ Hc]]; [exact Hj|]); apply Ho; unfold blockedAt; auto.
Qed.

Lemma Untrack_tracker b j : tracker_ok b → tracker_ok (Untrack b j).
Proof.
  intros [Hi He Hb Ho]. assert (evalBroker (Untrack b j) = evalBroker b ∧ captured (Untrack b j) ⊆ captured b ∧ escaped (Untrack b j) ⊆ escaped b) as (E & Hc & Hx).
  { unfold Untrack. destruct (be_enabled b); cbn; [|done]. destruct (BlockedEvals.jobs b !! j) as [id|]; [|done].
    destruct (captured b !! id); cbn; destruct (escaped b !! id); cbn; split_and!; try done; apply delete_subseteq. }
  split; rewrite ?E; [done|done|by apply Untrack_BInv|].
  intros id w [Hw|Hw]; apply Ho; [left|right]; by eapply lookup_weaken.
Qed.

(** *** Computations that keep the invariant *)

Definition sound {A} (m : FSM A) (φ : A → Prop) : Prop := ∀ n, fsm_ok n →
  match m n with
  | None => True
  | Some (inl _, n') => fsm_ok n'
  | Some (inr a, n') => fsm_ok n' ∧ φ a
  end.

Definition anything {A} (a : A) : Prop := True.

Lemma sound_ret {A} (φ : A → Prop) a : φ a → sound (mret a) φ.
Proof. by intros Ha n Hn. Qed.
Lemma sound_bind {A B} (m : FSM A) (k : A → FSM B) φ ψ : sound m φ → (∀ a, φ a → sound (k a) ψ) → sound (m ≫= k) ψ.
Proof.
  intros Hm Hk n Hn. unfold mbind, FSM_bind. specialize (Hm n Hn). destruct (m n) as [[[err|a] n1]|]; [done| |done].
  destruct Hm as [Hn1 Ha]. by apply Hk.
Qed.
Lemma sound_returnErr {A} (φ : A → Prop) err : sound (returnErr err) φ.
Proof. intros n Hn. by destruct err. Qed.
Lemma sound_orErr {A} (r : GoError + A) φ : (∀ a, r = inr a → φ a) → sound (orErr r) φ.
Proof. intros Hr. destruct r; [apply sound_returnErr|]. apply sound_ret. by apply Hr. Qed.
Lemma sound_orPanic {A} (o : option A) (φ : A → Prop) : (∀ a, o = Some a → φ a) → sound (orPanic o) φ.
Proof. intros Ho. destruct o; [apply sound_ret; auto|by intros n Hn]. Qed.
Lemma sound_onState {A} (q : StateStore → GoError + A) (φ : A → Prop) :
  (∀ s a, store_ok s → q s = inr a → φ a) → sound (onState q) φ.
Proof. intros Hq n Hn. refine (sound_orErr _ φ _ n Hn). intros a. apply Hq, Hn. Qed.
Lemma sound_currentState : sound currentState store_ok.
Proof. intros n Hn. split; [done|]. apply Hn. Qed.

Lemma set_state_ok n s : fsm_ok n → store_ok s → fsm_ok (n <| fs_state := s |>).
Proof. intros [_ Ht Hp Htt] Hs. by split. Qed.

Lemma sound_storeOp op φ : (∀ s, store_ok s → store_ok (op s).2) → (∀ u, φ u) → sound (storeOp op) φ.
Proof.
  intros Hop Hφ n Hn. unfold storeOp. specialize (Hop (fs_state n) (fo_store n Hn)). destruct (op (fs_state n)) as [res s]. cbn in Hop.
  apply sound_orErr; [auto|]. by apply set_state_ok.
Qed.
Lemma sound_onBlocked f φ : (∀ b, tracker_ok b → tracker_ok (f b)) → (∀ u, φ u) → sound (onBlocked f) φ.
Proof. intros Hf Hφ n [Hs Ht Hp Htt]. split; [|auto]. split; [done|by apply Hf|done|done]. Qed.
Lemma sound_onPeriodic f φ : (∀ p, disp_ok p → ∃ p', f p = Some (None, p') ∧ disp_ok p') → (∀ u, φ u) → sound (onPeriodic f) φ.
Proof.
  intros Hf Hφ n [Hs Ht Hp Htt]. unfold onPeriodic. destruct (Hf _ Hp) as (p' & -> & Hp'). split; [|auto]. by split.
Qed.
Lemma sound_eachDo {A} (l : list A) body φ : (∀ x, x ∈ l → sound (body x) anything) → (∀ u, φ u) → sound (eachDo l body) φ.
Proof.
  intros Hb Hφ. induction l as [|x l IH]; cbn [eachDo]; [by apply sound_ret|].
  eapply sound_bind; [apply Hb; left|]. intros _ _. apply IH. intros y Hy. apply Hb. by right.
Qed.
Lemma sound_decode {A} `{Codec A} buf (φ : A → Prop) : (∀ req rest, decode buf = inr (req, rest) → φ req) → sound (decodeRequest buf) φ.
Proof. intros Hd. unfold decodeRequest. destruct (decode buf) as [e|[req rest]] eqn:E; [by intros n Hn|]. apply sound_ret. by eapply Hd. Qed.

Lemma sound_op index op φ : proper_op op → (∀ u, φ u) → sound (storeOp (applyOp index op)) φ.
Proof. intros Hp Hφ. apply sound_storeOp; [|done]. intros s. by apply applyOp_ok. Qed.

(** *** Jobs *)

Lemma registered_fields index job keep ex st : let r := registered index job keep ex st in
  jb_ID r = jb_ID job ∧ jb_ParentID r = jb_ParentID job ∧ jb_Periodic r = jb_Periodic job.
Proof. unfold registered. cbv zeta. by repeat case_match. Qed.

Lemma registeredJob_fields index s s' job u : store_ok s → job_ok job → UpsertJob index job s = (inr u, s') →
  let r := registeredJob index s s' job in jb_ID r = jb_ID job ∧ jb_ParentID r = jb_ParentID job ∧ jb_Periodic r = jb_Periodic job.
Proof.
  intros Hs Hj E. apply (proj1 (commit_inr _ _ _ _)) in E. destruct (upsertJobImpl_effect index job false s u s' Hs Hj E) as (_ & _ & st & _ & _ & Et & _).
  unfold registeredJob. rewrite !JobByID_eq, Et, lookup_insert_eq. case_match; [apply registered_fields|done].
Qed.

Lemma canonical_ok j : job_ok j → job_ok (JobCanonicalize j).1.
Proof. by rewrite JobCanonicalize_eq. Qed.

Lemma sound_registerJob index job : job_ok job →
  sound (registerJob index job) (fun r => jb_ID r = jb_ID job ∧ jb_ParentID r = jb_ParentID job ∧ jb_Periodic r = jb_Periodic job).
Proof.
  intros Hj n Hn. pose proof (applyOp_ok index (OpUpsertJob job) (fs_state n) Hj (fo_store n Hn)) as Hok. cbn [applyOp] in Hok.
  unfold registerJob, mbind, FSM_bind, currentState, storeOp. destruct (UpsertJob index job (fs_state n)) as [[err|[]] s'] eqn:E; cbn in Hok |- *.
  - destruct err; cbn; auto using set_state_ok.
  - split; [by apply set_state_ok|]. eapply registeredJob_fields; [by apply Hn|done|exact E].
Qed.

Lemma launch_proper id t : properString true id → properRow periodicLaunchTableSchema (mkPeriodicLaunch id t 0 0).
Proof. intros Hid. unfold properRow, proper. cbn. auto. Qed.

Lemma applyUpsertJob_sound now buf index :
  (∀ req rest, decode buf = inr (req, rest) → ∀ job, jrr_Job req = Some job → job_ok job ∧ properString true (jb_ParentID job)) →
  sound (applyUpsertJob now buf index) anything.
Proof.
  intros Hreq. eapply sound_bind; [apply (sound_decode _ _ Hreq)|]. intros req Hr. eapply sound_bind; [apply (sound_orPanic _ _ Hr)|]. intros job [Hj Hp].
  eapply sound_bind; [by apply sound_registerJob, canonical_ok|]. intros r (E1 & E2 & E3).
  eapply sound_bind; [apply (sound_onPeriodic _ anything); [|done]; intros p; apply Add_ok|]. intros _ _.
  assert (properString true (jb_ID r) ∧ properString true (jb_ParentID r)) as [Hid Hpar].
  { rewrite E1, E2. rewrite JobCanonicalize_eq. split; [apply Hj|done]. }
  eapply (sound_bind _ _ anything).
  - unfold recordInsertion. case_match; [|by apply sound_ret]. eapply sound_bind; [by apply (sound_onState _ anything)|]. intros [l|] _; [by apply sound_ret|].
    apply (sound_op index (OpUpsertPeriodicLaunch _)); [by apply launch_proper|done].
  - intros _ _. unfold recordLaunch. case_bool_decide; [by apply sound_ret|].
    eapply sound_bind; [by apply (sound_onState _ anything)|]. intros [parent|] _; [|by apply sound_ret]. case_match; [|by apply sound_ret].
    eapply sound_bind; [by apply (sound_orErr _ anything)|]. intros t _.
    apply (sound_op index (OpUpsertPeriodicLaunch _)); [by apply launch_proper|done].
Qed.

Lemma JobByID_ok s id j : store_ok s → JobByID s id = inr (Some j) → job_ok j.
Proof. intros Hs. rewrite JobByID_eq. intros [= Hj]. apply (row_good jobs s _ _ Hs) in Hj. by apply good_job in Hj as [Hj _]. Qed.

Lemma applyDeregisterJob_sound buf index : sound (applyDeregisterJob buf index) anything.
Proof.
  eapply sound_bind; [by apply (sound_decode _ anything)|]. intros req _.
  eapply (sound_bind _ _ anything); [apply sound_onPeriodic; [|done]; intros p Hp; destruct (removeLocked_ok p (jdr_JobID req) Hp) as (p' & E & Hp' & _); by exists p'|].
  intros _ _. destruct (jdr_Purge req).
  - eapply (sound_bind _ _ anything); [by apply (sound_op index (OpDeleteJob _))|]. intros _ _. apply sound_storeOp; [|done]. intros s Hs.
    pose proof (applyOp_ok index (OpDeletePeriodicLaunch (jdr_JobID req)) s I Hs) as Hok. cbn [applyOp] in Hok. unfold ignoreErr.
    destruct (DeletePeriodicLaunch index (jdr_JobID req) s) as [[[]|] s']; done.
  - eapply sound_bind; [apply (sound_onState _ (fun o => ∀ j, o = Some j → job_ok j))|].
    { intros s o Hs Ho j ->. by eapply JobByID_ok. }
    intros [current|] Hc; [|apply sound_returnErr]. apply (sound_op index (OpUpsertJob _)); [|done]. exact (Hc current eq_refl).
Qed.

(** *** Evaluations *)

Lemma stampedEval_proper index s e : proper_eval e → proper_eval (stampedEval index s e).
Proof. intros []. by split. Qed.

Lemma handOn_sound e : proper_eval e → sound (handOn e) anything.
Proof.
  intros He. eapply sound_bind; [by apply (sound_orPanic _ anything)|]. intros [] _; [apply sound_onBlocked; [intros b Hb; by apply Enqueue_tracker|done]|].
  eapply sound_bind; [by apply (sound_orPanic _ anything)|]. intros [] _; [apply sound_onBlocked; [intros b Hb; by apply Block_tracker|done]|].
  case_match; [|by apply sound_ret]. apply sound_onBlocked; [|done]. intros b. apply Untrack_tracker.
Qed.

Lemma applyUpdateEval_sound buf index : (∀ req rest, decode buf = inr (req, rest) → Forall proper_eval (eu_Evals req)) →
  sound (applyUpdateEval buf index) anything.
Proof.
  intros Hreq. eapply sound_bind; [apply (sound_decode _ _ Hreq)|]. intros req Hr.
  eapply (sound_bind _ _ anything); [apply (sound_op index (OpUpsertEvals _)); [by eapply Forall_impl; [exact Hr|intros e []]|done]|].
  intros _ _. eapply sound_bind; [apply sound_currentState|]. intros after _. apply sound_eachDo; [|done].
  intros e (e' & -> & He')%list_elem_of_fmap. apply handOn_sound, stampedEval_proper. by eapply Forall_forall in Hr.
Qed.

Lemma enqueueIfPending_sound index o : optional proper_eval o → sound (enqueueIfPending index o) anything.
Proof.
  intros Ho. destruct o as [e|]; [|by apply sound_ret]. eapply sound_bind; [apply sound_currentState|]. intros after _.
  eapply sound_bind; [by apply (sound_orPanic _ anything)|]. intros [] _; [|by apply sound_ret].
  apply sound_onBlocked; [|done]. intros b Hb. apply Enqueue_tracker; [done|]. by apply stampedEval_proper.
Qed.

Lemma optional_row o : optional proper_eval o → optional (properRow evalTableSchema) o.
Proof. destruct o; [|done]. by intros []. Qed.

(** *** Allocations *)

Lemma denormalized_row a : properRow allocTableSchema a → properRow allocTableSchema (denormalized a).
Proof. unfold denormalized, totalResources. by repeat case_match. Qed.

Lemma denormalizedJobs_rows job als : Forall (properRow allocTableSchema) als → Forall (properRow allocTableSchema) (DenormalizeAllocationJobs job als).
Proof.
  unfold DenormalizeAllocationJobs. destruct job; [|done]. intros Ha. apply Forall_fmap. eapply Forall_impl; [exact Ha|].
  intros a. cbn. by repeat case_match.
Qed.

Lemma unblockFinished_sound index als : sound (unblockFinished index als) anything.
Proof.
  induction als as [|a als IH]; cbn [unblockFinished]; [by apply sound_ret|]. case_match; [|done].
  eapply sound_bind; [by apply (sound_onState _ anything)|]. intros [node|] _; [|by apply sound_ret].
  eapply (sound_bind _ _ anything); [|by intros _ _]. apply sound_onBlocked; [|done]. intros b. apply Unblock_tracker.
Qed.

(** ** Messages *)

(** What the server has checked of a message before it is put into the log. *)
Record properMessage (type : Z) (buf : string) : Prop := {
  pm_node : type = NodeRegisterRequestType → ∀ req rest, decode buf = inr (req, rest) → optional (properRow nodeTableSchema) (nr_Node req);
  pm_job : type = JobRegisterRequestType → ∀ req rest, decode buf = inr (req, rest) → ∀ job, jrr_Job req = Some job →
    job_ok job ∧ properString true (jb_ParentID job);
  pm_evals : type = EvalUpdateRequestType → ∀ req rest, decode buf = inr (req, rest) → Forall proper_eval (eu_Evals req);
  pm_allocs : type = AllocUpdateRequestType → ∀ req rest, decode buf = inr (req, rest) → Forall (properRow allocTableSchema) (au_Alloc req);
  pm_accessors : type = VaultAccessorRegisterRequestType → ∀ req rest, decode buf = inr (req, rest) →
    Forall (properRow vaultAccessorTableSchema) (va_Accessors req);
  pm_plan : type = ApplyPlanResultsRequestType → ∀ req rest, decode buf = inr (req, rest) → proper_op (OpPlanResults req);
  pm_deployment : type = DeploymentStatusUpdateRequestType → ∀ req rest, decode buf = inr (req, rest) →
    optional job_ok (dr_Job req) ∧ optional proper_eval (dr_Eval req);
  pm_promote : type = DeploymentPromoteRequestType → ∀ req rest, decode buf = inr (req, rest) → optional proper_eval (dp_Eval req);
  pm_health : type = DeploymentAllocHealthRequestType → ∀ req rest, decode buf = inr (req, rest) →
    optional job_ok (dh_Job req) ∧ optional proper_eval (dh_Eval req)
}.

(** The type of a message without the flag, and its content. *)
Definition messageOf (log : RaftLog) : Z * string :=
  match log_Data log with
  | EmptyString => (-1, "")
  | String c buf =>
      let type := Z.of_N (Ascii.N_of_ascii c) in
      (if Z.land type IgnoreUnknownTypeFlag =? IgnoreUnknownTypeFlag then Z.ldiff type IgnoreUnknownTypeFlag else type, buf)
  end.

Record properLog (log : RaftLog) : Prop := {
  lg_index : 0 ≤ log_Index log;
  lg_message : properMessage (messageOf log).1 (messageOf log).2
}.

(** The handlers that hand a decoded request to the store. *)
Lemma sound_request {A} `{Codec A} buf (P : A → Prop) (k : A → FSM unit) :
  (∀ req rest, decode buf = inr (req, rest) → P req) → (∀ req, P req → sound (k req) anything) →
  sound (req ← decodeRequest buf; k req) anything.
Proof. intros Hd Hk. eapply sound_bind; [apply (sound_decode _ _ Hd)|]. done. Qed.

Lemma nodes_sound buf index :
  ((∀ req rest, decode buf = inr (req, rest) → optional (properRow nodeTableSchema) (nr_Node req)) → sound (applyUpsertNode buf index) anything) ∧
  sound (applyDeregisterNode buf index) anything ∧ sound (applyStatusUpdate buf index) anything ∧ sound (applyDrainUpdate buf index) anything.
Proof.
  assert (∀ class, sound (onBlocked (fun b => Unblock b class index)) anything) as Hu
    by (intros class; apply sound_onBlocked; [intros b; apply Unblock_tracker|done]).
  split_and!.
  - intros Hreq. eapply sound_request; [exact Hreq|]. intros req Hr.
    eapply sound_bind; [apply (sound_orPanic _ (properRow nodeTableSchema)); intros n En; cbn beta in Hr; by rewrite En in Hr|]. intros node Hn.
    eapply (sound_bind _ _ anything); [by apply (sound_op index (OpUpsertNode node))|]. intros _ _. case_bool_decide; [apply Hu|by apply sound_ret].
  - eapply (sound_request _ anything); [done|]. intros req _. by apply (sound_op index (OpDeleteNode _)).
  - eapply (sound_request _ anything); [done|]. intros req _.
    eapply (sound_bind _ _ anything); [by apply (sound_op index (OpUpdateNodeStatus _ _))|]. intros _ _. case_bool_decide; [|by apply sound_ret].
    eapply sound_bind; [by apply (sound_onState _ anything)|]. intros node _. eapply sound_bind; [by apply (sound_orPanic _ anything)|]. intros n _. apply Hu.
  - eapply (sound_request _ anything); [done|]. intros req _. by apply (sound_op index (OpUpdateNodeDrain _ _)).
Qed.

Lemma allocs_sound buf index :
  ((∀ req rest, decode buf = inr (req, rest) → Forall (properRow allocTableSchema) (au_Alloc req)) → sound (applyAllocUpdate buf index) anything) ∧
  sound (applyAllocClientUpdate buf index) anything ∧ sound (applyReconcileSummaries buf index) anything.
Proof.
  split_and!.
  - intros Hreq. eapply sound_request; [exact Hreq|]. intros req Hr. apply (sound_op index (OpUpsertAllocs _)); [|done].
    apply Forall_fmap. eapply Forall_impl; [by apply denormalizedJobs_rows|]. apply denormalized_row.
  - eapply (sound_request _ anything); [done|]. intros req _. case_match; [by apply sound_ret|].
    eapply sound_bind; [apply sound_currentState|]. intros s _.
    eapply (sound_bind _ _ anything); [by apply (sound_op index (OpUpdateAllocsFromClient _))|]. intros _ _. apply unblockFinished_sound.
  - eapply (sound_bind _ _ anything); [by apply (sound_op index OpReconcileJobSummaries)|]. intros _ _ n Hn. unfold storeTry.
    destruct (reconcileQueuedAllocations index (fs_state n)) as [[res s]|] eqn:E; [|done].
    apply reconcileQueuedAllocations_ok in E; [|by apply Hn]. apply sound_orErr; [done|]. by apply set_state_ok.
Qed.

Lemma deployments_sound buf index :
  ((∀ req rest, decode buf = inr (req, rest) → optional job_ok (dr_Job req) ∧ optional proper_eval (dr_Eval req)) →
    sound (applyDeploymentStatusUpdate buf index) anything) ∧
  ((∀ req rest, decode buf = inr (req, rest) → optional proper_eval (dp_Eval req)) → sound (applyDeploymentPromotion buf index) anything) ∧
  ((∀ req rest, decode buf = inr (req, rest) → optional job_ok (dh_Job req) ∧ optional proper_eval (dh_Eval req)) →
    sound (applyDeploymentAllocHealth buf index) anything) ∧
  sound (applyDeploymentDelete buf index) anything.
Proof.
  split_and!.
  - intros Hreq. eapply sound_request; [exact Hreq|]. intros req [Hj He].
    eapply (sound_bind _ _ anything); [apply (sound_op index (OpUpdateDeploymentStatus req)); [split; [done|by apply optional_row]|done]|].
    intros _ _. by apply enqueueIfPending_sound.
  - intros Hreq. eapply sound_request; [exact Hreq|]. intros req He.
    eapply (sound_bind _ _ anything); [apply (sound_op index (OpUpdateDeploymentPromotion req)); [by apply optional_row|done]|].
    intros _ _. by apply enqueueIfPending_sound.
  - intros Hreq. eapply sound_request; [exact Hreq|]. intros req [Hj He].
    eapply (sound_bind _ _ anything); [apply (sound_op index (OpUpdateDeploymentAllocHealth req)); [split; [done|by apply optional_row]|done]|].
    intros _ _. by apply enqueueIfPending_sound.
  - eapply (sound_request _ anything); [done|]. intros req _. by apply (sound_op index (OpDeleteDeployment _)).
Qed.

Lemma handler_sound now type buf index h : properMessage type buf → handler now type = Some h → sound (h buf index) anything.
Proof.
  intros Hm. unfold handler.
  intros Hh. repeat match type of Hh with (if ?b then _ else _) = _ => destruct b eqn:Et; [injection Hh as <-; apply Z.eqb_eq in Et|clear Et] end; [..|done].
  - apply nodes_sound, (pm_node _ _ Hm Et).
  - apply nodes_sound.
  - apply nodes_sound.
  - apply nodes_sound.
  - apply applyUpsertJob_sound, (pm_job _ _ Hm Et).
  - apply applyDeregisterJob_sound.
  - apply applyUpdateEval_sound, (pm_evals _ _ Hm Et).
  - eapply (sound_request _ anything); [done|]. intros req _. by apply (sound_op index (OpDeleteEval _ _)).
  - apply allocs_sound, (pm_allocs _ _ Hm Et).
  - apply allocs_sound.
  - apply allocs_sound.
  - eapply sound_request; [exact (pm_accessors _ _ Hm Et)|]. intros req Hr. by apply (sound_op index (OpUpsertVaultAccessor _)).
  - eapply (sound_request _ anything); [done|]. intros req _. by apply (sound_op index (OpDeleteVaultAccessors _)).
  - eapply sound_request; [exact (pm_plan _ _ Hm Et)|]. intros req Hr. by apply (sound_op index (OpPlanResults req)).
  - apply deployments_sound, (pm_deployment _ _ Hm Et).
  - apply deployments_sound, (pm_promote _ _ Hm Et).
  - apply deployments_sound, (pm_health _ _ Hm Et).
  - apply deployments_sound.
  - eapply (sound_request _ anything); [done|]. intros req _. by apply (sound_op index (OpUpdateJobStability _ _ _)).
Qed.

Lemma serverTable_witness index when t : 0 ≤ index → serverTable t → ∃ t', Witness index when t = Some t' ∧ serverTable t'.
Proof.
  intros Hi [Hok Hn]. destruct (Witness_ok index when t Hok Hi) as (t' & E & Hok' & E1 & E2 & E3). exists t'. split; [done|]. split; [done|].
  rewrite Hn. f_equal. destruct t, t'. cbn in *. by subst.
Qed.

Lemma Apply_sound now log : properLog log → sound (Apply now log) anything.
Proof.
  intros [Hi Hm] n Hn. unfold Apply. unfold messageOf in Hm. destruct (log_Data log) as [|c buf]; [done|]. cbn [fst snd] in Hm.
  unfold mbind, FSM_bind, witness. destruct (serverTable_witness (log_Index log) (now 0%nat) (fs_timetable n) Hi (fo_timetable n Hn)) as (t' & E & Ht').
  rewrite E. cbn [mbind option_bind]. assert (fsm_ok (n <| fs_timetable := t' |>)) as Hn' by (destruct Hn; by split).
  destruct (handler now _) as [h|] eqn:Eh; [by apply (handler_sound now _ buf _ h Hm Eh)|]. by case_match.
Qed.
End invariant.
