(* ===== verification/FsmAgree.v ===== *)
(** * Replicas agree

    Two servers with the same store that apply the same message have the same store
    afterwards, whatever their clocks, their brokers, their dispatchers and their time
    tables are: they panic alike, and report the same error.  The exceptions are messages
    whose effect the code makes depend on the server: the first registration of a periodic
    job, which records the local time, and the request to reconcile the summaries, which
    runs the schedulers. *)

From stdpp Require Import base gmap strings list.
From Stdlib Require Import ZArith Lia.
From S2P Require Import Prelude GoText GoHeap Timers Structs EvalBroker EvalBrokerCore EvalBrokerInv BlockedEvals BlockedEvalsProps Bitmap Resources Jobs Allocs Network NetworkAssign Fit Plans SchedContext Feasible Stack SchedUtil MemDB MemDBSpec StateStore StoreSpec StoreInv StoreQuery StoreStatus StoreAllocs StoreVersions StoreProps TimeTable Periodic PeriodicProps JobCanon Harness HarnessSpec Fsm FsmRestore FsmSpec.
Open Scope string_scope.
Open Scope list_scope.
Open Scope Z_scope.

(** ** Computations of two servers *)

(** The same store, and dispatchers and time tables in order. *)
Record matched (n1 n2 : nomadFSM) : Prop := {
  ma_state : fs_state n1 = fs_state n2;
  ma_periodic1 : disp_ok (fs_periodicDispatcher n1);
  ma_periodic2 : disp_ok (fs_periodicDispatcher n2);
  ma_table1 : table_ok (fs_timetable n1);
  ma_table2 : table_ok (fs_timetable n2)
}.

(** [pre] holds of the store at the start, [post] of the result and of the store at the
    end. *)
Definition agreeIf {A} (pre : StateStore → Prop) (m1 m2 : FSM A) (post : A → StateStore → Prop) : Prop := ∀ n1 n2,
  matched n1 n2 → pre (fs_state n1) →
  match m1 n1, m2 n2 with
  | None, None => True
  | Some (r1, n1'), Some (r2, n2') => r1 = r2 ∧ matched n1' n2' ∧ match r1 with inr a => post a (fs_state n1') | inl _ => True end
  | _, _ => False
  end.
Abbreviation agree m1 m2 := (agreeIf (fun _ => True) m1 m2 (fun _ _ => True)).

Lemma agree_bind {A B} pre mid post (m1 m2 : FSM A) (k1 k2 : A → FSM B) :
  agreeIf pre m1 m2 mid → (∀ a, agreeIf (mid a) (k1 a) (k2 a) post) → agreeIf pre (m1 ≫= k1) (m2 ≫= k2) post.
Proof.
  intros Hm Hk n1 n2 Hn Hp. unfold mbind, FSM_bind. specialize (Hm n1 n2 Hn Hp).
  destruct (m1 n1) as [[r1 n1']|], (m2 n2) as [[r2 n2']|]; try done. destruct Hm as (<- & Hn' & Hmid). destruct r1 as [err|a]; [done|]. by apply Hk.
Qed.
Lemma agree_weaken {A} (pre pre' : StateStore → Prop) (post : A → StateStore → Prop) m1 m2 :
  (∀ s, pre' s → pre s) → agreeIf pre m1 m2 post → agreeIf pre' m1 m2 post.
Proof. intros Hpre Hm n1 n2 Hn Hp. apply Hm; auto. Qed.
Lemma agree_then {A B} (m1 m2 : FSM A) (k1 k2 : A → FSM B) : agree m1 m2 → (∀ a, agree (k1 a) (k2 a)) → agree (m1 ≫= k1) (m2 ≫= k2).
Proof. intros Hm Hk. eapply agree_bind; [exact Hm|]. exact Hk. Qed.
Lemma agree_ret {A} (a : A) : agree (mret a) (mret a).
Proof. done. Qed.
Lemma agree_panics {A} : agree (@panics A) (@panics A).
Proof. done. Qed.
Lemma agree_returnErr {A} err : agree (@returnErr A err) (@returnErr A err).
Proof. by destruct err. Qed.
Lemma agree_orErr {A} (r : GoError + A) : agree (orErr r) (orErr r).
Proof. destruct r; [apply agree_returnErr|apply agree_ret]. Qed.
Lemma agree_orPanic {A} (o : option A) : agree (orPanic o) (orPanic o).
Proof. by destruct o. Qed.
Lemma agree_onState {A} (q : StateStore → GoError + A) : agree (onState q) (onState q).
Proof. intros n1 n2 Hn _. unfold onState. rewrite <- (ma_state _ _ Hn). by apply agree_orErr. Qed.
Lemma agree_currentState : agreeIf (fun _ => True) currentState currentState (fun s s' => s = s').
Proof. intros n1 n2 Hn _. cbn. by rewrite (ma_state _ _ Hn). Qed.
Lemma agree_storeOp op : agree (storeOp op) (storeOp op).
Proof.
  intros n1 n2 Hn _. unfold storeOp. rewrite <- (ma_state _ _ Hn). destruct (op (fs_state n1)) as [res s].
  apply agree_orErr; [|done]. by destruct Hn.
Qed.
Lemma agree_onBlocked f1 f2 : agree (onBlocked f1) (onBlocked f2).
Proof. intros n1 n2 [] _. cbn. split; [done|]. split; [by split|done]. Qed.
Lemma agree_onPeriodic P f1 f2 : (∀ p, disp_ok p → ∃ p', f1 p = Some (None, p') ∧ disp_ok p') →
  (∀ p, disp_ok p → ∃ p', f2 p = Some (None, p') ∧ disp_ok p') → agreeIf P (onPeriodic f1) (onPeriodic f2) (fun _ => P).
Proof.
  intros H1 H2 n1 n2 [E P1 P2 T1 T2] HP. unfold onPeriodic. destruct (H1 _ P1) as (p1 & -> & ?), (H2 _ P2) as (p2 & -> & ?). split; [done|]. split; [by split|done].
Qed.
Lemma agree_eachDo {A} (l : list A) body1 body2 : (∀ x, agree (body1 x) (body2 x)) → agree (eachDo l body1) (eachDo l body2).
Proof. intros Hb. induction l as [|x l IH]; cbn [eachDo]; [apply agree_ret|]. by apply agree_then. Qed.
Lemma agree_decode {A} `{Codec A} buf : agree (@decodeRequest A _ buf) (@decodeRequest A _ buf).
Proof. unfold decodeRequest. by destruct (decode buf) as [|[]]. Qed.

Lemma agree_decoded {A} `{Codec A} P buf :
  agreeIf P (@decodeRequest A _ buf) (@decodeRequest A _ buf) (fun req s => P s ∧ ∃ rest, decode buf = inr (req, rest)).
Proof. unfold decodeRequest. intros n1 n2 Hn HP. destruct (decode buf) as [|[req rest]]; cbn; eauto. Qed.
Lemma agree_present {A} P (o : option A) : agreeIf P (orPanic o) (orPanic o) (fun a s => P s ∧ o = Some a).
Proof. intros n1 n2 Hn HP. by destruct o. Qed.

Lemma agree_withState {B} (k1 k2 : StateStore → FSM B) : (∀ s, agree (k1 s) (k2 s)) → agree (currentState ≫= k1) (currentState ≫= k2).
Proof. intros Hk. eapply agree_bind; [apply agree_currentState|]. intros s. eapply agree_weaken; [|apply Hk]. done. Qed.

Create HintDb agreement discriminated.
#[export] Hint Resolve agree_then agree_ret agree_panics agree_returnErr agree_orErr agree_orPanic agree_onState agree_storeOp agree_onBlocked agree_eachDo agree_decode agree_withState : agreement.

(** ** The handlers *)

Section handlers.
Context `{CaseLib} `{!CaseLaws} `{RangeOrder} `{TextLibs} `{StackLibs} `{UpperLib} `{CronLib} `{RequestCodec}.
Context (now1 now2 : nat → Z).
Implicit Types (buf : string) (index : Z).

(** Follows the structure of a handler. *)
Local Ltac alike := repeat first [match goal with |- ∀ _, _ => intro end | apply agree_withState | apply agree_then | case_match | apply agree_eachDo | progress auto with agreement].

Lemma handOn_agree e : agree (handOn e) (handOn e).
Proof. unfold handOn, onBroker. alike. Qed.
Lemma enqueueIfPending_agree index o : agree (enqueueIfPending index o) (enqueueIfPending index o).
Proof. unfold enqueueIfPending, onBroker. alike. Qed.
Lemma unblockFinished_agree index als : agree (unblockFinished index als) (unblockFinished index als).
Proof. induction als as [|a als IH]; cbn [unblockFinished]; alike. Qed.
Lemma recordLaunch_agree job index : agree (recordLaunch job index) (recordLaunch job index).
Proof. unfold recordLaunch. alike. Qed.

Lemma nodes_agree buf index :
  agree (applyUpsertNode buf index) (applyUpsertNode buf index) ∧ agree (applyDeregisterNode buf index) (applyDeregisterNode buf index) ∧
  agree (applyStatusUpdate buf index) (applyStatusUpdate buf index) ∧ agree (applyDrainUpdate buf index) (applyDrainUpdate buf index).
Proof. unfold applyUpsertNode, applyDeregisterNode, applyStatusUpdate, applyDrainUpdate. split_and!; alike. Qed.

(** *** Jobs *)

(** The launch of a periodic job has been recorded. *)
Definition launched (s : StateStore) (job : Job) : Prop :=
  IsPeriodic job = true → ∃ l, PeriodicLaunchByID s (jb_ID job) = inr (Some l).

Lemma registerJob_agree index job : job_ok job →
  agreeIf (fun s => store_ok s ∧ launched s job) (registerJob index job) (registerJob index job) (fun r s' => launched s' r).
Proof.
  intros Hj n1 n2 Hn [Hs Hl]. unfold registerJob, mbind, FSM_bind, currentState, storeOp. rewrite <- (ma_state _ _ Hn).
  destruct (UpsertJob index job (fs_state n1)) as [[err|[]] s'] eqn:E; cbn.
  - destruct err; cbn; [|..|done]; (split; [done|]; split; [by destruct Hn|done]).
  - split; [done|]. split; [by destruct Hn|].
    destruct (registeredJob_fields index (fs_state n1) s' job tt Hs Hj E) as (E3 & _ & E4).
    assert (st_periodic_launch s' = st_periodic_launch (fs_state n1)) as Ep.
    { apply (proj1 (commit_inr _ _ _ _)) in E. eapply frame_at; [|exact E]. by apply frame_upsertJobImpl. }
    unfold launched, IsPeriodic in *. rewrite E4, E3. unfold PeriodicLaunchByID, queryFirst in *. cbn [tr_schema tr_get periodic_launch] in *. by rewrite Ep.
Qed.

Lemma recordInsertion_agree t1 t2 job index :
  agreeIf (fun s => launched s job) (recordInsertion t1 job index) (recordInsertion t2 job index) (fun _ _ => True).
Proof.
  unfold recordInsertion, launched. destruct (IsPeriodic job); [|by eapply agree_weaken; [|apply agree_ret]].
  intros n1 n2 Hn Hl. destruct (Hl eq_refl) as [l El]. unfold mbind, FSM_bind, onState. rewrite <- (ma_state _ _ Hn), El. cbn. done.
Qed.

Lemma applyUpsertJob_agree buf index :
  (∀ req rest, decode buf = inr (req, rest) → ∀ job, jrr_Job req = Some job → job_ok job) →
  agreeIf (fun s => store_ok s ∧ ∀ req rest, decode buf = inr (req, rest) → ∀ job, jrr_Job req = Some job → launched s job)
    (applyUpsertJob now1 buf index) (applyUpsertJob now2 buf index) (fun _ _ => True).
Proof.
  intros Hok. set (P := fun s => _). unfold applyUpsertJob. eapply agree_bind; [apply (agree_decoded P)|]. intros req.
  eapply agree_bind; [apply agree_present|]. intros job.
  eapply (agree_bind _ (fun r s => launched s r)).
  { intros n1 n2 Hn ((HP & rest & Ed) & Ej). destruct HP as [Hs Hl]. apply registerJob_agree; [by eapply canonical_ok, Hok|done|]. split; [done|].
    specialize (Hl req rest Ed job Ej). unfold launched, IsPeriodic in *. by rewrite JobCanonicalize_eq. }
  intros r. eapply agree_bind; [apply agree_onPeriodic; intros p; apply Add_ok|]. intros [].
  eapply agree_bind; [apply recordInsertion_agree|]. intros []. apply recordLaunch_agree.
Qed.

Lemma applyDeregisterJob_agree buf index : agree (applyDeregisterJob buf index) (applyDeregisterJob buf index).
Proof.
  unfold applyDeregisterJob. apply agree_then; [apply agree_decode|]. intros req. apply agree_then; [|alike].
  apply agree_onPeriodic; intros p Hp; destruct (removeLocked_ok p (jdr_JobID req) Hp) as (p' & E & Hp' & _); by exists p'.
Qed.

(** ** Messages *)

(** The effect of the message does not depend on the server. *)
Definition timeless (s : StateStore) (log : RaftLog) : Prop :=
  (messageOf log).1 ≠ ReconcileJobSummariesRequestType ∧
  ((messageOf log).1 = JobRegisterRequestType → ∀ req rest, decode (messageOf log).2 = inr (req, rest) →
     ∀ job, jrr_Job req = Some job → launched s job).

(** The schedulers of the two servers may find different things in their environments. *)
Definition handlerIn (E : SchedEnv) (now : nat → Z) (type : Z) : option (string → Z → FSM unit) := handler now type.
Definition ApplyIn (E : SchedEnv) (now : nat → Z) (log : RaftLog) : FSM unit := Apply now log.

Lemma handler_agree E E' owner en type buf index :
  properMessage owner en type buf → type ≠ ReconcileJobSummariesRequestType →
  match handlerIn E now1 type, handlerIn E' now2 type with
  | Some h1, Some h2 =>
      agreeIf (fun s => store_ok s ∧ (type = JobRegisterRequestType → ∀ req rest, decode buf = inr (req, rest) → ∀ job, jrr_Job req = Some job → launched s job))
        (h1 buf index) (h2 buf index) (fun _ _ => True)
  | None, None => True
  | _, _ => False
  end.
Proof.
  intros Hm Hne. unfold handlerIn, handler.
  repeat match goal with |- context [if ?b then _ else _] => destruct b eqn:Et; [apply Z.eqb_eq in Et|clear Et] end; [..|done].
  5: { subst. eapply agree_weaken; [|apply applyUpsertJob_agree]; [intros s [Hs Hl]; split; [done|]; intros req rest Ed; by eapply Hl|].
       intros req rest Ed job Ej. by apply (pm_job _ _ _ _ Hm eq_refl req rest Ed). }
  10: done.
  all: apply (agree_weaken (fun _ => True)); [done|].
  - apply nodes_agree.
  - apply nodes_agree.
  - apply nodes_agree.
  - apply nodes_agree.
  - apply applyDeregisterJob_agree.
  - unfold applyUpdateEval. apply agree_then; [apply agree_decode|]. intros req. apply agree_then; [apply agree_storeOp|]. intros _.
    apply agree_withState. intros s. apply agree_eachDo. intros e. apply handOn_agree.
  - unfold applyDeleteEval. alike.
  - unfold applyAllocUpdate. alike.
  - unfold applyAllocClientUpdate. apply agree_then; [apply agree_decode|]. intros req. case_match; [apply agree_ret|].
    apply agree_withState. intros s. apply agree_then; [apply agree_storeOp|]. intros _. apply unblockFinished_agree.
  - unfold applyUpsertVaultAccessor. alike.
  - unfold applyDeregisterVaultAccessor. alike.
  - unfold applyPlanResults. alike.
  - apply agree_then; [apply agree_decode|]. intros req. apply agree_then; [apply agree_storeOp|]. intros _. apply enqueueIfPending_agree.
  - apply agree_then; [apply agree_decode|]. intros req. apply agree_then; [apply agree_storeOp|]. intros _. apply enqueueIfPending_agree.
  - apply agree_then; [apply agree_decode|]. intros req. apply agree_then; [apply agree_storeOp|]. intros _. apply enqueueIfPending_agree.
  - unfold applyDeploymentDelete. alike.
  - unfold applyJobStability. alike.
Qed.

Lemma ApplyIn_eq E now log c buf n t : log_Data log = String c buf → Witness (log_Index log) (now 0%nat) (fs_timetable n) = Some t →
  ApplyIn E now log n =
  match handlerIn E now (messageOf log).1 with
  | Some apply => apply buf (log_Index log)
  | None => if Z.land (Z.of_N (Ascii.N_of_ascii c)) IgnoreUnknownTypeFlag =? IgnoreUnknownTypeFlag then mret tt else panics
  end (n <| fs_timetable := t |>).
Proof.
  intros Ed Ew. unfold ApplyIn, Apply, messageOf, handlerIn. rewrite Ed. unfold mbind, FSM_bind, witness. rewrite Ew. done.
Qed.

Lemma Apply_agree E E' owner en log : properLog owner en log →
  agreeIf (fun s => store_ok s ∧ timeless s log) (ApplyIn E now1 log) (ApplyIn E' now2 log) (fun _ _ => True).
Proof.
  intros [Hi Hm] n1 n2 Hn [Hs [Hne Hl]]. destruct (log_Data log) as [|c buf] eqn:Ed; [unfold ApplyIn, Apply; by rewrite Ed|].
  destruct (Witness_ok (log_Index log) (now1 0%nat) _ (ma_table1 _ _ Hn) Hi) as (t1 & W1 & Ht1 & _).
  destruct (Witness_ok (log_Index log) (now2 0%nat) _ (ma_table2 _ _ Hn) Hi) as (t2 & W2 & Ht2 & _).
  rewrite (ApplyIn_eq E now1 log c buf n1 t1 Ed W1), (ApplyIn_eq E' now2 log c buf n2 t2 Ed W2).
  assert ((messageOf log).2 = buf) as Eb by (unfold messageOf; by rewrite Ed). rewrite Eb in Hm, Hl. set (type := (messageOf log).1) in *.
  assert (matched (n1 <| fs_timetable := t1 |>) (n2 <| fs_timetable := t2 |>)) as Hn' by (destruct Hn; by split).
  pose proof (handler_agree E E' owner en type buf (log_Index log) Hm Hne) as Hh.
  destruct (handlerIn E now1 type) as [h1|], (handlerIn E' now2 type) as [h2|]; try done; [exact (Hh _ _ Hn' (conj Hs Hl))|].
  destruct (Z.land _ _ =? _); [|done]. by split.
Qed.
End handlers.
