(* ===== verification/FsmProps.v ===== *)
(** * What the state machine guarantees

    The properties of src/nomad/fsm.go over sequences of messages, with small servers on
    which they are used. *)

From stdpp Require Import base gmap strings list sorting.
From Stdlib Require Import ZArith Lia.
From S2P Require Import Prelude GoText GoHeap Timers Structs EvalBroker EvalBrokerCore EvalBrokerInv EvalBrokerProps BlockedEvals BlockedEvalsProps Bitmap Resources Jobs Allocs Network NetworkAssign Fit Plans SchedContext Feasible Stack StackProps SchedUtil MemDB MemDBSpec StateStore StoreSpec StoreInv StoreQuery StoreStatus StoreAllocs StoreVersions StoreProps TimeTable Periodic PeriodicProps JobCanon Harness HarnessSpec Fsm FsmRestore FsmSpec FsmAgree.
Open Scope string_scope.
Open Scope list_scope.
Open Scope Z_scope.

(** ** Sequences of messages *)

Section logs.
Context `{CaseLib} `{!CaseLaws} `{RangeOrder} `{TextLibs} `{StackLibs} `{UpperLib} `{CronLib} `{RequestCodec}.
Context (owner : string → string).

(** The [k]th message is applied with the readings [clock k] of the clock. *)
Fixpoint applyLogs (E : SchedEnv) (clock : nat → nat → Z) (k : nat) (logs : list RaftLog) (n : nomadFSM) : option nomadFSM :=
  match logs with
  | [] => Some n
  | log :: logs => match ApplyIn E (clock k) log n with Some (_, n) => applyLogs E clock (S k) logs n | None => None end
  end.

Lemma Apply_ok E en now log n res n' : fsm_ok owner en n → properLog owner en log → ApplyIn E now log n = Some (res, n') → fsm_ok owner en n'.
Proof.
  intros Hn Hl Ea. pose proof (Apply_sound owner en now log Hl n Hn) as Hs. unfold ApplyIn in Ea. rewrite Ea in Hs. destruct res; [done|apply Hs].
Qed.

Lemma applyLogs_ok E en clock logs : Forall (properLog owner en) logs → ∀ k n n',
  fsm_ok owner en n → applyLogs E clock k logs n = Some n' → fsm_ok owner en n'.
Proof.
  induction 1 as [|log logs Hlog Hl IH]; intros k n n' Hn; cbn [applyLogs]; [by intros [= <-]|].
  destruct (ApplyIn E (clock k) log n) as [[res n1]|] eqn:Ea; [|done]. apply IH. by eapply Apply_ok.
Qed.

Lemma new_serverTable t : NewTimeTable timeTableGranularity timeTableLimit = Some t → serverTable t.
Proof.
  intros E. destruct (new_table timeTableGranularity timeTableLimit ltac:(done)) as (t' & E' & Hok & _ & _ & Et & _). rewrite E in E'. injection E' as <-.
  split; [done|]. rewrite E. f_equal. destruct t. cbn in *. by rewrite Et.
Qed.

(** C10. A server stays consistent.  Start a state machine with a broker, a tracker and a
    dispatcher in order, and apply a log of messages that were checked before they were
    logged.  As long as the server runs, its store agrees with its indexes, every job has
    at most one evaluation ready or in progress in the broker and at most one blocked, the
    heap of the dispatcher holds exactly the tracked jobs, and the time table is ordered. *)
Theorem fsm_consistent E en clock periodic blocked n0 logs n :
  NewFSM periodic blocked = Some n0 → tracker_ok owner en blocked → disp_ok periodic →
  Forall (properLog owner en) logs → applyLogs E clock 0 logs n0 = Some n →
  store_ok (fs_state n) ∧ NoDup (ev_JobID <$> (readyL (evalBroker (fs_blockedEvals n)) ++ unackL (evalBroker (fs_blockedEvals n)))) ∧
  (∀ id id' w w', blockedAt (fs_blockedEvals n) id w → blockedAt (fs_blockedEvals n) id' w' →
     ev_JobID (we_eval w) = ev_JobID (we_eval w') → id = id' ∧ w = w') ∧
  (∀ id, id ∈ ids (pd_heap (fs_periodicDispatcher n)) ↔ is_Some (pd_tracked (fs_periodicDispatcher n) !! id)) ∧
  StronglySorted (after (tb_granularity (fs_timetable n))) (tb_table (fs_timetable n)).
Proof.
  intros Hn Ht Hp Hl Ha. assert (fsm_ok owner en n0) as Hn0.
  { unfold NewFSM in Hn. destruct (NewTimeTable _ _) as [t|] eqn:Et; [|done]. injection Hn as <-.
    split; [apply new_store_ok|done|done|]. cbn. by apply new_serverTable. }
  destruct (applyLogs_ok E en clock logs Hl 0 n0 n Hn0 Ha) as [Hs [Hi _ Hb _] Hd [Htt _]].
  split_and!; [done|by apply ready_jobs| | |apply Htt].
  - intros id id' w w' Hw Hw' Ej. destruct (b_key _ Hb _ _ Hw) as [_ J1], (b_key _ Hb _ _ Hw') as [_ J2].
    assert (id = id') as <- by congruence. split; [done|]. by eapply blockedAt_det.
  - intros id. rewrite <- (do_tracked _ Hd). symmetry. apply Hd.
Qed.

(** The messages whose effect is the same on every server, at the state of the first. *)
Fixpoint timelessRun (E : SchedEnv) (clock : nat → nat → Z) (k : nat) (logs : list RaftLog) (n : nomadFSM) : Prop :=
  match logs with
  | [] => True
  | log :: logs => timeless (fs_state n) log ∧ ∀ res n', ApplyIn E (clock k) log n = Some (res, n') → timelessRun E clock (S k) logs n'
  end.

End logs.

(** ** Evaluations *)

Section handing.
Context `{CaseLib} `{!CaseLaws} `{RangeOrder} `{RequestCodec}.
Implicit Types (n : nomadFSM) (e : Evaluation).

Definition accepted n (id : string) : Prop := sink_accepts (evalBroker (fs_blockedEvals n)) id.
Definition leading n : Prop := enabled (evalBroker (fs_blockedEvals n)) = true ∧ be_enabled (fs_blockedEvals n) = true.

(** What [handOn] does, by the status. *)
Lemma handOn_cases e n n' : handOn e n = Some (inr tt, n') →
  n' = n <| fs_blockedEvals := if bool_decide (ev_Status e = EvalStatusPending) then (fs_blockedEvals n) <| BlockedEvals.evalBroker ::= fun b => Enqueue b e |>
                               else if bool_decide (ev_Status e = EvalStatusBlocked) then Block (fs_blockedEvals n) e
                               else if bool_decide (ev_Status e = EvalStatusComplete) && (size (ev_FailedTGAllocs e) =? 0)%nat
                               then Untrack (fs_blockedEvals n) (ev_JobID e) else fs_blockedEvals n |>.
Proof.
  unfold handOn, mbind, FSM_bind, ShouldEnqueue, ShouldBlock. case_bool_decide as Hp; cbn -[Nat.eqb]; [by intros [= <-]|].
  match goal with |- context [if ?b then Some false else None] => destruct b end; cbn -[Nat.eqb]; [|done].
  case_bool_decide as Hb; cbn -[Nat.eqb]; [by intros [= <-]|].
  match goal with |- context [if ?b then Some false else None] => destruct b end; cbn -[Nat.eqb]; [|done]. case_match; intros [= <-]; by destruct n.
Qed.

Lemma EnqueueAll_one b e : enabled b = true →
  enabled (EnqueueAll b [(e, "")]) = true ∧ sink_accepts (EnqueueAll b [(e, "")]) (ev_ID e) ∧ ∀ id, sink_accepts b id → sink_accepts (EnqueueAll b [(e, "")]) id.
Proof.
  intros Hb. split; [rewrite <- Hb; exact (sink_EnqueueAll_enabled (B := EvalBroker) b [(e, "")])|]. split; [exact (sink_EnqueueAll_accepts (B := EvalBroker) b [(e, "")] e "" Hb ltac:(left))|].
  intros id. exact (sink_EnqueueAll_keeps (B := EvalBroker) b [(e, "")] id).
Qed.

Lemma Block_outcomes (b : BlockedEvals EvalBroker) e : enabled (evalBroker b) = true → be_enabled b = true → let b' := Block b e in
  enabled (evalBroker b') = true ∧ be_enabled b' = true ∧ (∀ id, sink_accepts (evalBroker b) id → sink_accepts (evalBroker b') id) ∧
  (e ∈ duplicates b' ∨ sink_accepts (evalBroker b') (ev_ID e) ∨ blockedAt b' (ev_ID e) (mkWrappedEval e "")).
Proof.
  intros Hb Hbe. unfold Block, processBlock. rewrite Hbe. cbn [negb]. destruct (BlockedEvals.jobs b !! ev_JobID e) as [id|].
  - cbv zeta. split_and!; [done|done|done|]. left. cbn. apply elem_of_app. right. left.
  - destruct (missedUnblock b e).
    + destruct (EnqueueAll_one (evalBroker b) e Hb) as (A1 & A2 & A3). cbv zeta. split_and!; [exact A1|done|exact A3|]. right. left. exact A2.
    + destruct (ev_EscapedComputedClass e); cbv zeta; (split_and!; [done|done|done|]); right; right; unfold blockedAt; cbn; rewrite lookup_insert_eq; auto.
Qed.

Lemma Untrack_frame (b : BlockedEvals EvalBroker) j : evalBroker (Untrack b j) = evalBroker b ∧ be_enabled (Untrack b j) = be_enabled b.
Proof. unfold Untrack. destruct (be_enabled b) eqn:Eb; cbn [negb]; [|done]. repeat (case_match; cbn); by rewrite ?Eb. Qed.

Lemma Untrack_none (b : BlockedEvals EvalBroker) j : BInv b → be_enabled b = true → BlockedEvals.jobs (Untrack b j) !! j = None.
Proof.
  intros Hb He. unfold Untrack. rewrite He. cbn [negb]. destruct (BlockedEvals.jobs b !! j) as [id|] eqn:Ej; [|done].
  destruct (b_jobs b Hb j id Ej) as (w & Hw & Ew). assert (∀ w', blockedAt b id w' → ev_JobID (we_eval w') = j) as Hj.
  { intros w' Hw'. by rewrite (blockedAt_det b id w' w Hb Hw' Hw). }
  destruct (captured b !! id) as [w1|] eqn:Ec; cbn.
  - assert (ev_JobID (we_eval w1) = j) as <- by (apply Hj; by left). destruct (escaped b !! id) as [w2|]; cbn; [|apply lookup_delete_eq].
    rewrite lookup_delete_None. right. apply lookup_delete_eq.
  - destruct Hw as [Hw|Hw]; [congruence|]. rewrite Hw. cbn. rewrite Ew. apply lookup_delete_eq.
Qed.

(** What the next evaluations leave as it is. *)
Record kept n n' : Prop := {
  kp_leading : leading n';
  kp_state : fs_state n' = fs_state n;
  kp_accepted : ∀ id, accepted n id → accepted n' id
}.

Lemma handOn_keeps e n n' : leading n → handOn e n = Some (inr tt, n') → kept n n' ∧ (ev_Status e = EvalStatusPending → accepted n' (ev_ID e)).
Proof.
  intros [Hb Hbe] ->%handOn_cases. case_bool_decide as Hp.
  - destruct (EnqueueAll_one (evalBroker (fs_blockedEvals n)) e Hb) as (A1 & A2 & A3). split; [|by intros _]. by split.
  - split; [|done]. case_bool_decide.
    + destruct (Block_outcomes (fs_blockedEvals n) e Hb Hbe) as (A1 & A2 & A3 & _). by split.
    + case_match; [|by split]. destruct (Untrack_frame (fs_blockedEvals n) (ev_JobID e)) as [E1 E2].
      split; [|done|]; unfold leading, accepted; cbn; by rewrite ?E1, ?E2.
Qed.

Lemma eachDo_handOn l : ∀ n n', leading n → eachDo l handOn n = Some (inr tt, n') →
  kept n n' ∧ (∀ e, e ∈ l → ev_Status e = EvalStatusPending → accepted n' (ev_ID e)).
Proof.
  induction l as [|e l IH]; intros n n' Hn; cbn [eachDo]; [intros [= <-]; split; [by split|by intros e ?%not_elem_of_nil]|].
  unfold mbind, FSM_bind. destruct (handOn e n) as [[[err|[]] n1]|] eqn:E1; [done| |done]. intros E2.
  destruct (handOn_keeps e n n1 Hn E1) as [[L1 S1 K1] P1]. destruct (IH n1 n' L1 E2) as [[L2 S2 K2] P2].
  split; [split; [done|congruence|auto]|]. intros e' [->|He']%elem_of_cons Hp; auto.
Qed.

Lemma eachDo_app {A} (l l' : list A) (body : A → FSM unit) n : eachDo (l ++ l') body n = (eachDo l body ≫= fun _ => eachDo l' body) n.
Proof.
  revert n. induction l as [|x l IH]; intros n; [done|]. cbn [app eachDo]. unfold mbind, FSM_bind in *.
  destruct (body x n) as [[[err|a] n1]|]; [done|apply IH|done].
Qed.

Lemma last_handed owner l e n n' : fsm_ok owner true n → leading n → Forall (proper_eval owner true) l →
  eachDo (l ++ [e]) handOn n = Some (inr tt, n') → ∃ n2, fsm_ok owner true n2 ∧ leading n2 ∧ handOn e n2 = Some (inr tt, n').
Proof.
  intros Hn Hl Hp E. rewrite eachDo_app in E. unfold mbind, FSM_bind in E.
  assert (sound owner true (eachDo l handOn) anything) as Hs.
  { apply sound_eachDo; [|done]. intros x Hx. apply handOn_sound. by eapply Forall_forall in Hp. }
  specialize (Hs n Hn). destruct (eachDo l handOn n) as [[[err|[]] n2]|] eqn:E1; [done| |done]. destruct Hs as [Hn2 _].
  exists n2. split; [done|]. split; [by apply (eachDo_handOn _ _ _ Hl E1)|]. cbn [eachDo] in E. unfold mbind, FSM_bind in E.
  by destruct (handOn e n2) as [[[err|[]] n3]|].
Qed.

(** C11. The leader loses no evaluation of the log.  After it has applied evaluations, the
    broker has every pending one in its care.  If the last one is blocked, it is in the
    tracker, or in the broker because capacity appeared, or reported as a duplicate; if the
    last one is complete and nothing of it failed, its job has no blocked evaluation any
    more. *)
Theorem evals_handed_on owner buf req rest index n n' :
  fsm_ok owner true n → be_enabled (fs_blockedEvals n) = true → decode buf = inr (req, rest) → Forall (proper_eval owner true) (eu_Evals req) →
  applyUpdateEval buf index n = Some (inr tt, n') →
  let b' := fs_blockedEvals n' in
  (∀ e, e ∈ eu_Evals req → ev_Status e = EvalStatusPending → sink_accepts (evalBroker b') (ev_ID e)) ∧
  (∀ l e, eu_Evals req = l ++ [e] → ev_Status e = EvalStatusBlocked →
     let e' := stampedEval index (fs_state n') e in
     e' ∈ duplicates b' ∨ sink_accepts (evalBroker b') (ev_ID e) ∨ blockedAt b' (ev_ID e) (mkWrappedEval e' "")) ∧
  (∀ l e, eu_Evals req = l ++ [e] → ev_Status e = EvalStatusComplete → ev_FailedTGAllocs e = ∅ → BlockedEvals.jobs b' !! ev_JobID e = None).
Proof.
  intros Hn Hbe Hd He. unfold applyUpdateEval, decodeRequest. rewrite Hd. unfold mbind, FSM_bind. cbn [mret FSM_ret].
  pose proof (sound_op owner true index (OpUpsertEvals (eu_Evals req)) anything) as Hs. cbn [applyOp] in Hs.
  specialize (Hs ltac:(eapply Forall_impl; [exact He|by intros e []]) ltac:(done) n Hn).
  destruct (storeOp _ n) as [[[err|[]] n1]|] eqn:E1; [done| |done]. destruct Hs as [Hn1 _]. cbn [currentState].
  assert (fs_blockedEvals n1 = fs_blockedEvals n) as Eb.
  { unfold storeOp in E1. destruct (UpsertEvals _ _ _) as [[err|[]] s1]; [by destruct err|]. by injection E1 as <-. }
  assert (leading n1) as Hl by (split; [apply (fo_tracker _ _ _ Hn1)|by rewrite Eb]). clear E1 Hbe Eb. set (stamp := stampedEval index (fs_state n1)).
  assert (∀ l e, eu_Evals req = l ++ [e] → Forall (proper_eval owner true) (stamp <$> l)) as Hpl.
  { intros l e El. rewrite El in He. apply Forall_app in He as [He _]. apply Forall_fmap. eapply Forall_impl; [exact He|]. intros x. apply stampedEval_proper. }
  intros E2. destruct (eachDo_handOn _ _ _ Hl E2) as [[_ Es _] Hp]. split; [|split].
  - intros e Hin Hst. apply (Hp (stamp e)); [|done]. by apply list_elem_of_fmap_2.
  - intros l e El Hst. rewrite El, fmap_app in E2. destruct (last_handed owner _ _ _ _ Hn1 Hl (Hpl l e El) E2) as (n2 & _ & [Hb2 Hbe2] & E4%handOn_cases).
    rewrite bool_decide_eq_false_2, bool_decide_eq_true_2 in E4 by (cbn; by rewrite Hst).
    rewrite Es, E4. apply (Block_outcomes (fs_blockedEvals n2) (stamp e) Hb2 Hbe2).
  - intros l e El Hst Hf. rewrite El, fmap_app in E2. destruct (last_handed owner _ _ _ _ Hn1 Hl (Hpl l e El) E2) as (n2 & Hn2 & [_ Hbe2] & E4%handOn_cases).
    rewrite bool_decide_eq_false_2, bool_decide_eq_false_2, bool_decide_eq_true_2 in E4 by (cbn; by rewrite Hst). cbn in E4. rewrite Hf in E4. cbn in E4.
    rewrite E4. by apply Untrack_none; [apply Hn2|].
Qed.
End handing.

(** ** Restoring *)

Section restoring.
Context `{CaseLib} `{RangeOrder} `{UpperLib} `{SnapshotCodec}.
Implicit Types (n : nomadFSM) (r : Fsm.restoring).

(** Computations that change the time table at most. *)
Definition onlyTable {A} (m : FSM A) : Prop := ∀ n res n', m n = Some (res, n') → n' = n <| fs_timetable := fs_timetable n' |>.

Lemma same_table n : n = n <| fs_timetable := fs_timetable n |>.
Proof. by destruct n. Qed.
Lemma onlyTable_ret {A} (a : A) : onlyTable (mret a).
Proof. intros n res n' [= _ <-]. apply same_table. Qed.
Lemma onlyTable_returnErr {A} err : onlyTable (@returnErr A err).
Proof. intros n res n'. destruct err; cbn; [|..|done]; intros [= _ <-]; apply same_table. Qed.
Lemma onlyTable_orErr {A} (x : GoError + A) : onlyTable (orErr x).
Proof. destruct x; [apply onlyTable_returnErr|apply onlyTable_ret]. Qed.
Lemma onlyTable_bind {A B} (m : FSM A) (k : A → FSM B) : onlyTable m → (∀ a, onlyTable (k a)) → onlyTable (m ≫= k).
Proof.
  intros Hm Hk n res n'. unfold mbind, FSM_bind. destruct (m n) as [[[err|a] n1]|] eqn:E1; [|intros E2|done].
  - intros [= _ <-]. by eapply Hm.
  - apply Hm in E1. apply Hk in E2. rewrite E2, E1. by destruct n.
Qed.
Lemma onlyTable_restoreObj {A} `{Codec A} (ins : A → Txn unit) r : onlyTable (restoreObj ins r).
Proof.
  apply onlyTable_bind; [apply onlyTable_orErr|]. intros [obj rest]. destruct (ins obj r.2) as [[err|] s]; [apply onlyTable_returnErr|apply onlyTable_ret].
Qed.
Lemma onlyTable_restoreTimeTable r : onlyTable (restoreTimeTable r).
Proof.
  intros n res n'. unfold restoreTimeTable. destruct (decode r.1) as [err|[table rest]]; [apply onlyTable_returnErr|].
  destruct (Deserialize table (fs_timetable n)) as [t|]; cbn [mbind option_bind]; [|done]. by intros [= _ <-].
Qed.
Lemma onlyTable_restoreRecord type r : onlyTable (restoreRecord type r).
Proof.
  unfold restoreRecord. repeat match goal with |- onlyTable (if ?b then _ else _) => destruct b end;
    auto using onlyTable_restoreObj, onlyTable_restoreTimeTable, onlyTable_returnErr.
Qed.
Lemma onlyTable_restoreLoop fuel : ∀ r, onlyTable (restoreLoop fuel r).
Proof.
  induction fuel as [|fuel IH]; intros [[|c rest] s]; cbn [restoreLoop fst snd]; [apply onlyTable_ret|done|apply onlyTable_ret|].
  apply onlyTable_bind; [apply onlyTable_restoreRecord|done].
Qed.
Lemma onlyTable_withSummaries s : onlyTable (withSummaries s).
Proof. unfold withSummaries. repeat case_match; auto using onlyTable_ret, onlyTable_returnErr. Qed.

(** *** The fuel is enough *)

Context `{!SnapshotLaws}.

Lemma restoreObj_length {A} `{CodecLaws A} (ins : A → Txn unit) r n r' n' :
  restoreObj ins r n = Some (inr r', n') → (String.length r'.1 ≤ String.length r.1)%nat.
Proof.
  unfold restoreObj, mbind, FSM_bind. destruct (decode r.1) as [err|[x rest]] eqn:E; cbn; [by destruct err|].
  destruct (ins x r.2) as [[err|] s]; cbn; [by destruct err|]. intros [= <- _]. by apply decode_length in E.
Qed.

Lemma restoreRecord_length type r n r' n' : restoreRecord type r n = Some (inr r', n') → (String.length r'.1 ≤ String.length r.1)%nat.
Proof.
  unfold restoreRecord. repeat match goal with |- (if ?b then _ else _) _ = _ → _ => destruct b end; try apply restoreObj_length; [|by destruct type].
  unfold restoreTimeTable. destruct (decode r.1) as [err|[table rest]] eqn:E; [by destruct err|].
  destruct (Deserialize _ _); cbn [mbind option_bind]; [|done]. intros [= <- _]. by apply decode_length in E.
Qed.

Lemma restoreLoop_fuel f1 : ∀ f2 r n, (String.length r.1 ≤ f1)%nat → (String.length r.1 ≤ f2)%nat → restoreLoop f1 r n = restoreLoop f2 r n.
Proof.
  induction f1 as [|f1 IH]; intros f2 [[|c rest] s] n Hf1 Hf2; cbn in Hf1, Hf2; try lia; [by rewrite !restoreLoop_end..|].
  destruct f2 as [|f2]; [lia|]. cbn [restoreLoop fst snd]. unfold mbind, FSM_bind.
  destruct (restoreRecord _ (rest, s) n) as [[[err|r'] n']|] eqn:E; [done| |done]. apply restoreRecord_length in E. cbn in E. apply IH; lia.
Qed.

End restoring.
