(* ===== verification/FsmDemo.v ===== *)
(** * Two servers

    A leader and a follower with a small encoding, on which the properties of the state
    machine are used, and a message on which they diverge. *)

From stdpp Require Import base gmap strings list.
From Stdlib Require Import ZArith Lia.
From S2P Require Import Prelude GoText GoHeap Timers Structs EvalBroker EvalBrokerCore EvalBrokerInv EvalBrokerProps BlockedEvals BlockedEvalsProps Bitmap Resources Jobs Allocs Network NetworkAssign Fit Plans AllocSets SchedContext Feasible Stack StackProps SchedUtil MemDB MemDBSpec StateStore StoreSpec StoreInv StoreQuery StoreStatus StoreAllocs StoreVersions StoreProps TimeTable Periodic PeriodicProps JobCanon Harness HarnessSpec Fsm FsmRestore FsmSpec FsmAgree FsmProps.
Open Scope string_scope.
Open Scope list_scope.
Open Scope Z_scope.

(** ** An encoding for a few known objects: the name of the object, and a zero byte *)

Fixpoint cutNul (s : string) : option (string * string) :=
  match s with
  | EmptyString => None
  | String c s => if bool_decide (c = NUL) then Some ("", s) else match cutNul s with Some (k, rest) => Some (String c k, rest) | None => None end
  end.

Lemma cutNul_app k rest : nulFree k → cutNul (k +:+ String NUL rest) = Some (k, rest).
Proof.
  unfold nulFree. induction k as [|c k IH]; intros Hk; [done|]. rewrite app_String. cbn [cutNul]. cbn in Hk. apply not_elem_of_cons in Hk as [Hc Hk].
  rewrite bool_decide_false by congruence. by rewrite IH.
Qed.
Lemma cutNul_length s : ∀ k rest, cutNul s = Some (k, rest) → (String.length rest ≤ String.length s)%nat.
Proof.
  induction s as [|c s IH]; intros k rest; cbn; [done|]. case_bool_decide; [intros [= _ <-]; lia|].
  destruct (cutNul s) as [[k' rest']|] eqn:E; [|done]. intros [= _ <-]. specialize (IH _ _ eq_refl). lia.
Qed.

Section known.
Context {A : Type} (key : A → string) (known : list A).

Definition named (k : string) : option A := snd <$> list_find (fun y => key y = k) known.

Definition knownCodec : Codec A := {|
  encode x := key x +:+ String NUL "";
  decode s := match cutNul s with
              | Some (k, rest) => match named k with Some y => inr (y, rest) | None => inl (errorf "unknown object") end
              | None => inl (errorf "EOF")
              end
|}.

Definition isKnown (x : A) : Prop := nulFree (key x) ∧ named (key x) = Some x.

Definition knownLaws : CodecLaws A (H := knownCodec).
Proof.
  refine {| encodable := isKnown |}.
  - intros x rest [Hk Hn]. cbn. rewrite app_assoc_str. change (String NUL "" +:+ rest) with (String NUL rest). by rewrite (cutNul_app (key x) rest Hk), Hn.
  - intros s x rest. cbn. destruct (cutNul s) as [[k rest']|] eqn:E; [|done]. apply cutNul_length in E.
    destruct (named k); [|done]. by intros [= _ <-].
Defined.

Lemma distinct_known : NoDup (key <$> known) → Forall (fun x => nulFree (key x)) known → Forall isKnown known.
Proof.
  intros Hd Hf. apply Forall_forall. intros x Hx. split; [by eapply Forall_forall in Hf|]. unfold named.
  destruct (list_find_elem_of (fun y => key y = key x) known x Hx eq_refl) as [[i y] Ef]. rewrite Ef. cbn. f_equal.
  apply list_find_Some in Ef as (Hy & Ek & _). apply list_elem_of_lookup in Hx as [j Hj].
  assert (i = j) as ->; [|congruence]. apply (NoDup_lookup _ i j (key x) Hd); rewrite list_lookup_fmap; [by rewrite Hy; cbn; rewrite Ek|by rewrite Hj].
Qed.
End known.

(** ** The servers *)

#[local] Existing Instance demoText.
#[local] Existing Instance demoLibs.
#[local] Existing Instance hourly.
#[local] Instance demoUpper : UpperLib := fun s => s.

(** The environments of the schedulers differ in the clock. *)
Definition demoEnv (now : Z) : SchedEnv :=
  Build_SchedEnv map_to_list map_to_list map_to_list map_to_list (fun _ => map_to_list) (fun e k => e +:+ "/" +:+ formatInt (Z.of_nat k))
    (fun _ => 0) 0 now (fun _ => "error").

Definition webEval (n status : string) : Evaluation :=
  zeroEvaluation <| ev_ID := idOf n |> <| ev_Type := JobTypeService |> <| ev_JobID := "web" |> <| ev_Status := status |>.
Definition cronJob : Job := report <| jb_CreateIndex := 0 |> <| jb_ModifyIndex := 0 |> <| jb_JobModifyIndex := 0 |>.

Definition registerWeb : JobRegisterRequest := mkJobRegisterRequest (Some web) false 0.
Definition registerCron : JobRegisterRequest := mkJobRegisterRequest (Some cronJob) false 0.
Definition newEvals : EvalUpdateRequest := mkEvalUpdateRequest [webEval "e1" EvalStatusPending; webEval "e2" EvalStatusBlocked] "new".

#[local] Instance demoRequests : RequestCodec :=
  let none {A} : Codec A := knownCodec (fun _ => "") [] in
  Build_RequestCodec none none none none
    (knownCodec (fun r => from_option jb_ID "" (jrr_Job r)) [registerWeb; registerCron]) none (knownCodec eu_EvalToken [newEvals])
    none none none none none none none none none.

Definition message {A} `{Codec A} (index type : Z) (req : A) : RaftLog := mkRaftLog index (bytes1 type +:+ encode req).
Definition demoLogs : list RaftLog := [message 7 JobRegisterRequestType registerWeb; message 8 EvalUpdateRequestType newEvals].

(** The leader has its broker and its tracker enabled, the follower has not. *)
Definition idleBroker : EvalBroker := default trackerBroker (NewEvalBroker 60 1 20 3).
Definition idleTracker : BlockedEvals EvalBroker := NewBlockedEvals idleBroker.
Definition server (blocked : BlockedEvals EvalBroker) : nomadFSM :=
  default (mkNomadFSM blocked NewPeriodicDispatch NewStateStore (mkTimeTable 0 0 0 [])) (NewFSM NewPeriodicDispatch blocked).
Definition leader : nomadFSM := server tracker0.
Definition follower : nomadFSM := server idleTracker.
Definition demoClock (start : Z) (k i : nat) : Z := TimeUnix start + Z.of_nat k * 60 * second + Z.of_nat i.
Definition jobOf (_ : string) : string := "web".
Definition leaderAfter : nomadFSM := default leader (applyLogs (demoEnv 1) (demoClock 1500000000) 0 demoLogs leader).

(** *** They are in order *)

Lemma idleBroker_inv : Inv idleBroker.
Proof. eapply (NewEvalBroker_inv 60 1 20 3); [lia|]. reflexivity. Qed.

Lemma tracker0_ok : tracker_ok jobOf true tracker0.
Proof.
  split.
  - apply (SetEnabled_inv idleBroker true); [apply idleBroker_inv|done].
  - reflexivity.
  - apply SetEnabled_BInv, New_BInv.
  - intros id w [Hw|Hw]; vm_compute in Hw; discriminate.
Qed.
Lemma idleTracker_ok : tracker_ok jobOf false idleTracker.
Proof. split; [apply idleBroker_inv|reflexivity|apply New_BInv|]. intros id w [Hw|Hw]; vm_compute in Hw; discriminate. Qed.

Lemma server_new blocked : NewFSM NewPeriodicDispatch blocked = Some (server blocked).
Proof. unfold server, NewFSM. by destruct (NewTimeTable _ _) as [t|] eqn:E; [|destruct (new_table timeTableGranularity timeTableLimit ltac:(done)) as (? & ? & _); congruence]. Qed.

Lemma server_ok en blocked : tracker_ok jobOf en blocked → fsm_ok jobOf en (server blocked).
Proof.
  intros Ht. pose proof (server_new blocked) as E. revert E. generalize (server blocked). intros n E.
  unfold NewFSM in E. destruct (NewTimeTable _ _) as [t|] eqn:Et; [|done]. injection E as <-.
  split; [apply new_store_ok|done|by apply empty_ok|by apply new_serverTable].
Qed.

Lemma webEval_proper en n status : nulFree status → (String.length n = 2)%nat → properRow evalTableSchema (webEval n status) → proper_eval jobOf en (webEval n status).
Proof. intros _ Hl Hr. split; [done|done|by right|done|done]. Qed.

Lemma demoLogs_proper en : Forall (properLog jobOf en) demoLogs.
Proof.
  constructor; [|constructor; [|constructor]]; (split; [done|]); split; try (vm_compute; discriminate); intros _ req rest E; vm_compute in E; injection E as <- _.
  - intros job [= <-]. split; [apply web_ok|decided].
  - constructor; [|constructor; [|constructor]]; (apply webEval_proper; [decided|done|proper_rows]).
Qed.

Lemma demo_timeless : timelessRun (demoEnv 1) (demoClock 1500000000) 0 demoLogs leader.
Proof.
  split; [|intros res n' _; split; [|by intros]].
  - split; [vm_compute; discriminate|]. intros _ req rest E. vm_compute in E. injection E as <- _. intros job [= <-]. discriminate.
  - split; vm_compute; discriminate.
Qed.


Lemma leaderAfter_eq : applyLogs (demoEnv 1) (demoClock 1500000000) 0 demoLogs leader = Some leaderAfter.
Proof. vm_compute. reflexivity. Qed.

Lemma fsm_consistent_witness : store_ok (fs_state leaderAfter) ∧ (ev_ID <$> readyL (evalBroker (fs_blockedEvals leaderAfter))) = [idOf "e1"].
Proof.
  split; [|vm_compute; reflexivity].
  apply (fsm_consistent jobOf (demoEnv 1) true (demoClock 1500000000) NewPeriodicDispatch tracker0 leader demoLogs leaderAfter (server_new _) tracker0_ok).
  - by apply empty_ok.
  - apply demoLogs_proper.
  - apply leaderAfter_eq.
Defined.

(** *** The evaluations of the second message *)

Definition leader1 : nomadFSM := default leader (applyLogs (demoEnv 1) (demoClock 1500000000) 0 (take 1 demoLogs) leader).
Definition leader2 : nomadFSM := default leader (match applyUpdateEval (encode newEvals) 8 leader1 with Some (_, n) => Some n | None => None end).

Lemma leader1_ok : fsm_ok jobOf true leader1.
Proof.
  refine (Apply_ok jobOf (demoEnv 1) true (demoClock 1500000000 0) (message 7 JobRegisterRequestType registerWeb) leader (inr tt) leader1 _ _ _).
  - apply server_ok, tracker0_ok.
  - pose proof (demoLogs_proper true) as Hl. by apply Forall_cons in Hl as [Hl _].
  - vm_compute. reflexivity.
Qed.

Lemma evals_handed_on_witness :
  sink_accepts (evalBroker (fs_blockedEvals leader2)) (idOf "e1") ∧ is_Some (captured (fs_blockedEvals leader2) !! idOf "e2").
Proof.
  split; [|vm_compute; by eexists].
  destruct (evals_handed_on jobOf (encode newEvals) newEvals "" 8 leader1 leader2) as [Hp _].
  - apply leader1_ok.
  - vm_compute. reflexivity.
  - vm_compute. reflexivity.
  - constructor; [|constructor; [|constructor]]; (apply webEval_proper; [decided|done|proper_rows]).
  - vm_compute. reflexivity.
  - apply (Hp (webEval "e1" EvalStatusPending)); [left|reflexivity].
Defined.

(** *** A snapshot of the leader *)

Definition rowsOf {V} (r : TableRef V) : list V := scan "" (table r (fs_state leaderAfter)).

#[local] Instance demoSnapshot : SnapshotCodec :=
  Build_SnapshotCodec (knownCodec (fun _ => "") [mkSnapshotHeader]) (knownCodec (fun _ => "") [tb_table (fs_timetable leaderAfter)])
    (knownCodec nd_ID []) (knownCodec jb_ID (rowsOf jobs)) (knownCodec ie_Key (rowsOf indexes)) (knownCodec ev_ID (rowsOf evals))
    (knownCodec al_ID []) (knownCodec pn_ID []) (knownCodec js_JobID (rowsOf job_summary)) (knownCodec vac_Accessor []) (knownCodec d_ID []).
#[local] Instance demoSnapshotLaws : SnapshotLaws.
Proof. split; apply knownLaws. Defined.

Lemma known_rows {V} (r : TableRef V) (P : V → Prop) : Forall P (rowsOf r) → ∀ k v, table r (fs_state leaderAfter) !! k = Some v → P v.
Proof.
  intros Hall k v Hk. eapply Forall_forall; [exact Hall|]. apply elem_of_scan. exists k. split; [done|]. apply prefix_app_iff. by exists k.
Qed.

Lemma no_rows {V} (r : TableRef V) (P : V → Prop) : rowsOf r = [] → ∀ k v, table r (fs_state leaderAfter) !! k = Some v → P v.
Proof. intros E. apply known_rows. by rewrite E. Qed.

Lemma leaderAfter_snapshotable : snapshotable (fs_state leaderAfter).
Proof.
  assert (Forall (isKnown jb_ID (rowsOf jobs)) (rowsOf jobs)) as Hjobs by (apply distinct_known; decided).
  split; try (apply no_rows; vm_compute; reflexivity).
  - apply known_rows, distinct_known; decided.
  - apply known_rows, Hjobs.
  - apply known_rows, distinct_known; decided.
  - apply known_rows. assert (rowsOf job_version = rowsOf jobs) as -> by (vm_compute; reflexivity). exact Hjobs.
  - apply known_rows, distinct_known; decided.
Qed.

Lemma snapshot_roundtrip_witness : ∃ bytes s', Persist (Snapshot leaderAfter) = inr bytes ∧ sameStore s' (restoredStore (fs_state leaderAfter)) ∧
  Restore bytes follower = Some (inr tt, mkNomadFSM idleTracker NewPeriodicDispatch s' (fs_timetable leaderAfter)).
Proof.
  assert (fsm_ok jobOf true leaderAfter) as [Hs _ _ Ht].
  { exact (applyLogs_ok jobOf (demoEnv 1) true (demoClock 1500000000) demoLogs (demoLogs_proper true) 0 leader leaderAfter (server_ok _ _ tracker0_ok) leaderAfter_eq). }
  apply (snapshot_roundtrip leaderAfter follower NewPeriodicDispatch idleTracker 7 Hs leaderAfter_snapshotable).
  - vm_compute. reflexivity.
  - done.
  - exact Ht.
  - split; [decided|reflexivity].
  - split; [decided|reflexivity].
  - apply server_new.
Defined.

(** *** A periodic job *)

(** The launch recorded for a new periodic job is read from the clock of the server: two
    servers with the same store that apply the same message at different times have
    different stores. *)
Definition cronLogs : list RaftLog := [message 7 JobRegisterRequestType registerCron].
Definition launchOf (clock : nat → nat → Z) (n : nomadFSM) : option (option PeriodicLaunch) :=
  n ← applyLogs (demoEnv 1) clock 0 cronLogs n; match PeriodicLaunchByID (fs_state n) "report" with inr l => Some l | inl _ => None end.

