(* ===== verification/CoreSched.v ===== *)
(** * The core scheduler (src/nomad/core_sched.go)

    It collects garbage: old evaluations with their allocations, dead jobs, nodes that are
    down, deployments that have ended.  It reads a snapshot of the store and the time table,
    and asks the leader to remove what it has found; the calls to the leader and the time
    table are an interface, the clock is an argument.  Log lines and the region of the
    requests are left out. *)

From stdpp Require Import base gmap strings list.
From Stdlib Require Import ZArith Lia.
From S2P Require Import Prelude GoText Structs Resources Jobs Allocs Plans MemDB StateStore TimeTable Fsm.
Open Scope string_scope.
Open Scope list_scope.
Open Scope Z_scope.

(** ** Calls to a server

    [None] is a panic. *)

Definition Srv (W A : Type) : Type := W → option ((GoError + A) * W).
#[export] Instance Srv_ret {W} : MRet (Srv W) := fun A a w => Some (inr a, w).
#[export] Instance Srv_bind {W} : MBind (Srv W) := fun A B k m w =>
  match m w with
  | None => None
  | Some (inl err, w) => Some (inl err, w)
  | Some (inr a, w) => k a w
  end.

Section calls.
Context {W : Type}.

Definition srvErr {A} (err : GoError) : Srv W A := fun w => match err with GoPanic => None | _ => Some (inl err, w) end.
Definition srvTry {A} (r : GoError + A) : Srv W A := match r with inl err => srvErr err | inr a => mret a end.
Fixpoint srvEach {A} (l : list A) (call : A → Srv W unit) : Srv W unit :=
  match l with [] => mret tt | x :: l => call x ≫= fun _ => srvEach l call end.
End calls.

(** What the core scheduler uses of the server. *)
Class CoreServer (W : Type) := {
  srvTimeTable : W → TimeTable;
  EvalReap : EvalDeleteRequest → Srv W unit;
  JobDeregister : JobDeregisterRequest → Srv W unit;
  NodeDeregister : NodeDeregisterRequest → Srv W unit;
  DeploymentReap : DeploymentDeleteRequest → Srv W unit
}.

(** The thresholds of the configuration of the server. *)
Record GCConfig := mkGCConfig {
  gc_EvalGCThreshold : Z;
  gc_JobGCThreshold : Z;
  gc_NodeGCThreshold : Z;
  gc_DeploymentGCThreshold : Z
}.

Definition CoreJobEvalGC : string := "eval-gc".
Definition CoreJobNodeGC : string := "node-gc".
Definition CoreJobJobGC : string := "job-gc".
Definition CoreJobDeploymentGC : string := "deployment-gc".
Definition CoreJobForceGC : string := "force-gc".

Definition maxUint64 : Z := 2 ^ 64 - 1.
Definition maxIdsPerReap : nat := 1024 * 256 / 36.

(** ** Requests of a bounded size *)

(** The loop of [partitionEvalReap]; every turn submits at least one identifier. *)
Fixpoint evalReapLoop (fuel : nat) (evs als : list string) (submittedEvals submittedAllocs : nat) : list EvalDeleteRequest :=
  if (submittedEvals =? length evs)%nat && (submittedAllocs =? length als)%nat then []
  else
    match fuel with
    | O => []
    | S fuel =>
        let available := maxIdsPerReap in
        let remaining := (length als - submittedAllocs)%nat in
        if (0 <? remaining)%nat && negb (remaining <=? available)%nat then
          mkEvalDeleteRequest [] (take available (drop submittedAllocs als)) ::
            evalReapLoop fuel evs als submittedEvals (submittedAllocs + available)
        else
          let reqAllocs := drop submittedAllocs als in
          let available := (available - remaining)%nat in
          let submittedAllocs := (submittedAllocs + remaining)%nat in
          let remaining := (length evs - submittedEvals)%nat in
          if (remaining <=? available)%nat then
            mkEvalDeleteRequest (drop submittedEvals evs) reqAllocs ::
              evalReapLoop fuel evs als (submittedEvals + remaining) submittedAllocs
          else
            mkEvalDeleteRequest (take available (drop submittedEvals evs)) reqAllocs ::
              evalReapLoop fuel evs als (submittedEvals + available) submittedAllocs
    end.
Definition partitionEvalReap (evs als : list string) : list EvalDeleteRequest :=
  evalReapLoop (length evs + length als) evs als 0 0.

Fixpoint deploymentReapLoop (fuel : nat) (deployments : list string) (submitted : nat) : list DeploymentDeleteRequest :=
  if (submitted =? length deployments)%nat then []
  else
    match fuel with
    | O => []
    | S fuel =>
        let available := maxIdsPerReap in
        let remaining := (length deployments - submitted)%nat in
        if (remaining <=? available)%nat then
          mkDeploymentDeleteRequest (drop submitted deployments) :: deploymentReapLoop fuel deployments (submitted + remaining)
        else
          mkDeploymentDeleteRequest (take available (drop submitted deployments)) ::
            deploymentReapLoop fuel deployments (submitted + available)
    end.
Definition partitionDeploymentReap (deployments : list string) : list DeploymentDeleteRequest :=
  deploymentReapLoop (length deployments) deployments 0.

Section core.
Context `{CaseLib} {W : Type} `{!CoreServer W}.
Context (config : GCConfig) (snap : StateStore) (now : Z).
Implicit Types (eval e : Evaluation).

(** ** What is garbage *)

(** The index of the newest objects to collect. *)
Definition oldThreshold (eval : Evaluation) (gcThreshold : Z) (w : W) : Z :=
  if bool_decide (ev_JobID eval = CoreJobForceGC) then maxUint64
  else NearestIndex (now - gcThreshold) (srvTimeTable w).

(** Whether what belongs to a batch job may go. *)
Definition collectBatch (job : option Job) (allowBatch : bool) : bool :=
  match job with
  | None => true
  | Some job => if bool_decide (jb_Status job ≠ JobStatusDead) then false else if jb_Stop job then true else allowBatch
  end.

(** Terminal and not changed after the threshold. *)
Definition oldAlloc (thresholdIndex : Z) (alloc : Allocation) : bool :=
  negb (negb (AllocTerminal alloc) || (thresholdIndex <? al_ModifyIndex alloc)).

Definition gcAllocs (eval : Evaluation) (thresholdIndex : Z) : GoError + (bool * list string) :=
  match AllocsByEval snap (ev_ID eval) with
  | inl err => inl err
  | inr als => inr (forallb (oldAlloc thresholdIndex) als, al_ID <$> filter (fun a => oldAlloc thresholdIndex a) als)
  end.

Definition gcEval (eval : Evaluation) (thresholdIndex : Z) (allowBatch : bool) : GoError + (bool * list string) :=
  if negb (TerminalStatus eval) || (thresholdIndex <? ev_ModifyIndex eval) then inr (false, [])
  else if bool_decide (ev_Type eval = JobTypeBatch) then
    match JobByID snap (ev_JobID eval) with
    | inl err => inl err
    | inr job => if collectBatch job allowBatch then gcAllocs eval thresholdIndex else inr (false, [])
    end
  else gcAllocs eval thresholdIndex.

(** ** Evaluations *)

Definition evalReap (evs als : list string) : Srv W unit := srvEach (partitionEvalReap evs als) EvalReap.

(** The loop over the evaluations: the evaluations and the allocations to collect. *)
Fixpoint collectEvals (thresholdIndex : Z) (l : list Evaluation) : GoError + (list string * list string) :=
  match l with
  | [] => inr ([], [])
  | e :: l =>
      match gcEval e thresholdIndex false with
      | inl err => inl err
      | inr (gc, als) =>
          match collectEvals thresholdIndex l with
          | inl err => inl err
          | inr (evs, als') => inr ((if (gc : bool) then [ev_ID e] else []) ++ evs, als ++ als')
          end
      end
  end.

Definition evalGC (eval : Evaluation) : Srv W unit := fun w =>
  (l ← srvTry (Evals snap);
   r ← srvTry (collectEvals (oldThreshold eval (gc_EvalGCThreshold config) w) l);
   if (length r.1 =? 0)%nat && (length r.2 =? 0)%nat then mret tt else evalReap r.1 r.2) w.

(** ** Jobs *)

(** The evaluations and the allocations of a job; [None] when it has an evaluation to
    keep. *)
Fixpoint collectJobEvals (thresholdIndex : Z) (l : list Evaluation) : GoError + option (list string * list string) :=
  match l with
  | [] => inr (Some ([], []))
  | e :: l =>
      match gcEval e thresholdIndex true with
      | inl err => inl err
      | inr (false, _) => inr None
      | inr (true, als) =>
          match collectJobEvals thresholdIndex l with
          | inr (Some (evs, als')) => inr (Some (ev_ID e :: evs, als ++ als'))
          | r => r
          end
      end
  end.

Definition collectJob (thresholdIndex : Z) (job : Job) : option (list string * list string) :=
  if thresholdIndex <? jb_CreateIndex job then None
  else
    match EvalsByJob snap (jb_ID job) with
    | inl _ => None
    | inr l => match collectJobEvals thresholdIndex l with inr r => r | inl _ => None end
    end.

(** The jobs to collect, with their evaluations and allocations. *)
Fixpoint collectJobs (thresholdIndex : Z) (l : list Job) : list string * list string * list string :=
  match l with
  | [] => ([], [], [])
  | job :: l =>
      let '(js, evs, als) := collectJobs thresholdIndex l in
      match collectJob thresholdIndex job with
      | None => (js, evs, als)
      | Some (jobEval, jobAlloc) => (jb_ID job :: js, jobEval ++ evs, jobAlloc ++ als)
      end
  end.

Definition jobGC (eval : Evaluation) : Srv W unit := fun w =>
  (l ← srvTry (JobsByGC snap true);
   let '(js, evs, als) := collectJobs (oldThreshold eval (gc_JobGCThreshold config) w) l in
   if (length evs =? 0)%nat && (length als =? 0)%nat && (length js =? 0)%nat then mret tt
   else
     evalReap evs als ≫= fun _ =>
     srvEach js (fun id => JobDeregister (mkJobDeregisterRequest id true))) w.

(** ** Nodes and deployments *)

Definition gcNode (thresholdIndex : Z) (node : Node) : bool :=
  if negb (NodeTerminal node) || (thresholdIndex <? nd_ModifyIndex node) then false
  else match AllocsByNode snap (nd_ID node) with
       | inl _ => false
       | inr als => forallb AllocTerminal als
       end.

Definition nodeGC (eval : Evaluation) : Srv W unit := fun w =>
  (l ← srvTry (Nodes snap);
   let gcNodes := nd_ID <$> filter (fun node => gcNode (oldThreshold eval (gc_NodeGCThreshold config) w) node) l in
   srvEach gcNodes (fun id => NodeDeregister (mkNodeDeregisterRequest id))) w.

Definition gcDeployment (thresholdIndex : Z) (d : Deployment) : bool :=
  negb (Active d || (thresholdIndex <? d_ModifyIndex d)).

Definition deploymentReap (deployments : list string) : Srv W unit :=
  srvEach (partitionDeploymentReap deployments) DeploymentReap.

Definition deploymentGC (eval : Evaluation) : Srv W unit := fun w =>
  (l ← srvTry (Deployments snap);
   let gcDeployments := d_ID <$> filter (fun d => gcDeployment (oldThreshold eval (gc_DeploymentGCThreshold config) w) d) l in
   if (length gcDeployments =? 0)%nat then mret tt else deploymentReap gcDeployments) w.

(** ** Processing *)

Definition forceGC (eval : Evaluation) : Srv W unit :=
  jobGC eval ≫= fun _ => evalGC eval ≫= fun _ => deploymentGC eval ≫= fun _ => nodeGC eval.

Definition CoreProcess (eval : Evaluation) : Srv W unit :=
  if bool_decide (ev_JobID eval = CoreJobEvalGC) then evalGC eval
  else if bool_decide (ev_JobID eval = CoreJobNodeGC) then nodeGC eval
  else if bool_decide (ev_JobID eval = CoreJobJobGC) then jobGC eval
  else if bool_decide (ev_JobID eval = CoreJobDeploymentGC) then deploymentGC eval
  else if bool_decide (ev_JobID eval = CoreJobForceGC) then forceGC eval
  else srvErr (Errorf "core scheduler cannot handle job '%s'" [ev_JobID eval]).
End core.
