(* ===== verification/CoreProps.v ===== *)
(** * What the core scheduler collects

    The requests of src/nomad/core_sched.go are exactly for the garbage of the snapshot, in
    requests of a bounded size, and garbage is as old as the thresholds say. *)

From stdpp Require Import base gmap strings list sorting.
From Stdlib Require Import ZArith Lia.
From S2P Require Import Prelude GoText Structs Resources Jobs Allocs Plans MemDB MemDBSpec StateStore StoreSpec StoreInv StoreQuery StoreProps Feasible TimeTable Fsm CoreSched.
Open Scope string_scope.
Open Scope list_scope.
Open Scope Z_scope.

(** ** Partitions *)

Lemma drop_split {A} (n : nat) (l : list A) i : take n (drop i l) ++ drop (i + n) l = drop i l.
Proof. by rewrite <- drop_drop, take_drop. Qed.

Definition smallRequest (r : EvalDeleteRequest) : Prop :=
  (0 < length (ed_Evals r) + length (ed_Allocs r) ≤ maxIdsPerReap)%nat.

Lemma evalReapLoop_spec fuel : ∀ evs als i j, (i ≤ length evs)%nat → (j ≤ length als)%nat →
  (length evs - i + (length als - j) ≤ fuel)%nat →
  let reqs := evalReapLoop fuel evs als i j in
  concat (ed_Evals <$> reqs) = drop i evs ∧ concat (ed_Allocs <$> reqs) = drop j als ∧ Forall smallRequest reqs.
Proof.
  assert (0 < maxIdsPerReap)%nat as Hm by (vm_compute; lia). unfold smallRequest.
  induction fuel as [|fuel IH]; intros evs als i j Hi Hj Hf; cbn [evalReapLoop].
  - replace i with (length evs) by lia. replace j with (length als) by lia. rewrite !Nat.eqb_refl, !drop_all. by split_and!.
  - destruct (_ && _) eqn:E0; [apply andb_true_iff in E0 as [->%Nat.eqb_eq ->%Nat.eqb_eq]; rewrite !drop_all; by split_and!|].
    apply andb_false_iff in E0. rewrite !Nat.eqb_neq in E0.
    destruct (_ && _) eqn:E1; [apply andb_true_iff in E1 as [_ E1%negb_true_iff%Nat.leb_gt]|].
    + destruct (IH evs als i (j + maxIdsPerReap)%nat) as (C1 & C2 & C3); [lia..|]. cbv zeta. rewrite !fmap_cons. cbn [concat ed_Evals ed_Allocs dd_Deployments]. rewrite C1, C2, drop_split.
      split_and!; [done|done|]. constructor; [|done]. cbn [ed_Evals ed_Allocs length]. rewrite length_take, length_drop. lia.
    + assert (length als - j ≤ maxIdsPerReap)%nat as Hr.
      { apply andb_false_iff in E1 as [E1%Nat.ltb_ge|E1%negb_false_iff%Nat.leb_le]; lia. }
      replace (j + (length als - j))%nat with (length als) by lia. destruct (Nat.leb_spec (length evs - i) (maxIdsPerReap - (length als - j))).
      * replace (i + (length evs - i))%nat with (length evs) by lia.
        destruct (IH evs als (length evs) (length als)) as (C1 & C2 & C3); [lia..|]. cbv zeta. rewrite !fmap_cons. cbn [concat ed_Evals ed_Allocs dd_Deployments]. rewrite C1, C2, !drop_all, !app_nil_r.
        split_and!; [done|done|]. constructor; [|done]. cbn [ed_Evals ed_Allocs dd_Deployments]. rewrite !length_drop. lia.
      * destruct (IH evs als (i + (maxIdsPerReap - (length als - j)))%nat (length als)) as (C1 & C2 & C3); [lia..|].
        cbv zeta. rewrite !fmap_cons. cbn [concat ed_Evals ed_Allocs]. rewrite C1, C2, drop_split, drop_all, app_nil_r. split_and!; [done|done|]. constructor; [|done]. cbn [ed_Evals ed_Allocs dd_Deployments]. rewrite length_take, !length_drop. lia.
Qed.

Lemma partitionEvalReap_spec evs als (reqs := partitionEvalReap evs als) :
  concat (ed_Evals <$> reqs) = evs ∧ concat (ed_Allocs <$> reqs) = als ∧ Forall smallRequest reqs.
Proof. apply (evalReapLoop_spec _ evs als 0 0); lia. Qed.

Lemma deploymentReapLoop_spec fuel : ∀ ds i, (i ≤ length ds)%nat → (length ds - i ≤ fuel)%nat →
  let reqs := deploymentReapLoop fuel ds i in
  concat (dd_Deployments <$> reqs) = drop i ds ∧ Forall (fun r => (0 < length (dd_Deployments r) ≤ maxIdsPerReap)%nat) reqs.
Proof.
  assert (0 < maxIdsPerReap)%nat as Hm by (vm_compute; lia).
  induction fuel as [|fuel IH]; intros ds i Hi Hf; cbn [deploymentReapLoop]; (destruct (Nat.eqb_spec i (length ds)) as [->|];
    [by rewrite drop_all|]); [lia|]. destruct (Nat.leb_spec (length ds - i) maxIdsPerReap).
  - replace (i + (length ds - i))%nat with (length ds) by lia. destruct (IH ds (length ds)) as [C1 C2]; [lia..|]. cbv zeta. rewrite !fmap_cons. cbn [concat ed_Evals ed_Allocs dd_Deployments]. rewrite C1, drop_all, app_nil_r.
    split; [done|]. constructor; [|done]. cbn [ed_Evals ed_Allocs dd_Deployments]. rewrite length_drop. lia.
  - destruct (IH ds (i + maxIdsPerReap)%nat) as [C1 C2]; [lia..|]. cbv zeta. rewrite !fmap_cons. cbn [concat ed_Evals ed_Allocs dd_Deployments]. rewrite C1, drop_split. split; [done|]. constructor; [|done]. cbn [ed_Evals ed_Allocs dd_Deployments].
    rewrite length_take, length_drop. lia.
Qed.

Lemma partitionDeploymentReap_spec ds (reqs := partitionDeploymentReap ds) :
  concat (dd_Deployments <$> reqs) = ds ∧ Forall (fun r => (0 < length (dd_Deployments r) ≤ maxIdsPerReap)%nat) reqs.
Proof. apply (deploymentReapLoop_spec _ ds 0); lia. Qed.

(** ** Garbage *)

Section garbage.
Context `{CaseLib}.
Implicit Types (s : StateStore) (e : Evaluation).

(** An evaluation that has ended long ago, and not one of a batch job that is still needed. *)
Definition ended s (thr : Z) (allowBatch : bool) e : Prop :=
  TerminalStatus e = true ∧ ev_ModifyIndex e ≤ thr ∧
  (ev_Type e = JobTypeBatch → ∀ j, table jobs s !! lowerKey (ev_JobID e) = Some j →
     jb_Status j = JobStatusDead ∧ (jb_Stop j = true ∨ allowBatch = true)).

Definition oldTerminal (thr : Z) (a : Allocation) : Prop := AllocTerminal a = true ∧ al_ModifyIndex a ≤ thr.

(** It can go when its allocations can. *)
Definition garbageEval s (thr : Z) (allowBatch : bool) e : Prop :=
  ended s thr allowBatch e ∧ ∀ a, stored allocs s a → belongs a e → oldTerminal thr a.

Lemma oldAlloc_spec thr a : oldAlloc thr a = true ↔ oldTerminal thr a.
Proof. unfold oldAlloc, oldTerminal. rewrite negb_true_iff, orb_false_iff, negb_false_iff, Z.ltb_ge. done. Qed.

Lemma collectBatch_spec s id b : collectBatch (table jobs s !! id) b = true ↔
  ∀ j, table jobs s !! id = Some j → jb_Status j = JobStatusDead ∧ (jb_Stop j = true ∨ b = true).
Proof.
  unfold collectBatch. destruct (table jobs s !! id) as [j|]; [|done]. case_bool_decide as Hd.
  - split; [done|]. intros Hj. by destruct (Hj j eq_refl).
  - destruct (decide (jb_Status j = JobStatusDead)) as [Hs|]; [|done]. split.
    + intros Hb j' [= <-]. split; [done|]. destruct (jb_Stop j); auto.
    + intros Hj. destruct (Hj j eq_refl) as [_ [->| ->]]; [done|]. by destruct (jb_Stop j).
Qed.

Lemma gcAllocs_spec s thr e : store_ok s → stored evals s e →
  ∃ gc als, gcAllocs s e thr = inr (gc, als) ∧ (gc = true ↔ ∀ a, stored allocs s a → belongs a e → oldTerminal thr a) ∧
    ∀ id, id ∈ als ↔ ∃ a, stored allocs s a ∧ belongs a e ∧ oldTerminal thr a ∧ al_ID a = id.
Proof.
  intros Hs He. destruct (allocs_by_eval s e Hs He) as (l & El & _ & Hl). unfold gcAllocs. rewrite El. do 2 eexists. split; [done|]. split.
  - rewrite forallb_forall. setoid_rewrite <- list_elem_of_In. setoid_rewrite Hl. setoid_rewrite oldAlloc_spec. naive_solver.
  - intros id. rewrite list_elem_of_fmap. setoid_rewrite list_elem_of_filter. setoid_rewrite Hl.
    setoid_rewrite Is_true_true. setoid_rewrite oldAlloc_spec. naive_solver.
Qed.

Lemma gcEval_spec s thr b e : store_ok s → stored evals s e →
  ∃ gc als, gcEval s e thr b = inr (gc, als) ∧ (gc = true ↔ garbageEval s thr b e) ∧
    ∀ id, id ∈ als ↔ ended s thr b e ∧ ∃ a, stored allocs s a ∧ belongs a e ∧ oldTerminal thr a ∧ al_ID a = id.
Proof.
  intros Hs He. destruct (gcAllocs_spec s thr e Hs He) as (gc & als & Eg & Hgc & Hals). unfold gcEval, garbageEval, ended.
  assert (∀ P : Prop, ¬ P → ∃ gc als, inr (A := GoError) (false, @nil string) = inr (gc, als) ∧ (gc = true ↔ P ∧ ∀ a, stored allocs s a → belongs a e → oldTerminal thr a) ∧
    ∀ id, id ∈ als ↔ P ∧ ∃ a, stored allocs s a ∧ belongs a e ∧ oldTerminal thr a ∧ al_ID a = id) as Hno.
  { intros P HP. exists false, []. split; [done|]. split; [naive_solver|]. intros id. rewrite elem_of_nil. naive_solver. }
  destruct (negb (TerminalStatus e) || (thr <? ev_ModifyIndex e)) eqn:E1.
  { apply Hno. intros (Ht & Hm & _). rewrite Ht in E1. simpl in E1. apply Z.ltb_lt in E1. lia. }
  apply orb_false_iff in E1 as [Ht%negb_false_iff Hm%Z.ltb_ge].
  assert (collects : ev_Type e ≠ JobTypeBatch ∨ collectBatch (table jobs s !! lowerKey (ev_JobID e)) b = true →
    ∃ gc als, gcAllocs s e thr = inr (gc, als) ∧ (gc = true ↔ garbageEval s thr b e) ∧
    ∀ id, id ∈ als ↔ ended s thr b e ∧ ∃ a, stored allocs s a ∧ belongs a e ∧ oldTerminal thr a ∧ al_ID a = id).
  { intros Hc. exists gc, als. unfold garbageEval, ended. rewrite collectBatch_spec in Hc. split; [done|]. naive_solver. }
  case_bool_decide as Eb; [|by apply collects; left]. rewrite JobByID_eq.
  destruct (collectBatch _ b) eqn:Ec; [by apply collects; right|]. apply Hno. intros (_ & _ & Hj). specialize (Hj Eb).
  apply collectBatch_spec in Hj. congruence.
Qed.
End garbage.

(** ** What is collected *)

Section collected.
Context `{CaseLib}.
Implicit Types (s : StateStore) (e : Evaluation).

Lemma collectEvals_spec s thr l : store_ok s → Forall (stored evals s) l → ∃ evs als, collectEvals s thr l = inr (evs, als) ∧
  (∀ id, id ∈ evs ↔ ∃ e, e ∈ l ∧ garbageEval s thr false e ∧ ev_ID e = id) ∧
  (∀ id, id ∈ als ↔ ∃ e, e ∈ l ∧ ended s thr false e ∧ ∃ a, stored allocs s a ∧ belongs a e ∧ oldTerminal thr a ∧ al_ID a = id).
Proof.
  intros Hs. induction 1 as [|e l He Hl (evs & als & E & Hevs & Hals)]; cbn [collectEvals].
  { exists [], []. split; [done|]. setoid_rewrite elem_of_nil. naive_solver. }
  destruct (gcEval_spec s thr false e Hs He) as (gc & als1 & -> & Hgc & Hals1). rewrite E. do 2 eexists. split; [done|]. split; intros id.
  - rewrite elem_of_app, Hevs. setoid_rewrite elem_of_cons. destruct gc.
    + rewrite list_elem_of_singleton. naive_solver.
    + rewrite elem_of_nil. naive_solver.
  - rewrite elem_of_app, Hals1, Hals. setoid_rewrite elem_of_cons. naive_solver.
Qed.

Lemma collectJobEvals_spec s thr l : store_ok s → Forall (stored evals s) l → ∃ r, collectJobEvals s thr l = inr r ∧
  match r with
  | None => ∃ e, e ∈ l ∧ ¬ garbageEval s thr true e
  | Some (evs, als) => (∀ e, e ∈ l → garbageEval s thr true e) ∧ evs = ev_ID <$> l ∧
      ∀ id, id ∈ als ↔ ∃ e a, e ∈ l ∧ stored allocs s a ∧ belongs a e ∧ al_ID a = id
  end.
Proof.
  intros Hs. induction 1 as [|e l He Hl (r & E & Hr)]; cbn [collectJobEvals].
  { eexists. split; [done|]. split_and!; [by intros e ?%elem_of_nil|done|]. intros id. setoid_rewrite elem_of_nil. naive_solver. }
  destruct (gcEval_spec s thr true e Hs He) as ([] & als1 & -> & Hgc & Hals1).
  - assert (garbageEval s thr true e) as Hg by naive_solver. rewrite E. destruct r as [[evs als]|].
    + destruct Hr as (Hr & -> & Hals). eexists. split; [done|]. split_and!; [by intros e' [->|He']%elem_of_cons; auto|done|].
      intros id. rewrite elem_of_app, Hals1, Hals. setoid_rewrite elem_of_cons. destruct Hg as [Hg1 Hg2]. naive_solver.
    + eexists. split; [done|]. destruct Hr as (e' & Hin & Hn). exists e'. split; [by right|done].
  - eexists. split; [done|]. exists e. split; [left|]. intros Hg%Hgc. done.
Qed.

(** A job of which nothing is needed any more. *)
Definition garbageJob s (thr : Z) (j : Job) : Prop :=
  jobIsGCable j = true ∧ jb_CreateIndex j ≤ thr ∧ ∀ e, stored evals s e → ev_JobID e = jb_ID j → garbageEval s thr true e.

Definition jobsEval s (j : Job) e : Prop := stored evals s e ∧ ev_JobID e = jb_ID j.

Lemma collectJob_spec s thr j : store_ok s →
  match collectJob s thr j with
  | None => jb_CreateIndex j ≤ thr → ∃ e, jobsEval s j e ∧ ¬ garbageEval s thr true e
  | Some (evs, als) => jb_CreateIndex j ≤ thr ∧ (∀ e, jobsEval s j e → garbageEval s thr true e) ∧
      (∀ id, id ∈ evs ↔ ∃ e, jobsEval s j e ∧ ev_ID e = id) ∧
      (∀ id, id ∈ als ↔ ∃ e a, jobsEval s j e ∧ stored allocs s a ∧ belongs a e ∧ al_ID a = id)
  end.
Proof.
  intros Hs. unfold collectJob, jobsEval. destruct (Z.ltb_spec thr (jb_CreateIndex j)) as [|Hi]; [lia|].
  destruct (evals_by_job s (jb_ID j) Hs) as (l & El & Hl). unfold EvalsByJob. rewrite El.
  destruct (collectJobEvals_spec s thr (filter (fun e => ev_JobID e = jb_ID j) l) Hs) as (r & -> & Hr).
  { apply Forall_forall. intros e He. by apply Hl in He as [? _]. }
  destruct r as [[evs als]|].
  - destruct Hr as (Hr & -> & Hals). split; [done|]. split; [intros e He; by apply Hr, Hl|]. split; intros id.
    + rewrite list_elem_of_fmap. setoid_rewrite Hl. naive_solver.
    + rewrite Hals. setoid_rewrite Hl. done.
  - destruct Hr as (e & He & Hn). intros _. exists e. split; [by apply Hl|done].
Qed.

Lemma collectJobs_spec s thr l : store_ok s → Forall (fun j => jobIsGCable j = true) l →
  let '(js, evs, als) := collectJobs s thr l in
  (∀ id, id ∈ js ↔ ∃ j, j ∈ l ∧ garbageJob s thr j ∧ jb_ID j = id) ∧
  (∀ id, id ∈ evs ↔ ∃ j e, j ∈ l ∧ garbageJob s thr j ∧ jobsEval s j e ∧ ev_ID e = id) ∧
  (∀ id, id ∈ als ↔ ∃ j e a, j ∈ l ∧ garbageJob s thr j ∧ jobsEval s j e ∧ stored allocs s a ∧ belongs a e ∧ al_ID a = id).
Proof.
  intros Hs. induction 1 as [|j l Hj Hl IH]; cbn [collectJobs]; [split_and!; intros id; setoid_rewrite elem_of_nil; naive_solver|].
  destruct (collectJobs s thr l) as [[js evs] als]. destruct IH as (I1 & I2 & I3). pose proof (collectJob_spec s thr j Hs) as Hc.
  destruct (collectJob s thr j) as [[evs1 als1]|].
  - destruct Hc as (Hi & Hg & Hevs & Hals). assert (garbageJob s thr j) as Hgj by (split_and!; [done|done|intros e He Ee; by apply Hg]).
    split_and!; intros id; setoid_rewrite elem_of_cons.
    + rewrite I1. naive_solver.
    + rewrite elem_of_app, I2, Hevs. naive_solver.
    + rewrite elem_of_app, I3, Hals. naive_solver.
  - assert (¬ garbageJob s thr j) as Hn.
    { intros (_ & Hi & Hg). destruct (Hc Hi) as (e & [He Ee] & Hn). by apply Hn, Hg. }
    split_and!; intros id; setoid_rewrite elem_of_cons; [rewrite I1|rewrite I2|rewrite I3]; naive_solver.
Qed.
End collected.

(** ** The properties *)

Section properties.
Context `{CaseLib} `{!CaseLaws} {W : Type} `{!CoreServer W}.
Context (config : GCConfig) (snap : StateStore) (now : Z).
Implicit Types (e eval : Evaluation) (w : W).

(** The entries of the log up to the threshold were applied the time [gcThreshold] ago. *)
Lemma threshold_old eval gcThreshold w ws x : ev_JobID eval ≠ CoreJobForceGC → inOrder ws → remembers ws (srvTimeTable w) →
  x ∈ ws → te_Index x ≤ oldThreshold now eval gcThreshold w → te_Time x ≤ now - gcThreshold.
Proof. intros He Ho Hr Hx. unfold oldThreshold. rewrite bool_decide_eq_false_2 by done. by eapply nearest_old. Qed.

Lemma small_nil_evals (reqs : list EvalDeleteRequest) : concat (ed_Evals <$> reqs) = [] → concat (ed_Allocs <$> reqs) = [] → Forall smallRequest reqs → reqs = [].
Proof.
  destruct reqs as [|r reqs]; [done|]. rewrite !fmap_cons. cbn [concat]. intros [E1 _]%app_nil [E2 _]%app_nil [[Hr _] _]%Forall_cons.
  rewrite E1, E2 in Hr. simpl in Hr. lia.
Qed.

(** C13. Garbage collection of evaluations is exact.  A run asks for the removal of
    precisely the evaluations of the snapshot that have ended, were not changed after the
    threshold and have only such allocations, and of precisely the allocations of ended
    evaluations that are terminal and old, unless they belong to a batch job that has not
    been stopped; the requests are small and not empty.  Unless the run is forced, whatever
    the log wrote up to the threshold was applied at least the configured time ago. *)
Theorem eval_gc_exact eval w (thr := oldThreshold now eval (gc_EvalGCThreshold config) w) :
  store_ok snap →
  (∃ reqs, evalGC config snap now eval w = srvEach reqs EvalReap w ∧ Forall smallRequest reqs ∧
    (∀ id, id ∈ concat (ed_Evals <$> reqs) ↔ ∃ e, stored evals snap e ∧ garbageEval snap thr false e ∧ ev_ID e = id) ∧
    (∀ id, id ∈ concat (ed_Allocs <$> reqs) ↔
       ∃ e, stored evals snap e ∧ ended snap thr false e ∧ ∃ a, stored allocs snap a ∧ belongs a e ∧ oldTerminal thr a ∧ al_ID a = id)) ∧
  (ev_JobID eval ≠ CoreJobForceGC → ∀ ws x, inOrder ws → remembers ws (srvTimeTable w) → x ∈ ws → te_Index x ≤ thr →
    te_Time x ≤ now - gc_EvalGCThreshold config).
Proof.
  intros Hs. split; [|intros He ws x; by apply threshold_old]. destruct (all_rows evals snap Hs) as (l & El & _ & Hl).
  destruct (collectEvals_spec snap thr l Hs) as (evs & als & Ec & Hevs & Hals); [apply Forall_forall; intros e; apply Hl|].
  destruct (partitionEvalReap_spec evs als) as (P1 & P2 & P3). exists (partitionEvalReap evs als). rewrite P1, P2. split; [|split; [done|]].
  - unfold evalGC, Evals. rewrite El. unfold mbind, Srv_bind. cbn [srvTry mret Srv_ret]. fold thr. rewrite Ec. cbn [srvTry fst snd mret Srv_ret]. destruct (_ && _) eqn:E; [|done].
    apply andb_true_iff in E as [->%Nat.eqb_eq%nil_length_inv ->%Nat.eqb_eq%nil_length_inv]. by rewrite (small_nil_evals _ P1 P2 P3).
  - split; intros id; [rewrite Hevs|rewrite Hals]; by setoid_rewrite Hl.
Qed.

(** C26. Garbage collection of jobs is exact.  A run asks for the removal of precisely the
    jobs of the snapshot that may be collected, were created before the threshold and have
    only evaluations that can go, after it has asked for the removal of all evaluations of
    those jobs and of all their allocations, and for nothing else. *)
Theorem job_gc_exact eval w (thr := oldThreshold now eval (gc_JobGCThreshold config) w) :
  store_ok snap →
  ∃ reqs js, jobGC config snap now eval w =
      (srvEach reqs EvalReap ≫= fun _ => srvEach js (fun id => JobDeregister (mkJobDeregisterRequest id true))) w ∧
    Forall smallRequest reqs ∧
    (∀ id, id ∈ js ↔ ∃ j, stored jobs snap j ∧ garbageJob snap thr j ∧ jb_ID j = id) ∧
    (∀ id, id ∈ concat (ed_Evals <$> reqs) ↔ ∃ j e, stored jobs snap j ∧ garbageJob snap thr j ∧ jobsEval snap j e ∧ ev_ID e = id) ∧
    (∀ id, id ∈ concat (ed_Allocs <$> reqs) ↔
       ∃ j e a, stored jobs snap j ∧ garbageJob snap thr j ∧ jobsEval snap j e ∧ stored allocs snap a ∧ belongs a e ∧ al_ID a = id).
Proof.
  intros Hs. destruct (jobs_by_gc snap true Hs) as (l & El & _ & Hl).
  pose proof (collectJobs_spec snap thr l Hs) as Hc. destruct (collectJobs snap thr l) as [[js evs] als] eqn:Ec.
  destruct Hc as (C1 & C2 & C3); [apply Forall_forall; intros j [_ Hj]%Hl; done|].
  assert (∀ j, j ∈ l ∧ garbageJob snap thr j ↔ stored jobs snap j ∧ garbageJob snap thr j) as Hj by (intros j; rewrite Hl; unfold garbageJob; naive_solver).
  destruct (partitionEvalReap_spec evs als) as (P1 & P2 & P3). exists (partitionEvalReap evs als), js. rewrite P1, P2. split; [|split; [done|]].
  - unfold jobGC. rewrite El. unfold mbind, Srv_bind. cbn [srvTry mret Srv_ret]. fold thr. rewrite Ec. destruct (_ && _ && _) eqn:E; [|done].
    apply andb_true_iff in E as [[->%Nat.eqb_eq%nil_length_inv ->%Nat.eqb_eq%nil_length_inv]%andb_true_iff ->%Nat.eqb_eq%nil_length_inv].
    by rewrite (small_nil_evals _ P1 P2 P3).
  - split_and!; intros id.
    + rewrite C1. split; intros (j & Hr); exists j; specialize (Hj j); tauto.
    + rewrite C2. split; intros (j & e & Hr); exists j, e; specialize (Hj j); tauto.
    + rewrite C3. split; intros (j & e & a & Hr); exists j, e, a; specialize (Hj j); tauto.
Qed.

(** A node that is down and has nothing that runs. *)
Definition garbageNode (thr : Z) (n : Node) : Prop :=
  NodeTerminal n = true ∧ nd_ModifyIndex n ≤ thr ∧ ∀ a, stored allocs snap a → onNode a (nd_ID n) → AllocTerminal a = true.

Lemma gcNode_spec thr n : store_ok snap → properString true (nd_ID n) → gcNode snap thr n = true ↔ garbageNode thr n.
Proof.
  intros Hs Hp. unfold gcNode, garbageNode. destruct (NodeTerminal n); cbn [negb orb]; [|naive_solver].
  destruct (Z.ltb_spec thr (nd_ModifyIndex n)) as [|Hm]; [split; [done|lia]|]. destruct (allocs_by_node_prefix snap (nd_ID n) Hs Hp) as (l & -> & Hl).
  rewrite forallb_forall. setoid_rewrite <- list_elem_of_In. setoid_rewrite Hl. naive_solver.
Qed.

Lemma gcDeployment_spec thr d : gcDeployment thr d = true ↔ Active d = false ∧ d_ModifyIndex d ≤ thr.
Proof. unfold gcDeployment. by rewrite negb_true_iff, orb_false_iff, Z.ltb_ge. Qed.

(** C27. Garbage collection of nodes and deployments is exact.  A run asks for the removal
    of precisely the nodes that are down, were not changed after the threshold and have
    only terminal allocations; and a run for deployments of precisely those that have ended
    and were not changed after the threshold, in small requests. *)
Theorem node_gc_exact eval w :
  store_ok snap →
  (∃ ids, nodeGC config snap now eval w = srvEach ids (fun id => NodeDeregister (mkNodeDeregisterRequest id)) w ∧
    ∀ id, id ∈ ids ↔ ∃ n, stored nodes snap n ∧ garbageNode (oldThreshold now eval (gc_NodeGCThreshold config) w) n ∧ nd_ID n = id) ∧
  (∃ reqs, deploymentGC config snap now eval w = srvEach reqs DeploymentReap w ∧
    Forall (fun r => (0 < length (dd_Deployments r) ≤ maxIdsPerReap)%nat) reqs ∧
    ∀ id, id ∈ concat (dd_Deployments <$> reqs) ↔ ∃ d, stored deployment snap d ∧ Active d = false ∧
      d_ModifyIndex d ≤ oldThreshold now eval (gc_DeploymentGCThreshold config) w ∧ d_ID d = id).
Proof.
  intros Hs. split.
  - assert (∀ n, stored nodes snap n → properString true (nd_ID n)) as Hn.
    { intros n [k Hk]. destruct (uuid_row nodes nd_ID snap k n eq_refl Hs Hk) as (_ & _ & E). by eapply lower_nulFree, uuid_nulFree. }
    destruct (all_rows nodes snap Hs) as (l & El & _ & Hl). eexists. split; [unfold nodeGC, Nodes; by rewrite El|].
    intros id. rewrite list_elem_of_fmap. setoid_rewrite list_elem_of_filter. setoid_rewrite Is_true_true. split.
    + intros (n & -> & Hg & Hin%Hl). exists n. split_and!; [done| |done]. apply gcNode_spec; auto.
    + intros (n & Hin & Hg & <-). exists n. split_and!; [done| |by apply Hl]. apply gcNode_spec; auto.
  - destruct (all_rows deployment snap Hs) as (l & El & _ & Hl). set (thr := oldThreshold _ _ _ _).
    set (ids := d_ID <$> filter (fun d => gcDeployment thr d) l). destruct (partitionDeploymentReap_spec ids) as (P1 & P2).
    exists (partitionDeploymentReap ids). rewrite P1. split; [|split; [done|]].
    + unfold deploymentGC, Deployments. rewrite El. unfold mbind, Srv_bind. cbn [srvTry mret Srv_ret]. fold thr ids.
      by destruct ids as [|id ids'].
    + intros id. unfold ids. rewrite list_elem_of_fmap. setoid_rewrite list_elem_of_filter. setoid_rewrite Is_true_true. setoid_rewrite Hl.
      setoid_rewrite gcDeployment_spec.
      split; [intros (d & -> & [? ?] & ?)|intros (d & ? & ? & ? & <-)]; exists d; by split_and!.
Qed.
End properties.

(** ** A server that records the requests *)

Record Recorder := mkRecorder {
  rec_table : TimeTable;
  rec_requests : list string
}.
Definition noted (what : string) (ids : list string) : Srv Recorder unit := fun w =>
  Some (inr tt, mkRecorder (rec_table w) (rec_requests w ++ (what :: ids))).
#[local] Instance recording : CoreServer Recorder := {|
  srvTimeTable := rec_table;
  EvalReap r := noted "reap" (ed_Evals r ++ ed_Allocs r);
  JobDeregister r := noted "deregister job" [jdr_JobID r];
  NodeDeregister r := noted "deregister node" [ndr_NodeID r];
  DeploymentReap r := noted "reap deployments" (dd_Deployments r)
|}.
Definition recorder : Recorder := mkRecorder (mkTimeTable 0 0 0 [mkTimeTableEntry 20 (5 * 3600); mkTimeTableEntry 9 3600]) [].
Definition config : GCConfig := mkGCConfig 3600 3600 3600 3600.

(** A stopped job with two evaluations; the allocation of the first has ended, the second
    is too new.  Two nodes are down, and something is said to run on one of them. *)
Definition endedEval (n : string) : Evaluation := webEval <| ev_ID := idOf n |> <| ev_Status := EvalStatusComplete |>.
Definition downNode (n : string) : Node :=
  mkNode (idOf n) "" "dc1" "n" "" false ∅ zeroResources None ∅ ∅ "" "" false NodeStatusDown "" 0 0 0.
Definition endedDeployment : Deployment := mkDeployment (idOf "d1") "web" 0 0 0 ∅ DeploymentStatusSuccessful "" 0 0.
Definition gcOps : list (Z * StoreOp) :=
  [(1, OpUpsertJob (web <| jb_Stop := true |>)); (2, OpUpsertNode (downNode "01")); (3, OpUpsertNode (downNode "02")); (4, OpUpsertEvals [endedEval "e0"]);
   (5, OpUpsertAllocs [(webAlloc "a2" AllocDesiredStatusStop AllocClientStatusComplete) <| al_NodeID := idOf "01" |>]); (6, OpUpsertDeployment endedDeployment)].
Definition gcStore : StateStore := run gcOps.
Definition gcStore' : StateStore := run (gcOps ++ [(12, OpUpsertEvals [endedEval "e1"]);
  (13, OpUpsertAllocs [(webAlloc "a3" AllocDesiredStatusRun AllocClientStatusRunning) <| al_NodeID := idOf "02" |> <| al_EvalID := idOf "e1" |>])]).

Lemma stopped_ok : job_ok (web <| jb_Stop := true |>).
Proof. split_and!; [done|decided|done|decided]. Qed.

Ltac proper_ops := repeat (apply Forall_cons; split; [first [exact stopped_ok|cbn [snd proper_op]; proper_rows]|]); by apply Forall_nil.
Lemma gcStore_ok : store_ok gcStore.
Proof. apply run_ok. proper_ops. Qed.
Lemma gcStore'_ok : store_ok gcStore'.
Proof. apply run_ok. cbn [gcOps app]. proper_ops. Qed.

Definition requests (r : option ((GoError + unit) * Recorder)) : list string := from_option (fun r => rec_requests r.2) [] r.

Lemma eval_gc_exact_witness :
  requests (evalGC config gcStore' (2 * 3600) (webEval <| ev_JobID := CoreJobEvalGC |>) recorder) = ["reap"; idOf "e0"; idOf "a2"] ∧
  ∃ reqs, evalGC config gcStore' (2 * 3600) (webEval <| ev_JobID := CoreJobEvalGC |>) recorder = srvEach reqs EvalReap recorder ∧ Forall smallRequest reqs.
Proof.
  split; [vm_compute; reflexivity|].
  destruct (eval_gc_exact config gcStore' (2 * 3600) (webEval <| ev_JobID := CoreJobEvalGC |>) recorder gcStore'_ok) as [(reqs & E & Hr & _) _].
  exists reqs. exact (conj E Hr).
Defined.

Lemma job_gc_exact_witness :
  requests (jobGC config gcStore (2 * 3600) (webEval <| ev_JobID := CoreJobJobGC |>) recorder) = ["reap"; idOf "e0"; idOf "a2"; "deregister job"; "web"] ∧
  ∃ reqs js, jobGC config gcStore (2 * 3600) (webEval <| ev_JobID := CoreJobJobGC |>) recorder =
    (srvEach reqs EvalReap ≫= fun _ => srvEach js (fun id => JobDeregister (mkJobDeregisterRequest id true))) recorder ∧ Forall smallRequest reqs.
Proof.
  split; [vm_compute; reflexivity|].
  destruct (job_gc_exact config gcStore (2 * 3600) (webEval <| ev_JobID := CoreJobJobGC |>) recorder gcStore_ok) as (reqs & js & E & Hr & _).
  exists reqs, js. exact (conj E Hr).
Defined.

Lemma node_gc_exact_witness :
  requests (nodeGC config gcStore' (2 * 3600) (webEval <| ev_JobID := CoreJobNodeGC |>) recorder) = ["deregister node"; idOf "01"] ∧
  requests (deploymentGC config gcStore' (2 * 3600) (webEval <| ev_JobID := CoreJobDeploymentGC |>) recorder) = ["reap deployments"; idOf "d1"] ∧
  ∃ ids, nodeGC config gcStore' (2 * 3600) (webEval <| ev_JobID := CoreJobNodeGC |>) recorder =
    srvEach ids (fun id => NodeDeregister (mkNodeDeregisterRequest id)) recorder.
Proof.
  split; [vm_compute; reflexivity|]. split; [vm_compute; reflexivity|].
  destruct (node_gc_exact config gcStore' (2 * 3600) (webEval <| ev_JobID := CoreJobNodeGC |>) recorder gcStore'_ok) as [(ids & E & _) _].
  exists ids. exact E.
Defined.
