(* ===== verification/Server.v ===== *)
(** * The leader's server

    The calls on the leader that write through Raft: the endpoints for evaluations, nodes,
    jobs and deployments (src/nomad/eval_endpoint.go, node_endpoint.go, job_endpoint.go,
    deployment_endpoint.go), the heartbeats of the nodes (heartbeat.go) and the dispatch of
    periodic jobs (periodic.go).  A call is made on the leader, so that it is not forwarded.
    Raft is an argument: for every index of the log it says whether the entry is committed,
    or fails with an error, in which case the entry may have been applied all the same.
    Clocks, new identifiers and Vault are arguments as well.  The fields of the replies that
    only describe the servers and the query are left out. *)

From stdpp Require Import base gmap strings list.
From Stdlib Require Import ZArith Lia.
From S2P Require Import Prelude GoText Timers Structs EvalBroker BlockedEvals BlockedEvalsProps Resources Jobs Allocs Plans SchedContext Feasible Stack SchedUtil MemDB StateStore TimeTable Periodic JobCanon Harness Fsm CoreSched.
Open Scope string_scope.
Open Scope list_scope.
Open Scope Z_scope.

Inductive RaftOutcome := Committed | RaftFailed (err : GoError) (applied : bool).

(** The environment of a server; what is drawn while the entry [i] is next is indexed by
    [i].  Tokens are revoked in Vault, which may fail. *)
Class ServerEnv := {
  raftOutcome : Z → RaftOutcome;
  applyClock : Z → nat → Z;
  wallClock : Z → Z;
  newUUID : Z → nat → string;
  randInt63 : Z → Z;
  revokeTokens : list VaultAccessor → option GoError;
  hashNode : string * gmap string string * gmap string string * string → string + Z;
  cfg_MaxHeartbeatsPerSecond : float64;
  cfg_MinHeartbeatTTL : Z;
  cfg_HeartbeatGrace : Z;
  cfg_FailoverHeartbeatTTL : Z
}.

(** [sv_index] is the last index of the log, [sv_heartbeats] the times at which the timers of
    the nodes expire. *)
Record Server := mkServer {
  sv_fsm : nomadFSM;
  sv_index : Z;
  sv_heartbeats : gmap string Z
}.
#[export] Instance eta_Server : Eta Server := fun r => mkServer (sv_fsm r) (sv_index r) (sv_heartbeats r).

Definition brokerError (e : BrokerError) : GoError :=
  errorf (match e with
          | ErrNotOutstanding => "evaluation is not outstanding"
          | ErrTokenMismatch => "evaluation token does not match"
          | ErrNackTimeoutReached => "evaluation nack timeout reached"
          | ErrIDNotFound => "Evaluation ID not found"
          | ErrTokenNotForID => "Token does not match for Evaluation ID"
          | ErrAckAfterExpiration => "Evaluation ID Ack'd after Nack timer expiration"
          | ErrBrokerDisabled => "eval broker disabled"
          end).

Section server.
Context `{CaseLib} `{RangeOrder} `{TextLibs} `{StackLibs} `{SchedEnv} `{UpperLib} `{CronLib} `{RequestCodec} `{ServerEnv}.
Implicit Types (sv : Server).

(** ** Raft (rpc.go) *)

Definition applyEntry (log : RaftLog) : Srv Server (GoError + unit) := fun sv =>
  match Apply (applyClock (log_Index log)) log (sv_fsm sv) with
  | None => None
  | Some (response, n) => Some (inr response, sv <| sv_fsm := n |> <| sv_index := log_Index log |>)
  end.

(** The response of the state machine and the index of the entry. *)
Definition raftApplyBytes (data : string) : Srv Server ((GoError + unit) * Z) := fun sv =>
  let log := mkRaftLog (sv_index sv + 1) data in
  match raftOutcome (log_Index log) with
  | Committed => (response ← applyEntry log; mret (response, log_Index log)) sv
  | RaftFailed err true => (applyEntry log ≫= fun _ => srvErr err) sv
  | RaftFailed err false => srvErr err (sv <| sv_index := log_Index log |>)
  end.
Definition raftApply {A} `{Codec A} (t : Z) (msg : A) : Srv Server ((GoError + unit) * Z) := raftApplyBytes (bytes1 t +:+ encode msg).

Definition getServer : Srv Server Server := fun sv => Some (inr sv, sv).
Definition serverState : Srv Server StateStore := fun sv => Some (inr (fs_state (sv_fsm sv)), sv).
Definition srvWrap {A} (f : string) (args : list string) (r : GoError + A) : Srv Server A :=
  match r with inl err => srvErr (wrapErr f args err) | inr a => mret a end.
Definition srvPanics {A} : Srv Server A := fun _ => None.

(** A method of the broker. *)
Definition withBroker (f : EvalBroker → option (EvalBroker * option BrokerError)) : Srv Server unit := fun sv =>
  match f (BlockedEvals.evalBroker (fs_blockedEvals (sv_fsm sv))) with
  | None => None
  | Some (b, err) =>
      let sv := sv <| sv_fsm ::= fun n => n <| fs_blockedEvals ::= fun bl => bl <| BlockedEvals.evalBroker := b |> |> |> in
      match err with None => Some (inr tt, sv) | Some err => Some (inl (brokerError err), sv) end
  end.

(** ** Evaluations *)

Definition EvalAck (evalID token : string) : Srv Server unit := withBroker (fun b => Ack b evalID token).
Definition EvalNack (evalID token : string) : Srv Server unit := withBroker (fun b => Nack b evalID token).

(** The only evaluation of a request. *)
Definition singleEval (req : EvalUpdateRequest) (what : string) : Srv Server Evaluation :=
  match eu_Evals req with [eval] => mret eval | _ => srvErr (errorf what) end.

Definition outstandingReset (evalID token : string) : Srv Server unit := withBroker (fun b => Some (OutstandingReset b evalID token)).

Definition EvalUpdate (req : EvalUpdateRequest) : Srv Server Z :=
  eval ← singleEval req "only a single eval can be updated";
  outstandingReset (ev_ID eval) (eu_EvalToken req) ≫= fun _ =>
  r ← raftApply EvalUpdateRequestType req;
  mret r.2.

Definition EvalCreate (req : EvalUpdateRequest) : Srv Server Z :=
  eval ← singleEval req "only a single eval can be created";
  outstandingReset (ev_PreviousEval eval) (eu_EvalToken req) ≫= fun _ =>
  s ← serverState;
  out ← srvTry (EvalByID s (ev_ID eval));
  match out with
  | Some _ => srvErr (errorf "evaluation already exists")
  | None => r ← raftApply EvalUpdateRequestType req; mret r.2
  end.

Definition reblock (eval : Evaluation) (token : string) : Srv Server unit := fun sv =>
  Some (inr tt, sv <| sv_fsm ::= fun n => n <| fs_blockedEvals ::= fun b => Reblock b eval token |> |>).

Definition EvalReblock (req : EvalUpdateRequest) : Srv Server unit :=
  eval ← singleEval req "only a single eval can be reblocked";
  outstandingReset (ev_ID eval) (eu_EvalToken req) ≫= fun _ =>
  s ← serverState;
  out ← srvTry (EvalByID s (ev_ID eval));
  match out with
  | None => srvErr (errorf "evaluation does not exist")
  | Some out =>
      if bool_decide (ev_Status out ≠ EvalStatusBlocked) then srvErr (errorf "evaluation not blocked")
      else reblock eval (eu_EvalToken req)
  end.

Definition EvalReapRPC (req : EvalDeleteRequest) : Srv Server unit :=
  raftApply EvalDeleteRequestType req ≫= fun _ => mret tt.
Definition DeploymentReapRPC (req : DeploymentDeleteRequest) : Srv Server unit :=
  raftApply DeploymentDeleteRequestType req ≫= fun _ => mret tt.

(** Commits new evaluations. *)
Definition commitEvals (evs : list Evaluation) : Srv Server Z :=
  r ← raftApply EvalUpdateRequestType (mkEvalUpdateRequest evs "");
  mret r.2.

(** ** Heartbeats (heartbeat.go) *)

(** [lib.RateScaledInterval] and [lib.RandomStagger] of vendor/github.com/hashicorp/consul;
    the constant [minRate] is a division of integers, which is 0. *)
Definition RateScaledInterval (rate : float64) (min n : Z) : Z :=
  if f_le rate (f64 0) then min
  else
    let interval := f_toInt (f_div (f_mul (f64 second) (f64 n)) rate) in
    if interval <? min then min else interval.
Definition RandomStagger (rand intv : Z) : Z := if intv =? 0 then 0 else rand mod intv.

Definition resetHeartbeatTimerLocked (id : string) (ttl : Z) : Srv Server unit := fun sv =>
  Some (inr tt, sv <| sv_heartbeats ::= <[id := wallClock (sv_index sv) + ttl]> |>).

Definition resetHeartbeatTimer (id : string) : Srv Server Z := fun sv =>
  let n := Z.of_nat (size (sv_heartbeats sv)) in
  let ttl := RateScaledInterval cfg_MaxHeartbeatsPerSecond cfg_MinHeartbeatTTL n in
  let ttl := ttl + RandomStagger (randInt63 (sv_index sv)) ttl in
  (resetHeartbeatTimerLocked id (ttl + cfg_HeartbeatGrace) ≫= fun _ => mret ttl) sv.

Definition clearHeartbeatTimer (id : string) : Srv Server unit := fun sv =>
  Some (inr tt, sv <| sv_heartbeats ::= delete id |>).
Definition clearAllHeartbeatTimers : Srv Server unit := fun sv => Some (inr tt, sv <| sv_heartbeats := ∅ |>).

Definition initializeHeartbeatTimers : Srv Server unit :=
  s ← serverState;
  l ← srvTry (Nodes s);
  srvEach l (fun node => if NodeTerminal node then mret tt else resetHeartbeatTimerLocked (nd_ID node) cfg_FailoverHeartbeatTTL).

(** ** Nodes (node_endpoint.go) *)

Definition nodeEval (id : string) (job : Job) (jobID nodeID : string) (nodeIndex : Z) : Evaluation :=
  zeroEvaluation <| ev_ID := id |> <| ev_Priority := jb_Priority job |> <| ev_Type := jb_Type job |>
    <| ev_TriggeredBy := EvalTriggerNodeUpdate |> <| ev_JobID := jobID |> <| ev_NodeID := nodeID |>
    <| ev_NodeModifyIndex := nodeIndex |> <| ev_Status := EvalStatusPending |>.

(** The loops over the allocations of a node and over the system jobs: one evaluation for
    each job.  An allocation without its job panics. *)
Fixpoint evalsForJobs (nodeID : string) (nodeIndex : Z) (uuid : nat → string) (k : nat) (jobIDs : gset string)
    (l : list (string * option Job)) : option (list Evaluation) :=
  match l with
  | [] => Some []
  | (jobID, job) :: l =>
      if bool_decide (jobID ∈ jobIDs) then evalsForJobs nodeID nodeIndex uuid k jobIDs l
      else
        job ← job;
        evs ← evalsForJobs nodeID nodeIndex uuid (S k) ({[jobID]} ∪ jobIDs) l;
        Some (nodeEval (uuid k) job jobID nodeID nodeIndex :: evs)
  end.

Definition createNodeEvals (nodeID : string) (nodeIndex : Z) : Srv Server (list string * Z) :=
  s ← serverState;
  als ← srvWrap "failed to find allocs for '%s': %v" [nodeID] (AllocsByNode s nodeID);
  sysJobs ← srvWrap "failed to find system jobs for '%s': %v" [nodeID] (JobsByScheduler s JobTypeSystem);
  if (length als =? 0)%nat && (length sysJobs =? 0)%nat then mret ([], 0)
  else
    sv ← getServer;
    match evalsForJobs nodeID nodeIndex (newUUID (sv_index sv)) 0 ∅
            (((fun a => (al_JobID a, al_Job a)) <$> als) ++ ((fun j => (jb_ID j, Some j)) <$> sysJobs)) with
    | None => srvPanics
    | Some evs => index ← commitEvals evs; mret (ev_ID <$> evs, index)
    end.

Definition transitionedToReady (newStatus oldStatus : string) : bool :=
  let initToReady := bool_decide (oldStatus = NodeStatusInit) && bool_decide (newStatus = NodeStatusReady) in
  let terminalToReady := bool_decide (oldStatus = NodeStatusDown) && bool_decide (newStatus = NodeStatusReady) in
  initToReady || terminalToReady.

(** [inr] says whether the node is older than the secret identifiers. *)
Definition nodePreSecretID (node : Node) : GoError + bool :=
  match nd_Attributes node !! "nomad.version" with
  | None => inl (errorf "missing Nomad version in attributes")
  | Some v => inr (negb (HasPrefix v "0.5"))
  end.

(** The objects of the store are shared: an endpoint that sets a field of a node it has
    looked up changes the store itself. *)
Definition setUpdatedAt (id : string) (t : Z) (x : Node) : Node := if bool_decide (nd_ID x = id) then x <| nd_StatusUpdatedAt := t |> else x.
Definition touchNode (id : string) : Srv Server unit := fun sv =>
  let f := setUpdatedAt id (UnixOf (wallClock (sv_index sv))) in
  Some (inr tt, sv <| sv_fsm ::= fun n => n <| fs_state ::= fun s => s <| st_nodes ::= fun t : gmap string (gmap string Node) => fmap (M := gmap string) (fmap (M := gmap string) f) t |> |> |>).

Definition shouldDrain (status : string) : Srv Server bool := match ShouldDrainNode status with Some b => mret b | None => srvPanics end.

(** Evaluations for a node whose status has changed, and the guard of the endpoints. *)
Definition evaluateTransition (nodeID newStatus oldStatus : string) (index : Z) : Srv Server unit :=
  drain ← shouldDrain newStatus;
  if (drain : bool) || transitionedToReady newStatus oldStatus then createNodeEvals nodeID index ≫= fun _ => mret tt else mret tt.

Definition revokeOnNode (nodeID : string) : Srv Server unit :=
  s ← serverState;
  accessors ← srvTry (VaultAccessorsByNode s nodeID);
  if (length accessors =? 0)%nat then mret tt
  else match revokeTokens accessors with Some err => srvErr err | None => mret tt end.

Definition checkNode (node : Node) : GoError + bool :=
  if bool_decide (nd_ID node = "") then inl (errorf "missing node ID for client registration")
  else if bool_decide (nd_Datacenter node = "") then inl (errorf "missing datacenter for client registration")
  else if bool_decide (nd_Name node = "") then inl (errorf "missing node name for client registration")
  else if (size (nd_Attributes node) =? 0)%nat then inl (errorf "missing attributes for client registration")
  else match nodePreSecretID node with
       | inl err => inl err
       | inr pre => if bool_decide (nd_SecretID node = "") && negb pre
                    then inl (errorf "missing node secret ID for client registration") else inr pre
       end.

(** The index of the registration. *)
Definition NodeRegister (req : NodeRegisterRequest) : Srv Server Z :=
  match nr_Node req with
  | None => srvErr (errorf "missing node for client registration")
  | Some node =>
      pre ← srvTry (checkNode node);
      let node := if bool_decide (nd_Status node = "") then node <| nd_Status := NodeStatusInit |> else node in
      if negb (ValidNodeStatus (nd_Status node)) then srvErr (errorf "invalid status for node")
      else
        sv ← getServer;
        let node := node <| nd_StatusUpdatedAt := UnixOf (wallClock (sv_index sv)) |> in
        match ComputeClass hashNode node with
        | inl err => srvErr (Errorf "failed to computed node class: %v" [err])
        | inr node =>
            s ← serverState;
            originalNode ← srvTry (NodeByID s (nd_ID node));
            if match originalNode with
               | Some o => negb pre && bool_decide (nd_SecretID node ≠ nd_SecretID o) && bool_decide (nd_SecretID o ≠ "")
               | None => false
               end
            then srvErr (errorf "node secret ID does not match. Not registering node.")
            else
              r ← raftApply NodeRegisterRequestType (mkNodeRegisterRequest (Some node));
              evaluateTransition (nd_ID node) (nd_Status node) (from_option nd_Status NodeStatusInit originalNode) r.2 ≫= fun _ =>
              (if negb (NodeTerminal node) then resetHeartbeatTimer (nd_ID node) ≫= fun _ => mret tt else mret tt) ≫= fun _ =>
              mret r.2
        end
  end.

Definition NodeDeregisterRPC (req : NodeDeregisterRequest) : Srv Server unit :=
  if bool_decide (ndr_NodeID req = "") then srvErr (errorf "missing node ID for client deregistration")
  else
    r ← raftApply NodeDeregisterRequestType req;
    clearHeartbeatTimer (ndr_NodeID req) ≫= fun _ =>
    createNodeEvals (ndr_NodeID req) r.2 ≫= fun _ =>
    revokeOnNode (ndr_NodeID req).

(** The node of a request, which must exist. *)
Definition knownNode (id : string) : Srv Server Node :=
  s ← serverState;
  node ← srvTry (NodeByID s id);
  match node with None => srvErr (errorf "node not found") | Some node => mret node end.

Definition NodeUpdateStatus (req : NodeUpdateStatusRequest) : Srv Server unit :=
  if bool_decide (nus_NodeID req = "") then srvErr (errorf "missing node ID for client status update")
  else if negb (ValidNodeStatus (nus_Status req)) then srvErr (errorf "invalid status for node")
  else
    node ← knownNode (nus_NodeID req);
    touchNode (nd_ID node) ≫= fun _ =>
    index ← (if bool_decide (nd_Status node ≠ nus_Status req)
             then r ← raftApply NodeUpdateStatusRequestType req; mret r.2 else mret 0);
    evaluateTransition (nus_NodeID req) (nus_Status req) (nd_Status node) index ≫= fun _ =>
    if bool_decide (nus_Status req = NodeStatusDown) then revokeOnNode (nus_NodeID req)
    else resetHeartbeatTimer (nus_NodeID req) ≫= fun _ => mret tt.

Definition NodeUpdateDrain (req : NodeUpdateDrainRequest) : Srv Server unit :=
  if bool_decide (nud_NodeID req = "") then srvErr (errorf "missing node ID for drain update")
  else
    node ← knownNode (nud_NodeID req);
    touchNode (nd_ID node) ≫= fun _ =>
    index ← (if bool_decide (nd_Drain node ≠ nud_Drain req)
             then r ← raftApply NodeUpdateDrainRequestType req; mret r.2 else mret 0);
    createNodeEvals (nud_NodeID req) index ≫= fun _ => mret tt.

Definition NodeEvaluate (nodeID : string) : Srv Server unit :=
  if bool_decide (nodeID = "") then srvErr (errorf "missing node ID for evaluation")
  else node ← knownNode nodeID; createNodeEvals nodeID (nd_ModifyIndex node) ≫= fun _ => mret tt.

(** A timer has expired; an error is only logged. *)
Definition ignoreFailure {A} (m : Srv Server A) : Srv Server unit := fun sv =>
  match m sv with None => None | Some (_, sv) => Some (inr tt, sv) end.
Definition invalidateHeartbeat (id : string) : Srv Server unit :=
  clearHeartbeatTimer id ≫= fun _ => ignoreFailure (NodeUpdateStatus (mkNodeUpdateStatusRequest id NodeStatusDown)).

(** The updates of the allocations of clients, in batches: [updates] are those of the
    clients whose calls wait for the batch. *)
Definition batchUpdate (updates : list Allocation) : Srv Server (list GoError * Z) := fun sv =>
  match raftApply AllocClientUpdateRequestType (mkAllocUpdateRequest updates None) sv with
  | None => None
  | Some (res, sv) =>
      let s := fs_state (sv_fsm sv) in
      let found := (fun alloc => VaultAccessorsByAlloc s (al_ID alloc)) <$> filter (fun alloc => Terminated alloc) updates in
      let revoke := concat (omap (fun r => match r with inr l => Some l | inl _ => None end) found) in
      let errs := (match res with inl err => [err] | inr _ => [] end) ++
                  omap (fun r => match r with inl err => Some err | inr _ => None end) found ++
                  (if (length revoke =? 0)%nat then [] else option_list (revokeTokens revoke)) in
      Some (inr (errs, match res with inr r => r.2 | inl _ => 0 end), sv)
  end.
End server.
