(* ===== verification/ServerJobs.v ===== *)
(** * The endpoint of jobs (src/nomad/job_endpoint.go)

    Registering, reverting, evaluating, stopping and dispatching jobs on the leader.  The
    validation of the fields of a job and of the configuration of its drivers, the Vault
    client and the compression of payloads are arguments.  The records of jobs do not hold
    the Vault token, which is cleared before a job is stored: it is an argument of the
    request.  Warnings are not part of the replies. *)

From stdpp Require Import base gmap strings list sorting.
From Stdlib Require Import ZArith Lia.
From S2P Require Import Prelude GoText Timers Structs EvalBroker BlockedEvals BlockedEvalsProps Resources Jobs Allocs Plans SchedContext Feasible Stack SchedUtil MemDB StateStore TimeTable Periodic JobCanon Harness Fsm CoreSched Server.
Open Scope string_scope.
Open Scope list_scope.
Open Scope Z_scope.

#[export] Instance Constraint_eq : EqDecision Constraint.
Proof. solve_decision. Defined.
#[export] Instance UpdateStrategy_eq : EqDecision UpdateStrategy.
Proof. solve_decision. Defined.
#[export] Instance Task_eq : EqDecision Task.
Proof. solve_decision. Defined.
#[export] Instance TaskGroup_eq : EqDecision TaskGroup.
Proof. solve_decision. Defined.
#[export] Instance PeriodicConfig_eq : EqDecision PeriodicConfig.
Proof. solve_decision. Defined.
#[export] Instance ParameterizedJobConfig_eq : EqDecision ParameterizedJobConfig.
Proof. solve_decision. Defined.
#[export] Instance Job_eq : EqDecision Job.
Proof. solve_decision. Defined.

Definition RegisterEnforceIndexErrPrefix : string := "Enforcing job modify index".
Definition DispatchPayloadSizeLimit : nat := 16 * 1024.
Definition DispatchLaunchSuffix : string := "/dispatch-".
Definition VaultChangeModeSignal : string := "signal".
Definition TemplateChangeModeSignal : string := "signal".
Definition vaultConstraint : Constraint := mkConstraint "${attr.vault.version}" ">= 0.6.1" ConstraintVersion.

(** What the endpoint uses of other parts: the checks of [Job.Validate] and of the drivers,
    the policies of a Vault token, and the compression of payloads. *)
Class JobEnv := {
  validateFields : Job → option GoError;
  vaultEnabled : bool;
  vaultAllowsUnauthenticated : bool;
  tokenPolicies : string → GoError + list string;
  snappyEncode : string → string
}.

Record JobRegisterResponse := mkJobRegisterResponse {
  jr_EvalID : string;
  jr_EvalCreateIndex : Z;
  jr_JobModifyIndex : Z;
  jr_Index : Z
}.
#[export] Instance eta_JobRegisterResponse : Eta JobRegisterResponse := fun r =>
  mkJobRegisterResponse (jr_EvalID r) (jr_EvalCreateIndex r) (jr_JobModifyIndex r) (jr_Index r).
Record JobRevertRequest := mkJobRevertRequest { jv_JobID : string; jv_JobVersion : Z; jv_EnforcePriorVersion : option Z }.
Record JobDispatchRequest := mkJobDispatchRequest { jp_JobID : string; jp_Payload : string; jp_Meta : gmap string string }.
Record JobDispatchResponse := mkJobDispatchResponse {
  jx_DispatchedJobID : string;
  jx_EvalID : string;
  jx_EvalCreateIndex : Z;
  jx_JobCreateIndex : Z;
  jx_Index : Z
}.
#[export] Instance eta_JobDispatchResponse : Eta JobDispatchResponse := fun r =>
  mkJobDispatchResponse (jx_DispatchedJobID r) (jx_EvalID r) (jx_EvalCreateIndex r) (jx_JobCreateIndex r) (jx_Index r).

(** ** What a job asks for (structs.go) *)

Definition tasksVault (tg : TaskGroup) : gmap string Vault :=
  foldl (fun m t => match tk_Vault t with Some v => <[tk_Name t := v]> m | None => m end) ∅ (tg_Tasks tg).
Definition VaultPolicies (j : Job) : gmap string (gmap string Vault) :=
  foldl (fun m tg => let tgPolicies := tasksVault tg in
                     if (size tgPolicies =? 0)%nat then m else <[tg_Name tg := tgPolicies]> m) ∅ (jb_TaskGroups j).

Definition taskSignals (t : Task) : gset string :=
  match tk_Vault t with
  | Some v => if bool_decide (va_ChangeMode v = VaultChangeModeSignal) then {[va_ChangeSignal v]} else ∅
  | None => ∅
  end ∪ list_to_set (te_ChangeSignal <$> filter (fun x => te_ChangeMode x = TemplateChangeModeSignal) (tk_Templates t)).

(** The signals of a task, sorted; whatever the order in which the set is read. *)
Definition addSignals (tg : TaskGroup) (m : gmap string (gmap string (list string))) (t : Task) : gmap string (gmap string (list string)) :=
  let set := taskSignals t in
  if (size set =? 0)%nat then m
  else <[tg_Name tg := <[tk_Name t := merge_sort str_le (elements set)]> (default ∅ (m !! tg_Name tg))]> m.
Definition RequiredSignals (j : Job) : gmap string (gmap string (list string)) :=
  foldl (fun m tg => foldl (addSignals tg) m (tg_Tasks tg)) ∅ (jb_TaskGroups j).

Definition SpecChanged (j new : Job) : bool :=
  let c := new <| jb_Status := jb_Status j |> <| jb_StatusDescription := jb_StatusDescription j |> <| jb_Stable := jb_Stable j |>
             <| jb_Version := jb_Version j |> <| jb_CreateIndex := jb_CreateIndex j |> <| jb_ModifyIndex := jb_ModifyIndex j |>
             <| jb_JobModifyIndex := jb_JobModifyIndex j |> <| jb_SubmitTime := jb_SubmitTime j |> in
  negb (bool_decide (j = c)).

(** ** Registration *)

Section jobs.
Context `{CaseLib} `{RangeOrder} `{TextLibs} `{StackLibs} `{SchedEnv} `{UpperLib} `{CronLib} `{RequestCodec} `{ServerEnv} `{JobEnv}.
Implicit Types (sv : Server) (job old new : Job).

(** The keys of a set that is ranged over. *)
Definition keysOf (set : gset string) : list string := fst <$> range (set_to_map (fun k => (k, tt)) set : gmap string unit).

Definition MapStringStringSliceValueSet (m : gmap string (list string)) : list string :=
  keysOf (list_to_set (concat (snd <$> range m))).

Definition getSignalConstraint (signals : list string) : Constraint :=
  mkConstraint "${attr.os.signals}" (String.concat "," signals) ConstraintSetContains.

Definition addConstraint (c : Constraint) (tg : TaskGroup) : TaskGroup :=
  if existsb (fun x => ConstraintEqual x c) (tg_Constraints tg) then tg else tg <| tg_Constraints ::= fun l => l ++ [c] |>.

Definition setImplicitConstraints job : Job :=
  let policies := VaultPolicies job in
  let signals := RequiredSignals job in
  if (size signals =? 0)%nat && (size policies =? 0)%nat then job
  else
    let job := job <| jb_TaskGroups ::= fmap (fun tg => match policies !! tg_Name tg with
                                                        | None => tg
                                                        | Some _ => addConstraint vaultConstraint tg
                                                        end) |> in
    job <| jb_TaskGroups ::= fmap (fun tg => match signals !! tg_Name tg with
                                             | None => tg
                                             | Some tgSignals => addConstraint (getSignalConstraint (MapStringStringSliceValueSet tgSignals)) tg
                                             end) |>.

(** The errors are collected; the text of the list is left out. *)
Definition multiError (errs : list GoError) : option GoError :=
  match errs with [] => None | _ => Some (Errorf "%d error(s) occurred" [formatInt (Z.of_nat (length errs))]) end.
Definition validateJob job : option GoError :=
  multiError (option_list (validateFields job) ++
    (if bool_decide (jb_Type job = JobTypeCore) then [errorf "job type cannot be core"] else []) ++
    (if bool_decide (jb_Payload job ≠ "") then [errorf "job can't be submitted with a payload, only dispatched"] else [])).

Definition validateJobUpdate old new : option GoError :=
  if bool_decide (jb_Type old ≠ jb_Type new) then Some (Errorf "cannot update job from type %q to %q" [jb_Type old; jb_Type new])
  else if IsPeriodic old && negb (IsPeriodic new) then Some (errorf "cannot update non-periodic job to being periodic")
  else if IsPeriodic new && negb (IsPeriodic old) then Some (errorf "cannot update periodic job to being non-periodic")
  else if IsParameterized old && negb (IsParameterized new) then Some (errorf "cannot update non-parameterized job to being parameterized")
  else if IsParameterized new && negb (IsParameterized old) then Some (errorf "cannot update parameterized job to being non-parameterized")
  else None.

(** The index that a request enforces. *)
Definition enforceIndex (args : JobRegisterRequest) (existingJob : option Job) : option GoError :=
  if negb (jrr_EnforceIndex args) then None
  else
    let jmi := jrr_JobModifyIndex args in
    match existingJob with
    | Some existingJob =>
        if jmi =? 0 then Some (Errorf "%s 0: job already exists" [RegisterEnforceIndexErrPrefix])
        else if negb (jmi =? jb_JobModifyIndex existingJob)
        then Some (Errorf "%s %d: job exists with conflicting job modify index: %d" [RegisterEnforceIndexErrPrefix; formatInt jmi; formatInt (jb_JobModifyIndex existingJob)])
        else None
    | None => if negb (jmi =? 0) then Some (Errorf "%s %d: job does not exist" [RegisterEnforceIndexErrPrefix; formatInt jmi]) else None
    end.

Definition VaultPoliciesSet (policies : gmap string (gmap string Vault)) : list string :=
  keysOf (list_to_set (concat ((fun tgp => concat ((fun tp => va_Policies tp.2) <$> range tgp.2)) <$> range policies))).

Definition SliceStringIsSubset (larger smaller : list string) : bool * list string :=
  let offending := filter (fun s => s ∉ larger) smaller in ((length offending =? 0)%nat, offending).

(** Whether the token of the request gives the policies of the job. *)
Definition checkPolicies job (vaultToken : string) : option GoError :=
  let policies := VaultPolicies job in
  if (size policies =? 0)%nat then None
  else if negb vaultEnabled then Some (errorf "Vault not enabled and Vault policies requested")
  else if vaultAllowsUnauthenticated then None
  else if bool_decide (vaultToken = "") then Some (errorf "Vault policies requested but missing Vault Token")
  else match tokenPolicies vaultToken with
       | inl err => Some err
       | inr allowedPolicies =>
           if bool_decide ("root" ∈ allowedPolicies) then None
           else let '(subset, offending) := SliceStringIsSubset allowedPolicies (VaultPoliciesSet policies) in
                if subset then None
                else Some (Errorf "Passed Vault Token doesn't allow access to the following policies: %s" [String.concat ", " offending])
       end.

Definition refuse (err : option GoError) : Srv Server unit := match err with Some err => srvErr err | None => mret tt end.

(** The defaults and the implicit constraints. *)
Definition preparedJob job : Job := setImplicitConstraints (JobCanonicalize job).1.

(** The checks of a registration: the job as it is stored, and the job it replaces. *)
Definition checkRegister (args : JobRegisterRequest) (vaultToken : string) : Srv Server (Job * option Job) :=
  match jrr_Job args with
  | None => srvErr (errorf "missing job for registration")
  | Some job =>
      let job := preparedJob job in
      refuse (validateJob job) ≫= fun _ =>
      snap ← serverState;
      existingJob ← srvTry (JobByID snap (jb_ID job));
      refuse (enforceIndex args existingJob) ≫= fun _ =>
      refuse (existingJob ≫= fun old => validateJobUpdate old job) ≫= fun _ =>
      refuse (checkPolicies job vaultToken) ≫= fun _ =>
      mret (job, existingJob)
  end.

Definition jobEval (id : string) job (index : Z) : Evaluation :=
  zeroEvaluation <| ev_ID := id |> <| ev_Priority := jb_Priority job |> <| ev_Type := jb_Type job |>
    <| ev_TriggeredBy := EvalTriggerJobRegister |> <| ev_JobID := jb_ID job |> <| ev_JobModifyIndex := index |>
    <| ev_Status := EvalStatusPending |>.

Definition submitted job : Srv Server Job := fun sv => Some (inr (job <| jb_SubmitTime := wallClock (sv_index sv) - TimeUnix 0 |>), sv).
Definition drawUUID (k : nat) : Srv Server string := fun sv => Some (inr (newUUID (sv_index sv) k), sv).

(** Commits a job that is new or has changed, and an evaluation; the index of the job. *)
Definition commitJob (args : JobRegisterRequest) job (existingJob : option Job) : Srv Server Z :=
  if match existingJob with None => true | Some old => SpecChanged old job end then
    job ← submitted job;
    r ← raftApply JobRegisterRequestType (mkJobRegisterRequest (Some job) (jrr_EnforceIndex args) (jrr_JobModifyIndex args));
    mret r.2
  else mret (from_option jb_JobModifyIndex 0 existingJob).

Definition commitRegister (args : JobRegisterRequest) job (existingJob : option Job) : Srv Server JobRegisterResponse :=
  index ← commitJob args job existingJob;
  if IsPeriodic job || IsParameterized job then mret (mkJobRegisterResponse "" 0 index 0)
  else
    id ← drawUUID 0;
    let eval := jobEval id job index in
    evalIndex ← commitEvals [eval];
    mret (mkJobRegisterResponse (ev_ID eval) evalIndex index evalIndex).

Definition JobRegister (args : JobRegisterRequest) (vaultToken : string) : Srv Server JobRegisterResponse :=
  checked ← checkRegister args vaultToken;
  commitRegister args checked.1 checked.2.

(** ** Other requests *)

Definition versionOf (snap : StateStore) (id : string) (version : Z) : Srv Server Job :=
  jobV ← srvTry (JobByIDAndVersion snap id version);
  match jobV with
  | None => srvErr (Errorf "job %q at version %d not found" [id; formatInt version])
  | Some jobV => mret jobV
  end.

(** Stored jobs have no Vault token. *)
Definition JobRevert (args : JobRevertRequest) : Srv Server JobRegisterResponse :=
  if bool_decide (jv_JobID args = "") then srvErr (errorf "missing job ID for revert")
  else
    snap ← serverState;
    cur ← srvTry (JobByID snap (jv_JobID args));
    match cur with
    | None => srvErr (Errorf "job %q not found" [jv_JobID args])
    | Some cur =>
        if jv_JobVersion args =? jb_Version cur then srvErr (errorf "can't revert to current version")
        else
          jobV ← versionOf snap (jv_JobID args) (jv_JobVersion args);
          match jv_EnforcePriorVersion args with
          | None => JobRegister (mkJobRegisterRequest (Some jobV) false 0) ""
          | Some v =>
              if negb (jb_Version cur =? v)
              then srvErr (Errorf "Current job has version %d; enforcing version %d" [formatInt (jb_Version cur); formatInt v])
              else JobRegister (mkJobRegisterRequest (Some jobV) true (jb_JobModifyIndex cur)) ""
          end
    end.

Definition JobStable (args : JobStabilityRequest) : Srv Server Z :=
  if bool_decide (jst_JobID args = "") then srvErr (errorf "missing job ID for marking job as stable")
  else
    snap ← serverState;
    versionOf snap (jst_JobID args) (jst_JobVersion args) ≫= fun _ =>
    r ← raftApply JobStabilityRequestType args;
    mret r.2.

Definition JobEvaluate (jobID : string) : Srv Server JobRegisterResponse :=
  if bool_decide (jobID = "") then srvErr (errorf "missing job ID for evaluation")
  else
    snap ← serverState;
    job ← srvTry (JobByID snap jobID);
    match job with
    | None => srvErr (errorf "job not found")
    | Some job =>
        if IsPeriodic job then srvErr (errorf "can't evaluate periodic job")
        else if IsParameterized job then srvErr (errorf "can't evaluate parameterized job")
        else
          id ← drawUUID 0;
          let eval := jobEval id job (jb_ModifyIndex job) in
          evalIndex ← commitEvals [eval];
          mret (mkJobRegisterResponse (ev_ID eval) evalIndex (jb_ModifyIndex job) evalIndex)
    end.

Definition JobDefaultPriority : Z := 50.
Definition deregisterEval (id jobID : string) (index : Z) : Evaluation :=
  zeroEvaluation <| ev_ID := id |> <| ev_Priority := JobDefaultPriority |> <| ev_Type := JobTypeService |>
    <| ev_TriggeredBy := EvalTriggerJobDeregister |> <| ev_JobID := jobID |> <| ev_JobModifyIndex := index |>
    <| ev_Status := EvalStatusPending |>.

Definition JobDeregisterRPC (args : JobDeregisterRequest) : Srv Server JobRegisterResponse :=
  if bool_decide (jdr_JobID args = "") then srvErr (errorf "missing job ID for deregistering")
  else
    snap ← serverState;
    job ← srvTry (JobByID snap (jdr_JobID args));
    r ← raftApply JobDeregisterRequestType args;
    if match job with Some job => IsPeriodic job || IsParameterized job | None => false end then mret (mkJobRegisterResponse "" 0 r.2 0)
    else
      id ← drawUUID 0;
      let eval := deregisterEval id (jdr_JobID args) r.2 in
      evalIndex ← commitEvals [eval];
      mret (mkJobRegisterResponse (ev_ID eval) evalIndex r.2 evalIndex).

(** ** Dispatching parameterized jobs *)

(** The loop that looks for duplicate keys ranges over a set that is still empty. *)
Definition validateDispatchRequest (req : JobDispatchRequest) (config : ParameterizedJobConfig) : option GoError :=
  let hasInputData := bool_decide (jp_Payload req ≠ "") in
  if bool_decide (pj_Payload config = DispatchPayloadRequired) && negb hasInputData
  then Some (errorf "Payload is not provided but required by parameterized job")
  else if bool_decide (pj_Payload config = DispatchPayloadForbidden) && hasInputData
  then Some (errorf "Payload provided but forbidden by parameterized job")
  else
    let l := String.length (jp_Payload req) in
    if (DispatchPayloadSizeLimit <? l)%nat
    then Some (Errorf "Payload exceeds maximum size; %d > %d" [formatInt (Z.of_nat l); formatInt (Z.of_nat DispatchPayloadSizeLimit)])
    else
      let unpermitted := filter (fun k => (k ∉ pj_MetaRequired config) ∧ (k ∉ pj_MetaOptional config)) (dom (jp_Meta req)) in
      if negb (size unpermitted =? 0)%nat
      then Some (Errorf "Dispatch request included unpermitted metadata keys: %v" (keysOf unpermitted))
      else
        let missing : gset string := list_to_set (filter (fun k => jp_Meta req !! k = None) (pj_MetaRequired config)) in
        if negb (size missing =? 0)%nat
        then Some (Errorf "Dispatch did not provide required meta keys: %v" (keysOf missing))
        else None.

Definition DispatchedID (templateID : string) (t : Z) (uuid : string) : string :=
  templateID +:+ DispatchLaunchSuffix +:+ formatInt (UnixOf t) +:+ "-" +:+ String.substring 0 8 uuid.

(** The job that is dispatched. *)
Definition derivedJob job (args : JobDispatchRequest) (id : string) : Job :=
  job <| jb_ParameterizedJob := None |> <| jb_ID := id |> <| jb_ParentID := jb_ID job |> <| jb_Name := id |>
      <| jb_Meta := jp_Meta args ∪ jb_Meta job |> <| jb_Payload := snappyEncode (jp_Payload args) |>.

Definition commitDispatch (dispatchJob : Job) : Srv Server JobDispatchResponse :=
  r ← raftApply JobRegisterRequestType (mkJobRegisterRequest (Some dispatchJob) false 0);
  if IsPeriodic dispatchJob then mret (mkJobDispatchResponse (jb_ID dispatchJob) "" 0 r.2 r.2)
  else
    id ← drawUUID 0;
    let eval := jobEval id dispatchJob r.2 in
    evalIndex ← commitEvals [eval];
    mret (mkJobDispatchResponse (jb_ID dispatchJob) (ev_ID eval) evalIndex r.2 evalIndex).

Definition JobDispatch (args : JobDispatchRequest) : Srv Server JobDispatchResponse :=
  if bool_decide (jp_JobID args = "") then srvErr (errorf "missing parameterized job ID")
  else
    snap ← serverState;
    parameterizedJob ← srvTry (JobByID snap (jp_JobID args));
    match parameterizedJob with
    | None => srvErr (errorf "parameterized job not found")
    | Some job =>
        match jb_ParameterizedJob job with
        | None => srvErr (Errorf "Specified job %q is not a parameterized job" [jp_JobID args])
        | Some config =>
            if jb_Stop job then srvErr (Errorf "Specified job %q is stopped" [jp_JobID args])
            else
              refuse (validateDispatchRequest args config) ≫= fun _ =>
              sv ← getServer;
              dispatchJob ← submitted (derivedJob job args (DispatchedID (jb_ID job) (wallClock (sv_index sv)) (newUUID (sv_index sv) 0)));
              commitDispatch dispatchJob
        end
    end.

(** ** The server as the core scheduler uses it *)

#[export] Instance ServerCore : CoreServer Server := {|
  srvTimeTable sv := fs_timetable (sv_fsm sv);
  EvalReap := EvalReapRPC;
  JobDeregister req := JobDeregisterRPC req ≫= fun _ => mret tt;
  NodeDeregister := NodeDeregisterRPC;
  DeploymentReap := DeploymentReapRPC
|}.
End jobs.
