(* ===== verification/ServerProps.v ===== *)
(** * What the endpoint of jobs guarantees

    Registering the same job again changes nothing, except when its tasks still ask for
    disk; a dispatched job keeps the contract of the parameterized one; and two
    registrations that enforce the same index can both succeed. *)

From stdpp Require Import base gmap strings list sorting.
From Stdlib Require Import ZArith Lia Ascii.
From S2P Require Import StoreStatus StoreAllocs StoreVersions StoreProps ServerJobs Prelude GoText GoHeap Timers PlanQueue Structs EvalBroker EvalBrokerCore EvalBrokerInv EvalBrokerProps BlockedEvals BlockedEvalsProps Resources Jobs Allocs Network NetworkAssign Fit Plans SchedContext Feasible Stack SchedUtil MemDB MemDBSpec StateStore StoreSpec StoreInv StoreQuery TimeTable Periodic PeriodicProps JobCanon Harness Fsm FsmRestore FsmSpec FsmProps CoreSched Server.
Open Scope string_scope.
Open Scope list_scope.
Open Scope Z_scope.

(** ** Changes of the groups of a job *)

Definition mapGroups (f : TaskGroup → TaskGroup) (j : Job) : Job := j <| jb_TaskGroups ::= fmap f |>.

Lemma mapGroups_id f j : (∀ tg, tg ∈ jb_TaskGroups j → f tg = tg) → mapGroups f j = j.
Proof.
  intros Hf. destruct j. unfold mapGroups, upd_field. cbn -[fmap] in *. f_equal. induction jb_TaskGroups as [|tg l IH]; [done|].
  rewrite fmap_cons, Hf by left. f_equal. apply IH. intros tg' Htg. apply Hf. by right.
Qed.

Lemma mapGroups_fixed f j : mapGroups f j = j → ∀ tg, tg ∈ jb_TaskGroups j → f tg = tg.
Proof.
  intros E tg [i Hi]%list_elem_of_lookup. apply (f_equal jb_TaskGroups) in E. cbn in E.
  apply (f_equal (fun l => l !! i)) in E. rewrite list_lookup_fmap, Hi in E. by injection E.
Qed.

Section implicit.
Context `{RangeOrder}.
Implicit Types (j : Job) (tg : TaskGroup).

(** The two maps depend on the names and the tasks only. *)
Record keepsTasks (f : TaskGroup → TaskGroup) : Prop := {
  kt_name tg : tg_Name (f tg) = tg_Name tg;
  kt_vault tg : tasksVault (f tg) = tasksVault tg;
  kt_signals tg m : foldl (addSignals (f tg)) m (tg_Tasks (f tg)) = foldl (addSignals tg) m (tg_Tasks tg)
}.

Lemma VaultPolicies_map f j : keepsTasks f → VaultPolicies (mapGroups f j) = VaultPolicies j.
Proof.
  intros Hf. unfold VaultPolicies. cbn. generalize (∅ : gmap string (gmap string Vault)). induction (jb_TaskGroups j) as [|tg l IH]; intros m; [done|].
  rewrite fmap_cons. cbn [foldl]. by rewrite (kt_name f Hf), (kt_vault f Hf), IH.
Qed.
Lemma RequiredSignals_map f j : keepsTasks f → RequiredSignals (mapGroups f j) = RequiredSignals j.
Proof.
  intros Hf. unfold RequiredSignals. cbn. generalize (∅ : gmap string (gmap string (list string))). induction (jb_TaskGroups j) as [|tg l IH]; intros m; [done|].
  rewrite fmap_cons. cbn [foldl]. by rewrite (kt_signals f Hf), IH.
Qed.

(** The constraints of a group with an implicit one, and with both. *)
Definition withConstraint (c : Constraint) (l : list Constraint) : list Constraint :=
  if existsb (fun x => ConstraintEqual x c) l then l else l ++ [c].
Definition implicit j tg : list Constraint :=
  let l := match VaultPolicies j !! tg_Name tg with None => tg_Constraints tg | Some _ => withConstraint vaultConstraint (tg_Constraints tg) end in
  match RequiredSignals j !! tg_Name tg with
  | None => l
  | Some s => withConstraint (getSignalConstraint (MapStringStringSliceValueSet s)) l
  end.
Definition setConstraints (K : TaskGroup → list Constraint) tg : TaskGroup := tg <| tg_Constraints := K tg |>.

Lemma setConstraints_keeps K : keepsTasks (setConstraints K).
Proof. split; intros []; try done. Qed.

Lemma setImplicitConstraints_eq j : setImplicitConstraints j = mapGroups (setConstraints (implicit j)) j.
Proof.
  unfold setImplicitConstraints. destruct (_ && _) eqn:E.
  - apply andb_true_iff in E as [E1%Nat.eqb_eq%map_size_empty_inv E2%Nat.eqb_eq%map_size_empty_inv]. symmetry. apply mapGroups_id.
    intros tg _. unfold setConstraints, implicit. rewrite E1, E2, !lookup_empty. by destruct tg.
  - destruct j. unfold mapGroups, upd_field. cbn -[fmap VaultPolicies RequiredSignals]. f_equal. rewrite <- list_fmap_compose. apply list_fmap_ext. intros i tg _.
    cbn -[VaultPolicies RequiredSignals]. unfold setConstraints, implicit, addConstraint, withConstraint.
    destruct tg. cbn -[VaultPolicies RequiredSignals]. repeat (case_match; cbn -[VaultPolicies RequiredSignals] in *; simplify_eq); try done.
Qed.

Lemma withConstraint_has c l : existsb (fun x => ConstraintEqual x c) (withConstraint c l) = true.
Proof. unfold withConstraint. case_match eqn:E; [done|]. rewrite existsb_app. cbn. unfold ConstraintEqual at 2. by rewrite !bool_decide_eq_true_2, orb_true_r. Qed.
Lemma withConstraint_keeps c d l : existsb (fun x => ConstraintEqual x c) l = true → existsb (fun x => ConstraintEqual x c) (withConstraint d l) = true.
Proof. intros E. unfold withConstraint. case_match; [done|]. by rewrite existsb_app, E. Qed.
Lemma withConstraint_present c l : existsb (fun x => ConstraintEqual x c) l = true → withConstraint c l = l.
Proof. unfold withConstraint. by intros ->. Qed.

(** Whatever changes a group and keeps its tasks, its implicit constraints are as before. *)
Lemma implicit_map f j tg : keepsTasks f → implicit (mapGroups f j) tg = implicit j tg.
Proof. intros Hf. unfold implicit. by rewrite VaultPolicies_map, RequiredSignals_map. Qed.

Lemma implicit_idem j tg : implicit j (setConstraints (implicit j) tg) = implicit j tg.
Proof.
  unfold setConstraints. unfold implicit at 1 3. destruct tg as [name count update cs tasks disk meta]. cbn -[VaultPolicies RequiredSignals]. unfold implicit. cbn -[VaultPolicies RequiredSignals].
  destruct (VaultPolicies j !! name), (RequiredSignals j !! name); try done.
  - rewrite (withConstraint_present vaultConstraint (withConstraint _ (withConstraint _ _))) by apply withConstraint_keeps, withConstraint_has.
    apply withConstraint_present, withConstraint_has.
  - apply withConstraint_present, withConstraint_has.
  - apply withConstraint_present, withConstraint_has.
Qed.

(** The job has its implicit constraints. *)
Definition complete j : Prop := ∀ tg, tg ∈ jb_TaskGroups j → implicit j tg = tg_Constraints tg.

Lemma complete_fixed j : complete j → setImplicitConstraints j = j.
Proof. intros Hj. rewrite setImplicitConstraints_eq. apply mapGroups_id. intros tg Htg. unfold setConstraints. rewrite Hj by done. by destruct tg. Qed.

Lemma setImplicitConstraints_complete j : complete (setImplicitConstraints j).
Proof.
  rewrite setImplicitConstraints_eq. intros tg Htg. rewrite implicit_map by apply setConstraints_keeps.
  apply list_elem_of_fmap in Htg as (tg0 & -> & _). apply implicit_idem.
Qed.

Lemma complete_map f j : keepsTasks f → (∀ tg, tg_Constraints (f tg) = tg_Constraints tg) → complete j → complete (mapGroups f j).
Proof.
  intros Hf Hc Hj tg Htg. apply list_elem_of_fmap in Htg as (tg0 & -> & Hin). rewrite implicit_map by done.
  unfold implicit. rewrite (kt_name f Hf), Hc. by apply Hj.
Qed.
End implicit.

(** ** Canonical jobs *)

Section canonical.
Context `{UpperLib}.
Implicit Types (j : Job) (tg : TaskGroup).

Definition canonical j : Prop := (JobCanonicalize j).1 = j.

(** By the groups, the parameters and the update block. *)
Lemma canonical_iff j : canonical j ↔ (∀ tg, tg ∈ jb_TaskGroups j → changeGroups j (TaskGroupCanonicalize tg) = tg) ∧
  (ParameterizedCanonicalize <$> jb_ParameterizedJob j) = jb_ParameterizedJob j ∧
  (if bool_decide (jb_Type j = JobTypeBatch) then noUpdate else jb_Update j) = jb_Update j.
Proof.
  unfold canonical. rewrite JobCanonicalize_eq. split.
  - intros E. split_and!.
    + intros tg [i Hi]%list_elem_of_lookup. apply (f_equal (fun j => jb_TaskGroups j !! i)) in E. cbn in E.
      rewrite !list_lookup_fmap, Hi in E. cbn in E. congruence.
    + by apply (f_equal jb_ParameterizedJob) in E.
    + by apply (f_equal jb_Update) in E.
  - intros (E1 & E2 & E3). apply job_same; [|done|done]. rewrite <- list_fmap_compose. rewrite <- (list_fmap_id (jb_TaskGroups j)) at 2.
    apply list_fmap_ext. intros i tg Hi. apply E1. by eapply list_elem_of_lookup_2.
Qed.

Lemma canonical_map f j : (∀ tg, tg ∈ jb_TaskGroups j → changeGroups j (TaskGroupCanonicalize (f tg)) = f tg) → canonical j → canonical (mapGroups f j).
Proof.
  intros Hf (_ & E2 & E3)%canonical_iff. apply canonical_iff. split_and!; [|done|done].
  assert (changeGroups (mapGroups f j) = changeGroups j) as -> by (unfold changeGroups, mapGroups; cbn; by rewrite length_fmap).
  intros tg Htg. apply list_elem_of_fmap in Htg as (tg0 & -> & Hin). auto.
Qed.

Lemma changeGroups_constraints j tg c : changeGroups j (TaskGroupCanonicalize (tg <| tg_Constraints := c |>)) = (changeGroups j (TaskGroupCanonicalize tg)) <| tg_Constraints := c |>.
Proof. destruct tg. unfold changeGroups. case_bool_decide; [done|]. destruct (hasOldUpdate _); [|done]. unfold upgradeGroup. cbn. by destruct (newSyntax _). Qed.

Lemma canonical_constraints j K : canonical j → canonical (mapGroups (setConstraints K) j).
Proof.
  intros Hj. apply canonical_map; [|done]. apply canonical_iff in Hj as (E1 & _). intros tg Htg. unfold setConstraints. by rewrite changeGroups_constraints, E1.
Qed.
End canonical.

(** ** Registering the same job again *)

Section again.
Context `{CaseLib} `{!CaseLaws} `{RangeOrder} `{UpperLib} `{!UpperLaws}.
Implicit Types (j job : Job) (tg : TaskGroup).

(** A job without what the server keeps in it. *)
Definition spec j : Job :=
  j <| jb_Status := "" |> <| jb_StatusDescription := "" |> <| jb_Stable := false |> <| jb_Version := 0 |> <| jb_CreateIndex := 0 |>
    <| jb_ModifyIndex := 0 |> <| jb_JobModifyIndex := 0 |> <| jb_SubmitTime := 0 |>.

(** A job with what the server keeps in another one. *)
Definition kept j job : Job :=
  job <| jb_Status := jb_Status j |> <| jb_StatusDescription := jb_StatusDescription j |> <| jb_Stable := jb_Stable j |>
    <| jb_Version := jb_Version j |> <| jb_CreateIndex := jb_CreateIndex j |> <| jb_ModifyIndex := jb_ModifyIndex j |>
    <| jb_JobModifyIndex := jb_JobModifyIndex j |> <| jb_SubmitTime := jb_SubmitTime j |>.

Lemma kept_spec j job : kept j (spec job) = kept j job.
Proof. by destruct job. Qed.
Lemma spec_kept j job : spec (kept j job) = spec job.
Proof. by destruct job. Qed.
Lemma kept_self j : kept j j = j.
Proof. by destruct j. Qed.

Lemma SpecChanged_spec old new : SpecChanged old new = false ↔ spec old = spec new.
Proof.
  unfold SpecChanged. fold (kept old new). rewrite negb_false_iff, bool_decide_eq_true. split; [intros ->; apply spec_kept|].
  intros E. by rewrite <- kept_spec, <- E, kept_spec, kept_self.
Qed.

Lemma canonical_spec j : canonical j ↔ canonical (spec j).
Proof. by rewrite !canonical_iff. Qed.
Lemma complete_spec j : complete j ↔ complete (spec j).
Proof. done. Qed.

(** Tasks that ask for no disk. *)
Definition noTaskDisk tg : Prop := Forall (fun t => r_DiskMB (tk_Resources t) = 0) (tg_Tasks tg).

Lemma withoutTaskDisk_same tg : withoutTaskDisk tg = tg ↔ noTaskDisk tg.
Proof.
  destruct tg as [name count update cs tasks disk meta]. unfold withoutTaskDisk, noTaskDisk, upd_field. cbn -[fmap]. split.
  - intros E. injection E as E. induction tasks as [|t l IH]; [constructor|]. rewrite fmap_cons in E. injection E as E1 E2. constructor; [|by apply IH]. by rewrite <- E1.
  - intros Hd. f_equal. induction Hd as [|t l Ht _ IH]; [done|]. rewrite fmap_cons, IH. f_equal. destruct t as [n1 n2 n3 n4 n5 n6 n7 n8 n9 r n11 n12 n13]. cbn in *.
    destruct r. cbn in Ht. by rewrite Ht.
Qed.

Lemma withoutTaskDisk_keeps : keepsTasks withoutTaskDisk.
Proof.
  split; intros []; cbn -[fmap]; [done| |]; unfold tasksVault; cbn -[fmap].
  - generalize (∅ : gmap string Vault). induction tg_Tasks as [|t l IH]; intros m; [done|]. rewrite fmap_cons. cbn [foldl]. by rewrite <- IH.
  - induction tg_Tasks as [|t l IH]; intros m; [done|]. rewrite fmap_cons. cbn [foldl]. by rewrite <- IH.
Qed.

Lemma taskDisk_without tg : taskDisk (withoutTaskDisk tg) = 0.
Proof.
  unfold taskDisk. destruct tg as [name count update cs tasks disk meta]. cbn -[fmap foldl]. induction tasks as [|t l IH]; [done|]. rewrite fmap_cons. cbn [foldl]. exact IH.
Qed.

Lemma changeGroups_disk j x d : changeGroups j ((withoutTaskDisk x) <| tg_EphemeralDisk := d |>) = (withoutTaskDisk (changeGroups j x)) <| tg_EphemeralDisk := d |>.
Proof. destruct x. unfold changeGroups. case_bool_decide; [done|]. destruct (hasOldUpdate _); [|done]. unfold upgradeGroup. cbn. by destruct (newSyntax _). Qed.

Lemma canonical_without_disk j tg : changeGroups j (TaskGroupCanonicalize tg) = tg →
  is_Some (tg_EphemeralDisk tg) ∧ changeGroups j (TaskGroupCanonicalize (withoutTaskDisk tg)) = withoutTaskDisk tg.
Proof.
  intros E. assert (is_Some (tg_EphemeralDisk tg)) as Hd.
  { rewrite <- E. unfold changeGroups. case_bool_decide; [by eexists|]. destruct (hasOldUpdate _); [|by eexists]. unfold upgradeGroup. by destruct (newSyntax _); eexists. }
  split; [done|]. destruct Hd as [d Hd].
  assert (TaskGroupCanonicalize (withoutTaskDisk tg) = (withoutTaskDisk (TaskGroupCanonicalize tg)) <| tg_EphemeralDisk := Some d |>) as ->.
  { unfold TaskGroupCanonicalize. set (x := (withoutTaskDisk tg) <| tg_Tasks ::= fmap TaskCanonicalize |>).
    assert (x = withoutTaskDisk (tg <| tg_Tasks ::= fmap TaskCanonicalize |>)) as ->.
    { unfold x. destruct tg as [name count update cs tasks disk meta]. unfold withoutTaskDisk, upd_field. cbn -[fmap]. f_equal. rewrite <- !list_fmap_compose.
      apply list_fmap_ext. intros i t _. cbn. destruct t. unfold TaskCanonicalize. cbn -[Z.eqb fmap]. by destruct (_ =? 0). }
    rewrite taskDisk_without. cbn [Z.ltb Z.compare]. destruct tg. cbn in Hd |- *. by rewrite Hd. }
  rewrite changeGroups_disk, E. destruct tg. cbn in Hd. by rewrite Hd.
Qed.

Lemma addEphemeralDisk_canonical j : canonical j → addEphemeralDiskToTaskGroups j = mapGroups withoutTaskDisk j.
Proof.
  intros (E & _)%canonical_iff. unfold addEphemeralDiskToTaskGroups, mapGroups. destruct j. unfold upd_field. cbn -[fmap] in *. f_equal.
  apply list_fmap_ext. intros i tg Hi. destruct (canonical_without_disk _ tg (E tg ltac:(by eapply list_elem_of_lookup_2))) as [[d Hd] _].
  destruct tg. cbn in Hd. by rewrite Hd.
Qed.

Lemma registered_spec index job keep ex st : canonical job → spec (registered index job keep ex st) = mapGroups withoutTaskDisk (spec job).
Proof.
  intros Hj. unfold registered. set (job' := match ex with Some _ => _ | None => _ end).
  assert (spec job' = spec job) as Es by (unfold job'; destruct ex; [destruct keep|]; by destruct job).
  clearbody job'. assert (spec (job' <| jb_Status := st |>) = spec job') as Est by (by destruct job'). rewrite <- Est in Es.
  revert Es. generalize (job' <| jb_Status := st |>). intros k Es.
  rewrite addEphemeralDisk_canonical by (apply canonical_spec; rewrite Es; by apply (proj1 (canonical_spec job))).
  rewrite <- Es. by destruct k.
Qed.

Lemma preparedJob_canonical job : canonical (preparedJob job).
Proof.
  unfold preparedJob. rewrite setImplicitConstraints_eq. apply canonical_constraints. apply JobCanonicalize_idem.
Qed.

Lemma prepared_fixed j : canonical j → complete j → preparedJob j = j.
Proof. intros Hc Hj. unfold preparedJob. rewrite Hc. by apply complete_fixed. Qed.

End again.

(** ** Dispatching *)

Section dispatch.
Context `{CaseLib} `{RangeOrder} `{TextLibs} `{StackLibs} `{SchedEnv} `{UpperLib} `{CronLib} `{RequestCodec} `{ServerEnv} `{JobEnv}.
Implicit Types (sv : Server) (args : JobDispatchRequest).

(** What the configuration of a parameterized job asks of a request. *)
Record dispatchable args (config : ParameterizedJobConfig) : Prop := {
  da_payload : pj_Payload config = DispatchPayloadRequired → jp_Payload args ≠ "";
  da_forbidden : pj_Payload config = DispatchPayloadForbidden → jp_Payload args = "";
  da_size : (String.length (jp_Payload args) ≤ DispatchPayloadSizeLimit)%nat;
  da_permitted k : is_Some (jp_Meta args !! k) → k ∈ pj_MetaRequired config ∨ k ∈ pj_MetaOptional config;
  da_required k : k ∈ pj_MetaRequired config → is_Some (jp_Meta args !! k)
}.

Lemma validateDispatchRequest_spec args config : validateDispatchRequest args config = None ↔ dispatchable args config.
Proof.
  unfold validateDispatchRequest.
  destruct (bool_decide (pj_Payload config = DispatchPayloadRequired) && _) eqn:E1.
  { apply andb_true_iff in E1 as [E%bool_decide_eq_true E'%negb_true_iff%bool_decide_eq_false]. split; [done|]. intros [Hd _ _ _ _]. by destruct E'; apply Hd. }
  destruct (bool_decide (pj_Payload config = DispatchPayloadForbidden) && _) eqn:E2.
  { apply andb_true_iff in E2 as [E%bool_decide_eq_true E'%bool_decide_eq_true]. split; [done|]. intros [_ Hd _ _ _]. by rewrite Hd in E'. }
  destruct (Nat.ltb_spec DispatchPayloadSizeLimit (String.length (jp_Payload args))) as [Hl|Hl]; [split; [done|intros []; lia]|].
  set (unp := filter _ _). destruct (size unp =? 0)%nat eqn:E3; cbn [negb].
  2: { split; [done|]. intros [_ _ _ Hd _]. apply Nat.eqb_neq in E3. destruct (size_pos_elem_of unp) as [k Hk]; [lia|].
       apply elem_of_filter in Hk as [[Hk1 Hk2] Hk%elem_of_dom]. destruct (Hd k Hk); done. }
  set (mis := list_to_set _). destruct (size mis =? 0)%nat eqn:E4; cbn [negb].
  2: { split; [done|]. intros [_ _ _ _ Hd]. apply Nat.eqb_neq in E4. destruct (size_pos_elem_of mis) as [k Hk]; [lia|].
       apply elem_of_list_to_set, list_elem_of_filter in Hk as [Hk1 Hk2]. destruct (Hd k Hk2). congruence. }
  split; [intros _|done]. apply Nat.eqb_eq, size_empty_inv in E3, E4. split.
  - intros E Hn. rewrite (bool_decide_eq_true_2 _ E) in E1. rewrite bool_decide_eq_false_2 in E1 by tauto. done.
  - intros E. rewrite (bool_decide_eq_true_2 _ E) in E2. apply bool_decide_eq_false in E2. by apply dec_stable.
  - done.
  - intros k Hk. destruct (decide (k ∈ pj_MetaRequired config)); [by left|]. right. apply dec_stable. intros Hn. apply (not_elem_of_empty (C := gset string) k), E3, elem_of_filter. split; [done|by apply elem_of_dom].
  - intros k Hk. apply not_eq_None_Some. intros Hn. apply (not_elem_of_empty (C := gset string) k), E4, elem_of_list_to_set, list_elem_of_filter. done.
Qed.

(** The job that a request dispatches. *)
Record dispatched (job : Job) args (child : Job) : Prop := {
  dj_parent : jb_ParentID child = jb_ID job;
  dj_id : ∃ suffix, jb_ID child = jb_ID job +:+ DispatchLaunchSuffix +:+ suffix;
  dj_plain : IsParameterized child = false;
  dj_meta k : jb_Meta child !! k = match jp_Meta args !! k with Some v => Some v | None => jb_Meta job !! k end;
  dj_payload : jb_Payload child = snappyEncode (jp_Payload args);
  dj_work : jb_TaskGroups child = jb_TaskGroups job ∧ jb_Type child = jb_Type job ∧ jb_Stop child = false
}.

(** C28. Dispatching keeps the contract of a parameterized job.  A request for a registered
    job that is not stopped goes through exactly if its payload and its metadata are what
    the configuration asks for, and then one child is committed, with the identifier of the
    parent as a prefix, the work of the parent, and the metadata of the request over that
    of the parent; otherwise the request fails and nothing is written. *)
Theorem dispatch_contract args sv job config :
  jp_JobID args ≠ "" → JobByID (fs_state (sv_fsm sv)) (jp_JobID args) = inr (Some job) → jb_ParameterizedJob job = Some config → jb_Stop job = false →
  (dispatchable args config → ∃ child, dispatched job args child ∧ JobDispatch args sv = commitDispatch child sv) ∧
  (¬ dispatchable args config → ∃ err, JobDispatch args sv = Some (inl err, sv)).
Proof.
  intros Hid Hj Hc Hs. unfold JobDispatch. rewrite bool_decide_eq_false_2 by done. unfold mbind, Srv_bind, serverState. rewrite Hj. cbn [srvTry mret Srv_ret].
  rewrite Hc, Hs. split.
  - intros Hd%validateDispatchRequest_spec. rewrite Hd. cbn [refuse mret Srv_ret]. unfold getServer, submitted. eexists. split; [|reflexivity].
    split; try done; cbn.
    + by eexists.
    + intros k. rewrite lookup_union. by destruct (jp_Meta args !! k), (jb_Meta job !! k).
  - intros Hd. destruct (validateDispatchRequest args config) as [err|] eqn:E; [|by apply validateDispatchRequest_spec in E].
    cbn [refuse]. assert (err ≠ GoPanic) as Hne.
    { intros ->. unfold validateDispatchRequest in E. by repeat case_match. }
    exists err. unfold srvErr. by destruct err.
Qed.
End dispatch.

(** * What the endpoints of a server guarantee

    A scheduler that no longer holds the evaluation it works on changes nothing; and a
    change of a node makes one evaluation for every job that it concerns. *)

Section fenced.
Context `{CaseLib} `{RangeOrder} `{TextLibs} `{StackLibs} `{SchedEnv} `{UpperLib} `{CronLib} `{RequestCodec} `{ServerEnv}.
Implicit Types (sv : Server) (id token : string).

Definition brokerOf sv : EvalBroker := BlockedEvals.evalBroker (fs_blockedEvals (sv_fsm sv)).

(** The evaluation is not delivered under the token. *)
Definition stale sv id token : Prop := ∀ ua, unack (brokerOf sv) !! id = Some ua → ua_Token ua ≠ token.

Lemma withBroker_same f err sv : f (brokerOf sv) = Some (brokerOf sv, Some err) → withBroker f sv = Some (inl (brokerError err), sv).
Proof. unfold withBroker, brokerOf. intros ->. by destruct sv as [[[] ? ? ?] ? ?]. Qed.

Lemma stale_reset sv id token : stale sv id token →
  ∃ err, outstandingReset id token sv = Some (inl (brokerError err), sv) ∧ (err = ErrNotOutstanding ∨ err = ErrTokenMismatch).
Proof.
  intros Ht. unfold outstandingReset, OutstandingReset. destruct (unack (brokerOf sv) !! id) as [ua|] eqn:E.
  - exists ErrTokenMismatch. split; [|auto]. apply withBroker_same. rewrite E. by rewrite bool_decide_false by (by apply Ht).
  - exists ErrNotOutstanding. split; [|auto]. apply withBroker_same. by rewrite E.
Qed.

(** C24. A scheduler that does not hold the evaluation any more is fenced off.  If its token is
    not the one under which the evaluation is delivered, because it was delivered again or
    acknowledged in the meantime, then updating the evaluation, creating a successor of it
    and blocking it again are refused, and nothing is written to the log, the store, the
    broker or the tracker. *)
Theorem stale_worker_fenced sv req eval :
  eu_Evals req = [eval] →
  (stale sv (ev_ID eval) (eu_EvalToken req) → ∃ err, EvalUpdate req sv = Some (inl err, sv) ∧ EvalReblock req sv = Some (inl err, sv)) ∧
  (stale sv (ev_PreviousEval eval) (eu_EvalToken req) → ∃ err, EvalCreate req sv = Some (inl err, sv)).
Proof.
  intros E. unfold EvalUpdate, EvalReblock, EvalCreate, singleEval, mbind, Srv_bind. rewrite E. cbn [mret Srv_ret].
  split; intros (err & -> & _)%stale_reset; by eexists.
Qed.
End fenced.

(** ** Evaluations for a node *)

Lemma evalsForJobs_total nodeID index uuid l : Forall (fun p : string * option Job => is_Some p.2) l →
  ∀ k seen, is_Some (evalsForJobs nodeID index uuid k seen l).
Proof.
  induction 1 as [|[j job] l [jb Hj] _ IH]; intros k seen; [by eexists|]. cbn in *. subst job. case_bool_decide; [by apply IH|]. cbn.
  destruct (IH (S k) ({[j]} ∪ seen)) as [evs ->]. by eexists.
Qed.

Lemma evalsForJobs_spec nodeID index uuid l : ∀ k seen evs, evalsForJobs nodeID index uuid k seen l = Some evs →
  (ev_ID <$> evs) = (uuid <$> seq k (length evs)) ∧ NoDup (ev_JobID <$> evs) ∧
  (∀ j, j ∈ (ev_JobID <$> evs) ↔ (j ∉ seen) ∧ ∃ job, (j, job) ∈ l) ∧
  Forall (fun e => ∃ job, (ev_JobID e, Some job) ∈ l ∧ e = nodeEval (ev_ID e) job (ev_JobID e) nodeID index) evs.
Proof.
  induction l as [|[j job] l IH]; intros k seen evs; cbn.
  { intros [= <-]. split_and!; [done|constructor| |constructor]. intros j. rewrite elem_of_nil. split; [done|]. by intros (_ & ? & ?%not_elem_of_nil). }
  case_bool_decide as Hj.
  { intros (I1 & I2 & I3 & I4)%IH. split_and!; [done|done| |].
    - intros j'. rewrite I3. setoid_rewrite elem_of_cons. split; [naive_solver|]. intros (Hs & job' & [[= -> ->]|Hin]); [done|eauto].
    - eapply Forall_impl; [exact I4|]. intros e (jb & ? & ?). exists jb. split; [by right|done]. }
  destruct job as [jb|]; [|done]. cbn. destruct (evalsForJobs _ _ _ (S k) _ l) as [rest|] eqn:E; [|done]. intros [= <-]. apply IH in E as (I1 & I2 & I3 & I4).
  rewrite !fmap_cons. cbn [length seq]. split_and!.
  - rewrite fmap_cons. by f_equal.
  - constructor; [|done]. rewrite I3. cbn. set_solver.
  - intros j'. rewrite elem_of_cons, I3. cbn. setoid_rewrite elem_of_cons. split; [intros [->|(Hs & job' & Hin)]|intros (Hs & job' & [[= -> ->]|Hin])].
    + split; [done|]. exists (Some jb). by left.
    + split; [set_solver|]. exists job'. by right.
    + by left.
    + destruct (decide (j' = j)) as [->|]; [by left|]. right. split; [set_solver|eauto].
  - constructor; [exists jb; split; [by left|done]|]. eapply Forall_impl; [exact I4|]. intros e (jb' & ? & ?). exists jb'. split; [by right|done].
Qed.

Section node_evals.
Context `{CaseLib} `{RangeOrder} `{TextLibs} `{StackLibs} `{SchedEnv} `{UpperLib} `{CronLib} `{RequestCodec} `{ServerEnv}.
Implicit Types (sv : Server) (e : Evaluation).

(** The jobs that a change of a node concerns. *)
Definition concerned s (nodeID j : string) : Prop :=
  (∃ a, stored allocs s a ∧ onNode a nodeID ∧ al_JobID a = j) ∨ (∃ job, stored jobs s job ∧ jb_Type job = JobTypeSystem ∧ jb_ID job = j).

(** The job is known from an allocation of the node, or is a system job of the store. *)
Definition jobOfNode s (nodeID j : string) (job : Job) : Prop :=
  (∃ a, stored allocs s a ∧ onNode a nodeID ∧ al_JobID a = j ∧ al_Job a = Some job) ∨ (stored jobs s job ∧ jb_Type job = JobTypeSystem ∧ jb_ID job = j).

(** The messages of new evaluations. *)
Definition evalMessage (evs : list Evaluation) : string := bytes1 EvalUpdateRequestType +:+ encode (mkEvalUpdateRequest evs "").

Lemma Apply_evals clock index evs rest n n' : leading n → decode (encode (mkEvalUpdateRequest evs "")) = inr (mkEvalUpdateRequest evs "", rest) →
  Apply clock (mkRaftLog index (evalMessage evs)) n = Some (inr tt, n') →
  leading n' ∧ ∀ e, e ∈ evs → ev_Status e = EvalStatusPending → sink_accepts (evalBroker (fs_blockedEvals n')) (ev_ID e).
Proof.
  intros Hl Hd E. assert (∃ t, applyUpdateEval (encode (mkEvalUpdateRequest evs "")) index (n <| fs_timetable := t |>) = Some (inr tt, n')) as [t Et].
  { change (match (match TimeTable.Witness index (clock 0%nat) (fs_timetable n) with Some t => Some (inr tt : GoError + unit, n <| fs_timetable := t |>) | None => None end) with
            | None => None | Some (inl err, n) => Some (inl err, n) | Some (inr _, n) => applyUpdateEval (encode (mkEvalUpdateRequest evs "")) index n
            end = Some (inr tt, n')) in E. destruct (TimeTable.Witness _ _ _) as [t|]; [by exists t|done]. }
  clear E. revert Et. unfold applyUpdateEval, decodeRequest. rewrite Hd. unfold mbind, FSM_bind. cbn [mret FSM_ret].
  unfold storeOp. destruct (UpsertEvals _ _ _) as [[err|[]] s']; [by destruct err|]. cbn. intros E.
  assert (leading ((n <| fs_timetable := t |>) <| fs_state := s' |>)) as Hl2 by exact Hl.
  destruct (eachDo_handOn (stampedEval index s' <$> evs) _ n' Hl2 E) as [[Hl' _ _] Hp].
  split; [done|]. intros e He Hst. exact (Hp (stampedEval index s' e) ltac:(by apply list_elem_of_fmap_2) Hst).
Qed.

(** C23. A change of a node is followed up by exactly one evaluation for every job that it
    concerns: those with an allocation on the node and the system jobs.  Each is pending
    and for this node, with a fresh identifier and the type and the priority of the job.
    They are committed together, and once the entry is applied the broker has each of them
    in its care; with no such job nothing is committed. *)
Theorem node_evals_exact (nodeID : string) index sv (s := fs_state (sv_fsm sv)) :
  store_ok s → properString true nodeID → (∀ a, stored allocs s a → is_Some (al_Job a)) → leading (sv_fsm sv) →
  ∃ evs, NoDup (ev_JobID <$> evs) ∧ (∀ j, j ∈ (ev_JobID <$> evs) ↔ concerned s nodeID j) ∧
    (ev_ID <$> evs) = (newUUID (sv_index sv) <$> seq 0 (length evs)) ∧
    Forall (fun e => ∃ job, jobOfNode s nodeID (ev_JobID e) job ∧ e = nodeEval (ev_ID e) job (ev_JobID e) nodeID index) evs ∧
    createNodeEvals nodeID index sv = (if (length evs =? 0)%nat then mret ([], 0) else i ← commitEvals evs; mret (ev_ID <$> evs, i)) sv ∧
    ∀ rest n', decode (encode (mkEvalUpdateRequest evs "")) = inr (mkEvalUpdateRequest evs "", rest) →
      Apply (applyClock (sv_index sv + 1)) (mkRaftLog (sv_index sv + 1) (evalMessage evs)) (sv_fsm sv) = Some (inr tt, n') →
      ∀ e, e ∈ evs → sink_accepts (evalBroker (fs_blockedEvals n')) (ev_ID e).
Proof.
  intros Hs Hp Ha Hl. destruct (allocs_by_node_prefix s nodeID Hs Hp) as (als & Eal & Hal).
  destruct (jobs_by_scheduler s JobTypeSystem Hs ltac:(apply (bool_decide_unpack _); vm_compute; exact I)) as (sys & Esys & _ & Hsys).
  set (l := ((fun a => (al_JobID a, al_Job a)) <$> als) ++ ((fun j => (jb_ID j, Some j)) <$> sys)).
  assert (∀ j job, (j, job) ∈ l ↔ (∃ a, (stored allocs s a ∧ onNode a nodeID) ∧ al_JobID a = j ∧ al_Job a = job) ∨
            ∃ jb, (stored jobs s jb ∧ jb_Type jb = JobTypeSystem) ∧ jb_ID jb = j ∧ Some jb = job) as Hl'.
  { intros j job. unfold l. rewrite elem_of_app, !list_elem_of_fmap. setoid_rewrite Hal. setoid_rewrite Hsys. naive_solver. }
  destruct (evalsForJobs_total nodeID index (newUUID (sv_index sv)) l) with (k := 0%nat) (seen := ∅ : gset string) as [evs Eevs].
  { apply Forall_forall. intros [j job] [(a & [Hst _] & _ & <-)|(jb & _ & _ & <-)]%Hl'; [by apply Ha|by eexists]. }
  destruct (evalsForJobs_spec _ _ _ _ _ _ _ Eevs) as (I1 & I2 & I3 & I4). exists evs. split; [done|]. split; [|split; [done|split; [|split]]].
  - intros j. rewrite I3. setoid_rewrite Hl'. unfold concerned. split; [intros (_ & job & Hj)|intros Hj; split; [set_solver|]]; naive_solver.
  - eapply Forall_impl; [exact I4|]. intros e (job & Hin%Hl' & E). exists job. split; [|done]. unfold jobOfNode. naive_solver.
  - unfold createNodeEvals, mbind, Srv_bind, serverState. fold s. rewrite Eal, Esys. cbn [srvWrap mret Srv_ret].
    assert ((length als =? 0)%nat && (length sys =? 0)%nat = (length evs =? 0)%nat) as ->.
    { rewrite <- (length_fmap (fun a => (al_JobID a, al_Job a)) als), <- (length_fmap (fun j => (jb_ID j, Some j)) sys).
      apply eq_true_iff_eq. rewrite andb_true_iff, !Nat.eqb_eq. transitivity (l = []); [unfold l; rewrite app_nil, !length_zero_iff_nil; done|].
      split; [intros E; rewrite E in Eevs; by injection Eevs as <-|]. intros ->%nil_length_inv. destruct l as [|[j job] l']; [done|].
      exfalso. apply (not_elem_of_nil j), I3. split; [set_solver|exists job; left]. }
    destruct (length evs =? 0)%nat; [done|]. unfold getServer. fold l. by rewrite Eevs.
  - intros rest n' Hd E e He. destruct (Apply_evals _ _ _ _ _ _ Hl Hd E) as [_ Hacc]. apply (Hacc e He).
    eapply Forall_forall in I4 as (job & _ & ->); [done|exact He].
Qed.
End node_evals.
