(* ===== verification/Leader.v ===== *)
(** * Leadership (src/nomad/leader.go)

    What a server does when it becomes the leader and when it steps down, and the work of
    the leader's goroutines: it restores the broker, the tracker of blocked evaluations and
    the dispatcher of periodic jobs from the store, reaps evaluations that failed too often
    and duplicates of blocked ones, and schedules garbage collection.  The deployment
    watcher and the Vault client are arguments; the goroutines are started elsewhere, each
    definition here is one turn of their loops.  Serf and the set of Raft peers are left
    out. *)

From stdpp Require Import base gmap strings list sorting.
From Stdlib Require Import ZArith Lia.
From S2P Require Import Prelude GoText GoHeap Timers PlanQueue Structs EvalBroker EvalBrokerCore EvalBrokerInv EvalBrokerProps BlockedEvals BlockedEvalsProps Resources Jobs Allocs Network NetworkAssign Fit Plans SchedContext Feasible Stack SchedUtil MemDB MemDBSpec StateStore StoreSpec StoreInv StoreQuery TimeTable Periodic PeriodicProps JobCanon Harness Fsm FsmRestore FsmSpec FsmProps CoreSched Server.
Open Scope string_scope.
Open Scope list_scope.
Open Scope Z_scope.

Definition CoreJobPriority : Z := 200.
Definition EvalTriggerScheduled : string := "scheduled".

Section leader.
Context `{CaseLib} `{RangeOrder} `{TextLibs} `{StackLibs} `{SchedEnv} `{UpperLib} `{CronLib} `{RequestCodec} `{ServerEnv}.
Implicit Types (sv : Server).

Definition onFSM {A} (m : FSM A) : Srv Server A := fun sv =>
  match m (sv_fsm sv) with None => None | Some (r, n) => Some (r, sv <| sv_fsm := n |>) end.

(** A call with its error wrapped. *)
Definition wrapSrv {A} (f : string) (args : list string) (m : Srv Server A) : Srv Server A := fun sv =>
  match m sv with
  | Some (inl err, sv) => srvErr (wrapErr f args err) sv
  | r => r
  end.

(** ** Evaluations *)

Definition restoreEval (eval : Evaluation) : FSM unit :=
  enqueue ← orPanic (ShouldEnqueue eval);
  if (enqueue : bool) then onBroker (fun b => Enqueue b eval)
  else
    block ← orPanic (ShouldBlock eval);
    if (block : bool) then onBlocked (fun b => Block b eval) else mret tt.

Definition restoreEvals : Srv Server unit :=
  s ← serverState;
  l ← srvWrap "failed to get evaluations: %v" [] (Evals s);
  onFSM (eachDo l restoreEval).

(** ** Vault accessors *)

(** The accessors of allocations that have ended and of nodes that are down. *)
Definition shouldRevoke (s : StateStore) (va : VaultAccessor) : GoError + bool :=
  match AllocByID s (vac_AllocID va) with
  | inl err => inl (wrapErr "failed to lookup allocation %q: %v" [vac_AllocID va] err)
  | inr alloc =>
      if match alloc with None => true | Some alloc => Terminated alloc end then inr true
      else match NodeByID s (vac_NodeID va) with
           | inl err => inl (wrapErr "failed to lookup node %q: %v" [vac_NodeID va] err)
           | inr node => inr (match node with None => true | Some node => NodeTerminal node end)
           end
  end.

Fixpoint accessorsToRevoke (s : StateStore) (l : list VaultAccessor) : GoError + list VaultAccessor :=
  match l with
  | [] => inr []
  | va :: l =>
      match shouldRevoke s va with
      | inl err => inl err
      | inr revoke =>
          match accessorsToRevoke s l with
          | inl err => inl err
          | inr rest => inr (if (revoke : bool) then va :: rest else rest)
          end
      end
  end.

Definition restoreRevokingAccessors : Srv Server unit :=
  s ← serverState;
  l ← srvWrap "failed to get vault accessors: %v" [] (VaultAccessors s);
  revoke ← srvTry (accessorsToRevoke s l);
  if (length revoke =? 0)%nat then mret tt
  else match revokeTokens revoke with Some err => srvErr (wrapErr "failed to revoke tokens: %v" [] err) | None => mret tt end.

(** ** Periodic jobs (periodic.go) *)

(** [DispatchJob] registers a derived job and creates its evaluation. *)
Definition periodicEval (id : string) (job : Job) (index : Z) : Evaluation :=
  zeroEvaluation <| ev_ID := id |> <| ev_Priority := jb_Priority job |> <| ev_Type := jb_Type job |>
    <| ev_TriggeredBy := EvalTriggerPeriodicJob |> <| ev_JobID := jb_ID job |> <| ev_JobModifyIndex := index |>
    <| ev_Status := EvalStatusPending |>.

Definition ServerDispatchJob (job : Job) : Srv Server Evaluation :=
  sv ← getServer;
  let job := job <| jb_SubmitTime := wallClock (sv_index sv) - TimeUnix 0 |> in
  r ← raftApply JobRegisterRequestType (mkJobRegisterRequest (Some job) false 0);
  sv ← getServer;
  let eval := periodicEval (newUUID (sv_index sv) 0) job r.2 in
  evalIndex ← commitEvals [eval];
  mret (eval <| ev_CreateIndex := evalIndex |> <| ev_ModifyIndex := evalIndex |>).

Definition JobsByIDPrefix (s : StateStore) (id : string) : GoError + list Job := queryGet jobs s "id_prefix" [AString id].

(** Whether an evaluation is not finished or has an allocation that is not. *)
Fixpoint activeEvals (s : StateStore) (l : list Evaluation) : GoError + bool :=
  match l with
  | [] => inr false
  | eval :: l =>
      if negb (TerminalStatus eval) then inr true
      else match AllocsByEval s (ev_ID eval) with
           | inl err => inl err
           | inr als => if existsb (fun a => negb (AllocTerminal a)) als then inr true else activeEvals s l
           end
  end.

Fixpoint activeChildren (s : StateStore) (jobID : string) (l : list Job) : GoError + bool :=
  match l with
  | [] => inr false
  | child :: l =>
      if bool_decide (jb_ParentID child ≠ jobID) then activeChildren s jobID l
      else match EvalsByJob s (jb_ID child) with
           | inl err => inl err
           | inr evs => match activeEvals s evs with
                        | inl err => inl err
                        | inr true => inr true
                        | inr false => activeChildren s jobID l
                        end
           end
  end.

Definition ServerRunningChildren (sv : Server) (job : Job) : GoError + bool :=
  let s := fs_state (sv_fsm sv) in
  match JobsByIDPrefix s (jb_ID job +:+ PeriodicLaunchSuffix) with
  | inl err => inl err
  | inr l => activeChildren s (jb_ID job) l
  end.

(** The server as the periodic dispatcher sees it; [None] is a server that has crashed. *)
#[export] Instance ServerDispatcher : JobEvalDispatcher (option Server) := {
  DispatchJob w job :=
    match w ≫= ServerDispatchJob job with
    | Some (r, sv) => (r, Some sv)
    | None => (inl GoPanic, None)
    end;
  RunningChildren w job := match w with Some sv => ServerRunningChildren sv job | None => inl GoPanic end
}.

(** A call of the dispatcher that reads it only, and dispatches to the server. *)
Definition ServerForceRun (now : Z) (jobID : string) : Srv Server Evaluation := fun sv =>
  match ForceRun now (fs_periodicDispatcher (sv_fsm sv)) (Some sv) jobID with
  | (r, Some sv) => Some (r, sv)
  | (_, None) => None
  end.

(** [now] was read before the first job. *)
Definition restorePeriodicJob (now : Z) (job : Job) : Srv Server unit :=
  sv ← getServer;
  onFSM (fun n => match Add (wallClock (sv_index sv)) (fs_periodicDispatcher n) job with
                  | None => None
                  | Some (_, p) => Some (inr tt, n <| fs_periodicDispatcher := p |>)
                  end) ≫= fun _ =>
  s ← serverState;
  match PeriodicLaunchByID s (jb_ID job), jb_Periodic job with
  | inr (Some launch), Some config =>
      let nextLaunch := PeriodicNext config (pn_Launch launch) in
      if IsZero nextLaunch || negb (nextLaunch <? now) then mret tt
      else wrapSrv "force run of periodic job %q failed: %v" [jb_ID job] (ServerForceRun (wallClock (sv_index sv)) (jb_ID job)) ≫= fun _ => mret tt
  | inl err, _ => srvErr (wrapErr "failed to get periodic launch time: %v" [] err)
  | inr None, _ => srvErr (errorf "failed to get periodic launch time: %v")
  | _, None => srvPanics
  end.

Definition restorePeriodicDispatcher : Srv Server unit :=
  s ← serverState;
  l ← srvWrap "failed to get periodic jobs: %v" [] (JobsByPeriodic s true);
  sv ← getServer;
  srvEach l (restorePeriodicJob (wallClock (sv_index sv))).

(** ** Turns of the goroutines of the leader *)

Definition coreJobEval (id job : string) (modifyIndex : Z) : Evaluation :=
  zeroEvaluation <| ev_ID := id |> <| ev_Priority := CoreJobPriority |> <| ev_Type := JobTypeCore |>
    <| ev_TriggeredBy := EvalTriggerScheduled |> <| ev_JobID := job |> <| ev_Status := EvalStatusPending |>
    <| ev_ModifyIndex := modifyIndex |>.

(** [schedulePeriodic] when the ticker of [CoreJobEvalGC], [CoreJobNodeGC] or [CoreJobJobGC]
    has ticked. *)
Definition scheduleCore (job : string) : Srv Server unit := fun sv =>
  match LatestIndex (fs_state (sv_fsm sv)) with
  | inl _ => Some (inr tt, sv)
  | inr index => onFSM (onBroker (fun b => Enqueue b (coreJobEval (newUUID (sv_index sv) 0) job index))) sv
  end.

(** The evaluation dequeued from the queue of failed ones, if any, is marked as failed and
    followed by another one after [wait]; [limit] is the delivery limit. *)
Definition failedEval (limit : Z) (eval : Evaluation) : Evaluation :=
  eval <| ev_Status := EvalStatusFailed |>
       <| ev_StatusDescription := "evaluation reached delivery limit (" +:+ formatInt limit +:+ ")" |>.

Definition reapFailed (limit wait : Z) (token : string) : Srv Server unit := fun sv =>
  match scanForSchedulers (BlockedEvals.evalBroker (fs_blockedEvals (sv_fsm sv))) [failedQueue] 0 token with
  | None => None
  | Some (b, r) =>
      let sv := sv <| sv_fsm ::= fun n => n <| fs_blockedEvals ::= fun bl => bl <| BlockedEvals.evalBroker := b |> |> |> in
      match r with
      | inr (Some (eval, token)) =>
          let followup := CreateFailedFollowUpEval (newUUID (sv_index sv) 0) eval wait in
          match commitEvals [failedEval limit eval; followup] sv with
          | None => None
          | Some (inl _, sv) => Some (inr tt, sv)
          | Some (inr _, sv) => ignoreFailure (EvalAck (ev_ID eval) token) sv
          end
      | _ => Some (inr tt, sv)
      end
  end.

(** The format %q, for identifiers that need no escapes. *)
Definition quoted (s : string) : string := let q := String (Ascii.ascii_of_nat 34) "" in q +:+ s +:+ q.

Definition cancelledEval (dup : Evaluation) : Evaluation :=
  dup <| ev_Status := EvalStatusCancelled |>
      <| ev_StatusDescription := "existing blocked evaluation exists for job " +:+ quoted (ev_JobID dup) |>.

(** An error of Raft is only logged. *)
Definition reapDuplicates : Srv Server unit := fun sv =>
  let '(b, dups) := GetDuplicates (fs_blockedEvals (sv_fsm sv)) in
  let sv := sv <| sv_fsm ::= fun n => n <| fs_blockedEvals := b |> |> in
  if (length dups =? 0)%nat then Some (inr tt, sv) else ignoreFailure (commitEvals (cancelledEval <$> dups)) sv.

Definition unblockFailedTurn (ord : list (Evaluation * string) → list (Evaluation * string)) : Srv Server unit :=
  onFSM (onBlocked (UnblockFailed ord)).

(** The handler of the message does not read its body. *)
Definition reconcileJobSummariesRPC : Srv Server unit :=
  s ← serverState;
  srvWrap "unable to read latest index: %v" [] (LatestIndex s) ≫= fun _ =>
  wrapSrv "reconciliation of job summaries failed: %v" []
    (raftApplyBytes (bytes1 (Z.lor ReconcileJobSummariesRequestType IgnoreUnknownTypeFlag))) ≫= fun _ =>
  mret tt.

(** ** Becoming the leader and stepping down *)

(** The server with its plan queue and, for each worker, whether it is paused. *)
Record Leader := mkLeader { ld_server : Server; ld_planQueue : PlanQueue; ld_paused : list bool }.
#[global] Instance eta_Leader : Eta Leader := fun r => mkLeader (ld_server r) (ld_planQueue r) (ld_paused r).

Definition onServer {A} (m : Srv Server A) : Srv Leader A := fun ld =>
  match m (ld_server ld) with None => None | Some (r, sv) => Some (r, ld <| ld_server := sv |>) end.

(** [SetPause] on the first [n] workers. *)
Definition setPauses (n : nat) (p : bool) (l : list bool) : list bool := imap (fun i old => if (i <? n)%nat then p else old) l.
Definition pauseWorkers (l : list bool) : list bool :=
  if (1 <? length l)%nat then setPauses (3 * length l / 4) true l else l.
Definition resumeWorkers (l : list bool) : list bool :=
  if (1 <? length l)%nat then setPauses (length l / 2) false l else l.

Definition onWorkers (f : list bool → list bool) : Srv Leader unit := fun ld => Some (inr tt, ld <| ld_paused ::= f |>).

Definition planQueueSetEnabled (on : bool) (q : PlanQueue) : option PlanQueue :=
  let q := q <| pq_enabled := on |> in if on then Some q else PlanQueueFlush q.

Definition onQueue (on : bool) : Srv Leader unit := fun ld =>
  q ← planQueueSetEnabled on (ld_planQueue ld);
  Some (inr tt, ld <| ld_planQueue := q |>).

Definition setTracker (on : bool) : FSM unit := onBroker (fun b => SetEnabled b on) ≫= fun _ => onBlocked (fun b => BlockedSetEnabled b on).

(** [SetEnabled] and [Start] of the periodic dispatcher. *)
Definition enablePeriodic : FSM unit := fun n =>
  Some (inr tt, n <| fs_periodicDispatcher ::= fun p => p <| pd_enabled := true |> <| pd_running := true |> |>).
Definition disablePeriodic : FSM unit := fun n =>
  Some (inr tt, n <| fs_periodicDispatcher ::= fun p => PeriodicFlush (p <| pd_enabled := false |> <| pd_running := false |>) |>).

(** [watcher] is the error of [SetEnabled] of the deployment watcher. *)
Definition establishLeadership (watcher : option GoError) : Srv Leader unit :=
  onWorkers pauseWorkers ≫= fun _ =>
  onQueue true ≫= fun _ =>
  onServer (onFSM (setTracker true)) ≫= fun _ =>
  (match watcher with Some err => srvErr err | None => mret tt end) ≫= fun _ =>
  onServer restoreEvals ≫= fun _ =>
  onServer restoreRevokingAccessors ≫= fun _ =>
  onServer (onFSM enablePeriodic) ≫= fun _ =>
  onServer restorePeriodicDispatcher ≫= fun _ =>
  onServer initializeHeartbeatTimers ≫= fun _ =>
  onServer (wrapSrv "unable to reconcile job summaries: %v" [] reconcileJobSummariesRPC).

Definition revokeLeadership (watcher : option GoError) : Srv Leader unit :=
  onQueue false ≫= fun _ =>
  onServer (onFSM (setTracker false)) ≫= fun _ =>
  onServer (onFSM disablePeriodic) ≫= fun _ =>
  (match watcher with Some err => srvErr err | None => mret tt end) ≫= fun _ =>
  onServer clearAllHeartbeatTimers ≫= fun _ =>
  onWorkers resumeWorkers.
End leader.

(** * What a new leader restores

    A server that becomes the leader has every evaluation of the store that is not finished
    in its broker or in its tracker; and what goes wrong when leadership changes. *)

Section restored.
Context `{CaseLib}.
Implicit Types (n : nomadFSM) (e : Evaluation) (b : BlockedEvals EvalBroker).

(** An evaluation of the store that is taken care of: pending ones by the broker, blocked
    ones by the broker or the tracker, which may hold another one of the job instead. *)
Definition covered b e : Prop :=
  (ev_Status e = EvalStatusPending → sink_accepts (evalBroker b) (ev_ID e)) ∧
  (ev_Status e = EvalStatusBlocked →
     sink_accepts (evalBroker b) (ev_ID e) ∨ blockedAt b (ev_ID e) (mkWrappedEval e "") ∨
     (e ∈ duplicates b ∧ ∃ id w, blockedAt b id w ∧ ev_JobID (we_eval w) = ev_JobID e)).

(** What is kept when the next evaluations are restored. *)
Record grows b b' : Prop := {
  gr_accepts : ∀ id, sink_accepts (evalBroker b) id → sink_accepts (evalBroker b') id;
  gr_blocked : ∀ id w, blockedAt b id w → blockedAt b' id w;
  gr_duplicates : ∀ e, e ∈ duplicates b → e ∈ duplicates b'
}.

Lemma covered_grows b b' e : grows b b' → covered b e → covered b' e.
Proof.
  intros [G1 G2 G3] [C1 C2]. split; [intros Hp; by apply G1, C1|]. intros Hb. destruct (C2 Hb) as [Hc|[Hc|(Hd & id & w & Hc & Ej)]].
  - left. by apply G1.
  - right. left. by apply G2.
  - right. right. split; [by apply G3|]. exists id, w. split; [by apply G2|done].
Qed.

Lemma Block_grows b e : BInv b → enabled (evalBroker b) = true → be_enabled b = true → same_job b e → grows b (Block b e).
Proof.
  intros Hb Hen Hbe Hj. unfold Block, processBlock. rewrite Hbe. cbn [negb]. destruct (BlockedEvals.jobs b !! ev_JobID e) as [id|] eqn:Ej.
  { split; try done. intros e' He'. apply elem_of_app. by left. }
  destruct (missedUnblock b e).
  { split; try done. apply (EnqueueAll_one (evalBroker b) e Hen). }
  assert (∀ id w, blockedAt b id w → id ≠ ev_ID e) as Hne.
  { intros id w Hw ->. destruct (b_key b Hb _ _ Hw) as [_ E]. rewrite (Hj w Hw) in E. congruence. }
  destruct (ev_EscapedComputedClass e); (split; [done| |done]); intros id w Hw; pose proof (Hne id w Hw); destruct Hw as [Hw|Hw]; unfold blockedAt; cbn;
    rewrite ?lookup_insert_ne by done; auto.
Qed.

(** The tracker holds evaluations of the store. *)
Definition tracks s b : Prop := ∀ id w, blockedAt b id w → stored evals s (we_eval w) ∧ id = ev_ID (we_eval w).

Lemma eval_ids s e e' : store_ok s → stored evals s e → stored evals s e' → ev_ID e = ev_ID e' → e = e'.
Proof.
  intros Hs [k Hk] [k' Hk'] E. destruct (uuid_row evals ev_ID s k e eq_refl Hs Hk) as (_ & _ & E1).
  destruct (uuid_row evals ev_ID s k' e' eq_refl Hs Hk') as (_ & _ & E2). assert (k = k') as <- by congruence. congruence.
Qed.

Record restorable_fsm s n : Prop := {
  rf_state : fs_state n = s;
  rf_leading : leading n;
  rf_tracker : BInv (fs_blockedEvals n);
  rf_tracks : tracks s (fs_blockedEvals n)
}.

Definition known_status e : Prop := 0 ≤ ev_SnapshotIndex e ∧ is_Some (ShouldEnqueue e).

Lemma Block_tracks s b e : stored evals s e → tracks s b → tracks s (Block b e).
Proof.
  intros He Ht. unfold Block, processBlock. destruct (be_enabled b); [cbn [negb]|done]. destruct (BlockedEvals.jobs b !! ev_JobID e); [done|].
  destruct (missedUnblock b e); [done|]. destruct (ev_EscapedComputedClass e); intros id w [Hw|Hw]; cbn in Hw.
  all: try (apply lookup_insert_Some in Hw as [[<- <-]|[_ Hw]]; [done|]).
  all: apply Ht; first [by left|by right].
Qed.

Lemma Block_covered b e : BInv b → enabled (evalBroker b) = true → be_enabled b = true → ev_Status e = EvalStatusBlocked → covered (Block b e) e.
Proof.
  intros Hb Hen Hbe Est. split; [by rewrite Est|]. intros _. unfold Block, processBlock. rewrite Hbe. cbn [negb].
  destruct (BlockedEvals.jobs b !! ev_JobID e) as [id|] eqn:Ej.
  - right. right. split; [apply elem_of_app; right; left|]. destruct (b_jobs b Hb _ _ Ej) as (w & Hw & E). by exists id, w.
  - destruct (missedUnblock b e); [left; exact (proj1 (proj2 (EnqueueAll_one (evalBroker b) e Hen)))|].
    right. left. unfold blockedAt. destruct (ev_EscapedComputedClass e); cbn; rewrite lookup_insert_eq; auto.
Qed.

Lemma known_cases e : is_Some (ShouldEnqueue e) →
  (ev_Status e = EvalStatusPending ∧ ShouldEnqueue e = Some true) ∨
  (ev_Status e = EvalStatusBlocked ∧ ShouldEnqueue e = Some false ∧ ShouldBlock e = Some true) ∨
  (ev_Status e ≠ EvalStatusPending ∧ ev_Status e ≠ EvalStatusBlocked ∧ ShouldEnqueue e = Some false ∧ ShouldBlock e = Some false).
Proof.
  unfold ShouldEnqueue, ShouldBlock. destruct (decide (ev_Status e = EvalStatusPending)) as [->|Hp]; [by left|].
  rewrite (bool_decide_eq_false_2 (_ = EvalStatusPending)) by done. intros [v Hv]. right.
  destruct (decide (ev_Status e = EvalStatusBlocked)) as [->|Hb]; [by left|]. right.
  rewrite (bool_decide_eq_false_2 (_ = EvalStatusBlocked)), !orb_false_r in * by done. by destruct (_ || _ || _).
Qed.

Lemma restoreEval_step s e n : store_ok s → restorable_fsm s n → stored evals s e → known_status e → ∃ n', restoreEval e n = Some (inr tt, n') ∧
  restorable_fsm s n' ∧ covered (fs_blockedEvals n') e ∧ grows (fs_blockedEvals n) (fs_blockedEvals n').
Proof.
  intros Hs [Hst [Hen Hbe] Hb Ht] He [Hsn [enq Hq]]. unfold restoreEval, mbind, FSM_bind.
  assert (same_job (fs_blockedEvals n) e) as Hj.
  { intros w Hw. destruct (Ht _ _ Hw) as [Hw1 Hw2]. by rewrite (eval_ids s (we_eval w) e Hs Hw1 He) by done. }
  destruct (known_cases e ltac:(by exists enq)) as [(Hp & Eq)|[(Hp & Eq & Eb)|(Hp & Hbl & Eq & Eb)]]; rewrite Eq; cbn [orPanic mret FSM_ret].
  - destruct (EnqueueAll_one (evalBroker (fs_blockedEvals n)) e Hen) as (A1 & A2 & A3). eexists. split; [reflexivity|].
    split; [split; [done|by split|destruct Hb; by split|done]|]. split; [split; [done|by rewrite Hp]|by split].
  - rewrite Eb. destruct (Block_outcomes (fs_blockedEvals n) e Hen Hbe) as (A1 & A2 & _). eexists. split; [reflexivity|].
    split; [split; [done|by split|by apply processBlock_BInv|by apply Block_tracks]|]. split; [by apply Block_covered|by apply Block_grows].
  - rewrite Eb. eexists. split; [reflexivity|]. split; [split; [done|by split|done|done]|]. split; [by split|by split].
Qed.

Lemma restoreEvals_steps s l : store_ok s → ∀ n, restorable_fsm s n → Forall (fun e => stored evals s e ∧ known_status e) l → ∃ n', eachDo l restoreEval n = Some (inr tt, n') ∧
  restorable_fsm s n' ∧ (∀ e, e ∈ l → covered (fs_blockedEvals n') e) ∧ grows (fs_blockedEvals n) (fs_blockedEvals n').
Proof.
  intros Hs. induction l as [|e l IH]; intros n Hn Hl; cbn [eachDo].
  - exists n. split; [done|]. split; [done|]. split; [by intros e ?%not_elem_of_nil|by split].
  - apply Forall_cons in Hl as [[He Hk] Hl]. destruct (restoreEval_step s e n Hs Hn He Hk) as (n1 & E1 & Hn1 & Hc1 & Hg1).
    destruct (IH n1 Hn1 Hl) as (n2 & E2 & Hn2 & Hc2 & Hg2). exists n2. split; [unfold mbind, FSM_bind; by rewrite E1|]. split; [done|]. split.
    + intros e' [->|He']%elem_of_cons; [by eapply covered_grows|by apply Hc2].
    + destruct Hg1, Hg2. split; auto.
Qed.

Lemma tracker_enabled s n : BInv (fs_blockedEvals n) → be_enabled (fs_blockedEvals n) = false → fs_state n = s →
  ∃ n', setTracker true n = Some (inr tt, n') ∧ restorable_fsm s n'.
Proof.
  intros Hb Hd Hs. eexists. split; [reflexivity|]. assert (∀ b' : EvalBroker, BInv ((fs_blockedEvals n) <| BlockedEvals.evalBroker := b' |>)) as Hb'.
  { intros b'. destruct Hb. by split. }
  destruct (b_disabled _ Hb Hd) as [E1 E2]. split; [done|split|apply SetEnabled_BInv, Hb'|].
  - unfold onBroker, onBlocked, BlockedSetEnabled. cbn. rewrite Hd. by rewrite bool_decide_eq_false_2.
  - unfold BlockedSetEnabled. cbn. rewrite Hd. by rewrite bool_decide_eq_false_2.
  - intros id w. unfold BlockedSetEnabled. cbn. rewrite Hd, bool_decide_eq_false_2 by done. unfold blockedAt. cbn. rewrite E1, E2. by intros [].
Qed.

(** C12. A new leader takes over every unfinished evaluation of the store.  Enabling the broker
    and the tracker and restoring the evaluations succeeds whatever the order of the rows
    is, and changes nothing of the store.  Afterwards the broker has every pending
    evaluation in its care; every blocked one is in the tracker, or in the broker because
    capacity had appeared, or it is reported as a duplicate of another evaluation of its
    job that the tracker holds. *)
Theorem failover_restores_evals (sv : Server) :
  let s := fs_state (sv_fsm sv) in
  store_ok s → BInv (fs_blockedEvals (sv_fsm sv)) → be_enabled (fs_blockedEvals (sv_fsm sv)) = false → (∀ e, stored evals s e → known_status e) →
  ∃ sv', (onFSM (setTracker true) ≫= (fun _ => restoreEvals)) sv = Some (inr tt, sv') ∧ fs_state (sv_fsm sv') = s ∧
    leading (sv_fsm sv') ∧ BInv (fs_blockedEvals (sv_fsm sv')) ∧ ∀ e, stored evals s e → covered (fs_blockedEvals (sv_fsm sv')) e.
Proof.
  intros s Hs Hb Hd Hk. destruct (tracker_enabled s _ Hb Hd eq_refl) as (n1 & E1 & Hn1). destruct (all_rows evals s Hs) as (l & El & _ & Hl).
  destruct (restoreEvals_steps s l Hs n1 Hn1) as (n2 & E2 & [Hs2 Hl2 Hb2 _] & Hc & _).
  { apply Forall_forall. intros e He%Hl. auto. }
  exists (sv <| sv_fsm := n1 |> <| sv_fsm := n2 |>). split; [unfold mbind, Srv_bind, onFSM at 1; rewrite E1|split; [exact Hs2|split; [exact Hl2|split; [exact Hb2|intros e He; by apply Hc, Hl]]]].
  unfold restoreEvals, mbind, Srv_bind, serverState, Evals. change (fs_state (sv_fsm (sv <| sv_fsm := n1 |>))) with (fs_state n1). rewrite (rf_state _ _ Hn1), El. cbn [srvWrap]. unfold onFSM. cbn. by rewrite E2.
Qed.
End restored.

(** ** The workers of a leader that steps down *)

Lemma setPauses_lookup n p l i : setPauses n p l !! i = (fun old => if (i <? n)%nat then p else old) <$> l !! i.
Proof. apply list_lookup_imap. Qed.

Lemma length_setPauses n p l : length (setPauses n p l) = length l.
Proof. apply length_imap. Qed.

(** A server that stops being the leader does not resume all its workers.  Of its workers
    it pauses three quarters when it becomes the leader, and resumes half when it steps
    down: if it has at least three, those from the half to the three quarters stay paused. *)
Theorem workers_stay_paused (n i : nat) : (3 ≤ n)%nat →
  resumeWorkers (pauseWorkers (replicate n false)) !! (n / 2)%nat = Some true ∧
  ((i < n)%nat → resumeWorkers (pauseWorkers (replicate n false)) !! i = Some (negb (i <? n / 2)%nat && (i <? 3 * n / 4)%nat)).
Proof.
  intros Hn. assert (∀ k, (k < n)%nat → resumeWorkers (pauseWorkers (replicate n false)) !! k = Some (negb (k <? n / 2)%nat && (k <? 3 * n / 4)%nat)) as Hk.
  { intros k Hk. unfold resumeWorkers, pauseWorkers. rewrite length_replicate. rewrite (proj2 (Nat.ltb_lt 1 n)) by lia. rewrite length_setPauses, length_replicate.
    rewrite (proj2 (Nat.ltb_lt 1 n)) by lia. rewrite !setPauses_lookup, lookup_replicate_2 by done. cbn [fmap option_fmap option_map].
    destruct (k <? n / 2)%nat, (k <? 3 * n / 4)%nat; done. }
  split; [|apply Hk]. rewrite Hk by (apply Nat.div_lt; lia). rewrite Nat.ltb_irrefl. cbn [negb andb]. f_equal. apply Nat.ltb_lt.
  pose proof (Nat.div_mod_eq n 2). pose proof (Nat.mod_upper_bound n 2 ltac:(lia)). pose proof (Nat.div_mod_eq (3 * n) 4). pose proof (Nat.mod_upper_bound (3 * n) 4 ltac:(lia)). lia.
Qed.

Lemma workers_stay_paused_witness : resumeWorkers (pauseWorkers (replicate 8 false)) !! 4%nat = Some true.
Proof. apply (workers_stay_paused 8 0). lia. Defined.
