(* ===== verification/ServerDemo.v ===== *)
(** * A small server

    Servers with a small store, on which the properties of the endpoints and of the leader
    are used. *)

From stdpp Require Import base gmap strings list sorting.
From Stdlib Require Import ZArith Lia.
From S2P Require Import Prelude GoText GoHeap Timers Structs EvalBroker EvalBrokerCore EvalBrokerInv EvalBrokerProps BlockedEvals BlockedEvalsProps Bitmap Resources Jobs Allocs Network NetworkAssign Fit Plans AllocSets SchedContext Feasible Stack StackProps SchedUtil MemDB MemDBSpec StateStore StoreSpec StoreInv StoreQuery StoreStatus StoreAllocs StoreVersions StoreProps TimeTable Periodic PeriodicProps JobCanon Harness HarnessSpec Fsm FsmRestore FsmSpec FsmAgree FsmProps FsmDemo CoreSched CoreProps Server ServerJobs ServerProps Leader.
Open Scope string_scope.
Open Scope list_scope.
Open Scope Z_scope.

#[local] Existing Instance demoText.
#[local] Existing Instance demoLibs.
#[local] Existing Instance hourly.
#[local] Instance plainUpper : UpperLib := fun s => s.
#[local] Instance plainLaws : UpperLaws.
Proof. done. Qed.
#[local] Instance plainEnv : SchedEnv := demoEnv 1.

(** Raft commits, nothing is validated, and Vault is off. *)
#[local] Instance smallServer : ServerEnv :=
  Build_ServerEnv (fun _ => Committed) (fun _ _ => TimeUnix 1500000000) (fun _ => TimeUnix 0) (fun i k => idOf ("f" +:+ formatInt (i + Z.of_nat k)))
    (fun _ => 0) (fun _ => None) (fun _ => inr 0) (f64 50) 10 10 300.
#[local] Instance smallJobs : JobEnv := Build_JobEnv (fun _ => None) false false (fun _ => inr []) (fun s => "c" +:+ s).

(** ** Two clients change a job *)

Definition webWith (priority : Z) : Job := web <| jb_Priority := priority |>.
Definition enforced (priority : Z) : JobRegisterRequest := mkJobRegisterRequest (Some (webWith priority)) true 1.
Definition requestKey (r : JobRegisterRequest) : string := from_option (fun j => formatInt (jb_Priority j)) "" (jrr_Job r).
Definition committedJob (priority : Z) : JobRegisterRequest := mkJobRegisterRequest (Some (preparedJob (webWith priority))) true 1.
Definition committedEval (i priority : Z) : EvalUpdateRequest :=
  mkEvalUpdateRequest [jobEval (idOf ("f" +:+ formatInt i)) (webWith priority) i] "".
Definition evalKey (r : EvalUpdateRequest) : string := String.concat " " (ev_ID <$> eu_Evals r).

#[local] Instance smallRequests : RequestCodec :=
  let none {A} : Codec A := knownCodec (fun _ => "") [] in
  Build_RequestCodec none none none none (knownCodec requestKey [committedJob 60; committedJob 70]) none
    (knownCodec evalKey [committedEval 2 60; committedEval 4 70]) none none none none none none none none none.

Definition serverWith (s : StateStore) (blocked : BlockedEvals EvalBroker) : Server :=
  mkServer ((server blocked) <| fs_state := s |>) 1 ∅.
Definition webServer : Server := serverWith (run [(1, OpUpsertJob (preparedJob web))]) tracker0.

(** The replies of two requests whose checks both run before the first commit, with the
    job that is registered in the end. *)
Definition interleaved : option (JobRegisterResponse * JobRegisterResponse * option Job) :=
  match checkRegister (enforced 60) "" webServer, checkRegister (enforced 70) "" webServer with
  | Some (inr (p1, e1), _), Some (inr (p2, e2), _) =>
      match commitRegister (enforced 60) p1 e1 webServer with
      | Some (inr r1, sv1) =>
          match commitRegister (enforced 70) p2 e2 sv1 with
          | Some (inr r2, sv2) => Some (r1, r2, StoreProps.registeredJob (fs_state (sv_fsm sv2)) "web")
          | _ => None
          end
      | _ => None
      end
  | _, _ => None
  end.

(** One after the other: whether the second one fails. *)
Definition inTurn : option bool :=
  match JobRegister (enforced 60) "" webServer with
  | Some (inr _, sv1) => match JobRegister (enforced 70) "" sv1 with Some (inl _, _) => Some true | Some (inr _, _) => Some false | None => None end
  | _ => None
  end.



(** ** A parameterized job *)

Definition resize : Job := web <| jb_ID := "resize" |> <| jb_Type := JobTypeBatch |> <| jb_Meta := {["size" := "1"]} |>
  <| jb_ParameterizedJob := Some (mkParameterizedJobConfig DispatchPayloadRequired ["image"] ["size"]) |>.
Definition resizeServer : Server := serverWith (run [(1, OpUpsertJob (preparedJob resize))]) tracker0.
Definition resizeRequest (meta : gmap string string) : JobDispatchRequest := mkJobDispatchRequest "resize" "data" meta.

Lemma dispatch_contract_witness :
  (∃ job child, dispatched job (resizeRequest {["image" := "a.png"]}) child ∧
     JobDispatch (resizeRequest {["image" := "a.png"]}) resizeServer = commitDispatch child resizeServer ∧ jb_Meta child !! "size" = Some "1") ∧
  ∃ err, JobDispatch (resizeRequest {["size" := "2"]}) resizeServer = Some (inl err, resizeServer).
Proof.
  destruct (JobByID (fs_state (sv_fsm resizeServer)) "resize") as [e|[job|]] eqn:Ej; [vm_compute in Ej; discriminate| |vm_compute in Ej; discriminate].
  assert (jb_ParameterizedJob job = Some (mkParameterizedJobConfig DispatchPayloadRequired ["image"] ["size"]) ∧ jb_Stop job = false ∧
    jb_Meta job !! "size" = Some "1") as (Ep & Es & Em) by (assert (E' := Ej); vm_compute in E'; injection E' as <-; split_and!; vm_compute; reflexivity).
  split.
  - destruct (dispatch_contract (resizeRequest {["image" := "a.png"]}) resizeServer job _ ltac:(done) Ej Ep Es) as [Hd _]. destruct Hd as (child & Hc & E).
    + apply validateDispatchRequest_spec. vm_compute. reflexivity.
    + exists job, child. split; [exact Hc|]. split; [exact E|]. rewrite (dj_meta _ _ _ Hc). exact Em.
  - apply (dispatch_contract (resizeRequest {["size" := "2"]}) resizeServer job _ ltac:(done) Ej Ep Es).
    intros [_ _ _ _ Hr]. destruct (Hr "image" ltac:(left)) as [v Hv]. vm_compute in Hv. discriminate.
Defined.

(** ** A node goes down *)

Definition nodeServer : Server := serverWith gcStore' tracker0.

Lemma nodeServer_jobs : ∀ a, stored allocs gcStore' a → is_Some (al_Job a).
Proof.
  intros a Ha. destruct (all_rows allocs gcStore' gcStore'_ok) as (l & El & _ & Hl). apply Hl in Ha. vm_compute in El. injection El as <-.
  apply list_elem_of_In in Ha. destruct Ha as [<-|[<-|[]]]; vm_compute; eexists; reflexivity.
Qed.

Lemma node_evals_exact_witness : ∃ evs, (∀ j, j ∈ (ev_JobID <$> evs) ↔ concerned (fs_state (sv_fsm nodeServer)) (idOf "01") j) ∧
  createNodeEvals (idOf "01") 2 nodeServer = (if (length evs =? 0)%nat then mret ([], 0) else i ← commitEvals evs; mret (ev_ID <$> evs, i)) nodeServer ∧
  concerned gcStore' (idOf "01") "web".
Proof.
  destruct (node_evals_exact (idOf "01") 2 nodeServer gcStore'_ok) as (evs & _ & Hj & _ & _ & E & _).
  - decided.
  - exact nodeServer_jobs.
  - split; vm_compute; reflexivity.
  - exists evs. split; [exact Hj|]. split; [exact E|]. left.
    destruct (allocs_by_node_prefix gcStore' (idOf "01") gcStore'_ok ltac:(decided)) as (l & El & Hl). vm_compute in El. injection El as <-.
    eexists. split; [|split]; [apply Hl; left|apply Hl; left|reflexivity].
Defined.

(** ** A scheduler that lost its evaluation *)

Definition lateUpdate : EvalUpdateRequest := mkEvalUpdateRequest [FsmDemo.webEval "e1" EvalStatusComplete] "lost".

Lemma stale_worker_fenced_witness : ∃ err, EvalUpdate lateUpdate nodeServer = Some (inl err, nodeServer) ∧ EvalReblock lateUpdate nodeServer = Some (inl err, nodeServer).
Proof.
  apply (stale_worker_fenced nodeServer lateUpdate (FsmDemo.webEval "e1" EvalStatusComplete) eq_refl).
  intros ua Hu. vm_compute in Hu. discriminate.
Defined.

(** ** A follower becomes the leader *)

Definition failoverOps : list (Z * StoreOp) :=
  [(1, OpUpsertJob web); (2, OpUpsertEvals [FsmDemo.webEval "e1" EvalStatusPending; FsmDemo.webEval "e2" EvalStatusBlocked; FsmDemo.webEval "e3" EvalStatusBlocked; FsmDemo.webEval "e4" EvalStatusComplete])].
Definition failoverServer : Server := serverWith (run failoverOps) idleTracker.

Lemma failover_ok : store_ok (run failoverOps).
Proof. apply run_ok. repeat (apply Forall_cons; split; [first [exact web_ok|cbn [snd proper_op]; proper_rows]|]). by apply Forall_nil. Qed.

Lemma failover_known : ∀ e, stored evals (run failoverOps) e → known_status e.
Proof.
  intros e He. destruct (all_rows evals (run failoverOps) failover_ok) as (l & El & _ & Hl). apply Hl in He. vm_compute in El. injection El as <-.
  apply list_elem_of_In in He. destruct He as [<-|[<-|[<-|[<-|[]]]]]; (split; [done|vm_compute; eexists; reflexivity]).
Qed.

Lemma failover_restores_evals_witness : ∃ sv', (onFSM (setTracker true) ≫= (fun _ => restoreEvals)) failoverServer = Some (inr tt, sv') ∧
  leading (sv_fsm sv') ∧ ∀ e, stored evals (fs_state (sv_fsm failoverServer)) e → covered (fs_blockedEvals (sv_fsm sv')) e.
Proof.
  destruct (failover_restores_evals failoverServer failover_ok) as (sv' & E & _ & Hl & _ & Hc).
  - apply (tk_tracker _ _ _ idleTracker_ok).
  - vm_compute. reflexivity.
  - exact failover_known.
  - exists sv'. split; [exact E|]. split; [exact Hl|exact Hc].
Defined.
